(* ===== verification/_CoqProject ===== *)
-Q . S2P
Prelude.v
Types.v
Msg.v
Wire.v
Codec.v
Revision.v
Perf.v
Float.v
ServerHandles.v
Session.v
SessionInv.v
Sessions.v
ClientTypes.v
Owners.v
ClientHandles.v
Machine.v
Caller.v
Inodes.v
Readahead.v
Fuse.v
FuseInv.v
FuseSafe.v
FuseWorld.v
FuseDirs.v
FuseLoops.v
Invalidate.v
Watch.v
WatchTable.v
WatchInv.v
WatchSafety.v
WatchLoop.v
Dirents.v
Sys.v
Export.v
Ops.v
OpsLogic.v
OpsSafe.v
OpsAttr.v
OpsOpen.v
OpsIO.v
Serve.v
Conn.v
Events.v
Pair.v
Control.v
Text.v
Proc.v
Inflight.v
Holders.v
Meters.v
Hub.v
Interest.v
Answer.v
Stalls.v
Show.v
Lookout.v
Reports.v
Ctl.v
