(* ===== verification/Prelude.v ===== *)
(** * jackalopefs: a verified model of a client/server network filesystem

    jackalopefs serves a directory over QUIC and mounts it elsewhere through
    FUSE.  This library models the parts of it that decide what happens: how a
    session's changes are ordered across lost connections, how the client sends,
    gives up on, resends and cleans up after its calls, how it keeps a connection up,
    how the mount answers the kernel and keeps its caches true, what the server does
    to the exported directory for a request and what it answers, what each end does
    with handles, owners, names and nodes, how messages cross the wire, and what the
    server watches and tells clients of changes.  Definitions are translated from the Rust sources under
    [src/crates]; they are executable, and every theorem with a hypothesis has a
    witness that evaluates them.

    ** The program and the files

    The protocol crate ([proto]) is shared by both ends.
    - [Types.v]: names, paths, attributes ([types.rs]).
    - [Msg.v]: requests, replies, events, the handshake's messages, and what both
      ends ask of a request: the handles it names, whether it takes part in the
      session's ordering ([msg.rs]).
    - [Wire.v]: every message to and from the schema ([wire.rs]).  The generated
      accessors are a structured value ([build] makes it, [parse] reads it).
    - [Codec.v]: frames and their limits ([codec.rs]).  The Cap'n Proto library is a
      class of its documented behaviour.
    - [Revision.v]: the revision's hash and fingerprints ([lib.rs]).
    - [Owners.v]: POSIX ACLs and the owners of replies ([owners.rs]), the server's
      [--ids] policy (module [ServerIds], [server/src/ids.rs]) and the client's
      (module [ClientIds], [client/src/ids.rs]).

    The server ([server]).
    - [ServerHandles.v]: the pool of handles and each session's table
      ([handles.rs]).
    - [Session.v]: one session's ordering ([session.rs]: [Attachment],
      [Exchange], [SessionState]).  A change runs only on the session's current
      connection, and a change arriving while earlier ones run unanswered is held
      until they finish.  The operations are functions; [session_step] interleaves
      them as the tasks of the connections do, one step per critical section of
      the session's lock.
    - [SessionInv.v]: the invariants of that step relation and what follows.
    - [Sessions.v]: the table of sessions and the handshake ([session.rs]:
      [Sessions], [handshake], connection claims).  A session is a shared object:
      the table of a stored session and the requests that hold it see the same
      state.
    - [Dirents.v]: directory listings ([dirents.rs], and the entry size of
      [proto/src/wire.rs]).
    - [Sys.v]: system calls and shared state as effects, a request's work as a tree of
      them ([Prog]), its traces, and a program logic over those ([triple]).
    - [Export.v]: how paths are resolved and attributes read ([export.rs]); [Ops.v]:
      what each request does ([ops.rs]: [dispatch]), as such programs.
    - [OpsLogic.v]: rules for whole programs ([disciplined]) and a small environment to
      run them in.  [OpsSafe.v], [OpsAttr.v], [OpsOpen.v], [OpsIO.v]: what is proved of
      every request's traces.
    - [Serve.v]: a request's handler ([session.rs]: [handle_request]), from its decoding
      to what its stream is told, as a step relation over a session.
    - [Events.v]: events from the server's channel to a session's stream
      ([session.rs]: [forward_events]) and from there to the invalidator's queue
      ([client/src/conn.rs]: [read_events]).
    - [Watch.v]: which changes each session is told of ([watch.rs]: items, change
      log, debounce window, batches).
    - [WatchTable.v]: the directories watched ([watch.rs]: [Table], [Watches]): arming
      them, budget and eviction, and what the kernel's events do to them.  The trait
      [Marks] is a class.  [WatchInv.v] has the invariant, [WatchSafety.v] what follows,
      [WatchLoop.v] the event thread: its reads, its window's deadline, its failures.

    The client ([client]).
    - [ClientTypes.v]: errors and the keys of files ([client.rs], [inodes.rs]).
    - [ClientHandles.v]: open handles and releases owed ([handles.rs]).  Records
      are shared by the table, calls and reopen rounds, so they live in a store
      and an [Arc] is an index of it.
    - [Machine.v]: the protocol's steps ([machine.rs]): a call's state, what opens
      and releases leave, a new session's round of reopens.
    - [Caller.v]: an exchange on a stream, the wait for a connection, a call with
      its retries, opens and releases ([client.rs]).  What the network, the clock
      and the kernel do is a list given to the functions.
    - [Conn.v]: trying the addresses, and the manager that keeps one connection up,
      reopens handles and sends the releases owed ([conn.rs]), as a step relation.
    - [Inodes.v]: node numbers, names and paths ([inodes.rs]).
    - [Readahead.v]: runs of sequential reads ([readahead.rs]).
    - [Fuse.v]: the front end ([fuse.rs]) and the typed calls under it ([client.rs]).
      A handler is a [Prog]: atomic steps on the shared state, calls whose outcome is
      the environment's, and jumps to the head of a loop.
    - [FuseInv.v], [FuseSafe.v]: what a program may do between the other tasks' steps
      ([safe]), and that every handler does no more.
    - [FuseWorld.v]: the kernel, all tasks and the other threads as a step relation,
      its invariant, and schedules that can be run.
    - [FuseDirs.v], [FuseLoops.v]: listing a directory through the mount; the loops end.
    - [Invalidate.v]: server events and reconnects as calls to the kernel
      ([invalidate.rs]).
    - [Proc.v]: what the kernel's status texts say of a thread: its pending signals
      ([signals.rs]), its process and name ([procs.rs]).
    - [Inflight.v]: the requests the mount is answering and the kernel's interrupts of
      them ([fuse.rs]: the registry, [interrupt], [judge_interrupts]), as a step relation.
    - [Holders.v]: the report of who holds handles ([handles.rs], [fuse.rs]).

    Both together: [Pair.v], a client's calls, the network and the server's session as one
    step relation ([machine.rs], [client.rs], [session.rs]).

    Measurement: [Perf.v], stall reports and latency histograms ([perf]); [Meters.v], the
    totals of requests, the meters of connections, ports and the host, what they conclude and
    their lines ([perf/src/lib.rs]); [Control.v], the
    messages of the control socket ([proto/src/control.rs]); [Hub.v], a subscriber's tap and
    the records offered to it, and [Interest.v], the hub's list of taps, who wants what, and
    the exchanges captured ([hub.rs], [events.rs]); [Answer.v], a connection of the control
    socket ([perf/src/control.rs]); [Stalls.v], the server's account of the requests it is
    answering and its stall watchdog ([stall.rs], [server/src/perf.rs], [watchdog.rs]);
    [Lookout.v], the client's ([client/src/perf.rs], [watchdog.rs]); [Reports.v], what requests
    and reports say of themselves ([client.rs], [session.rs]) and the mount table
    ([mount.rs]); [Show.v], a request in a log line ([msg.rs]); [Ctl.v], the
    control tool's library ([ctl/src/lib.rs]).  [Text.v] and [Float.v] are what these use of
    the standard library's texts and of its 64-bit floating-point numbers.

    How they interact: the kernel's request is a task of [FuseWorld.World], whose
    [Call]s end as [Caller.call] says; a call asks [Machine] when to send and what an
    outcome means and [ClientHandles] for the records of its handles; the request
    crosses [Owners] and [Codec] on the way out and its reply on the way in; on the
    server it is a [Serve.Handler] and so a flight of [Session.World], which runs
    [Ops.dispatch] once [begin_] gives it a guard, and an open takes a slot of
    [ServerHandles] as it begins.  When a connection is lost, [Sessions_resume]
    moves the session to a new epoch; when the session is lost, [Conn]'s manager has the
    client's [ReopenRound] open its handles again.  What the server watches ([WatchTable])
    becomes events ([Watch]), which cross [Events], and those become work for the kernel ([Invalidate]),
    whose steps are among the [others] of [FuseWorld].

    ** Conventions

    A machine integer is a [Z]; where it wraps or saturates, that is written out
    ([wrap64], [sat_add64]); counters that only count what a table holds are left
    unbounded, and the theorems equate them with what they count.  Rust's [Result]
    is [result]; a panic ([unreachable!], [assert!], [expect]) is [None] of an
    [option] or [Panicked], and theorems show it is not reached.  A [HashMap] is a
    [gmap], whose iteration order is the model's own; no theorem depends on it.
    A [BTreeMap] iterates in key order.  A lock that guards one operation makes
    the operation one step.  Log lines are left out, and the
    texts of errors are parameters where a text shows them.

    ** What the theorems show

    - Ordering ([SessionInv]): changes of two connections never run at once; a
      change runs only after what it was fenced behind; a refused change never
      runs; the counters are exact, no assertion fails, and no wake-up is lost.
    - A client and its session ([Pair]): changes take effect in the order in which the
      client sent them after others had ended for it, whatever is delayed or lost.
    - Sessions: a session with anything under way stays resumable; resume, create,
      reap and the handshake do what they promise and leave nothing on failure.
    - Calls ([Caller]): a request is written whole at most twice, at most once
      unless repeating it is safe; resends go on newer connections; a change waits
      for the cancels before it; an open leaves a handle or an owed release.
    - Handles ([ClientHandles], [Machine], [ServerHandles]): counts are exact and
      nothing leaks; an owed release is sent once per connection until answered; a
      round of reopens settles every handle, keeping only the same file alive.
    - Operations ([OpsSafe], [OpsAttr], [OpsOpen], [OpsIO]): no request reaches outside
      the export; one that is not ordered changes nothing, and a change is on record
      as the session's own, but for a [Setattr] through a directory's handle that names
      no path and paths too long for an event; an open uses its slot once; reads and
      writes are whole, at their offset or, with [O_APPEND], at the file's end; every
      request ends with a response.
    - Handlers ([Serve]): a stream is told what became of its request, and a handler's
      steps are the session machine's.
    - Connections ([Conn]): a sweep ends as its candidates decide; one connection at a
      time; a changed root leaves no handle alive.  Events ([Events]) are not lost
      untold.
    - Owners: a flattening server discloses no owner, and an owned mount never
      trips over it and shows exactly the server's user's files as the user's own.
    - Nodes ([Inodes]): a number names one file; names and nodes agree; paths are
      right and found.
    - The mount ([FuseWorld], [FuseDirs], [FuseLoops]): under every interleaving a
      node lives exactly as long as the kernel knows it, and attributes given for it
      are its file's, or what the server answered of the kernel's own handle; a directory
      read page by page is the server's listing; every request, run alone and with no
      chain of names deeper than a path can be, comes to its reply.
    - Invalidation ([Invalidate]): nothing asked for is lost but to a sweep, and a
      sweep covers everything.  Read-ahead accounts ([Readahead]) are exact.
    - The wire ([Wire], [Codec]): messages and frames read back as they were sent;
      what is decoded is valid; a cut frame is the end of the stream, and reading
      one ends within its limit.
    - Watching ([WatchSafety]): until the root's own watch ends, the table is what the
      kernel was asked to watch;
      arming gives a guard; eviction spares what is held and says what it takes.  What
      the kernel reports is told, in order and within the window ([WatchLoop]).
    - Interrupts ([Inflight], [Proc]): a request is abandoned only for an interrupt that
      stands, and none that stands is lost; a pending signal is read off exactly.
    - Measurement: the control socket's messages read back as they were sent; a tap keeps
      its bounds and accounts for every record offered ([Hub]); the counters that say
      whether anyone looks are true to the taps ([Interest]); a subscriber is told
      everything or told what it was not ([Answer]); windows of the meters add up
      ([Meters]); the report of handles counts each once ([Holders]); a stalled request is
      reported in time, by name or by count, and its end told in the log, but for one race
      ([Stalls]); the client's windows
      lose nothing ([Lookout]); the phases of an attempt cover its time, and a path of the
      mount table reads back ([Reports]).
    - The control tool ([Ctl]): a quantile is the bucket of the value of its rank, up to
      the rounding of one product of floats ([Float]); a
      capture reads back as far as it was written; what is shown acts on no terminal.
    - Listings ([Dirents]) are the directory's records exactly; notification
      ([Watch]) withholds nothing but a session's own changes.

    A theorem about what the code makes (flags, a listing, a rank, a row, a line) says it
    in terms of its own: literal bounds and bits, relations between the input and the
    output ([Dirents.listed], [Float.ranked], [Holders.reports], [Stalls.found_said],
    [Events.told]), not the definitions it is about.

    ** Fuel and bounds

    [Inodes.names_to] takes the source's own depth guard as fuel, shown to cut no
    path that fits the wire; [Inodes.free_from] takes the number of nodes and one,
    shown to be enough while the table is short of all 64-bit numbers;
    [Dirents.parse_from] takes the buffer's length, shown irrelevant beyond it;
    [Codec.fill] takes the chunks of a frame, [WatchTable.evict_loop] the directories
    wanted, both shown to be enough; [Fuse.exec_loop] takes the turns of a loop, and
    [FuseLoops.loops_end] says how many are needed.
    [Ctl.read_records] takes one turn for each record and one for the end, enough by
    [Ctl.capture_reads_back]; [Meters.scale_units] recurses on the units left.
    The loops of [Ops] take [turns], and [OpsIO.requests_reach_a_reply] says how many
    are enough for a run.  Loops that wait on the environment ([Caller.attempt],
    [Dirents.read_calls]) recurse on the list of what happened.

    ** What is not modelled

    The kernel's own behaviour: a system call answers as the environment says, and a
    theorem that needs more names it ([OpsIO.kernel], [OpsIO.file_contract]).
    Process setup ([main.rs], [tls.rs], [transport.rs], starting and ending a mount) and the
    front end's negotiation with the kernel are calls of libraries with constants.  QUIC,
    Cap'n Proto's own code and the vendored [fuser] are other projects'.  The thread that
    ticks a watchdog and the threads that read callers' names are the environment of its
    checks; the log ([logging.rs]) is setup.  The accept loops of the server and the
    endpoints' configuration are IO around [Sessions] and [Conn].  The trace recorder and the drivers of the
    model-based tests ([spec_trace.rs], [mbt]) are tests. *)

From Stdlib Require Export ZArith Lia.
From Stdlib Require Import Strings.Byte Sorting.Sorted.
From stdpp Require Export base tactics list gmap fin_maps fin_sets strings.

#[global] Open Scope Z_scope.

(** ** Results

    Rust's [Result<T, E>]; the error type comes first so that [result E] is a
    functor.  A Rust panic ([unreachable!], [assert!], [expect]) is modelled by
    [None] of an [option] around the value of the operation. *)

Inductive result (E A : Type) : Type :=
| Ok (a : A)
| Err (e : E).
Arguments Ok {E A} a.
Arguments Err {E A} e.

#[export] Instance result_ret E : MRet (result E) := λ A a, Ok a.
#[export] Instance result_bind E : MBind (result E) := λ A B f m,
  match m with Ok a => f a | Err e => Err e end.
#[export] Instance result_fmap E : FMap (result E) := λ A B f m,
  match m with Ok a => Ok (f a) | Err e => Err e end.

#[export] Instance result_eq_dec E A `{EqDecision E, EqDecision A} :
  EqDecision (result E A).
Proof. solve_decision. Defined.

Definition is_ok {E A} (r : result E A) : bool :=
  match r with Ok _ => true | Err _ => false end.

(** [Result::ok]. *)
Definition ok_opt {E A} (r : result E A) : option A :=
  match r with Ok a => Some a | Err _ => None end.

(** [Option::ok_or]. *)
Definition ok_or {E A} (o : option A) (e : E) : result E A :=
  match o with Some a => Ok a | None => Err e end.

(** [Result::map_err]. *)
Definition map_err {E F A} (f : E → F) (r : result E A) : result F A :=
  match r with Ok a => Ok a | Err e => Err (f e) end.

Lemma bind_Ok_inv {E A B} (m : result E A) (f : A → result E B) b :
  m ≫= f = Ok b → ∃ a, m = Ok a ∧ f a = Ok b.
Proof. destruct m; simpl; [eauto|done]. Qed.

Lemma map_err_Ok {E F A} (f : E → F) (r : result E A) a : map_err f r = Ok a ↔ r = Ok a.
Proof. destruct r; simpl; naive_solver. Qed.

Lemma mapM_Ok {E A B} (f : A → result E B) (g : B → A) l :
  (∀ b, b ∈ l → f (g b) = Ok b) → mapM f (g <$> l) = Ok l.
Proof.
  induction l as [|b l IH]; intros Hf; [done|]. cbn.
  rewrite (Hf b) by left. cbn. rewrite IH; [done|]. intros c Hc. apply Hf. by right.
Qed.

Lemma mapM_Forall {E A B} (f : A → result E B) (P : B → Prop) l k :
  (∀ a b, f a = Ok b → P b) → mapM f l = Ok k → Forall P k.
Proof.
  intros Hf. revert k. induction l as [|a l IH]; intros k Hk.
  - cbn in Hk. unfold mret, result_ret in Hk. simplify_eq. constructor.
  - cbn in Hk. apply bind_Ok_inv in Hk as (b & Hb & Hk).
    apply bind_Ok_inv in Hk as (k' & Hk' & Hk). unfold mret, result_ret in Hk. simplify_eq. constructor; eauto.
Qed.

(** Undo the binds of a parser that succeeded. *)
Ltac binds :=
  repeat match goal with
  | H : _ ≫= _ = Ok _ |- _ =>
      let H' := fresh in apply bind_Ok_inv in H as (? & H' & H); cbn beta in H
  | H : Ok _ = Ok _ |- _ => injection H as H; subst
  | H : Err _ = Ok _ |- _ => discriminate H
  end.

(** ** Machine integers

    A machine integer is a [Z]; the width is written where it matters. *)

Definition u64_max : Z := 2 ^ 64 - 1.
Definition usize_max : Z := 2 ^ 64 - 1.
Definition u32_max : Z := 2 ^ 32 - 1.

Definition is_u64 (z : Z) : Prop := 0 ≤ z < 2 ^ 64.
Definition is_u32 (z : Z) : Prop := 0 ≤ z < 2 ^ 32.

(** Wrap-around at 64 bits. *)
Definition wrap64 (z : Z) : Z := z mod 2 ^ 64.
(** [as u32]. *)
Definition as_u32 (z : Z) : Z := z mod 2 ^ 32.
(** [len()]. *)
Definition len_z {A} (l : list A) : Z := Z.of_nat (length l).
(** [u64::saturating_add], [u64::saturating_sub], [u64::saturating_mul]. *)
Definition sat_add64 (a b : Z) : Z := Z.min (a + b) u64_max.
Definition sat_sub64 (a b : Z) : Z := Z.max 0 (a - b).
Definition sat_mul64 (a b : Z) : Z := Z.min (a * b) u64_max.

Definition b2z (b : bool) : Z := if b then 1 else 0.

Lemma wrap64_range z : is_u64 (wrap64 z).
Proof. apply Z.mod_pos_bound. lia. Qed.

Lemma wrap64_id z : is_u64 z → wrap64 z = z.
Proof. intros H. apply Z.mod_small. exact H. Qed.

Lemma sat_add64_range a b : is_u64 a → is_u64 b → is_u64 (sat_add64 a b).
Proof. unfold is_u64, sat_add64, u64_max. lia. Qed.

Lemma b2z_range b : 0 ≤ b2z b ≤ 1.
Proof. destruct b; simpl; lia. Qed.

(** A flag is set where its bit is. *)
Lemma land_eqb_bit f n : 0 ≤ n → (Z.land f (2 ^ n) =? 2 ^ n) = Z.testbit f n.
Proof.
  intros Hn. apply eq_true_iff_eq. rewrite Z.eqb_eq. split.
  - intros Heq. apply (f_equal (λ z, Z.testbit z n)) in Heq.
    rewrite Z.land_spec, Z.pow2_bits_true, andb_true_r in Heq by done. done.
  - intros Hb. apply Z.bits_inj'. intros k Hk. rewrite Z.land_spec.
    destruct (Z.eq_dec k n) as [->|Hne]; [by rewrite Hb, Z.pow2_bits_true|].
    rewrite Z.pow2_bits_false by done. by rewrite andb_false_r.
Qed.

(** ** Bytes *)

Notation byte := Corelib.Init.Byte.byte.

#[export] Instance byte_eq_dec : EqDecision byte := Byte.byte_eq_dec.
#[export] Program Instance byte_countable : Countable byte :=
  inj_countable Byte.to_N Byte.of_N _.
Next Obligation. intros b. apply Byte.of_to_N. Qed.

Definition byte_z (b : byte) : Z := Z.of_N (Byte.to_N b).
(** Truncation of an integer to its low byte ([as u8]). *)
Definition z_byte (z : Z) : byte :=
  default Byte.x00 (Byte.of_N (Z.to_N (z mod 256))).

Lemma byte_z_range b : 0 ≤ byte_z b < 256.
Proof.
  unfold byte_z. pose proof (Byte.to_N_bounded b). lia.
Qed.

Lemma z_byte_z b : z_byte (byte_z b) = b.
Proof.
  unfold z_byte. rewrite Z.mod_small by apply byte_z_range.
  unfold byte_z. rewrite N2Z.id, Byte.of_to_N. done.
Qed.

Lemma byte_z_byte z : byte_z (z_byte z) = z mod 256.
Proof.
  unfold z_byte. pose proof (Z.mod_pos_bound z 256 ltac:(lia)) as Hr.
  destruct (Byte.of_N (Z.to_N (z mod 256))) as [b|] eqn:Hb; simpl.
  - apply Byte.to_of_N in Hb. unfold byte_z. rewrite Hb. lia.
  - apply Byte.of_N_None_iff in Hb. lia.
Qed.

Lemma byte_z_inj a b : byte_z a = byte_z b → a = b.
Proof. intros H. rewrite <- (z_byte_z a), <- (z_byte_z b). by rewrite H. Qed.

(** Little-endian integers: [to_le_bytes] and [from_le_bytes]. *)
Fixpoint le_bytes (n : nat) (z : Z) : list byte :=
  match n with
  | O => []
  | S n => z_byte z :: le_bytes n (z / 256)
  end.

Fixpoint of_le_bytes (l : list byte) : Z :=
  match l with
  | [] => 0
  | b :: l => byte_z b + 256 * of_le_bytes l
  end.

Lemma length_le_bytes n z : length (le_bytes n z) = n.
Proof. revert z. induction n; simpl; auto. Qed.

Lemma of_le_bytes_le n z :
  0 ≤ z < 256 ^ Z.of_nat n → of_le_bytes (le_bytes n z) = z.
Proof.
  revert z. induction n as [|n IH]; intros z Hz.
  - simpl in *. lia.
  - cbn [le_bytes of_le_bytes]. rewrite Nat2Z.inj_succ, Z.pow_succ_r in Hz by lia.
    rewrite byte_z_byte, IH; [pose proof (Z.div_mod z 256); lia|].
    split; [apply Z.div_pos; lia | apply Z.div_lt_upper_bound; lia].
Qed.

Lemma of_le_bytes_range l : 0 ≤ of_le_bytes l < 256 ^ Z.of_nat (length l).
Proof.
  induction l as [|b l IH]; simpl; [lia|].
  rewrite Nat2Z.inj_succ, Z.pow_succ_r by lia.
  pose proof (byte_z_range b). lia.
Qed.

Lemma le_bytes_of_le l : le_bytes (length l) (of_le_bytes l) = l.
Proof.
  induction l as [|b l IH]; [done|]. cbn [length le_bytes of_le_bytes].
  pose proof (byte_z_range b) as Hb. f_equal.
  - apply byte_z_inj. rewrite byte_z_byte.
    rewrite (Z.mul_comm 256), Z.mod_add by lia. apply Z.mod_small; lia.
  - rewrite (Z.mul_comm 256), Z.div_add, Z.div_small by lia.
    by rewrite Z.add_0_l.
Qed.

(** ** Sums over finite maps *)

Section map_sum.
Context {K A : Type} `{Countable K}.

Definition map_sum (f : A → Z) (m : gmap K A) : Z :=
  map_fold (λ _ x acc, f x + acc) 0 m.

Lemma map_sum_empty f : map_sum f ∅ = 0.
Proof. apply map_fold_empty. Qed.

Lemma map_sum_insert_None f m k x :
  m !! k = None → map_sum f (<[k:=x]> m) = f x + map_sum f m.
Proof.
  intros Hk. unfold map_sum. rewrite map_fold_insert_L; [done|intros; lia|done].
Qed.

Lemma map_sum_delete f m k x :
  m !! k = Some x → map_sum f (delete k m) = map_sum f m - f x.
Proof.
  intros Hk. rewrite <- (insert_delete_id m k x Hk) at 2.
  rewrite map_sum_insert_None by apply lookup_delete_eq. lia.
Qed.

Lemma map_sum_insert_Some f m k x y :
  m !! k = Some y → map_sum f (<[k:=x]> m) = map_sum f m - f y + f x.
Proof.
  intros Hk. rewrite <- insert_delete_eq.
  rewrite map_sum_insert_None by apply lookup_delete_eq.
  rewrite (map_sum_delete f m k y Hk). lia.
Qed.

Lemma map_sum_nonneg f m :
  (∀ k x, m !! k = Some x → 0 ≤ f x) → 0 ≤ map_sum f m.
Proof.
  induction m as [|k x m Hk IH] using map_ind; intros Hf.
  - rewrite map_sum_empty. lia.
  - rewrite map_sum_insert_None by done.
    assert (0 ≤ f x) by (apply (Hf k); apply lookup_insert_eq).
    assert (0 ≤ map_sum f m); [|lia].
    apply IH. intros j y Hj. apply (Hf j). rewrite lookup_insert_ne; [done|].
    intros ->. congruence.
Qed.

Lemma map_sum_ge f m k x :
  (∀ k x, m !! k = Some x → 0 ≤ f x) → m !! k = Some x → f x ≤ map_sum f m.
Proof.
  intros Hf Hk. rewrite <- (insert_delete_id m k x Hk).
  rewrite map_sum_insert_None by apply lookup_delete_eq.
  assert (0 ≤ map_sum f (delete k m)); [|lia].
  apply map_sum_nonneg. intros j y [_ Hj]%lookup_delete_Some. eauto.
Qed.

Lemma map_sum_zero f m :
  (∀ k x, m !! k = Some x → f x = 0) → map_sum f m = 0.
Proof.
  induction m as [|k x m Hk IH] using map_ind; intros Hf.
  - apply map_sum_empty.
  - rewrite map_sum_insert_None by done.
    rewrite (Hf k x) by apply lookup_insert_eq.
    rewrite IH; [done|]. intros j y Hj. apply (Hf j). rewrite lookup_insert_ne; [done|].
    intros ->. congruence.
Qed.

Lemma map_sum_ext f g m :
  (∀ k x, m !! k = Some x → f x = g x) → map_sum f m = map_sum g m.
Proof.
  induction m as [|k x m Hk IH] using map_ind; intros Hf.
  - by rewrite !map_sum_empty.
  - rewrite !map_sum_insert_None by done.
    rewrite (Hf k x) by apply lookup_insert_eq.
    rewrite IH; [done|]. intros j y Hj. apply (Hf j). rewrite lookup_insert_ne; [done|].
    intros ->. congruence.
Qed.

Lemma map_sum_add f g m :
  map_sum (λ x, f x + g x) m = map_sum f m + map_sum g m.
Proof.
  induction m as [|k x m Hk IH] using map_ind.
  - by rewrite !map_sum_empty.
  - rewrite !map_sum_insert_None by done. lia.
Qed.

(** How many values of a map satisfy a test. *)
Definition map_count (p : A → bool) (m : gmap K A) : Z :=
  map_sum (λ x, b2z (p x)) m.

Lemma map_count_nonneg p m : 0 ≤ map_count p m.
Proof. apply map_sum_nonneg. intros. apply b2z_range. Qed.

Lemma map_count_pos p m k x :
  m !! k = Some x → p x = true → 1 ≤ map_count p m.
Proof.
  intros Hk Hp. pose proof (map_sum_ge (λ x, b2z (p x)) m k x) as Hge.
  simpl in Hge. rewrite Hp in Hge. apply Hge; [|done].
  intros. apply b2z_range.
Qed.

Lemma map_count_zero_inv p m k x :
  map_count p m = 0 → m !! k = Some x → p x = false.
Proof.
  intros H0 Hk. destruct (p x) eqn:Hp; [|done].
  pose proof (map_count_pos p m k x Hk Hp). lia.
Qed.

Lemma map_count_insert_Some p m k x y :
  m !! k = Some y →
  map_count p (<[k:=x]> m) = map_count p m - b2z (p y) + b2z (p x).
Proof. apply map_sum_insert_Some. Qed.

Lemma map_count_insert_None p m k x :
  m !! k = None → map_count p (<[k:=x]> m) = b2z (p x) + map_count p m.
Proof. apply map_sum_insert_None. Qed.
End map_sum.

Lemma map_sum_one {K A} `{Countable K} (m : gmap K A) :
  map_sum (λ _, 1) m = Z.of_nat (size m).
Proof.
  induction m as [|k x m Hk IH] using map_ind.
  - by rewrite map_sum_empty, map_size_empty.
  - rewrite map_sum_insert_None, map_size_insert_None by done. lia.
Qed.

Lemma map_size_delete_Z {K A} `{Countable K} (m : gmap K A) k x :
  m !! k = Some x → Z.of_nat (size (delete k m)) = Z.of_nat (size m) - 1.
Proof.
  intros Hl. rewrite map_size_delete_Some by eauto.
  assert (size m ≠ 0%nat); [|lia].
  apply map_size_non_empty_iff. intros ->. done.
Qed.

Lemma map_size_insert_Z {K A} `{Countable K} (m : gmap K A) k x :
  m !! k = None → Z.of_nat (size (<[k:=x]> m)) = Z.of_nat (size m) + 1.
Proof. intros Hl. rewrite map_size_insert_None by done. lia. Qed.

(** ** Runs of a step relation *)

Section runs.
Context {S : Type} (step : S → S → Prop).

(** An invariant of the first state that every step keeps holds in every
    state of a run. *)
Lemma rtc_invariant (P : S → Prop) s s' :
  (∀ x y, P x → step x y → P y) → rtc step s s' → P s → P s'.
Proof. intros Hstep Hr. induction Hr; eauto. Qed.
End runs.

(** ** Tactics *)

(** Case split on the scrutinee of every [match] or [if] in sight, closing the
    branches that contradict each other. *)
Ltac split_matches :=
  repeat (match goal with
          | H : context [match ?x with _ => _ end] |- _ =>
              let E := fresh "E" in destruct x eqn:E; simplify_eq/=
          | |- context [match ?x with _ => _ end] =>
              let E := fresh "E" in destruct x eqn:E; simplify_eq/=
          end; try done).

(** Split the lookups of an updated map by whether the keys agree. *)
Ltac split_lookups :=
  repeat match goal with
         | H : <[_ := _]> _ !! _ = Some _ |- _ =>
             apply lookup_insert_Some in H as [[? ?]|[? H]]; simplify_eq/=
         | H : delete _ _ !! _ = Some _ |- _ =>
             apply lookup_delete_Some in H as [? H]
         | H : _ && _ = true |- _ => apply andb_true_iff in H as [? ?]
         | H : bool_decide _ = true |- _ => apply bool_decide_eq_true in H
         | H : bool_decide _ = false |- _ => apply bool_decide_eq_false in H
         end.

Create HintDb jfs.
Create Rewrite HintDb jfs.
#[export] Hint Resolve wrap64_range sat_add64_range b2z_range byte_z_range : jfs.
#[export] Hint Rewrite length_le_bytes byte_z_byte z_byte_z le_bytes_of_le : jfs.

(** ** Sums over a list *)

Definition sum_z {A} (f : A → Z) (l : list A) : Z := foldl (λ acc a, acc + f a) 0 l.

Lemma sum_z_app {A} (f : A → Z) l1 l2 : sum_z f (l1 ++ l2) = sum_z f l1 + sum_z f l2.
Proof.
  unfold sum_z. rewrite foldl_app. generalize (foldl (λ acc a, acc + f a) 0 l1) as z.
  assert (∀ l z, foldl (λ acc a, acc + f a) z l = z + foldl (λ acc a, acc + f a) 0 l) as Hz; [|by apply Hz].
  induction l as [|a l IH]; intros z; cbn; [lia|]. rewrite IH. symmetry. etransitivity; [apply f_equal, IH|]. lia.
Qed.
Lemma sum_z_one {A} (f : A → Z) a : sum_z f [a] = f a.
Proof. unfold sum_z. cbn. lia. Qed.
Lemma sum_z_cons {A} (f : A → Z) a l : sum_z f (a :: l) = f a + sum_z f l.
Proof. change (a :: l) with ([a] ++ l). by rewrite sum_z_app, sum_z_one. Qed.
Lemma sum_z_nil {A} (f : A → Z) : sum_z f [] = 0.
Proof. done. Qed.

(** ** Texts *)

Lemma append_assoc (x y z : string) : ((x +:+ y) +:+ z = x +:+ (y +:+ z))%string.
Proof. induction x as [|c x IH]; [done|]. exact (f_equal (String.String c) IH). Qed.
Lemma append_nil_r (x : string) : (x +:+ "" = x)%string.
Proof. induction x as [|c x IH]; [done|]. exact (f_equal (String.String c) IH). Qed.

(** ** Sorting *)

(** [slice::sort_by]: stable. *)
Fixpoint insert_by {A} (cmp : A → A → comparison) (x : A) (l : list A) : list A :=
  match l with
  | [] => [x]
  | y :: l => match cmp x y with Gt => y :: insert_by cmp x l | _ => x :: y :: l end
  end.
Definition sort_by {A} (cmp : A → A → comparison) (l : list A) : list A := foldr (insert_by cmp) [] l.

Lemma sort_by_sorted {A} (cmp : A → A → comparison) l : StronglySorted (λ a b, cmp a b ≠ Gt) l → sort_by cmp l = l.
Proof.
  induction 1 as [|a l Hs IH Ha]; [done|]. cbn [sort_by foldr]. change (foldr (insert_by cmp) [] l) with (sort_by cmp l).
  rewrite IH. destruct Ha as [|b l Hb _]; [done|]. cbn. by destruct (cmp a b).
Qed.
Lemma insert_by_Permutation {A} (cmp : A → A → comparison) x l : insert_by cmp x l ≡ₚ x :: l.
Proof.
  induction l as [|y l IH]; cbn; [done|]. destruct (cmp x y); [done..|]. rewrite IH. constructor.
Qed.
Lemma sort_by_Permutation {A} (cmp : A → A → comparison) l : sort_by cmp l ≡ₚ l.
Proof. induction l as [|x l IH]; [done|]. cbn. by rewrite insert_by_Permutation, IH. Qed.
Lemma sort_by_sorts {A} (cmp : A → A → comparison) l :
  Transitive (λ a b, cmp a b ≠ Gt) → (∀ a b, cmp a b = Gt → cmp b a ≠ Gt) →
  StronglySorted (λ a b, cmp a b ≠ Gt) (sort_by cmp l).
Proof.
  intros Htrans Hgt. induction l as [|x l IH]; [constructor|]. cbn [sort_by foldr]. fold (sort_by cmp l).
  induction IH as [|y k Hk IH Hy]; cbn [insert_by]; [by repeat constructor|].
  assert (cmp x y ≠ Gt → StronglySorted (λ a b, cmp a b ≠ Gt) (x :: y :: k)) as Hfirst.
  { intros Hx. constructor; [by constructor|]. constructor; [done|].
    eapply Forall_impl; [exact Hy|]. intros z Hz. by eapply Htrans. }
  destruct (cmp x y) eqn:E; [by apply Hfirst..|]. constructor; [done|]. rewrite insert_by_Permutation.
  constructor; [by apply Hgt|done].
Qed.
