(* ===== verification/Types.v ===== *)
(** * Filesystem value types ([crates/proto/src/types.rs])

    Names, paths and the plain records that requests, replies and events
    carry.  A [Name] is only ever built by [Name_new], a [Path] by
    [Path_from_names]; the theorems say what that guarantees: a path's joined
    form is its length budget exactly, and it determines the path, which is
    what keys the server's change log. *)

From S2P Require Import Prelude.
From Stdlib Require Import Strings.Byte.

Definition NAME_MAX : nat := 255.
Definition PATH_MAX : nat := 4096.

(** ASCII slash and dot. *)
Definition slash : byte := "/"%byte.
Definition dot : byte := "."%byte.

Inductive ErrorName :=
| ErrorName_Empty
| ErrorName_TooLong
| ErrorName_BadByte
| ErrorName_Dot.

(** One path component. *)
Record Name := MkName { as_bytes : list byte }.

Definition bad_byte (b : byte) : bool :=
  bool_decide (b = slash) || bool_decide (b = Byte.x00).

Definition Name_new (bytes : list byte) : result ErrorName Name :=
  if bool_decide (bytes = []) then Err ErrorName_Empty
  else if (NAME_MAX <? length bytes)%nat then Err ErrorName_TooLong
  else if existsb bad_byte bytes then Err ErrorName_BadByte
  else if bool_decide (bytes = [dot]) || bool_decide (bytes = [dot; dot])
  then Err ErrorName_Dot
  else Ok (MkName bytes).

Inductive ErrorPath := ErrorPathTooLong.

(** A path relative to the export root; the root is the empty one. *)
Record Path := MkPath { names : list Name }.

#[export] Instance Name_eq_dec : EqDecision Name.
Proof. solve_decision. Defined.
#[export] Program Instance Name_countable : Countable Name :=
  inj_countable' as_bytes MkName _.
Next Obligation. by intros []. Qed.
#[export] Instance Path_eq_dec : EqDecision Path.
Proof. solve_decision. Defined.
#[export] Program Instance Path_countable : Countable Path :=
  inj_countable' names MkPath _.
Next Obligation. by intros []. Qed.

Definition Path_root : Path := MkPath [].

(** Length of the slash-joined form. *)
Definition byte_len (p : Path) : nat :=
  (sum_list_with (λ n, length (as_bytes n)) (names p)
   + (length (names p) - 1))%nat.

Definition Path_from_names (ns : list Name) : result ErrorPath Path :=
  let path := MkPath ns in
  if (PATH_MAX <? byte_len path)%nat then Err ErrorPathTooLong else Ok path.

Definition is_root (p : Path) : bool :=
  match names p with [] => true | _ => false end.

Definition Path_join (p : Path) (n : Name) : result ErrorPath Path :=
  Path_from_names (names p ++ [n]).

Definition Path_split_last (p : Path) : option (Path * Name) :=
  match reverse (names p) with
  | [] => None
  | last :: rest => Some (MkPath (reverse rest), last)
  end.

(** The slash-joined form, no leading slash. *)
Fixpoint join_names (ns : list Name) : list byte :=
  match ns with
  | [] => []
  | [n] => as_bytes n
  | n :: ns => as_bytes n ++ slash :: join_names ns
  end.

Definition to_os_string (p : Path) : list byte := join_names (names p).

Inductive Whence := Whence_Data | Whence_Hole.

Inductive FileKind :=
| Regular | Directory | Symlink | Fifo | Socket | CharDevice | BlockDevice.

Record TimeSpec := { ts_sec : Z; ts_nsec : Z }.

Definition HANDLE_MAX : nat := 128.

(** A file's kernel handle, compared for equality only. *)
Record Identity := MkIdentity { handle_type : Z; handle : list byte }.

Record Attr := MkAttr {
  a_ino : Z;
  a_size : Z;
  a_blocks : Z;
  a_atime : TimeSpec;
  a_mtime : TimeSpec;
  a_ctime : TimeSpec;
  a_kind : FileKind;
  a_perm : Z;
  a_nlink : Z;
  a_uid : Z;
  a_gid : Z;
  a_rdev : Z;
  a_blksize : Z;
  a_xattr_names : option (list (list byte));
  a_identity : Identity;
  a_foreign : bool }.

Record StatfsData := {
  sf_blocks : Z; sf_bfree : Z; sf_bavail : Z; sf_files : Z; sf_ffree : Z;
  sf_bsize : Z; sf_namelen : Z; sf_frsize : Z }.

Record DirEntry := MkDirEntry {
  de_next_offset : Z;
  de_name : list byte;
  de_attr : option Attr }.

Definition is_dot_or_dotdot (e : DirEntry) : bool :=
  bool_decide (de_name e = [dot]) || bool_decide (de_name e = [dot; dot]).

Inductive TimeOrNow := TimeOrNow_Time (t : TimeSpec) | TimeOrNow_Now.

Record SetAttr := MkSetAttr {
  s_mode : option Z;
  s_uid : option Z;
  s_gid : option Z;
  s_size : option Z;
  s_atime : option TimeOrNow;
  s_mtime : option TimeOrNow }.

#[export] Instance Whence_eq_dec : EqDecision Whence.
Proof. solve_decision. Defined.
#[export] Instance FileKind_eq_dec : EqDecision FileKind.
Proof. solve_decision. Defined.
#[export] Instance TimeSpec_eq_dec : EqDecision TimeSpec.
Proof. solve_decision. Defined.
#[export] Instance Identity_eq_dec : EqDecision Identity.
Proof. solve_decision. Defined.
#[export] Program Instance Identity_countable : Countable Identity :=
  inj_countable' (λ i, (handle_type i, handle i)) (λ p, MkIdentity p.1 p.2) _.
Next Obligation. by intros []. Qed.
#[export] Instance Attr_eq_dec : EqDecision Attr.
Proof. solve_decision. Defined.
#[export] Instance StatfsData_eq_dec : EqDecision StatfsData.
Proof. solve_decision. Defined.
#[export] Instance DirEntry_eq_dec : EqDecision DirEntry.
Proof. solve_decision. Defined.
#[export] Instance TimeOrNow_eq_dec : EqDecision TimeOrNow.
Proof. solve_decision. Defined.
#[export] Instance SetAttr_eq_dec : EqDecision SetAttr.
Proof. solve_decision. Defined.

(** ** What validation guarantees *)

(** The names the decoder lets through. *)
Definition name_valid (n : Name) : Prop :=
  as_bytes n ≠ [] ∧ (length (as_bytes n) ≤ NAME_MAX)%nat
  ∧ slash ∉ as_bytes n ∧ Byte.x00 ∉ as_bytes n
  ∧ as_bytes n ≠ [dot] ∧ as_bytes n ≠ [dot; dot].

Definition path_valid (p : Path) : Prop :=
  Forall name_valid (names p) ∧ (byte_len p ≤ PATH_MAX)%nat.

Lemma existsb_bad_byte bs :
  existsb bad_byte bs = false ↔ slash ∉ bs ∧ Byte.x00 ∉ bs.
Proof.
  induction bs as [|b bs IH]; simpl.
  - split; [intros _; split; apply not_elem_of_nil|done].
  - rewrite !not_elem_of_cons, orb_false_iff, IH. unfold bad_byte.
    rewrite orb_false_iff, !bool_decide_eq_false. naive_solver.
Qed.

(** [Name_new] accepts exactly the valid names, and changes nothing. *)
Lemma Name_new_spec bs n :
  Name_new bs = Ok n ↔ n = MkName bs ∧ name_valid n.
Proof.
  unfold Name_new, name_valid. split.
  - intros H. split_matches. rewrite existsb_bad_byte in *.
    rewrite orb_false_iff, !bool_decide_eq_false in *.
    rewrite Nat.ltb_ge in *. naive_solver.
  - intros [-> (He & Hl & Hs & Hz & Hd & Hdd)]; simpl in *.
    rewrite bool_decide_eq_false_2 by done.
    replace (NAME_MAX <? length bs)%nat with false by (symmetry; apply Nat.ltb_ge; lia).
    rewrite (proj2 (existsb_bad_byte bs)) by done.
    by rewrite !bool_decide_eq_false_2.
Qed.

Lemma Path_from_names_Ok ns p :
  Path_from_names ns = Ok p ↔ p = MkPath ns ∧ (byte_len p ≤ PATH_MAX)%nat.
Proof.
  unfold Path_from_names. destruct (Nat.ltb_spec PATH_MAX (byte_len (MkPath ns))).
  - split; [done|]. intros [-> ?]. lia.
  - naive_solver.
Qed.

Lemma length_join_names ns : length (join_names ns) = byte_len (MkPath ns).
Proof.
  unfold byte_len. induction ns as [|n [|n' ns] IH]; [done|simpl; lia|].
  change (join_names (n :: n' :: ns))
    with (as_bytes n ++ slash :: join_names (n' :: ns)).
  rewrite length_app. cbn [length]. rewrite IH. simpl. lia.
Qed.

Lemma name_valid_inv n :
  name_valid n → as_bytes n ≠ [] ∧ slash ∉ as_bytes n.
Proof. unfold name_valid. tauto. Qed.

(** A component ends at the first slash. *)
Lemma app_slash_inj (a a' r r' : list byte) :
  slash ∉ a → slash ∉ a' →
  a ++ slash :: r = a' ++ slash :: r' → a = a' ∧ r = r'.
Proof.
  revert a'. induction a as [|x a IH]; intros [|x' a'] Ha Ha' Heq; simplify_eq/=.
  - done.
  - by rewrite not_elem_of_cons in Ha'; destruct Ha'.
  - by rewrite not_elem_of_cons in Ha; destruct Ha.
  - rewrite not_elem_of_cons in Ha, Ha'.
    destruct (IH a') as [-> ->]; naive_solver.
Qed.

Lemma slash_not_app (a r : list byte) : slash ∉ a ++ slash :: r → False.
Proof. rewrite elem_of_app, elem_of_cons. naive_solver. Qed.

Lemma join_names_nil ns :
  Forall name_valid ns → join_names ns = [] → ns = [].
Proof.
  intros Hv Hj. destruct ns as [|n [|n' ns]]; [done| |].
  - inversion_clear Hv. by destruct (name_valid_inv n) as [? _].
  - by apply app_nil in Hj as [_ ?].
Qed.

Lemma join_names_inj ns ns' :
  Forall name_valid ns → Forall name_valid ns' →
  join_names ns = join_names ns' → ns = ns'.
Proof.
  revert ns'. induction ns as [|n ns IH]; intros ns' Hv Hv' Heq.
  { symmetry in Heq. by rewrite (join_names_nil _ Hv' Heq). }
  destruct ns' as [|n' ns']; [by rewrite (join_names_nil _ Hv Heq)|].
  inversion_clear Hv as [|?? Hn Hns]. inversion_clear Hv' as [|?? Hn' Hns'].
  destruct (name_valid_inv n Hn) as [_ Hs]. destruct (name_valid_inv n' Hn') as [_ Hs'].
  assert (∀ x y : Name, as_bytes x = as_bytes y → x = y) as Hinj
    by (intros [] [] ?; simplify_eq/=; done).
  destruct ns as [|m ns], ns' as [|m' ns']; simpl in Heq.
  - by rewrite (Hinj _ _ Heq).
  - rewrite Heq in Hs. by apply slash_not_app in Hs.
  - rewrite <- Heq in Hs'. by apply slash_not_app in Hs'.
  - apply app_slash_inj in Heq as [Hb Hr]; [|done|done].
    f_equal; [by apply Hinj|]. by apply IH.
Qed.

Lemma Path_split_last_Some p q n :
  Path_split_last p = Some (q, n) ↔ names p = names q ++ [n].
Proof.
  unfold Path_split_last. destruct p as [ns], q as [ms]; simpl.
  destruct ns as [|x ns _] using rev_ind.
  - rewrite reverse_nil. split; [done|]. intros H. by destruct ms.
  - rewrite reverse_snoc, reverse_involutive. split.
    + intros H. by simplify_eq.
    + intros H. apply app_inj_tail in H as [-> ->]. done.
Qed.

Lemma byte_len_prefix ns ms :
  (byte_len (MkPath ns) ≤ byte_len (MkPath (ns ++ ms)))%nat.
Proof.
  unfold byte_len; simpl. rewrite sum_list_with_app, length_app. lia.
Qed.

(** ** Properties *)

(** A path's text is the path.  For paths of valid names, the slash-joined form
    is exactly as long as the length the limit is checked against, and two paths
    with the same form are the same path, so the form may key the log of changes. *)
Theorem path_text_exact p q :
  length (to_os_string p) = byte_len p
  ∧ (path_valid p → path_valid q → to_os_string p = to_os_string q → p = q).
Proof.
  destruct p as [ns], q as [ms]. unfold to_os_string; simpl. split; [apply length_join_names|].
  intros [Hp _] [Hq _] Heq. simpl in *. by rewrite (join_names_inj ns ms Hp Hq Heq).
Qed.

Definition demo_path : Path := MkPath [MkName [dot; dot; dot]; MkName [Byte.x61]].

Lemma demo_path_valid : path_valid demo_path.
Proof.
  split; [|apply Nat.leb_le; reflexivity].
  repeat constructor; simpl; unfold slash, dot; try discriminate; try set_solver;
    apply Nat.leb_le; reflexivity.
Qed.

Lemma path_text_exact_witness :
  length (to_os_string demo_path) = 5%nat ∧ demo_path = MkPath (names demo_path).
Proof.
  destruct (path_text_exact demo_path (MkPath (names demo_path))) as [Hl Hi].
  split; [exact Hl|]. apply Hi; [exact demo_path_valid|exact demo_path_valid|reflexivity].
Defined.

(** Only valid paths are built.  A name is accepted exactly when it is a single
    component (not empty, at most [NAME_MAX] bytes, no slash or NUL, not a dot
    entry) and is kept byte for byte; joining a valid name to a valid path gives a
    valid path or reports it too long, and the last component comes off again. *)
Theorem path_join_valid bytes p :
  path_valid p →
  match Name_new bytes with
  | Ok n =>
      as_bytes n = bytes ∧ name_valid n
      ∧ match Path_join p n with
        | Ok q => path_valid q ∧ Path_split_last q = Some (p, n)
        | Err _ => (PATH_MAX < byte_len (MkPath (names p ++ [n])))%nat
        end
  | Err _ => ¬ name_valid (MkName bytes)
  end.
Proof.
  intros [Hp Hlen]. destruct (Name_new bytes) as [n|e] eqn:Hn.
  - apply Name_new_spec in Hn as [-> Hv]. split; [done|]. split; [done|].
    unfold Path_join. destruct (Path_from_names _) as [q|] eqn:Hq.
    + apply Path_from_names_Ok in Hq as [-> Hq]. split; [|by apply Path_split_last_Some].
      split; [|done]. simpl. apply Forall_app. split; [done|]. by constructor.
    + unfold Path_from_names in Hq.
      by destruct (Nat.ltb_spec PATH_MAX (byte_len (MkPath (names p ++ [MkName bytes])))).
  - intros Hv. rewrite (proj2 (Name_new_spec bytes (MkName bytes)) (conj eq_refl Hv)) in Hn. done.
Qed.

Lemma path_join_valid_witness :
  as_bytes (MkName [dot; dot; dot]) = [dot; dot; dot] ∧ name_valid (MkName [dot; dot; dot]).
Proof.
  pose proof (path_join_valid [dot; dot; dot] Path_root) as H.
  assert (path_valid Path_root) as Hr by (split; [constructor|apply Nat.le_0_l]).
  specialize (H Hr). change (Name_new [dot; dot; dot]) with (@Ok ErrorName Name (MkName [dot; dot; dot])) in H.
  destruct H as (H1 & H2 & _). split; [exact H1|exact H2].
Defined.
