(* ===== verification/Msg.v ===== *)
(** * Messages ([crates/proto/src/msg.rs])

    The handshake, the requests and replies of a request stream, and the events
    pushed to clients, with the classifications the two ends share: which
    handles a request names ([fhs]), whether it takes part in the session's
    ordering ([changes]) and what a capture keeps of it. *)

From S2P Require Import Prelude Types.

Definition MAX_FALLOCATE : Z := Z.shiftl 64 20.

Inductive Auth := Anonymous | Token (bytes : list byte).

Record Resume := MkResume { r_session_id : Z; r_token : list byte }.

Record Hello := MkHello {
  h_revision : Z;
  h_auth : Auth;
  h_resume : option Resume }.

Inductive HelloReply :=
| Ack (session_id : Z) (resume_token : list byte) (resumed : bool)
      (root_ino : Z) (root_identity : Identity) (uid gid : Z)
| Reject (reason : string)
| RevisionMismatch (revision : Z).

Inductive Request :=
| Req_Lookup (parent : Path) (name : Name)
| Req_Getattr (path : option Path) (fh : option Z)
| Req_Setattr (path : option Path) (fh : option Z) (set : SetAttr)
| Req_Readlink (path : Path)
| Req_Mknod (parent : Path) (name : Name) (mode rdev : Z)
| Req_Mkdir (parent : Path) (name : Name) (mode : Z)
| Req_Unlink (parent : Path) (name : Name)
| Req_Rmdir (parent : Path) (name : Name)
| Req_Symlink (parent : Path) (name : Name) (target : list byte)
| Req_Rename (parent : Path) (name : Name) (newparent : Path) (newname : Name) (flags : Z)
| Req_Link (path : Path) (newparent : Path) (newname : Name)
| Req_Open (fh : Z) (path : Path) (flags : Z)
| Req_Create (fh : Z) (parent : Path) (name : Name) (mode flags : Z)
| Req_Read (fh offset size : Z)
| Req_Write (fh offset : Z) (data : list byte)
| Req_Release (fh : Z) (ordered : bool)
| Req_Fsync (fh : Z) (datasync : bool)
| Req_Opendir (fh : Z) (path : Path)
| Req_Readdir (fh offset max_bytes : Z)
| Req_Releasedir (fh : Z) (ordered : bool)
| Req_Statfs (path : Path)
| Req_Setxattr (path : Path) (name value : list byte) (flags : Z)
| Req_Getxattr (path : Path) (name : list byte)
| Req_Listxattr (path : Path)
| Req_Removexattr (path : Path) (name : list byte)
| Req_Access (path : Path) (mask : Z)
| Req_CopyFileRange (fh_in offset_in fh_out offset_out len : Z)
| Req_Fallocate (fh offset len mode : Z)
| Req_Lseek (fh offset : Z) (whence : Whence).

#[export] Instance Request_eq_dec : EqDecision Request.
Proof. solve_decision. Defined.

(** Every handle a request names. *)
Definition fhs (r : Request) : option Z * option Z :=
  match r with
  | Req_Getattr _ fh | Req_Setattr _ fh _ => (fh, None)
  | Req_Open fh _ _ | Req_Create fh _ _ _ _ | Req_Read fh _ _ | Req_Write fh _ _
  | Req_Release fh _ | Req_Fsync fh _ | Req_Fallocate fh _ _ _ | Req_Lseek fh _ _
  | Req_Opendir fh _ | Req_Readdir fh _ _ | Req_Releasedir fh _ => (Some fh, None)
  | Req_CopyFileRange fh_in _ fh_out _ _ => (Some fh_in, Some fh_out)
  | Req_Lookup _ _ | Req_Readlink _ | Req_Mknod _ _ _ _ | Req_Mkdir _ _ _
  | Req_Unlink _ _ | Req_Rmdir _ _ | Req_Symlink _ _ _ | Req_Rename _ _ _ _ _
  | Req_Link _ _ _ | Req_Statfs _ | Req_Setxattr _ _ _ _ | Req_Getxattr _ _
  | Req_Listxattr _ | Req_Removexattr _ _ | Req_Access _ _ => (None, None)
  end.

(** Whether a request takes part in the session's ordering. *)
Definition changes (r : Request) : bool :=
  match r with
  | Req_Lookup _ _ | Req_Getattr _ _ | Req_Readlink _ | Req_Read _ _ _
  | Req_Readdir _ _ _ | Req_Getxattr _ _ | Req_Listxattr _ | Req_Access _ _
  | Req_Statfs _ | Req_Lseek _ _ _ | Req_Fsync _ _ => false
  | Req_Release _ ordered | Req_Releasedir _ ordered => ordered
  | Req_Setattr _ _ _ | Req_Mknod _ _ _ _ | Req_Mkdir _ _ _ | Req_Unlink _ _
  | Req_Rmdir _ _ | Req_Symlink _ _ _ | Req_Rename _ _ _ _ _ | Req_Link _ _ _
  | Req_Open _ _ _ | Req_Create _ _ _ _ _ | Req_Write _ _ _ | Req_Opendir _ _
  | Req_Setxattr _ _ _ _ | Req_Removexattr _ _ | Req_CopyFileRange _ _ _ _ _
  | Req_Fallocate _ _ _ _ => true
  end.

(** The request with its data cut out, and how much that was. *)
Definition Request_with_data_elided (r : Request) : option (Request * Z) :=
  match r with
  | Req_Write fh offset data =>
      Some (Req_Write fh offset [], Z.of_nat (length data))
  | _ => None
  end.

(** Handle, offset and size for a log line. *)
Definition perf_fields (r : Request) : option Z * option Z * option Z :=
  match r with
  | Req_Read fh offset size => (Some fh, Some offset, Some size)
  | Req_Write fh offset data => (Some fh, Some offset, Some (Z.of_nat (length data)))
  | Req_Readdir fh offset max_bytes => (Some fh, Some offset, Some max_bytes)
  | Req_Fallocate fh offset len _ => (Some fh, Some offset, Some len)
  | Req_Lseek fh offset _ => (Some fh, Some offset, None)
  | Req_CopyFileRange _ _ fh_out offset_out len =>
      (Some fh_out, Some offset_out, Some len)
  | other => ((fhs other).1, None, None)
  end.

Definition op_name (r : Request) : string :=
  match r with
  | Req_Lookup _ _ => "lookup" | Req_Getattr _ _ => "getattr"
  | Req_Setattr _ _ _ => "setattr" | Req_Readlink _ => "readlink"
  | Req_Mknod _ _ _ _ => "mknod" | Req_Mkdir _ _ _ => "mkdir"
  | Req_Unlink _ _ => "unlink" | Req_Rmdir _ _ => "rmdir"
  | Req_Symlink _ _ _ => "symlink" | Req_Rename _ _ _ _ _ => "rename"
  | Req_Link _ _ _ => "link" | Req_Open _ _ _ => "open"
  | Req_Create _ _ _ _ _ => "create" | Req_Read _ _ _ => "read"
  | Req_Write _ _ _ => "write" | Req_Release _ _ => "release"
  | Req_Fsync _ _ => "fsync" | Req_Opendir _ _ => "opendir"
  | Req_Readdir _ _ _ => "readdir" | Req_Releasedir _ _ => "releasedir"
  | Req_Statfs _ => "statfs" | Req_Setxattr _ _ _ _ => "setxattr"
  | Req_Getxattr _ _ => "getxattr" | Req_Listxattr _ => "listxattr"
  | Req_Removexattr _ _ => "removexattr" | Req_Access _ _ => "access"
  | Req_CopyFileRange _ _ _ _ _ => "copy_file_range"
  | Req_Fallocate _ _ _ _ => "fallocate" | Req_Lseek _ _ _ => "lseek"
  end.

Inductive Response :=
| Resp_Err (errno : Z)
| Resp_Entry (attr : Attr)
| Resp_Attr (attr : Attr)
| Resp_Readlink (target : list byte)
| Resp_Ok
| Resp_Opened (attr : Attr)
| Resp_Read (data : list byte)
| Resp_Written (n : Z)
| Resp_Copied (n : Z)
| Resp_Seeked (offset : Z)
| Resp_Readdir (entries : list DirEntry) (end_ : bool)
| Resp_Statfs (s : StatfsData)
| Resp_Xattr (value : list byte).

#[export] Instance Response_eq_dec : EqDecision Response.
Proof. solve_decision. Defined.

Definition kind_name (r : Response) : string :=
  match r with
  | Resp_Err _ => "Err" | Resp_Entry _ => "Entry" | Resp_Attr _ => "Attr"
  | Resp_Readlink _ => "Readlink" | Resp_Ok => "Ok" | Resp_Opened _ => "Opened"
  | Resp_Read _ => "Read" | Resp_Written _ => "Written"
  | Resp_Readdir _ _ => "Readdir" | Resp_Statfs _ => "Statfs"
  | Resp_Xattr _ => "Xattr" | Resp_Copied _ => "Copied" | Resp_Seeked _ => "Seeked"
  end.

Definition Response_with_data_elided (r : Response) : option (Response * Z) :=
  match r with
  | Resp_Read data => Some (Resp_Read [], Z.of_nat (length data))
  | _ => None
  end.

(** One invalidation. *)
Inductive EventItem :=
| Ev_Entry (dir : Path) (name : Name)
| Ev_Data (path : Path)
| Ev_Overflow
| Ev_Unwatched (dir : Path).

#[export] Instance EventItem_eq_dec : EqDecision EventItem.
Proof. solve_decision. Defined.

Record NoticeHandles := MkNotice { n_held : Z; n_share : Z }.
#[export] Instance NoticeHandles_eq_dec : EqDecision NoticeHandles.
Proof. solve_decision. Defined.

Record Event := MkEvent { ev_items : list EventItem; ev_handles : option NoticeHandles }.

(** [EventItem] is hashed by the server's debouncer. *)
Definition EventItem_encode (i : EventItem) : Path * Name + Path + () + Path :=
  match i with
  | Ev_Entry d n => inl (inl (inl (d, n)))
  | Ev_Data p => inl (inl (inr p))
  | Ev_Overflow => inl (inr ())
  | Ev_Unwatched d => inr d
  end.
Definition EventItem_decode (s : Path * Name + Path + () + Path) : EventItem :=
  match s with
  | inl (inl (inl (d, n))) => Ev_Entry d n
  | inl (inl (inr p)) => Ev_Data p
  | inl (inr ()) => Ev_Overflow
  | inr d => Ev_Unwatched d
  end.
#[export] Program Instance EventItem_countable : Countable EventItem :=
  inj_countable' EventItem_encode EventItem_decode _.
Next Obligation. by intros []. Qed.

(** ** Facts shared by the two ends *)

(** A request that names two handles is a copy. *)
Lemma fhs_second r fh :
  (fhs r).2 = Some fh → ∃ i oi oo l, r = Req_CopyFileRange i oi fh oo l.
Proof. destruct r; simpl; intros; simplify_eq; eauto. Qed.
