(* ===== verification/Wire.v ===== *)
(** * Messages on the wire ([crates/proto/src/wire.rs])

    The conversions between the messages and the schema's readers and builders.
    A [_R] type is what the generated accessors of one schema struct
    ([crates/proto/schema/jackalopefs.capnp]) give a parser: a scalar field is
    its value, a pointer field ([ptr]) may fail with the library's own error,
    and a union or an enum ([which]) may hold a discriminant the schema does not
    know.  A builder fills a struct whose accessors all succeed, so [build]
    yields the same type.  The parsers are the trust boundary: whatever they
    return is valid ([..._wf]), and they return what was built. *)

From S2P Require Import Prelude Types Msg.
From Stdlib Require Import Strings.Byte.

(** The texts of [ErrorDecode::Invalid] and [ErrorDecode::Frame], with what they report. *)
Inductive invalid :=
| Inv_List (declared message_words : Z)
| Inv_Handle (len : Z)
| Inv_ResumeToken (len : Z)
| Inv_NotUtf8.
Inductive bad_frame :=
| Fr_Short (len : Z)
| Fr_Segments (segments : Z)
| Fr_Trailing (len : Z).

(** ** The schema *)

Section schema.
(** The error type of the serialization library. *)
Context {CE : Type}.

Inductive ErrorDecode :=
| ED_Capnp (e : CE)
| ED_NotInSchema (discriminant : Z)
| ED_Name (e : ErrorName)
| ED_Path (e : ErrorPath)
| ED_Invalid (what : invalid)
| ED_Frame (what : bad_frame).

(** The outcomes of a pointer's accessor and of [which()]. *)
Definition ptr (A : Type) : Type := result CE A.
Definition which (A : Type) : Type := result Z A.
Definition data : Type := list byte.
Definition data_list : Type := list (ptr data).

Inductive FileKind_W :=
| W_Regular | W_Directory | W_Symlink | W_Fifo | W_Socket | W_CharDevice | W_BlockDevice.
Inductive Whence_W := W_Data | W_Hole.

(** A [union { none :Void; some :A; }]. *)
Inductive opt_W (A : Type) := W_None | W_Some (a : A).

Record time_R := MkTime_R { t_sec : Z; t_nsec : Z }.

Record identity_R := MkIdentity_R { i_handle_type : Z; i_handle : ptr data }.

Record attr_R := MkAttr_R {
  w_ino : Z; w_size : Z; w_blocks : Z;
  w_atime : time_R; w_mtime : time_R; w_ctime : time_R;
  w_kind : which FileKind_W;
  w_perm : Z; w_nlink : Z; w_uid : Z; w_gid : Z; w_rdev : Z; w_blksize : Z;
  w_xattr_names : which (opt_W (ptr data_list));
  w_identity : ptr identity_R;
  w_foreign : bool }.

Record statfs_R := MkStatfs_R {
  w_sblocks : Z; w_bfree : Z; w_bavail : Z; w_files : Z; w_ffree : Z;
  w_bsize : Z; w_namelen : Z; w_frsize : Z }.

Record dir_entry_R := MkDirEntry_R {
  w_next_offset : Z; w_name : ptr data; w_attr : which (opt_W (ptr attr_R)) }.

Inductive time_or_now_W := W_Time (t : ptr time_R) | W_Now.
Definition time_or_now_R : Type := which time_or_now_W.

Record set_attr_R := MkSetAttr_R {
  w_smode : which (opt_W Z); w_suid : which (opt_W Z); w_sgid : which (opt_W Z);
  w_ssize : which (opt_W Z);
  w_satime : which (opt_W (ptr time_or_now_R));
  w_smtime : which (opt_W (ptr time_or_now_R)) }.

Record resume_R := MkResume_R { w_session_id : Z; w_rtoken : ptr data }.
Inductive auth_W := W_Anonymous | W_Token (token : ptr data).
Record hello_R := MkHello_R {
  w_revision : Z; w_auth : which auth_W; w_resume : which (opt_W (ptr resume_R)) }.

Inductive hello_reply_W :=
| W_Ack (session_id : Z) (resume_token : ptr data) (resumed : bool) (root_ino : Z)
    (root_identity : ptr identity_R) (uid gid : Z)
| W_Reject (reason : ptr data)
| W_RevisionMismatch (revision : Z).
Definition hello_reply_R : Type := which hello_reply_W.

Inductive request_W :=
| W_Lookup (parent : ptr data_list) (name : ptr data)
| W_Getattr (path : which (opt_W (ptr data_list))) (fh : which (opt_W Z))
| W_Setattr (path : which (opt_W (ptr data_list))) (fh : which (opt_W Z)) (set : ptr set_attr_R)
| W_Readlink (path : ptr data_list)
| W_Mknod (parent : ptr data_list) (name : ptr data) (mode rdev : Z)
| W_Mkdir (parent : ptr data_list) (name : ptr data) (mode : Z)
| W_Unlink (parent : ptr data_list) (name : ptr data)
| W_Rmdir (parent : ptr data_list) (name : ptr data)
| W_ReqSymlink (parent : ptr data_list) (name target : ptr data)
| W_Rename (parent : ptr data_list) (name : ptr data) (newparent : ptr data_list)
    (newname : ptr data) (flags : Z)
| W_Link (path newparent : ptr data_list) (newname : ptr data)
| W_Open (fh : Z) (path : ptr data_list) (flags : Z)
| W_Create (fh : Z) (parent : ptr data_list) (name : ptr data) (mode flags : Z)
| W_Read (fh offset size : Z)
| W_Write (fh offset : Z) (data : ptr data)
| W_Release (fh : Z) (ordered : bool)
| W_Fsync (fh : Z) (datasync : bool)
| W_Opendir (fh : Z) (path : ptr data_list)
| W_Readdir (fh offset max_bytes : Z)
| W_Releasedir (fh : Z) (ordered : bool)
| W_Statfs (path : ptr data_list)
| W_Setxattr (path : ptr data_list) (name value : ptr data) (flags : Z)
| W_Getxattr (path : ptr data_list) (name : ptr data)
| W_Listxattr (path : ptr data_list)
| W_Removexattr (path : ptr data_list) (name : ptr data)
| W_Access (path : ptr data_list) (mask : Z)
| W_CopyFileRange (fh_in offset_in fh_out offset_out len : Z)
| W_Fallocate (fh offset len mode : Z)
| W_Lseek (fh offset : Z) (whence : which Whence_W).
Definition request_R : Type := which request_W.

Inductive response_W :=
| W_Err (errno : Z)
| W_Entry (attr : ptr attr_R)
| W_Attr (attr : ptr attr_R)
| W_RespReadlink (target : ptr data)
| W_Ok
| W_Opened (attr : ptr attr_R)
| W_RespRead (data : ptr data)
| W_Written (n : Z)
| W_RespReaddir (entries : ptr (list dir_entry_R)) (end_ : bool)
| W_RespStatfs (s : ptr statfs_R)
| W_Xattr (value : ptr data)
| W_Copied (n : Z)
| W_Seeked (offset : Z).
Definition response_R : Type := which response_W.

Inductive event_item_W :=
| W_EvEntry (dir : ptr data_list) (name : ptr data)
| W_EvData (path : ptr data_list)
| W_Overflow
| W_Unwatched (dir : ptr data_list).
Definition event_item_R : Type := which event_item_W.

Record notice_handles_R := MkNotice_R { w_held : Z; w_share : Z }.
(** A pointer that is not set reads as no notice ([has_handles]). *)
Record event_R := MkEvent_R {
  w_items : ptr (list event_item_R); w_handles : option (ptr notice_handles_R) }.

End schema.

#[global] Arguments ErrorDecode CE : clear implicits.
#[global] Arguments ptr CE A : clear implicits.
#[global] Arguments data_list CE : clear implicits.
#[global] Arguments identity_R CE : clear implicits.
#[global] Arguments attr_R CE : clear implicits.
#[global] Arguments dir_entry_R CE : clear implicits.
#[global] Arguments time_or_now_R CE : clear implicits.
#[global] Arguments time_or_now_W CE : clear implicits.
#[global] Arguments set_attr_R CE : clear implicits.
#[global] Arguments resume_R CE : clear implicits.
#[global] Arguments auth_W CE : clear implicits.
#[global] Arguments hello_R CE : clear implicits.
#[global] Arguments hello_reply_R CE : clear implicits.
#[global] Arguments hello_reply_W CE : clear implicits.
#[global] Arguments request_R CE : clear implicits.
#[global] Arguments request_W CE : clear implicits.
#[global] Arguments response_R CE : clear implicits.
#[global] Arguments response_W CE : clear implicits.
#[global] Arguments event_item_R CE : clear implicits.
#[global] Arguments event_item_W CE : clear implicits.
#[global] Arguments event_R CE : clear implicits.
#[global] Arguments W_None {A}.
#[global] Arguments W_Some {A} a.

(** ** UTF-8, as [str::from_utf8] checks it *)

Definition in_range (lo hi : Z) (b : byte) : bool := (lo <=? byte_z b) && (byte_z b <=? hi).
Definition continues (b : byte) : bool := in_range 128 191 b.

Fixpoint utf8_valid (bs : list byte) : bool :=
  match bs with
  | [] => true
  | a :: r1 =>
      if in_range 0 127 a then utf8_valid r1
      else match r1 with
           | [] => false
           | b :: r2 =>
               if in_range 194 223 a then continues b && utf8_valid r2
               else match r2 with
                    | [] => false
                    | c :: r3 =>
                        if bool_decide (byte_z a = 224) then
                          in_range 160 191 b && continues c && utf8_valid r3
                        else if bool_decide (byte_z a = 237) then
                          in_range 128 159 b && continues c && utf8_valid r3
                        else if in_range 225 239 a then
                          continues b && continues c && utf8_valid r3
                        else match r3 with
                             | [] => false
                             | d :: r4 =>
                                 if bool_decide (byte_z a = 240) then
                                   in_range 144 191 b && continues c && continues d && utf8_valid r4
                                 else if in_range 241 243 a then
                                   continues b && continues c && continues d && utf8_valid r4
                                 else if bool_decide (byte_z a = 244) then
                                   in_range 128 143 b && continues c && continues d && utf8_valid r4
                                 else false
                             end
                    end
           end
  end.

(** ** Sizes *)

Definition div_ceil8 (z : Z) : Z := (z + 7) / 8.

Definition words_for (len : Z) : Z := as_u32 (div_ceil8 len + 1).
Definition words_for_text (len : Z) : Z := words_for (len + 1).

Definition words_for_path (path : Path) : Z :=
  sum_z (λ n, words_for (len_z (as_bytes n))) (names path) + 2.
Definition BASE_WORDS : Z := 32.
Definition MAX_PATH_COMPONENTS : Z := Z.of_nat (PATH_MAX / 2 + 1).
Definition words_for_attr (attr : Attr) : Z :=
  let names := match a_xattr_names attr with
               | None => 0
               | Some names => sum_z (λ n, words_for (len_z n)) names
               end in
  as_u32 (div_ceil8 (len_z (handle (a_identity attr)))) + names.
Definition DIR_ENTRY_WORDS : Z := 4.
Definition ENTRY_ATTR_WORDS : Z := 17.
Definition ATTR_WORDS : Z := 22.
Definition EVENT_ITEM_WORDS : Z := 3.

(** ** Conversions *)

Section convert.
Context {CE : Type}.
Notation res := (result (ErrorDecode CE)).

(** The conversions of [?] into [ErrorDecode]. *)
Definition got {A} (p : ptr CE A) : res A := map_err ED_Capnp p.
Definition known {A} (w : which A) : res A := map_err ED_NotInSchema w.

Definition checked_len (declared message_words : Z) : res Z :=
  if message_words <? declared then Err (ED_Invalid (Inv_List declared message_words))
  else Ok declared.

Definition kind_to_wire (k : FileKind) : FileKind_W :=
  match k with
  | Regular => W_Regular | Directory => W_Directory | Symlink => W_Symlink
  | Fifo => W_Fifo | Socket => W_Socket | CharDevice => W_CharDevice
  | BlockDevice => W_BlockDevice
  end.
Definition kind_from_wire (k : FileKind_W) : FileKind :=
  match k with
  | W_Regular => Regular | W_Directory => Directory | W_Symlink => Symlink
  | W_Fifo => Fifo | W_Socket => Socket | W_CharDevice => CharDevice
  | W_BlockDevice => BlockDevice
  end.
Definition whence_to_wire (w : Whence) : Whence_W :=
  match w with Whence_Data => W_Data | Whence_Hole => W_Hole end.
Definition whence_from_wire (w : Whence_W) : Whence :=
  match w with W_Data => Whence_Data | W_Hole => Whence_Hole end.

Definition build_path (path : Path) : data_list CE := (λ n, Ok (as_bytes n)) <$> names path.

Fixpoint parse_path_items (items : data_list CE) (joined : nat) (ns : list Name) : res (list Name) :=
  match items with
  | [] => Ok ns
  | item :: items =>
      bytes ← got item;
      name ← map_err ED_Name (Name_new bytes);
      let joined := (joined + length (as_bytes name) + 1)%nat in
      if (PATH_MAX + 1 <? joined)%nat then Err (ED_Path ErrorPathTooLong)
      else parse_path_items items joined (ns ++ [name])
  end.
Definition parse_path (list : data_list CE) : res Path :=
  if MAX_PATH_COMPONENTS <? len_z list then Err (ED_Path ErrorPathTooLong)
  else ns ← parse_path_items list 0 [];
       map_err ED_Path (Path_from_names ns).

Definition parse_name (bytes : list byte) : res Name := map_err ED_Name (Name_new bytes).

Definition build_time (t : TimeSpec) : time_R := MkTime_R (ts_sec t) (ts_nsec t).
Definition parse_time (t : time_R) : TimeSpec := {| ts_sec := t_sec t; ts_nsec := t_nsec t |}.

Definition build_identity (i : Identity) : identity_R CE :=
  MkIdentity_R (handle_type i) (Ok (handle i)).
Definition parse_identity (r : identity_R CE) : res Identity :=
  handle ← got (i_handle r);
  if (HANDLE_MAX <? length handle)%nat then Err (ED_Invalid (Inv_Handle (len_z handle)))
  else Ok (MkIdentity (i_handle_type r) handle).

Definition build_opt {A B} (f : A → B) (o : option A) : which (opt_W B) :=
  Ok match o with None => W_None | Some a => W_Some (f a) end.
Definition parse_opt {A B} (f : A → res B) (w : which (opt_W A)) : res (option B) :=
  o ← known w;
  match o with W_None => Ok None | W_Some a => b ← f a; Ok (Some b) end.

Definition build_attr (a : Attr) : attr_R CE := {|
  w_ino := a_ino a; w_size := a_size a; w_blocks := a_blocks a;
  w_atime := build_time (a_atime a); w_mtime := build_time (a_mtime a);
  w_ctime := build_time (a_ctime a);
  w_kind := Ok (kind_to_wire (a_kind a));
  w_perm := a_perm a; w_nlink := a_nlink a; w_uid := a_uid a; w_gid := a_gid a;
  w_rdev := a_rdev a; w_blksize := a_blksize a;
  w_xattr_names := build_opt (λ ns, Ok (Ok <$> ns)) (a_xattr_names a);
  w_identity := Ok (build_identity (a_identity a));
  w_foreign := a_foreign a |}.
Definition parse_attr (r : attr_R CE) : res Attr :=
  kind ← known (w_kind r);
  xattr_names ← parse_opt (λ l, list ← got l; mapM got list) (w_xattr_names r);
  ident ← got (w_identity r);
  identity ← parse_identity ident;
  Ok {| a_ino := w_ino r; a_size := w_size r; a_blocks := w_blocks r;
        a_atime := parse_time (w_atime r); a_mtime := parse_time (w_mtime r);
        a_ctime := parse_time (w_ctime r);
        a_kind := kind_from_wire kind;
        a_perm := w_perm r; a_nlink := w_nlink r; a_uid := w_uid r; a_gid := w_gid r;
        a_rdev := w_rdev r; a_blksize := w_blksize r;
        a_xattr_names := xattr_names;
        a_identity := identity;
        a_foreign := w_foreign r |}.

Definition build_statfs (s : StatfsData) : statfs_R := {|
  w_sblocks := sf_blocks s; w_bfree := sf_bfree s; w_bavail := sf_bavail s;
  w_files := sf_files s; w_ffree := sf_ffree s; w_bsize := sf_bsize s;
  w_namelen := sf_namelen s; w_frsize := sf_frsize s |}.
Definition parse_statfs (r : statfs_R) : StatfsData := {|
  sf_blocks := w_sblocks r; sf_bfree := w_bfree r; sf_bavail := w_bavail r;
  sf_files := w_files r; sf_ffree := w_ffree r; sf_bsize := w_bsize r;
  sf_namelen := w_namelen r; sf_frsize := w_frsize r |}.

Definition build_dir_entry (e : DirEntry) : dir_entry_R CE :=
  MkDirEntry_R (de_next_offset e) (Ok (de_name e))
    (build_opt (λ a, Ok (build_attr a)) (de_attr e)).
Definition parse_dir_entry (r : dir_entry_R CE) : res DirEntry :=
  name ← got (w_name r);
  attr ← parse_opt (λ a, r ← got a; parse_attr r) (w_attr r);
  Ok (MkDirEntry (w_next_offset r) name attr).

Definition build_time_or_now (t : TimeOrNow) : time_or_now_R CE :=
  Ok match t with
     | TimeOrNow_Time ts => W_Time (Ok (build_time ts))
     | TimeOrNow_Now => W_Now
     end.
Definition parse_time_or_now (r : time_or_now_R CE) : res TimeOrNow :=
  w ← known r;
  match w with
  | W_Time ts => ts ← got ts; Ok (TimeOrNow_Time (parse_time ts))
  | W_Now => Ok TimeOrNow_Now
  end.

Definition build_set_attr (s : SetAttr) : set_attr_R CE := {|
  w_smode := build_opt id (s_mode s); w_suid := build_opt id (s_uid s);
  w_sgid := build_opt id (s_gid s); w_ssize := build_opt id (s_size s);
  w_satime := build_opt (λ t, Ok (build_time_or_now t)) (s_atime s);
  w_smtime := build_opt (λ t, Ok (build_time_or_now t)) (s_mtime s) |}.
Definition parse_set_attr (r : set_attr_R CE) : res SetAttr :=
  mode ← parse_opt Ok (w_smode r);
  uid ← parse_opt Ok (w_suid r);
  gid ← parse_opt Ok (w_sgid r);
  size ← parse_opt Ok (w_ssize r);
  atime ← parse_opt (λ t, t ← got t; parse_time_or_now t) (w_satime r);
  mtime ← parse_opt (λ t, t ← got t; parse_time_or_now t) (w_smtime r);
  Ok (MkSetAttr mode uid gid size atime mtime).

(** *** Hello *)

Definition resume_token (bytes : list byte) : res (list byte) :=
  if bool_decide (length bytes = 16%nat) then Ok bytes
  else Err (ED_Invalid (Inv_ResumeToken (len_z bytes))).

Definition Hello_build (h : Hello) : hello_R CE := {|
  w_revision := h_revision h;
  w_auth := Ok match h_auth h with
               | Anonymous => W_Anonymous
               | Token token => W_Token (Ok token)
               end;
  w_resume := build_opt (λ r, Ok (MkResume_R (r_session_id r) (Ok (r_token r)))) (h_resume h) |}.
Definition Hello_parse (message_words : Z) (root : ptr CE (hello_R CE)) : res Hello :=
  r ← got root;
  auth ← known (w_auth r);
  auth ← match auth with
         | W_Anonymous => Ok Anonymous
         | W_Token t => t ← got t; Ok (Token t)
         end;
  resume ← parse_opt (λ r, r ← got r; t ← got (w_rtoken r); t ← resume_token t;
                           Ok (MkResume (w_session_id r) t)) (w_resume r);
  Ok (MkHello (w_revision r) auth resume).
Definition Hello_size_hint (h : Hello) : Z :=
  let token := match h_auth h with Token t => words_for (len_z t) | Anonymous => 0 end in
  BASE_WORDS + token + 8.

Definition HelloReply_build (h : HelloReply) : hello_reply_R CE :=
  Ok match h with
     | Ack session_id resume_token resumed root_ino root_identity uid gid =>
         W_Ack session_id (Ok resume_token) resumed root_ino
           (Ok (build_identity root_identity)) uid gid
     | Reject reason => W_Reject (Ok (String.list_byte_of_string reason))
     | RevisionMismatch revision => W_RevisionMismatch revision
     end.
Definition HelloReply_parse (message_words : Z) (root : ptr CE (hello_reply_R CE)) : res HelloReply :=
  r ← got root;
  w ← known r;
  match w with
  | W_Ack session_id token resumed root_ino root_identity uid gid =>
      token ← got token;
      token ← resume_token token;
      ident ← got root_identity;
      identity ← parse_identity ident;
      Ok (Ack session_id token resumed root_ino identity uid gid)
  | W_Reject reason =>
      reason ← got reason;
      if utf8_valid reason then Ok (Reject (String.string_of_list_byte reason))
      else Err (ED_Invalid Inv_NotUtf8)
  | W_RevisionMismatch revision => Ok (RevisionMismatch revision)
  end.
Definition HelloReply_size_hint (h : HelloReply) : Z :=
  BASE_WORDS
  + match h with
    | Ack _ _ _ _ root_identity _ _ => 9 + words_for (len_z (handle root_identity))
    | Reject reason => words_for_text (len_z (String.list_byte_of_string reason))
    | RevisionMismatch _ => 1
    end.

(** *** Request *)

Definition bp (p : Path) : ptr CE (data_list CE) := Ok (build_path p).
Definition bn (n : Name) : ptr CE data := Ok (as_bytes n).

Definition Request_build (r : Request) : request_R CE :=
  Ok match r with
     | Req_Lookup parent name => W_Lookup (bp parent) (bn name)
     | Req_Getattr path fh => W_Getattr (build_opt bp path) (build_opt id fh)
     | Req_Setattr path fh set =>
         W_Setattr (build_opt bp path) (build_opt id fh) (Ok (build_set_attr set))
     | Req_Readlink path => W_Readlink (bp path)
     | Req_Mknod parent name mode rdev => W_Mknod (bp parent) (bn name) mode rdev
     | Req_Mkdir parent name mode => W_Mkdir (bp parent) (bn name) mode
     | Req_Unlink parent name => W_Unlink (bp parent) (bn name)
     | Req_Rmdir parent name => W_Rmdir (bp parent) (bn name)
     | Req_Symlink parent name target => W_ReqSymlink (bp parent) (bn name) (Ok target)
     | Req_Rename parent name newparent newname flags =>
         W_Rename (bp parent) (bn name) (bp newparent) (bn newname) flags
     | Req_Link path newparent newname => W_Link (bp path) (bp newparent) (bn newname)
     | Req_Open fh path flags => W_Open fh (bp path) flags
     | Req_Create fh parent name mode flags => W_Create fh (bp parent) (bn name) mode flags
     | Req_Read fh offset size => W_Read fh offset size
     | Req_Write fh offset data => W_Write fh offset (Ok data)
     | Req_Release fh ordered => W_Release fh ordered
     | Req_Fsync fh datasync => W_Fsync fh datasync
     | Req_Opendir fh path => W_Opendir fh (bp path)
     | Req_Readdir fh offset max_bytes => W_Readdir fh offset max_bytes
     | Req_Releasedir fh ordered => W_Releasedir fh ordered
     | Req_Statfs path => W_Statfs (bp path)
     | Req_Setxattr path name value flags => W_Setxattr (bp path) (Ok name) (Ok value) flags
     | Req_Getxattr path name => W_Getxattr (bp path) (Ok name)
     | Req_Listxattr path => W_Listxattr (bp path)
     | Req_Removexattr path name => W_Removexattr (bp path) (Ok name)
     | Req_Access path mask => W_Access (bp path) mask
     | Req_CopyFileRange fh_in offset_in fh_out offset_out len =>
         W_CopyFileRange fh_in offset_in fh_out offset_out len
     | Req_Fallocate fh offset len mode => W_Fallocate fh offset len mode
     | Req_Lseek fh offset whence => W_Lseek fh offset (Ok (whence_to_wire whence))
     end.

Definition pp (p : ptr CE (data_list CE)) : res Path := l ← got p; parse_path l.
Definition pn (p : ptr CE data) : res Name := b ← got p; parse_name b.

Definition Request_parse (message_words : Z) (root : ptr CE (request_R CE)) : res Request :=
  r ← got root;
  w ← known r;
  match w with
  | W_Lookup parent name => parent ← pp parent; name ← pn name; Ok (Req_Lookup parent name)
  | W_Getattr path fh =>
      path ← parse_opt pp path; fh ← parse_opt Ok fh; Ok (Req_Getattr path fh)
  | W_Setattr path fh set =>
      path ← parse_opt pp path; fh ← parse_opt Ok fh;
      set ← got set; set ← parse_set_attr set; Ok (Req_Setattr path fh set)
  | W_Readlink path => path ← pp path; Ok (Req_Readlink path)
  | W_Mknod parent name mode rdev =>
      parent ← pp parent; name ← pn name; Ok (Req_Mknod parent name mode rdev)
  | W_Mkdir parent name mode =>
      parent ← pp parent; name ← pn name; Ok (Req_Mkdir parent name mode)
  | W_Unlink parent name => parent ← pp parent; name ← pn name; Ok (Req_Unlink parent name)
  | W_Rmdir parent name => parent ← pp parent; name ← pn name; Ok (Req_Rmdir parent name)
  | W_ReqSymlink parent name target =>
      parent ← pp parent; name ← pn name; target ← got target;
      Ok (Req_Symlink parent name target)
  | W_Rename parent name newparent newname flags =>
      parent ← pp parent; name ← pn name; newparent ← pp newparent; newname ← pn newname;
      Ok (Req_Rename parent name newparent newname flags)
  | W_Link path newparent newname =>
      path ← pp path; newparent ← pp newparent; newname ← pn newname;
      Ok (Req_Link path newparent newname)
  | W_Open fh path flags => path ← pp path; Ok (Req_Open fh path flags)
  | W_Create fh parent name mode flags =>
      parent ← pp parent; name ← pn name; Ok (Req_Create fh parent name mode flags)
  | W_Read fh offset size => Ok (Req_Read fh offset size)
  | W_Write fh offset data => data ← got data; Ok (Req_Write fh offset data)
  | W_Release fh ordered => Ok (Req_Release fh ordered)
  | W_Fsync fh datasync => Ok (Req_Fsync fh datasync)
  | W_Opendir fh path => path ← pp path; Ok (Req_Opendir fh path)
  | W_Readdir fh offset max_bytes => Ok (Req_Readdir fh offset max_bytes)
  | W_Releasedir fh ordered => Ok (Req_Releasedir fh ordered)
  | W_Statfs path => path ← pp path; Ok (Req_Statfs path)
  | W_Setxattr path name value flags =>
      path ← pp path; name ← got name; value ← got value;
      Ok (Req_Setxattr path name value flags)
  | W_Getxattr path name => path ← pp path; name ← got name; Ok (Req_Getxattr path name)
  | W_Listxattr path => path ← pp path; Ok (Req_Listxattr path)
  | W_Removexattr path name => path ← pp path; name ← got name; Ok (Req_Removexattr path name)
  | W_Access path mask => path ← pp path; Ok (Req_Access path mask)
  | W_CopyFileRange fh_in offset_in fh_out offset_out len =>
      Ok (Req_CopyFileRange fh_in offset_in fh_out offset_out len)
  | W_Fallocate fh offset len mode => Ok (Req_Fallocate fh offset len mode)
  | W_Lseek fh offset whence =>
      whence ← known whence; Ok (Req_Lseek fh offset (whence_from_wire whence))
  end.

Definition Request_size_hint (r : Request) : Z :=
  let name n := words_for (len_z (as_bytes n)) in
  let payload :=
    match r with
    | Req_Lookup parent n | Req_Unlink parent n | Req_Rmdir parent n | Req_Mkdir parent n _
    | Req_Mknod parent n _ _ | Req_Create _ parent n _ _ => words_for_path parent + name n
    | Req_Getattr path _ | Req_Setattr path _ _ =>
        match path with None => 0 | Some p => words_for_path p end + 16
    | Req_Readlink path | Req_Open _ path _ | Req_Opendir _ path | Req_Statfs path
    | Req_Listxattr path => words_for_path path
    | Req_Symlink parent n target => words_for_path parent + name n + words_for (len_z target)
    | Req_Rename parent n newparent newname _ =>
        words_for_path parent + name n + words_for_path newparent + name newname
    | Req_Link path newparent newname =>
        words_for_path path + words_for_path newparent + name newname
    | Req_Write _ _ data => words_for (len_z data)
    | Req_Setxattr path n value _ =>
        words_for_path path + words_for (len_z n) + words_for (len_z value)
    | Req_Getxattr path n | Req_Removexattr path n =>
        words_for_path path + words_for (len_z n)
    | Req_Access path _ => words_for_path path
    | Req_Read _ _ _ | Req_Release _ _ | Req_Fsync _ _ | Req_Readdir _ _ _
    | Req_Releasedir _ _ | Req_CopyFileRange _ _ _ _ _ | Req_Fallocate _ _ _ _
    | Req_Lseek _ _ _ => 0
    end in
  BASE_WORDS + payload.

(** *** Response *)

Definition Response_build (r : Response) : response_R CE :=
  Ok match r with
     | Resp_Err errno => W_Err errno
     | Resp_Entry attr => W_Entry (Ok (build_attr attr))
     | Resp_Attr attr => W_Attr (Ok (build_attr attr))
     | Resp_Readlink target => W_RespReadlink (Ok target)
     | Resp_Ok => W_Ok
     | Resp_Opened attr => W_Opened (Ok (build_attr attr))
     | Resp_Read data => W_RespRead (Ok data)
     | Resp_Written n => W_Written n
     | Resp_Copied n => W_Copied n
     | Resp_Seeked offset => W_Seeked offset
     | Resp_Readdir entries end_ => W_RespReaddir (Ok (build_dir_entry <$> entries)) end_
     | Resp_Statfs s => W_RespStatfs (Ok (build_statfs s))
     | Resp_Xattr value => W_Xattr (Ok value)
     end.

Definition pa (p : ptr CE (attr_R CE)) : res Attr := a ← got p; parse_attr a.

Definition Response_parse (message_words : Z) (root : ptr CE (response_R CE)) : res Response :=
  r ← got root;
  w ← known r;
  match w with
  | W_Err errno => Ok (Resp_Err errno)
  | W_Entry attr => attr ← pa attr; Ok (Resp_Entry attr)
  | W_Attr attr => attr ← pa attr; Ok (Resp_Attr attr)
  | W_RespReadlink target => target ← got target; Ok (Resp_Readlink target)
  | W_Ok => Ok Resp_Ok
  | W_Opened attr => attr ← pa attr; Ok (Resp_Opened attr)
  | W_RespRead data => data ← got data; Ok (Resp_Read data)
  | W_Written n => Ok (Resp_Written n)
  | W_Copied n => Ok (Resp_Copied n)
  | W_Seeked offset => Ok (Resp_Seeked offset)
  | W_RespReaddir entries end_ =>
      list ← got entries;
      _ ← checked_len (len_z list) message_words;
      entries ← mapM parse_dir_entry list;
      Ok (Resp_Readdir entries end_)
  | W_RespStatfs s => s ← got s; Ok (Resp_Statfs (parse_statfs s))
  | W_Xattr value => value ← got value; Ok (Resp_Xattr value)
  end.

Definition Response_size_hint (r : Response) : Z :=
  let payload :=
    match r with
    | Resp_Err _ | Resp_Ok | Resp_Written _ | Resp_Copied _ | Resp_Seeked _ => 0
    | Resp_Entry attr | Resp_Attr attr | Resp_Opened attr => ATTR_WORDS + words_for_attr attr
    | Resp_Readlink b | Resp_Read b | Resp_Xattr b => words_for (len_z b)
    | Resp_Readdir entries _ =>
        sum_z (λ e, DIR_ENTRY_WORDS + as_u32 (div_ceil8 (len_z (de_name e)))
                    + match de_attr e with
                      | None => 0
                      | Some attr => ENTRY_ATTR_WORDS + words_for_attr attr
                      end) entries
    | Resp_Statfs _ => 8
    end in
  BASE_WORDS + payload.

(** *** Event *)

Definition build_event_item (i : EventItem) : event_item_R CE :=
  Ok match i with
     | Ev_Entry dir name => W_EvEntry (bp dir) (bn name)
     | Ev_Data path => W_EvData (bp path)
     | Ev_Overflow => W_Overflow
     | Ev_Unwatched dir => W_Unwatched (bp dir)
     end.
Definition Event_build (e : Event) : event_R CE := {|
  w_items := Ok (build_event_item <$> ev_items e);
  w_handles := (λ n, Ok (MkNotice_R (n_held n) (n_share n))) <$> ev_handles e |}.

Definition parse_event_item (r : event_item_R CE) : res EventItem :=
  w ← known r;
  match w with
  | W_EvEntry dir name => dir ← pp dir; name ← pn name; Ok (Ev_Entry dir name)
  | W_EvData path => path ← pp path; Ok (Ev_Data path)
  | W_Overflow => Ok Ev_Overflow
  | W_Unwatched dir => dir ← pp dir; Ok (Ev_Unwatched dir)
  end.
Definition Event_parse (message_words : Z) (root : ptr CE (event_R CE)) : res Event :=
  r ← got root;
  list ← got (w_items r);
  _ ← checked_len (len_z list) message_words;
  items ← mapM parse_event_item list;
  handles ← match w_handles r with
            | Some n => n ← got n; Ok (Some (MkNotice (w_held n) (w_share n)))
            | None => Ok None
            end;
  Ok (MkEvent items handles).
Definition Event_size_hint (e : Event) : Z :=
  BASE_WORDS + 3
  + sum_z (λ item, match item with
                   | Ev_Entry dir name =>
                       4 + words_for_path dir + words_for (len_z (as_bytes name))
                   | Ev_Data path => EVENT_ITEM_WORDS + words_for_path path
                   | Ev_Overflow => EVENT_ITEM_WORDS
                   | Ev_Unwatched dir => EVENT_ITEM_WORDS + words_for_path dir
                   end) (ev_items e).

(** *** The trait *)

(** [trait Message]: [T] is a message, [R] its root struct's reader. *)
Class Message (T R : Type) := {
  build : T → R;
  parse : Z → ptr CE R → res T;
  size_hint : T → Z }.

#[export] Instance Hello_Message : Message Hello (hello_R CE) :=
  {| build := Hello_build; parse := Hello_parse; size_hint := Hello_size_hint |}.
#[export] Instance HelloReply_Message : Message HelloReply (hello_reply_R CE) :=
  {| build := HelloReply_build; parse := HelloReply_parse; size_hint := HelloReply_size_hint |}.
#[export] Instance Request_Message : Message Request (request_R CE) :=
  {| build := Request_build; parse := Request_parse; size_hint := Request_size_hint |}.
#[export] Instance Response_Message : Message Response (response_R CE) :=
  {| build := Response_build; parse := Response_parse; size_hint := Response_size_hint |}.
#[export] Instance Event_Message : Message Event (event_R CE) :=
  {| build := Event_build; parse := Event_parse; size_hint := Event_size_hint |}.

(** What the trait's users rely on: [wf] holds of whatever is parsed, and what
    was built from such a message reads back, in a message of no fewer words than
    [elements], the length of its struct list. *)
Class MessageLaws (T R : Type) `{Message T R} := {
  wf : T → Prop;
  elements : T → Z;
  parse_wf : ∀ words root m, parse words root = Ok m → wf m;
  parse_build : ∀ words m, wf m → elements m ≤ words → parse words (Ok (build m)) = Ok m }.

End convert.

#[global] Arguments Message CE T R : clear implicits.
#[global] Arguments MessageLaws CE T R {_}.

(** ** What a decoder lets through *)

Definition identity_wf (i : Identity) : Prop := (length (handle i) ≤ HANDLE_MAX)%nat.
Definition attr_wf (a : Attr) : Prop := identity_wf (a_identity a).
Definition token_wf (t : list byte) : Prop := length t = 16%nat.

Definition hello_wf (h : Hello) : Prop :=
  ∀ r, h_resume h = Some r → token_wf (r_token r).
Definition hello_reply_wf (h : HelloReply) : Prop :=
  match h with
  | Ack _ token _ _ root _ _ => token_wf token ∧ identity_wf root
  | Reject reason => utf8_valid (String.list_byte_of_string reason) = true
  | RevisionMismatch _ => True
  end.

Definition opt_list {A} (o : option A) : list A := match o with None => [] | Some a => [a] end.
Definition req_paths (r : Request) : list Path :=
  match r with
  | Req_Lookup p _ | Req_Mknod p _ _ _ | Req_Mkdir p _ _ | Req_Unlink p _ | Req_Rmdir p _
  | Req_Symlink p _ _ | Req_Create _ p _ _ _ | Req_Readlink p | Req_Open _ p _
  | Req_Opendir _ p | Req_Statfs p | Req_Setxattr p _ _ _ | Req_Getxattr p _
  | Req_Listxattr p | Req_Removexattr p _ | Req_Access p _ => [p]
  | Req_Getattr p _ | Req_Setattr p _ _ => opt_list p
  | Req_Rename p _ q _ _ | Req_Link p q _ => [p; q]
  | Req_Read _ _ _ | Req_Write _ _ _ | Req_Release _ _ | Req_Fsync _ _ | Req_Readdir _ _ _
  | Req_Releasedir _ _ | Req_CopyFileRange _ _ _ _ _ | Req_Fallocate _ _ _ _
  | Req_Lseek _ _ _ => []
  end.
Definition req_names (r : Request) : list Name :=
  match r with
  | Req_Lookup _ n | Req_Mknod _ n _ _ | Req_Mkdir _ n _ | Req_Unlink _ n | Req_Rmdir _ n
  | Req_Symlink _ n _ | Req_Create _ _ n _ _ | Req_Link _ _ n => [n]
  | Req_Rename _ n _ m _ => [n; m]
  | _ => []
  end.
Definition request_wf (r : Request) : Prop :=
  Forall path_valid (req_paths r) ∧ Forall name_valid (req_names r).

Definition entry_wf (e : DirEntry) : Prop := ∀ a, de_attr e = Some a → attr_wf a.
Definition response_wf (r : Response) : Prop :=
  match r with
  | Resp_Entry a | Resp_Attr a | Resp_Opened a => attr_wf a
  | Resp_Readdir es _ => Forall entry_wf es
  | _ => True
  end.
Definition response_elements (r : Response) : Z :=
  match r with Resp_Readdir es _ => len_z es | _ => 0 end.

Definition event_item_wf (i : EventItem) : Prop :=
  match i with
  | Ev_Entry d n => path_valid d ∧ name_valid n
  | Ev_Data p | Ev_Unwatched p => path_valid p
  | Ev_Overflow => True
  end.
Definition event_wf (e : Event) : Prop := Forall event_item_wf (ev_items e).

(** ** Lemmas *)

Create HintDb wire.

Section laws.
Context {CE : Type}.
Notation res := (result (ErrorDecode CE)).

Lemma parse_path_items_spec items joined ns ns' :
  parse_path_items (CE:=CE) items joined ns = Ok ns' →
  Forall name_valid ns → Forall name_valid ns'.
Proof.
  revert joined ns. induction items as [|item items IH]; intros joined ns H Hns.
  - cbn in H. by simplify_eq.
  - cbn -[Nat.ltb] in H. binds. destruct (_ <? _)%nat; [done|].
    apply map_err_Ok, Name_new_spec in H1 as [_ Hn].
    eapply IH; [exact H|]. apply Forall_app. eauto.
Qed.

Lemma parse_path_valid list p : parse_path (CE:=CE) list = Ok p → path_valid p.
Proof.
  unfold parse_path. destruct (_ <? _); [done|]. intros H. binds.
  apply map_err_Ok, Path_from_names_Ok in H as [-> Hl].
  split; [|done]. by eapply parse_path_items_spec.
Qed.

(** The running length stays within the limit as long as the whole does. *)
Lemma parse_path_items_build ns joined done_ :
  Forall name_valid ns →
  (joined + sum_list_with (λ n, length (as_bytes n) + 1) ns ≤ PATH_MAX + 1)%nat →
  parse_path_items (CE:=CE) ((λ n, Ok (as_bytes n)) <$> ns) joined done_ = Ok (done_ ++ ns).
Proof.
  revert joined done_. induction ns as [|n ns IH]; intros joined done_ Hv Hl.
  - cbn. by rewrite app_nil_r.
  - inversion_clear Hv as [|?? Hn Hns]. cbn -[Nat.ltb Nat.add] in Hl |- *.
    rewrite (proj2 (Name_new_spec (as_bytes n) n)) by (destruct n; done). cbn -[Nat.ltb Nat.add].
    replace (_ <? _)%nat with false by (symmetry; apply Nat.ltb_ge; lia).
    rewrite IH by (done || lia). by rewrite <- app_assoc.
Qed.

Lemma sum_lens ns :
  sum_list_with (λ n, length (as_bytes n) + 1)%nat ns
  = (sum_list_with (λ n, length (as_bytes n)) ns + length ns)%nat.
Proof. induction ns; simpl; lia. Qed.

Lemma length_le_sum ns :
  Forall name_valid ns → (length ns ≤ sum_list_with (λ n, length (as_bytes n)) ns)%nat.
Proof.
  induction 1 as [|n ns Hn _ IH]; simpl; [lia|].
  destruct Hn as [Hn _]. destruct (as_bytes n); [done|]. simpl. lia.
Qed.

Lemma pp_bp p : path_valid p → pp (CE:=CE) (bp p) = Ok p.
Proof.
  destruct p as [ns]. intros [Hv Hl]. unfold byte_len in Hl. cbn [names] in *.
  pose proof (length_le_sum ns Hv) as Hs. unfold pp, bp, parse_path, got. cbn [map_err mbind result_bind].
  assert (MAX_PATH_COMPONENTS = 2049) as HM by reflexivity.
  assert (PATH_MAX = 4096%nat) as HP by reflexivity.
  unfold len_z, build_path. cbn [names]. rewrite length_fmap.
  replace (_ <? _) with false by (symmetry; apply Z.ltb_ge; lia).
  rewrite parse_path_items_build; [|done|rewrite sum_lens; lia].
  cbn [mbind result_bind app].
  rewrite (proj2 (Path_from_names_Ok ns (MkPath ns))); [done|]. split; [done|].
  unfold byte_len; cbn [names]. lia.
Qed.

Lemma pn_bn n : name_valid n → pn (CE:=CE) (bn n) = Ok n.
Proof.
  intros Hn. unfold pn, bn, parse_name, got. cbn [map_err mbind result_bind].
  rewrite (proj2 (Name_new_spec (as_bytes n) n)); [done|]. by destruct n.
Qed.

Lemma pp_valid l p : pp (CE:=CE) l = Ok p → path_valid p.
Proof. unfold pp. intros H. binds. by eapply parse_path_valid. Qed.

Lemma pn_valid b n : pn (CE:=CE) b = Ok n → name_valid n.
Proof. unfold pn, parse_name. intros H. binds. by apply map_err_Ok, Name_new_spec in H as [_ ?]. Qed.

Lemma parse_opt_build {A B} (f : B → A) (g : A → res B) (o : option B) :
  (∀ b, o = Some b → g (f b) = Ok b) → parse_opt g (build_opt f o) = Ok o.
Proof.
  intros Hg. destruct o as [b|]; [|done]. unfold parse_opt, build_opt. cbn. by rewrite Hg.
Qed.

Lemma parse_identity_build i :
  identity_wf i → parse_identity (CE:=CE) (build_identity i) = Ok i.
Proof.
  destruct i as [ty h]. unfold identity_wf, parse_identity, build_identity.
  cbn -[HANDLE_MAX Nat.ltb]. intros Hl.
  by replace (_ <? _)%nat with false by (symmetry; apply Nat.ltb_ge; lia).
Qed.

Lemma parse_identity_wf r i : parse_identity (CE:=CE) r = Ok i → identity_wf i.
Proof.
  unfold parse_identity, identity_wf. intros H. binds.
  destruct (Nat.ltb_spec HANDLE_MAX (length x)); [done|]. by simplify_eq.
Qed.

Lemma kind_round_trip k : kind_from_wire (kind_to_wire k) = k.
Proof. by destruct k. Qed.

Lemma parse_attr_build a : attr_wf a → parse_attr (CE:=CE) (build_attr a) = Ok a.
Proof.
  intros Ha. unfold parse_attr, build_attr. cbn -[parse_opt build_opt parse_identity].
  rewrite parse_opt_build.
  2:{ intros b _. cbn. by apply mapM_Ok. }
  cbn -[parse_identity]. rewrite parse_identity_build by done. cbn.
  rewrite kind_round_trip. by destruct a as [? ? ? [] [] []].
Qed.

Lemma parse_attr_wf r a : parse_attr (CE:=CE) r = Ok a → attr_wf a.
Proof. unfold parse_attr. intros H. binds. by eapply parse_identity_wf. Qed.

Lemma pa_build a : attr_wf a → pa (CE:=CE) (Ok (build_attr a)) = Ok a.
Proof. apply parse_attr_build. Qed.

Lemma pa_wf p a : pa (CE:=CE) p = Ok a → attr_wf a.
Proof. unfold pa. intros H. binds. by eapply parse_attr_wf. Qed.

Lemma parse_dir_entry_build e :
  entry_wf e → parse_dir_entry (CE:=CE) (build_dir_entry e) = Ok e.
Proof.
  intros He. unfold parse_dir_entry, build_dir_entry. cbn -[parse_opt build_opt].
  rewrite parse_opt_build; [by destruct e|]. intros a Ha. cbn -[parse_attr build_attr].
  apply parse_attr_build. by apply He.
Qed.

Lemma parse_time_or_now_build t : parse_time_or_now (CE:=CE) (build_time_or_now t) = Ok t.
Proof. by destruct t as [[]|]. Qed.

Lemma parse_set_attr_build s : parse_set_attr (CE:=CE) (build_set_attr s) = Ok s.
Proof.
  unfold parse_set_attr, build_set_attr. cbn -[parse_opt build_opt].
  repeat (rewrite parse_opt_build by (intros; first [done | apply parse_time_or_now_build]); cbn -[parse_opt build_opt]).
  by destruct s.
Qed.

Lemma parse_event_item_build i :
  event_item_wf i → parse_event_item (CE:=CE) (build_event_item i) = Ok i.
Proof.
  destruct i; cbn -[pp bp pn bn]; intros Hi; [destruct Hi as [Hd Hn]| | |];
    rewrite ?pp_bp by done; cbn -[pn bn]; rewrite ?pn_bn by done; done.
Qed.

Lemma resume_token_Ok t t' : resume_token (CE:=CE) t = Ok t' ↔ t' = t ∧ token_wf t.
Proof. unfold resume_token, token_wf. case_bool_decide; naive_solver. Qed.

Lemma parse_opt_Some {A B} (g : A → res B) w b :
  parse_opt g w = Ok (Some b) → ∃ a, g a = Ok b.
Proof.
  unfold parse_opt. intros H. binds. destruct x; [done|]. binds. eauto.
Qed.

Lemma parse_opt_wf {A B} (g : A → res B) (P : B → Prop) w o :
  (∀ a b, g a = Ok b → P b) → parse_opt g w = Ok o → Forall P (opt_list o).
Proof.
  intros Hg Hw. destruct o as [b|]; [|constructor].
  apply parse_opt_Some in Hw as [a Ha]. repeat constructor. eauto.
Qed.

Lemma checked_len_Ok n words : checked_len (CE:=CE) n words = Ok n ↔ n ≤ words.
Proof. unfold checked_len. destruct (Z.ltb_spec words n); split; (done || lia). Qed.

Hint Resolve pp_valid pn_valid pa_wf parse_attr_wf parse_identity_wf parse_opt_wf : wire.

(** *** The five messages keep the trait's promise *)

Lemma Request_parse_wf words root r : Request_parse (CE:=CE) words root = Ok r → request_wf r.
Proof.
  unfold Request_parse, request_wf. intros H. binds.
  match goal with w : request_W CE |- _ => destruct w end; binds; simpl;
    (split; repeat first [apply Forall_nil_2 | apply Forall_cons_2]; eauto 3 with wire nocore).
Qed.

Lemma parse_opt_path path :
  Forall path_valid (opt_list path) → parse_opt (CE:=CE) pp (build_opt bp path) = Ok path.
Proof.
  intros Hp. apply parse_opt_build. intros p ->. apply pp_bp.
  by apply Forall_cons_iff in Hp as [? _].
Qed.

Lemma Request_parse_build words r :
  request_wf r → Request_parse (CE:=CE) words (Ok (Request_build r)) = Ok r.
Proof.
  unfold request_wf, Request_parse, Request_build.
  destruct r; cbn -[pp bp pn bn parse_opt build_opt parse_set_attr build_set_attr];
    intros [Hp Hn]; repeat match goal with H : Forall _ (_ :: _) |- _ => apply Forall_cons_iff in H as [? H] end;
    try (rewrite parse_opt_path by done);
    cbn -[pp bp pn bn parse_opt build_opt parse_set_attr build_set_attr];
    try (rewrite parse_opt_build by done);
    repeat (first [rewrite pp_bp by done | rewrite pn_bn by done | rewrite parse_set_attr_build];
            cbn -[pp bp pn bn parse_opt build_opt parse_set_attr build_set_attr]);
    try done.
  by destruct whence.
Qed.

Lemma Response_parse_wf words root r : Response_parse (CE:=CE) words root = Ok r → response_wf r.
Proof.
  unfold Response_parse, response_wf. intros H. binds.
  match goal with w : response_W CE |- _ => destruct w end; binds; try exact I; eauto 3 with wire nocore.
  eapply mapM_Forall; [|eassumption]. intros e b He. unfold parse_dir_entry in He. binds.
  intros a Ha. simpl in Ha. subst.
  match goal with H : parse_opt _ _ = Ok (Some _) |- _ => apply parse_opt_Some in H as [? H] end.
  binds. eauto with wire.
Qed.

Lemma Response_parse_build words r :
  response_wf r → response_elements r ≤ words →
  Response_parse (CE:=CE) words (Ok (Response_build r)) = Ok r.
Proof.
  unfold Response_parse, Response_build.
  destruct r; cbn -[pa build_attr parse_dir_entry build_dir_entry mapM fmap checked_len len_z];
    intros Hw Hl; try (rewrite pa_build by done); try done.
  - unfold len_z in *. rewrite length_fmap, (proj2 (checked_len_Ok _ _) Hl).
    cbn -[mapM fmap parse_dir_entry build_dir_entry].
    rewrite (mapM_Ok parse_dir_entry build_dir_entry); [done|].
    intros e He. apply parse_dir_entry_build. rewrite Forall_forall in Hw. eauto.
  - by destruct s.
Qed.

Lemma Event_parse_wf words root e : Event_parse (CE:=CE) words root = Ok e → event_wf e.
Proof.
  unfold Event_parse, event_wf. intros H. binds.
  match goal with H : mapM _ _ = Ok _ |- _ =>
    eapply mapM_Forall in H; [exact H|]; clear H end.
  intros a b Hab. unfold parse_event_item in Hab. binds.
  match goal with w : event_item_W CE |- _ => destruct w end; binds; simpl; eauto with wire.
Qed.

Lemma Event_parse_build words e :
  event_wf e → len_z (ev_items e) ≤ words →
  Event_parse (CE:=CE) words (Ok (Event_build e)) = Ok e.
Proof.
  intros Hw Hl. unfold Event_parse, Event_build.
  cbn -[parse_event_item build_event_item mapM fmap checked_len len_z].
  unfold len_z in *. rewrite length_fmap, (proj2 (checked_len_Ok _ _) Hl).
  cbn -[mapM fmap parse_event_item build_event_item].
  rewrite (mapM_Ok parse_event_item build_event_item).
  2:{ intros i Hi. apply parse_event_item_build. unfold event_wf in Hw.
      rewrite Forall_forall in Hw. eauto. }
  by destruct e as [items [[]|]].
Qed.

Lemma Hello_parse_wf words root h : Hello_parse (CE:=CE) words root = Ok h → hello_wf h.
Proof.
  unfold Hello_parse, hello_wf. intros H. binds. intros r Hr. simpl in Hr. subst.
  match goal with H : parse_opt _ _ = Ok (Some _) |- _ => apply parse_opt_Some in H as [? H] end.
  binds. match goal with H : resume_token _ = Ok _ |- _ => by apply resume_token_Ok in H as [-> ?] end.
Qed.

Lemma Hello_parse_build words h :
  hello_wf h → Hello_parse (CE:=CE) words (Ok (Hello_build h)) = Ok h.
Proof.
  intros Hw. destruct h as [rev auth resume]. unfold Hello_parse, Hello_build.
  cbn -[parse_opt build_opt].
  rewrite parse_opt_build; [by destruct auth|].
  intros r Hr. cbn. rewrite (proj2 (resume_token_Ok (r_token r) (r_token r))); [by destruct r|].
  split; [done|]. by apply Hw.
Qed.

Lemma HelloReply_parse_wf words root h :
  HelloReply_parse (CE:=CE) words root = Ok h → hello_reply_wf h.
Proof.
  unfold HelloReply_parse. intros H. binds.
  match goal with w : hello_reply_W CE |- _ => destruct w end; binds; simpl.
  - match goal with H : resume_token _ = Ok _ |- _ => apply resume_token_Ok in H as [-> ?] end.
    eauto with wire.
  - destruct (utf8_valid _) eqn:Hu; [|done]. simplify_eq. simpl.
    by rewrite String.list_byte_of_string_of_list_byte.
  - done.
Qed.

Lemma HelloReply_parse_build words h :
  hello_reply_wf h → HelloReply_parse (CE:=CE) words (Ok (HelloReply_build h)) = Ok h.
Proof.
  unfold HelloReply_parse, HelloReply_build.
  destruct h; cbn -[parse_identity build_identity utf8_valid]; intros Hw; try done.
  - destruct Hw as [Ht Hi]. rewrite (proj2 (resume_token_Ok _ _) (conj eq_refl Ht)).
    cbn -[parse_identity build_identity]. by rewrite parse_identity_build.
  - by rewrite Hw, String.string_of_list_byte_of_string.
Qed.

#[export] Instance Hello_laws : MessageLaws CE Hello (hello_R CE) :=
  {| wf := hello_wf; elements := λ _, 0; parse_wf := Hello_parse_wf;
     parse_build := λ words m Hm _, Hello_parse_build words m Hm |}.
#[export] Instance HelloReply_laws : MessageLaws CE HelloReply (hello_reply_R CE) :=
  {| wf := hello_reply_wf; elements := λ _, 0; parse_wf := HelloReply_parse_wf;
     parse_build := λ words m Hm _, HelloReply_parse_build words m Hm |}.
#[export] Instance Request_laws : MessageLaws CE Request (request_R CE) :=
  {| wf := request_wf; elements := λ _, 0; parse_wf := Request_parse_wf;
     parse_build := λ words m Hm _, Request_parse_build words m Hm |}.
#[export] Instance Response_laws : MessageLaws CE Response (response_R CE) :=
  {| wf := response_wf; elements := response_elements; parse_wf := Response_parse_wf;
     parse_build := Response_parse_build |}.
#[export] Instance Event_laws : MessageLaws CE Event (event_R CE) :=
  {| wf := event_wf; elements := λ e, len_z (ev_items e); parse_wf := Event_parse_wf;
     parse_build := Event_parse_build |}.

End laws.

(** ** Properties *)

(** A path list is accepted exactly when it spells a valid path. *)
Lemma parse_path_items_inv {CE} (items : data_list CE) joined ns ns' :
  parse_path_items items joined ns = Ok ns' →
  ∃ more, ns' = ns ++ more ∧ items = (λ n, Ok (as_bytes n)) <$> more.
Proof.
  revert joined ns. induction items as [|item items IH]; intros joined ns H.
  - cbn in H. simplify_eq. exists []. by rewrite app_nil_r.
  - cbn -[Nat.ltb] in H. binds. destruct (_ <? _)%nat; [done|].
    apply IH in H as (more & -> & ->).
    apply map_err_Ok in H0, H1. apply Name_new_spec in H1 as [-> _].
    exists (MkName x :: more). rewrite <- app_assoc. split; [done|]. cbn. by f_equal.
Qed.

(** Path validation is exact.  The decoder turns a list of components into a path
    exactly when the list spells a valid path (every component a valid name, the
    joined form within [PATH_MAX]): the cap on the component count and the running
    length, both there to bound the work a hostile list causes, refuse no valid path,
    and no invalid one gets through. *)
Theorem parse_path_exact {CE} (list : data_list CE) p :
  parse_path list = Ok p ↔ list = build_path p ∧ path_valid p.
Proof.
  split.
  - intros H. split; [|by eapply parse_path_valid]. revert H. unfold parse_path.
    destruct (_ <? _); [done|]. intros H. binds.
    apply map_err_Ok, Path_from_names_Ok in H as [-> _].
    by apply parse_path_items_inv in H0 as (more & -> & ->).
  - intros [-> Hv]. by apply (pp_bp p Hv).
Qed.

(** C33: only valid messages come in.  Whatever a peer's bytes decode to, for all five
    message types: every path and name of a request or an event is valid, every file
    handle is at most [HANDLE_MAX] bytes, a resume token is 16 bytes and a refusal's
    reason is UTF-8. *)
Theorem decoded_messages_are_valid {CE} words :
  (∀ root r, Request_parse (CE:=CE) words root = Ok r → request_wf r)
  ∧ (∀ root r, Response_parse (CE:=CE) words root = Ok r → response_wf r)
  ∧ (∀ root e, Event_parse (CE:=CE) words root = Ok e → event_wf e)
  ∧ (∀ root h, Hello_parse (CE:=CE) words root = Ok h → hello_wf h)
  ∧ (∀ root h, HelloReply_parse (CE:=CE) words root = Ok h → hello_reply_wf h).
Proof.
  repeat split_and; intros ??;
    [apply Request_parse_wf|apply Response_parse_wf|apply Event_parse_wf
    |apply Hello_parse_wf|apply HelloReply_parse_wf].
Qed.

(** C29: the conversions round-trip.  A valid message of any of the five types, built
    into the schema and parsed back, is the same message, every optional field and
    every list included; a listing or an event needs only that the message has a word
    for each of its elements, which is the decoder's bound on what a list may declare. *)
Theorem messages_round_trip {CE} words :
  (∀ r, request_wf r → Request_parse (CE:=CE) words (Ok (Request_build r)) = Ok r)
  ∧ (∀ r, response_wf r →
       Response_parse (CE:=CE) words (Ok (Response_build r))
       = match r with
         | Resp_Readdir es _ =>
             if words <? len_z es then Err (ED_Invalid (Inv_List (len_z es) words)) else Ok r
         | _ => Ok r
         end)
  ∧ (∀ e, event_wf e →
       Event_parse (CE:=CE) words (Ok (Event_build e))
       = if words <? len_z (ev_items e)
         then Err (ED_Invalid (Inv_List (len_z (ev_items e)) words)) else Ok e)
  ∧ (∀ h, hello_wf h → Hello_parse (CE:=CE) words (Ok (Hello_build h)) = Ok h)
  ∧ (∀ h, hello_reply_wf h → HelloReply_parse (CE:=CE) words (Ok (HelloReply_build h)) = Ok h).
Proof.
  repeat split_and.
  - intros r. apply Request_parse_build.
  - intros r Hr. destruct r as [| | | | | | | | | |es end_| |];
      try (by apply (Response_parse_build (Z.max 0 words) _ Hr); simpl; lia).
    destruct (Z.ltb_spec words (len_z es)).
    + unfold Response_parse, Response_build. cbn -[checked_len len_z fmap mapM parse_dir_entry build_dir_entry].
      unfold checked_len, len_z in *. rewrite length_fmap.
      by rewrite (proj2 (Z.ltb_lt _ _)).
    + by apply Response_parse_build.
  - intros e He. destruct (Z.ltb_spec words (len_z (ev_items e))).
    + unfold Event_parse, Event_build. cbn -[checked_len len_z fmap mapM].
      unfold checked_len, len_z in *. rewrite length_fmap.
      by rewrite (proj2 (Z.ltb_lt _ _)).
    + by apply Event_parse_build.
  - intros h. apply Hello_parse_build.
  - intros h. apply HelloReply_parse_build.
Qed.

Definition demo_request : Request := Req_Lookup demo_path (MkName [Byte.x62]).

Lemma demo_request_wf : request_wf demo_request.
Proof.
  split; repeat apply Forall_cons_2; try apply Forall_nil_2; [exact demo_path_valid|].
  by apply (proj1 (Name_new_spec [Byte.x62] (MkName [Byte.x62]))).
Qed.

Lemma parse_path_exact_witness :
  parse_path (CE:=unit) [Ok [dot; dot; dot]; Ok [Byte.x61]] = Ok demo_path.
Proof.
  apply (parse_path_exact (CE:=unit) _ demo_path). split; [reflexivity|exact demo_path_valid].
Defined.

Lemma decoded_messages_are_valid_witness : request_wf demo_request.
Proof.
  apply (proj1 (decoded_messages_are_valid (CE:=unit) 100) (Ok (Request_build demo_request))).
  vm_compute. reflexivity.
Defined.

Lemma messages_round_trip_witness :
  Request_parse (CE:=unit) 100 (Ok (Request_build demo_request)) = Ok demo_request
  ∧ Event_parse (CE:=unit) 0 (Ok (Event_build (MkEvent [Ev_Overflow] None)))
    = Err (ED_Invalid (Inv_List 1 0)).
Proof.
  split.
  - apply (proj1 (messages_round_trip (CE:=unit) 100)). exact demo_request_wf.
  - apply (proj1 (proj2 (proj2 (messages_round_trip (CE:=unit) 0))) (MkEvent [Ev_Overflow] None)).
    repeat constructor.
Defined.
