(* ===== verification/Codec.v ===== *)
(** * Framing ([crates/proto/src/codec.rs])

    A frame is a [u32] little-endian length and one single-segment message.
    The serialization library is a parameter, the class [Capnp]; what the code
    relies on of it is the class [CapnpLaws].  A stream is the bytes that will
    arrive on it and how it ends. *)

From S2P Require Import Prelude Types Msg Wire.
From Stdlib Require Import Strings.Byte.

Definition MAX_FRAME : Z := 2 * 1024 * 1024.
Definition MAX_IO : Z := 1024 * 1024.
Definition READ_CHUNK : Z := 64 * 1024.
Definition TRAVERSAL_LIMIT_WORDS : Z := 4 * MAX_FRAME / 8.
Definition NESTING_LIMIT : Z := 16.

(** [std::io::Error], by its kind. *)
Inductive io_Error := UnexpectedEof | Io_Other (kind : Z).

Record ReaderOptions := MkReaderOptions {
  traversal_limit_in_words : option Z; nesting_limit : Z }.
Definition reader_options : ReaderOptions :=
  MkReaderOptions (Some TRAVERSAL_LIMIT_WORDS) NESTING_LIMIT.

(** The deepest message of the schema: Response, List(DirEntry), DirEntry, Attr,
    List(Data), Data. *)
Definition DEEPEST : Z := 6.

(** The single-segment message format: the segment count less one and the
    segment's words, then the segment. *)
Definition flat (segment : list byte) : list byte :=
  le_bytes 4 0 ++ le_bytes 4 (len_z segment / 8) ++ segment.

(** A byte stream: what will arrive, and the error it ends with, if not cleanly. *)
Record Stream := MkStream { arriving : list byte; ends : option io_Error }.

Section codec.
Context {CE : Type}.

Inductive ErrorCodec :=
| EC_Io (e : io_Error)
| EC_TooLarge (len : Z)
| EC_Encode (e : CE)
| EC_Decode (e : ErrorDecode CE).

Definition is_eof (e : ErrorCodec) : bool :=
  match e with EC_Io UnexpectedEof => true | _ => false end.

(** The serialization library, for messages whose root reader is [R]. *)
Class Capnp (R : Type) := {
  Builder : Type;
  (** a builder with that first segment, filled through the root's setters *)
  builder_new : Z → R → Builder;
  get_segments_for_output : Builder → list (list byte);
  canonicalize : Builder → result CE (list byte);
  compute_serialized_size_in_words : Builder → Z;
  write_message : Builder → result CE (list byte);
  Reader : Type;
  (** the message at the front of a slice, and what is left of the slice *)
  read_message_from_flat_slice : list byte → ReaderOptions → result CE (Reader * list byte);
  get_root : Reader → ptr CE R;
  size_in_words : Reader → Z }.

(** A segment that holds the message [r]: what a builder put out whole, or the
    canonical form of what it put out in pieces. *)
Definition holds {R} `{Capnp R} (r : R) (segment : list byte) : Prop :=
  ∃ hint, get_segments_for_output (builder_new hint r) = [segment]
          ∨ canonicalize (builder_new hint r) = Ok segment.

(** What the code relies on of the library, as its documentation has it. *)
Class CapnpLaws (T R : Type) `{Message CE T R, !MessageLaws CE T R, !Capnp R} : Prop := {
  one_segment_at_least hint (r : R) : get_segments_for_output (builder_new hint r) ≠ [];
  segment_words (r : R) segment : holds r segment → len_z segment mod 8 = 0;
  written hint (r : R) segment :
    get_segments_for_output (builder_new hint r) = [segment] →
    compute_serialized_size_in_words (builder_new hint r) = 1 + len_z segment / 8
    ∧ write_message (builder_new hint r) = Ok (flat segment);
  (** within the limits a reader has what was built, and nothing after it *)
  reads_back (m : T) segment rest options limit :
    holds (build m) segment → len_z segment / 8 < 2 ^ 32 →
    traversal_limit_in_words options = Some limit →
    4 * (len_z segment / 8) ≤ limit → DEEPEST ≤ nesting_limit options →
    ∃ reader, read_message_from_flat_slice (flat segment ++ rest) options = Ok (reader, rest)
              ∧ get_root reader = Ok (build m)
              ∧ size_in_words reader = len_z segment / 8;
  (** every struct of a list takes a word at least *)
  list_words (m : T) segment : holds (build m) segment → elements m ≤ len_z segment / 8 }.

Section message.
Context {T R : Type} `{HM : Message CE T R, HC : !Capnp R}.

Definition frame_one_segment (segment : list byte) : result ErrorCodec (list byte) :=
  let len := 8 + len_z segment in
  if MAX_FRAME <? len then Err (EC_TooLarge len)
  else Ok (le_bytes 4 (as_u32 len) ++ le_bytes 4 0
           ++ le_bytes 4 (as_u32 (len_z segment / 8)) ++ segment).

Definition encode (msg : T) : result ErrorCodec (list byte) :=
  let builder := builder_new (size_hint msg) (build msg) in
  if (1 <? length (get_segments_for_output builder))%nat then
    canonical ← map_err EC_Encode (canonicalize builder);
    frame_one_segment canonical
  else
    let words := compute_serialized_size_in_words builder in
    let len := words * 8 in
    if MAX_FRAME <? len then Err (EC_TooLarge len)
    else
      message ← map_err EC_Encode (write_message builder);
      Ok (le_bytes 4 (as_u32 len) ++ message).

Definition decode (body : list byte) : result ErrorCodec T :=
  if len_z body <? 8 then Err (EC_Decode (ED_Frame (Fr_Short (len_z body))))
  else
    let segments := of_le_bytes (take 4 body) + 1 in
    if negb (segments =? 1) then Err (EC_Decode (ED_Frame (Fr_Segments segments)))
    else
      '(reader, slice) ← map_err (λ e, EC_Decode (ED_Capnp e))
                            (read_message_from_flat_slice body reader_options);
      match slice with
      | [] => map_err EC_Decode (parse (size_in_words reader) (get_root reader))
      | _ => Err (EC_Decode (ED_Frame (Fr_Trailing (len_z slice))))
      end.

(** What [write_all] leaves on the stream. *)
Definition write_frame (written : list byte) (msg : T) : result ErrorCodec (list byte) :=
  frame ← encode msg; Ok (written ++ frame).

(** [AsyncReadExt::read_exact]. *)
Definition read_exact (n : Z) (s : Stream) : result ErrorCodec (list byte * Stream) :=
  if n <=? len_z (arriving s)
  then Ok (take (Z.to_nat n) (arriving s), MkStream (drop (Z.to_nat n) (arriving s)) (ends s))
  else Err (EC_Io (match ends s with None => UnexpectedEof | Some e => e end)).

(** The loop that fills the body; [peak] is the largest the buffer has been.
    [None] is more turns than [fuel]. *)
Fixpoint fill (fuel : nat) (len : Z) (body : list byte) (peak : Z) (s : Stream)
    : option (result ErrorCodec (list byte * Stream) * Z) :=
  if len_z body <? len then
    match fuel with
    | O => None
    | S fuel =>
        let start := len_z body in
        let n := Z.min (len - start) READ_CHUNK in
        let peak := Z.max peak (start + n) in
        match read_exact n s with
        | Err e => Some (Err e, peak)
        | Ok (chunk, s) => fill fuel len (body ++ chunk) peak s
        end
    end
  else Some (Ok (body, s), peak).

(** Turns of the loop for a body of [len] bytes. *)
Definition turns (len : Z) : nat := Z.to_nat ((len + READ_CHUNK - 1) / READ_CHUNK).

(** The frame's body and what it decodes to; with it, the stream after the frame
    and the most memory the body took while it arrived. *)
Definition read_frame_body (s : Stream)
    : option (result ErrorCodec (list byte * result ErrorCodec T * Stream) * Z) :=
  match read_exact 4 s with
  | Err e => Some (Err e, 0)
  | Ok (len_bytes, s) =>
      let len := of_le_bytes len_bytes in
      if MAX_FRAME <? len then Some (Err (EC_TooLarge len), 0)
      else match fill (turns len) len [] (Z.min len READ_CHUNK) s with
           | None => None
           | Some (Err e, peak) => Some (Err e, peak)
           | Some (Ok (body, s), peak) => Some (Ok (body, decode body, s), peak)
           end
  end.

(** [read_frame(reader)]: the message, and the stream after it. *)
Definition read_frame (s : Stream) : option (result ErrorCodec (T * Stream)) :=
  match read_frame_body s with
  | None => None
  | Some (Err e, _) => Some (Err e)
  | Some (Ok (_, Err e, _), _) => Some (Err e)
  | Some (Ok (_, Ok m, s), _) => Some (Ok (m, s))
  end.

End message.
End codec.

#[global] Arguments ErrorCodec CE : clear implicits.
#[global] Arguments Capnp CE R : clear implicits.
#[global] Arguments CapnpLaws CE T R {_ _ _}.

(** ** Lemmas *)

Section lemmas.
Context {CE : Type}.

Lemma length_len_z {A} (l : list A) : 0 ≤ len_z l.
Proof. unfold len_z. lia. Qed.

Lemma len_z_app {A} (l k : list A) : len_z (l ++ k) = len_z l + len_z k.
Proof. unfold len_z. rewrite length_app. lia. Qed.

Lemma len_z_take {A} n (l : list A) : 0 ≤ n ≤ len_z l → len_z (take (Z.to_nat n) l) = n.
Proof. unfold len_z. intros H. rewrite length_take. lia. Qed.

Lemma len_z_drop {A} n (l : list A) : 0 ≤ n ≤ len_z l → len_z (drop (Z.to_nat n) l) = len_z l - n.
Proof. unfold len_z. intros H. rewrite length_drop. lia. Qed.

Lemma len_z_le n z : len_z (le_bytes n z) = Z.of_nat n.
Proof. unfold len_z. by rewrite length_le_bytes. Qed.

Lemma le4_round z : 0 ≤ z < 2 ^ 32 → of_le_bytes (le_bytes 4 (as_u32 z)) = z.
Proof. intros Hz. unfold as_u32. rewrite Z.mod_small by lia. apply of_le_bytes_le. lia. Qed.

Lemma as_u32_id z : 0 ≤ z < 2 ^ 32 → as_u32 z = z.
Proof. apply Z.mod_small. Qed.

(** Reading in two steps is reading once. *)
Lemma read_exact_split n k (s : Stream) :
  0 ≤ n → 0 ≤ k →
  (match read_exact (CE:=CE) n s with
   | Err e => Err e
   | Ok (a, s') => match read_exact k s' with
                   | Err e => Err e
                   | Ok (b, s'') => Ok (a ++ b, s'')
                   end
   end) = read_exact (n + k) s.
Proof.
  intros Hn Hk. unfold read_exact. pose proof (length_len_z (arriving s)).
  destruct (Z.leb_spec n (len_z (arriving s))) as [Hl|Hl].
  - cbn [arriving ends]. rewrite len_z_drop by lia.
    destruct (Z.leb_spec k (len_z (arriving s) - n)),
             (Z.leb_spec (n + k) (len_z (arriving s))); try lia; [|done].
    by rewrite drop_drop, Z2Nat.inj_add, take_take_drop by lia.
  - destruct (Z.leb_spec (n + k) (len_z (arriving s))); [lia|done].
Qed.

(** The loop reads the body as one [read_exact] would, in [turns] turns, and its
    buffer is never more than a chunk ahead of what has arrived. *)
Lemma fill_spec fuel len body peak (s : Stream) :
  len_z body ≤ len → len - len_z body ≤ Z.of_nat fuel * READ_CHUNK →
  ∃ p, fill (CE:=CE) fuel len body peak s
       = Some (match read_exact (len - len_z body) s with
               | Err e => Err e
               | Ok (rest, s) => Ok (body ++ rest, s)
               end, p)
       ∧ p ≤ Z.max peak (Z.min len (len_z body + len_z (arriving s) + READ_CHUNK)).
Proof.
  revert body peak s. induction fuel as [|fuel IH]; intros body peak s Hb Hf.
  - assert (len - len_z body = 0) as Hz by lia. cbn [fill].
    replace (len_z body <? len) with false by (symmetry; apply Z.ltb_ge; lia).
    rewrite Hz. unfold read_exact. pose proof (length_len_z (arriving s)).
    replace (0 <=? _) with true by (symmetry; apply Z.leb_le; lia). cbn. rewrite drop_0, app_nil_r.
    destruct s; cbn. eexists; split; [done|lia].
  - cbn [fill]. destruct (Z.ltb_spec (len_z body) len) as [Hlt|Hge].
    2:{ assert (len - len_z body = 0) as -> by lia. unfold read_exact.
        pose proof (length_len_z (arriving s)).
        replace (0 <=? _) with true by (symmetry; apply Z.leb_le; lia). cbn. rewrite drop_0, app_nil_r.
        destruct s; cbn. eexists; split; [done|lia]. }
    set (n := Z.min (len - len_z body) READ_CHUNK).
    assert (0 < READ_CHUNK) by (unfold READ_CHUNK; lia). pose proof (length_len_z (arriving s)).
    assert (read_exact (CE:=CE) (len - len_z body) s
            = read_exact (n + (len - len_z body - n)) s) as -> by (f_equal; lia).
    rewrite <- read_exact_split by lia.
    unfold read_exact at 1 2. destruct (Z.leb_spec n (len_z (arriving s))) as [Hl|Hl].
    2:{ eexists; split; [done|]. lia. }
    set (a := take _ _). set (s' := MkStream _ _).
    assert (len_z a = n) as Ha by (apply len_z_take; lia).
    destruct (IH (body ++ a) (Z.max peak (len_z body + n)) s') as (p & Hp & Hpk).
    { rewrite len_z_app. lia. }
    { rewrite len_z_app. lia. }
    exists p. rewrite Hp. rewrite len_z_app, Ha.
    replace (len - (len_z body + n)) with (len - len_z body - n) by lia. split.
    + f_equal. f_equal. destruct (read_exact (CE:=CE) (len - len_z body - n) s') as [[rest s'']|]; [by rewrite app_assoc|done].
    + rewrite len_z_app, Ha in Hpk. unfold s' in Hpk. cbn [arriving] in Hpk.
      rewrite len_z_drop in Hpk by lia. lia.
Qed.

Lemma turns_enough len : 0 ≤ len → len ≤ Z.of_nat (turns len) * READ_CHUNK.
Proof.
  intros Hl. unfold turns. assert (0 < READ_CHUNK) by (unfold READ_CHUNK; lia).
  pose proof (Z.div_mod (len + READ_CHUNK - 1) READ_CHUNK).
  pose proof (Z.mod_pos_bound (len + READ_CHUNK - 1) READ_CHUNK).
  rewrite Z2Nat.id by (apply Z.div_pos; lia). lia.
Qed.

(** The whole read against its reference: the length, then the body at once. *)
Lemma read_frame_body_spec {T R} `{HM : Message CE T R, HC : !Capnp CE R} (s : Stream) :
  ∃ p, read_frame_body (T:=T) s
       = Some (match read_exact 4 s with
               | Err e => Err e
               | Ok (len_bytes, s) =>
                   let len := of_le_bytes len_bytes in
                   if MAX_FRAME <? len then Err (EC_TooLarge len)
                   else match read_exact len s with
                        | Err e => Err e
                        | Ok (body, s) => Ok (body, decode body, s)
                        end
               end, p)
       ∧ p ≤ Z.min MAX_FRAME (len_z (arriving s) + READ_CHUNK).
Proof.
  pose proof (length_len_z (arriving s)).
  unfold read_frame_body. unfold read_exact at 1 2.
  destruct (Z.leb_spec 4 (len_z (arriving s))) as [H4|H4].
  2:{ eexists; split; [done|]. unfold MAX_FRAME, READ_CHUNK. lia. }
  cbn zeta. set (lb := take _ _). set (s' := MkStream _ _).
  pose proof (of_le_bytes_range lb) as [Hlb _].
  destruct (Z.ltb_spec MAX_FRAME (of_le_bytes lb)) as [Hm|Hm].
  { eexists; split; [done|]. unfold MAX_FRAME, READ_CHUNK. lia. }
  destruct (fill_spec (turns (of_le_bytes lb)) (of_le_bytes lb) []
              (Z.min (of_le_bytes lb) READ_CHUNK) s') as (p & Hp & Hpk).
  { done. }
  { cbn. rewrite Z.sub_0_r. by apply turns_enough. }
  rewrite Hp. change (len_z []) with 0 in *. rewrite Z.sub_0_r.
  unfold s' in Hpk. cbn [arriving] in Hpk. rewrite len_z_drop in Hpk by lia.
  exists p. split; [|lia]. by destruct (read_exact (of_le_bytes lb) s') as [[]|].
Qed.

End lemmas.

Section frames.
Context {CE T R : Type} `{HM : Message CE T R, HL : !MessageLaws CE T R, HC : !Capnp CE R}.
Context `{HCL : !CapnpLaws CE T R}.

Lemma len_z_flat segment : len_z (flat segment) = 8 + len_z segment.
Proof. unfold flat. rewrite !len_z_app, !len_z_le. lia. Qed.

(** A frame is the length and one segment that holds the message. *)
Lemma encode_frame (m : T) frame :
  encode m = Ok frame →
  ∃ segment, holds (build m) segment ∧ 8 + len_z segment ≤ MAX_FRAME
             ∧ frame = le_bytes 4 (as_u32 (8 + len_z segment)) ++ flat segment.
Proof.
  unfold encode. set (b := builder_new (size_hint m) (build m)).
  destruct (Nat.ltb_spec 1 (length (get_segments_for_output b))) as [Hs|Hs].
  - intros H. binds. apply map_err_Ok in H0.
    assert (holds (build m) x) as Hh by (eexists; right; exact H0).
    unfold frame_one_segment in H.
    destruct (Z.ltb_spec MAX_FRAME (8 + len_z x)) as [Hm|Hm]; [done|]. injection H as <-.
    exists x. split; [done|]. split; [done|]. unfold flat.
    pose proof (length_len_z x). unfold MAX_FRAME in Hm.
    by rewrite (as_u32_id (len_z x / 8)) by
      (split; [apply Z.div_pos; lia|apply Z.div_lt_upper_bound; lia]).
  - pose proof (one_segment_at_least (CE:=CE) (T:=T) (size_hint m) (build m)) as Hne. fold b in Hne.
    destruct (get_segments_for_output b) as [|seg [|]] eqn:Hseg; [done| |cbn in Hs; lia].
    destruct (written (CE:=CE) (T:=T) (size_hint m) (build m) seg Hseg) as [Hw Hm]. fold b in Hw, Hm.
    assert (holds (build m) seg) as Hh by (eexists; left; exact Hseg).
    pose proof (segment_words (CE:=CE) (T:=T) (build m) seg Hh) as H8.
    pose proof (Z.div_mod (len_z seg) 8).
    assert ((1 + len_z seg / 8) * 8 = 8 + len_z seg) as He by lia.
    rewrite Hw, Hm, He. destruct (Z.ltb_spec MAX_FRAME (8 + len_z seg)); [done|].
    intros H1. cbn in H1. injection H1 as <-. eauto.
Qed.

Lemma take_4_flat segment : take 4 (flat segment) = le_bytes 4 0.
Proof. unfold flat. by rewrite take_app_length' by (by rewrite length_le_bytes). Qed.

Lemma decode_flat (m : T) segment :
  wf m → holds (build m) segment → 8 + len_z segment ≤ MAX_FRAME →
  decode (flat segment) = Ok m.
Proof.
  intros Hwf Hh Hm. unfold decode. rewrite len_z_flat. pose proof (length_len_z segment).
  destruct (Z.ltb_spec (8 + len_z segment) 8); [lia|].
  rewrite take_4_flat, of_le_bytes_le by lia. cbn [negb Z.add Z.eqb Pos.eqb].
  destruct (reads_back (CE:=CE) m segment [] reader_options TRAVERSAL_LIMIT_WORDS Hh)
    as (reader & Hr & Hroot & Hsz); [|done| |cbn; unfold DEEPEST, NESTING_LIMIT; lia|].
  { unfold MAX_FRAME in Hm. apply Z.div_lt_upper_bound; lia. }
  { unfold TRAVERSAL_LIMIT_WORDS, MAX_FRAME in *.
    pose proof (Z.div_mod (len_z segment) 8). pose proof (Z.mod_pos_bound (len_z segment) 8).
    change (4 * (2 * 1024 * 1024) / 8) with 1048576. lia. }
  rewrite app_nil_r in Hr. rewrite Hr. cbn. rewrite Hroot, Hsz.
  rewrite parse_build; [done|done|]. by eapply list_words.
Qed.

(** What is on the stream after the length is what [len] says. *)
Lemma read_frame_at len body rest e :
  0 ≤ len ≤ MAX_FRAME → len_z body = len →
  read_frame (T:=T) (MkStream (le_bytes 4 (as_u32 len) ++ body ++ rest) e)
  = Some match decode body with Err er => Err er | Ok m => Ok (m, MkStream rest e) end.
Proof.
  intros Hl Hb. unfold read_frame.
  destruct (read_frame_body_spec (T:=T) (MkStream (le_bytes 4 (as_u32 len) ++ body ++ rest) e))
    as (p & -> & _).
  unfold read_exact at 1. cbn [arriving ends]. rewrite !len_z_app, len_z_le.
  pose proof (length_len_z rest). destruct (Z.leb_spec 4 (Z.of_nat 4 + (len_z body + len_z rest))); [|lia].
  change (Z.to_nat 4) with 4%nat. cbn zeta.
  rewrite take_app_length', drop_app_length' by (by rewrite length_le_bytes).
  unfold MAX_FRAME in *. rewrite le4_round by lia.
  destruct (Z.ltb_spec (2 * 1024 * 1024) len); [lia|].
  unfold read_exact. cbn [arriving ends]. rewrite len_z_app.
  destruct (Z.leb_spec len (len_z body + len_z rest)); [|lia].
  unfold len_z in Hb. rewrite take_app_length', drop_app_length' by lia.
  by destruct (decode body).
Qed.

(** The frame of a valid message reads back, and the stream is left at what follows. *)
Lemma read_encoded (m : T) frame rest e :
  wf m → encode m = Ok frame → read_frame (MkStream (frame ++ rest) e) = Some (Ok (m, MkStream rest e)).
Proof.
  intros Hwf Henc. destruct (encode_frame m frame Henc) as (seg & Hh & Hm & ->).
  rewrite <- app_assoc. pose proof (length_len_z seg).
  rewrite read_frame_at by (rewrite ?len_z_flat; lia). by rewrite (decode_flat m seg).
Qed.

End frames.

(** ** Properties *)

(** C27: a frame reads back.  Whatever follows it on the stream, reading a frame that
    [encode] made of a valid message gives that message and leaves the stream exactly
    at what follows; the frame is within [MAX_FRAME] and its length prefix.  This holds
    of the one-segment encoding and of the canonical one alike, for every type of
    message, given the serialization library's documented behaviour. *)
Theorem frame_reads_back {CE T R} `{HM : Message CE T R, HL : !MessageLaws CE T R, HC : !Capnp CE R}
    (HCL : CapnpLaws CE T R) (m : T) frame rest e :
  wf m → encode m = Ok frame →
  read_frame (MkStream (frame ++ rest) e) = Some (Ok (m, MkStream rest e))
  ∧ len_z frame ≤ 4 + MAX_FRAME.
Proof.
  intros Hwf Henc. split; [by apply read_encoded|].
  destruct (encode_frame m frame Henc) as (seg & Hh & Hm & ->).
  rewrite len_z_app, len_z_le, len_z_flat. lia.
Qed.

(** A request cut off never reads as another one.  When the sender stops anywhere
    inside a frame, its length prefix included, the reader reports the end of the
    stream ([is_eof]): never a message, and never another error. *)
Theorem cut_frame_is_eof {CE T R} `{HM : Message CE T R, HL : !MessageLaws CE T R, HC : !Capnp CE R}
    (HCL : CapnpLaws CE T R) (m : T) frame n :
  encode m = Ok frame → (n < length frame)%nat →
  ∃ e, read_frame (T:=T) (MkStream (take n frame) None) = Some (Err e) ∧ is_eof e = true.
Proof.
  intros Henc Hn. destruct (encode_frame m frame Henc) as (seg & Hh & Hm & ->).
  exists (EC_Io UnexpectedEof). split; [|done]. unfold read_frame.
  destruct (read_frame_body_spec (T:=T) (MkStream (take n (le_bytes 4 (as_u32 (8 + len_z seg)) ++ flat seg)) None))
    as (p & -> & _).
  pose proof (length_len_z seg) as Hseg.
  rewrite length_app, length_le_bytes in Hn.
  pose proof (len_z_flat seg) as Hlf. unfold len_z in Hlf at 1.
  assert (∀ k : list byte, len_z (take n k) = Z.min (Z.of_nat n) (len_z k)) as Htake.
  { intros k. unfold len_z. rewrite length_take. lia. }
  unfold read_exact at 1. cbn [arriving ends]. rewrite Htake, len_z_app, len_z_le, len_z_flat.
  destruct (Z.leb_spec 4 (Z.min (Z.of_nat n) (Z.of_nat 4 + (8 + len_z seg)))) as [H4|H4]; [|done].
  change (Z.to_nat 4) with 4%nat. cbn zeta. rewrite take_take, (Nat.min_l 4 n) by lia.
  rewrite take_app_length' by (by rewrite length_le_bytes).
  unfold MAX_FRAME in *. rewrite le4_round by lia.
  destruct (Z.ltb_spec (2 * 1024 * 1024) (8 + len_z seg)); [lia|].
  unfold read_exact. cbn [arriving ends].
  destruct (Z.leb_spec (8 + len_z seg)
    (len_z (drop 4 (take n (le_bytes 4 (as_u32 (8 + len_z seg)) ++ flat seg))))) as [H8|H8]; [|done].
  unfold len_z in H8. rewrite length_drop, length_take, length_app, length_le_bytes in H8.
  unfold len_z in *. lia.
Qed.

(** Reading a frame always ends, and memory follows what arrives.  For every
    stream the read returns within [turns] turns of its loop: the result is that of
    one exact read of the declared length, an oversize length is refused before
    anything is reserved for it, and the buffer is never longer than [MAX_FRAME] nor
    more than one chunk beyond the bytes that arrived, whatever length was declared. *)
Theorem read_frame_returns {CE T R} `{HM : Message CE T R, HC : !Capnp CE R} (s : Stream) :
  ∃ r peak,
    read_frame_body (T:=T) s = Some (r, peak)
    ∧ peak ≤ Z.min MAX_FRAME (len_z (arriving s) + READ_CHUNK)
    ∧ r = match read_exact 4 s with
          | Err e => Err e
          | Ok (len_bytes, s) =>
              let len := of_le_bytes len_bytes in
              if MAX_FRAME <? len then Err (EC_TooLarge len)
              else match read_exact len s with
                   | Err e => Err e
                   | Ok (body, s) => Ok (body, decode body, s)
                   end
          end.
Proof. destruct (read_frame_body_spec (T:=T) s) as (p & H & Hp). eauto. Qed.

(** Only a well-formed frame with a valid message decodes.  A body decodes to a
    message exactly when it has its segment table, names exactly one segment, the
    library's reader takes all of it and the parser accepts the root; the message is
    then valid.  Every other body is refused as a decoding error. *)
Theorem decode_strict {CE T R} `{HM : Message CE T R, HL : !MessageLaws CE T R, HC : !Capnp CE R}
    (body : list byte) :
  (∀ m, decode (T:=T) body = Ok m ↔
     8 ≤ len_z body ∧ take 4 body = le_bytes 4 0
     ∧ ∃ reader, read_message_from_flat_slice body reader_options = Ok (reader, [])
                 ∧ parse (size_in_words reader) (get_root reader) = Ok m ∧ wf m)
  ∧ (∀ e, decode (T:=T) body = Err e → ∃ d, e = EC_Decode d).
Proof.
  unfold decode. destruct (Z.ltb_spec (len_z body) 8) as [H8|H8].
  { split; [|naive_solver]. intros m. split; [done|]. intros [? _]. lia. }
  assert (length (take 4 body) = 4%nat) as H4 by (rewrite length_take; unfold len_z in H8; lia).
  destruct (Z.eqb_spec (of_le_bytes (take 4 body) + 1) 1) as [Hs|Hs]; cbn [negb].
  2:{ split; [|naive_solver]. intros m. split; [done|]. intros (_ & Ht & _).
      rewrite Ht in Hs. by vm_compute in Hs. }
  assert (take 4 body = le_bytes 4 0) as Ht.
  { rewrite <- (le_bytes_of_le (take 4 body)), H4. f_equal. lia. }
  destruct (read_message_from_flat_slice body reader_options) as [[reader slice]|e] eqn:Hr;
    cbn; [|naive_solver].
  destruct slice as [|b slice]; [|naive_solver].
  destruct (parse (size_in_words reader) (get_root reader)) as [m|e] eqn:Hp; cbn.
  2:{ split; [|intros ? [= <-]; eauto]. intros m. split; [done|].
      intros (_ & _ & rd & [= <-] & Hm & _). congruence. }
  pose proof (parse_wf _ _ _ Hp). split; [|done]. intros m'. split; [naive_solver|].
  intros (_ & _ & rd & [= <-] & Hm & _). congruence.
Qed.

(** ** A library that keeps the laws

    The laws can hold: a reader of any countable type is written as one number. *)

Module Numbered.
Section numbered.
Context {R : Type} `{Countable R}.

Definition number (r : R) : Z := Zpos (countable.encode r).
Definition segment_of (r : R) : list byte :=
  le_bytes (8 * (Z.to_nat (Z.log2 (number r) / 64) + 1)) (number r).
Definition root_of (segment : list byte) : ptr unit R :=
  ok_or (countable.decode (Z.to_pos (of_le_bytes segment))) ().
Definition read_flat (body : list byte) (options : ReaderOptions)
    : result unit (list byte * list byte) :=
  let words := of_le_bytes (take 4 (drop 4 body)) in
  let rest := drop 8 body in
  if len_z rest <? 8 * words then Err ()
  else Ok (take (Z.to_nat (8 * words)) rest, drop (Z.to_nat (8 * words)) rest).

#[export] Instance capnp : Capnp unit R := {|
  Builder := R;
  builder_new := λ _ r, r;
  get_segments_for_output := λ r, [segment_of r];
  canonicalize := λ r, Ok (segment_of r);
  compute_serialized_size_in_words := λ r, 1 + len_z (segment_of r) / 8;
  write_message := λ r, Ok (flat (segment_of r));
  Reader := list byte;
  read_message_from_flat_slice := read_flat;
  get_root := root_of;
  size_in_words := λ segment, len_z segment / 8 |}.

Lemma root_of_segment r : root_of (segment_of r) = Ok r.
Proof.
  unfold root_of, segment_of. rewrite of_le_bytes_le.
  - unfold number. cbn [Z.to_pos]. by rewrite decode_encode.
  - assert (0 < number r) as Hp by (unfold number; lia). split; [lia|].
    destruct (Z.log2_spec (number r) Hp) as [_ Hl].
    eapply Z.lt_le_trans; [exact Hl|]. change 256 with (2 ^ 8). rewrite <- Z.pow_mul_r by lia.
    apply Z.pow_le_mono_r; [lia|].
    pose proof (Z.log2_nonneg (number r)). pose proof (Z.div_mod (Z.log2 (number r)) 64).
    pose proof (Z.mod_pos_bound (Z.log2 (number r)) 64).
    pose proof (Z.div_pos (Z.log2 (number r)) 64). lia.
Qed.

Lemma segment_of_words r : len_z (segment_of r) mod 8 = 0.
Proof.
  unfold segment_of. rewrite len_z_le, Nat2Z.inj_mul, Z.mul_comm. apply Z.mod_mul. lia.
Qed.

Lemma holds_segment r segment : holds r segment → segment = segment_of r.
Proof. intros [hint [Hs|Hs]]; cbn in Hs; by simplify_eq. Qed.

Lemma read_flat_flat (segment : list byte) rest options :
  len_z segment mod 8 = 0 → len_z segment / 8 < 2 ^ 32 →
  read_flat (flat segment ++ rest) options = Ok (segment, rest).
Proof.
  intros Hm Hw.
  pose proof (length_len_z segment). pose proof (Z.div_mod (len_z segment) 8).
  pose proof (Z.div_pos (len_z segment) 8).
  assert (8 * (len_z segment / 8) = len_z segment) as He by lia.
  unfold read_flat, flat. rewrite <- !app_assoc.
  rewrite (drop_app_length' (le_bytes 4 0) _ 4) by (by rewrite length_le_bytes).
  rewrite take_app_length' by (by rewrite length_le_bytes).
  rewrite of_le_bytes_le by lia. rewrite He.
  assert (drop 8 (le_bytes 4 0 ++ le_bytes 4 (len_z segment / 8) ++ segment ++ rest)
          = segment ++ rest) as ->.
  { by rewrite app_assoc, drop_app_length' by (rewrite length_app, !length_le_bytes; done). }
  rewrite len_z_app. pose proof (length_len_z rest).
  destruct (Z.ltb_spec (len_z segment + len_z rest) (len_z segment)); [lia|].
  unfold len_z. rewrite Nat2Z.id. by rewrite take_app_length', drop_app_length' by done.
Qed.

#[export] Instance laws {T} `{HM : Message unit T R, HL : !MessageLaws unit T R}
    (Hel : ∀ m : T, elements m ≤ 0) : CapnpLaws unit T R.
Proof.
  split.
  - done.
  - intros r s ->%holds_segment. apply segment_of_words.
  - intros hint r s Hs. cbn in *. by simplify_eq.
  - intros m s rest options limit ->%holds_segment Hw _ _ _. exists (segment_of (build m)).
    split; [apply read_flat_flat; [apply segment_of_words|done]|]. split; [apply root_of_segment|done].
  - intros m s _. pose proof (length_len_z s). pose proof (Z.div_pos (len_z s) 8).
    specialize (Hel m). lia.
Qed.

End numbered.
End Numbered.

Definition hello_code (h : hello_R unit)
    : Z * (Z + (unit + (unit + data))) * (Z + (unit + (unit + Z * (unit + data)))) :=
  let p {A} (r : ptr unit A) : unit + A := match r with Ok a => inr a | Err e => inl e end in
  (w_revision h,
   match w_auth h with
   | Err n => inl n | Ok W_Anonymous => inr (inl ()) | Ok (W_Token t) => inr (inr (p t))
   end,
   match w_resume h with
   | Err n => inl n | Ok W_None => inr (inl ())
   | Ok (W_Some r) => inr (inr (match r with
                                | Err e => inl e
                                | Ok r => inr (w_session_id r, p (w_rtoken r))
                                end))
   end).
Definition hello_uncode
    (c : Z * (Z + (unit + (unit + data))) * (Z + (unit + (unit + Z * (unit + data)))))
    : hello_R unit :=
  let q {A} (s : unit + A) : ptr unit A := match s with inr a => Ok a | inl e => Err e end in
  {| w_revision := c.1.1;
     w_auth := match c.1.2 with
               | inl n => Err n | inr (inl _) => Ok W_Anonymous | inr (inr t) => Ok (W_Token (q t))
               end;
     w_resume := match c.2 with
                 | inl n => Err n | inr (inl _) => Ok W_None
                 | inr (inr r) => Ok (W_Some (match r with
                                              | inl e => Err e
                                              | inr r => Ok (MkResume_R r.1 (q r.2))
                                              end))
                 end |}.

#[export] Instance hello_R_eq_dec : EqDecision (hello_R unit).
Proof.
  assert (∀ A `{EqDecision A}, EqDecision (opt_W A)) by (intros; solve_decision).
  assert (EqDecision (resume_R unit)) by solve_decision.
  assert (EqDecision (auth_W unit)) by solve_decision.
  solve_decision.
Defined.
#[export] Program Instance hello_R_countable : Countable (hello_R unit) :=
  inj_countable' hello_code hello_uncode _.
Next Obligation.
  intros [rev auth resume]. unfold hello_uncode, hello_code. cbn. f_equal.
  - destruct auth as [[|[]]|]; done.
  - destruct resume as [[|[[? []]|]]|]; done.
Qed.

Definition demo_hello : Hello := MkHello 7 (Token [Byte.x41]) None.
Definition demo_frame : list byte :=
  Eval vm_compute in
  match encode (CE:=unit) (R:=hello_R unit) (HC:=Numbered.capnp) demo_hello with Ok f => f | Err _ => [] end.

Lemma frame_reads_back_witness :
  read_frame (CE:=unit) (R:=hello_R unit) (HC:=Numbered.capnp) (MkStream (demo_frame ++ [Byte.x01]) None)
  = Some (Ok (demo_hello, MkStream [Byte.x01] None)).
Proof.
  refine (proj1 (frame_reads_back (CE:=unit) (R:=hello_R unit) (HC:=Numbered.capnp) 
            (Numbered.laws (λ m, Z.le_refl 0))
                   demo_hello demo_frame [Byte.x01] None _ _)).
  - intros r Hr. discriminate Hr.
  - vm_compute. reflexivity.
Defined.

Lemma cut_frame_is_eof_witness :
  ∃ e, read_frame (CE:=unit) (R:=hello_R unit) (HC:=Numbered.capnp) (T:=Hello) (MkStream (take 9 demo_frame) None) = Some (Err e)
       ∧ is_eof e = true.
Proof.
  refine (cut_frame_is_eof (CE:=unit) (R:=hello_R unit) (HC:=Numbered.capnp) 
            (Numbered.laws (λ m, Z.le_refl 0))
            demo_hello demo_frame 9 _ _).
  - vm_compute. reflexivity.
  - apply Nat.ltb_lt. vm_compute. reflexivity.
Defined.

Lemma decode_strict_witness :
  wf (CE:=unit) (R:=hello_R unit) demo_hello ∧ 8 ≤ len_z (drop 4 demo_frame).
Proof.
  destruct (proj1 (proj1 (decode_strict (CE:=unit) (R:=hello_R unit) (HC:=Numbered.capnp) (T:=Hello) (drop 4 demo_frame)) demo_hello))
    as (H8 & _ & reader & _ & _ & Hw).
  - vm_compute. reflexivity.
  - split; [exact Hw|exact H8].
Defined.

Lemma read_frame_returns_witness :
  ∃ r peak, read_frame_body (CE:=unit) (R:=hello_R unit) (HC:=Numbered.capnp) (T:=Hello) (MkStream demo_frame None) = Some (r, peak)
            ∧ peak ≤ MAX_FRAME.
Proof.
  destruct (read_frame_returns (CE:=unit) (R:=hello_R unit) (HC:=Numbered.capnp) (T:=Hello) (MkStream demo_frame None))
    as (r & p & H & Hp & _).
  exists r, p. split; [exact H|]. eapply Z.le_trans; [exact Hp|]. apply Z.le_min_l.
Defined.
