(* ===== verification/Revision.v ===== *)
(** * Protocol revisions and certificate fingerprints ([crates/proto/src/lib.rs])

    The revision is a hash of the schema's bytes; a fingerprint is a digest in
    hex, printed by the server and typed back to the client.  A [str] is the
    list of its UTF-8 bytes, and SHA-256 is a parameter. *)

From S2P Require Import Prelude Types Wire.
From Stdlib Require Import Strings.Byte.

Definition FNV_OFFSET : Z := 14695981039346656037.
Definition FNV_PRIME : Z := 1099511628211.

(** One turn of the loop, on the hash so far. *)
Definition fnv1a_step (hash : Z) (b : byte) : Z := wrap64 (Z.lxor hash (byte_z b) * FNV_PRIME).
Definition fnv1a (bytes : list byte) : Z := foldl fnv1a_step FNV_OFFSET bytes.

(** [code_reset]. *)
Definition RESET_STALLED : Z := 1.
Definition RESET_CANCELLED : Z := 2.
Definition RESET_SUPERSEDED : Z := 3.
Definition RESET_UNRUN : Z := 4.
Definition RESET_FENCED : Z := 5.

(** One digit, as [{:x}] writes it and as [char::to_digit(16)] reads it. *)
Definition hex_digit (d : Z) : byte := z_byte (if d <? 10 then 48 + d else 87 + d).
Definition to_digit16 (b : byte) : option Z :=
  let c := byte_z b in
  if (48 <=? c) && (c <=? 57) then Some (c - 48)
  else if (97 <=? c) && (c <=? 102) then Some (c - 87)
  else if (65 <=? c) && (c <=? 70) then Some (c - 55)
  else None.

(** [format!("{byte:02x}")]. *)
Definition hex_byte (b : byte) : list byte :=
  [hex_digit (byte_z b / 16); hex_digit (byte_z b mod 16)].

Definition plus : byte := Byte.x2b.
Definition colon : byte := Byte.x3a.
Definition sha256_prefix : list byte := String.list_byte_of_string "sha256:".

(** [u8::from_str_radix(pair, 16)] of one or two bytes: an optional plus sign, then
    digits; two digits never overflow. *)
Definition from_str_radix16 (pair : list byte) : option byte :=
  match pair with
  | [a] => z_byte <$> to_digit16 a
  | [a; b] =>
      if bool_decide (a = plus) then z_byte <$> to_digit16 b
      else match to_digit16 a, to_digit16 b with
           | Some x, Some y => Some (z_byte (16 * x + y))
           | _, _ => None
           end
  | _ => None
  end.

Inductive ErrorFingerprint := Fp_Prefix | Fp_Hex.

(** [str::strip_prefix]. *)
Fixpoint strip_prefix (prefix text : list byte) : option (list byte) :=
  match prefix, text with
  | [], _ => Some text
  | p :: ps, t :: ts => if bool_decide (p = t) then strip_prefix ps ts else None
  | _ :: _, [] => None
  end.

(** The loop over [chunks(2)]. *)
Fixpoint parse_pairs (hex : list byte) : result ErrorFingerprint (list byte) :=
  match hex with
  | [] => Ok []
  | a :: b :: rest =>
      if utf8_valid [a; b] then
        byte ← ok_or (from_str_radix16 [a; b]) Fp_Hex;
        out ← parse_pairs rest;
        Ok (byte :: out)
      else Err Fp_Hex
  | [a] =>
      if utf8_valid [a] then byte ← ok_or (from_str_radix16 [a]) Fp_Hex; Ok [byte]
      else Err Fp_Hex
  end.

Definition parse_fingerprint (text : list byte) : result ErrorFingerprint (list byte) :=
  hex ← ok_or (strip_prefix sha256_prefix text) Fp_Prefix;
  let hex := filter (λ c, c ≠ colon) hex in
  if negb (bool_decide (length hex = 64%nat)) then Err Fp_Hex
  else parse_pairs hex.

Section fingerprint.
Variable Sha256_digest : list byte → list byte.

Definition fingerprint_bytes (der : list byte) : list byte := Sha256_digest der.
Definition fingerprint (der : list byte) : list byte :=
  foldl (λ out b, out ++ hex_byte b) sha256_prefix (fingerprint_bytes der).
End fingerprint.

(** ** Lemmas *)

Definition hex_of (bs : list byte) : list byte := mjoin (hex_byte <$> bs).

(** ASCII lower case. *)
Definition lower (b : byte) : byte :=
  if in_range 65 90 b then z_byte (byte_z b + 32) else b.

Lemma foldl_hex bs acc : foldl (λ out b, out ++ hex_byte b) acc bs = acc ++ hex_of bs.
Proof.
  revert acc. induction bs as [|b bs IH]; intros acc; [by rewrite app_nil_r|].
  cbn [foldl]. rewrite IH, <- app_assoc. done.
Qed.

(** The facts about single bytes are checked on all of them. *)
Definition all_bytes (p : byte → bool) : bool :=
  forallb (λ n, p (z_byte (Z.of_nat n))) (seq 0 256).

Lemma all_bytes_spec p : all_bytes p = true → ∀ b, p b = true.
Proof.
  unfold all_bytes. rewrite forallb_forall. intros H b.
  pose proof (byte_z_range b). specialize (H (Z.to_nat (byte_z b))).
  rewrite Z2Nat.id, z_byte_z in H by lia. apply H. apply in_seq. lia.
Qed.

Definition digits_parse (b : byte) : bool :=
  match hex_byte b with
  | [x; y] =>
      bool_decide (to_digit16 x = Some (byte_z b / 16))
      && bool_decide (to_digit16 y = Some (byte_z b mod 16))
      && negb (bool_decide (x = plus)) && negb (bool_decide (x = colon))
      && negb (bool_decide (y = colon)) && in_range 0 127 x && in_range 0 127 y
  | _ => false
  end.
Lemma digits_parse_all b : digits_parse b = true.
Proof. apply (all_bytes_spec digits_parse). vm_compute. reflexivity. Qed.

(** Reading a digit does not depend on its case, and only ASCII letters change. *)
Definition lower_keeps (b : byte) : bool :=
  bool_decide (to_digit16 (lower b) = to_digit16 b)
  && Bool.eqb (bool_decide (lower b = plus)) (bool_decide (b = plus))
  && Bool.eqb (in_range 0 127 (lower b)) (in_range 0 127 b).
Lemma lower_keeps_all b : lower_keeps b = true.
Proof. apply (all_bytes_spec lower_keeps). vm_compute. reflexivity. Qed.

Lemma lower_ascii b : in_range 0 127 (lower b) = in_range 0 127 b.
Proof.
  pose proof (lower_keeps_all b) as H. unfold lower_keeps in H.
  apply andb_true_iff in H as [_ H]. by apply eqb_prop.
Qed.
Lemma lower_digit b : to_digit16 (lower b) = to_digit16 b.
Proof.
  pose proof (lower_keeps_all b) as H. unfold lower_keeps in H.
  apply andb_true_iff in H as [[H _]%andb_true_iff _]. by apply bool_decide_eq_true in H.
Qed.
Lemma lower_plus b : lower b = plus → b = plus.
Proof.
  pose proof (lower_keeps_all b) as H. unfold lower_keeps in H.
  apply andb_true_iff in H as [[_ H]%andb_true_iff _]. apply eqb_prop in H. intros Hp.
  rewrite bool_decide_eq_true_2 in H by done. by apply symmetry, bool_decide_eq_true in H.
Qed.

Definition hex_is_lower (b : byte) : bool := bool_decide (lower <$> hex_byte b = hex_byte b).
Lemma hex_is_lower_all b : hex_is_lower b = true.
Proof. apply (all_bytes_spec hex_is_lower). vm_compute. reflexivity. Qed.

(** A pair that is a byte's hex in either case parses to the byte. *)
Lemma parse_pair b x y :
  [lower x; lower y] = hex_byte b →
  utf8_valid [x; y] = true ∧ from_str_radix16 [x; y] = Some b.
Proof.
  intros Hxy. pose proof (digits_parse_all b) as H. unfold digits_parse in H.
  rewrite <- Hxy in H. rewrite !andb_true_iff, !negb_true_iff in H.
  destruct H as ((((((Hx & Hy) & Hp) & _) & _) & Hax) & Hay).
  apply bool_decide_eq_true in Hx, Hy. apply bool_decide_eq_false in Hp.
  rewrite lower_digit in Hx, Hy. rewrite lower_ascii in Hax, Hay. split.
  - cbn [utf8_valid]. by rewrite Hax, Hay.
  - unfold from_str_radix16. rewrite bool_decide_eq_false_2, Hx, Hy.
    + f_equal. rewrite <- Z.div_mod by lia. apply z_byte_z.
    + intros ->. apply Hp. vm_compute. reflexivity.
Qed.

Lemma parse_pairs_hex bs hex :
  lower <$> hex = hex_of bs → parse_pairs hex = Ok bs.
Proof.
  revert hex. induction bs as [|b bs IH]; intros hex Hh.
  - by destruct hex.
  - destruct hex as [|x [|y rest]]; [done|done|].
    assert ([lower x; lower y] = hex_byte b ∧ lower <$> rest = hex_of bs) as [Hp Hr].
    { unfold hex_of in *. cbn in Hh. unfold hex_byte. by injection Hh as -> -> ->. }
    destruct (parse_pair b x y Hp) as [Hu Hf].
    cbn [parse_pairs]. rewrite Hu, Hf. cbn. by rewrite (IH rest Hr).
Qed.

Lemma strip_prefix_app prefix text : strip_prefix prefix (prefix ++ text) = Some text.
Proof. induction prefix as [|p ps IH]; [done|]. cbn. by rewrite bool_decide_eq_true_2. Qed.

Lemma length_hex_of bs : length (hex_of bs) = (2 * length bs)%nat.
Proof.
  induction bs as [|b bs IH]; [done|].
  change (hex_of (b :: bs)) with (hex_byte b ++ hex_of bs).
  rewrite length_app, IH. cbn [length hex_byte]. lia.
Qed.

Lemma hex_of_no_colon bs : filter (λ c, c ≠ colon) (hex_of bs) = hex_of bs.
Proof.
  unfold hex_of. induction bs as [|b bs IH]; [done|].
  pose proof (digits_parse_all b) as H. unfold digits_parse in H. cbn [fmap list_fmap mjoin list_join].
  unfold hex_byte in *. rewrite !andb_true_iff, !negb_true_iff in H.
  destruct H as ((((((_ & _) & _) & Hx) & Hy) & _) & _).
  apply bool_decide_eq_false in Hx, Hy. cbn [app].
  rewrite !filter_cons_True by done. do 2 f_equal. exact IH.
Qed.

Lemma fnv1a_range bytes : is_u64 (fnv1a bytes).
Proof.
  unfold fnv1a. destruct bytes as [|b bytes _] using rev_ind; [by vm_compute|].
  rewrite foldl_snoc. apply wrap64_range.
Qed.

(** ** Properties *)

(** A fingerprint is read back however it was retyped.  Any text of the prefix and
    a digest's 64 hex digits, in either case and with colons anywhere among them,
    parses to exactly that digest; what the server prints is such a text. *)
Theorem fingerprint_round_trip (Sha256_digest : list byte → list byte) der typed :
  length (Sha256_digest der) = 32%nat →
  lower <$> filter (λ c, c ≠ colon) typed = hex_of (Sha256_digest der) →
  parse_fingerprint (sha256_prefix ++ typed) = Ok (Sha256_digest der)
  ∧ parse_fingerprint (fingerprint Sha256_digest der) = Ok (fingerprint_bytes Sha256_digest der).
Proof.
  intros Hl Ht.
  assert (∀ t, lower <$> filter (λ c, c ≠ colon) t = hex_of (Sha256_digest der) →
    parse_fingerprint (sha256_prefix ++ t) = Ok (Sha256_digest der)) as Hp.
  { intros t Heq. unfold parse_fingerprint. rewrite strip_prefix_app. cbn -[hex_of].
    rewrite bool_decide_eq_true_2; [by apply parse_pairs_hex|].
    apply (f_equal length) in Heq. rewrite length_fmap, length_hex_of, Hl in Heq. exact Heq. }
  split; [by apply Hp|]. unfold fingerprint, fingerprint_bytes. rewrite foldl_hex. apply Hp.
  rewrite hex_of_no_colon. clear. unfold hex_of.
  induction (Sha256_digest der) as [|b bs IH]; [done|]. cbn -[hex_byte] in *.
  rewrite fmap_app. f_equal; [|exact IH].
  pose proof (hex_is_lower_all b) as H. by apply bool_decide_eq_true in H.
Qed.

Definition demo_digest (der : list byte) : list byte := replicate 32 Byte.xab.
Lemma fingerprint_round_trip_witness :
  parse_fingerprint (sha256_prefix ++ mjoin (replicate 32 [Byte.x41; Byte.x62; colon]))
  = Ok (replicate 32 Byte.xab).
Proof.
  refine (proj1 (fingerprint_round_trip demo_digest [] _ _ _)); vm_compute; reflexivity.
Defined.

(** A plus sign passes for the first digit of a byte, so a text that is not 64 hex
    digits is taken for one. *)
Example plus_sign_accepted :
  parse_fingerprint (sha256_prefix ++ mjoin (replicate 32 [plus; Byte.x66]))
  = Ok (replicate 32 Byte.x0f).
Proof. vm_compute. reflexivity. Qed.
