(* ===== verification/Perf.v ===== *)
(** * Reporting thresholds and histograms ([crates/perf])

    [doubling_due] (lib.rs) decides when a growing quantity is reported: at a
    first threshold and at each doubling.  The stall watchdogs (stall.rs) and
    the server's handle table both go by it.  [bucket] and [upper]
    (histogram.rs) are the log-linear histogram's bucket index and its upper
    bound.  Durations are nanoseconds in [Z]. *)

From S2P Require Import Prelude.

(** ** lib.rs *)

Definition checked_mul64 (a b : Z) : option Z :=
  if a * b <=? u64_max then Some (a * b) else None.

(** The loop that looks for the highest threshold crossed; every round doubles
    the threshold, so 64 rounds exhaust a [u64]. *)
Fixpoint doubling_climb (fuel : nat) (threshold value : Z) : Z :=
  match fuel with
  | O => threshold
  | S fuel =>
      match checked_mul64 threshold 2 with
      | Some next =>
          if next <=? value then doubling_climb fuel next value else threshold
      | None => threshold
      end
  end.

(** Whether a report is due, and the threshold last reported afterwards. *)
Definition doubling_due (value first reported : Z) : bool * Z :=
  match checked_mul64 reported 2 with
  | None => (false, reported)
  | Some next =>
      if value <? Z.max first next then (false, reported)
      else (true, doubling_climb 64 first value)
  end.

(** ** stall.rs *)

Definition STALL_FIRST : Z := 5 * 1000000000.
Definition INFLIGHT_LISTED : Z := 1000000000.
Definition STALL_DETAILED : nat := 8.

Definition duration_ns (d : Z) : Z := Z.min d u64_max.

Definition stall_due (age reported : Z) : bool * Z :=
  doubling_due (duration_ns age) (duration_ns STALL_FIRST) (duration_ns reported).

Inductive ModeScan := Due | Listed.

Definition selects (m : ModeScan) (age reported : Z) : bool * Z :=
  match m with
  | Due => stall_due age reported
  | Listed => (INFLIGHT_LISTED <=? age, reported)
  end.

Section split.
Context {T K : Type} `{Countable K}.

(** The first [keep] items, and the rest counted by key. *)
Definition split_oldest (items : list T) (keep : nat) (key : T → K)
  : list T * gmap K Z :=
  let rest := drop (keep `min` length items)%nat items in
  (take (keep `min` length items)%nat items,
   foldl (λ counts item,
            partial_alter (λ n, Some (default 0 n + 1)) (key item) counts)
         ∅ rest).
End split.

(** A condition watched from one check to the next. *)
Record Persisting := MkPersisting { p_since : option Z; p_reported : Z }.
Definition Persisting_default : Persisting := MkPersisting None 0.

Definition Persisting_check (p : Persisting) (now : Z) (holds : bool)
  : option Z * Persisting :=
  if negb holds then (None, Persisting_default)
  else
    let since := default now (p_since p) in
    let age := Z.max 0 (now - since) in
    let '(due, reported) := stall_due age (p_reported p) in
    (if due then Some age else None, MkPersisting (Some since) reported).

(** Stalled requests that ended since the last look: the lines kept, and how
    many more there were. *)
Definition Ended_push (inner : list string * Z) (line : string) : list string * Z :=
  if (length inner.1 <? STALL_DETAILED)%nat
  then (inner.1 ++ [line], inner.2) else (inner.1, inner.2 + 1).

(** ** histogram.rs *)

Definition BUCKETS : Z := 5 + 4 * 62.

Definition bucket (v : Z) : Z :=
  if v <=? 4 then v
  else
    let x := v - 1 in
    let e := Z.log2 x in
    let quarter := Z.land (Z.shiftr x (e - 2)) 3 in
    5 + 4 * (e - 2) + quarter.

Definition upper (i : Z) : Z :=
  if i <=? 4 then i
  else
    let e := (i - 5) / 4 + 2 in
    let quarter := (i - 5) mod 4 in
    let hi := Z.shiftl 1 e + (quarter + 1) * Z.shiftl 1 (e - 2) in
    if hi <=? u64_max then hi else u64_max.

Definition Histogram_record (h : list Z) (v : Z) : list Z :=
  alter (λ c, c + 1) (Z.to_nat (bucket v)) h.

Definition Histogram_buckets (h : list Z) : list (Z * Z) :=
  omap (λ ic, if 0 <? ic.2 then Some (upper (Z.of_nat ic.1), ic.2) else None)
       (imap (λ i c, (i, c)) h).

Definition Histogram_default : list Z := replicate (Z.to_nat BUCKETS) 0.

(** ** The climb finds the highest threshold *)

Lemma doubling_climb_spec fuel t v :
  1 ≤ t → t ≤ v → v ≤ u64_max → v < t * 2 ^ Z.of_nat fuel →
  ∃ k, 0 ≤ k ∧ doubling_climb fuel t v = t * 2 ^ k
       ∧ t * 2 ^ k ≤ v < 2 * (t * 2 ^ k).
Proof.
  revert t. induction fuel as [|fuel IH]; intros t Ht Hv Hm Hf; simpl.
  { simpl in Hf. lia. }
  rewrite Nat2Z.inj_succ, Z.pow_succ_r in Hf by lia.
  unfold checked_mul64.
  destruct (Z.leb_spec (t * 2) u64_max); [destruct (Z.leb_spec (t * 2) v)|].
  - destruct (IH (t * 2)) as (k & Hk & Heq & Hb); [lia..|].
    exists (Z.succ k). rewrite Z.pow_succ_r by lia. rewrite Heq. lia.
  - exists 0. simpl. lia.
  - exists 0. simpl. lia.
Qed.

Lemma pow_between_unique a k j v :
  1 ≤ a → 0 ≤ k → 0 ≤ j →
  a * 2 ^ k ≤ v < 2 * (a * 2 ^ k) → a * 2 ^ j ≤ v < 2 * (a * 2 ^ j) → k = j.
Proof.
  intros Ha Hk Hj H1 H2.
  destruct (Z.lt_trichotomy k j) as [Hlt|[?|Hlt]]; [|done|]; exfalso.
  - assert (2 ^ Z.succ k ≤ 2 ^ j) as Hp by (apply Z.pow_le_mono_r; lia).
    rewrite Z.pow_succ_r in Hp by lia. nia.
  - assert (2 ^ Z.succ j ≤ 2 ^ k) as Hp by (apply Z.pow_le_mono_r; lia).
    rewrite Z.pow_succ_r in Hp by lia. nia.
Qed.

Lemma log2_threshold a v :
  1 ≤ a ≤ v → a * 2 ^ Z.log2 (v / a) ≤ v < 2 * (a * 2 ^ Z.log2 (v / a)).
Proof.
  intros Ha. assert (1 ≤ v / a) as Hq by (apply Z.div_le_lower_bound; lia).
  destruct (Z.log2_spec (v / a)) as [Hl Hu]; [lia|].
  rewrite Z.pow_succ_r in Hu by apply Z.log2_nonneg.
  pose proof (Z.mul_div_le v a). pose proof (Z.mod_pos_bound v a).
  pose proof (Z.div_mod v a). nia.
Qed.

Lemma doubling_climb_log2 t v :
  1 ≤ t → t ≤ v → v ≤ u64_max →
  doubling_climb 64 t v = t * 2 ^ Z.log2 (v / t).
Proof.
  intros Ht Hv Hm. destruct (doubling_climb_spec 64 t v) as (k & Hk & -> & Hb);
    [done..| |].
  { unfold u64_max in Hm. change (Z.of_nat 64) with 64.
    assert (2 ^ 64 * 1 ≤ 2 ^ 64 * t) by nia. lia. }
  rewrite (pow_between_unique t k (Z.log2 (v / t)) v); try done.
  - apply Z.log2_nonneg.
  - by apply log2_threshold.
Qed.

(** When a report is due and what is remembered.  For a first threshold of
    at least one, [doubling_due] reports exactly when the value has reached the
    first threshold and twice the one last reported (and that product is in
    range), and then remembers the highest doubling of the first threshold that
    is not above the value; the loop always finds it. *)
Theorem doubling_due_closed_form value first reported :
  is_u64 value → is_u64 first → 1 ≤ first → 0 ≤ reported →
  doubling_due value first reported =
    (if (2 * reported <=? u64_max) && (first <=? value) && (2 * reported <=? value)
     then (true, first * 2 ^ Z.log2 (value / first))
     else (false, reported)).
Proof.
  intros Hv Hf H1 Hr. unfold doubling_due, checked_mul64.
  rewrite (Z.mul_comm 2 reported).
  destruct (Z.leb_spec (reported * 2) u64_max); cbn [andb]; [|done].
  destruct (Z.ltb_spec value (Z.max first (reported * 2))).
  - destruct (Z.leb_spec first value), (Z.leb_spec (reported * 2) value);
      simpl; done || lia.
  - replace (first <=? value) with true by lia.
    replace (reported * 2 <=? value) with true by lia. cbn [andb].
    rewrite doubling_climb_log2; [done|lia..|]. unfold is_u64, u64_max in *; lia.
Qed.

Lemma doubling_due_closed_form_witness :
  doubling_due 45 5 10 = (true, 40).
Proof.
  rewrite (doubling_due_closed_form 45 5 10); [reflexivity|..];
    unfold is_u64; lia.
Defined.

(** After a report the same value is never due again. *)
Lemma doubling_due_once value first reported reported' :
  is_u64 value → is_u64 first → 1 ≤ first → 0 ≤ reported →
  doubling_due value first reported = (true, reported') →
  reported' ≤ value < 2 * reported'.
Proof.
  intros Hv Hf H1 Hr. unfold doubling_due, checked_mul64.
  destruct (reported * 2 <=? u64_max); [|done].
  destruct (Z.ltb_spec value (Z.max first (reported * 2))); [done|].
  intros Heq. assert (reported' = doubling_climb 64 first value) as -> by congruence.
  rewrite doubling_climb_log2; [|unfold is_u64, u64_max in *; lia..].
  apply log2_threshold. lia.
Qed.

(** ** Buckets *)

Lemma quarter_spec x :
  4 ≤ x →
  let e := Z.log2 x in
  let q := Z.land (Z.shiftr x (e - 2)) 3 in
  0 ≤ q ≤ 3 ∧ 2 ≤ e ∧ (4 + q) * 2 ^ (e - 2) ≤ x < (5 + q) * 2 ^ (e - 2).
Proof.
  intros Hx e q.
  assert (2 ≤ e) as He by (unfold e; change 2 with (Z.log2 4); by apply Z.log2_le_mono).
  assert (Hq : q = Z.shiftr x (e - 2) - 4).
  { unfold q. change 3 with (Z.ones 2). rewrite Z.land_ones by lia.
    rewrite Z.shiftr_div_pow2 by lia.
    destruct (Z.log2_spec x) as [Hl Hu]; [lia|]. fold e in Hl, Hu.
    assert (2 ^ e = 4 * 2 ^ (e - 2)) as Hp.
    { change 4 with (2 ^ 2). rewrite <- Z.pow_add_r by lia. f_equal. lia. }
    rewrite Z.pow_succ_r in Hu by lia.
    assert (4 ≤ x / 2 ^ (e - 2) < 8).
    { split; [apply Z.div_le_lower_bound | apply Z.div_lt_upper_bound]; lia. }
    change (2 ^ 2) with 4. symmetry. apply Z.mod_unique with 1; lia. }
  rewrite Z.shiftr_div_pow2 in Hq by lia.
  assert (0 < 2 ^ (e - 2)) by (apply Z.pow_pos_nonneg; lia).
  assert (q = Z.shiftr x (e - 2) mod 4) as Hm.
  { unfold q. change 3 with (Z.ones 2). by rewrite Z.land_ones by lia. }
  pose proof (Z.mod_pos_bound (Z.shiftr x (e - 2)) 4 ltac:(lia)).
  assert (0 ≤ q ≤ 3) by lia.
  pose proof (Z.mul_div_le x (2 ^ (e - 2)) ltac:(lia)).
  pose proof (Z.mul_succ_div_gt x (2 ^ (e - 2)) ltac:(lia)). clear Hm. nia.
Qed.

Lemma upper_of_parts e q :
  2 ≤ e → 0 ≤ q ≤ 3 →
  upper (5 + 4 * (e - 2) + q) = Z.min ((5 + q) * 2 ^ (e - 2)) u64_max.
Proof.
  intros He Hq. unfold upper.
  replace (5 + 4 * (e - 2) + q <=? 4) with false by lia.
  replace (5 + 4 * (e - 2) + q - 5) with (q + (e - 2) * 4) by lia.
  rewrite Z.div_add, Z.mod_add, Z.div_small, Z.mod_small by lia.
  replace (0 + (e - 2) + 2) with e by lia.
  rewrite !Z.shiftl_1_l.
  assert (2 ^ e = 4 * 2 ^ (e - 2)) as ->.
  { change 4 with (2 ^ 2). rewrite <- Z.pow_add_r by lia. f_equal. lia. }
  cbv zeta. destruct (Z.leb_spec (4 * 2 ^ (e - 2) + (q + 1) * 2 ^ (e - 2)) u64_max); lia.
Qed.

Lemma upper_pred_of_parts e q :
  2 ≤ e → 0 ≤ q ≤ 3 → e ≤ 63 →
  upper (5 + 4 * (e - 2) + q - 1) = (4 + q) * 2 ^ (e - 2).
Proof.
  intros He Hq H63.
  assert (2 ^ (e - 2) ≤ 2 ^ 61) by (apply Z.pow_le_mono_r; lia).
  destruct (Z.eq_dec q 0) as [->|].
  - destruct (Z.eq_dec e 2) as [->|]; [done|].
    replace (5 + 4 * (e - 2) + 0 - 1) with (5 + 4 * (e - 1 - 2) + 3) by lia.
    rewrite upper_of_parts by lia.
    assert (2 ^ (e - 2) = 2 * 2 ^ (e - 1 - 2)) as Hp.
    { rewrite <- Z.pow_succ_r by lia. f_equal. lia. }
    unfold u64_max. lia.
  - replace (5 + 4 * (e - 2) + q - 1) with (5 + 4 * (e - 2) + (q - 1)) by lia.
    rewrite upper_of_parts by lia. unfold u64_max. nia.
Qed.

(** Every [u64] falls in a bucket of the table, at most the bucket's upper
    bound and above the previous bucket's: the buckets are the half-open ranges
    [(lo, hi]] the module documents, so a quantile read off an upper bound never
    understates the value. *)
Theorem bucket_upper_sound v :
  is_u64 v →
  0 ≤ bucket v < BUCKETS ∧ v ≤ upper (bucket v)
  ∧ (0 < bucket v → upper (bucket v - 1) < v).
Proof.
  intros Hv. unfold bucket at 1 2 3 4 5. unfold is_u64 in Hv.
  destruct (Z.leb_spec v 4) as [Hle|Hgt].
  { unfold upper, BUCKETS. replace (v <=? 4) with true by lia.
    replace (v - 1 <=? 4) with true by lia. lia. }
  destruct (quarter_spec (v - 1)) as (Hq & He & Hx); [lia|].
  set (e := Z.log2 (v - 1)) in *. set (q := Z.land _ 3) in *.
  assert (e ≤ 63) as H63.
  { unfold e. change 63 with (Z.log2 (2 ^ 64 - 1)). apply Z.log2_le_mono. lia. }
  rewrite upper_of_parts by lia. rewrite upper_pred_of_parts by lia.
  unfold BUCKETS, u64_max. lia.
Qed.

Lemma bucket_upper_sound_witness :
  0 ≤ bucket 4097 < BUCKETS ∧ 4097 ≤ upper (bucket 4097)
  ∧ (0 < bucket 4097 → upper (bucket 4097 - 1) < 4097).
Proof. apply (bucket_upper_sound 4097). unfold is_u64. lia. Defined.
(** ** A histogram counts *)

Lemma upper_increasing i j : 0 ≤ i < j → j < BUCKETS → upper i < upper j.
Proof.
  intros Hi Hj.
  assert (forallb (λ i, upper i <? upper (i + 1)) (seqZ 0 (BUCKETS - 1)) = true) as Hall by (vm_compute; reflexivity).
  rewrite forallb_forall in Hall.
  assert (∀ k, 0 ≤ k < BUCKETS - 1 → upper k < upper (k + 1)) as Hstep.
  { intros k Hk. apply Z.ltb_lt, Hall, list_elem_of_In, elem_of_seqZ. lia. }
  replace j with (i + 1 + Z.of_nat (Z.to_nat (j - i - 1))) in * by lia.
  generalize dependent (Z.to_nat (j - i - 1)). intros n Hi Hj. induction n as [|n IH].
  - rewrite Z.add_0_r. apply Hstep. lia.
  - etransitivity; [apply IH; lia|]. replace (i + 1 + Z.of_nat (S n)) with (i + 1 + Z.of_nat n + 1) by lia. apply Hstep. lia.
Qed.

Lemma bucket_mono v w : is_u64 v → is_u64 w → v ≤ w → bucket v ≤ bucket w.
Proof.
  intros Hv Hw Hle. destruct (bucket_upper_sound v Hv) as (Bv & Uv & Lv), (bucket_upper_sound w Hw) as (Bw & Uw & _).
  destruct (Z.le_gt_cases (bucket v) (bucket w)) as [|Hlt]; [done|]. specialize (Lv ltac:(lia)).
  destruct (Z.eq_dec (bucket w) (bucket v - 1)) as [E|]; [rewrite E in Uw; lia|].
  pose proof (upper_increasing (bucket w) (bucket v - 1)). lia.
Qed.

(** A bucket's bound is at most a quarter above any value in it. *)
Lemma upper_within_quarter v : is_u64 v → v ≤ upper (bucket v) ∧ 4 * upper (bucket v) ≤ 5 * v.
Proof.
  intros Hv. split; [by apply bucket_upper_sound|]. unfold bucket. destruct (Z.leb_spec v 4) as [Hle|Hgt].
  { unfold upper. replace (v <=? 4) with true by lia. unfold is_u64 in Hv. lia. }
  cbv zeta. destruct (quarter_spec (v - 1)) as (Hq & He & Hx); [lia|]. rewrite upper_of_parts by lia.
  assert (0 < 2 ^ (Z.log2 (v - 1) - 2)) by (apply Z.pow_pos_nonneg; lia). nia.
Qed.

(** How many of [vs] are in each bucket from the [i]th. *)
Definition counts (vs : list Z) (i : Z) : Z := len_z (filter (λ v, bucket v = i) vs).

Lemma Histogram_record_all vs : ∀ h i c, Forall is_u64 vs → h !! i = Some c →
  foldl Histogram_record h vs !! i = Some (c + counts vs (Z.of_nat i)).
Proof.
  unfold counts. induction vs as [|v vs IH]; intros h i c Hvs Hi; cbn [foldl].
  - rewrite Hi. f_equal. unfold len_z. cbn. lia.
  - apply Forall_cons in Hvs as [Hv Hvs]. destruct (bucket_upper_sound v Hv) as ((B & _) & _ & _).
    rewrite filter_cons. destruct (decide (bucket v = Z.of_nat i)) as [E|E].
    + rewrite (IH _ _ (c + 1)); [|done|]; [f_equal; unfold len_z; cbn [length]; lia|].
      unfold Histogram_record. rewrite E, Nat2Z.id, list_lookup_alter_eq, Hi. done.
    + rewrite (IH _ _ c); [done|done|]. unfold Histogram_record. rewrite list_lookup_alter_ne by lia. done.
Qed.

Lemma length_Histogram_record_all vs : ∀ h, length (foldl Histogram_record h vs) = length h.
Proof. induction vs as [|v vs IH]; intros h; [done|]. cbn. rewrite IH. apply length_alter. Qed.
