(* ===== verification/Float.v ===== *)
(** * Numbers of type [f64]

    What the program uses of [f64]: the standard library's own model of it
    ([SpecFloat], 53 bits of significand), the conversions to and from integers and
    durations, [total_cmp], and its texts to a number of decimal places.  There is one
    [NaN], taken as positive.  What is shown of them is what rounding does to a share of a
    whole number ([share_ranked]). *)

From Stdlib Require Export Floats.SpecFloat.
From stdpp Require Import pretty.
From S2P Require Import Prelude.

Definition f64 : Type := spec_float.

Definition f64_of (z : Z) : f64 := binary_normalize 53 1024 z 0 false.
Definition f64_add : f64 → f64 → f64 := SFadd 53 1024.
Definition f64_mul : f64 → f64 → f64 := SFmul 53 1024.
Definition f64_div : f64 → f64 → f64 := SFdiv 53 1024.
Definition f64_ltb : f64 → f64 → bool := SFltb.
Definition f64_leb : f64 → f64 → bool := SFleb.

(** A literal of so many tenths: the compiler rounds it to the nearest, as the division
    of two whole numbers does. *)
Definition tenths (n : Z) : f64 := f64_div (f64_of n) (f64_of 10).

(** ** Whole numbers *)

(** The magnitude of [m * 2 ^ e], times [10 ^ p]: a numerator and a denominator. *)
Definition scaled (m e p : Z) : Z * Z :=
  if 0 <=? e then (m * 2 ^ e * 10 ^ p, 1) else (m * 10 ^ p, 2 ^ (- e)).

Definition round_half_even (num den : Z) : Z :=
  let '(q, r) := (num / den, num mod den) in
  match Z.compare (2 * r) den with Lt => q | Gt => q + 1 | Eq => if Z.even q then q else q + 1 end.

(** [x as u64]: towards zero, within the type, zero for a [NaN]. *)
Definition as_u64 (x : f64) : Z :=
  match x with
  | S754_finite false m e => let '(num, den) := scaled (Zpos m) e 0 in Z.min (num / den) u64_max
  | S754_infinity false => u64_max
  | _ => 0
  end.

(** [f64::ceil]. *)
Definition f64_ceil (x : f64) : f64 :=
  match x with
  | S754_finite s m e =>
      if 0 <=? e then x
      else let den := 2 ^ (- e) in
           if s then match Zpos m / den with 0 => S754_zero true | z => f64_of (- z) end
           else f64_of ((Zpos m + den - 1) / den)
  | _ => x
  end.

Definition is_nan (x : f64) : bool := match x with S754_nan => true | _ => false end.
(** [f64::min] and [f64::max]. *)
Definition f64_min (a b : f64) : f64 := if is_nan a then b else if is_nan b then a else if f64_leb a b then a else b.
Definition f64_max (a b : f64) : f64 := if is_nan a then b else if is_nan b then a else if f64_leb b a then a else b.

Definition f64_sign (x : f64) : bool :=
  match x with S754_zero s | S754_infinity s | S754_finite s _ _ => s | S754_nan => false end.
(** [f64::total_cmp]: a negative zero is below zero, and a [NaN] above all. *)
Definition total_cmp (a b : f64) : comparison :=
  match SFcompare a b with
  | Some Eq => match f64_sign a, f64_sign b with true, false => Lt | false, true => Gt | _, _ => Eq end
  | Some c => c
  | None => match is_nan a, is_nan b with true, true => Eq | true, false => Gt | _, _ => Lt end
  end.

(** ** Durations, in nanoseconds *)

Definition NANOS : Z := 1000000000.
(** [Duration::as_secs_f64] and [from_secs_f64], the latter where it does not panic. *)
Definition as_secs_f64 (d : Z) : f64 :=
  f64_add (f64_of (d / NANOS)) (f64_div (f64_of (d mod NANOS)) (f64_of NANOS)).
Definition from_secs_f64 (x : f64) : Z :=
  match x with
  | S754_finite false m e => let '(num, den) := scaled (Zpos m) e 9 in round_half_even num den
  | _ => 0
  end.

(** ** Texts *)

Fixpoint zeros (n : nat) : string := match n with O => "" | S n => "0" +:+ zeros n end.
(** At least so many digits, with zeros before. *)
Definition padded (width : nat) (z : Z) : string :=
  let s := pretty z in zeros (width - String.length s) +:+ s.

(** [{:.p}]: to the nearest, ties to even. *)
Definition fmt_fixed (p : nat) (x : f64) : string :=
  let magnitude m e :=
    let '(num, den) := scaled m e (Z.of_nat p) in
    let n := round_half_even num den in
    let whole := pretty (n / 10 ^ Z.of_nat p) in
    match p with O => whole | _ => (whole +:+ "." +:+ padded p (n mod 10 ^ Z.of_nat p))%string end in
  let signed (s : bool) text := if s then ("-" +:+ text)%string else text in
  match x with
  | S754_nan => "NaN"
  | S754_infinity s => signed s "inf"
  | S754_zero s => signed s (magnitude 0 0)
  | S754_finite s m e => signed s (magnitude (Zpos m) e)
  end.

Example fmt_half : fmt_fixed 1 (f64_div (f64_of 1) (f64_of 4)) = "0.2"%string.
Proof. reflexivity. Qed.
Example fmt_tenths : fmt_fixed 2 (f64_div (f64_of 56123) (f64_of 1000)) = "56.12"%string.
Proof. vm_compute. reflexivity. Qed.
Example ceil_up : f64_ceil (f64_mul (tenths 5) (f64_of 7)) = f64_of 4.
Proof. reflexivity. Qed.

(** ** Rounding

    A product is rounded to the nearest, and so are whole numbers: those below [2 ^ 53]
    are exact, and a product of one with a share is off by a part in [2 ^ 53] at most. *)

Lemma digits_bounds p : 2 ^ (Zpos (digits2_pos p) - 1) ≤ Zpos p < 2 ^ Zpos (digits2_pos p).
Proof.
  induction p as [p IH|p IH|]; cbn [digits2_pos]; [| |done];
    rewrite Pos2Z.inj_succ, <- Z.add_1_r, Z.add_simpl_r;
    replace (Zpos (digits2_pos p)) with (Zpos (digits2_pos p) - 1 + 1) at 1 by lia;
    rewrite !Z.pow_add_r by lia; lia.
Qed.

Lemma digits_unique p d : 0 < d → 2 ^ (d - 1) ≤ Zpos p < 2 ^ d → Zpos (digits2_pos p) = d.
Proof.
  intros Hd [H1 H2]. destruct (digits_bounds p) as [H3 H4].
  assert (2 ^ (d - 1) < 2 ^ Zpos (digits2_pos p)) as H5 by lia.
  assert (2 ^ (Zpos (digits2_pos p) - 1) < 2 ^ d) as H6 by lia.
  apply Z.pow_lt_mono_r_iff in H5; [|lia..]. apply Z.pow_lt_mono_r_iff in H6; [|lia..]. lia.
Qed.

Lemma iter_pos_nat {A} (f : A → A) p : ∀ x, SpecFloat.iter_pos f p x = Nat.iter (Pos.to_nat p) f x.
Proof.
  induction p as [p IH|p IH|]; intros x; cbn [SpecFloat.iter_pos].
  - rewrite !IH, Pos2Nat.inj_xI, <- Nat.iter_succ_r, <- Nat.iter_add. do 2 f_equal. lia.
  - rewrite !IH, Pos2Nat.inj_xO, <- Nat.iter_add. do 2 f_equal. lia.
  - done.
Qed.

(** Halving [k] times keeps the quotient, and how the rest compares with a half. *)
Record shifted (m : Z) (k : nat) (r : shr_record) : Prop := {
  sh_quot : shr_m r = m / 2 ^ Z.of_nat k;
  sh_any : shr_r r || shr_s r = negb (m mod 2 ^ Z.of_nat k =? 0);
  sh_half : shr_r r = (2 ^ Z.of_nat k <=? 2 * (m mod 2 ^ Z.of_nat k));
  sh_even : shr_r r = true → shr_s r = negb (2 ^ Z.of_nat k =? 2 * (m mod 2 ^ Z.of_nat k)) }.

Lemma shr_1_halves r : 0 ≤ shr_m r →
  shr_m (shr_1 r) = shr_m r / 2 ∧ shr_r (shr_1 r) = (shr_m r mod 2 =? 1)
  ∧ shr_s (shr_1 r) = shr_r r || shr_s r.
Proof.
  destruct r as [[|[p|p|]|p] r s]; cbn [shr_m shr_r shr_s shr_1]; intros Hm; [done| | |done|lia];
    rewrite ?(Pos2Z.inj_xI p), ?(Pos2Z.inj_xO p).
  - assert ((2 * Zpos p + 1) / 2 = Zpos p ∧ (2 * Zpos p + 1) mod 2 = 1) as [-> ->]
      by (Z.div_mod_to_equations; lia). done.
  - assert (2 * Zpos p / 2 = Zpos p ∧ (2 * Zpos p) mod 2 = 0) as [-> ->] by (Z.div_mod_to_equations; lia). done.
Qed.

Lemma shr_iter m k : 0 ≤ m → (0 < k)%nat →
  shifted m k (Nat.iter k shr_1 (Build_shr_record m false false)).
Proof.
  intros Hm. induction k as [|k IH]; intros Hk; [lia|].
  change (Nat.iter (S k) shr_1 ?x) with (shr_1 (Nat.iter k shr_1 x)).
  set (r := Nat.iter k shr_1 _) in *.
  assert (shr_m r = m / 2 ^ Z.of_nat k ∧ shr_r r || shr_s r = negb (m mod 2 ^ Z.of_nat k =? 0)) as [Hq Ha].
  { destruct k as [|k]; [cbn; by rewrite Z.div_1_r, Z.mod_1_r|]. destruct IH; [lia|done]. }
  clearbody r. clear IH. set (P := 2 ^ Z.of_nat k) in *. assert (0 < P) as HP by (subst P; lia).
  assert (2 ^ Z.of_nat (S k) = P * 2) as HS by (subst P; rewrite Nat2Z.inj_succ, Z.pow_succ_r by lia; lia).
  destruct (shr_1_halves r) as (H1 & H2 & H3); [rewrite Hq; apply Z.div_pos; lia|].
  pose proof (Z.div_mod m P ltac:(lia)) as Hdm. pose proof (Z.mod_pos_bound m P HP) as Hb.
  pose proof (Z.div_mod (m / P) 2 ltac:(lia)) as Hdm2. pose proof (Z.mod_pos_bound (m / P) 2 ltac:(lia)) as Hb2.
  assert (m mod (P * 2) = (m / P) mod 2 * P + m mod P) as Hmod.
  { symmetry. apply (Zmod_unique _ _ (m / P / 2)); nia. }
  rewrite Hq in *. split; rewrite HS.
  - rewrite H1. apply Z.div_div; lia.
  - rewrite H2, H3, Ha, Hmod. destruct (Z.eqb_spec ((m / P) mod 2) 1), (Z.eqb_spec (m mod P) 0); cbn [negb orb];
      symmetry; try (apply negb_true_iff, Z.eqb_neq; nia). apply negb_false_iff, Z.eqb_eq. nia.
  - rewrite H2, Hmod. destruct (Z.eqb_spec ((m / P) mod 2) 1); symmetry; [apply Z.leb_le|apply Z.leb_gt]; nia.
  - rewrite H2, H3, Ha, Hmod. intros Hodd%Z.eqb_eq. f_equal. rewrite Hodd.
    destruct (Z.eqb_spec (m mod P) 0); symmetry; [apply Z.eqb_eq|apply Z.eqb_neq]; lia.
Qed.

(** Rounded to the nearest. *)
Lemma nearest m k r : 0 ≤ m → (0 < k)%nat → shifted m k r →
  let n := round_nearest_even (shr_m r) (loc_of_shr_record r) in
  m / 2 ^ Z.of_nat k ≤ n ≤ m / 2 ^ Z.of_nat k + 1
  ∧ 2 * Z.abs (n * 2 ^ Z.of_nat k - m) ≤ 2 ^ Z.of_nat k.
Proof.
  intros Hm Hk [Hq Ha Hh He]. set (P := 2 ^ Z.of_nat k) in *. assert (0 < P) as HP by (subst P; lia).
  pose proof (Z.div_mod m P ltac:(lia)) as Hdm. pose proof (Z.mod_pos_bound m P HP) as Hb.
  destruct r as [q [] []]; cbn [shr_m shr_r shr_s loc_of_shr_record round_nearest_even orb] in *; subst q.
  - symmetry in Hh. apply Z.leb_le in Hh. nia.
  - symmetry in Hh. apply Z.leb_le in Hh. specialize (He eq_refl).
    symmetry in He. apply negb_false_iff, Z.eqb_eq in He. destruct (Z.even _); nia.
  - symmetry in Hh. apply Z.leb_gt in Hh. nia.
  - symmetry in Ha. apply negb_false_iff, Z.eqb_eq in Ha. nia.
Qed.

Notation fexp64 := (fexp 53 1024).
Lemma fexp64_normal e : -1021 ≤ e → fexp64 e = e - 53.
Proof. intros He. unfold fexp, emin. lia. Qed.

(** A significand of 53 bits needs no rounding. *)
Lemma round_aux_exact p e : Zpos (digits2_pos p) = 53 → -1074 ≤ e ≤ 971 →
  binary_round_aux 53 1024 false (Zpos p) e loc_Exact = S754_finite false p e.
Proof.
  intros Hd He. unfold binary_round_aux, shr_fexp. cbn [Zdigits2 shr_record_of_loc].
  rewrite Hd, fexp64_normal by lia. replace (53 + e - 53 - e) with 0 by lia.
  cbn [shr loc_of_shr_record round_nearest_even shr_m Zdigits2 shr_record_of_loc].
  rewrite Hd, fexp64_normal by lia. replace (53 + e - 53 - e) with 0 by lia. cbn [shr shr_m].
  by replace (e <=? 1024 - 53) with true by lia.
Qed.

Lemma iter_xO n d : Zpos (Pos.iter xO n d) = Zpos n * 2 ^ Zpos d.
Proof.
  revert n. induction d as [|d IH] using Pos.peano_ind; intros n; [cbn; lia|].
  rewrite Pos.iter_succ, Pos2Z.inj_succ, Z.pow_succ_r by lia.
  change (Zpos (Pos.iter xO n d)~0) with (2 * Zpos (Pos.iter xO n d)). rewrite IH. lia.
Qed.

(** A whole number below [2 ^ 53] is exact. *)
Lemma f64_of_exact n : 0 < n < 2 ^ 53 →
  ∃ p k, f64_of n = S754_finite false p (- k) ∧ Zpos p = n * 2 ^ k ∧ 0 ≤ k ≤ 52
         ∧ Zpos (digits2_pos p) = 53.
Proof.
  intros [H0 H1]. destruct n as [|n|n]; [lia| |lia]. clear H0. unfold f64_of, binary_normalize, binary_round.
  destruct (digits_bounds n) as [Hl Hu]. set (d := Zpos (digits2_pos n)) in *.
  assert (d ≤ 53) as Hd.
  { assert (2 ^ (d - 1) < 2 ^ 53) as H by lia. apply Z.pow_lt_mono_r_iff in H; lia. }
  assert (1 ≤ d) as Hd1 by (subst d; lia).
  rewrite Z.add_0_r, fexp64_normal by lia. unfold shl_align. rewrite Z.sub_0_r.
  destruct (d - 53) as [|k|k] eqn:Hk; [|lia|].
  - assert (d = 53) as Hd' by lia. exists n, 0. rewrite round_aux_exact by (try done; lia).
    split_and!; [done|lia|lia|lia|done].
  - assert (Zpos (digits2_pos (Pos.iter xO n k)) = 53) as Hdk.
    { apply digits_unique; [lia|]. rewrite iter_xO. replace (Zpos k) with (53 - d) by lia.
      split.
      - replace (53 - 1) with (d - 1 + (53 - d)) by lia. rewrite Z.pow_add_r by lia. nia.
      - replace 53 with (d + (53 - d)) at 2 by lia. rewrite Z.pow_add_r by lia. nia. }
    exists (Pos.iter xO n k), (Zpos k). rewrite round_aux_exact by (try done; lia).
    split_and!; [done|by rewrite iter_xO|lia|lia|done].
Qed.

(** The last step: a carry into a 54th bit is shifted out. *)
Lemma carried n e : 2 ^ 52 ≤ Zpos n ≤ 2 ^ 53 → -1074 ≤ e ≤ 970 →
  ∃ m e', (let '(r, e2) := shr_fexp 53 1024 (Zpos n) e loc_Exact in
           match shr_m r with
           | Z0 => S754_zero false
           | Zpos m => if e2 <=? 1024 - 53 then S754_finite false m e2 else S754_infinity false
           | _ => S754_nan
           end) = S754_finite false m e'
    ∧ e ≤ e' ∧ Zpos n = Zpos m * 2 ^ (e' - e) ∧ Zpos m ≤ 2 ^ 53.
Proof.
  intros Hn He. unfold shr_fexp. cbn [Zdigits2 shr_record_of_loc].
  destruct (Z.eq_dec (Zpos n) (2 ^ 53)) as [Hn53|Hn53].
  - assert (n = (2 ^ 53)%positive) as -> by (apply Pos2Z.inj; rewrite Hn53; done).
    change (Zpos (digits2_pos (2 ^ 53))) with 54. rewrite fexp64_normal by lia.
    replace (54 + e - 53 - e) with 1 by lia.
    change (shr {| shr_m := Zpos (2 ^ 53); shr_r := false; shr_s := false |} e 1)
      with ({| shr_m := Zpos (2 ^ 52); shr_r := false; shr_s := false |}, e + 1).
    cbn [shr_m]. replace (e + 1 <=? 1024 - 53) with true by lia.
    eexists _, _. split; [done|]. split; [lia|]. split; [|done]. by replace (e + 1 - e) with 1 by lia.
  - assert (Zpos (digits2_pos n) = 53) as -> by (apply digits_unique; change (53 - 1) with 52; lia).
    rewrite fexp64_normal by lia. replace (53 + e - 53 - e) with 0 by lia.
    cbn [shr shr_m]. replace (e <=? 1024 - 53) with true by lia.
    eexists _, _. split; [done|]. split; [lia|]. rewrite Z.sub_diag. lia.
Qed.

(** What is rounded is off by a part in [2 ^ 53] of it at most; [N] is the result in
    units of [2 ^ e].  What has no more than 53 bits of its own is exact. *)
Lemma round_aux_near p e : 53 ≤ Zpos (digits2_pos p) → -1074 ≤ e → Zpos (digits2_pos p) + e ≤ 1000 →
  ∃ m e' N, binary_round_aux 53 1024 false (Zpos p) e loc_Exact = S754_finite false m e'
    ∧ e ≤ e' ∧ N = Zpos m * 2 ^ (e' - e) ∧ Zpos m ≤ 2 ^ 53 ∧ 2 ^ 53 * Z.abs (N - Zpos p) ≤ Zpos p
    ∧ ∀ c j, Zpos p = c * 2 ^ j → 0 < c < 2 ^ 53 → 0 ≤ j → N = Zpos p.
Proof.
  intros Hd He Hsmall. destruct (digits_bounds p) as [Hl Hu]. set (d := Zpos (digits2_pos p)) in *.
  destruct (Z.eq_dec d 53) as [Heq|Hne].
  { exists p, e, (Zpos p). rewrite round_aux_exact by (try done; lia). rewrite Z.sub_diag.
    rewrite Heq in Hu. split_and!; [done|lia|lia|lia|lia|done]. }
  assert (∃ k : positive, d - 53 = Zpos k) as [k Hk] by (destruct (d - 53) eqn:E; [lia|by eexists|lia]).
  unfold binary_round_aux. unfold shr_fexp at 1. cbn [Zdigits2 shr_record_of_loc]. fold d.
  rewrite fexp64_normal by lia. replace (d + e - 53 - e) with (Zpos k) by lia. cbn [shr].
  rewrite iter_pos_nat.
  pose proof (shr_iter (Zpos p) (Pos.to_nat k) ltac:(lia) ltac:(lia)) as Hs.
  set (r := Nat.iter _ _ _) in *. clearbody r.
  destruct (nearest (Zpos p) (Pos.to_nat k) r ltac:(lia) ltac:(lia) Hs) as [Hn Hnear].
  set (n := round_nearest_even _ _) in *. clearbody n. rewrite positive_nat_Z in Hn, Hnear.
  assert (2 ^ 52 ≤ Zpos p / 2 ^ Zpos k < 2 ^ 53) as Hquot.
  { split; [apply Z.div_le_lower_bound|apply Z.div_lt_upper_bound]; try lia.
    - replace (d - 1) with (Zpos k + 52) in Hl by lia. by rewrite Z.pow_add_r in Hl by lia.
    - replace d with (Zpos k + 53) in Hu by lia. by rewrite Z.pow_add_r in Hu by lia. }
  assert (2 ^ 53 * Z.abs (n * 2 ^ Zpos k - Zpos p) ≤ Zpos p) as Hrel.
  { replace (d - 1) with (Zpos k + 52) in Hl by lia. rewrite Z.pow_add_r in Hl by lia. lia. }
  assert (∀ c j, Zpos p = c * 2 ^ j → 0 < c < 2 ^ 53 → 0 ≤ j → n * 2 ^ Zpos k = Zpos p) as Hexact.
  { intros c j Hc Hc53 Hj. assert (2 ^ (d - 1) < 2 ^ (53 + j)) as H by (rewrite Z.pow_add_r by lia; nia).
    apply Z.pow_lt_mono_r_iff in H; [|lia..].
    assert (Zpos p = c * 2 ^ (j - Zpos k) * 2 ^ Zpos k) as Hp.
    { rewrite <- Z.mul_assoc, <- Z.pow_add_r by lia. by rewrite Z.sub_add. }
    rewrite Hp in Hnear |- *. set (c' := c * _) in *. rewrite <- Z.mul_sub_distr_r, Z.abs_mul in Hnear.
    assert (0 < 2 ^ Zpos k) by lia. assert (n - c' = 0) by nia. nia. }
  destruct n as [|n|n]; [lia| |lia].
  destruct (carried n (e + Zpos k)) as (m & e' & -> & He' & Hm & Hm53); [lia|lia|].
  exists m, e', (Zpos n * 2 ^ Zpos k). split; [done|]. split; [lia|]. split; [|by split_and!].
  rewrite Hm. replace (e' - e) with (e' - (e + Zpos k) + Zpos k) by lia. rewrite Z.pow_add_r by lia. lia.
Qed.

(** The least whole number not below a fraction. *)
Definition ceil_div (a b : Z) : Z := (a + b - 1) / b.
Lemma ceil_div_spec a b : 0 < b → (ceil_div a b - 1) * b < a ≤ ceil_div a b * b.
Proof.
  intros Hb. unfold ceil_div. pose proof (Z.div_mod (a + b - 1) b ltac:(lia)).
  pose proof (Z.mod_pos_bound (a + b - 1) b Hb). nia.
Qed.
Lemma ceil_div_unique a b c : 0 < b → (c - 1) * b < a ≤ c * b → ceil_div a b = c.
Proof. intros Hb Hc. pose proof (ceil_div_spec a b Hb). nia. Qed.

(** [x.ceil() as u64] of a number that is [N] parts of [2 ^ e]. *)
Lemma ceil_as_u64 m e e' N : Zpos m ≤ 2 ^ 53 → e ≤ 0 → e ≤ e' → N = Zpos m * 2 ^ (e' - e) → N ≤ 2 ^ 63 * 2 ^ (- e) →
  as_u64 (f64_ceil (S754_finite false m e')) = ceil_div N (2 ^ (- e)).
Proof.
  intros Hm He Hle -> HN. assert (0 < 2 ^ (- e)) as Hp by lia. assert (0 < 2 ^ (e' - e)) as Hp' by lia.
  unfold f64_ceil. destruct (Z.leb_spec 0 e') as [He'|He'].
  - unfold as_u64, scaled. replace (0 <=? e') with true by lia. change (10 ^ 0) with 1. rewrite Z.mul_1_r, Z.div_1_r.
    replace (e' - e) with (e' + - e) in * by lia. rewrite Z.pow_add_r in * by lia.
    rewrite Z.min_l by (unfold u64_max; nia). symmetry. apply ceil_div_unique; nia.
  - set (D := 2 ^ (- e')). change ((Zpos m + D - 1) / D) with (ceil_div (Zpos m) D).
    assert (2 ≤ D) as HD. { subst D. change 2 with (2 ^ 1) at 1. apply Z.pow_le_mono_r; lia. }
    pose proof (ceil_div_spec (Zpos m) D ltac:(lia)) as Hc. set (c := ceil_div _ _) in *.
    assert (0 < c < 2 ^ 53) as Hcb by nia.
    destruct (f64_of_exact c Hcb) as (p & k & -> & Hpk & Hk & _).
    assert (as_u64 (S754_finite false p (- k)) = c) as ->.
    { unfold as_u64, scaled. rewrite Hpk. change (10 ^ 0) with 1. rewrite !Z.mul_1_r, Z.opp_involutive.
      destruct (Z.leb_spec 0 (- k)).
      - replace k with 0 by lia. cbn. rewrite Z.div_1_r, !Z.mul_1_r, Z.min_l; [done|unfold u64_max; lia].
      - rewrite Z.div_mul by lia. apply Z.min_l. unfold u64_max. lia. }
    symmetry. apply ceil_div_unique; [done|].
    replace (2 ^ (- e)) with (D * 2 ^ (e' - e)); [nia|]. subst D. rewrite <- Z.pow_add_r by lia. f_equal. lia.
Qed.

(** ** Shares

    A number from zero to one, as a fraction; and the rank it has among [n]: it times
    [n], up to the next whole number, and one at least.  Where the product is not whole
    its rounding shows: one part in [2 ^ 53]. *)
Definition share (q : f64) : option (Z * Z) :=
  match q with
  | S754_zero _ => Some (0, 1)
  | S754_finite false m e =>
      if (-1000 <=? e) && (e <=? 0) && (Zpos m <=? 2 ^ (- e)) then Some (Zpos m, 2 ^ (- e)) else None
  | _ => None
  end.

Definition ranked (num den n r : Z) : Prop :=
  1 ≤ r ≤ n
  ∧ if num * n mod den =? 0 then r = Z.max 1 (num * n / den)
    else num * n * (2 ^ 53 - 1) ≤ r * den * 2 ^ 53 ∧ (r - 1) * den * 2 ^ 53 < num * n * (2 ^ 53 + 1).

Lemma share_ranked q num den n : share q = Some (num, den) → 0 < n < 2 ^ 53 →
  ranked num den n (Z.min (Z.max (as_u64 (f64_ceil (f64_mul q (f64_of n)))) 1) n).
Proof.
  intros Hq Hn. destruct (f64_of_exact n Hn) as (p & k & -> & Hp & Hk & Hdp).
  destruct q as [s| | |[] m e]; [|done|done|done|]; cbn [share] in Hq.
  { injection Hq as <- <-. unfold ranked. change (0 * n) with 0. change (0 mod 1 =? 0) with true. change (0 / 1) with 0.
    change (as_u64 _) with 0. lia. }
  destruct ((-1000 <=? e) && (e <=? 0) && (Zpos m <=? 2 ^ (- e))) eqn:Hb; [|done]. injection Hq as <- <-.
  apply andb_true_iff in Hb as [[He1 He2]%andb_true_iff Hm]. apply Z.leb_le in He1, He2, Hm.
  unfold f64_mul, SFmul. cbn [xorb]. set (D := 2 ^ (- e)) in *. assert (0 < D) as HD by (subst D; lia).
  assert (Zpos (m * p) = Zpos m * n * 2 ^ k) as Hmp by (rewrite Pos2Z.inj_mul, Hp; lia).
  assert (0 < 2 ^ k) as HK by lia.
  assert (2 ^ (- (e + - k)) = D * 2 ^ k) as HE by (subst D; rewrite <- Z.pow_add_r by lia; f_equal; lia).
  destruct (digits_bounds p) as [Hpl _]. rewrite Hdp in Hpl. change (53 - 1) with 52 in Hpl. destruct (digits_bounds (m * p)) as [Hl Hu].
  assert (53 ≤ Zpos (digits2_pos (m * p))) as Hd53.
  { assert (2 ^ 52 < 2 ^ Zpos (digits2_pos (m * p))) as H by (rewrite Pos2Z.inj_mul in Hu; nia).
    apply Z.pow_lt_mono_r_iff in H; lia. }
  assert (Zpos (digits2_pos (m * p)) - 1 < - e + 53 + k) as Hd1.
  { apply (Z.pow_lt_mono_r_iff 2); [lia..|]. rewrite !Z.pow_add_r by lia. fold D. nia. }
  destruct (round_aux_near (m * p) (e + - k)) as (m' & e' & N & -> & He' & HN & Hm' & Hnear & Hexact); [lia..|].
  rewrite (ceil_as_u64 m' (e + - k) e' N); [|lia|lia|lia|done|rewrite HE; nia].
  rewrite HE, Hmp in *. pose proof (ceil_div_spec N (D * 2 ^ k) ltac:(nia)) as Hc. set (r := ceil_div _ _) in *.
  unfold ranked. split; [lia|]. destruct (Z.eqb_spec (Zpos m * n mod D) 0) as [Hz|Hz].
  - pose proof (Z.div_mod (Zpos m * n) D ltac:(lia)) as Hdm. set (c := Zpos m * n / D) in *.
    assert (N = Zpos m * n * 2 ^ k) as HNe.
    { apply (Hexact c (- e + k)); [|nia|lia]. rewrite Z.pow_add_r by lia. fold D. nia. }
    assert (r = c) by nia. nia.
  - set (a := Zpos m * n) in *. assert (0 < a ≤ D * n) as Ha by (subst a; nia).
    assert (a * (2 ^ 53 - 1) ≤ r * D * 2 ^ 53) as Hlow by (apply (Z.mul_le_mono_pos_r _ _ (2 ^ k)); nia).
    assert ((r - 1) * D * 2 ^ 53 < a * (2 ^ 53 + 1)) as Hhigh by (apply (Z.mul_lt_mono_pos_r (2 ^ k)); nia).
    assert (0 < r) by nia. rewrite Z.max_l by lia. destruct (Z.min_spec r n) as [[? ->]|[? ->]]; [done|].
    split; [nia|]. eapply Z.le_lt_trans; [|exact Hhigh]. nia.
Qed.
