(* ===== verification/ServerHandles.v ===== *)
(** * The server's open handles ([crates/server/src/handles.rs])

    A [HandlePool] counts the file descriptors every session may hold together;
    a session's [Handles] is its table of open files and directories, keyed by
    the ids the client chose.  An open first reserves a slot of the pool, then
    inserts its handle; a slot never used, a handle removed and a table dropped
    give their slots back.  A Rust drop is an explicit operation here
    ([Slot_drop], [Handles_drop]), and the pool is threaded through the
    operations that share it.

    [pool_step] interleaves those operations over any number of sessions; the
    invariant is that the pool's counter is exactly what is held. *)

From S2P Require Import Prelude Types Msg Perf.

Definition MAX_CONNECTIONS : Z := 64.
Definition MAX_DETACHED_SESSIONS : Z := 64.
Definition SHARE_MAX : Z := 16384.
Definition RESERVED_FDS : Z := 2048.

(** An open file or directory: its descriptor, the path a file was opened at,
    and the watch held on its directory. *)
Inductive Handle :=
| Handle_File (file : Z) (path : Path) (watch : option Z)
| Handle_Dir (dir : Z) (watch : option Z).

Definition is_dir (h : Handle) : bool :=
  match h with Handle_Dir _ _ => true | Handle_File _ _ _ => false end.

Definition pool_capacity (limit : Z) : Z :=
  Z.min (limit - Z.min RESERVED_FDS (limit / 2)) usize_max.

Definition per_session (limit : Z) : Z :=
  Z.min (pool_capacity limit / (MAX_CONNECTIONS + MAX_DETACHED_SESSIONS)) SHARE_MAX.

Record HandlePool := MkPool { capacity : Z; used : Z }.

Definition HandlePool_new (capacity : Z) : HandlePool := MkPool capacity 0.

Definition take_slot (p : HandlePool) : bool * HandlePool :=
  if used p <? capacity p then (true, MkPool (capacity p) (used p + 1))
  else (false, p).

Definition give (p : HandlePool) (slots : Z) : HandlePool :=
  MkPool (capacity p) (used p - slots).

Inductive ErrorReserve := PoolFull | Duplicate.

Record Slot := MkSlot { slot_fh : Z; slot_taken : bool }.

Inductive Reserved := Reserved_Slot (s : Slot) | Reserved_Held (h : Handle).

(** One session's handles. *)
Record Handles := MkHandles {
  h_map : gmap Z Handle;
  h_share : Z;
  h_reported : Z;
  h_files : Z;
  h_dirs : Z;
  h_notice : option NoticeHandles }.

Definition Handles_new (share : Z) : Handles := MkHandles ∅ share 0 0 0 None.

Definition HandlesTotals : Type := Z * Z.
Definition Handles_totals (hs : Handles) : HandlesTotals := (h_files hs, h_dirs hs).

Definition Handles_len (hs : Handles) : Z := Z.of_nat (size (h_map hs)).

(** A slot for an open under [fh], or the handle a resend's original kept. *)
Definition reserve (hs : Handles) (p : HandlePool) (fh : Z)
  : result ErrorReserve Reserved * HandlePool :=
  match h_map hs !! fh with
  | Some handle => (Ok (Reserved_Held handle), p)
  | None =>
      let '(taken, p) := take_slot p in
      if taken then (Ok (Reserved_Slot (MkSlot fh true)), p) else (Err PoolFull, p)
  end.

(** Dropping a slot gives it back while it is still the open's own. *)
Definition Slot_drop (s : Slot) (p : HandlePool) : HandlePool :=
  if slot_taken s then give p 1 else p.

(** [count(handle).fetch_add(d)]. *)
Definition count_add (hs : Handles) (h : Handle) (d : Z) : Handles :=
  if is_dir h
  then MkHandles (h_map hs) (h_share hs) (h_reported hs) (h_files hs) (h_dirs hs + d) (h_notice hs)
  else MkHandles (h_map hs) (h_share hs) (h_reported hs) (h_files hs + d) (h_dirs hs) (h_notice hs).

(** Register [handle] under the slot's id: the number held when that crossed a
    report threshold.  The slot is consumed, so its drop is part of this. *)
Definition Slot_insert (hs : Handles) (p : HandlePool) (s : Slot) (handle : Handle)
  : result ErrorReserve (option Z) * Handles * HandlePool :=
  match h_map hs !! slot_fh s with
  | Some _ => (Err Duplicate, hs, Slot_drop s p)
  | None =>
      let hs1 := count_add hs handle 1 in
      let map := <[slot_fh s := handle]> (h_map hs1) in
      let s := MkSlot (slot_fh s) false in
      let held := Z.of_nat (size map) in
      let '(due, reported) :=
        doubling_due held (Z.max (h_share hs1) 1) (h_reported hs1) in
      let notice :=
        if due then Some (MkNotice held (h_share hs1)) else h_notice hs1 in
      (Ok (if due then Some held else None),
       MkHandles map (h_share hs1) reported (h_files hs1) (h_dirs hs1) notice,
       Slot_drop s p)
  end.

Definition EBADF : Z := 9.

Definition file_and_path (hs : Handles) (fh : Z) : result Z (Z * Path) :=
  match h_map hs !! fh with
  | Some (Handle_File file path _) => Ok (file, path)
  | _ => Err EBADF
  end.

Definition Handles_file (hs : Handles) (fh : Z) : result Z Z :=
  fst <$> file_and_path hs fh.

Definition Handles_dir (hs : Handles) (fh : Z) : result Z Z :=
  match h_map hs !! fh with
  | Some (Handle_Dir dir _) => Ok dir
  | _ => Err EBADF
  end.

Definition Handles_get (hs : Handles) (fh : Z) : result Z Handle :=
  ok_or (h_map hs !! fh) EBADF.

(** Close the handle under [fh], if any; back under half its share, the session
    is reported afresh. *)
Definition Handles_remove (hs : Handles) (p : HandlePool) (fh : Z)
  : option Handle * Handles * HandlePool :=
  match h_map hs !! fh with
  | None => (None, hs, p)
  | Some handle =>
      let map := delete fh (h_map hs) in
      let hs1 := count_add (MkHandles map (h_share hs) (h_reported hs) (h_files hs)
                                      (h_dirs hs) (h_notice hs)) handle (-1) in
      let hs2 :=
        if 2 * Z.of_nat (size map) <? h_share hs1
        then MkHandles map (h_share hs1) 0 (h_files hs1) (h_dirs hs1) None
        else hs1 in
      (Some handle, hs2, give p 1)
  end.

Definition Handles_drop (hs : Handles) (p : HandlePool) : HandlePool :=
  give p (Handles_len hs).

(** ** One table *)

Definition file_count (hs : Handles) : Z := map_count (λ h, negb (is_dir h)) (h_map hs).
Definition dir_count (hs : Handles) : Z := map_count is_dir (h_map hs).

(** The counters by kind are the table's. *)
Definition handles_wf (hs : Handles) : Prop :=
  h_files hs = file_count hs ∧ h_dirs hs = dir_count hs.

Lemma Handles_new_wf share : handles_wf (Handles_new share).
Proof. split; reflexivity. Qed.

Lemma Slot_insert_cases hs p s h r hs' p' :
  Slot_insert hs p s h = (r, hs', p') →
  (is_Some (h_map hs !! slot_fh s) ∧ r = Err Duplicate ∧ hs' = hs ∧ p' = Slot_drop s p)
  ∨ (h_map hs !! slot_fh s = None ∧ is_ok r = true ∧ p' = p
     ∧ h_map hs' = <[slot_fh s := h]> (h_map hs)
     ∧ h_files hs' = h_files hs + b2z (negb (is_dir h))
     ∧ h_dirs hs' = h_dirs hs + b2z (is_dir h)).
Proof.
  unfold Slot_insert. destruct (h_map hs !! slot_fh s) eqn:Hs; [intros; simplify_eq; eauto 10|].
  destruct (doubling_due _ _ _) as [due rep]. intros Heq. simplify_eq/=. right.
  unfold count_add. destruct (is_dir h), due; simpl; repeat split; try done; lia.
Qed.

Lemma Slot_insert_wf hs p s h r hs' p' :
  handles_wf hs → Slot_insert hs p s h = (r, hs', p') → handles_wf hs'.
Proof.
  intros [Hf Hd] Heq.
  apply Slot_insert_cases in Heq as [(_ & _ & -> & _)|(Hn & _ & _ & Hm & Hf' & Hd')]; [by split|].
  unfold handles_wf, file_count, dir_count in *.
  rewrite Hm, !map_count_insert_None by done. lia.
Qed.

Lemma Handles_remove_cases hs p fh r hs' p' :
  Handles_remove hs p fh = (r, hs', p') →
  (h_map hs !! fh = None ∧ r = None ∧ hs' = hs ∧ p' = p)
  ∨ (∃ h, h_map hs !! fh = Some h ∧ r = Some h ∧ p' = give p 1
     ∧ h_map hs' = delete fh (h_map hs)
     ∧ h_files hs' = h_files hs - b2z (negb (is_dir h))
     ∧ h_dirs hs' = h_dirs hs - b2z (is_dir h)).
Proof.
  unfold Handles_remove. destruct (h_map hs !! fh) as [h|]; [|intros; simplify_eq; eauto].
  intros Heq. simplify_eq/=. right. exists h.
  unfold count_add. destruct (is_dir h); simpl;
    destruct (2 * _ <? _); simpl; repeat split; lia || done.
Qed.

Lemma Handles_remove_wf hs p fh r hs' p' :
  handles_wf hs → Handles_remove hs p fh = (r, hs', p') → handles_wf hs'.
Proof.
  intros [Hf Hd] Heq.
  apply Handles_remove_cases in Heq as [(_ & _ & -> & _)|(h & Hn & _ & _ & Hm & Hf' & Hd')]; [by split|].
  unfold handles_wf, file_count, dir_count, map_count in *.
  rewrite Hm. rewrite !(map_sum_delete _ _ _ h) by done. lia.
Qed.

#[export] Hint Resolve Handles_new_wf Slot_insert_wf Handles_remove_wf : jfs.

(** A resend of an open finds the handle its original kept.  After a handle
    is inserted under an id, a reservation of that id answers with that very
    handle and takes no slot of the pool, whatever other ids were inserted or
    removed meanwhile as long as this one was not removed. *)
Theorem reserve_after_insert hs p s h n hs' p' q :
  Slot_insert hs p s h = (Ok n, hs', p') →
  reserve hs' q (slot_fh s) = (Ok (Reserved_Held h), q)
  ∧ (∀ fh hs2 r p2, fh ≠ slot_fh s → Handles_remove hs' p' fh = (r, hs2, p2) →
       reserve hs2 q (slot_fh s) = (Ok (Reserved_Held h), q)).
Proof.
  intros Heq.
  apply Slot_insert_cases in Heq as [(_ & ? & _)|(_ & _ & _ & Hm & _)]; [done|].
  assert (h_map hs' !! slot_fh s = Some h) as Hl by (rewrite Hm; apply lookup_insert_eq).
  split; [unfold reserve; by rewrite Hl|].
  intros fh hs2 r p2 Hne Hr.
  apply Handles_remove_cases in Hr as [(_ & _ & -> & _)|(h2 & _ & _ & _ & Hm2 & _)];
    unfold reserve; [by rewrite Hl|].
  by rewrite Hm2, lookup_delete_ne, Hl.
Qed.

Lemma reserve_after_insert_witness :
  let r := Slot_insert (Handles_new 4) (MkPool 10 1) (MkSlot 3 true) (Handle_Dir 7 None) in
  reserve r.1.2 (MkPool 1 1) 3 = (Ok (Reserved_Held (Handle_Dir 7 None)), MkPool 1 1).
Proof.
  apply (reserve_after_insert (Handles_new 4) (MkPool 10 1) (MkSlot 3 true)
           (Handle_Dir 7 None) None
           (Slot_insert (Handles_new 4) (MkPool 10 1) (MkSlot 3 true) (Handle_Dir 7 None)).1.2
           (MkPool 10 1) (MkPool 1 1)).
  reflexivity.
Defined.

(** ** The pool shared by every session *)

(** The pool, the sessions' tables, and the slots reserved and not yet used,
    each with the session it belongs to. *)
Record PoolWorld := MkPoolWorld {
  pw_pool : HandlePool;
  pw_tables : gmap Z Handles;
  pw_slots : gmap Z (Z * Slot) }.

Inductive pool_step : PoolWorld → PoolWorld → Prop :=
| ps_new p ts sl sid share :
    ts !! sid = None →
    pool_step (MkPoolWorld p ts sl) (MkPoolWorld p (<[sid := Handles_new share]> ts) sl)
| ps_reserve p ts sl sid hs fh k s p' :
    ts !! sid = Some hs → sl !! k = None →
    reserve hs p fh = (Ok (Reserved_Slot s), p') →
    pool_step (MkPoolWorld p ts sl) (MkPoolWorld p' ts (<[k := (sid, s)]> sl))
| ps_insert p ts sl sid hs k s h r hs' p' :
    sl !! k = Some (sid, s) → ts !! sid = Some hs →
    Slot_insert hs p s h = (r, hs', p') →
    pool_step (MkPoolWorld p ts sl) (MkPoolWorld p' (<[sid := hs']> ts) (delete k sl))
| ps_slot_drop p ts sl sid k s :
    sl !! k = Some (sid, s) →
    pool_step (MkPoolWorld p ts sl) (MkPoolWorld (Slot_drop s p) ts (delete k sl))
| ps_remove p ts sl sid hs fh r hs' p' :
    ts !! sid = Some hs → Handles_remove hs p fh = (r, hs', p') →
    pool_step (MkPoolWorld p ts sl) (MkPoolWorld p' (<[sid := hs']> ts) sl)
| ps_table_drop p ts sl sid hs :
    ts !! sid = Some hs →
    (∀ k x s, sl !! k = Some (x, s) → x ≠ sid) →
    pool_step (MkPoolWorld p ts sl) (MkPoolWorld (Handles_drop hs p) (delete sid ts) sl).

Definition held_total (w : PoolWorld) : Z := map_sum Handles_len (pw_tables w).
Definition slots_total (w : PoolWorld) : Z := Z.of_nat (size (pw_slots w)).

(** Every slot outstanding is still its open's own, the tables' counters are
    right, and the pool's counter is what the tables and the slots hold. *)
Definition pool_inv (w : PoolWorld) : Prop :=
  used (pw_pool w) = held_total w + slots_total w
  ∧ used (pw_pool w) ≤ capacity (pw_pool w)
  ∧ (∀ k sid s, pw_slots w !! k = Some (sid, s) → slot_taken s = true)
  ∧ (∀ sid hs, pw_tables w !! sid = Some hs → handles_wf hs).

Lemma reserve_slot hs p fh s p' :
  reserve hs p fh = (Ok (Reserved_Slot s), p') →
  slot_taken s = true ∧ slot_fh s = fh ∧ h_map hs !! fh = None
  ∧ used p < capacity p ∧ p' = MkPool (capacity p) (used p + 1).
Proof.
  unfold reserve, take_slot. destruct (h_map hs !! fh); [done|].
  destruct (Z.ltb_spec (used p) (capacity p)); intros; by simplify_eq.
Qed.

Ltac pool_facts :=
  repeat match goal with
    | H : reserve _ _ _ = _ |- _ => apply reserve_slot in H as (? & ? & ? & ? & ->)
    | H : Slot_insert _ _ _ _ = _ |- _ =>
        apply Slot_insert_cases in H as [(? & ? & -> & ->)|(? & ? & -> & ? & ? & ?)]
    | H : Handles_remove _ _ _ = _ |- _ =>
        apply Handles_remove_cases in H as [(? & ? & -> & ->)|(? & ? & ? & -> & ? & ? & ?)]
    end.

Lemma pool_step_counts w w' :
  pool_inv w → pool_step w w' →
  used (pw_pool w') = held_total w' + slots_total w'
  ∧ used (pw_pool w') ≤ capacity (pw_pool w').
Proof.
  intros (Hu & Hc & Ht & _) Hs.
  destruct Hs as [| |??????? s ??? Hk Hl ?|?????? Hk|????????? Hl ?|????? Hl];
    unfold held_total, slots_total, Handles_len in *; simpl in *.
  - rewrite map_sum_insert_None by done. done.
  - pool_facts. rewrite map_size_insert_Z by done. simpl. lia.
  - rewrite (map_size_delete_Z _ _ _ Hk). rewrite (map_sum_insert_Some _ _ _ _ _ Hl).
    pose proof (Ht _ _ _ Hk) as Htk. pool_facts.
    + unfold Slot_drop. rewrite Htk. simpl. lia.
    + match goal with H : h_map _ = <[_:=_]> _ |- _ => rewrite H end.
      rewrite map_size_insert_Z by done. lia.
  - rewrite (map_size_delete_Z _ _ _ Hk). pose proof (Ht _ _ _ Hk) as Htk.
    unfold Slot_drop. rewrite Htk. simpl. lia.
  - rewrite (map_sum_insert_Some _ _ _ _ _ Hl). pool_facts; [lia|].
    match goal with H : h_map _ = delete _ _ |- _ => rewrite H end.
    erewrite map_size_delete_Z by done. simpl. lia.
  - rewrite (map_sum_delete _ _ _ _ Hl). unfold Handles_drop, Handles_len. simpl. lia.
Qed.

Lemma pool_step_inv w w' : pool_inv w → pool_step w w' → pool_inv w'.
Proof.
  intros Hi Hs. destruct (pool_step_counts w w' Hi Hs) as [Hu Hc].
  destruct Hi as (_ & _ & Ht & Hw). split; [done|split; [done|]].
  destruct Hs; simpl in *; split; intros; split_lookups; eauto with jfs.
  by pool_facts.
Qed.

Definition pool_world_init (cap : Z) : PoolWorld := MkPoolWorld (HandlePool_new cap) ∅ ∅.

Lemma pool_inv_init cap : 0 ≤ cap → pool_inv (pool_world_init cap).
Proof. intros. repeat split; simpl; try done || lia. Qed.

(** C13: the pool never lends more than it has and never loses a slot.  In every
    state a server can reach, however its sessions' opens, closes and drops
    interleave, the pool's counter is exactly the number of handles held in all
    the tables plus the slots reserved for opens under way, it is between zero
    and the capacity, and every table's counters by kind are its contents. *)
Theorem pool_never_leaks cap w :
  0 ≤ cap → rtc pool_step (pool_world_init cap) w →
  used (pw_pool w) = held_total w + slots_total w
  ∧ 0 ≤ used (pw_pool w) ≤ capacity (pw_pool w)
  ∧ (∀ sid hs, pw_tables w !! sid = Some hs →
       Handles_totals hs = (file_count hs, dir_count hs)).
Proof.
  intros Hcap Hr.
  assert (pool_inv w) as (Hu & Hc & _ & Hw).
  { eapply rtc_invariant; [apply pool_step_inv|done|by apply pool_inv_init]. }
  split; [done|]. split.
  - split; [|done]. rewrite Hu. unfold held_total, slots_total.
    pose proof (map_sum_nonneg Handles_len (pw_tables w)) as Hn.
    assert (0 ≤ map_sum Handles_len (pw_tables w)); [|lia].
    apply Hn. intros. unfold Handles_len. lia.
  - intros sid hs Hl. destruct (Hw _ _ Hl) as [Hf Hd].
    unfold Handles_totals. by rewrite Hf, Hd.
Qed.

Lemma pool_never_leaks_witness :
  ∃ w, rtc pool_step (pool_world_init 1) w ∧ used (pw_pool w) = 1
       ∧ used (pw_pool w) = held_total w + slots_total w.
Proof.
  set (w := MkPoolWorld (MkPool 1 1) {[5 := Handles_new 4]} {[0 := (5, MkSlot 9 true)]}).
  assert (rtc pool_step (pool_world_init 1) w) as Hr.
  { eapply rtc_l; [apply (ps_new _ _ _ 5 4); reflexivity|].
    eapply rtc_l; [|apply rtc_refl].
    apply (ps_reserve _ _ _ 5 (Handles_new 4) 9 0 (MkSlot 9 true)); reflexivity. }
  exists w. split; [exact Hr|]. split; [reflexivity|].
  apply (pool_never_leaks 1 w ltac:(lia) Hr).
Defined.

(** A server's shares fit in its pool.  Under any open-file limit, the share
    at which a session is reported, times every session that can hold handles at
    once, is at most the pool, and the pool leaves the server at least half the
    limit, or the reserved descriptors when the limit can spare them. *)
Theorem shares_fit_the_pool limit :
  is_u64 limit →
  (MAX_CONNECTIONS + MAX_DETACHED_SESSIONS) * per_session limit ≤ pool_capacity limit
  ∧ 0 ≤ per_session limit ≤ SHARE_MAX
  ∧ pool_capacity limit + Z.min RESERVED_FDS (limit / 2) = limit.
Proof.
  unfold is_u64. intros Hl.
  assert (0 ≤ limit / 2 ≤ limit) by (split; [apply Z.div_pos|apply Z.div_le_upper_bound]; lia).
  assert (pool_capacity limit = limit - Z.min RESERVED_FDS (limit / 2)) as Hp.
  { unfold pool_capacity, usize_max, RESERVED_FDS. lia. }
  unfold per_session, MAX_CONNECTIONS, MAX_DETACHED_SESSIONS, SHARE_MAX.
  assert (0 ≤ pool_capacity limit) by (unfold RESERVED_FDS in *; lia).
  pose proof (Z.mul_div_le (pool_capacity limit) (64 + 64) ltac:(lia)).
  assert (0 ≤ pool_capacity limit / (64 + 64)) by (apply Z.div_pos; lia).
  lia.
Qed.

Lemma shares_fit_the_pool_witness :
  (MAX_CONNECTIONS + MAX_DETACHED_SESSIONS) * per_session 1048576 ≤ pool_capacity 1048576
  ∧ 0 ≤ per_session 1048576 ≤ SHARE_MAX
  ∧ pool_capacity 1048576 + Z.min RESERVED_FDS (1048576 / 2) = 1048576.
Proof. apply (shares_fit_the_pool 1048576). unfold is_u64. lia. Defined.
