(* ===== verification/Session.v ===== *)
(** * One session's ordering ([crates/server/src/session.rs])

    A session's changes are ordered across the connections it lives on.  The
    [Attachment] counts the changes running from the current connection, those
    of them the client gave up on, and those still running from earlier
    connections; a request's [Exchange] moves through its phases under the
    attachment lock.  Each operation of [SessionState] that takes that lock is
    one definition here, atomic as the lock makes it:

    - [fencing]: a request just decoded learns how many changes it waits for;
    - [drained], [stopped]: a held change goes on, or its stream ends;
    - [begin_], [guard_drop]: a request begins, and its guard is dropped;
    - [abandon]: the client gave up on a change;
    - [take_over], [detach_att]: a newer connection attaches, a connection ends.

    A panic of the code ([unreachable!], [assert!]) is [None].  An operation that
    may wake the held changes ([Notify::notify_waiters]) says whether it did. *)

From S2P Require Import Prelude Types Msg Perf ServerHandles.

Record Attachment := MkAtt {
  epoch : Z;
  detached_at : option Z;
  remote : option string;
  running : Z;
  abandoned : Z;
  running_older : Z }.

Inductive PhaseExchange :=
| Held | Ready | Cancelled | Superseded | Dropped | Running | Abandoned | Finished.

#[export] Instance PhaseExchange_eq_dec : EqDecision PhaseExchange.
Proof. solve_decision. Defined.

(** [x_holder]: the request still holds its session. *)
Record Exchange := MkExchange {
  x_ordered : bool;
  x_phase : PhaseExchange;
  x_holder : bool }.

Record SessionState := MkSession {
  s_id : Z;
  s_token : list byte;
  s_handles : Handles;
  s_att : Attachment;
  s_holders : Z }.

Inductive Verdict := V_Unrun | V_Fenced | V_Finished | V_Superseded.
#[export] Instance Verdict_eq_dec : EqDecision Verdict.
Proof. solve_decision. Defined.

Definition with_att (st : SessionState) (a : Attachment) : SessionState :=
  MkSession (s_id st) (s_token st) (s_handles st) a (s_holders st).
Definition with_holders (st : SessionState) (n : Z) : SessionState :=
  MkSession (s_id st) (s_token st) (s_handles st) (s_att st) n.
Definition with_counts (a : Attachment) (run aband older : Z) : Attachment :=
  MkAtt (epoch a) (detached_at a) (remote a) run aband older.
Definition with_phase (x : Exchange) (p : PhaseExchange) : Exchange :=
  MkExchange (x_ordered x) p (x_holder x).

(** [SessionState::hold] and [Holder]'s drop. *)
Definition hold (st : SessionState) : SessionState := with_holders st (s_holders st + 1).
Definition release_hold (st : SessionState) : SessionState := with_holders st (s_holders st - 1).

Definition Exchange_new (ordered : bool) : Exchange := MkExchange ordered Ready true.

(** [Exchange::end]: move to a terminal phase, letting go of the session. *)
Definition Exchange_end (st : SessionState) (x : Exchange) (to : PhaseExchange)
  : SessionState * Exchange :=
  (if x_holder x then release_hold st else st, MkExchange (x_ordered x) to false).

(** [SessionState::begin]: the last component says whether a guard was given. *)
Definition begin_ (st : SessionState) (e : Z) (x : Exchange)
  : option (SessionState * Exchange * bool) :=
  if negb (x_ordered x) then
    match x_phase x with
    | Ready => Some (st, with_phase x Running, true)
    | _ => None
    end
  else
    cancelled ← match x_phase x with
                | Ready => Some false
                | Cancelled => Some true
                | _ => None
                end;
    let a := s_att st in
    if cancelled || negb (epoch a =? e) then
      if negb cancelled
      then let '(st, x) := Exchange_end st x Superseded in Some (st, x, false)
      else Some (st, x, false)
    else
      Some (with_att st (with_counts a (running a + 1) (abandoned a) (running_older a)),
            with_phase x Running, true).

(** [SessionState::abandon]. *)
Definition abandon (st : SessionState) (e : Z) (x : Exchange)
  : option (SessionState * Exchange * Verdict) :=
  if negb (x_ordered x) then None
  else
    let a := s_att st in
    match x_phase x with
    | Held | Ready =>
        let '(st, x) := Exchange_end st x Cancelled in Some (st, x, V_Unrun)
    | Superseded => Some (st, x, V_Superseded)
    | Running =>
        let a' := if epoch a =? e
                  then with_counts a (running a) (abandoned a + 1) (running_older a)
                  else a in
        Some (with_att st a', with_phase x Abandoned, V_Fenced)
    | Cancelled | Abandoned => None
    | Dropped => None
    | Finished => Some (st, x, V_Finished)
    end.

(** [SessionState::fencing]: the changes a request just decoded waits for. *)
Definition fencing (st : SessionState) (e : Z) (x : Exchange) : Exchange * Z :=
  if negb (x_ordered x) then (x, 0)
  else
    let a := s_att st in
    let fence := if epoch a =? e then running_older a + abandoned a else 0 in
    (if 0 <? fence then with_phase x Held else x, fence).

(** [SessionState::drained]: whether a held change goes on. *)
Definition drained (st : SessionState) (e : Z) (x : Exchange)
  : option (SessionState * Exchange * option bool) :=
  match x_phase x with
  | Held =>
      let a := s_att st in
      if negb (epoch a =? e)
      then let '(st, x) := Exchange_end st x Superseded in Some (st, x, Some false)
      else if running_older a + abandoned a =? 0
      then Some (st, with_phase x Ready, Some true)
      else Some (st, x, None)
  | _ => None
  end.

(** [SessionState::stopped]. *)
Definition stopped (st : SessionState) (x : Exchange) : option (SessionState * Exchange) :=
  match x_phase x with
  | Held => Some (Exchange_end st x Dropped)
  | _ => None
  end.

(** [GuardExchange]'s drop: the exchange ends, and the last component says
    whether the held changes were woken. *)
Definition guard_drop (st : SessionState) (e : Z) (x : Exchange)
  : SessionState * Exchange * bool :=
  if negb (x_ordered x) then (Exchange_end st x Finished, false)
  else
    let a := s_att st in
    let was_abandoned := bool_decide (x_phase x = Abandoned) in
    let '(st, x) := Exchange_end st x Finished in
    let current := epoch a =? e in
    let a' :=
      if current
      then with_counts a (running a - 1)
             (if was_abandoned then abandoned a - 1 else abandoned a) (running_older a)
      else with_counts a (running a) (abandoned a) (running_older a - 1) in
    let st := with_att st a' in
    let wakes :=
      if current then was_abandoned && (abandoned a' =? 0)
      else running_older a' =? 0 in
    (st, x, wakes).

(** What [Sessions::resume] does to the attachment of the session it found. *)
Definition take_over (a : Attachment) : Attachment :=
  MkAtt (epoch a + 1) None (remote a) 0 0 (running_older a + running a).

(** What [Sessions::detach] does to the attachment of the session it found. *)
Definition detach_att (a : Attachment) (e now : Z) : Attachment :=
  if epoch a =? e
  then MkAtt (epoch a) (Some now) (remote a) (running a) (abandoned a) (running_older a)
  else a.

(** The address of a connection that attached, in [handle_connection]. *)
Definition attach_remote (a : Attachment) (e : Z) (addr : string) : Attachment :=
  if epoch a =? e
  then MkAtt (epoch a) (detached_at a) (Some addr) (running a) (abandoned a) (running_older a)
  else a.

(** ** The tasks of a connection

    [handle_request] is one task per request stream; its waiting points are the
    places where the others run.  [InHeld]: in the [select!] around [drain].
    [Queued]: its closure is spawned and has not called [begin].  [Guarded]: the
    closure holds its guard.  [Returned]: the closure has returned and the task
    has not seen it, so a cancel may still be taken first.  [Gone]: the task
    takes no further part. *)
Inductive Task := InHeld | Queued | Guarded | Returned | Gone.
#[export] Instance Task_eq_dec : EqDecision Task.
Proof. solve_decision. Defined.

(** A request under way: the epoch of its connection, its exchange, where its
    task stands, and whether the client's cancel was acted on.  [f_behind] is a
    ghost: the changes it was fenced behind when it was decoded. *)
Record Flight := MkFlight {
  f_epoch : Z;
  f_x : Exchange;
  f_task : Task;
  f_cancel : bool;
  f_behind : gset Z }.

(** A session with its requests, the streams accepted and not yet decoded, and
    the epochs of the connections attached to it. *)
Record World := MkWorld {
  w_st : SessionState;
  w_flights : gmap Z Flight;
  w_undecoded : Z;
  w_conns : gset Z }.

Definition is_active (p : PhaseExchange) : bool :=
  match p with Running | Abandoned => true | _ => false end.
Definition is_terminal (p : PhaseExchange) : bool :=
  match p with Cancelled | Superseded | Dropped | Finished => true | _ => false end.

(** The changes a new change of connection [e] must wait for. *)
Definition waits_for (e : Z) (f : Flight) : bool :=
  x_ordered (f_x f) && is_active (x_phase (f_x f))
  && ((f_epoch f <? e) || bool_decide (x_phase (f_x f) = Abandoned)).

Definition fence_set (w : World) (e : Z) (ordered : bool) : gset Z :=
  if ordered && (epoch (s_att (w_st w)) =? e)
  then dom (filter (λ kf, waits_for e kf.2 = true) (w_flights w)) else ∅.

Definition set_flight (w : World) (k : Z) (st : SessionState) (f : Flight) (x : Exchange)
    (t : Task) (c : bool) : World :=
  MkWorld st (<[k := MkFlight (f_epoch f) x t c (f_behind f)]> (w_flights w))
          (w_undecoded w) (w_conns w).

(** One step of a session; the flag says whether it woke the held changes. *)
Inductive session_step (w : World) : bool → World → Prop :=
(** A stream is accepted: it holds the session ([handle_connection]). *)
| ss_accept :
    session_step w false
      (MkWorld (hold (w_st w)) (w_flights w) (w_undecoded w + 1) (w_conns w))
(** An accepted stream ends undecoded: its hold is let go. *)
| ss_undecodable :
    0 < w_undecoded w →
    session_step w false
      (MkWorld (release_hold (w_st w)) (w_flights w) (w_undecoded w - 1) (w_conns w))
(** A request of the connection attached at [e] is decoded and fenced. *)
| ss_decode k e ordered x fence :
    0 < w_undecoded w → w_flights w !! k = None →
    1 ≤ e ≤ epoch (s_att (w_st w)) →
    fencing (w_st w) e (Exchange_new ordered) = (x, fence) →
    session_step w false
      (MkWorld (w_st w)
         (<[k := MkFlight e x (if 0 <? fence then InHeld else Queued) false
                          (fence_set w e ordered)]> (w_flights w))
         (w_undecoded w - 1) (w_conns w))
(** A held change looks whether it drained. *)
| ss_drain k f st x r :
    w_flights w !! k = Some f → f_task f = InHeld →
    drained (w_st w) (f_epoch f) (f_x f) = Some (st, x, r) →
    session_step w false
      (set_flight w k st f x
         (match r with Some true => Queued | Some false => Gone | None => InHeld end)
         (f_cancel f))
(** The client gives up on a held change. *)
| ss_cancel_held k f st x v :
    w_flights w !! k = Some f → f_task f = InHeld →
    abandon (w_st w) (f_epoch f) (f_x f) = Some (st, x, v) →
    session_step w false (set_flight w k st f x Gone true)
(** A held change's stream ends. *)
| ss_stopped k f st x :
    w_flights w !! k = Some f → f_task f = InHeld →
    stopped (w_st w) (f_x f) = Some (st, x) →
    session_step w false (set_flight w k st f x Gone (f_cancel f))
(** The closure runs [begin]. *)
| ss_begin k f st x guarded :
    w_flights w !! k = Some f → f_task f = Queued →
    begin_ (w_st w) (f_epoch f) (f_x f) = Some (st, x, guarded) →
    session_step w false
      (set_flight w k st f x (if guarded : bool then Guarded else Returned) (f_cancel f))
(** The client gives up on a change whose closure is spawned. *)
| ss_cancel k f st x v :
    w_flights w !! k = Some f → x_ordered (f_x f) = true → f_cancel f = false →
    f_task f = Queued ∨ f_task f = Guarded ∨ f_task f = Returned →
    abandon (w_st w) (f_epoch f) (f_x f) = Some (st, x, v) →
    session_step w false (set_flight w k st f x (f_task f) true)
(** The closure's guard is dropped. *)
| ss_finish k f st x wakes :
    w_flights w !! k = Some f → f_task f = Guarded →
    guard_drop (w_st w) (f_epoch f) (f_x f) = (st, x, wakes) →
    session_step w wakes (set_flight w k st f x Returned (f_cancel f))
(** The task sees the closure's result. *)
| ss_join k f :
    w_flights w !! k = Some f → f_task f = Returned →
    session_step w false (set_flight w k (w_st w) f (f_x f) Gone (f_cancel f))
(** A newer connection resumes the session, waking the changes held on the one
    it supersedes. *)
| ss_resume :
    session_step w true
      (MkWorld (with_att (w_st w) (take_over (s_att (w_st w)))) (w_flights w)
               (w_undecoded w) (w_conns w))
(** The connection of epoch [e] attaches, holding the session. *)
| ss_attach e addr :
    1 ≤ e ≤ epoch (s_att (w_st w)) → e ∉ w_conns w →
    session_step w false
      (MkWorld (hold (with_att (w_st w) (attach_remote (s_att (w_st w)) e addr)))
               (w_flights w) (w_undecoded w) ({[e]} ∪ w_conns w))
(** A connection ends; the session is detached if it is in the table. *)
| ss_conn_end e now (in_table : bool) :
    e ∈ w_conns w →
    session_step w false
      (MkWorld (release_hold
                  (if in_table
                   then with_att (w_st w) (detach_att (s_att (w_st w)) e now) else w_st w))
               (w_flights w) (w_undecoded w) (w_conns w ∖ {[e]})).

Definition step (w w' : World) : Prop := ∃ wakes, session_step w wakes w'.

(** A session just created ([Sessions::create]). *)
Definition session_new (id : Z) (token : list byte) (share : Z) : SessionState :=
  MkSession id token (Handles_new share) (MkAtt 1 None None 0 0 0) 0.
Definition world_new (id : Z) (token : list byte) (share : Z) : World :=
  MkWorld (session_new id token share) ∅ 0 ∅.

Definition reachable (w : World) : Prop :=
  ∃ id token share, rtc step (world_new id token share) w.

(** ** Induction over the reachable states *)

Lemma reachable_ind (P : World → Prop) :
  (∀ id token share, P (world_new id token share)) →
  (∀ w b w', reachable w → P w → session_step w b w' → P w') →
  ∀ w, reachable w → P w.
Proof.
  intros Hnew Hstep w (id & token & share & Hr).
  revert w Hr. apply rtc_ind_r; [apply Hnew|].
  intros w w' Hr [b Hs] IH.
  apply (Hstep w b w'); [by exists id, token, share|done..].
Qed.

(** ** Where a task stands and the phase of its exchange *)

Definition flight_ok (e : Z) (f : Flight) : Prop :=
  let x := f_x f in
  1 ≤ f_epoch f ≤ e ∧ x_holder x = negb (is_terminal (x_phase x)) ∧
  match f_task f with
  | InHeld => x_phase x = Held ∧ x_ordered x = true ∧ f_cancel f = false
  | Queued => if f_cancel f then x_phase x = Cancelled ∧ x_ordered x = true
              else x_phase x = Ready
  | Guarded => if f_cancel f then x_phase x = Abandoned ∧ x_ordered x = true
               else x_phase x = Running
  | Returned => is_terminal (x_phase x) = true
                ∧ (f_cancel f = false → x_phase x = Finished ∨ x_phase x = Superseded)
  | Gone => is_terminal (x_phase x) = true
  end.

Definition flights_ok (w : World) : Prop :=
  1 ≤ epoch (s_att (w_st w))
  ∧ ∀ k f, w_flights w !! k = Some f → flight_ok (epoch (s_att (w_st w))) f.

(** ** What a step does

    Every step either leaves the requests alone, decodes one, moves one along
    its phases with the counts it is part of, or resumes the session. *)

(** A change counted in [running], [abandoned] and [running_older]. *)
Definition run_now (e : Z) (f : Flight) : bool :=
  x_ordered (f_x f) && is_active (x_phase (f_x f)) && (f_epoch f =? e).
Definition aband_now (e : Z) (f : Flight) : bool :=
  x_ordered (f_x f) && bool_decide (x_phase (f_x f) = Abandoned) && (f_epoch f =? e).
Definition run_older (e : Z) (f : Flight) : bool :=
  x_ordered (f_x f) && is_active (x_phase (f_x f)) && (f_epoch f <? e).

(** The moves of an exchange between phases, with what each requires of the
    connection and of the fence. *)
Inductive phase_move (a : Attachment) (e : Z) (ordered : bool)
  : PhaseExchange → PhaseExchange → Prop :=
| pm_stay p : phase_move a e ordered p p
| pm_ready : epoch a = e → running_older a + abandoned a = 0 →
    phase_move a e ordered Held Ready
| pm_end_held p : p = Cancelled ∨ p = Superseded ∨ p = Dropped →
    phase_move a e ordered Held p
| pm_run : (ordered = true → epoch a = e) → phase_move a e ordered Ready Running
| pm_end_ready p : p = Cancelled ∨ p = Superseded → phase_move a e ordered Ready p
| pm_abandon : phase_move a e ordered Running Abandoned
| pm_finish p : is_active p = true → phase_move a e ordered p Finished.

(** The changes a held one waits for are over. *)
Definition releases_fence (a a' : Attachment) : Prop :=
  0 < running_older a + abandoned a ∧ running_older a' + abandoned a' = 0.

(** [f] becomes [f'] and the session [st]. *)
Record move (w : World) (b : bool) (k : Z) (f : Flight) (st : SessionState) (f' : Flight) : Prop := {
  mv_lookup : w_flights w !! k = Some f;
  mv_fepoch : f_epoch f' = f_epoch f;
  mv_behind : f_behind f' = f_behind f;
  mv_ordered : x_ordered (f_x f') = x_ordered (f_x f);
  mv_ok : flight_ok (epoch (s_att (w_st w))) f';
  mv_phase : phase_move (s_att (w_st w)) (f_epoch f) (x_ordered (f_x f))
                        (x_phase (f_x f)) (x_phase (f_x f'));
  mv_epoch : epoch (s_att st) = epoch (s_att (w_st w));
  mv_run : running (s_att st) = running (s_att (w_st w))
             - b2z (run_now (epoch (s_att st)) f) + b2z (run_now (epoch (s_att st)) f');
  mv_aband : abandoned (s_att st) = abandoned (s_att (w_st w))
             - b2z (aband_now (epoch (s_att st)) f) + b2z (aband_now (epoch (s_att st)) f');
  mv_older : running_older (s_att st) = running_older (s_att (w_st w))
             - b2z (run_older (epoch (s_att st)) f) + b2z (run_older (epoch (s_att st)) f');
  mv_wake : 0 ≤ abandoned (s_att st) → 0 ≤ running_older (s_att st) →
             releases_fence (s_att (w_st w)) (s_att st) → b = true;
  mv_holders : s_holders st = s_holders (w_st w)
             - b2z (x_holder (f_x f)) + b2z (x_holder (f_x f')) }.

Inductive effect (w : World) (b : bool) : World → Prop :=
| eff_env st u c :
    epoch (s_att st) = epoch (s_att (w_st w)) →
    running (s_att st) = running (s_att (w_st w)) →
    abandoned (s_att st) = abandoned (s_att (w_st w)) →
    running_older (s_att st) = running_older (s_att (w_st w)) →
    s_holders st = s_holders (w_st w) + (u - w_undecoded w)
                   + (Z.of_nat (size c) - Z.of_nat (size (w_conns w))) →
    effect w b (MkWorld st (w_flights w) u c)
| eff_new k f ordered fence :
    w_flights w !! k = None →
    fencing (w_st w) (f_epoch f) (Exchange_new ordered) = (f_x f, fence) →
    flight_ok (epoch (s_att (w_st w))) f →
    f_behind f = fence_set w (f_epoch f) ordered →
    effect w b (MkWorld (w_st w) (<[k := f]> (w_flights w)) (w_undecoded w - 1) (w_conns w))
| eff_move k f st f' :
    move w b k f st f' →
    effect w b (MkWorld st (<[k := f']> (w_flights w)) (w_undecoded w) (w_conns w))
| eff_resume :
    b = true →
    effect w b (MkWorld (with_att (w_st w) (take_over (s_att (w_st w)))) (w_flights w)
                        (w_undecoded w) (w_conns w)).

(** Split a count by whether the epochs agree, then compare. *)
Ltac epoch_cases :=
  repeat match goal with
    | |- context [?a =? ?b] => destruct (Z.eqb_spec a b); simpl
    | H : context [?a =? ?b] |- _ => destruct (Z.eqb_spec a b); simpl in H
    | |- context [?a <? ?b] => destruct (Z.ltb_spec a b); simpl
    end.

Ltac solve_move :=
  constructor; simpl; unfold run_now, aband_now, run_older, flight_ok, releases_fence; simpl;
  epoch_cases; simplify_eq/=; try done; try lia;
  try (repeat split; done || lia || naive_solver).

(** Take a request of a good world apart by its task. *)
Ltac open_flight :=
  match goal with
  | Hok : flights_ok ?w, Hk : w_flights ?w !! ?k = Some ?f |- _ =>
      let He := fresh "He" in let Hh := fresh "Hh" in let Ht := fresh "Ht" in
      pose proof (proj2 Hok _ _ Hk) as (He & Hh & Ht);
      destruct f as [fe [o p h] t c bh]; simpl in *; simplify_eq/=
  end.

Lemma drain_move w k f st x r :
  flights_ok w → w_flights w !! k = Some f → f_task f = InHeld →
  drained (w_st w) (f_epoch f) (f_x f) = Some (st, x, r) →
  move w false k f st
    (MkFlight (f_epoch f) x
       (match r with Some true => Queued | Some false => Gone | None => InHeld end)
       (f_cancel f) (f_behind f)).
Proof.
  intros Hok Hk Ht Hop. open_flight. destruct Ht0 as (-> & -> & ->).
  unfold drained, Exchange_end, release_hold in Hop; simpl in Hop.
  epoch_cases; simplify_eq/=; solve_move; eauto using phase_move.
Qed.

Lemma cancel_held_move w k f st x v :
  flights_ok w → w_flights w !! k = Some f → f_task f = InHeld →
  abandon (w_st w) (f_epoch f) (f_x f) = Some (st, x, v) →
  move w false k f st (MkFlight (f_epoch f) x Gone true (f_behind f)).
Proof.
  intros Hok Hk Ht Hop. open_flight. destruct Ht0 as (-> & -> & ->).
  unfold abandon, Exchange_end, release_hold in Hop; simplify_eq/=.
  solve_move; eauto using phase_move.
Qed.

Lemma stopped_move w k f st x :
  flights_ok w → w_flights w !! k = Some f → f_task f = InHeld →
  stopped (w_st w) (f_x f) = Some (st, x) →
  move w false k f st (MkFlight (f_epoch f) x Gone (f_cancel f) (f_behind f)).
Proof.
  intros Hok Hk Ht Hop. open_flight. destruct Ht0 as (-> & -> & ->).
  unfold stopped, Exchange_end, release_hold in Hop; simplify_eq/=.
  solve_move; eauto using phase_move.
Qed.

Lemma begin_move w k f st x g :
  flights_ok w → w_flights w !! k = Some f → f_task f = Queued →
  begin_ (w_st w) (f_epoch f) (f_x f) = Some (st, x, g) →
  move w false k f st
    (MkFlight (f_epoch f) x (if g then Guarded else Returned) (f_cancel f) (f_behind f)).
Proof.
  intros Hok Hk Ht Hop. open_flight. unfold begin_, Exchange_end, release_hold in Hop.
  destruct c; [destruct Ht0 as [-> ->]|subst p]; simpl in *.
  - simplify_eq/=. solve_move; eauto using phase_move.
  - destruct o; simpl in *; [|simplify_eq/=; solve_move; by apply pm_run].
    epoch_cases; simplify_eq/=; solve_move; eauto using phase_move.
Qed.

Lemma cancel_move w k f st x v :
  flights_ok w → w_flights w !! k = Some f →
  x_ordered (f_x f) = true → f_cancel f = false →
  f_task f = Queued ∨ f_task f = Guarded ∨ f_task f = Returned →
  abandon (w_st w) (f_epoch f) (f_x f) = Some (st, x, v) →
  move w false k f st (MkFlight (f_epoch f) x (f_task f) true (f_behind f)).
Proof.
  intros Hok Hk Ho Hc Ht Hop. open_flight. unfold abandon, Exchange_end, release_hold in Hop.
  destruct Ht as [-> | [-> | ->]]; simpl in *.
  - subst p. simplify_eq/=. solve_move; eauto using phase_move.
  - subst p. epoch_cases; simplify_eq/=; solve_move; eauto using phase_move.
  - destruct Ht0 as [_ Hp]. destruct Hp as [-> | ->]; [done| |]; simplify_eq/=;
      solve_move; eauto using phase_move.
Qed.

Lemma finish_move w k f st x wakes :
  flights_ok w → w_flights w !! k = Some f → f_task f = Guarded →
  guard_drop (w_st w) (f_epoch f) (f_x f) = (st, x, wakes) →
  move w wakes k f st (MkFlight (f_epoch f) x Returned (f_cancel f) (f_behind f)).
Proof.
  intros Hok Hk Ht Hop. open_flight. unfold guard_drop, Exchange_end, release_hold in Hop.
  destruct c; [destruct Ht0 as [-> ->]|subst p]; simpl in *.
  - epoch_cases; simplify_eq/=; solve_move; eauto using phase_move.
  - destruct o; simpl in *; [|simplify_eq/=; solve_move; eauto using phase_move].
    epoch_cases; simplify_eq/=; solve_move; eauto using phase_move.
Qed.

Lemma join_move w k f :
  flights_ok w → w_flights w !! k = Some f → f_task f = Returned →
  move w false k f (w_st w) (MkFlight (f_epoch f) (f_x f) Gone (f_cancel f) (f_behind f)).
Proof.
  intros Hok Hk Ht. open_flight. destruct Ht0 as [Hp _].
  constructor; simpl; try (done || apply pm_stay);
    unfold flight_ok, run_now, aband_now, run_older, releases_fence; simpl; try lia; done.
Qed.

Lemma fencing_new st e ordered x fence :
  fencing st e (Exchange_new ordered) = (x, fence) →
  x_ordered x = ordered ∧ x_holder x = true
  ∧ x_phase x = (if 0 <? fence then Held else Ready)
  ∧ (0 < fence → ordered = true ∧ epoch (s_att st) = e
       ∧ fence = running_older (s_att st) + abandoned (s_att st))
  ∧ (ordered = true → epoch (s_att st) = e →
       fence = running_older (s_att st) + abandoned (s_att st)).
Proof.
  unfold fencing. destruct ordered; simpl; intros H; simplify_eq/=.
  - epoch_cases; repeat split; intros; try done || lia.
  - repeat split; intros; done || lia.
Qed.

Lemma step_effect w b w' : flights_ok w → session_step w b w' → effect w b w'.
Proof.
  intros Hok Hs. destruct Hs; unfold set_flight;
    try (eapply eff_move; eauto using drain_move, cancel_held_move, stopped_move,
           begin_move, cancel_move, finish_move, join_move).
  - apply eff_env; simpl; lia.
  - apply eff_env; simpl; lia.
  - pose proof (fencing_new _ _ _ _ _ H2) as (Ho & Hh & Hp & Hf & _).
    eapply (eff_new w false k (MkFlight e x (if 0 <? fence then InHeld else Queued) false
              (fence_set w e ordered))); simpl; try done.
    unfold flight_ok; simpl. rewrite Hh, Hp. destruct (Z.ltb_spec 0 fence); simpl;
      repeat split; try done; try lia. destruct Hf as (-> & _); done.
  - by apply eff_resume.
  - apply eff_env; unfold attach_remote; simpl; try by destruct (_ =? _).
    rewrite size_union, size_singleton by set_solver. lia.
  - apply eff_env; unfold release_hold, detach_att; destruct in_table; simpl;
      try (done || by destruct (_ =? _)).
    all: rewrite size_difference, size_singleton by set_solver;
      assert (size (w_conns w) ≠ 0%nat) by (apply size_non_empty_iff; set_solver); lia.
Qed.
