(* ===== verification/SessionInv.v ===== *)
(** * What the session's ordering guarantees

    Invariants of every reachable state of [Session.session_step], and the
    safety properties they give: the counters are exactly the changes they
    stand for, a change runs only after everything it was fenced behind, the
    changes of two connections never run at once, a change of a superseded
    connection never begins, no assertion of the code fails, and no held change
    misses its wake-up. *)

From S2P Require Import Prelude Types Msg Perf ServerHandles Session.

(** ** What the properties speak of *)

(** The fence a change arriving now on the current connection is given. *)
Definition fence_now (w : World) : Z :=
  (fencing (w_st w) (epoch (s_att (w_st w))) (Exchange_new true)).2.

(** A change that has not run: neither running nor finished. *)
Definition unrun (f : Flight) : Prop :=
  is_active (x_phase (f_x f)) = false ∧ x_phase (f_x f) ≠ Finished.

(** What a held change's task is told when it looks: to go on waiting, or an
    answer. *)
Definition told_to_wait (w : World) (f : Flight) : Prop :=
  ∃ st x, drained (w_st w) (f_epoch f) (f_x f) = Some (st, x, None).
Definition told_to_go_on (w : World) (f : Flight) : Prop :=
  ∃ st x r, drained (w_st w) (f_epoch f) (f_x f) = Some (st, x, Some r).

(** No counter of the session has gone below zero. *)
Definition no_underflow (st : SessionState) : Prop :=
  0 ≤ running (s_att st) ∧ 0 ≤ abandoned (s_att st)
  ∧ 0 ≤ running_older (s_att st) ∧ 0 ≤ s_holders st.

(** Everything that holds the session: streams accepted and not decoded, requests
    that have not ended, connections attached. *)
Definition holds_under_way (w : World) : Z :=
  w_undecoded w + map_count (λ f, x_holder (f_x f)) (w_flights w)
  + Z.of_nat (size (w_conns w)).

(** ** Tasks and phases agree *)

Lemma flight_ok_mono e e' f : e ≤ e' → flight_ok e f → flight_ok e' f.
Proof. unfold flight_ok. intros ? (He & ?). split; [lia|done]. Qed.

Lemma flights_ok_step w b w' :
  flights_ok w → session_step w b w' → flights_ok w'.
Proof.
  intros Hok Hs. destruct (step_effect w b w' Hok Hs) as
    [st u c He _ _ _ _|k f o fe Hk _ Hf _|k f st f' Hm|]; destruct Hok as [H1 Hok].
  - split; simpl; rewrite He; done.
  - split; simpl; [done|]. intros j g Hj. split_lookups; eauto.
  - split; simpl; rewrite (mv_epoch _ _ _ _ _ _ Hm); [done|].
    intros j g Hj. split_lookups; eauto using mv_ok.
  - split; simpl; [lia|]. intros j g Hj. eapply flight_ok_mono; [|by eapply Hok]. lia.
Qed.

Lemma reachable_ok w : reachable w → flights_ok w.
Proof.
  revert w. apply reachable_ind.
  - intros. split; simpl; [lia|]. intros k f Hk. by rewrite lookup_empty in Hk.
  - eauto using flights_ok_step.
Qed.

Lemma reachable_step w b w' : reachable w → session_step w b w' → reachable w'.
Proof.
  intros (id & tok & sh & Hr) Hs. exists id, tok, sh.
  eapply rtc_r; [exact Hr|]. by exists b.
Qed.

Lemma reachable_effect w b w' : reachable w → session_step w b w' → effect w b w'.
Proof. intros Hr. apply step_effect, reachable_ok, Hr. Qed.

Lemma reachable_new id token share : reachable (world_new id token share).
Proof. exists id, token, share. apply rtc_refl. Qed.

#[export] Hint Resolve reachable_ok reachable_step reachable_effect reachable_new : jfs.

(** Induction over reachable states by the effect of a step. *)
Lemma reachable_effect_ind (P : World → Prop) :
  (∀ id token share, P (world_new id token share)) →
  (∀ w b w', reachable w → P w → effect w b w' → P w') →
  ∀ w, reachable w → P w.
Proof.
  intros Hnew Hstep. apply reachable_ind; [done|]. eauto with jfs.
Qed.

(** ** The counters are exact *)

Definition counts_ok (w : World) : Prop :=
  let a := s_att (w_st w) in
  running a = map_count (run_now (epoch a)) (w_flights w)
  ∧ abandoned a = map_count (aband_now (epoch a)) (w_flights w)
  ∧ running_older a = map_count (run_older (epoch a)) (w_flights w).

Lemma fenced_inactive st e o x fence :
  fencing st e (Exchange_new o) = (x, fence) → is_active (x_phase x) = false.
Proof.
  intros Hf. apply fencing_new in Hf as (_ & _ & -> & _). by destruct (0 <? fence).
Qed.

Lemma inactive_uncounted e f :
  is_active (x_phase (f_x f)) = false →
  run_now e f = false ∧ aband_now e f = false ∧ run_older e f = false.
Proof.
  unfold run_now, aband_now, run_older. intros Hp. rewrite Hp.
  destruct (x_ordered (f_x f)), (x_phase (f_x f)); simpl in *; try done.
Qed.

Lemma take_over_counts (m : gmap Z Flight) e :
  (∀ k f, m !! k = Some f → f_epoch f ≤ e) →
  map_count (run_now (e + 1)) m = 0 ∧ map_count (aband_now (e + 1)) m = 0
  ∧ map_count (run_older (e + 1)) m
    = map_count (run_older e) m + map_count (run_now e) m.
Proof.
  intros He. unfold map_count. split; [|split].
  - apply map_sum_zero. intros k f Hk. specialize (He k f Hk). unfold run_now.
    replace (f_epoch f =? e + 1) with false by lia. by rewrite andb_false_r.
  - apply map_sum_zero. intros k f Hk. specialize (He k f Hk). unfold aband_now.
    replace (f_epoch f =? e + 1) with false by lia. by rewrite andb_false_r.
  - rewrite <- map_sum_add. apply map_sum_ext. intros k f Hk. specialize (He k f Hk).
    unfold run_older, run_now. destruct (x_ordered _ && is_active _); simpl; [|done].
    destruct (Z.ltb_spec (f_epoch f) (e + 1)), (Z.ltb_spec (f_epoch f) e),
      (Z.eqb_spec (f_epoch f) e); simpl; lia.
Qed.

Lemma reachable_counts w : reachable w → counts_ok w.
Proof.
  revert w. apply reachable_effect_ind; [done|].
  intros w b w' Hr (Hn & Ha & Ho) Heff.
  pose proof (reachable_ok w Hr) as [_ Hok]. unfold counts_ok.
  destruct Heff as [st u c He1 He2 He3 He4 _|k f o fe Hk Hf _ _|k f st f' Hm|_]; simpl.
  - by rewrite He1, He2, He3, He4.
  - apply fenced_inactive, inactive_uncounted with (e := epoch (s_att (w_st w))) in Hf
      as (Hf1 & Hf2 & Hf3).
    rewrite !map_count_insert_None, Hf1, Hf2, Hf3 by done. simpl. lia.
  - destruct Hm as [Hl _ _ _ _ _ He Hr' Ha' Ho' _ _].
    rewrite He in *. rewrite !(map_count_insert_Some _ _ _ _ _ Hl). lia.
  - destruct (take_over_counts (w_flights w) (epoch (s_att (w_st w)))) as (-> & -> & ->).
    + intros k f Hk. destruct (Hok k f Hk) as (? & _). lia.
    + lia.
Qed.

(** A change a new one must wait for is in one of the two fencing counters. *)
Lemma waits_for_counted w k f :
  reachable w → w_flights w !! k = Some f →
  waits_for (epoch (s_att (w_st w))) f = true →
  0 < running_older (s_att (w_st w)) + abandoned (s_att (w_st w)).
Proof.
  intros Hr Hk Hw. destruct (reachable_counts w Hr) as (_ & -> & ->).
  destruct (reachable_ok w Hr) as [_ Hok]. destruct (Hok k f Hk) as (He & _).
  unfold waits_for in Hw.
  apply andb_true_iff in Hw as [[Ho Ha]%andb_true_iff Hw].
  pose proof (map_count_nonneg (run_older (epoch (s_att (w_st w)))) (w_flights w)).
  pose proof (map_count_nonneg (aband_now (epoch (s_att (w_st w)))) (w_flights w)).
  destruct (Z.ltb_spec (f_epoch f) (epoch (s_att (w_st w)))) as [Hlt|Hge].
  - assert (1 ≤ map_count (run_older (epoch (s_att (w_st w)))) (w_flights w)); [|lia].
    eapply map_count_pos; [done|]. unfold run_older. rewrite Ho, Ha. simpl. lia.
  - assert (1 ≤ map_count (aband_now (epoch (s_att (w_st w)))) (w_flights w)); [|lia].
    eapply map_count_pos; [done|]. unfold aband_now. simpl in Hw. rewrite Ho, Hw. simpl. lia.
Qed.

Lemma no_fence_no_waits w k f :
  reachable w → w_flights w !! k = Some f →
  running_older (s_att (w_st w)) + abandoned (s_att (w_st w)) = 0 →
  waits_for (epoch (s_att (w_st w))) f = false.
Proof.
  intros Hr Hk H0. destruct (waits_for _ f) eqn:Hw; [|done].
  pose proof (waits_for_counted w k f Hr Hk Hw). lia.
Qed.

Lemma elem_of_fence_set w e o y :
  y ∈ fence_set w e o →
  o = true ∧ epoch (s_att (w_st w)) = e
  ∧ ∃ g, w_flights w !! y = Some g ∧ waits_for e g = true.
Proof.
  unfold fence_set. destruct (o && (epoch (s_att (w_st w)) =? e)) eqn:Ho; [|set_solver].
  apply andb_true_iff in Ho as [-> He]. intros [g Hg]%elem_of_dom.
  apply map_lookup_filter_Some in Hg as [Hg Hw]. simpl in Hw.
  split; [done|]. split; [lia|]. eauto.
Qed.

(** ** The fence *)

Definition finished (w : World) (y : Z) : Prop :=
  ∃ g, w_flights w !! y = Some g ∧ x_phase (f_x g) = Finished.

Definition waited (w : World) (y : Z) : Prop :=
  ∃ g, w_flights w !! y = Some g
       ∧ (x_phase (f_x g) = Finished ∨ waits_for (epoch (s_att (w_st w))) g = true).

(** The phases of a change past its fence. *)
Definition is_past (p : PhaseExchange) : bool :=
  match p with Ready | Running | Abandoned | Finished => true | _ => false end.

Definition behind_ok (w : World) : Prop :=
  ∀ k f, w_flights w !! k = Some f → x_ordered (f_x f) = true →
    (is_past (x_phase (f_x f)) = true → ∀ y, y ∈ f_behind f → finished w y)
    ∧ (x_phase (f_x f) = Held → f_epoch f = epoch (s_att (w_st w)) →
         ∀ y, y ∈ f_behind f → waited w y).

(** Moving a request keeps the finished finished and the waited for waited for. *)
Lemma move_phase_keeps w b k f st f' :
  move w b k f st f' →
  (x_phase (f_x f) = Finished → x_phase (f_x f') = Finished)
  ∧ (∀ e, waits_for e f = true → x_phase (f_x f') = Finished ∨ waits_for e f' = true).
Proof.
  intros [_ Hfe _ Ho _ Hp _ _ _ _ _ _]. unfold waits_for. rewrite Hfe, Ho. split.
  - intros Hf. rewrite Hf in Hp. by inversion Hp.
  - intros e Hw. apply andb_true_iff in Hw as [[-> Ha]%andb_true_iff Hw].
    destruct Hp; simpl in *; try done; eauto.
    + right. by rewrite Ha, Hw.
    + right. apply orb_true_r.
Qed.

Lemma move_keeps_finished w b k f st f' u c y :
  move w b k f st f' → finished w y →
  finished (MkWorld st (<[k:=f']> (w_flights w)) u c) y.
Proof.
  intros Hm (g & Hg & Hp). unfold finished; simpl.
  destruct (decide (k = y)) as [->|Hne].
  - rewrite (mv_lookup _ _ _ _ _ _ Hm) in Hg. simplify_eq.
    exists f'. rewrite lookup_insert_eq. split; [done|].
    by apply (move_phase_keeps _ _ _ _ _ _ Hm).
  - exists g. by rewrite lookup_insert_ne.
Qed.

Lemma move_keeps_waited w b k f st f' u c y :
  move w b k f st f' → waited w y →
  waited (MkWorld st (<[k:=f']> (w_flights w)) u c) y.
Proof.
  intros Hm (g & Hg & Hp). unfold waited; simpl. rewrite (mv_epoch _ _ _ _ _ _ Hm).
  destruct (decide (k = y)) as [->|Hne].
  - rewrite (mv_lookup _ _ _ _ _ _ Hm) in Hg. simplify_eq.
    exists f'. rewrite lookup_insert_eq. split; [done|].
    destruct (move_phase_keeps _ _ _ _ _ _ Hm) as [H1 H2].
    destruct Hp as [Hp|Hp]; eauto.
  - exists g. by rewrite lookup_insert_ne.
Qed.

(** Once nothing is fenced, everything waited for is finished. *)
Lemma waited_finished w y :
  reachable w → running_older (s_att (w_st w)) + abandoned (s_att (w_st w)) = 0 →
  waited w y → finished w y.
Proof.
  intros Hr H0 (g & Hg & [Hp|Hp]); [by exists g|].
  by rewrite (no_fence_no_waits w y g Hr Hg H0) in Hp.
Qed.

Lemma behind_ok_new w k f ordered fence :
  reachable w → behind_ok w → w_flights w !! k = None →
  fencing (w_st w) (f_epoch f) (Exchange_new ordered) = (f_x f, fence) →
  f_behind f = fence_set w (f_epoch f) ordered →
  behind_ok (MkWorld (w_st w) (<[k := f]> (w_flights w)) (w_undecoded w - 1) (w_conns w)).
Proof.
  intros Hr Hb Hk Hf Hbh.
  set (w' := MkWorld _ _ _ _).
  assert (∀ y, (finished w y → finished w' y) ∧ (waited w y → waited w' y)) as Hkeep.
  { intros y. split; intros (g & Hg & Hp); exists g; simpl;
      (rewrite lookup_insert_ne; [done|by intros ->; rewrite Hk in Hg]). }
  intros j g Hj Ho; simpl in *. split_lookups.
  - pose proof (fencing_new _ _ _ _ _ Hf) as (_ & _ & Hp & _ & Hz). split.
    + intros Hpast y Hy. rewrite Hbh in Hy.
      destruct (elem_of_fence_set _ _ _ _ Hy) as (-> & He & g' & Hg & Hw).
      rewrite Hp in Hpast. destruct (Z.ltb_spec 0 fence); [done|].
      rewrite <- He in Hw. pose proof (waits_for_counted w y g' Hr Hg Hw).
      specialize (Hz eq_refl He). lia.
    + intros _ He y Hy. rewrite Hbh in Hy.
      destruct (elem_of_fence_set _ _ _ _ Hy) as (-> & He' & g' & Hg & Hw).
      apply Hkeep. exists g'. split; [done|]. right. by rewrite He'.
  - destruct (Hb j g Hj Ho) as [H1 H2]. split.
    + intros Hpast y Hy. apply Hkeep. eauto.
    + intros Hh He y Hy. apply Hkeep. eauto.
Qed.

Lemma phase_move_past a e o p p' :
  phase_move a e o p p' → is_past p' = true →
  is_past p = true ∨ (p = Held ∧ e = epoch a ∧ running_older a + abandoned a = 0).
Proof.
  destruct 1 as [p|Hc H0|p Hp|Hc|p Hp| |p Hp]; eauto; intros Hpast.
  - by destruct Hp as [-> | [-> | ->]].
  - destruct p; simpl in *; done || by left.
Qed.

Lemma phase_move_to_held a e o p : phase_move a e o p Held → p = Held.
Proof. inversion 1; naive_solver. Qed.

Lemma behind_ok_move w b k f st f' u c :
  reachable w → behind_ok w → move w b k f st f' →
  behind_ok (MkWorld st (<[k := f']> (w_flights w)) u c).
Proof.
  intros Hr Hb Hm j g Hj Ho. simpl in *. rewrite (mv_epoch _ _ _ _ _ _ Hm).
  split_lookups.
  - pose proof Hm as [Hl Hfe Hbh Hord _ Hp _ _ _ _ _ _].
    assert (x_ordered (f_x f) = true) as Hof by congruence.
    destruct (Hb _ f Hl Hof) as [H1 H2]. rewrite Hbh, Hfe. split.
    + intros Hpast y Hy. eapply move_keeps_finished; [exact Hm|].
      destruct (phase_move_past _ _ _ _ _ Hp Hpast) as [?|(? & ? & ?)]; eauto using waited_finished.
    + intros Hh He' y Hy. eapply move_keeps_waited; [exact Hm|].
      rewrite Hh in Hp. apply H2; [by eapply phase_move_to_held|congruence|done].
  - destruct (Hb j g Hj Ho) as [H1 H2]. split; intros; eauto using move_keeps_finished, move_keeps_waited.
Qed.

Lemma reachable_behind w : reachable w → behind_ok w.
Proof.
  revert w. apply reachable_effect_ind.
  { intros id tok sh k f Hk. simpl in Hk. by rewrite lookup_empty in Hk. }
  intros w b w' Hr Hb Heff.
  destruct Heff as [st u c He _ _ _ _|k f o fe Hk Hf _ Hbh|k f st f' Hm|_].
  - intros k f Hk Ho. destruct (Hb k f Hk Ho) as [H1 H2]. simpl in *.
    unfold waited, finished in *; simpl in *. rewrite He. done.
  - eauto using behind_ok_new.
  - eauto using behind_ok_move.
  - intros k f Hk Ho. destruct (Hb k f Hk Ho) as [H1 _]. split; [done|].
    simpl in *. intros _ He. destruct (reachable_ok w Hr) as [_ Hok].
    destruct (Hok k f Hk) as (? & _). lia.
Qed.

(** ** One connection's changes at a time *)

Definition runs (f : Flight) : bool := x_ordered (f_x f) && is_active (x_phase (f_x f)).

Definition one_epoch (w : World) : Prop :=
  (∀ j k f g, w_flights w !! j = Some f → w_flights w !! k = Some g →
     runs f = true → runs g = true → f_epoch f = f_epoch g)
  ∧ (∀ j k f g, w_flights w !! j = Some f → w_flights w !! k = Some g →
       runs f = true → x_ordered (f_x g) = true → x_phase (f_x g) = Ready →
       f_epoch g = epoch (s_att (w_st w)) → f_epoch f = f_epoch g).

Lemma no_fence_current w j f :
  reachable w → running_older (s_att (w_st w)) + abandoned (s_att (w_st w)) = 0 →
  w_flights w !! j = Some f → runs f = true → f_epoch f = epoch (s_att (w_st w)).
Proof.
  intros Hr H0 Hj Hf. pose proof (no_fence_no_waits w j f Hr Hj H0) as Hw.
  destruct (reachable_ok w Hr) as [_ Hok]. destruct (Hok j f Hj) as (He & _).
  unfold runs in Hf. unfold waits_for in Hw. rewrite Hf in Hw. simpl in Hw. lia.
Qed.

Lemma phase_move_to_active a e o p p' :
  phase_move a e o p p' → is_active p' = true →
  is_active p = true ∨ (p = Ready ∧ (o = true → epoch a = e)).
Proof. destruct 1; naive_solver. Qed.

Lemma phase_move_to_ready a e o p :
  phase_move a e o p Ready →
  p = Ready ∨ (p = Held ∧ epoch a = e ∧ running_older a + abandoned a = 0).
Proof. inversion 1; naive_solver. Qed.

Lemma one_epoch_move w b k f st f' u c :
  reachable w → one_epoch w → move w b k f st f' →
  one_epoch (MkWorld st (<[k := f']> (w_flights w)) u c).
Proof.
  intros Hr [Hrun Hrdy] [Hl Hfe _ Hord _ Hp He _ _ _ _ _].
  assert (runs f' = true → runs f = true
            ∨ (x_ordered (f_x f) = true ∧ x_phase (f_x f) = Ready
               ∧ f_epoch f = epoch (s_att (w_st w)))) as Hact.
  { unfold runs. rewrite Hord. intros [Ho Ha]%andb_true_iff.
    destruct (phase_move_to_active _ _ _ _ _ Hp Ha) as [Ha'|[Hrd Hc]].
    - left. by rewrite Ho, Ha'.
    - right. split; [done|]. split; [done|]. symmetry. by apply Hc. }
  assert (∀ j g, w_flights w !! j = Some g → runs g = true → runs f' = true →
            f_epoch g = f_epoch f) as Hnew.
  { intros j g Hj Hg [Hf|(Ho & Hrd & Hc)]%Hact; eauto. }
  split; simpl.
  - intros i j g h Hi Hj Hg Hh. split_lookups; rewrite ?Hfe; eauto using eq_sym.
  - rewrite He. intros i j g h Hi Hj Hg Ho Hrd Hc. split_lookups; rewrite ?Hfe in *; eauto.
    + rewrite Hrd in Hp. destruct (phase_move_to_ready _ _ _ _ Hp) as [Hf|(Hf & _ & H0)].
      * eapply Hrdy; eauto; congruence.
      * rewrite Hc. eauto using no_fence_current.
    + destruct (Hact Hg) as [Hf|(_ & _ & Hf)]; [eauto|congruence].
Qed.

Lemma one_epoch_new w k f ordered fence u c :
  reachable w → one_epoch w → w_flights w !! k = None →
  fencing (w_st w) (f_epoch f) (Exchange_new ordered) = (f_x f, fence) →
  one_epoch (MkWorld (w_st w) (<[k := f]> (w_flights w)) u c).
Proof.
  intros Hr [Hrun Hrdy] Hk Hf. pose proof (fenced_inactive _ _ _ _ _ Hf) as Ha.
  apply fencing_new in Hf as (Ho & _ & Hp & _ & Hz).
  assert (runs f = false) as Hnr by (unfold runs; rewrite Ha; apply andb_false_r).
  split; simpl.
  - intros i j g h Hi Hj Hg Hh. split_lookups; congruence || eauto.
  - intros i j g h Hi Hj Hg Hho Hrd Hc. split_lookups; try congruence; eauto.
    rewrite Hp in Hrd. destruct (Z.ltb_spec 0 fence); [done|].
    rewrite Hc. eapply no_fence_current; eauto.
    destruct (reachable_counts w Hr) as (_ & Ha1 & Ha2).
    pose proof (map_count_nonneg (run_older (epoch (s_att (w_st w)))) (w_flights w)).
    pose proof (map_count_nonneg (aband_now (epoch (s_att (w_st w)))) (w_flights w)).
    specialize (Hz ltac:(congruence) ltac:(done)). lia.
Qed.

Lemma reachable_one_epoch w : reachable w → one_epoch w.
Proof.
  revert w. apply reachable_effect_ind.
  { intros id tok sh. split; intros j k f g Hj; simpl in Hj; by rewrite lookup_empty in Hj. }
  intros w b w' Hr Hi Heff.
  destruct Heff as [st u c He _ _ _ _|k f o fe Hk Hf _ Hbh|k f st f' Hm|_].
  - destruct Hi as [H1 H2]. split; simpl; [done|]. rewrite He. done.
  - eauto using one_epoch_new.
  - eauto using one_epoch_move.
  - destruct Hi as [H1 _]. split; simpl; [done|].
    intros i j g h Hg Hh _ _ _ Hc. destruct (reachable_ok w Hr) as [_ Hok].
    destruct (Hok j h Hh) as (? & _). lia.
Qed.

(** ** Holds *)

Definition holds_ok (w : World) : Prop :=
  s_holders (w_st w) = w_undecoded w + map_count (λ f, x_holder (f_x f)) (w_flights w)
                       + Z.of_nat (size (w_conns w)) ∧ 0 ≤ w_undecoded w.

Lemma undecoded_step w b w' :
  session_step w b w' → 0 ≤ w_undecoded w → 0 ≤ w_undecoded w'.
Proof. destruct 1; simpl; lia. Qed.

Lemma reachable_holds w : reachable w → holds_ok w.
Proof.
  revert w. apply reachable_ind; [done|].
  intros w b w' Hr [Hh Hu] Hs. split; [|by eapply undecoded_step].
  destruct (reachable_effect w b w' Hr Hs) as
    [st u c _ _ _ _ Hb|k f o fe Hk Hf Hok _|k f st f' Hm|_]; simpl; [lia| | |done].
  - rewrite map_count_insert_None by done.
    apply fencing_new in Hf as (_ & -> & _). simpl. lia.
  - destruct Hm as [Hl _ _ _ _ _ _ _ _ _ _ Hb].
    rewrite (map_count_insert_Some _ _ _ _ _ Hl). lia.
Qed.

(** ** A concrete run

    A change of the first connection runs when the session resumes on a second
    one, whose change is then fenced behind it. *)

Definition demo_first (p : PhaseExchange) (h : bool) (t : Task) : Flight :=
  MkFlight 1 (MkExchange true p h) t false ∅.
Definition demo_second (p : PhaseExchange) (t : Task) : Flight :=
  MkFlight 2 (MkExchange true p true) t false {[1]}.
Definition demo_world (older holders : Z) (f1 f2 : Flight) : World :=
  MkWorld (MkSession 7 [] (Handles_new 4) (MkAtt 2 None None 0 0 older) holders)
          {[1 := f1; 2 := f2]} 0 ∅.
Definition demo_held : World :=
  demo_world 1 2 (demo_first Running true Guarded) (demo_second Held InHeld).
Definition demo_drained : World :=
  demo_world 0 1 (demo_first Finished false Returned) (demo_second Held InHeld).
Definition demo_ready : World :=
  demo_world 0 1 (demo_first Finished false Returned) (demo_second Ready Queued).

Lemma rtc_eq (w w' : World) : w = w' → rtc step w w'.
Proof. intros ->. apply rtc_refl. Qed.

Lemma demo_held_reachable : reachable demo_held.
Proof.
  exists 7, [], 4.
  eapply rtc_l; [eexists; apply ss_accept|].
  eapply rtc_l; [eexists; apply (ss_decode _ 1 1 true); [reflexivity|reflexivity|done|reflexivity]|].
  eapply rtc_l; [eexists; apply (ss_begin _ 1); [reflexivity..]|].
  eapply rtc_l; [eexists; apply ss_resume|].
  eapply rtc_l; [eexists; apply ss_accept|].
  eapply rtc_l; [eexists; apply (ss_decode _ 2 2 true); [reflexivity|reflexivity|done|reflexivity]|].
  apply rtc_eq. vm_compute. reflexivity.
Qed.

Lemma demo_finish_step : session_step demo_held true demo_drained.
Proof.
  replace demo_drained with
    (set_flight demo_held 1 (w_st demo_drained) (demo_first Running true Guarded)
       (MkExchange true Finished false) Returned false) by (vm_compute; reflexivity).
  apply (ss_finish _ 1 (demo_first Running true Guarded)); reflexivity.
Qed.

Lemma demo_drain_step : session_step demo_drained false demo_ready.
Proof.
  replace demo_ready with
    (set_flight demo_drained 2 (w_st demo_drained) (demo_second Held InHeld)
       (MkExchange true Ready true) Queued false) by (vm_compute; reflexivity).
  apply (ss_drain _ 2 (demo_second Held InHeld) _ _ (Some true)); reflexivity.
Qed.

Lemma demo_drained_reachable : reachable demo_drained.
Proof. eapply reachable_step; [apply demo_held_reachable|apply demo_finish_step]. Qed.
Lemma demo_ready_reachable : reachable demo_ready.
Proof. eapply reachable_step; [apply demo_drained_reachable|apply demo_drain_step]. Qed.

(** Two changes of the first connection run when the session resumes on a
    second one, whose change is then held behind both. *)
Definition demo_one (p : PhaseExchange) (t : Task) : Flight :=
  MkFlight 1 (MkExchange true p true) t false ∅.
Definition demo_pair (f g : Flight) : World :=
  MkWorld (MkSession 7 [] (Handles_new 4)
             (MkAtt 1 None None (if runs f then if runs g then 2 else 1 else 0) 0 0) 2)
          {[1 := f; 2 := g]} 0 ∅.
Definition demo_behind : Flight :=
  MkFlight 2 (MkExchange true Held true) InHeld false {[1; 2]}.
Definition demo_both : World :=
  MkWorld (MkSession 7 [] (Handles_new 4) (MkAtt 2 None None 0 0 2) 3)
          {[1 := demo_one Running Guarded; 2 := demo_one Running Guarded; 3 := demo_behind]} 0 ∅.

Lemma reachable_by w b w1 w2 :
  reachable w → session_step w b w1 → w1 = w2 → reachable w2.
Proof. intros Hr Hs <-. by eapply reachable_step. Qed.

Lemma demo_pair_queued : reachable (demo_pair (demo_one Ready Queued) (demo_one Ready Queued)).
Proof.
  exists 7, [], 4.
  eapply rtc_l; [eexists; apply ss_accept|].
  eapply rtc_l; [eexists; apply ss_accept|].
  eapply rtc_l; [eexists; apply (ss_decode _ 1 1 true); [reflexivity|reflexivity|done|reflexivity]|].
  eapply rtc_l; [eexists; apply (ss_decode _ 2 1 true); [reflexivity|reflexivity|done|reflexivity]|].
  apply rtc_eq. vm_compute. reflexivity.
Qed.

Lemma demo_pair_running : reachable (demo_pair (demo_one Running Guarded) (demo_one Running Guarded)).
Proof.
  eapply (reachable_by (demo_pair (demo_one Running Guarded) (demo_one Ready Queued)));
    [|eapply (ss_begin _ 2 (demo_one Ready Queued)); reflexivity|vm_compute; reflexivity].
  eapply reachable_by; [exact demo_pair_queued
    |eapply (ss_begin _ 1 (demo_one Ready Queued)); reflexivity|vm_compute; reflexivity].
Qed.

Definition demo_resumed : World :=
  MkWorld (MkSession 7 [] (Handles_new 4) (MkAtt 2 None None 0 0 2) 3)
          {[1 := demo_one Running Guarded; 2 := demo_one Running Guarded]} 1 ∅.

Lemma demo_resumed_reachable : reachable demo_resumed.
Proof.
  eapply reachable_by.
  - eapply reachable_step; [exact demo_pair_running|apply ss_resume].
  - apply ss_accept.
  - vm_compute. reflexivity.
Qed.

Lemma demo_both_reachable : reachable demo_both.
Proof.
  apply (reachable_by demo_resumed false _ _ demo_resumed_reachable
    (ss_decode demo_resumed 3 2 true (MkExchange true Held true) 2 eq_refl eq_refl
       ltac:(split; discriminate) eq_refl)).
  vm_compute. reflexivity.
Qed.

(** ** The properties *)

(** A change runs only after everything it was fenced behind.  A change
    remembers (in a ghost) the changes running when it was decoded that came
    from an earlier connection or that the client had given up on.  In every
    reachable state, a change that is ready, running, abandoned or finished has
    only finished changes behind it: nothing it had to wait for can still land
    after it. *)
Theorem fence_respected w k f y :
  reachable w → w_flights w !! k = Some f → x_ordered (f_x f) = true →
  is_past (x_phase (f_x f)) = true → y ∈ f_behind f →
  ∃ g, w_flights w !! y = Some g ∧ x_phase (f_x g) = Finished.
Proof.
  intros Hr Hk Ho Hp Hy. destruct (reachable_behind w Hr k f Hk Ho) as [H1 _].
  by apply H1.
Qed.

Lemma fence_respected_witness :
  ∃ g, w_flights demo_ready !! 1 = Some g ∧ x_phase (f_x g) = Finished.
Proof.
  apply (fence_respected demo_ready 2 (demo_second Ready Queued) 1 demo_ready_reachable);
    [reflexivity..|]. simpl. set_solver.
Defined.

(** C2: the changes of two connections of a session never run at once.  If two
    of a session's changes are running (given up on or not) in a reachable
    state, they came over the same connection: a change resent on a newer
    connection begins only once its original, and everything else of the older
    connections, has ended. *)
Theorem one_connection_runs w j k f g :
  reachable w → w_flights w !! j = Some f → w_flights w !! k = Some g →
  runs f = true → runs g = true → f_epoch f = f_epoch g.
Proof. intros Hr. destruct (reachable_one_epoch w Hr) as [H _]. apply H. Qed.

(** Two changes run at once, beside a third that does not. *)
Lemma one_connection_runs_witness :
  reachable demo_both ∧ ∃ f g h,
    w_flights demo_both !! 1 = Some f ∧ w_flights demo_both !! 2 = Some g
    ∧ w_flights demo_both !! 3 = Some h
    ∧ runs f = true ∧ runs g = true ∧ f_epoch f = f_epoch g
    ∧ f_epoch h ≠ f_epoch f ∧ runs h = false.
Proof.
  split; [exact demo_both_reachable|].
  exists (demo_one Running Guarded), (demo_one Running Guarded), demo_behind.
  split_and!; [reflexivity|reflexivity|reflexivity|reflexivity|reflexivity| |done|reflexivity].
  apply (one_connection_runs demo_both 1 2 _ _ demo_both_reachable); reflexivity.
Defined.

(** C10: the attachment's counters are exactly the changes they stand for, in
    every reachable state: [running] the changes running from the current
    connection, [abandoned] those of them the client gave up on, and
    [running_older] the changes still running from earlier connections; and the
    fence a new change of the current connection is given is the number of
    changes it must wait for. *)
Theorem counters_exact w :
  reachable w →
  let a := s_att (w_st w) in
  running a = map_count (run_now (epoch a)) (w_flights w)
  ∧ abandoned a = map_count (aband_now (epoch a)) (w_flights w)
  ∧ running_older a = map_count (run_older (epoch a)) (w_flights w)
  ∧ fence_now w = map_count (waits_for (epoch a)) (w_flights w).
Proof.
  intros Hr a. destruct (reachable_counts w Hr) as (H1 & H2 & H3).
  fold a in H1, H2, H3. repeat split; try done.
  unfold fence_now, fencing; simpl. fold a. rewrite Z.eqb_refl, H2, H3. unfold map_count.
  rewrite <- map_sum_add. apply map_sum_ext. intros k f Hk.
  destruct (reachable_ok w Hr) as [_ Hok]. destruct (Hok k f Hk) as (He & _ & _).
  fold a in He. unfold run_older, aband_now, waits_for.
  destruct (x_ordered (f_x f)), (x_phase (f_x f)); simpl;
    destruct (Z.ltb_spec (f_epoch f) (epoch a)), (Z.eqb_spec (f_epoch f) (epoch a)); simpl; lia.
Qed.

Lemma counters_exact_witness :
  (fencing (w_st demo_held) 2 (Exchange_new true)).2
  = map_count (waits_for 2) (w_flights demo_held).
Proof. apply (counters_exact demo_held demo_held_reachable). Defined.

(** No assertion of the session code fails and no counter underflows.  In
    every reachable state, each operation the task of a request may call next is
    defined (none of the [unreachable!] and [assert!] of [begin], [abandon],
    [drained] and [stopped] is hit), and when a running change's guard is
    dropped, every counter stays at zero or above. *)
Theorem no_assertion_fails w k f :
  reachable w → w_flights w !! k = Some f →
  (f_task f = InHeld →
     is_Some (drained (w_st w) (f_epoch f) (f_x f))
     ∧ is_Some (abandon (w_st w) (f_epoch f) (f_x f)) ∧ is_Some (stopped (w_st w) (f_x f)))
  ∧ (f_task f = Queued → is_Some (begin_ (w_st w) (f_epoch f) (f_x f)))
  ∧ (x_ordered (f_x f) = true → f_cancel f = false →
     f_task f = Queued ∨ f_task f = Guarded ∨ f_task f = Returned →
     is_Some (abandon (w_st w) (f_epoch f) (f_x f)))
  ∧ (f_task f = Guarded → ∀ st x wakes,
     guard_drop (w_st w) (f_epoch f) (f_x f) = (st, x, wakes) →
     no_underflow st).
Proof.
  intros Hr Hk. pose proof (reachable_ok w Hr) as Hok.
  split; [|split; [|split]].
  - intros Ht; open_flight; destruct Ht0 as (-> & -> & _).
    unfold drained; simpl. split; [by repeat destruct (_ =? _)|].
    split; by eexists.
  - intros Ht; open_flight. unfold begin_. destruct c; [destruct Ht0 as [-> ->]|subst p]; simpl.
    + done.
    + destruct o; simpl; [destruct (_ =? _)|]; done.
  - intros Ho Hc Ht; open_flight. unfold abandon; simpl.
    destruct Ht as [-> | [-> | ->]]; simpl in *; try (by subst p).
    destruct Ht0 as [_ Hp]. by destruct Hp as [-> | ->].
  - intros Ht st x wakes Hg.
    pose proof (reachable_step w wakes _ Hr (ss_finish w k f st x wakes Hk Ht Hg)) as Hr'.
    destruct (reachable_counts _ Hr') as (H1 & H2 & H3).
    destruct (reachable_holds _ Hr') as [H4 H5]. simpl in *. unfold no_underflow. rewrite H1, H2, H3, H4.
    pose proof (map_count_nonneg (λ f, x_holder (f_x f))
      (w_flights (set_flight w k st f x Returned (f_cancel f)))) as Hn. simpl in Hn.
    repeat split; try apply map_count_nonneg. lia.
Qed.

Lemma no_assertion_fails_witness :
  is_Some (drained (w_st demo_held) 2 (MkExchange true Held true)).
Proof.
  apply (no_assertion_fails demo_held 2 (demo_second Held InHeld) demo_held_reachable);
    reflexivity.
Defined.

(** The phase of a change that will not run stays so once its connection is
    superseded. *)
Lemma stays_unrun w w' k f :
  reachable w → rtc step w w' → w_flights w !! k = Some f → x_ordered (f_x f) = true →
  f_epoch f < epoch (s_att (w_st w)) ∨ is_terminal (x_phase (f_x f)) = true →
  is_active (x_phase (f_x f)) = false → x_phase (f_x f) ≠ Finished →
  ∃ f', w_flights w' !! k = Some f' ∧ is_active (x_phase (f_x f')) = false
        ∧ x_phase (f_x f') ≠ Finished.
Proof.
  intros Hr Hrtc. revert f. induction Hrtc as [w|w w1 w' [b Hs] _ IH]; intros f Hk Ho He Ha Hf.
  { eauto. }
  specialize (IH (reachable_step w b w1 Hr Hs)).
  destruct (reachable_effect w b w1 Hr Hs) as
    [st u c Heq _ _ _ _|j g o fe Hj _ _ _|j g st g' Hm|_]; simpl in *.
  - apply (IH f); rewrite ?Heq; done.
  - apply (IH f); try done. rewrite lookup_insert_ne; [done|]. intros ->. congruence.
  - destruct Hm as [Hl Hfe _ Hord _ Hp Heq _ _ _ _ _].
    destruct (decide (j = k)) as [->|Hne].
    + rewrite Hl in Hk. simplify_eq. apply (IH g'); rewrite ?lookup_insert_eq, ?Hfe, ?Heq; try done.
      * congruence.
      * destruct He as [He|He]; [by left|right].
        destruct Hp as [| |? [? | [?|?]]| |? [?|?]| |]; simplify_eq/=; done.
      * destruct (is_active (x_phase (f_x g'))) eqn:Hact; [|done].
        destruct (phase_move_to_active _ _ _ _ _ Hp Hact) as [?|[Hrd Hc]]; [congruence|].
        destruct He as [He|He]; [specialize (Hc Ho); lia|]. by rewrite Hrd in He.
      * intros Hfin. rewrite Hfin in Hp. inversion Hp; simplify_eq/=; try naive_solver congruence.
    + apply (IH f); rewrite ?lookup_insert_ne, ?Heq by done; done.
  - apply (IH f); try done. destruct He; [left; lia|by right].
Qed.

(** A change that must not run never does.  Once a change that has not begun
    belongs to a connection the session has moved on from, or was dropped
    (answered unrun to the client's cancel, refused as superseded, or its stream
    ended while held), no later step of the session begins it: in every state
    after, it is neither running nor finished. *)
Theorem refused_change_never_runs w w' k f :
  reachable w → rtc step w w' → w_flights w !! k = Some f → x_ordered (f_x f) = true →
  f_epoch f < epoch (s_att (w_st w)) ∨ is_terminal (x_phase (f_x f)) = true →
  unrun f → ∃ f', w_flights w' !! k = Some f' ∧ unrun f'.
Proof. intros Hr Hs Hk Ho He [Ha Hp]. by apply (stays_unrun w w' k f). Qed.

Lemma refused_change_never_runs_witness :
  let w := MkWorld (with_att (w_st demo_held) (take_over (s_att (w_st demo_held))))
             (w_flights demo_held) 0 ∅ in
  ∃ f', w_flights w !! 2 = Some f' ∧ unrun f'.
Proof.
  set (w := MkWorld _ _ _ _). cbv zeta.
  assert (reachable w) as Hr.
  { eapply (reachable_step demo_held true); [apply demo_held_reachable|apply ss_resume]. }
  apply (refused_change_never_runs w w 2 (demo_second Held InHeld) Hr (rtc_refl _ _));
    [reflexivity|reflexivity|left; reflexivity|split; [reflexivity|discriminate]].
Defined.

(** C11: no held change misses its wake-up.  If a step turns a held change that
    had to go on waiting ([drained] answers nothing yet) into one that may go on
    (it drained, or its connection was superseded), that step notified the
    waiters: the task asleep on the notification always looks again. *)
Theorem no_lost_wakeup w b w' k f f' :
  reachable w → session_step w b w' →
  w_flights w !! k = Some f → w_flights w' !! k = Some f' →
  told_to_wait w f → told_to_go_on w' f' → b = true.
Proof.
  intros Hr Hs Hk Hk' (st & x & Hd) (st' & x' & r & Hd').
  assert (epoch (s_att (w_st w)) = f_epoch f
          ∧ running_older (s_att (w_st w)) + abandoned (s_att (w_st w)) ≠ 0) as [He H0].
  { unfold drained, Exchange_end in Hd. destruct (x_phase (f_x f)); try done.
    epoch_cases; simplify_eq; done. }
  assert (epoch (s_att (w_st w')) ≠ f_epoch f'
          ∨ running_older (s_att (w_st w')) + abandoned (s_att (w_st w')) = 0) as Hgo.
  { unfold drained, Exchange_end in Hd'. destruct (x_phase (f_x f')); try done.
    epoch_cases; simplify_eq; tauto. }
  pose proof (reachable_counts w Hr) as (_ & Ha & Ho).
  pose proof (reachable_counts w' (reachable_step _ _ _ Hr Hs)) as (_ & Ha' & Ho').
  pose proof (map_count_nonneg (run_older (epoch (s_att (w_st w)))) (w_flights w)).
  pose proof (map_count_nonneg (aband_now (epoch (s_att (w_st w)))) (w_flights w)).
  pose proof (map_count_nonneg (run_older (epoch (s_att (w_st w')))) (w_flights w')).
  pose proof (map_count_nonneg (aband_now (epoch (s_att (w_st w')))) (w_flights w')).
  destruct (reachable_effect w b w' Hr Hs) as
    [s u c Heq _ Hab Hol _|j g o fe Hj _ _ _|j g s g' Hm|Hb]; simpl in *; [| | |done].
  - simplify_eq; lia.
  - rewrite lookup_insert_ne in Hk' by (intros ->; congruence). simplify_eq; lia.
  - assert (f_epoch f' = f_epoch f).
    { destruct (decide (j = k)) as [->|Hne].
      - rewrite lookup_insert_eq in Hk'. rewrite (mv_lookup _ _ _ _ _ _ Hm) in Hk.
        simplify_eq. by destruct Hm.
      - rewrite lookup_insert_ne in Hk' by done. by simplify_eq. }
    pose proof (mv_epoch _ _ _ _ _ _ Hm).
    apply (mv_wake _ _ _ _ _ _ Hm); [lia|lia|]. unfold releases_fence. lia.
Qed.

(** The second connection's change waits, the first's ends, and the step that
    ends it wakes the waiters. *)
Lemma no_lost_wakeup_witness :
  reachable demo_held ∧ ∃ b f,
    session_step demo_held b demo_drained
    ∧ w_flights demo_held !! 2 = Some f ∧ w_flights demo_drained !! 2 = Some f
    ∧ told_to_wait demo_held f ∧ told_to_go_on demo_drained f ∧ b = true.
Proof.
  assert (told_to_wait demo_held (demo_second Held InHeld)) as Hw
    by (exists (w_st demo_held), (MkExchange true Held true); reflexivity).
  assert (told_to_go_on demo_drained (demo_second Held InHeld)) as Hg
    by (exists (w_st demo_drained), (MkExchange true Ready true), true; reflexivity).
  split; [exact demo_held_reachable|].
  eexists _, (demo_second Held InHeld).
  split_and!; [exact demo_finish_step|reflexivity|reflexivity|exact Hw|exact Hg|].
  exact (no_lost_wakeup demo_held _ demo_drained 2 _ _ demo_held_reachable demo_finish_step
           eq_refl eq_refl Hw Hg).
Defined.

(** A session with anything under way is held.  The session's holder count
    is exactly the streams accepted and not yet decoded, the requests that have
    not ended and the connections attached; so while any request of it is held,
    ready or running, the count is above zero, which is what keeps a session
    dropped from the table resumable. *)
Theorem holders_exact w k f :
  reachable w → w_flights w !! k = Some f → is_terminal (x_phase (f_x f)) = false →
  s_holders (w_st w) = holds_under_way w ∧ 0 < s_holders (w_st w).
Proof.
  intros Hr Hk Ht. destruct (reachable_holds w Hr) as [Hh Hu]. split; [done|].
  destruct (reachable_ok w Hr) as [_ Hok]. destruct (Hok k f Hk) as (_ & Hx & _).
  rewrite Ht in Hx. pose proof (map_count_pos (λ f, x_holder (f_x f)) _ _ _ Hk Hx). lia.
Qed.

Lemma holders_exact_witness : 0 < s_holders (w_st demo_ready).
Proof.
  apply (holders_exact demo_ready 2 (demo_second Ready Queued) demo_ready_reachable);
    reflexivity.
Defined.
