(* ===== verification/Sessions.v ===== *)
(** * The session table and the handshake ([crates/server/src/session.rs])

    [Sessions] keeps the sessions clients may resume.  A session is a shared
    object ([Arc<SessionState>]): [ss_objs] is the store of the objects alive,
    [ss_map] the ids in the table, [ss_dropped] the ids of the table of weak
    references, whose upgrade succeeds while the object is alive.  [free_session]
    is the last reference going away, which closes the session's handles.

    The order in which a hash map is walked is unspecified; where the code
    sorts the entries by time first, entries with equal times may come in either
    order, and the theorems hold for the order used here. *)

From S2P Require Import Prelude Types Msg Perf ServerHandles Session.
From Stdlib Require Strings.Byte.
From stdpp Require Import sorting.
Local Open Scope Z_scope.

Record Sessions := MkSessions {
  ss_objs : gmap Z SessionState;
  ss_map : gset Z;
  ss_dropped : gset Z;
  ss_next : Z;
  ss_share : Z;
  ss_pool : HandlePool }.

Definition Sessions_new (share : Z) (pool : HandlePool) : Sessions :=
  MkSessions ∅ ∅ ∅ 0 share pool.

Definition set_obj (t : Sessions) (id : Z) (st : SessionState) : Sessions :=
  MkSessions (<[id := st]> (ss_objs t)) (ss_map t) (ss_dropped t) (ss_next t)
             (ss_share t) (ss_pool t).

(** The session the table has under [id]. *)
Definition Sessions_get (t : Sessions) (id : Z) : option SessionState :=
  if bool_decide (id ∈ ss_map t) then ss_objs t !! id else None.

(** [Sessions::retire]: from the table to the dropped sessions, forgetting those
    of them that are gone. *)
Definition retire (t : Sessions) (id : Z) : Sessions :=
  if bool_decide (id ∈ ss_map t)
  then MkSessions (ss_objs t) (ss_map t ∖ {[id]})
         ({[id]} ∪ filter (λ i, is_Some (ss_objs t !! i)) (ss_dropped t))
         (ss_next t) (ss_share t) (ss_pool t)
  else t.

(** When the sessions of the table were detached, those that are. *)
Definition detached_sessions (t : Sessions) : list (Z * Z) :=
  omap (λ id, st ← ss_objs t !! id; at_ ← detached_at (s_att st); Some (id, at_))
       (elements (ss_map t)).

(** Longest detached first. *)
Definition at_le (a b : Z * Z) : Prop := a.2 ≤ b.2.
#[export] Instance at_le_dec : RelDecision at_le.
Proof. intros a b. unfold at_le. apply _. Defined.

(** The sessions a new one evicts. *)
Definition evicted (t : Sessions) : list Z :=
  let detached := detached_sessions t in
  let n := Z.of_nat (length detached) in
  if MAX_DETACHED_SESSIONS <=? n
  then take (Z.to_nat (n + 1 - MAX_DETACHED_SESSIONS)) (merge_sort at_le detached).*1
  else [].

(** [Sessions::create], with the random token. *)
Definition Sessions_create (t : Sessions) (token : list byte)
  : Sessions * SessionState * Z :=
  let id := wrap64 (ss_next t + 1) in
  let state := session_new id token (ss_share t) in
  let t := MkSessions (ss_objs t) (ss_map t) (ss_dropped t) (wrap64 (ss_next t + 1))
                      (ss_share t) (ss_pool t) in
  let t := foldl retire t (evicted t) in
  (MkSessions (<[id := state]> (ss_objs t)) ({[id]} ∪ ss_map t) (ss_dropped t)
              (ss_next t) (ss_share t) (ss_pool t), state, 1).

(** The session a resume of [id] finds, and whether it was dropped. *)
Definition resume_finds (t : Sessions) (id : Z) : option (SessionState * bool) :=
  match Sessions_get t id with
  | Some state => Some (state, false)
  | None =>
      if bool_decide (id ∈ ss_dropped t) then
        state ← ss_objs t !! id;
        if s_holders state =? 0 then None else Some (state, true)
      else None
  end.

(** [Sessions::resume]. *)
Definition Sessions_resume (t : Sessions) (id : Z) (token : list byte)
  : Sessions * option (SessionState * Z) :=
  match resume_finds t id with
  | None => (t, None)
  | Some (state, dropped) =>
      if negb (bool_decide (s_token state = token)) then (t, None)
      else
        let t := if dropped : bool
                 then MkSessions (ss_objs t) ({[id]} ∪ ss_map t) (ss_dropped t ∖ {[id]})
                        (ss_next t) (ss_share t) (ss_pool t)
                 else t in
        let state := with_att state (take_over (s_att state)) in
        (set_obj t id state, Some (state, epoch (s_att state)))
  end.

(** [Sessions::forget]. *)
Definition Sessions_forget (t : Sessions) (id : Z) : Sessions :=
  MkSessions (ss_objs t) (ss_map t ∖ {[id]}) (ss_dropped t) (ss_next t) (ss_share t) (ss_pool t).

(** [Sessions::detach]. *)
Definition Sessions_detach (t : Sessions) (id e now : Z) : Sessions :=
  match Sessions_get t id with
  | None => t
  | Some state => set_obj t id (with_att state (detach_att (s_att state) e now))
  end.

(** [Sessions::reap]. *)
Definition is_expired (t : Sessions) (now grace id : Z) : bool :=
  match Sessions_get t id with
  | Some state =>
      match detached_at (s_att state) with
      | Some at_ => grace <=? Z.max 0 (now - at_)
      | None => false
      end
  | None => false
  end.

Definition Sessions_reap (t : Sessions) (now grace : Z) : Sessions * Z :=
  let expired := filter (λ id, is_expired t now grace id = true) (elements (ss_map t)) in
  (foldl retire t expired, Z.of_nat (length expired)).

Definition Sessions_len (t : Sessions) : Z := Z.of_nat (size (ss_map t)).

(** The last reference to a session goes away: its handles are closed. *)
Definition free_session (t : Sessions) (id : Z) : Sessions :=
  match ss_objs t !! id with
  | Some st => MkSessions (delete id (ss_objs t)) (ss_map t) (ss_dropped t) (ss_next t)
                 (ss_share t) (Handles_drop (s_handles st) (ss_pool t))
  | None => t
  end.

(** Every session that holds handles, with whether it was dropped. *)
Definition snapshot (t : Sessions) : list (SessionState * bool) :=
  omap (λ id, (λ st, (st, false)) <$> ss_objs t !! id) (elements (ss_map t))
  ++ omap (λ id, (λ st, (st, true)) <$> ss_objs t !! id) (elements (ss_dropped t)).

Inductive StateSession := SS_Dropped | SS_Detached | SS_Attached.

Record HandlesSession := MkRow {
  row_session : Z; row_remote : string; row_state : StateSession;
  row_files : Z; row_dirs : Z }.

Definition row_of (sd : SessionState * bool) : HandlesSession :=
  let '(s, dropped) := sd in
  let totals := Handles_totals (s_handles s) in
  MkRow (s_id s) (default EmptyString (remote (s_att s)))
    (if dropped : bool then SS_Dropped
     else match detached_at (s_att s) with Some _ => SS_Detached | None => SS_Attached end)
    totals.1 totals.2.

Definition row_le (a b : HandlesSession) : Prop := row_session a ≤ row_session b.
#[export] Instance row_le_dec : RelDecision row_le.
Proof. intros a b. unfold row_le. apply _. Defined.

Definition handle_rows (t : Sessions) : list HandlesSession :=
  merge_sort row_le (row_of <$> snapshot t).

Definition handle_totals (t : Sessions) : HandlesTotals :=
  foldl (λ sum sd, (sum.1 + (Handles_totals (s_handles sd.1)).1,
                    sum.2 + (Handles_totals (s_handles sd.1)).2))
        (0, 0) (snapshot t).

(** ** The handshake *)

(** [Server::authenticate]. *)
Definition authenticate (token : option (list byte)) (auth : Auth) : result string unit :=
  match token, auth with
  | None, _ => Ok tt
  | Some expected, Token given =>
      if bool_decide (expected = given) then Ok tt else Err "invalid token"%string
  | Some _, Anonymous => Err "this server requires a token"%string
  end.

(** What of the server a handshake reads. *)
Record Server := MkServer {
  sv_revision : Z;
  sv_token : option (list byte);
  sv_root_ino : Z;
  sv_root_identity : Identity;
  sv_uid : Z;
  sv_gid : Z }.

Inductive ErrorHandshake := EH_Rejected (reason : string) | EH_Revision (client : Z).

(** The decision of [handshake] before anything is written: a session attached
    (with its epoch and whether it was resumed), or a refusal. *)
Definition handshake_outcome (sv : Server) (t : Sessions) (hello : Hello) (token : list byte)
  : Sessions * result (HelloReply * ErrorHandshake) (SessionState * Z * bool) :=
  if negb (h_revision hello =? sv_revision sv) then
    (t, Err (RevisionMismatch (sv_revision sv), EH_Revision (h_revision hello)))
  else
    match authenticate (sv_token sv) (h_auth hello) with
    | Err reason => (t, Err (Reject reason, EH_Rejected reason))
    | Ok _ =>
        let '(t, resumed) :=
          match h_resume hello with
          | Some r => Sessions_resume t (r_session_id r) (r_token r)
          | None => (t, None)
          end in
        match resumed with
        | Some (state, e) => (t, Ok (state, e, true))
        | None => let '(t, state, e) := Sessions_create t token in (t, Ok (state, e, false))
        end
    end.

(** [DetachUnlessAcked]'s drop. *)
Definition detach_unless_acked (t : Sessions) (id e now : Z) (resumed acked : bool) : Sessions :=
  if acked then t
  else if resumed then Sessions_detach t id e now
  else Sessions_forget t id.

(** [handshake]: the outcome, the reply written ([written] says whether the
    write went through), and the table after. *)
Definition handshake (sv : Server) (t : Sessions) (hello : Hello) (token : list byte)
    (written : bool) (now : Z)
  : Sessions * HelloReply * option (SessionState * Z * bool) :=
  match handshake_outcome sv t hello token with
  | (t, Ok (state, e, resumed)) =>
      let reply := Ack (s_id state) (s_token state) resumed (sv_root_ino sv)
                       (sv_root_identity sv) (sv_uid sv) (sv_gid sv) in
      (detach_unless_acked t (s_id state) e now resumed written, reply,
       if written then Some (state, e, resumed) else None)
  | (t, Err (reply, _)) => (t, reply, None)
  end.

(** ** The connections of attached sessions

    [Server::connections]: the connection of each attached session with its
    epoch.  [claim_connection] is [handle_connection]'s registration: refused
    when a newer connection got there first, otherwise giving the older entry to
    close. *)
Definition claim_connection (conns : gmap Z (Z * Z)) (id e conn : Z)
  : gmap Z (Z * Z) * option (option (Z * Z)) :=
  match conns !! id with
  | Some entry => if e <? entry.1 then (conns, None) else (<[id := (e, conn)]> conns, Some (Some entry))
  | None => (<[id := (e, conn)]> conns, Some None)
  end.

(** [DetachOnDrop]'s removal. *)
Definition drop_connection (conns : gmap Z (Z * Z)) (id e : Z) : gmap Z (Z * Z) :=
  match conns !! id with
  | Some entry => if entry.1 =? e then delete id conns else conns
  | None => conns
  end.

(** ** The table's invariant *)

Record sessions_wf (t : Sessions) : Prop := {
  wf_map : ∀ id, id ∈ ss_map t → is_Some (ss_objs t !! id);
  wf_disj : ss_map t ## ss_dropped t;
  wf_id : ∀ id st, ss_objs t !! id = Some st → s_id st = id ∧ 1 ≤ id ≤ ss_next t;
  wf_dropped : ∀ id, id ∈ ss_dropped t → 1 ≤ id ≤ ss_next t;
  wf_next : 0 ≤ ss_next t < u64_max }.

Lemma retire_objs t id : ss_objs (retire t id) = ss_objs t.
Proof. unfold retire. by case_bool_decide. Qed.
Lemma retire_next t id : ss_next (retire t id) = ss_next t.
Proof. unfold retire. by case_bool_decide. Qed.
Lemma retire_map t id : ss_map (retire t id) = ss_map t ∖ {[id]}.
Proof. unfold retire. case_bool_decide; simpl; [done|]. set_solver. Qed.

(** A session in the table that is retired can still be found, and so can every
    dropped session that is alive. *)
Lemma retire_dropped t id i :
  i ∈ ss_dropped (retire t id) ↔
  (i = id ∧ id ∈ ss_map t)
  ∨ (i ∈ ss_dropped t ∧ (id ∈ ss_map t → is_Some (ss_objs t !! i))).
Proof.
  unfold retire. case_bool_decide as Hm; simpl; [|naive_solver].
  rewrite elem_of_union, elem_of_singleton, elem_of_filter. naive_solver.
Qed.

Lemma retire_wf t id : sessions_wf t → sessions_wf (retire t id).
Proof.
  intros [H1 H2 H3 H4 H5]. split; rewrite ?retire_objs, ?retire_next, ?retire_map; try done.
  - set_solver.
  - intros i Hi. rewrite retire_dropped. set_solver.
  - intros i. rewrite retire_dropped. intros [[-> Hm]|[Hd _]]; [|eauto].
    destruct (H1 _ Hm) as [st Hst]. by destruct (H3 _ _ Hst).
Qed.

Lemma retires_objs l t : ss_objs (foldl retire t l) = ss_objs t.
Proof. revert t. induction l as [|x l IH]; intros; simpl; [done|]. by rewrite IH, retire_objs. Qed.
Lemma retires_next l t : ss_next (foldl retire t l) = ss_next t.
Proof. revert t. induction l as [|x l IH]; intros; simpl; [done|]. by rewrite IH, retire_next. Qed.
Lemma retires_map l t : ss_map (foldl retire t l) = ss_map t ∖ list_to_set l.
Proof.
  revert t. induction l as [|x l IH]; intros; simpl; [set_solver|].
  rewrite IH, retire_map. set_solver.
Qed.
Lemma retires_wf l t : sessions_wf t → sessions_wf (foldl retire t l).
Proof. revert t. induction l as [|x l IH]; intros; simpl; [done|]. by apply IH, retire_wf. Qed.

(** Nothing alive is lost: it stays in the table or among the dropped. *)
Lemma retires_keep l t i :
  is_Some (ss_objs t !! i) → i ∈ ss_map t ∪ ss_dropped t →
  i ∈ ss_map (foldl retire t l) ∪ ss_dropped (foldl retire t l).
Proof.
  revert t. induction l as [|x l IH]; intros t Ho Hi; simpl; [done|].
  apply IH; [by rewrite retire_objs|].
  rewrite elem_of_union, retire_map, retire_dropped.
  destruct (decide (i = x)); set_solver.
Qed.

Lemma retires_not_dropped l t i :
  i ∉ ss_map t → i ∉ ss_dropped t → i ∉ ss_dropped (foldl retire t l).
Proof.
  revert t. induction l as [|x l IH]; intros t Hm Hd; simpl; [done|].
  apply IH; [rewrite retire_map; set_solver|]. rewrite retire_dropped. set_solver.
Qed.

Lemma Sessions_get_Some t id st :
  Sessions_get t id = Some st ↔ id ∈ ss_map t ∧ ss_objs t !! id = Some st.
Proof. unfold Sessions_get. case_bool_decide; naive_solver. Qed.

(** ** Eviction *)

Definition detached_time (t : Sessions) (id : Z) : option Z :=
  st ← ss_objs t !! id; detached_at (s_att st).

Lemma elem_of_detached t id at_ :
  (id, at_) ∈ detached_sessions t ↔ id ∈ ss_map t ∧ detached_time t id = Some at_.
Proof.
  unfold detached_sessions, detached_time. rewrite list_elem_of_omap. split.
  - intros (i & Hi & Hs). rewrite elem_of_elements in Hi.
    destruct (ss_objs t !! i) eqn:Ho; [simpl in Hs|done].
    destruct (detached_at (s_att s)) eqn:Hd; simplify_eq/=. by rewrite Ho.
  - intros [Hi Ht]. exists id. rewrite elem_of_elements. split; [done|].
    destruct (ss_objs t !! id); simpl in *; [|done]. by rewrite Ht.
Qed.

Lemma omap_fst_NoDup {A} (f : Z → option (Z * A)) (l : list Z) :
  (∀ i p, f i = Some p → p.1 = i) → NoDup l → NoDup (omap f l).*1.
Proof.
  intros Hf. induction 1 as [|x l Hx _ IH]; simpl; [constructor|].
  destruct (f x) as [p|] eqn:Hp; [|done]. simpl. constructor; [|done].
  rewrite (Hf _ _ Hp). rewrite list_elem_of_fmap. intros (q & Hq & Hin).
  apply list_elem_of_omap in Hin as (y & Hy & Hfy). apply Hf in Hfy. congruence.
Qed.

Lemma detached_NoDup t : NoDup (detached_sessions t).*1.
Proof.
  apply omap_fst_NoDup; [|apply NoDup_elements].
  intros i p Hp. destruct (ss_objs t !! i); simpl in *; [|done].
  destruct (detached_at (s_att s)); by simplify_eq/=.
Qed.

#[export] Instance at_le_trans : Transitive at_le.
Proof. intros a b c. unfold at_le. lia. Qed.
#[export] Instance at_le_total : Total at_le.
Proof. intros a b. unfold at_le. lia. Qed.

Lemma sorted_detached_perm t :
  merge_sort at_le (detached_sessions t) ≡ₚ detached_sessions t.
Proof. apply merge_sort_Permutation. Qed.

(** An evicted session was detached, and no longer than any that is kept. *)
Lemma evicted_spec t id :
  id ∈ evicted t →
  id ∈ ss_map t ∧ ∃ at_, detached_time t id = Some at_
  ∧ ∀ j atj, j ∈ ss_map t → detached_time t j = Some atj → j ∉ evicted t → at_ ≤ atj.
Proof.
  unfold evicted. destruct (MAX_DETACHED_SESSIONS <=? _); [|set_solver].
  set (n := Z.to_nat _). set (l := merge_sort at_le (detached_sessions t)).
  rewrite <- fmap_take. intros Hid. apply list_elem_of_fmap in Hid as ([id' at_] & -> & Hin).
  simpl in *.
  assert ((id', at_) ∈ detached_sessions t) as Hd.
  { rewrite <- (sorted_detached_perm t). fold l. rewrite <- (take_drop n l). set_solver. }
  apply elem_of_detached in Hd as [Hm Ht]. split; [done|]. exists at_. split; [done|].
  intros j atj Hj Htj Hne.
  assert ((j, atj) ∈ l) as Hl.
  { unfold l. rewrite sorted_detached_perm. by apply elem_of_detached. }
  rewrite <- (take_drop n l) in Hl. apply elem_of_app in Hl as [Hl|Hl].
  { destruct Hne. apply list_elem_of_fmap. by exists (j, atj). }
  assert (StronglySorted at_le l) as Hs by (apply StronglySorted_merge_sort; apply _).
  rewrite <- (take_drop n l) in Hs.
  exact (StronglySorted_app_1_elem_of _ _ _ _ _ Hs Hin Hl).
Qed.

Lemma evicted_NoDup t : NoDup (evicted t).
Proof.
  unfold evicted. destruct (_ <=? _); [|constructor].
  eapply sublist_NoDup; [|apply sublist_take].
  rewrite (sorted_detached_perm t). apply detached_NoDup.
Qed.

Lemma length_evicted t :
  Z.of_nat (length (evicted t)) =
  Z.max 0 (Z.of_nat (length (detached_sessions t)) + 1 - MAX_DETACHED_SESSIONS).
Proof.
  unfold evicted, MAX_DETACHED_SESSIONS. cbv zeta.
  destruct (Z.leb_spec 64 (Z.of_nat (length (detached_sessions t)))); simpl; [|lia].
  rewrite length_take, length_fmap, (sorted_detached_perm t). lia.
Qed.

(** The detached sessions of the table, as a set. *)
Definition detached_set (t : Sessions) : gset Z := list_to_set (detached_sessions t).*1.

Lemma elem_of_detached_set t id :
  id ∈ detached_set t ↔ id ∈ ss_map t ∧ is_Some (detached_time t id).
Proof.
  unfold detached_set. rewrite elem_of_list_to_set, list_elem_of_fmap. split.
  - intros ([i at_] & -> & Hin). apply elem_of_detached in Hin as [? ?]. eauto.
  - intros [Hm [at_ Ht]]. exists (id, at_). by rewrite elem_of_detached.
Qed.

Lemma size_detached_set t : size (detached_set t) = length (detached_sessions t).
Proof.
  unfold detached_set. rewrite size_list_to_set by apply detached_NoDup. apply length_fmap.
Qed.

Lemma create_fields t token t' st e :
  Sessions_create t token = (t', st, e) →
  let t1 := MkSessions (ss_objs t) (ss_map t) (ss_dropped t) (wrap64 (ss_next t + 1))
                       (ss_share t) (ss_pool t) in
  let id := wrap64 (ss_next t + 1) in
  st = session_new id token (ss_share t) ∧ e = 1
  ∧ ss_objs t' = <[id := st]> (ss_objs t)
  ∧ ss_map t' = {[id]} ∪ (ss_map t ∖ list_to_set (evicted t))
  ∧ ss_dropped t' = ss_dropped (foldl retire t1 (evicted t))
  ∧ ss_next t' = wrap64 (ss_next t + 1).
Proof.
  unfold Sessions_create. intros H. simplify_eq/=.
  change (evicted (MkSessions (ss_objs t) (ss_map t) (ss_dropped t) (wrap64 (ss_next t + 1))
                       (ss_share t) (ss_pool t))) with (evicted t).
  by rewrite retires_objs, retires_map, retires_next.
Qed.

Lemma fresh_id t :
  sessions_wf t →
  wrap64 (ss_next t + 1) = ss_next t + 1
  ∧ ss_objs t !! (ss_next t + 1) = None
  ∧ (ss_next t + 1) ∉ ss_map t ∧ (ss_next t + 1) ∉ ss_dropped t.
Proof.
  intros [H1 H2 H3 H4 H5]. unfold u64_max in H5.
  assert (ss_objs t !! (ss_next t + 1) = None) as Hn.
  { destruct (ss_objs t !! (ss_next t + 1)) eqn:Ho; [|done]. apply H3 in Ho. lia. }
  split; [apply wrap64_id; unfold is_u64; lia|]. split; [done|]. split.
  - intros [? Hs]%H1. congruence.
  - intros Hd%H4. lia.
Qed.

Lemma create_wf t token t' st e :
  sessions_wf t → ss_next t + 1 < u64_max →
  Sessions_create t token = (t', st, e) → sessions_wf t'.
Proof.
  intros Hwf Hn Hc. destruct (create_fields _ _ _ _ _ Hc) as (-> & _ & Ho & Hm & Hd & Hx).
  destruct (fresh_id t Hwf) as (Hw & Hfo & Hfm & Hfd). rewrite Hw in *.
  pose proof (wf_next t Hwf). set (t1 := MkSessions _ _ _ _ _ _) in Hd.
  assert (sessions_wf t1) as Hwf1.
  { destruct Hwf as [H1 H2 H3 H4 H5]. split; simpl; try done.
    - intros id st Hst. destruct (H3 id st Hst). lia.
    - intros id Hid. specialize (H4 id Hid). lia.
    - lia. }
  destruct (retires_wf (evicted t) t1 Hwf1) as [G1 G2 G3 G4 G5].
  rewrite retires_objs, ?retires_map, ?retires_next in *. simpl in *.
  split; rewrite ?Ho, ?Hm, ?Hd, ?Hx.
  - intros id Hid. destruct (decide (id = ss_next t + 1)) as [->|Hne].
    + rewrite lookup_insert_eq. eauto.
    + rewrite lookup_insert_ne by done. apply G1. set_solver.
  - assert ((ss_next t + 1) ∉ ss_dropped (foldl retire t1 (evicted t))); [|set_solver].
    by apply retires_not_dropped.
  - intros id st Hst. split_lookups; simpl; [|eauto]. lia.
  - done.
  - lia.
Qed.

(** A new session never pushes the detached ones past their limit, and makes
    room fairly.  On a well-formed table, [create] gives an id never used
    before; afterwards fewer than the limit are detached; every attached session
    is still in the table; and a detached session is only dropped while each one
    kept was detached no earlier. *)
Theorem create_evicts_oldest t token t' st e :
  sessions_wf t → Sessions_create t token = (t', st, e) →
  ss_objs t !! s_id st = None
  ∧ Z.of_nat (size (detached_set t')) < MAX_DETACHED_SESSIONS
  ∧ (∀ id, id ∈ ss_map t → detached_time t id = None → id ∈ ss_map t')
  ∧ (∀ id j ati atj, id ∈ ss_map t → id ∉ ss_map t' → detached_time t id = Some ati →
       j ∈ ss_map t → j ∈ ss_map t' → detached_time t j = Some atj → ati ≤ atj).
Proof.
  intros Hwf Hc. destruct (create_fields _ _ _ _ _ Hc) as (-> & _ & Ho & Hm & _ & _).
  destruct (fresh_id t Hwf) as (Hw & Hfo & Hfm & _). rewrite Hw in *. simpl.
  assert (∀ i, i ≠ ss_next t + 1 → detached_time t' i = detached_time t i) as Hdt.
  { intros i Hi. unfold detached_time. by rewrite Ho, lookup_insert_ne. }
  split; [done|]. split; [|split].
  - assert (detached_set t' = detached_set t ∖ list_to_set (evicted t)) as ->.
    { apply set_eq. intros i. rewrite elem_of_difference, !elem_of_detached_set, Hm.
      destruct (decide (i = ss_next t + 1)) as [->|Hne].
      - split; [|set_solver]. intros [_ [at_ Ha]]. unfold detached_time in Ha.
        rewrite Ho, lookup_insert_eq in Ha. done.
      - rewrite Hdt by done. set_solver. }
    rewrite size_difference.
    2:{ intros i Hi. apply elem_of_list_to_set in Hi. apply evicted_spec in Hi as (Hi & a & Ha & _).
        apply elem_of_detached_set. eauto. }
    rewrite size_list_to_set by apply evicted_NoDup.
    pose proof (length_evicted t) as Hl. rewrite size_detached_set.
    unfold MAX_DETACHED_SESSIONS in *. lia.
  - intros id Hid Hn. rewrite Hm. apply elem_of_union. right. apply elem_of_difference.
    split; [done|]. rewrite elem_of_list_to_set. intros He.
    apply evicted_spec in He as (_ & a & Ha & _). congruence.
  - intros id j ati atj Hid Hid' Ha Hj Hj' Hb. rewrite Hm in Hid', Hj'.
    assert (id ∈ evicted t) as He by set_solver.
    apply evicted_spec in He as (_ & a & Ha' & Hle). simplify_eq. apply (Hle j); try done.
    assert (j ≠ ss_next t + 1) by (intros ->; done). set_solver.
Qed.

Lemma create_evicts_oldest_witness :
  let t := Sessions_new 4 (HandlePool_new 10) in
  let r := Sessions_create t [] in
  ss_objs t !! s_id r.1.2 = None
  ∧ Z.of_nat (size (detached_set r.1.1)) < MAX_DETACHED_SESSIONS.
Proof.
  set (t := Sessions_new 4 (HandlePool_new 10)). cbv zeta.
  destruct (create_evicts_oldest t [] (Sessions_create t []).1.1 (Sessions_create t []).1.2 1)
    as (H1 & H2 & _).
  - split; unfold u64_max; try set_solver; simpl; lia.
  - reflexivity.
  - split; [exact H1|exact H2].
Defined.

(** ** Resuming *)

Lemma resume_finds_Some t id st d :
  sessions_wf t → resume_finds t id = Some (st, d) ↔
  ss_objs t !! id = Some st
  ∧ ((d = false ∧ id ∈ ss_map t) ∨ (d = true ∧ id ∈ ss_dropped t ∧ s_holders st ≠ 0)).
Proof.
  intros Hwf. unfold resume_finds. destruct (Sessions_get t id) as [st'|] eqn:Hg.
  - apply Sessions_get_Some in Hg as [Hm Ho]. split; [naive_solver|].
    intros [? [[-> _]|(_ & Hd & _)]]; [naive_solver|]. destruct (wf_disj t Hwf id Hm Hd).
  - assert (id ∈ ss_map t → False) as Hm.
    { intros Hm. destruct (wf_map t Hwf id Hm) as [st' Hs].
      by rewrite (proj2 (Sessions_get_Some t id st')) in Hg. }
    case_bool_decide as Hd; [|naive_solver].
    destruct (ss_objs t !! id) as [st'|] eqn:Ho; simpl; [|naive_solver].
    destruct (Z.eqb_spec (s_holders st') 0); naive_solver.
Qed.

(** Who gets a session back.  On a well-formed table a resume succeeds
    exactly when the named session is alive, carries the token given, and is in
    the table or, dropped from it, has something under way.  Then the session is
    in the table and not among the dropped, its grace period is over, its epoch
    is one higher than before and so above every connection it had, and every
    change running counts as an earlier connection's; on failure nothing
    changes. *)
Theorem resume_spec t id token :
  sessions_wf t →
  match Sessions_resume t id token with
  | (t', Some (st', e)) =>
      ∃ st, ss_objs t !! id = Some st ∧ s_token st = token
      ∧ (id ∈ ss_map t ∨ (id ∈ ss_dropped t ∧ s_holders st ≠ 0))
      ∧ ss_objs t' !! id = Some st' ∧ id ∈ ss_map t' ∧ id ∉ ss_dropped t'
      ∧ e = epoch (s_att st) + 1 ∧ epoch (s_att st') = e ∧ detached_at (s_att st') = None
      ∧ running (s_att st') = 0 ∧ abandoned (s_att st') = 0
      ∧ running_older (s_att st') = running_older (s_att st) + running (s_att st)
      ∧ s_handles st' = s_handles st
  | (t', None) =>
      t' = t ∧ ∀ st, ss_objs t !! id = Some st → s_token st = token →
        id ∉ ss_map t ∧ (id ∈ ss_dropped t → s_holders st = 0)
  end.
Proof.
  intros Hwf. unfold Sessions_resume.
  destruct (resume_finds t id) as [[st d]|] eqn:Hf; simpl.
  - apply (resume_finds_Some t id st d Hwf) in Hf as [Ho Hin].
    case_bool_decide as Ht; simpl.
    + exists st. assert (id ∈ ss_map t → id ∉ ss_dropped t) by (pose proof (wf_disj t Hwf); set_solver).
      destruct Hin as [[-> Hm]|(-> & Hd & Hh)]; simpl; rewrite lookup_insert_eq;
        repeat split; eauto; set_solver.
    + split; [done|]. naive_solver.
  - split; [done|]. intros st Ho Ht.
    assert (∀ d, ¬ resume_finds t id = Some (st, d)) as Hn by (intros d; congruence).
    split.
    + intros Hm. apply (Hn false). apply resume_finds_Some; [done|]. naive_solver.
    + intros Hd. destruct (Z.eq_dec (s_holders st) 0) as [|Hh]; [done|].
      destruct (Hn true). apply resume_finds_Some; [done|]. naive_solver.
Qed.

Lemma resume_spec_witness :
  let t := (Sessions_create (Sessions_new 4 (HandlePool_new 10)) []).1.1 in
  (Sessions_resume t 1 []).2 = Some (with_att (session_new 1 [] 4) (MkAtt 2 None None 0 0 0), 2)
  ∧ epoch (MkAtt 2 None None 0 0 0) = 2.
Proof.
  set (t := (Sessions_create (Sessions_new 4 (HandlePool_new 10)) []).1.1). cbv zeta.
  split; [reflexivity|].
  assert (sessions_wf t) as Hwf.
  { eapply (create_wf (Sessions_new 4 (HandlePool_new 10)) []); [|reflexivity|reflexivity].
    split; unfold u64_max; try set_solver; simpl; lia. }
  destruct (resume_spec t 1 [] Hwf) as (st & _ & _ & _ & _ & _ & _ & _ & He & _). exact He.
Defined.

(** ** Runs of table operations *)

Inductive TableOp :=
| Op_create (token : list byte)
| Op_resume (id : Z) (token : list byte)
| Op_forget (id : Z)
| Op_detach (id e now : Z)
| Op_reap (now grace : Z)
| Op_free (id : Z).

(** An object is freed only once neither the table nor a hold refers to it. *)
Definition table_op (t : Sessions) (op : TableOp) : Sessions :=
  match op with
  | Op_create token => (Sessions_create t token).1.1
  | Op_resume id token => (Sessions_resume t id token).1
  | Op_forget id => Sessions_forget t id
  | Op_detach id e now => Sessions_detach t id e now
  | Op_reap now grace => (Sessions_reap t now grace).1
  | Op_free id =>
      match ss_objs t !! id with
      | Some st => if bool_decide (id ∈ ss_map t) || (0 <? s_holders st) then t
                   else free_session t id
      | None => t
      end
  end.

(** What the table keeps of the session [id] that was [st]. *)
Definition keeps (t : Sessions) (id : Z) (st : SessionState) : Prop :=
  ∃ st', ss_objs t !! id = Some st' ∧ id ∈ ss_map t ∪ ss_dropped t
  ∧ s_token st' = s_token st ∧ s_holders st' = s_holders st
  ∧ s_handles st' = s_handles st ∧ epoch (s_att st) ≤ epoch (s_att st').

Lemma set_obj_wf t id st st0 :
  sessions_wf t → ss_objs t !! id = Some st0 → s_id st = s_id st0 →
  sessions_wf (set_obj t id st).
Proof.
  intros [H1 H2 H3 H4 H5] Ho Hs. split; simpl; try done.
  - intros i Hi. destruct (decide (id = i)) as [->|]; [rewrite lookup_insert_eq; eauto|].
    rewrite lookup_insert_ne by done. eauto.
  - intros i s Hl. split_lookups; [|eauto]. rewrite Hs. eauto.
Qed.

Lemma resume_wf t id token : sessions_wf t → sessions_wf (Sessions_resume t id token).1.
Proof.
  intros Hwf. unfold Sessions_resume. destruct (resume_finds t id) as [[st d]|] eqn:Hf; [|done].
  apply (resume_finds_Some t id st d Hwf) in Hf as [Ho Hin].
  case_bool_decide; simpl; [|done].
  destruct Hin as [[-> Hm]|(-> & Hd & Hh)]; [by eapply set_obj_wf|].
  eapply (set_obj_wf (MkSessions _ _ _ _ _ _)); [|done|done].
  destruct Hwf as [H1 H2 H3 H4 H5]. split; simpl; try done; set_solver.
Qed.

Lemma table_op_wf t op :
  sessions_wf t → ss_next t + 1 < u64_max → sessions_wf (table_op t op).
Proof.
  intros Hwf Hn. destruct op as [token|id token|id|id e now|now grace|id]; cbn [table_op].
  - destruct (Sessions_create t token) as [[t' st] e] eqn:Hc. by eapply create_wf.
  - by apply resume_wf.
  - destruct Hwf. split; simpl; try done; set_solver.
  - unfold Sessions_detach. destruct (Sessions_get t id) eqn:Hg; [|done].
    apply Sessions_get_Some in Hg as [_ Hg]. by eapply set_obj_wf.
  - by apply retires_wf.
  - destruct (ss_objs t !! id) as [st|] eqn:Ho; [|done].
    case_bool_decide as Hm; simpl; [done|]. destruct (0 <? s_holders st); [done|].
    unfold free_session. rewrite Ho. destruct Hwf as [H1 H2 H3 H4 H5].
    split; simpl; try done.
    + intros i Hi. rewrite lookup_delete_ne; [eauto|]. by intros ->.
    + intros i s Hl. split_lookups. eauto.
Qed.

Lemma table_op_next t op :
  ss_next (table_op t op) = ss_next t ∨ ss_next (table_op t op) = wrap64 (ss_next t + 1).
Proof.
  destruct op as [token|id token|id|id e now|now grace|id]; simpl; eauto.
  - right. by rewrite retires_next.
  - left. unfold Sessions_resume. destruct (resume_finds t id) as [[st []]|]; simpl;
      try done; by case_bool_decide.
  - left. unfold Sessions_detach. by destruct (Sessions_get t id).
  - left. by rewrite retires_next.
  - left. destruct (ss_objs t !! id) as [st|] eqn:Ho; [|done].
    case_bool_decide; simpl; [done|]. destruct (0 <? s_holders st); [done|].
    unfold free_session. by rewrite Ho.
Qed.

Lemma set_obj_keeps t id st i s s0 :
  keeps t id st → ss_objs t !! i = Some s0 →
  s_token s = s_token s0 → s_holders s = s_holders s0 → s_handles s = s_handles s0 →
  epoch (s_att s0) ≤ epoch (s_att s) → keeps (set_obj t i s) id st.
Proof.
  intros (st' & Ho & Hin & H1 & H2 & H3 & H4) Hi G1 G2 G3 G4.
  destruct (decide (i = id)) as [->|Hne].
  - simplify_eq. exists s. simpl. rewrite lookup_insert_eq. repeat split; try congruence || done. lia.
  - exists st'. simpl. by rewrite lookup_insert_ne.
Qed.

Lemma retires_keeps l t id st : keeps t id st → keeps (foldl retire t l) id st.
Proof.
  intros (st' & Ho & Hin & H). exists st'. rewrite retires_objs.
  split; [done|]. split; [|done]. apply retires_keep; [by exists st'|done].
Qed.

Lemma table_op_keeps t op id st :
  sessions_wf t → 0 < s_holders st → op ≠ Op_forget id →
  keeps t id st → keeps (table_op t op) id st.
Proof.
  intros Hwf Hh Hop Hk. destruct op as [token|i token|i|i e now|now grace|i]; cbn [table_op].
  - destruct (Sessions_create t token) as [[t' s] e] eqn:Hc. simpl.
    destruct (create_fields _ _ _ _ _ Hc) as (_ & _ & Ho & Hm & Hd & _).
    destruct (fresh_id t Hwf) as (Hw & Hfo & _). rewrite Hw in *.
    set (t1 := MkSessions _ _ _ _ _ _) in Hd.
    destruct (retires_keeps (evicted t) t1 id st) as (st' & Ho' & Hin & H); [by apply Hk|].
    rewrite retires_objs in Ho'. simpl in Ho'. exists st'. rewrite Ho, Hm, Hd.
    rewrite retires_map in Hin. simpl in Hin.
    split; [|split; [set_solver|done]]. rewrite lookup_insert_ne; [done|]. intros <-. congruence.
  - unfold Sessions_resume. destruct (resume_finds t i) as [[s d]|] eqn:Hf; [|done].
    apply (resume_finds_Some t i s d Hwf) in Hf as [Ho Hin].
    case_bool_decide; simpl; [|done].
    eapply set_obj_keeps; [|by destruct d|simpl; done || lia..].
    destruct d; [|done]. destruct Hk as (st' & Hk1 & Hk2 & Hk3).
    exists st'. simpl. split; [done|]. split; [|done]. destruct (decide (i = id)); set_solver.
  - destruct Hk as (st' & Ho & Hin & H). exists st'. simpl. split; [done|].
    split; [|done]. assert (id ≠ i) by congruence. set_solver.
  - unfold Sessions_detach. destruct (Sessions_get t i) as [s|] eqn:Hg; [|done].
    apply Sessions_get_Some in Hg as [_ Hg]. eapply set_obj_keeps; [done|done|try done..].
    simpl. unfold detach_att. destruct (_ =? _); simpl; lia.
  - by apply retires_keeps.
  - destruct (ss_objs t !! i) as [s|] eqn:Ho; [|done].
    case_bool_decide as Hm; simpl; [done|]. destruct (Z.ltb_spec 0 (s_holders s)); [done|].
    unfold free_session. rewrite Ho. destruct Hk as (st' & Ho' & Hin & Ht & Hh' & H').
    exists st'. simpl. rewrite lookup_delete_ne; [done|]. intros ->. simplify_eq. lia.
Qed.

Lemma table_ops_keeps ops t id st :
  sessions_wf t → ss_next t + Z.of_nat (length ops) < u64_max → 0 < s_holders st →
  Op_forget id ∉ ops → keeps t id st →
  sessions_wf (foldl table_op t ops) ∧ keeps (foldl table_op t ops) id st.
Proof.
  revert t. induction ops as [|op ops IH]; intros t Hwf Hn Hh Hop Hk; simpl in *; [done|].
  pose proof (wf_next t Hwf). apply not_elem_of_cons in Hop as [Hop Hops].
  apply IH; try done.
  - apply table_op_wf; [done|lia].
  - destruct (table_op_next t op) as [-> | ->]; [lia|].
    rewrite wrap64_id; unfold is_u64, u64_max in *; lia.
  - by apply table_op_keeps.
Qed.

(** C9: a session with something under way can always be resumed.  Take a
    session of the table, or a dropped one, that something still holds: however
    many sessions are created (with the evictions that brings), resumed,
    detached, reaped or freed afterwards, and whatever other sessions are
    forgotten, its client still gets it back with its token: with the handles it
    had, and under an epoch above the one it had.  (The bound is on the sessions
    created: ids are 64 bits.) *)
Theorem under_way_stays_resumable t ops id st :
  sessions_wf t → ss_next t + Z.of_nat (length ops) < u64_max →
  ss_objs t !! id = Some st → id ∈ ss_map t ∪ ss_dropped t → 0 < s_holders st →
  Op_forget id ∉ ops →
  ∃ st' e, (Sessions_resume (foldl table_op t ops) id (s_token st)).2 = Some (st', e)
    ∧ s_handles st' = s_handles st ∧ epoch (s_att st) < e.
Proof.
  intros Hwf Hn Ho Hin Hh Hops.
  destruct (table_ops_keeps ops t id st Hwf Hn Hh Hops) as [Hwf' Hk].
  { exists st. repeat split; done || lia. }
  destruct Hk as (st1 & Ho1 & Hin1 & Ht & Hh1 & Hhs & He).
  set (t' := foldl table_op t ops) in *. unfold Sessions_resume.
  assert (∃ d, resume_finds t' id = Some (st1, d)) as [d Hf].
  { apply elem_of_union in Hin1 as [Hm|Hd].
    - exists false. apply resume_finds_Some; [done|]. naive_solver.
    - exists true. apply resume_finds_Some; [done|]. split; [done|]. right.
      repeat split; try done. lia. }
  rewrite Hf. rewrite bool_decide_eq_true_2 by done. simpl.
  eexists _, _. split; [done|]. simpl. split; [done|lia].
Qed.

Lemma under_way_stays_resumable_witness :
  let t := (Sessions_create (Sessions_new 4 (HandlePool_new 10)) []).1.1 in
  let t1 := set_obj t 1 (hold (session_new 1 [] 4)) in
  ∃ st' e, (Sessions_resume (foldl table_op t1 [Op_detach 1 1 0; Op_reap 100 60; Op_free 1]) 1 []).2
             = Some (st', e)
    ∧ s_handles st' = Handles_new 4 ∧ 1 < e.
Proof.
  cbv zeta. set (t := (Sessions_create (Sessions_new 4 (HandlePool_new 10)) []).1.1).
  assert (sessions_wf t) as Hwf.
  { eapply (create_wf (Sessions_new 4 (HandlePool_new 10)) []); [|reflexivity|reflexivity].
    split; unfold u64_max; try set_solver; simpl; lia. }
  apply (under_way_stays_resumable (set_obj t 1 (hold (session_new 1 [] 4)))
           [Op_detach 1 1 0; Op_reap 100 60; Op_free 1] 1 (hold (session_new 1 [] 4))).
  - eapply set_obj_wf; [done|reflexivity|reflexivity].
  - reflexivity.
  - reflexivity.
  - set_solver.
  - reflexivity.
  - intros H. repeat apply elem_of_cons in H as [?|H]; try done. by apply elem_of_nil in H.
Defined.

(** What the reaper drops.  On a well-formed table, a session stays in it
    exactly when it is attached or its grace period still runs, none is
    destroyed, and the answer is how many were dropped. *)
Theorem reap_spec t now grace :
  sessions_wf t →
  let '(t', n) := Sessions_reap t now grace in
  (∀ id, id ∈ ss_map t' ↔ id ∈ ss_map t
     ∧ ∀ at_, detached_time t id = Some at_ → Z.max 0 (now - at_) < grace)
  ∧ ss_objs t' = ss_objs t
  ∧ n = Z.of_nat (size (ss_map t)) - Z.of_nat (size (ss_map t')).
Proof.
  intros Hwf. unfold Sessions_reap.
  set (ex := filter _ _).
  assert (∀ id, id ∈ ex ↔ id ∈ ss_map t ∧ ∃ at_, detached_time t id = Some at_
                          ∧ grace ≤ Z.max 0 (now - at_)) as Hex.
  { intros id. unfold ex. rewrite list_elem_of_filter, elem_of_elements.
    unfold is_expired, detached_time, Sessions_get.
    destruct (decide (id ∈ ss_map t)) as [Hm|]; [|naive_solver].
    rewrite bool_decide_eq_true_2 by done. destruct (wf_map t Hwf id Hm) as [st ->]. simpl.
    destruct (detached_at (s_att st)) as [at_|]; [|naive_solver].
    destruct (Z.leb_spec grace (Z.max 0 (now - at_))); naive_solver lia. }
  rewrite retires_objs, retires_map. split; [|split; [done|]].
  - intros id. rewrite elem_of_difference, elem_of_list_to_set, Hex. split.
    + intros [Hm Hn]. split; [done|]. intros at_ Ht.
      destruct (Z.lt_ge_cases (Z.max 0 (now - at_)) grace); [done|]. naive_solver.
    + intros [Hm Hn]. split; [done|]. intros [_ (at_ & Ht & Hg)]. specialize (Hn _ Ht). lia.
  - assert (NoDup ex) by (apply NoDup_filter, NoDup_elements).
    rewrite size_difference, size_list_to_set by set_solver.
    assert (length ex ≤ size (ss_map t))%nat; [|lia].
    rewrite <- (size_list_to_set (C := gset Z) ex) by done. apply subseteq_size. set_solver.
Qed.

Lemma reap_spec_witness :
  (Sessions_reap (Sessions_detach (Sessions_create (Sessions_new 4 (HandlePool_new 10)) []).1.1
                    1 1 0) 100 60).2 = 1.
Proof.
  set (t := Sessions_detach _ _ _ _).
  assert (sessions_wf t) as Hwf.
  { eapply (table_op_wf _ (Op_detach 1 1 0)); [|reflexivity].
    eapply (create_wf (Sessions_new 4 (HandlePool_new 10)) []); [|reflexivity|reflexivity].
    split; unfold u64_max; try set_solver; simpl; lia. }
  pose proof (reap_spec t 100 60 Hwf) as H. destruct H as (_ & _ & H). exact H.
Defined.

(** ** The handshake *)

Lemma authenticate_ok token auth :
  authenticate token auth = Ok tt ↔ (∀ tok, token = Some tok → auth = Token tok).
Proof.
  unfold authenticate. destruct token as [tok|]; [|naive_solver].
  destruct auth as [|given]; [naive_solver|]. case_bool_decide; naive_solver.
Qed.

Lemma handshake_ok sv t hello token t' st e resumed :
  handshake_outcome sv t hello token = (t', Ok (st, e, resumed)) →
  h_revision hello = sv_revision sv ∧ authenticate (sv_token sv) (h_auth hello) = Ok tt
  ∧ ((resumed = true ∧ ∃ r, h_resume hello = Some r
        ∧ Sessions_resume t (r_session_id r) (r_token r) = (t', Some (st, e)))
     ∨ (resumed = false ∧ Sessions_create t token = (t', st, e))).
Proof.
  unfold handshake_outcome.
  destruct (Z.eqb_spec (h_revision hello) (sv_revision sv)); [|done]. cbn [negb].
  destruct (authenticate _ _) as [[]|] eqn:Ha; [|done].
  assert (∀ t0 id tok t1, Sessions_resume t0 id tok = (t1, None) → t1 = t0) as Hsame.
  { intros t0 id tok t1. unfold Sessions_resume. intros. split_matches; by simplify_eq. }
  destruct (h_resume hello) as [r|] eqn:Hr.
  - destruct (Sessions_resume t (r_session_id r) (r_token r)) as [t1 [[s e']|]] eqn:Hs.
    + intros Heq. injection Heq as <- <- <- <-. split; [done|]. split; [done|]. left. eauto.
    + apply Hsame in Hs. subst t1. destruct (Sessions_create t token) as [[? ?] ?].
      intros Heq. injection Heq as <- <- <- <-. split; [done|]. split; [done|]. right. done.
  - destruct (Sessions_create t token) as [[? ?] ?]. intros Heq. injection Heq as <- <- <- <-. split; [done|]. split; [done|]. right. done.
Qed.

Lemma create_forget_map t token t' st e :
  sessions_wf t → Sessions_create t token = (t', st, e) →
  ss_map (Sessions_forget t' (s_id st)) ⊆ ss_map t.
Proof.
  intros Hwf Hc. destruct (create_fields _ _ _ _ _ Hc) as (-> & _ & _ & Hm & _).
  simpl. rewrite Hm. set_solver.
Qed.

(** What a handshake lets through.  A client of another revision is told so
    whatever its credentials, one that does not present the server's token is
    rejected, and neither changes the table.  A session is attached only to a
    client of the same revision that presented the token the server requires
    (if any), and resumed only for the session and token the client named.  A
    new session whose Ack never reached the client leaves no session in the
    table that was not there. *)
Theorem handshake_guards sv t hello token written now :
  sessions_wf t →
  let '(t', reply, attached) := handshake sv t hello token written now in
  (h_revision hello ≠ sv_revision sv →
     t' = t ∧ reply = RevisionMismatch (sv_revision sv) ∧ attached = None)
  ∧ (∀ reason, h_revision hello = sv_revision sv →
       authenticate (sv_token sv) (h_auth hello) = Err reason →
       t' = t ∧ reply = Reject reason ∧ attached = None)
  ∧ (∀ st e resumed, attached = Some (st, e, resumed) →
       h_revision hello = sv_revision sv
       ∧ (∀ tok, sv_token sv = Some tok → h_auth hello = Token tok)
       ∧ reply = Ack (s_id st) (s_token st) resumed (sv_root_ino sv) (sv_root_identity sv)
                     (sv_uid sv) (sv_gid sv)
       ∧ (resumed = true → ∃ r, h_resume hello = Some r
            ∧ s_id st = r_session_id r ∧ s_token st = r_token r))
  ∧ (written = false → attached = None
       ∧ (∀ a b c d e f, reply = Ack a b false c d e f → ss_map t' ⊆ ss_map t)).
Proof.
  intros Hwf. destruct (handshake sv t hello token written now) as [[t' reply] att] eqn:Hh.
  unfold handshake in Hh.
  destruct (handshake_outcome sv t hello token) as [t1 [[[st e] resumed]|[rep err]]] eqn:Ho.
  - apply handshake_ok in Ho as (Hrev & Hau & Hcase). simplify_eq/=.
    split; [done|]. split; [intros; congruence|]. split.
    + intros st' e' resumed' Heq. destruct written; simplify_eq/=.
      split; [done|]. split; [by apply authenticate_ok|]. split; [done|]. intros ->.
      destruct Hcase as [(_ & r & Hr & Hres)|[? _]]; [|done]. exists r. split; [done|].
      pose proof (resume_spec t (r_session_id r) (r_token r) Hwf) as Hsp.
      rewrite Hres in Hsp. destruct Hsp as (s0 & Hs0 & Ht & _ & Hs & _).
      unfold Sessions_resume in Hres.
      destruct (resume_finds t (r_session_id r)) as [[s1 d]|] eqn:Hf; [|done].
      apply (resume_finds_Some _ _ _ _ Hwf) in Hf as [Hs1 _].
      case_bool_decide; simplify_eq/=.
      destruct (wf_id t Hwf (r_session_id r) _ ltac:(eassumption)). done.
    + intros ->. split; [done|]. intros a b c d e1 f Heq.
      injection Heq as _ _ -> _ _ _ _.
      destruct Hcase as [(? & _)|(_ & Hc)]; [done|]. simpl. by eapply create_forget_map.
  - simplify_eq. unfold handshake_outcome in Ho.
    destruct (Z.eqb_spec (h_revision hello) (sv_revision sv)) as [Hrev|Hrev]; cbn [negb] in Ho.
    + destruct (authenticate (sv_token sv) (h_auth hello)) as [[]|reason] eqn:Ha.
      { destruct (h_resume hello) as [r|]; [destruct (Sessions_resume _ _ _) as [? [[? ?]|]]|];
          try destruct (Sessions_create _ _) as [[? ?] ?]; simplify_eq. }
      simplify_eq. naive_solver.
    + simplify_eq. naive_solver.
Qed.

Lemma handshake_guards_witness :
  let sv := MkServer 5 (Some [Corelib.Init.Byte.x01]) 2 (MkIdentity 1 []) 0 0 in
  (handshake sv (Sessions_new 4 (HandlePool_new 10)) (MkHello 5 Anonymous None) [] true 0).1.2
  = Reject "this server requires a token".
Proof.
  cbv zeta.
  assert (sessions_wf (Sessions_new 4 (HandlePool_new 10))) as Hwf
    by (split; unfold u64_max; try set_solver; simpl; lia).
  destruct (handshake_guards (MkServer 5 (Some [Corelib.Init.Byte.x01]) 2 (MkIdentity 1 []) 0 0)
              (Sessions_new 4 (HandlePool_new 10)) (MkHello 5 Anonymous None) [] true 0 Hwf)
    as (_ & H & _).
  destruct (H _ eq_refl eq_refl) as (_ & Hr & _). exact Hr.
Defined.

(** ** Connections *)

Inductive ConnOp := CO_claim (id e conn : Z) | CO_drop (id e : Z).

Definition conn_op (conns : gmap Z (Z * Z)) (op : ConnOp) : gmap Z (Z * Z) :=
  match op with
  | CO_claim id e conn => (claim_connection conns id e conn).1
  | CO_drop id e => drop_connection conns id e
  end.

Definition older_op (id e : Z) (op : ConnOp) : Prop :=
  match op with
  | CO_claim i e' _ => i = id → e' < e
  | CO_drop i e' => i = id → e' ≠ e
  end.

(** An older connection neither displaces nor removes a newer one.  Once the
    connection of some epoch is registered as a session's, any claims by
    connections of lower epochs and any removals by connections of other epochs,
    in any order and mixed with those of other sessions, leave it registered;
    and a claim of a lower epoch is refused. *)
Theorem newer_connection_stays conns ops id e conn :
  conns !! id = Some (e, conn) → Forall (older_op id e) ops →
  foldl conn_op conns ops !! id = Some (e, conn)
  ∧ ∀ e' conn', e' < e → claim_connection (foldl conn_op conns ops) id e' conn'
                         = (foldl conn_op conns ops, None).
Proof.
  intros Hl Hops.
  assert (foldl conn_op conns ops !! id = Some (e, conn)) as Hend.
  { revert conns Hl. induction Hops as [|op ops Hop _ IH]; intros conns Hl; simpl; [done|].
    apply IH. destruct op as [i e' c|i e']; simpl in *.
    - unfold claim_connection. destruct (decide (i = id)) as [->|Hne].
      + rewrite Hl. simpl. specialize (Hop eq_refl). by replace (e' <? e) with true by lia.
      + destruct (conns !! i) as [[e0 c0]|]; simpl;
          [destruct (e' <? e0)|]; simpl; try rewrite lookup_insert_ne by done; done.
    - unfold drop_connection. destruct (decide (i = id)) as [->|Hne].
      + rewrite Hl. simpl. specialize (Hop eq_refl). by replace (e =? e') with false by lia.
      + destruct (conns !! i) as [[e0 c0]|]; [|done]. simpl.
        destruct (e0 =? e'); [|done]. by rewrite lookup_delete_ne. }
  split; [done|]. intros e' conn' Hlt. unfold claim_connection. rewrite Hend. simpl.
  by replace (e' <? e) with true by lia.
Qed.

Lemma newer_connection_stays_witness :
  foldl conn_op {[4 := (3, 30)]} [CO_claim 4 2 20; CO_drop 4 2; CO_claim 9 8 1] !! 4
  = Some (3, 30).
Proof.
  apply (newer_connection_stays {[4 := (3, 30)]}
           [CO_claim 4 2 20; CO_drop 4 2; CO_claim 9 8 1] 4 3 30); [reflexivity|].
  repeat constructor; simpl; lia.
Defined.
