(* ===== verification/ClientTypes.v ===== *)
(** * The client's shared types ([crates/client/src/client.rs], [inodes.rs])

    How a call fails and the errno the kernel is given for it, and what names a
    file on the server. *)

From S2P Require Import Prelude Types Msg.

(** ** [client.rs]: errors *)

(** Linux errno values of [libc]. *)
Definition EINTR : Z := 4.
Definition EIO : Z := 5.
Definition EINVAL : Z := 22.
Definition ENOTCONN : Z := 107.
Definition ETIMEDOUT : Z := 110.
Definition ESTALE : Z := 116.

Inductive Error :=
| Error_Timeout
| Error_Interrupted
| Error_Disconnected
| Error_Stale
| Error_Remote (errno : Z)
| Error_Protocol (msg : string)
| Error_Closed
| Error_Unmapped.

#[export] Instance Error_eq_dec : EqDecision Error.
Proof. solve_decision. Defined.

Definition Error_errno (e : Error) : Z :=
  match e with
  | Error_Timeout => ETIMEDOUT
  | Error_Interrupted => EINTR
  | Error_Disconnected => EIO
  | Error_Stale => ESTALE
  | Error_Remote e => if (0 <? e) && (e <? 4096) then e else EIO
  | Error_Protocol _ => EIO
  | Error_Closed => ENOTCONN
  | Error_Unmapped => EINVAL
  end.

(** ** [inodes.rs]: what a node is *)

(** The FUSE root nodeid. *)
Definition ROOT : Z := 1.

Record KeyNode := MkKeyNode { k_ino : Z; k_identity : Identity }.

#[export] Instance KeyNode_eq_dec : EqDecision KeyNode.
Proof. solve_decision. Defined.
#[export] Program Instance KeyNode_countable : Countable KeyNode :=
  inj_countable' (λ k, (k_ino k, k_identity k)) (λ p, MkKeyNode p.1 p.2) _.
Next Obligation. by intros []. Qed.

(** A file as a reply describes it. *)
Record Seen := MkSeen {
  seen_ino : Z; seen_identity : Identity; seen_foreign : bool; seen_kind : FileKind }.

Definition Seen_from (attr : Attr) : Seen :=
  MkSeen (a_ino attr) (a_identity attr) (a_foreign attr) (a_kind attr).

Definition Seen_key (s : Seen) : KeyNode := MkKeyNode (seen_ino s) (seen_identity s).

Definition KeyNode_of (attr : Attr) : KeyNode := Seen_key (Seen_from attr).

Definition describes (k : KeyNode) (attr : Attr) : bool :=
  (k_ino k =? a_ino attr) && bool_decide (k_identity k = a_identity attr).

Lemma describes_of k attr : describes k attr = true ↔ k = KeyNode_of attr.
Proof.
  destruct k as [i id]. unfold describes, KeyNode_of, Seen_key, Seen_from; simpl.
  rewrite andb_true_iff, Z.eqb_eq, bool_decide_eq_true. naive_solver.
Qed.

(** The errno of a reply is a valid one: what FUSE accepts is [1 .. 4095]. *)
Lemma errno_range e : 0 < Error_errno e < 4096.
Proof.
  destruct e; simpl; unfold EIO, EINTR, EINVAL, ENOTCONN, ETIMEDOUT, ESTALE; try lia.
  destruct (Z.ltb_spec 0 errno), (Z.ltb_spec errno 4096); simpl; lia.
Qed.
