(* ===== verification/Owners.v ===== *)
(** * File owners ([crates/proto/src/owners.rs], [crates/server/src/ids.rs],
    [crates/client/src/ids.rs])

    Which owners cross the wire.  The server's [--ids flatten] lets only its own
    uid and gid through, in both directions; the client's [--ids owned] shows the
    server's user as the local one and everyone else as nobody.  Owners are the
    uid and gid of every attribute record and the ids of the named entries of a
    POSIX ACL, which is an extended attribute in the kernel's byte form. *)

From S2P Require Import Prelude Types Msg ClientTypes.
From Stdlib Require Import Strings.Byte.

Definition NOBODY : Z := 65534.

Inductive KindOwner := User | Group.

#[export] Instance KindOwner_eq_dec : EqDecision KindOwner.
Proof. solve_decision. Defined.

Definition POSIX_ACL_NAMES : list (list byte) :=
  [String.list_byte_of_string "system.posix_acl_access"; String.list_byte_of_string "system.posix_acl_default"].
Definition ACL_VERSION : Z := 2.
Definition ACL_ENTRY : nat := 8.
Definition ACL_USER : Z := 2.
Definition ACL_GROUP : Z := 8.

Definition is_posix_acl (name : list byte) : bool :=
  bool_decide (name ∈ POSIX_ACL_NAMES).

(** [as_chunks::<8>]: the whole chunks, and what is left over. *)
Fixpoint as_chunks8 (l : list byte) : list (list byte) * list byte :=
  match l with
  | b0 :: b1 :: b2 :: b3 :: b4 :: b5 :: b6 :: b7 :: rest =>
      let '(cs, ragged) := as_chunks8 rest in
      ([b0; b1; b2; b3; b4; b5; b6; b7] :: cs, ragged)
  | ragged => ([], ragged)
  end.

Definition acl_entries_raw (value : list byte) : option (list (list byte)) :=
  match value with
  | v0 :: v1 :: v2 :: v3 :: entries =>
      let '(entries, ragged) := as_chunks8 entries in
      if (of_le_bytes [v0; v1; v2; v3] =? ACL_VERSION) && bool_decide (ragged = [])
      then Some entries else None
  | _ => None
  end.

Definition owner_of (entry : list byte) : option (KindOwner * Z) :=
  match entry with
  | [e0; e1; _; _; e4; e5; e6; e7] =>
      let tag := of_le_bytes [e0; e1] in
      let id := of_le_bytes [e4; e5; e6; e7] in
      if tag =? ACL_USER then Some (User, id)
      else if tag =? ACL_GROUP then Some (Group, id)
      else None
  | _ => None
  end.

(** The owners the named entries of an ACL name. *)
Definition acl_owners (value : list byte) : option (list (KindOwner * Z)) :=
  match acl_entries_raw value with
  | Some entries => Some (omap (M := list) owner_of entries)
  | None => None
  end.

Definition map_entry (map : KindOwner → Z → Z) (entry : list byte) : list byte :=
  match owner_of entry with
  | Some (kind, id) => take 4 entry ++ le_bytes 4 (map kind id)
  | None => entry
  end.

(** The value with every named id replaced, and whether it is an ACL. *)
Definition acl_map (value : list byte) (map : KindOwner → Z → Z) : list byte * bool :=
  match acl_entries_raw value with
  | None => (value, false)
  | Some _ =>
      let '(entries, ragged) := as_chunks8 (drop 4 value) in
      (take 4 value ++ concat (map_entry map <$> entries) ++ ragged, true)
  end.

Definition map_attr (map : KindOwner → Z → Z) (a : Attr) : Attr :=
  MkAttr (a_ino a) (a_size a) (a_blocks a) (a_atime a) (a_mtime a) (a_ctime a) (a_kind a)
    (a_perm a) (a_nlink a) (map User (a_uid a)) (map Group (a_gid a)) (a_rdev a)
    (a_blksize a) (a_xattr_names a) (a_identity a) (a_foreign a).

Definition map_reply (resp : Response) (posix_acl_read : bool) (map : KindOwner → Z → Z)
  : Response :=
  match resp with
  | Resp_Entry a => Resp_Entry (map_attr map a)
  | Resp_Attr a => Resp_Attr (map_attr map a)
  | Resp_Opened a => Resp_Opened (map_attr map a)
  | Resp_Readdir entries e =>
      Resp_Readdir ((λ d, MkDirEntry (de_next_offset d) (de_name d)
                            (map_attr map <$> de_attr d)) <$> entries) e
  | Resp_Xattr value => if posix_acl_read then Resp_Xattr (acl_map value map).1 else resp
  | Resp_Err _ | Resp_Readlink _ | Resp_Ok | Resp_Read _ | Resp_Written _ | Resp_Copied _
  | Resp_Seeked _ | Resp_Statfs _ => resp
  end.

Definition reads_posix_acl (req : Request) : bool :=
  match req with Req_Getxattr _ name => is_posix_acl name | _ => false end.

(** ** The server's map *)

Module ServerIds.

Inductive ModeIds := Direct | Flatten.

Record IdMap := MkIdMap { mode : ModeIds; uid : Z; gid : Z }.

Definition EPERM : Z := 1.
Definition EOPNOTSUPP : Z := 95.

Definition IdMap_new (m : ModeIds) (u g : Z) : option IdMap :=
  match m with
  | Flatten => if (u =? NOBODY) || (g =? NOBODY) then None else Some (MkIdMap m u g)
  | Direct => Some (MkIdMap m u g)
  end.

Definition own (m : IdMap) (kind : KindOwner) : Z :=
  match kind with User => uid m | Group => gid m end.

(** [is_some_and] of an inequality. *)
Definition names_other (id : option Z) (mine : Z) : bool :=
  match id with Some id => negb (id =? mine) | None => false end.

Definition IdMap_admit (m : IdMap) (req : Request) : result Z () :=
  match mode m with
  | Direct => Ok ()
  | Flatten =>
      let system name :=
        if bool_decide (String.list_byte_of_string "system." `prefix_of` name)
           && negb (is_posix_acl name)
        then Err EOPNOTSUPP else Ok () in
      match req with
      | Req_Setattr _ _ set =>
          if names_other (s_uid set) (uid m) || names_other (s_gid set) (gid m)
          then Err EPERM else Ok ()
      | Req_Setxattr _ name value _ =>
          if is_posix_acl name then
            named ← ok_or (acl_owners value) EINVAL;
            if forallb (λ ki, ki.2 =? own m ki.1) named then Ok () else Err EPERM
          else system name
      | Req_Getxattr _ name | Req_Removexattr _ name => system name
      | _ => Ok ()
      end
  end.

Definition flat (m : IdMap) (kind : KindOwner) (id : Z) : Z :=
  if id =? own m kind then id else NOBODY.

Definition reply (m : IdMap) (posix_acl_read : bool) (resp : Response) : Response :=
  match mode m with
  | Flatten => map_reply resp posix_acl_read (flat m)
  | Direct => resp
  end.

End ServerIds.

(** ** The client's map *)

Module ClientIds.

Inductive ModeIds := Direct | Owned_mode.

Record Owned := MkOwned {
  server_uid : Z; server_gid : Z; local_uid : Z; local_gid : Z }.

Inductive IdMap := IdMap_Direct | IdMap_Owned (o : Owned).

(** [euid] and [egid] are this process's effective ids. *)
Definition IdMap_new (m : ModeIds) (euid egid su sg : Z) : IdMap :=
  match m with
  | Direct => IdMap_Direct
  | Owned_mode => IdMap_Owned (MkOwned su sg euid egid)
  end.

Inductive Caveat := Caveat_Nobody | Caveat_Root.

(** Why the map may mislead; the texts of the warnings are not modelled. *)
Definition caveat (m : IdMap) : option Caveat :=
  match m with
  | IdMap_Direct => None
  | IdMap_Owned o =>
      if bool_decide (NOBODY ∈ [server_uid o; server_gid o; local_uid o; local_gid o])
      then Some Caveat_Nobody
      else if (server_uid o =? 0) && negb (local_uid o =? 0) then Some Caveat_Root
      else None
  end.

Definition pair_ (o : Owned) (kind : KindOwner) : Z * Z :=
  match kind with
  | User => (server_uid o, local_uid o)
  | Group => (server_gid o, local_gid o)
  end.

Definition local (o : Owned) (kind : KindOwner) (id : Z) : Z :=
  let '(server, local) := pair_ o kind in if id =? server then local else NOBODY.

Definition server (o : Owned) (kind : KindOwner) (id : Z) : result Error Z :=
  let '(server, local) := pair_ o kind in
  if id =? local then Ok server else Err Error_Unmapped.

(** [Option::map] then [transpose]. *)
Definition map_opt (f : Z → result Error Z) (id : option Z) : result Error (option Z) :=
  match id with None => Ok None | Some id => id ← f id; Ok (Some id) end.

Definition Owned_incoming (o : Owned) (req : Request) (resp : Response) : Response :=
  map_reply resp (reads_posix_acl req) (local o).

Definition Owned_outgoing (o : Owned) (req : Request) : result Error (option Request) :=
  match req with
  | Req_Setattr path fh set =>
      if bool_decide (is_Some (s_uid set)) || bool_decide (is_Some (s_gid set)) then
        uid ← map_opt (server o User) (s_uid set);
        gid ← map_opt (server o Group) (s_gid set);
        Ok (Some (Req_Setattr path fh
             (MkSetAttr (s_mode set) uid gid (s_size set) (s_atime set) (s_mtime set))))
      else Ok None
  | Req_Setxattr path name value flags =>
      if is_posix_acl name then
        match acl_owners value with
        | None => Ok None
        | Some named =>
            if forallb (λ ki, is_ok (server o ki.1 ki.2)) named then
              Ok (Some (Req_Setxattr path name
                   (acl_map value (λ kind _, (pair_ o kind).1)).1 flags))
            else Err Error_Unmapped
        end
      else Ok None
  | _ => Ok None
  end.

Definition incoming (m : IdMap) (req : Request) (resp : Response) : Response :=
  match m with
  | IdMap_Direct => resp
  | IdMap_Owned o => Owned_incoming o req resp
  end.

Definition outgoing (m : IdMap) (req : Request) : result Error (option Request) :=
  match m with
  | IdMap_Direct => Ok None
  | IdMap_Owned o => Owned_outgoing o req
  end.

End ClientIds.

(** ** ACL values *)

(** Induction over a byte string eight at a time. *)
Lemma chunks8_ind (P : list byte → Prop) :
  (∀ l, (length l < 8)%nat → P l) →
  (∀ e l, length e = 8%nat → P l → P (e ++ l)) →
  ∀ l, P l.
Proof.
  intros Hshort Hstep l. remember (length l) as n eqn:Hn. revert l Hn.
  induction n as [n IH] using lt_wf_ind. intros l ->.
  destruct (Nat.lt_ge_cases (length l) 8) as [|Hge]; [by apply Hshort|].
  rewrite <- (take_drop 8 l). apply Hstep; [rewrite length_take; lia|].
  apply (IH (length (drop 8 l))); [rewrite length_drop; lia|done].
Qed.

Lemma as_chunks8_short l : (length l < 8)%nat → as_chunks8 l = ([], l).
Proof. intros Hl. do 8 (destruct l as [|? l]; [done|]). simpl in Hl. lia. Qed.

Lemma as_chunks8_app e l :
  length e = 8%nat → as_chunks8 (e ++ l) = (e :: (as_chunks8 l).1, (as_chunks8 l).2).
Proof.
  intros He. do 8 (destruct e as [|? e]; [done|]). destruct e; [|done]. simpl.
  by destruct (as_chunks8 l).
Qed.

Lemma length_map_entry map e : length e = 8%nat → length (map_entry map e) = 8%nat.
Proof.
  intros He. unfold map_entry. destruct (owner_of e) as [[k i]|]; [|done].
  rewrite length_app, length_take, length_le_bytes. lia.
Qed.

(** Mapping the chunks and cutting again gives the mapped chunks. *)
Lemma as_chunks8_map map l :
  as_chunks8 (concat (map_entry map <$> (as_chunks8 l).1) ++ (as_chunks8 l).2)
  = (map_entry map <$> (as_chunks8 l).1, (as_chunks8 l).2).
Proof.
  induction l as [l Hl|e l He IH] using chunks8_ind.
  - rewrite (as_chunks8_short l Hl). simpl. by apply as_chunks8_short.
  - rewrite (as_chunks8_app e l He). cbn [fst snd]. rewrite fmap_cons. cbn [concat].
    rewrite <- app_assoc, as_chunks8_app by by apply length_map_entry. by rewrite IH.
Qed.

Lemma as_chunks8_concat l : concat (as_chunks8 l).1 ++ (as_chunks8 l).2 = l.
Proof.
  induction l as [l Hl|e l He IH] using chunks8_ind.
  - by rewrite (as_chunks8_short l Hl).
  - rewrite (as_chunks8_app e l He). simpl. by rewrite <- app_assoc, IH.
Qed.

Lemma as_chunks8_length l : Forall (λ e, length e = 8%nat) (as_chunks8 l).1.
Proof.
  induction l as [l Hl|e l He IH] using chunks8_ind.
  - by rewrite (as_chunks8_short l Hl).
  - rewrite (as_chunks8_app e l He). simpl. by constructor.
Qed.

Lemma owner_of_map_entry map e :
  length e = 8%nat → (∀ k i, is_u32 (map k i)) →
  owner_of (map_entry map e) = (λ ki, (ki.1, map ki.1 ki.2)) <$> owner_of e.
Proof.
  intros He Hmap. unfold map_entry.
  do 8 (destruct e as [|? e]; [done|]). destruct e; [|done].
  destruct (owner_of [b; b0; b1; b2; b3; b4; b5; b6]) as [[k i]|] eqn:Ho; [|by rewrite Ho].
  unfold owner_of in Ho. set (tag := of_le_bytes [b; b0]) in *.
  cbn [take app]. pose proof (of_le_bytes_le 4 (map k i)) as Hid.
  specialize (Hmap k i). unfold is_u32 in Hmap. specialize (Hid ltac:(lia)). cbn [le_bytes] in *.
  unfold owner_of. fold tag. rewrite Hid.
  destruct (tag =? ACL_USER); [by simplify_eq|]. destruct (tag =? ACL_GROUP); by simplify_eq.
Qed.

Lemma acl_entries_raw_Some value entries :
  acl_entries_raw value = Some entries →
  (4 ≤ length value)%nat ∧ as_chunks8 (drop 4 value) = (entries, [])
  ∧ of_le_bytes (take 4 value) = ACL_VERSION.
Proof.
  unfold acl_entries_raw. do 4 (destruct value as [|? value]; [done|]).
  destruct (as_chunks8 value) as [cs r] eqn:Hc.
  destruct (Z.eqb_spec (of_le_bytes [b; b0; b1; b2]) ACL_VERSION); simpl; [|done].
  case_bool_decide; [|done]. intros [= ->]. subst. simpl in *.
  split; [lia|]. done.
Qed.

Lemma acl_entries_raw_intro v l :
  length v = 4%nat → of_le_bytes v = ACL_VERSION → (as_chunks8 l).2 = [] →
  acl_entries_raw (v ++ l) = Some (as_chunks8 l).1.
Proof.
  intros Hv Hver Hr. do 4 (destruct v as [|? v]; [done|]). destruct v; [|done].
  unfold acl_entries_raw. cbn [app]. destruct (as_chunks8 l) as [cs r]. simpl in Hr. subst r.
  rewrite Hver, Z.eqb_refl. by rewrite bool_decide_eq_true_2.
Qed.

Lemma acl_map_entries value entries map :
  acl_entries_raw value = Some entries →
  acl_entries_raw (acl_map value map).1 = Some (map_entry map <$> entries)
  ∧ (acl_map value map).2 = true ∧ length (acl_map value map).1 = length value
  ∧ take 4 (acl_map value map).1 = take 4 value.
Proof.
  intros He. pose proof He as (Hlen & Hc & Hver)%acl_entries_raw_Some.
  unfold acl_map. rewrite He, Hc. cbn [fst snd].
  pose proof (as_chunks8_map map (drop 4 value)) as Hm. rewrite Hc in Hm. cbn [fst snd] in Hm.
  assert (length (take 4 value) = 4%nat) as Ht by (rewrite length_take; lia).
  split_and!.
  - rewrite acl_entries_raw_intro by (done || by rewrite Hm). by rewrite Hm.
  - done.
  - rewrite !length_app, Ht. simpl. rewrite Nat.add_0_r.
    pose proof (as_chunks8_length (drop 4 value)) as Hall.
    pose proof (f_equal length (as_chunks8_concat (drop 4 value))) as Hcc.
    rewrite Hc in Hall, Hcc. cbn [fst snd] in *. rewrite app_nil_r, length_drop in Hcc.
    assert (length (concat (map_entry map <$> entries)) = length (concat entries)) as ->.
    { clear -Hall. induction Hall as [|e es He _ IH]; [done|]. cbn [fmap list_fmap concat].
      rewrite !length_app, IH, length_map_entry by done. lia. }
    lia.
  - by rewrite take_app_le, take_ge by lia.
Qed.

(** ** Every owner a message carries *)

Definition map_owner (map : KindOwner → Z → Z) (ki : KindOwner * Z) : KindOwner * Z :=
  (ki.1, map ki.1 ki.2).

Definition attr_owners (a : Attr) : list (KindOwner * Z) := [(User, a_uid a); (Group, a_gid a)].

(** The owners of a reply, the reply being an ACL's value or not. *)
Definition owners_in (resp : Response) (posix_acl_read : bool) : list (KindOwner * Z) :=
  match resp with
  | Resp_Entry a | Resp_Attr a | Resp_Opened a => attr_owners a
  | Resp_Readdir entries _ => flat_map (λ d, from_option attr_owners [] (de_attr d)) entries
  | Resp_Xattr value => if posix_acl_read then default [] (acl_owners value) else []
  | _ => []
  end.

(** The owners a request asks for. *)
Definition owners_named (req : Request) : list (KindOwner * Z) :=
  match req with
  | Req_Setattr _ _ set =>
      from_option (λ u, [(User, u)]) [] (s_uid set) ++ from_option (λ g, [(Group, g)]) [] (s_gid set)
  | Req_Setxattr _ name value _ => if is_posix_acl name then default [] (acl_owners value) else []
  | _ => []
  end.

Lemma acl_map_owners value map os :
  (∀ k i, is_u32 (map k i)) → acl_owners value = Some os →
  acl_owners (acl_map value map).1 = Some (map_owner map <$> os).
Proof.
  intros Hmap. unfold acl_owners. destruct (acl_entries_raw value) as [es|] eqn:He; [|done].
  intros [= <-]. destruct (acl_map_entries value es map He) as (-> & _). f_equal.
  pose proof He as (_ & Hc & _)%acl_entries_raw_Some.
  pose proof (as_chunks8_length (drop 4 value)) as Hall. rewrite Hc in Hall. simpl in Hall.
  clear -Hall Hmap. induction Hall as [|e es He _ IH]; [done|]. simpl.
  rewrite owner_of_map_entry by done. destruct (owner_of e); simpl; [|done].
  f_equal. exact IH.
Qed.

Lemma acl_map_not_acl value map : acl_owners value = None → acl_map value map = (value, false).
Proof. unfold acl_owners, acl_map. by destruct (acl_entries_raw value). Qed.

Lemma map_reply_owners resp b map :
  (∀ k i, is_u32 (map k i)) →
  owners_in (map_reply resp b map) b = map_owner map <$> owners_in resp b.
Proof.
  intros Hmap. destruct resp; simpl; try done.
  - induction entries as [|[off name a] entries IH]; [done|].
    rewrite fmap_cons. cbn [flat_map de_attr]. rewrite IH, fmap_app. by destruct a.
  - destruct b; simpl; [|done]. destruct (acl_owners value) as [os|] eqn:Ho.
    + by rewrite (acl_map_owners _ _ _ Hmap Ho).
    + rewrite (acl_map_not_acl _ _ Ho). simpl. by rewrite Ho.
Qed.

Definition u32_ids (m : ServerIds.IdMap) : Prop :=
  is_u32 (ServerIds.uid m) ∧ is_u32 (ServerIds.gid m).

Lemma flat_u32 m k i : u32_ids m → is_u32 (ServerIds.flat m k i).
Proof.
  intros [Hu Hg]. unfold ServerIds.flat. destruct (Z.eqb_spec i (ServerIds.own m k)) as [->|].
  - by destruct k.
  - unfold is_u32, NOBODY. lia.
Qed.

Lemma local_u32 o k i :
  is_u32 (ClientIds.local_uid o) → is_u32 (ClientIds.local_gid o) → is_u32 (ClientIds.local o k i).
Proof.
  intros Hu Hg. unfold ClientIds.local. destruct k; simpl; destruct (_ =? _); try done;
    unfold is_u32, NOBODY; lia.
Qed.

(** The client's map to this server. *)
Definition facing (o : ClientIds.Owned) (m : ServerIds.IdMap) : Prop :=
  ClientIds.server_uid o = ServerIds.uid m ∧ ClientIds.server_gid o = ServerIds.gid m.

Lemma facing_pair o m k : facing o m → (ClientIds.pair_ o k).1 = ServerIds.own m k.
Proof. intros [Hu Hg]. by destruct k. Qed.

(** A request that names no owner but the server's own is not refused for it. *)
Lemma admit_own m req :
  (∀ k i, (k, i) ∈ owners_named req → i = ServerIds.own m k) →
  ServerIds.IdMap_admit m req ≠ Err ServerIds.EPERM.
Proof.
  unfold ServerIds.IdMap_admit. destruct (ServerIds.mode m); [done|].
  destruct req; simpl; try done; try (intros _; by destruct (bool_decide _ && _)).
  - intros Hown. destruct (s_uid set) as [u|], (s_gid set) as [g|]; simpl in *;
      rewrite ?(Hown User u), ?(Hown Group g), ?Z.eqb_refl by set_solver; done.
  - destruct (is_posix_acl name); [|intros _; by destruct (bool_decide _ && _)].
    destruct (acl_owners value) as [os|]; simpl; [|done]. intros Hown.
    replace (forallb _ os) with true; [done|]. symmetry. apply forallb_forall.
    intros [k i] Hin%list_elem_of_In. apply Z.eqb_eq. by apply Hown.
Qed.

Lemma server_own o m k i j : facing o m → ClientIds.server o k i = Ok j → j = ServerIds.own m k.
Proof.
  intros Hf. unfold ClientIds.server. pose proof (facing_pair o m k Hf) as Hp.
  destruct (ClientIds.pair_ o k) as [s l]. simpl in Hp. destruct (i =? l); [|done]. congruence.
Qed.

Lemma map_opt_own o m k id id' :
  facing o m → ClientIds.map_opt (ClientIds.server o k) id = Ok id' →
  ∀ j, id' = Some j → j = ServerIds.own m k.
Proof.
  intros Hf Hm j ->. destruct id as [i|]; simpl in Hm; [|done].
  destruct (ClientIds.server o k i) eqn:Hs; simpl in Hm; [|done]. simplify_eq.
  by eapply server_own.
Qed.

(** What the client's map lets out names only the server's own ids. *)
Lemma outgoing_named o m req sent :
  facing o m → u32_ids m → ClientIds.outgoing (ClientIds.IdMap_Owned o) req = Ok sent →
  ∀ k i, (k, i) ∈ owners_named (default req sent) → i = ServerIds.own m k.
Proof.
  intros Hf Hids Hout k i Hin. destruct req; simpl in Hout; simplify_eq;
    try (by apply elem_of_nil in Hin).
  - destruct (bool_decide _ || bool_decide _) eqn:Hsome.
    + destruct (ClientIds.map_opt (ClientIds.server o User) _) as [u|] eqn:Hu; simpl in Hout; [|done].
      destruct (ClientIds.map_opt (ClientIds.server o Group) _) as [g|] eqn:Hg; simpl in Hout; [|done].
      simplify_eq. simpl in Hin. apply elem_of_app in Hin as [Hin|Hin].
      * destruct u as [u|]; simpl in Hin; [|by apply elem_of_nil in Hin].
        apply list_elem_of_singleton in Hin. simplify_eq. by eapply map_opt_own in Hu.
      * destruct g as [g|]; simpl in Hin; [|by apply elem_of_nil in Hin].
        apply list_elem_of_singleton in Hin. simplify_eq. by eapply map_opt_own in Hg.
    + simplify_eq. apply orb_false_iff in Hsome as [Hu Hg]. apply bool_decide_eq_false in Hu, Hg.
      simpl in Hin. apply eq_None_not_Some in Hu, Hg. rewrite Hu, Hg in Hin.
      by apply elem_of_nil in Hin.
  - destruct (is_posix_acl name) eqn:Hn; [|simplify_eq; simpl in Hin; rewrite Hn in Hin; by apply elem_of_nil in Hin].
    destruct (acl_owners value) as [os|] eqn:Ho;
      [|simplify_eq; simpl in Hin; rewrite Hn, Ho in Hin; by apply elem_of_nil in Hin].
    destruct (forallb _ os); [|done]. simplify_eq. simpl in Hin. rewrite Hn in Hin.
    rewrite (acl_map_owners value _ os) in Hin by
      (done || (intros k' ?; rewrite (facing_pair o m k' Hf); by destruct Hids, k')).
    apply list_elem_of_fmap in Hin as ([k' i'] & Hki & _). unfold map_owner in Hki.
    simpl in Hki. simplify_eq. by apply facing_pair.
Qed.

(** ** Properties *)

(** An ACL naming a user: version 2, the owner's entry, then user 1000. *)
Definition demo_acl : list byte :=
  [x02; x00; x00; x00;
   x01; x00; x07; x00; xff; xff; xff; xff;
   x02; x00; x06; x00; xe8; x03; x00; x00].

(** Rewriting the owners of a POSIX ACL changes exactly the ids of its named
    entries.  On a value that is one, the result is one, of the same length and
    version, whose named entries are the same with each id mapped; on any other
    value nothing changes and the function says so. *)
Theorem acl_map_exact value map :
  (∀ k i, is_u32 (map k i)) →
  match acl_owners value with
  | Some os =>
      (acl_map value map).2 = true
      ∧ acl_owners (acl_map value map).1 = Some (map_owner map <$> os)
      ∧ length (acl_map value map).1 = length value
      ∧ take 4 (acl_map value map).1 = take 4 value
  | None => acl_map value map = (value, false)
  end.
Proof.
  intros Hmap. destruct (acl_owners value) as [os|] eqn:Ho; [|by apply acl_map_not_acl].
  pose proof (acl_map_owners _ _ _ Hmap Ho) as Hos. unfold acl_owners in Ho.
  destruct (acl_entries_raw value) as [es|] eqn:He; [|done].
  destruct (acl_map_entries value es map He) as (_ & ? & ? & ?). done.
Qed.

Lemma acl_map_exact_witness :
  acl_owners (acl_map demo_acl (λ _ _, NOBODY)).1 = Some [(User, 65534)].
Proof.
  apply (acl_map_exact demo_acl (λ _ _, NOBODY)). intros. split; reflexivity || discriminate.
Defined.

(** C12: a flattening server never discloses an owner.  Every owner of every reply
    it sends (attributes, each entry of a directory listing, the named entries of
    an ACL) is the server's own id of that kind or nobody, and each is what it was
    if it was the server's own and nobody otherwise. *)
Theorem flatten_hides_owners m resp posix_acl_read :
  ServerIds.mode m = ServerIds.Flatten → u32_ids m →
  owners_in (ServerIds.reply m posix_acl_read resp) posix_acl_read
  = map_owner (ServerIds.flat m) <$> owners_in resp posix_acl_read
  ∧ ∀ k i, (k, i) ∈ owners_in (ServerIds.reply m posix_acl_read resp) posix_acl_read →
      i = ServerIds.own m k ∨ i = NOBODY.
Proof.
  intros Hmode Hids.
  assert (owners_in (ServerIds.reply m posix_acl_read resp) posix_acl_read
          = map_owner (ServerIds.flat m) <$> owners_in resp posix_acl_read) as Heq.
  { unfold ServerIds.reply. rewrite Hmode. apply map_reply_owners. intros. by apply flat_u32. }
  split; [done|]. rewrite Heq. intros k i ([k' i'] & Hki & _)%list_elem_of_fmap.
  unfold map_owner, ServerIds.flat in Hki; simpl in Hki.
  destruct (Z.eqb_spec i' (ServerIds.own m k')); simplify_eq; auto.
Qed.

Definition demo_ids : ServerIds.IdMap := ServerIds.MkIdMap ServerIds.Flatten 1001 1002.

Lemma demo_ids_u32 : u32_ids demo_ids.
Proof. unfold u32_ids, is_u32; simpl. lia. Qed.

Lemma flatten_hides_owners_witness :
  owners_in (ServerIds.reply demo_ids true (Resp_Xattr demo_acl)) true = [(User, NOBODY)].
Proof.
  rewrite (proj1 (flatten_hides_owners demo_ids (Resp_Xattr demo_acl) true eq_refl demo_ids_u32)).
  vm_compute. reflexivity.
Defined.

(** An owned mount never trips over the server's flattening.  Whatever the
    kernel asks, a request the client's map lets out names only the server's own
    ids, so a flattening server never refuses it with [EPERM]: the only refusals
    left are of an ACL that does not parse and of other [system.] attributes. *)
Theorem owned_request_admitted o m req sent :
  facing o m → u32_ids m → ClientIds.outgoing (ClientIds.IdMap_Owned o) req = Ok sent →
  (∀ k i, (k, i) ∈ owners_named (default req sent) → i = ServerIds.own m k)
  ∧ ServerIds.IdMap_admit m (default req sent) ≠ Err ServerIds.EPERM.
Proof.
  intros Hf Hids Hout. pose proof (outgoing_named _ _ _ _ Hf Hids Hout) as Hn.
  split; [exact Hn|]. by apply admit_own.
Qed.

Definition demo_owned : ClientIds.Owned := ClientIds.MkOwned 1001 1002 1000 1000.

Lemma owned_request_admitted_witness :
  ServerIds.IdMap_admit demo_ids
    (Req_Setxattr Path_root (String.list_byte_of_string "system.posix_acl_access")
       (acl_map demo_acl (λ k _, (ClientIds.pair_ demo_owned k).1)).1 0)
  ≠ Err ServerIds.EPERM.
Proof.
  refine (proj2 (owned_request_admitted demo_owned demo_ids
    (Req_Setxattr Path_root (String.list_byte_of_string "system.posix_acl_access") demo_acl 0)
    (Some _) (conj eq_refl eq_refl) demo_ids_u32 _)).
  vm_compute. reflexivity.
Defined.

(** Through a flattening server and an owned mount, a file shows as the local
    user's exactly when the server's user owns it, and as nobody's otherwise.
    This is what the server's refusal to flatten as nobody is for: with it, no
    other owner's nobody can be taken for the server's own. *)
Theorem owned_shows_the_servers_own m u g o req resp :
  ServerIds.IdMap_new ServerIds.Flatten u g = Some m → u32_ids m → facing o m →
  is_u32 (ClientIds.local_uid o) → is_u32 (ClientIds.local_gid o) →
  owners_in (ClientIds.incoming (ClientIds.IdMap_Owned o) req
               (ServerIds.reply m (reads_posix_acl req) resp)) (reads_posix_acl req)
  = map_owner (λ k i, if i =? ServerIds.own m k then (ClientIds.pair_ o k).2 else NOBODY)
      <$> owners_in resp (reads_posix_acl req).
Proof.
  unfold ServerIds.IdMap_new. intros Hnew Hids Hf Hlu Hlg.
  destruct ((u =? NOBODY) || (g =? NOBODY)) eqn:Hno; [done|]. injection Hnew as <-.
  apply orb_false_iff in Hno as [Hu Hg].
  unfold ClientIds.incoming, ClientIds.Owned_incoming, ServerIds.reply.
  cbn [ServerIds.mode]. rewrite !map_reply_owners by
    (intros; by apply local_u32 || by apply flat_u32).
  rewrite <- list_fmap_compose. apply list_fmap_ext. intros _ [k i] _.
  unfold map_owner, ClientIds.local, ServerIds.flat. cbn [compose fst snd].
  pose proof (facing_pair o _ k Hf) as Hp. destruct (ClientIds.pair_ o k) as [s l].
  simpl in Hp. rewrite Hp. unfold ServerIds.own in *. cbn [snd]. f_equal.
  destruct k; simpl; [destruct (Z.eqb_spec i u)|destruct (Z.eqb_spec i g)]; subst;
    rewrite ?Z.eqb_refl; try done.
  - rewrite Z.eqb_sym in Hu. by rewrite Hu.
  - rewrite Z.eqb_sym in Hg. by rewrite Hg.
Qed.

Lemma owned_shows_the_servers_own_witness :
  owners_in (ClientIds.incoming (ClientIds.IdMap_Owned demo_owned)
               (Req_Getxattr Path_root (String.list_byte_of_string "system.posix_acl_access"))
               (ServerIds.reply demo_ids true (Resp_Xattr demo_acl))) true = [(User, NOBODY)].
Proof.
  pose (req := Req_Getxattr Path_root (String.list_byte_of_string "system.posix_acl_access")).
  assert (reads_posix_acl req = true) as Hreq by (vm_compute; reflexivity).
  pose proof (owned_shows_the_servers_own demo_ids 1001 1002 demo_owned req (Resp_Xattr demo_acl)
    eq_refl demo_ids_u32 (conj eq_refl eq_refl)) as H.
  rewrite Hreq in H. fold req. rewrite H by (unfold is_u32; simpl; lia). vm_compute. reflexivity.
Defined.
