(* ===== verification/ClientHandles.v ===== *)
(** * The client's table of open handles ([crates/client/src/handles.rs])

    The records of the handles the kernel holds, and the releases the client
    still owes the server.

    A record is shared: the table, a call under way and a round of reopens hold
    the same [Arc<HandleRec>], and marking it dead through one is seen through
    all.  So records live in a store of the table's state, [ht_heap], and an
    [Arc] is an index of it; a record is never freed, and only its [hr_dead]
    ever changes.  The mutexes guard one operation each, so an operation is one
    step.  The iteration order of a [HashMap] is the model's map order; no
    theorem depends on it.  The counters are mathematical integers: the theorems
    bound them by the number of handles held. *)

From S2P Require Import Prelude Types Msg ClientTypes.
From stdpp Require Import sorting.
Local Open Scope Z_scope.

(** Open flags of [libc]. *)
Definition O_RDONLY : Z := 0.
Definition O_ACCMODE : Z := 3.
Definition O_CREAT : Z := 64.
Definition O_EXCL : Z := 128.
Definition O_TRUNC : Z := 512.
Definition O_APPEND : Z := 1024.

Record Opener := MkOpener { o_pid : Z; o_name : string }.

Inductive HandleKind := HK_File | HK_Dir.

#[export] Instance HandleKind_eq_dec : EqDecision HandleKind.
Proof. solve_decision. Defined.

Record HandleRec := MkHandleRec {
  hr_nodeid : Z;
  hr_key : KeyNode;
  hr_path : Path;
  hr_flags : Z;
  hr_kind : HandleKind;
  hr_opener : option Opener;
  hr_dead : bool }.

Definition is_dead (r : HandleRec) : bool := hr_dead r.
Definition appends (r : HandleRec) : bool := negb (Z.land (hr_flags r) O_APPEND =? 0).
Definition mark_dead (r : HandleRec) : HandleRec :=
  MkHandleRec (hr_nodeid r) (hr_key r) (hr_path r) (hr_flags r) (hr_kind r)
    (hr_opener r) true.

(** The request that opens the handle again under its id. *)
Definition reopen_request (r : HandleRec) (fh : Z) : Request :=
  match hr_kind r with
  | HK_File =>
      Req_Open fh (hr_path r)
        (Z.land (hr_flags r) (Z.lnot (Z.lor (Z.lor O_CREAT O_EXCL) O_TRUNC)))
  | HK_Dir => Req_Opendir fh (hr_path r)
  end.

(** [client.rs]: the release of a handle of this kind. *)
Definition release_request (kind : HandleKind) (fh : Z) : Request :=
  match kind with
  | HK_File => Req_Release fh true
  | HK_Dir => Req_Releasedir fh true
  end.

Record OwedRelease := MkOwed { ow_req : Request; ow_sending_on : option Z }.

(** The table, with the store of every record it ever made. *)
Record HandleTable := MkTable {
  ht_next : Z;
  ht_map : gmap Z nat;
  ht_owed : gmap Z OwedRelease;
  ht_owed_count : Z;
  ht_files : Z;
  ht_dirs : Z;
  ht_heap : list HandleRec }.

Definition HandleTable_default : HandleTable := MkTable 0 ∅ ∅ 0 0 0 [].

(** The record an [Arc] points to. *)
Definition deref (t : HandleTable) (a : nat) : option HandleRec := ht_heap t !! a.

Definition with_heap (t : HandleTable) (h : list HandleRec) : HandleTable :=
  MkTable (ht_next t) (ht_map t) (ht_owed t) (ht_owed_count t) (ht_files t) (ht_dirs t) h.
Definition with_owed (t : HandleTable) (o : gmap Z OwedRelease) : HandleTable :=
  MkTable (ht_next t) (ht_map t) o (ht_owed_count t) (ht_files t) (ht_dirs t) (ht_heap t).

(** [fetch_add] on the counter of a kind. *)
Definition ht_count_add (t : HandleTable) (kind : HandleKind) (d : Z) : HandleTable :=
  match kind with
  | HK_File => MkTable (ht_next t) (ht_map t) (ht_owed t) (ht_owed_count t)
                 (ht_files t + d) (ht_dirs t) (ht_heap t)
  | HK_Dir => MkTable (ht_next t) (ht_map t) (ht_owed t) (ht_owed_count t)
                (ht_files t) (ht_dirs t + d) (ht_heap t)
  end.

Definition with_map (t : HandleTable) (m : gmap Z nat) : HandleTable :=
  MkTable (ht_next t) m (ht_owed t) (ht_owed_count t) (ht_files t) (ht_dirs t) (ht_heap t).

(** A fresh id: [next.fetch_add(1) + 1], wrapping at 64 bits. *)
Definition ht_alloc (t : HandleTable) : Z * HandleTable :=
  let n := wrap64 (ht_next t + 1) in
  (n, MkTable n (ht_map t) (ht_owed t) (ht_owed_count t) (ht_files t) (ht_dirs t) (ht_heap t)).

Definition ht_insert (t : HandleTable) (fh nodeid : Z) (key : KeyNode) (path : Path)
    (flags : Z) (kind : HandleKind) (opener : option Opener) : nat * HandleTable :=
  let rec := MkHandleRec nodeid key path flags kind opener false in
  let a := length (ht_heap t) in
  let t := with_heap t (ht_heap t ++ [rec]) in
  let t := ht_count_add t kind 1 in
  let old := ht_map t !! fh in
  let t := with_map t (<[fh := a]> (ht_map t)) in
  (a, match old ≫= deref t with
      | Some old => ht_count_add t (hr_kind old) (-1)
      | None => t
      end).

Definition ht_totals (t : HandleTable) : Z * Z := (ht_files t, ht_dirs t).

Definition ht_get (t : HandleTable) (fh : Z) : option nat := ht_map t !! fh.

Definition ht_remove (t : HandleTable) (fh : Z) : option nat * HandleTable :=
  match ht_map t !! fh with
  | None => (None, t)
  | Some a =>
      let t := with_map t (delete fh (ht_map t)) in
      (Some a, match deref t a with
               | Some rec => ht_count_add t (hr_kind rec) (-1)
               | None => t
               end)
  end.

(** Owe a release; [None] is the panic on a request that is not one. *)
Definition owe_release (t : HandleTable) (release : Request) : option HandleTable :=
  release ← match release with
            | Req_Release fh _ => Some (Req_Release fh true)
            | Req_Releasedir fh _ => Some (Req_Releasedir fh true)
            | _ => None
            end;
  fh ← (fhs release).1;
  Some match ht_owed t !! fh with
       | Some _ => t
       | None =>
           MkTable (ht_next t) (ht_map t) (<[fh := MkOwed release None]> (ht_owed t))
             (ht_owed_count t + 1) (ht_files t) (ht_dirs t) (ht_heap t)
       end.

(** The [BTreeMap] iterates by ascending id. *)
Definition owed_unsent (t : HandleTable) : list Z :=
  merge_sort Z.le
    (map_to_list (filter (λ fo, ow_sending_on fo.2 = None) (ht_owed t))).*1.

(** [None] is the [expect] on a release that is not owed. *)
Definition owed_send (t : HandleTable) (fh generation : Z)
  : option (Request * HandleTable) :=
  o ← ht_owed t !! fh;
  Some (ow_req o,
        with_owed t (<[fh := MkOwed (ow_req o) (Some generation)]> (ht_owed t))).

Definition owed_delivered (t : HandleTable) (fh generation : Z) : HandleTable :=
  match ht_owed t !! fh with
  | Some o => if bool_decide (ow_sending_on o = Some generation)
              then with_owed t (delete fh (ht_owed t)) else t
  | None => t
  end.

Definition owed_connection_ended (t : HandleTable) (generation : Z) : HandleTable :=
  with_owed t ((λ o, if bool_decide (ow_sending_on o = Some generation)
                     then MkOwed (ow_req o) None else o) <$> ht_owed t).

Definition owed_moot (t : HandleTable) : HandleTable := with_owed t ∅.

Definition ht_len (t : HandleTable) : nat := size (ht_map t).

(** The handles held, with their records. *)
Definition held (t : HandleTable) : list (Z * nat * HandleRec) :=
  omap (λ fa, r ← deref t fa.2; Some (fa, r)) (map_to_list (ht_map t)).

Definition any_live_for (t : HandleTable) (nodeid : Z) : option Z :=
  (λ h, h.1.1) <$>
    List.find (λ h : Z * nat * HandleRec, (hr_nodeid h.2 =? nodeid) && negb (is_dead h.2)) (held t).

Definition opened_to_write (r : HandleRec) : bool :=
  negb (Z.land (hr_flags r) O_ACCMODE =? O_RDONLY).

Definition has_writer (t : HandleTable) (nodeid : Z) : bool :=
  existsb (λ h : Z * nat * HandleRec,
    (hr_nodeid h.2 =? nodeid) && negb (is_dead h.2) && opened_to_write h.2) (held t).

Definition may_be_dirty (t : HandleTable) (nodeid : Z) : bool :=
  existsb (λ h : Z * nat * HandleRec,
    (hr_nodeid h.2 =? nodeid) && opened_to_write h.2) (held t).

Definition open_nodeids (t : HandleTable) : list Z :=
  (λ h : Z * nat * HandleRec, hr_nodeid h.2) <$>
    filter (λ h : Z * nat * HandleRec, is_dead h.2 = false) (held t).

Definition live (t : HandleTable) : list (Z * nat) :=
  (λ h : Z * nat * HandleRec, h.1) <$>
    filter (λ h : Z * nat * HandleRec, is_dead h.2 = false) (held t).

Definition kill (t : HandleTable) (a : nat) : HandleTable :=
  with_heap t (alter mark_dead a (ht_heap t)).

(** Every live handle is marked dead as the walk meets it, then the release of
    each is owed. *)
Definition kill_live (tk : HandleTable * list (Z * HandleKind)) (fa : Z * nat)
  : HandleTable * list (Z * HandleKind) :=
  match deref tk.1 fa.2 with
  | Some rec => if is_dead rec then tk
                else (kill tk.1 fa.2, tk.2 ++ [(fa.1, hr_kind rec)])
  | None => tk
  end.

Definition kill_all (t : HandleTable) : option HandleTable :=
  let tk := foldl kill_live (t, []) (map_to_list (ht_map t)) in
  foldl (λ t fk, t ← t; owe_release t (release_request fk.2 fk.1)) (Some tk.1) tk.2.

(** The outcome of a reopen that keeps the handle. *)
Definition same_file (r : HandleRec) (outcome : result Error Response) : bool :=
  match outcome with
  | Ok (Resp_Opened attr) => describes (hr_key r) attr
  | _ => false
  end.

Definition apply_reopen (t : HandleTable) (a : nat) (outcome : result Error Response)
  : HandleTable :=
  match deref t a with
  | Some rec => if same_file rec outcome then t else kill t a
  | None => t
  end.

(** ** Every sequence of operations *)

Inductive HandleOp :=
| Op_alloc
| Op_insert (fh nodeid : Z) (key : KeyNode) (path : Path) (flags : Z) (kind : HandleKind)
            (opener : option Opener)
| Op_remove (fh : Z)
| Op_owe_release (release : Request)
| Op_owed_send (fh generation : Z)
| Op_owed_delivered (fh generation : Z)
| Op_owed_connection_ended (generation : Z)
| Op_owed_moot
| Op_kill_all
| Op_apply_reopen (a : nat) (outcome : result Error Response).

(** The table after an operation, if the operation does not panic. *)
Definition run_op (t : HandleTable) (op : HandleOp) : option HandleTable :=
  match op with
  | Op_alloc => Some (ht_alloc t).2
  | Op_insert fh nodeid key path flags kind opener =>
      Some (ht_insert t fh nodeid key path flags kind opener).2
  | Op_remove fh => Some (ht_remove t fh).2
  | Op_owe_release release => owe_release t release
  | Op_owed_send fh g => snd <$> owed_send t fh g
  | Op_owed_delivered fh g => Some (owed_delivered t fh g)
  | Op_owed_connection_ended g => Some (owed_connection_ended t g)
  | Op_owed_moot => Some (owed_moot t)
  | Op_kill_all => kill_all t
  | Op_apply_reopen a outcome => Some (apply_reopen t a outcome)
  end.

Definition table_step (t t' : HandleTable) : Prop := ∃ op, run_op t op = Some t'.
Definition table_reachable (t : HandleTable) : Prop := rtc table_step HandleTable_default t.

(** ** Invariant *)

Definition kind_at (h : list HandleRec) (k : HandleKind) (a : nat) : bool :=
  match h !! a with Some r => bool_decide (hr_kind r = k) | None => false end.

(** Every handle has a record of its own, and the counters count the handles. *)
Record table_ok (t : HandleTable) : Prop := {
  ok_deref : ∀ fh a, ht_map t !! fh = Some a → is_Some (deref t a);
  ok_inj : ∀ fh fh' a, ht_map t !! fh = Some a → ht_map t !! fh' = Some a → fh = fh';
  ok_files : ht_files t = map_count (kind_at (ht_heap t) HK_File) (ht_map t);
  ok_dirs : ht_dirs t = map_count (kind_at (ht_heap t) HK_Dir) (ht_map t) }.

Lemma map_count_ext {K A} `{Countable K} (p q : A → bool) (m : gmap K A) :
  (∀ k x, m !! k = Some x → p x = q x) → map_count p m = map_count q m.
Proof. intros Hpq. apply map_sum_ext. intros k x Hx. by rewrite (Hpq k x Hx). Qed.

Lemma kind_at_kill h a k b : kind_at (alter mark_dead a h) k b = kind_at h k b.
Proof.
  unfold kind_at. rewrite list_lookup_alter. case_decide; [|done]. subst.
  by destruct (h !! b).
Qed.

Lemma kill_ok t a : table_ok t → table_ok (kill t a).
Proof.
  intros [Hd Hi Hf Hr]. split; simpl.
  - intros fh b Hb. unfold deref; simpl. rewrite list_lookup_alter.
    case_decide; subst; [apply fmap_is_Some|]; by eapply Hd.
  - done.
  - rewrite Hf. apply map_count_ext. intros. by rewrite kind_at_kill.
  - rewrite Hr. apply map_count_ext. intros. by rewrite kind_at_kill.
Qed.

Lemma owe_release_fields t req t' :
  owe_release t req = Some t' →
  ht_map t' = ht_map t ∧ ht_heap t' = ht_heap t ∧ ht_files t' = ht_files t
  ∧ ht_dirs t' = ht_dirs t ∧ ht_next t' = ht_next t.
Proof.
  unfold owe_release. destruct req; simpl; intros; simplify_eq;
    by destruct (ht_owed t !! fh); simplify_eq.
Qed.

Lemma kind_at_app h r k a : (a < length h)%nat → kind_at (h ++ [r]) k a = kind_at h k a.
Proof. intros Ha. unfold kind_at. by rewrite lookup_app_l. Qed.

Lemma kind_at_last h r k : kind_at (h ++ [r]) k (length h) = bool_decide (hr_kind r = k).
Proof. unfold kind_at. by rewrite lookup_app_r, Nat.sub_diag. Qed.

(** The counter of a kind. *)
Definition counter (t : HandleTable) (k : HandleKind) : Z :=
  match k with HK_File => ht_files t | HK_Dir => ht_dirs t end.

Lemma counter_ht_count_add t k k' d :
  counter (ht_count_add t k d) k' = counter t k' + (if bool_decide (k = k') then d else 0).
Proof. destruct k, k'; simpl; lia. Qed.

Lemma ht_count_add_fields t k d :
  ht_map (ht_count_add t k d) = ht_map t ∧ ht_heap (ht_count_add t k d) = ht_heap t
  ∧ ht_owed (ht_count_add t k d) = ht_owed t ∧ ht_next (ht_count_add t k d) = ht_next t
  ∧ ht_owed_count (ht_count_add t k d) = ht_owed_count t.
Proof. by destruct k. Qed.

Lemma table_ok_alt t :
  table_ok t ↔
    (∀ fh a, ht_map t !! fh = Some a → is_Some (deref t a))
    ∧ (∀ fh fh' a, ht_map t !! fh = Some a → ht_map t !! fh' = Some a → fh = fh')
    ∧ ∀ k, counter t k = map_count (kind_at (ht_heap t) k) (ht_map t).
Proof.
  split.
  - intros [Hd Hi Hf Hr]. split; [done|]. split; [done|]. by intros [].
  - intros (Hd & Hi & Hc). split; [done|done|apply (Hc HK_File)|apply (Hc HK_Dir)].
Qed.

(** What an insert leaves, in the terms of the table before. *)
Lemma ht_insert_fields t fh nodeid key path flags kind opener a t' :
  ht_insert t fh nodeid key path flags kind opener = (a, t') →
  a = length (ht_heap t)
  ∧ ht_heap t' = ht_heap t ++ [MkHandleRec nodeid key path flags kind opener false]
  ∧ ht_map t' = <[fh := a]> (ht_map t) ∧ ht_owed t' = ht_owed t ∧ ht_next t' = ht_next t
  ∧ ht_owed_count t' = ht_owed_count t
  ∧ ∀ k, counter t' k = counter t k + (if bool_decide (kind = k) then 1 else 0)
         + match ht_map t !! fh with
           | Some b => if kind_at (ht_heap t ++ [MkHandleRec nodeid key path flags kind opener false]) k b then -1 else 0
           | None => 0
           end.
Proof.
  unfold ht_insert, deref. set (r := MkHandleRec _ _ _ _ _ _ _). intros [= <- <-].
  destruct (ht_count_add_fields (with_heap t (ht_heap t ++ [r])) kind 1) as (Hm & Hh & Ho & Hn & Hc).
  cbn [with_map ht_heap]. rewrite Hm, Hh. cbn [with_heap ht_map ht_heap].
  destruct (ht_map t !! fh) as [b|]; cbn [mbind option_bind];
    [destruct ((ht_heap t ++ [r]) !! b) as [o|] eqn:Hb|].
  - set (t1 := with_map _ _).
    destruct (ht_count_add_fields t1 (hr_kind o) (-1)) as (-> & -> & -> & -> & ->).
    subst t1; cbn [with_map ht_heap ht_map ht_owed ht_next ht_owed_count].
    rewrite Hh, Ho, Hn, Hc. repeat split; [done..|]. intros k. unfold kind_at. rewrite Hb.
    rewrite counter_ht_count_add.
    destruct k, kind; simpl; repeat case_bool_decide; try done; lia.
  - cbn [with_map ht_heap ht_map ht_owed ht_next ht_owed_count].
    rewrite Hh, Ho, Hn, Hc. repeat split; [done..|]. intros k. unfold kind_at. rewrite Hb.
    destruct k, kind; simpl; lia.
  - cbn [with_map ht_heap ht_map ht_owed ht_next ht_owed_count].
    rewrite Hh, Ho, Hn, Hc. repeat split; [done..|]. intros k.
    destruct k, kind; simpl; lia.
Qed.

Lemma ht_insert_ok t fh nodeid key path flags kind opener :
  table_ok t → table_ok (ht_insert t fh nodeid key path flags kind opener).2.
Proof.
  destruct (ht_insert _ _ _ _ _ _ _ _) as [a t'] eqn:Ht. simpl.
  apply ht_insert_fields in Ht as (-> & Hh & Hm & _ & _ & _ & Hc).
  set (r := MkHandleRec _ _ _ _ _ _ _) in *.
  rewrite !table_ok_alt. intros (Hd & Hi & Hk).
  assert (∀ j b, ht_map t !! j = Some b → (b < length (ht_heap t))%nat) as Hlt.
  { intros j b Hb. by apply lookup_lt_is_Some, (Hd j). }
  unfold deref. rewrite Hh, Hm. split; [|split].
  - intros j b Hj. apply lookup_lt_is_Some. rewrite length_app; simpl.
    split_lookups; [lia|]. apply Hlt in Hj. lia.
  - intros j j' b Hj Hj'. split_lookups; try (apply Hlt in Hj || apply Hlt in Hj'; lia); eauto.
  - intros k. rewrite Hc, Hk.
    rewrite (map_count_ext (kind_at (ht_heap t) k) (kind_at (ht_heap t ++ [r]) k)).
    2:{ intros j b Hj. symmetry. eapply kind_at_app, Hlt, Hj. }
    destruct (ht_map t !! fh) as [b|] eqn:Hb.
    + rewrite (map_count_insert_Some _ _ _ _ _ Hb), kind_at_last; simpl.
      destruct (kind_at _ k b); case_bool_decide; simpl; lia.
    + rewrite (map_count_insert_None _ _ _ _ Hb), kind_at_last; simpl.
      case_bool_decide; simpl; lia.
Qed.

Lemma ht_remove_fields t fh a t' :
  table_ok t → ht_map t !! fh = Some a → (ht_remove t fh).2 = t' →
  (ht_remove t fh).1 = Some a ∧ ht_map t' = delete fh (ht_map t) ∧ ht_heap t' = ht_heap t
  ∧ ht_owed t' = ht_owed t ∧ ht_next t' = ht_next t
  ∧ ∀ k, counter t' k = counter t k - b2z (kind_at (ht_heap t) k a).
Proof.
  intros Hok Ha. unfold ht_remove. rewrite Ha. simpl.
  destruct (ok_deref t Hok fh a Ha) as [r Hr]. unfold deref in *; simpl. rewrite Hr. intros <-.
  destruct (ht_count_add_fields (with_map t (delete fh (ht_map t))) (hr_kind r) (-1))
    as (-> & -> & -> & -> & _). do 5 (split; [done|]).
  intros k. rewrite counter_ht_count_add. unfold kind_at. rewrite Hr.
  destruct k; simpl; case_bool_decide; simpl; lia.
Qed.

(** What a removal leaves apart from the counters. *)
Lemma ht_remove_parts t fh :
  ht_map (ht_remove t fh).2 = delete fh (ht_map t)
  ∧ ht_heap (ht_remove t fh).2 = ht_heap t ∧ ht_owed (ht_remove t fh).2 = ht_owed t.
Proof.
  unfold ht_remove. destruct (ht_map t !! fh) as [a|] eqn:Ha; simpl.
  - destruct (deref _ a) as [r|]; [|done].
    by destruct (ht_count_add_fields (with_map t (delete fh (ht_map t))) (hr_kind r) (-1))
      as (-> & -> & -> & _).
  - by rewrite delete_id.
Qed.

Lemma map_count_delete {K A} `{Countable K} (p : A → bool) (m : gmap K A) k x :
  m !! k = Some x → map_count p (delete k m) = map_count p m - b2z (p x).
Proof. intros Hk. unfold map_count. by rewrite (map_sum_delete _ _ _ _ Hk). Qed.

Lemma ht_remove_ok t fh : table_ok t → table_ok (ht_remove t fh).2.
Proof.
  intros Hok. destruct (ht_map t !! fh) as [a|] eqn:Ha.
  - destruct (ht_remove_fields t fh a _ Hok Ha eq_refl) as (_ & Hm & Hh & _ & _ & Hc).
    rewrite table_ok_alt in *. destruct Hok as (Hd & Hi & Hk). unfold deref.
    rewrite Hh, Hm. split; [|split].
    + intros j b Hj. split_lookups. by eapply Hd.
    + intros j j' b Hj Hj'. split_lookups. eauto.
    + intros k. rewrite Hc, Hk. by rewrite (map_count_delete _ _ _ _ Ha).
  - unfold ht_remove. by rewrite Ha.
Qed.

Lemma same_map_heap_ok t t' :
  table_ok t → ht_map t' = ht_map t → ht_heap t' = ht_heap t →
  ht_files t' = ht_files t → ht_dirs t' = ht_dirs t → table_ok t'.
Proof.
  intros [Hd Hi Hf Hr] Hm Hh Hf' Hr'. unfold deref in *.
  split; unfold deref; rewrite ?Hm, ?Hh, ?Hf', ?Hr'; done.
Qed.

Lemma kill_live_ok l : ∀ tk, table_ok tk.1 → table_ok (foldl kill_live tk l).1.
Proof.
  induction l as [|fa l IH]; intros tk Hok; simpl; [done|]. apply IH. unfold kill_live.
  destruct (deref _ _); [|done]. destruct (is_dead _); [done|]. by apply kill_ok.
Qed.

Lemma owe_all_fields (l : list (Z * HandleKind)) : ∀ t t',
  foldl (λ t fk, t ← t; owe_release t (release_request fk.2 fk.1)) (Some t) l = Some t' →
  ht_map t' = ht_map t ∧ ht_heap t' = ht_heap t ∧ ht_files t' = ht_files t
  ∧ ht_dirs t' = ht_dirs t ∧ ht_next t' = ht_next t.
Proof.
  induction l as [|fk l IH]; intros t t'; cbn [foldl]; [by intros [= ->]|].
  cbn [mbind option_bind]. destruct (owe_release t _) as [t1|] eqn:Ho.
  - intros (-> & -> & -> & -> & ->)%IH. by apply owe_release_fields in Ho.
  - intros Hf. exfalso. clear -Hf. induction l as [|x l IH]; simpl in Hf; [done|auto].
Qed.

Lemma run_op_ok t op t' : table_ok t → run_op t op = Some t' → table_ok t'.
Proof.
  intros Hok. destruct op; simpl.
  - intros [= <-]. by eapply same_map_heap_ok.
  - intros [= <-]. by apply ht_insert_ok.
  - intros [= <-]. by apply ht_remove_ok.
  - intros (? & ? & ? & ? & _)%owe_release_fields. by eapply same_map_heap_ok.
  - unfold owed_send. destruct (ht_owed t !! fh); simpl; [|done]. intros [= <-].
    by eapply same_map_heap_ok.
  - intros [= <-]. unfold owed_delivered. split_matches; by eapply same_map_heap_ok.
  - intros [= <-]. by eapply same_map_heap_ok.
  - intros [= <-]. by eapply same_map_heap_ok.
  - intros (? & ? & ? & ? & _)%owe_all_fields.
    eapply same_map_heap_ok; [|done..]. by apply (kill_live_ok _ (t, [])).
  - intros [= <-]. unfold apply_reopen. destruct (deref t a); [|done].
    destruct (same_file _ _); [done|]. by apply kill_ok.
Qed.

Lemma table_reachable_ok t : table_reachable t → table_ok t.
Proof.
  intros Hr. eapply (rtc_invariant table_step table_ok); [|exact Hr|].
  - intros t1 t2 Hok [op Hop]. by eapply run_op_ok.
  - split; simpl; [intros ?? []%lookup_empty_Some|intros ??? []%lookup_empty_Some| |];
      unfold map_count; by rewrite map_sum_empty.
Qed.

(** ** Killing every handle *)

(** One handle of the walk: its record is marked, and it joins the killed if it was
    live. *)
Lemma kill_live_deref tk j b a :
  deref (kill_live tk (j, b)).1 a
  = if bool_decide (a = b) then mark_dead <$> deref tk.1 a else deref tk.1 a.
Proof.
  unfold kill_live; simpl. destruct (deref tk.1 b) as [r|] eqn:Hr.
  - destruct (is_dead r) eqn:Hdead.
    + case_bool_decide; [|done]. subst. rewrite Hr. simpl. f_equal. destruct r.
      unfold is_dead in *; simpl in *. by subst.
    + unfold deref, kill; simpl. rewrite list_lookup_alter.
      repeat case_decide; case_bool_decide; subst; try done.
  - case_bool_decide; [|done]. subst. by rewrite Hr.
Qed.

Lemma kill_live_killed tk j b fh k :
  (fh, k) ∈ (kill_live tk (j, b)).2 ↔
  (fh, k) ∈ tk.2 ∨ fh = j ∧ ∃ r, deref tk.1 b = Some r ∧ is_dead r = false ∧ hr_kind r = k.
Proof.
  unfold kill_live; simpl. destruct (deref tk.1 b) as [r|];
    [destruct (is_dead r) eqn:Hdead|]; simpl.
  - split; [by left|]. intros [?|(_ & ? & [= <-] & ? & _)]; congruence.
  - rewrite elem_of_app, list_elem_of_singleton. split.
    + intros [?|[= -> ->]]; [by left|]. right. split; [done|]. by exists r.
    + intros [?|(-> & ? & [= <-] & _ & <-)]; [by left|by right].
  - split; [by left|]. by intros [?|(_ & ? & ? & _)].
Qed.

Lemma kill_live_same tk fa :
  ht_map (kill_live tk fa).1 = ht_map tk.1 ∧ ht_owed (kill_live tk fa).1 = ht_owed tk.1.
Proof. unfold kill_live. by destruct (deref _ _); [destruct (is_dead _)|]. Qed.

(** Killing walks the handles once each: a record is dead afterwards if it was or
    if some handle of the list has it, and the list of the killed is that of the
    handles that were live. *)
Lemma kill_live_spec l : ∀ tk,
  NoDup l.*2 →
  let tk' := foldl kill_live tk l in
  ht_map tk'.1 = ht_map tk.1 ∧ ht_owed tk'.1 = ht_owed tk.1
  ∧ (∀ a, deref tk'.1 a
          = if bool_decide (a ∈ l.*2) then mark_dead <$> deref tk.1 a else deref tk.1 a)
  ∧ (∀ fh k, (fh, k) ∈ tk'.2 ↔
       (fh, k) ∈ tk.2 ∨ ∃ a r, (fh, a) ∈ l ∧ deref tk.1 a = Some r ∧ is_dead r = false
                               ∧ hr_kind r = k).
Proof.
  induction l as [|[j b] l IH]; intros tk Hnd tk'.
  { subst tk'. simpl. split_and!; [done..|]. split; [by left|].
    intros [?|(? & ? & H & _)]; [done|]. by apply elem_of_nil in H. }
  simpl in Hnd. apply NoDup_cons in Hnd as [Hb Hnd].
  specialize (IH (kill_live tk (j, b)) Hnd). simpl in IH.
  destruct IH as (Hm & Ho & Hd & Hk). destruct (kill_live_same tk (j, b)) as [Hm1 Ho1].
  subst tk'. simpl. split_and!; [congruence|congruence| |].
  - intros a. rewrite Hd, kill_live_deref. destruct (decide (a = b)) as [->|Hab].
    + rewrite (bool_decide_eq_false_2 (b ∈ l.*2)) by done.
      rewrite !bool_decide_eq_true_2 by (done || left). done.
    + rewrite (bool_decide_eq_false_2 (a = b)) by done.
      repeat case_bool_decide; rewrite ?elem_of_cons in *; try done; exfalso; naive_solver.
  - intros fh k. rewrite Hk, kill_live_killed. setoid_rewrite elem_of_cons.
    assert (∀ a, (fh, a) ∈ l → deref (kill_live tk (j, b)).1 a = deref tk.1 a) as Hl.
    { intros a Ha. rewrite kill_live_deref, bool_decide_eq_false_2; [done|]. intros ->.
      apply Hb. apply (list_elem_of_fmap_2 snd l (fh, b) Ha). }
    split.
    + intros [[?|(-> & r & ?)]|(a & r & Ha & Hr & ?)]; [by left| |].
      * right. exists b, r. tauto.
      * right. exists a, r. rewrite Hl in Hr by done. tauto.
    + intros [?|(a & r & [Ha|Ha] & ?)]; [tauto| |].
      * simplify_eq. left. right. split; [done|]. by exists r.
      * right. exists a, r. by rewrite Hl.
Qed.

Lemma owe_release_spec t kind fh :
  ∃ t', owe_release t (release_request kind fh) = Some t'
        ∧ ht_owed t' = match ht_owed t !! fh with
                       | Some _ => ht_owed t
                       | None => <[fh := MkOwed (release_request kind fh) None]> (ht_owed t)
                       end.
Proof.
  destruct kind; unfold owe_release; simpl; eexists; (split; [done|]);
    by destruct (ht_owed t !! fh).
Qed.

Lemma owe_all_spec (l : list (Z * HandleKind)) :
  (∀ fh k k', (fh, k) ∈ l → (fh, k') ∈ l → k = k') → ∀ t,
  ∃ t', foldl (λ t fk, t ← t; owe_release t (release_request fk.2 fk.1)) (Some t) l = Some t'
        ∧ (∀ fh o, ht_owed t !! fh = Some o → ht_owed t' !! fh = Some o)
        ∧ (∀ fh k, (fh, k) ∈ l → ht_owed t !! fh = None →
             ht_owed t' !! fh = Some (MkOwed (release_request k fh) None)).
Proof.
  induction l as [|[j k0] l IH]; intros Hl t.
  { exists t. split_and!; [done..|]. intros ?? []%elem_of_nil. }
  destruct (owe_release_spec t k0 j) as (t1 & Ht1 & Ho1).
  destruct (IH ltac:(intros; eapply Hl; right; eauto) t1) as (t' & Ht' & Hold & Hnew).
  exists t'. cbn [foldl mbind option_bind fst snd]. rewrite Ht1. split; [done|].
  assert (∀ fh o, ht_owed t !! fh = Some o → ht_owed t1 !! fh = Some o) as Hkeep.
  { intros fh o Hfh. rewrite Ho1. destruct (ht_owed t !! j) eqn:Hj; [done|].
    rewrite lookup_insert_ne; [done|]. congruence. }
  split; [eauto|]. intros fh k Hin Hfh. destruct (decide (fh = j)) as [->|Hne].
  - rewrite (Hl j k k0 Hin ltac:(left)). apply Hold. rewrite Ho1, Hfh. apply lookup_insert_eq.
  - apply elem_of_cons in Hin as [?|Hin]; [congruence|]. apply Hnew; [done|].
    rewrite Ho1. destruct (ht_owed t !! j); [done|]. by rewrite lookup_insert_ne.
Qed.

Lemma NoDup_addresses (m : gmap Z nat) :
  (∀ j j' a, m !! j = Some a → m !! j' = Some a → j = j') → NoDup (map_to_list m).*2.
Proof.
  intros Hi. apply NoDup_fmap_2_strong; [|apply NoDup_map_to_list].
  intros [j a] [j' a'] Hj Hj' Heq. simpl in *. subst a'.
  apply elem_of_map_to_list in Hj, Hj'. by rewrite (Hi _ _ _ Hj Hj').
Qed.

Lemma elem_of_held t fh a r :
  ((fh, a), r) ∈ held t ↔ ht_map t !! fh = Some a ∧ deref t a = Some r.
Proof.
  unfold held. rewrite list_elem_of_omap. split.
  - intros ([j b] & Hin & Hr). apply elem_of_map_to_list in Hin. simpl in Hr.
    destruct (deref t b) eqn:Hb; simpl in Hr; by simplify_eq.
  - intros [Ha Hr]. exists (fh, a). rewrite elem_of_map_to_list. simpl. by rewrite Hr.
Qed.

Lemma elem_of_live t fh a :
  (fh, a) ∈ live t ↔ ∃ r, ht_map t !! fh = Some a ∧ deref t a = Some r ∧ is_dead r = false.
Proof.
  unfold live. rewrite list_elem_of_fmap. split.
  - intros ([[j b] r] & Heq & Hin). simpl in Heq. simplify_eq.
    apply list_elem_of_filter in Hin as [Hd Hin].
    apply elem_of_held in Hin as [??]. by exists r.
  - intros (r & Ha & Hr & Hd). exists ((fh, a), r). split; [done|].
    apply list_elem_of_filter. split; [done|]. by apply elem_of_held.
Qed.

Lemma kill_all_effect t :
  table_ok t →
  ∃ t', kill_all t = Some t' ∧ ht_map t' = ht_map t
        ∧ (∀ fh a r, ht_map t' !! fh = Some a → deref t' a = Some r → is_dead r = true)
        ∧ (∀ fh o, ht_owed t !! fh = Some o → ht_owed t' !! fh = Some o)
        ∧ (∀ fh a r, ht_map t !! fh = Some a → deref t a = Some r → is_dead r = false →
             ht_owed t !! fh = None →
             ht_owed t' !! fh = Some (MkOwed (release_request (hr_kind r) fh) None)).
Proof.
  intros Hok. unfold kill_all. set (l := map_to_list (ht_map t)).
  pose proof (NoDup_addresses _ (ok_inj t Hok)) as Hnd. fold l in Hnd.
  pose proof (kill_live_spec l (t, []) Hnd) as (Hm & Ho & Hd & Hk).
  set (tk := foldl kill_live (t, []) l) in *. simpl in *.
  assert (∀ fh k, (fh, k) ∈ tk.2 ↔ ∃ a r, ht_map t !! fh = Some a ∧ deref t a = Some r
                                      ∧ is_dead r = false ∧ hr_kind r = k) as Hkilled.
  { intros fh k. rewrite Hk, elem_of_nil. unfold l. setoid_rewrite elem_of_map_to_list. naive_solver. }
  destruct (owe_all_spec tk.2) with (t := tk.1) as (t' & Ht' & Hold & Hnew).
  { intros fh k k'. rewrite !Hkilled. naive_solver. }
  exists t'. split; [done|]. destruct (owe_all_fields _ _ _ Ht') as (Hm' & Hh' & _).
  rewrite Hm', Hm. split; [done|]. split_and!.
  - intros fh a r Ha Hr. unfold deref in Hr. rewrite Hh' in Hr. fold (deref tk.1 a) in Hr.
    rewrite Hd in Hr. rewrite bool_decide_eq_true_2 in Hr.
    + destruct (deref t a); simpl in Hr; by simplify_eq.
    + apply (list_elem_of_fmap_2 snd l (fh, a)). by apply elem_of_map_to_list.
  - intros fh o Hfh. apply Hold. by rewrite Ho.
  - intros fh a r Ha Hr Hdead Hfh. apply Hnew; [|by rewrite Ho]. apply Hkilled.
    by exists a, r.
Qed.

(** ** The releases owed, over any run *)

Lemma elem_of_owed_unsent t fh :
  fh ∈ owed_unsent t ↔ ∃ o, ht_owed t !! fh = Some o ∧ ow_sending_on o = None.
Proof.
  unfold owed_unsent. rewrite (merge_sort_Permutation Z.le), list_elem_of_fmap. split.
  - intros ([j o] & -> & Hin). apply elem_of_map_to_list, map_lookup_filter_Some in Hin.
    by exists o.
  - intros (o & Ho & Hs). exists (fh, o). split; [done|].
    by apply elem_of_map_to_list, map_lookup_filter_Some.
Qed.

Lemma owe_release_owed t req t' fh o :
  owe_release t req = Some t' → ht_owed t !! fh = Some o → ht_owed t' !! fh = Some o.
Proof.
  unfold owe_release. destruct req as [| | | | | | | | | | | | | | |j| | | |j| | | | | | | | |];
    cbn; intros Hr Ho; simplify_eq; (destruct (ht_owed t !! j) eqn:Hj; simplify_eq; simpl; [done|]);
    (rewrite lookup_insert_ne; [done|congruence]).
Qed.

Lemma owe_all_owed (l : list (Z * HandleKind)) fh o : ∀ t t',
  foldl (λ t fk, t ← t; owe_release t (release_request fk.2 fk.1)) (Some t) l = Some t' →
  ht_owed t !! fh = Some o → ht_owed t' !! fh = Some o.
Proof.
  induction l as [|fk l IH]; intros t t'; cbn [foldl mbind option_bind]; [by intros [= ->]|].
  destruct (owe_release_spec t fk.2 fk.1) as (t1 & Ht1 & _). rewrite Ht1.
  intros Hf Ho. eapply IH; [exact Hf|]. by eapply owe_release_owed.
Qed.

Lemma kill_live_owed l : ∀ tk, ht_owed (foldl kill_live tk l).1 = ht_owed tk.1.
Proof.
  induction l as [|fa l IH]; intros tk; simpl; [done|]. rewrite IH. apply kill_live_same.
Qed.

(** Whether an operation can change what is owed of [fh] while it is being sent on
    the connection of [g]: its send, its answer there, the connection's end, or a
    new session. *)
Definition settles (fh g : Z) (op : HandleOp) : bool :=
  match op with
  | Op_owed_send j _ => j =? fh
  | Op_owed_delivered j g' => (j =? fh) && (g' =? g)
  | Op_owed_connection_ended g' => g' =? g
  | Op_owed_moot => true
  | _ => false
  end.

Lemma run_op_keeps_sending t op t' fh g req :
  run_op t op = Some t' → settles fh g op = false →
  ht_owed t !! fh = Some (MkOwed req (Some g)) →
  ht_owed t' !! fh = Some (MkOwed req (Some g)).
Proof.
  intros Hop Hs Ho. destruct op; cbn [run_op settles] in Hop, Hs; simplify_eq; try done.
  - destruct (ht_insert _ _ _ _ _ _ _ _) eqn:Hi. cbn [snd].
    by apply ht_insert_fields in Hi as (_ & _ & _ & -> & _).
  - by rewrite (proj2 (proj2 (ht_remove_parts t fh0))).
  - by eapply owe_release_owed.
  - unfold owed_send in Hop. destruct (ht_owed t !! fh0); simpl in Hop; simplify_eq. simpl.
    rewrite lookup_insert_ne; [done|]. lia.
  - unfold owed_delivered. destruct (ht_owed t !! fh0) eqn:Hj; [|done].
    case_bool_decide; [|done]. simpl. rewrite lookup_delete_ne; [done|]. intros ->.
    simplify_eq. simpl in *. simplify_eq. lia.
  - simpl. rewrite lookup_fmap, Ho. simpl. rewrite bool_decide_eq_false_2; [done|].
    intros [= ?]. lia.
  - eapply owe_all_owed; [exact Hop|]. by rewrite kill_live_owed.
  - unfold apply_reopen. destruct (deref t a); [|done]. by destruct (same_file _ _).
Qed.

(** A run of the table in which a release is sent only when it is offered, as the
    client's release task does. *)
Inductive table_runs : HandleTable → list HandleOp → HandleTable → Prop :=
| runs_nil t : table_runs t [] t
| runs_cons t op ops t1 t2 :
    (∀ fh g, op = Op_owed_send fh g → fh ∈ owed_unsent t) →
    run_op t op = Some t1 → table_runs t1 ops t2 → table_runs t (op :: ops) t2.

(** What may settle a release being sent on [g], a send of it apart. *)
Definition settled_by (fh g : Z) (op : HandleOp) : bool :=
  match op with Op_owed_send _ _ => false | _ => settles fh g op end.

(** ** Records over any run

    A record keeps its file; all that ever happens to it is that it dies. *)

Definition aged (r r' : HandleRec) : Prop := r' = r ∨ r' = mark_dead r.

Lemma aged_trans r r' r'' : aged r r' → aged r' r'' → aged r r''.
Proof. unfold aged. intros [-> | ->] [-> | ->]; auto. Qed.

Lemma aged_dead r r' : aged r r' → hr_dead r = true → r' = r.
Proof. intros [-> | ->] Hd; [done|]. destruct r; simpl in *. by subst. Qed.

Lemma aged_same r r' :
  aged r r' → hr_key r' = hr_key r ∧ hr_kind r' = hr_kind r ∧ hr_path r' = hr_path r.
Proof. by intros [-> | ->]. Qed.

Lemma kill_aged t b a r :
  deref t a = Some r → ∃ r', deref (kill t b) a = Some r' ∧ aged r r'.
Proof.
  unfold deref, kill, aged; simpl. intros Hr. rewrite list_lookup_alter.
  case_decide; subst; [|eauto]. rewrite Hr. simpl. eauto.
Qed.

Lemma kill_live_aged l a : ∀ tk r,
  deref tk.1 a = Some r → ∃ r', deref (foldl kill_live tk l).1 a = Some r' ∧ aged r r'.
Proof.
  induction l as [|fa l IH]; intros tk r Hr; simpl; [by exists r; split; [|left]|].
  assert (∃ r1, deref (kill_live tk fa).1 a = Some r1 ∧ aged r r1) as (r1 & Hr1 & H1).
  { unfold kill_live. destruct (deref tk.1 fa.2); [destruct (is_dead _)|];
      [by exists r; split; [|left]| |by exists r; split; [|left]]. by apply kill_aged. }
  destruct (IH _ _ Hr1) as (r' & Hr' & H2). exists r'. eauto using aged_trans.
Qed.

Lemma run_op_aged t op t' a r :
  run_op t op = Some t' → deref t a = Some r → ∃ r', deref t' a = Some r' ∧ aged r r'.
Proof.
  assert (∀ t', ht_heap t' = ht_heap t → deref t a = Some r →
                ∃ r', deref t' a = Some r' ∧ aged r r') as Hsame.
  { intros t1 Hh Hr. exists r. unfold deref, aged in *. rewrite Hh. auto. }
  intros Hop Hr. destruct op; cbn [run_op] in Hop; simplify_eq; try by apply Hsame.
  - destruct (ht_insert _ _ _ _ _ _ _ _) eqn:Hi. cbn [snd].
    apply ht_insert_fields in Hi as (_ & Hh & _). exists r. unfold deref, aged in *. rewrite Hh.
    split; [by apply lookup_app_l_Some|auto].
  - apply Hsame; [|done]. apply ht_remove_parts.
  - apply Hsame; [|done]. by apply owe_release_fields in Hop as (_ & -> & _).
  - apply Hsame; [|done]. unfold owed_send in Hop.
    destruct (ht_owed t !! fh); simpl in Hop; by simplify_eq.
  - apply Hsame; [|done]. unfold owed_delivered.
    destruct (ht_owed t !! fh); [|done]. by case_bool_decide.
  - apply owe_all_fields in Hop as (_ & Hh & _).
    destruct (kill_live_aged (map_to_list (ht_map t)) a (t, []) r Hr) as (r' & Hr' & Ha).
    exists r'. unfold deref in *. by rewrite Hh.
  - unfold apply_reopen. destruct (deref t a0); [|by apply Hsame].
    destruct (same_file _ _); [by apply Hsame|]. by apply kill_aged.
Qed.

Lemma kill_live_map l : ∀ tk, ht_map (foldl kill_live tk l).1 = ht_map tk.1.
Proof.
  induction l as [|fa l IH]; intros tk; simpl; [done|]. rewrite IH. apply kill_live_same.
Qed.

(** No operation gives a handle a record that was there before. *)
Lemma run_op_map t op t' fh a :
  run_op t op = Some t' → ht_map t' !! fh = Some a → is_Some (deref t a) → ht_map t !! fh = Some a.
Proof.
  intros Hop Ha Hd. destruct op; cbn [run_op] in Hop; simplify_eq; try done.
  - destruct (ht_insert _ _ _ _ _ _ _ _) eqn:Hi. cbn [snd] in *.
    apply ht_insert_fields in Hi as (-> & _ & Hm & _). rewrite Hm in Ha. split_lookups; [|done].
    apply lookup_lt_is_Some in Hd. lia.
  - rewrite (proj1 (ht_remove_parts t fh0)) in Ha. split_lookups; done.
  - by apply owe_release_fields in Hop as (<- & _).
  - unfold owed_send in Hop. destruct (ht_owed t !! _); simpl in Hop; by simplify_eq.
  - revert Ha. unfold owed_delivered. destruct (ht_owed t !! _); [|done]. by case_bool_decide.
  - apply owe_all_fields in Hop as (Hm & _). rewrite Hm, kill_live_map in Ha. done.
  - revert Ha. unfold apply_reopen. destruct (deref t a0); [|done]. by destruct (same_file _ _).
Qed.

(** ** Properties *)

(** A table with a file and a directory open, reached by the client's own
    operations. *)
Definition demo_key (ino : Z) : KeyNode := MkKeyNode ino (MkIdentity 1 []).
Definition demo_table : HandleTable :=
  let '(f, t) := ht_alloc HandleTable_default in
  let '(_, t) := ht_insert t f 42 (demo_key 42) Path_root 2 HK_File None in
  let '(d, t) := ht_alloc t in
  (ht_insert t d 43 (demo_key 43) Path_root 0 HK_Dir None).2.

Lemma demo_table_reachable : table_reachable demo_table.
Proof.
  eapply rtc_l; [exists Op_alloc; reflexivity|].
  eapply rtc_l; [exists (Op_insert 1 42 (demo_key 42) Path_root 2 HK_File None); reflexivity|].
  eapply rtc_l; [exists Op_alloc; reflexivity|].
  eapply rtc_l; [exists (Op_insert 2 43 (demo_key 43) Path_root 0 HK_Dir None); reflexivity|].
  apply rtc_refl.
Qed.

(** The table's totals are exact.  After any sequence of the table's
    operations, the number of open files and of open directories it reports are
    the handles of each kind it holds, and together they are all it holds. *)
Theorem handle_totals_exact t :
  table_reachable t →
  ht_totals t = (map_count (kind_at (ht_heap t) HK_File) (ht_map t),
                 map_count (kind_at (ht_heap t) HK_Dir) (ht_map t))
  ∧ (ht_totals t).1 + (ht_totals t).2 = Z.of_nat (ht_len t).
Proof.
  intros [Hd _ Hf Hr]%table_reachable_ok. unfold ht_totals; simpl. rewrite Hf, Hr.
  split; [done|]. unfold map_count. rewrite <- map_sum_add. unfold ht_len.
  rewrite (map_sum_ext _ (λ _, 1)).
  - apply map_sum_one.
  - intros fh a Ha. destruct (Hd fh a Ha) as [r Hdr]. unfold kind_at, deref in *.
    rewrite Hdr. by destruct (hr_kind r).
Qed.

Lemma handle_totals_exact_witness : ht_totals demo_table = (1, 1).
Proof. exact (proj1 (handle_totals_exact demo_table demo_table_reachable)). Defined.

(** When every handle is killed (the server came back serving another
    directory), the operation cannot fail; no handle is live afterwards, so every
    later use of one fails; and the release of every handle that was live is
    owed, an ordered release of its kind, unless one was owed already, which
    stays as it was. *)
Theorem kill_all_spec t :
  table_reachable t →
  ∃ t', kill_all t = Some t' ∧ live t' = [] ∧ ht_map t' = ht_map t
        ∧ ∀ fh a r, ht_map t !! fh = Some a → deref t a = Some r → is_dead r = false →
            ht_owed t' !! fh
            = Some (default (MkOwed (release_request (hr_kind r) fh) None) (ht_owed t !! fh)).
Proof.
  intros Hok%table_reachable_ok. destruct (kill_all_effect t Hok) as (t' & Ht & Hm & Hd & Hold & Hnew).
  exists t'. split_and!; [done| |done|].
  - apply elem_of_nil_inv. intros [fh a] (r & Ha & Hr & Hl)%elem_of_live.
    specialize (Hd fh a r Ha Hr). congruence.
  - intros fh a r Ha Hr Hl. destruct (ht_owed t !! fh) eqn:Ho; simpl; eauto.
Qed.

Lemma kill_all_spec_witness :
  ∃ t', kill_all demo_table = Some t'
        ∧ ht_owed t' !! 2 = Some (MkOwed (Req_Releasedir 2 true) None).
Proof.
  destruct (kill_all_spec demo_table demo_table_reachable) as (t' & Ht & _ & _ & Ho).
  exists t'. split; [exact Ht|].
  exact (Ho 2 1%nat (MkHandleRec 43 (demo_key 43) Path_root 0 HK_Dir None false)
           eq_refl eq_refl eq_refl).
Defined.

(** A release owed is sent once per connection, and is not lost.  From the
    moment the release task sends it on a connection, whatever else happens to
    the table (a release task of a later connection sending what it is offered,
    answers to other releases and answers on other connections included), it is
    not offered again, until that connection answers it, the connection ends or a
    new session makes it moot; and when the connection ends unanswered, it is
    owed unchanged and offered to the next. *)
Theorem owed_sent_once t ops t' fh g req :
  ht_owed t !! fh = Some (MkOwed req (Some g)) →
  table_runs t ops t' → forallb (λ op, negb (settled_by fh g op)) ops = true →
  ht_owed t' !! fh = Some (MkOwed req (Some g)) ∧ fh ∉ owed_unsent t'
  ∧ fh ∈ owed_unsent (owed_connection_ended t' g)
  ∧ ow_req <$> ht_owed (owed_connection_ended t' g) !! fh = Some req.
Proof.
  intros Ho Hruns Hops.
  assert (ht_owed t' !! fh = Some (MkOwed req (Some g))) as Ho'.
  { induction Hruns as [|t op ops t1 t2 Hg Hop _ IH]; [done|]. simpl in Hops.
    apply andb_true_iff in Hops as [Hs Hops]. apply IH; [|done].
    apply (run_op_keeps_sending _ _ _ _ _ _ Hop); [|done].
    apply negb_true_iff in Hs. destruct op; try done. simpl. apply Z.eqb_neq. intros ->.
    destruct (proj1 (elem_of_owed_unsent _ _) (Hg _ _ eq_refl)) as (o & Hoo & Hn).
    rewrite Ho in Hoo. by simplify_eq. }
  split_and!; [done| | |].
  - rewrite elem_of_owed_unsent. intros (o & Hoo & Hn). rewrite Ho' in Hoo. by simplify_eq.
  - rewrite elem_of_owed_unsent. simpl. rewrite lookup_fmap, Ho'. simpl.
    rewrite bool_decide_eq_true_2 by done. eauto.
  - simpl. rewrite lookup_fmap, Ho'. simpl. by rewrite bool_decide_eq_true_2.
Qed.

Lemma owed_sent_once_witness :
  let t := with_owed demo_table {[7 := MkOwed (Req_Release 7 true) (Some 3)]} in
  ∃ t', run_op t (Op_owed_delivered 7 2) = Some t'
        ∧ 7 ∈ owed_unsent (owed_connection_ended t' 3).
Proof.
  intros t. exists t. split; [reflexivity|].
  apply (owed_sent_once t [Op_owed_delivered 7 2] t 7 3 (Req_Release 7 true));
    [reflexivity| |reflexivity].
  eapply runs_cons; [discriminate|reflexivity|apply runs_nil].
Defined.
