(* ===== verification/Machine.v ===== *)
(** * The client's protocol steps ([crates/client/src/machine.rs])

    What a connection carries ([AttachedState]), a call's sends, give-up and
    resend ([CallState]), what the end of an open or of a release leaves owed,
    and a new session's round of reopens ([ReopenRound]).  A Rust panic
    ([unreachable!], [expect], [debug_assert!]) is [None]. *)

From S2P Require Import Prelude Types Msg ClientTypes ClientHandles.

(** ** A connection *)

Record AttachedState := MkAttached {
  at_generation : Z;
  at_cancels : Z;
  at_published : bool }.

Definition AttachedState_new (generation : Z) : AttachedState :=
  MkAttached generation 0 false.
Definition publish (a : AttachedState) : AttachedState :=
  MkAttached (at_generation a) (at_cancels a) true.

(** [CancelPending::count] and its drop. *)
Definition CancelPending_count (a : AttachedState) : AttachedState :=
  MkAttached (at_generation a) (at_cancels a + 1) (at_published a).
Definition CancelPending_drop (a : AttachedState) : AttachedState :=
  MkAttached (at_generation a) (at_cancels a - 1) (at_published a).

(** ** A call *)

Inductive EndCall := End_Replied | End_Errno | End_GaveUp | End_Failed.

Inductive StatusCall :=
| Call_Waiting
| Call_InFlight (generation : Z)
| Call_Ended (e : EndCall).

Inductive Sendable := Send_No | Send_AfterCancels | Send_Now.

Inductive LossExchange := Loss_NotSent | Loss_Lost.

#[export] Instance EndCall_eq_dec : EqDecision EndCall.
Proof. solve_decision. Defined.
#[export] Instance StatusCall_eq_dec : EqDecision StatusCall.
Proof. solve_decision. Defined.
#[export] Instance Sendable_eq_dec : EqDecision Sendable.
Proof. solve_decision. Defined.

Record CallState := MkCall {
  c_changes : bool;
  c_resendable : bool;
  c_lost_once : bool;
  c_min_generation : Z;
  c_attempt : Z;
  c_status : StatusCall }.

Definition CallState_new (changes resendable : bool) : CallState :=
  MkCall changes resendable false 0 0 Call_Waiting.

Definition with_status (c : CallState) (s : StatusCall) : CallState :=
  MkCall (c_changes c) (c_resendable c) (c_lost_once c) (c_min_generation c) (c_attempt c) s.

Definition takes (c : CallState) (a : AttachedState) : bool :=
  bool_decide (c_status c = Call_Waiting) && at_published a
  && (c_min_generation c <=? at_generation a).

Definition sendable (c : CallState) (a : AttachedState) (pending : Z) : Sendable :=
  if negb (takes c a) then Send_No
  else if c_changes c && negb (pending =? 0) then Send_AfterCancels
  else Send_Now.

(** [None]: the debug assertion that the call is waiting. *)
Definition sent (c : CallState) (generation : Z) : option CallState :=
  match c_status c with
  | Call_Waiting =>
      Some (MkCall (c_changes c) (c_resendable c) (c_lost_once c) (c_min_generation c)
              (c_attempt c + 1) (Call_InFlight generation))
  | _ => None
  end.

Definition answered (c : CallState) (errno : bool) : CallState :=
  with_status c (Call_Ended (if errno then End_Errno else End_Replied)).

(** The call, and the error it ends with unless it goes on. *)
Definition lost (c : CallState) (loss : LossExchange) : option (CallState * result Error ()) :=
  match c_status c with
  | Call_InFlight generation =>
      let resend lost_once :=
        MkCall (c_changes c) (c_resendable c) lost_once (generation + 1) (c_attempt c)
          Call_Waiting in
      match loss with
      | Loss_NotSent => Some (resend (c_lost_once c), Ok ())
      | Loss_Lost =>
          if c_resendable c && negb (c_lost_once c) then Some (resend true, Ok ())
          else Some (with_status c (Call_Ended End_Failed), Err Error_Disconnected)
      end
  | _ => None
  end.

Definition counts_give_up (in_flight written changes : bool) : bool :=
  in_flight && written && changes.

Definition in_flight (c : CallState) : bool :=
  match c_status c with Call_InFlight _ => true | _ => false end.

Definition gave_up (c : CallState) (written : bool) : CallState * bool :=
  (with_status c (Call_Ended End_GaveUp),
   counts_give_up (in_flight c) written (c_changes c)).

Definition failed (c : CallState) : CallState := with_status c (Call_Ended End_Failed).

(** ** What an open or a release leaves *)

Inductive SettleOpen := Settle_Keep | Settle_Owe | Settle_Nothing.

Definition open_settled (r : result Error Response) : SettleOpen :=
  match r with
  | Ok (Resp_Opened _) => Settle_Keep
  | Ok _
  | Err (Error_Timeout | Error_Interrupted | Error_Disconnected | Error_Protocol _) =>
      Settle_Owe
  | Err _ => Settle_Nothing
  end.

Definition release_owed (r : result Error Response) : bool :=
  match r with
  | Err (Error_Timeout | Error_Disconnected) => true
  | _ => false
  end.

Definition owed_sendable (t : HandleTable) (a : AttachedState) (pending : Z) : list Z :=
  if at_published a && (pending =? 0) then owed_unsent t else [].

(** Whether to tell the server, and the table after. *)
Definition release_begins (t : HandleTable) (fh : Z) : bool * HandleTable :=
  let '(rec, t') := ht_remove t fh in
  (negb match rec ≫= deref t with Some rec => is_dead rec | None => false end, t').

(** ** A round of reopens *)

Record ReopenRound := MkRound {
  rr_unsent : gmap Z nat;
  rr_sending : gmap Z nat;
  rr_reopened : gset Z }.

Definition ReopenRound_new (t : HandleTable) : ReopenRound :=
  MkRound (list_to_map (live t)) ∅ ∅.

(** The request to send; [None]: the [expect] that a reopen is sent once. *)
Definition ReopenRound_send (rr : ReopenRound) (t : HandleTable) (fh : Z)
  : option (Request * ReopenRound) :=
  a ← rr_unsent rr !! fh;
  rec ← deref t a;
  Some (reopen_request rec fh,
        MkRound (delete fh (rr_unsent rr)) (<[fh := a]> (rr_sending rr)) (rr_reopened rr)).

(** [None]: the [expect] that a reopen ends once. *)
Definition ReopenRound_ended (rr : ReopenRound) (t : HandleTable) (fh : Z)
    (outcome : result Error Response) : option (ReopenRound * HandleTable) :=
  '(a, rr) ← match rr_sending rr !! fh with
             | Some a => Some (a, MkRound (rr_unsent rr) (delete fh (rr_sending rr)) (rr_reopened rr))
             | None =>
                 a ← rr_unsent rr !! fh;
                 Some (a, MkRound (delete fh (rr_unsent rr)) (rr_sending rr) (rr_reopened rr))
             end;
  let t := apply_reopen t a outcome in
  rec ← deref t a;
  if is_dead rec || bool_decide (ht_get t fh = None) then
    t ← owe_release t (release_request (hr_kind rec) fh);
    Some (rr, t)
  else Some (MkRound (rr_unsent rr) (rr_sending rr) ({[fh]} ∪ rr_reopened rr), t).

Definition publishable (rr : ReopenRound) : bool :=
  bool_decide (rr_unsent rr = ∅) && bool_decide (rr_sending rr = ∅).

(** ** A round under way

    The round's own steps, interleaved with every other operation of the table:
    the kernel releasing a handle, opens, the release task.  The outcomes of the
    reopens that ended are kept beside, for the theorems. *)

Record RoundWorld := MkRW {
  rw_round : ReopenRound;
  rw_table : HandleTable;
  rw_outcomes : gmap Z (result Error Response) }.

Definition rw_new (t : HandleTable) : RoundWorld := MkRW (ReopenRound_new t) t ∅.

Inductive round_step (w : RoundWorld) : RoundWorld → Prop :=
| rs_send fh req rr :
    ReopenRound_send (rw_round w) (rw_table w) fh = Some (req, rr) →
    round_step w (MkRW rr (rw_table w) (rw_outcomes w))
| rs_ended fh outcome rr t :
    ReopenRound_ended (rw_round w) (rw_table w) fh outcome = Some (rr, t) →
    round_step w (MkRW rr t (<[fh := outcome]> (rw_outcomes w)))
| rs_op op t :
    run_op (rw_table w) op = Some t →
    round_step w (MkRW (rw_round w) t (rw_outcomes w)).

(** The record whose reopen has not ended. *)
Definition reopening (rr : ReopenRound) (fh : Z) : option nat :=
  match rr_sending rr !! fh with Some a => Some a | None => rr_unsent rr !! fh end.

(** The parts of a reopen's end. *)
Lemma ReopenRound_ended_inv rr t fh outcome rr' t' :
  ReopenRound_ended rr t fh outcome = Some (rr', t') →
  ∃ a rec, reopening rr fh = Some a ∧ deref (apply_reopen t a outcome) a = Some rec
    ∧ (rr_sending rr' = rr_sending rr ∧ rr_unsent rr' = delete fh (rr_unsent rr)
         ∧ rr_sending rr !! fh = None
       ∨ rr_sending rr' = delete fh (rr_sending rr) ∧ rr_unsent rr' = rr_unsent rr)
    ∧ (is_dead rec || bool_decide (ht_get (apply_reopen t a outcome) fh = None) = true
         ∧ rr_reopened rr' = rr_reopened rr
         ∧ owe_release (apply_reopen t a outcome) (release_request (hr_kind rec) fh) = Some t'
       ∨ is_dead rec = false ∧ rr_reopened rr' = {[fh]} ∪ rr_reopened rr
         ∧ t' = apply_reopen t a outcome).
Proof.
  unfold ReopenRound_ended, reopening. intros H.
  destruct (rr_sending rr !! fh) as [a|] eqn:Hs; simpl in H;
    [|destruct (rr_unsent rr !! fh) as [a|] eqn:Hu; simpl in H; [|done]];
    (destruct (deref (apply_reopen t a outcome) a) as [rec|] eqn:Hr; simpl in H; [|done]);
    exists a, rec; (split; [done|]); (split; [done|]);
    destruct (is_dead rec || bool_decide _) eqn:Hd;
    try (destruct (owe_release _ _) as [t1|] eqn:Ho; simpl in H; [|done]);
    simplify_eq; simpl;
    (split; [tauto|]); rewrite ?Ho;
    try (apply orb_false_iff in Hd as [Hd _]); rewrite ?Hd; tauto.
Qed.

(** Where each handle of the round stands. *)
Definition settled_or_pending (t0 : HandleTable) (w : RoundWorld) (fh : Z) (a : nat) : Prop :=
  ∃ r0 r, deref t0 a = Some r0 ∧ deref (rw_table w) a = Some r ∧ aged r0 r
    ∧ (reopening (rw_round w) fh = Some a
       ∨ ∃ o, rw_outcomes w !! fh = Some o
              ∧ (is_dead r = false → same_file r0 o = true)
              ∧ (ht_map (rw_table w) !! fh = Some a →
                 is_dead r = true ∨ fh ∈ rr_reopened (rw_round w))).

(** The reopens under way are of handles the round began with. *)
Definition round_ok (t0 : HandleTable) (w : RoundWorld) : Prop :=
  (∀ fh a, (fh, a) ∈ live t0 → settled_or_pending t0 w fh a)
  ∧ (∀ fh a, rr_unsent (rw_round w) !! fh = Some a → (fh, a) ∈ live t0)
  ∧ (∀ fh a, rr_sending (rw_round w) !! fh = Some a → (fh, a) ∈ live t0).

Lemma round_new_unsent t fh a :
  rr_unsent (ReopenRound_new t) !! fh = Some a ↔ (fh, a) ∈ live t.
Proof.
  simpl. split; [apply elem_of_list_to_map_2|]. intros Hin.
  apply elem_of_list_to_map_1'; [|done]. intros b Hb.
  apply elem_of_live in Hin as (? & Ha & _), Hb as (? & Hb & _). congruence.
Qed.

Lemma round_new_ok t : round_ok t (rw_new t).
Proof.
  split_and!.
  - intros fh a Hin. pose proof Hin as (r & Ha & Hr & Hd)%elem_of_live.
    exists r, r. split_and!; [done|done|by left|left].
    unfold reopening. cbn [rw_new rw_round ReopenRound_new rr_sending].
    rewrite lookup_empty. by apply (round_new_unsent t fh a).
  - intros fh a Ha. by apply round_new_unsent.
  - intros fh a Ha. simpl in Ha. by rewrite lookup_empty in Ha.
Qed.

(** What the record of a handle becomes, whatever the table does. *)
Lemma settled_or_pending_op t0 w op t fh a :
  run_op (rw_table w) op = Some t → settled_or_pending t0 w fh a →
  settled_or_pending t0 (MkRW (rw_round w) t (rw_outcomes w)) fh a.
Proof.
  intros Hop (r0 & r & H0 & Hr & Hag & Hcase).
  destruct (run_op_aged _ _ _ _ _ Hop Hr) as (r' & Hr' & Hag').
  exists r0, r'. split_and!; [done|done|by eapply aged_trans|].
  destruct Hcase as [?|(o & Ho & Hs & Hm)]; [by left|]. right. exists o. split_and!; [done| |].
  - intros Hd. apply Hs. destruct (is_dead r) eqn:Hdr; [|done].
    rewrite (aged_dead _ _ Hag' Hdr) in Hd. unfold is_dead in *. congruence.
  - intros Ha. destruct Hm as [Hd|Hin]; [|left|by right].
    + eapply run_op_map; [done|done|]. by exists r.
    + by rewrite (aged_dead _ _ Hag' Hd).
Qed.

Lemma apply_reopen_map t a o : ht_map (apply_reopen t a o) = ht_map t.
Proof. unfold apply_reopen. destruct (deref t a); [|done]. by destruct (same_file _ _). Qed.

(** The end of a reopen, as operations of the table: the reply is judged, then the
    release may be owed. *)
Lemma ended_ops rr t fh outcome rr' t' a rec :
  reopening rr fh = Some a → deref (apply_reopen t a outcome) a = Some rec →
  ReopenRound_ended rr t fh outcome = Some (rr', t') →
  ht_map t' = ht_map t ∧ ht_heap t' = ht_heap (apply_reopen t a outcome).
Proof.
  intros Ha Hr (b & rec' & Hb & Hr' & _ & Hcase)%ReopenRound_ended_inv.
  rewrite Ha in Hb. injection Hb as <-.
  pose proof (apply_reopen_map t a outcome) as Hm. destruct Hcase as [(_ & _ & Ho)|(_ & _ & ->)]; [|done].
  apply owe_release_fields in Ho as (-> & -> & _). done.
Qed.

Lemma apply_reopen_deref t a outcome r :
  deref t a = Some r →
  deref (apply_reopen t a outcome) a
  = Some (if same_file r outcome then r else mark_dead r).
Proof.
  intros Hr. unfold apply_reopen. rewrite Hr. destruct (same_file r outcome); [done|].
  unfold deref, kill in *; simpl. by rewrite list_lookup_alter_eq, Hr.
Qed.

Lemma apply_reopen_deref_ne t a b outcome :
  a ≠ b → deref (apply_reopen t a outcome) b = deref t b.
Proof.
  intros Hne. unfold apply_reopen. destruct (deref t a); [|done].
  destruct (same_file _ _); [done|]. unfold deref, kill; simpl.
  by rewrite list_lookup_alter_ne.
Qed.

Lemma same_file_key r r' o : hr_key r' = hr_key r → same_file r' o = same_file r o.
Proof. unfold same_file. by intros ->. Qed.

Lemma reopening_live t0 w fh a :
  round_ok t0 w → reopening (rw_round w) fh = Some a → (fh, a) ∈ live t0.
Proof.
  intros (_ & Hu & Hs). unfold reopening. destruct (rr_sending _ !! fh) eqn:Hf; [|auto].
  intros ?. simplify_eq. auto.
Qed.

Lemma live_inj t fh fh' a :
  table_ok t → (fh, a) ∈ live t → (fh', a) ∈ live t → fh = fh'.
Proof.
  intros Hok (? & Ha & _)%elem_of_live (? & Ha' & _)%elem_of_live. by eapply ok_inj.
Qed.

(** The handle whose reopen ends is settled. *)
Lemma ended_settles t0 w fh outcome rr t :
  round_ok t0 w → ReopenRound_ended (rw_round w) (rw_table w) fh outcome = Some (rr, t) →
  ∀ a, reopening (rw_round w) fh = Some a →
  settled_or_pending t0 (MkRW rr t (<[fh := outcome]> (rw_outcomes w))) fh a.
Proof.
  intros Hok He a Hre. pose proof (reopening_live _ _ _ _ Hok Hre) as Hin.
  destruct (proj1 Hok fh a Hin) as (r0 & r & H0 & Hr & Hag & _).
  pose proof (apply_reopen_deref _ a outcome r Hr) as Hr'.
  destruct (ended_ops _ _ _ _ _ _ _ _ Hre Hr' He) as [Hm Hh].
  set (r' := if same_file r outcome then r else mark_dead r) in *.
  exists r0, r'. unfold deref in *; cbn [rw_table]. rewrite Hh.
  assert (aged r r') as Hag' by (unfold r', aged; destruct (same_file _ _); auto).
  split_and!; [done|done|by eapply aged_trans|].
  right. exists outcome. cbn [rw_outcomes rw_table rw_round]. rewrite lookup_insert_eq.
  split; [done|]. split.
  - intros Hd. rewrite <- (same_file_key r0 r outcome) by apply (aged_same _ _ Hag).
    unfold r' in Hd. by destruct (same_file r outcome).
  - intros Ha. apply ReopenRound_ended_inv in He as (b & rec & Hb & Hrec & _ & Hcase).
    rewrite Hre in Hb. injection Hb as <-. unfold deref in Hrec. rewrite Hr' in Hrec.
    injection Hrec as <-.
    destruct Hcase as [(Hd & _)|(_ & -> & _)]; [|right; set_solver].
    left. destruct (is_dead r'); [done|]. simpl in Hd. apply bool_decide_eq_true in Hd.
    unfold ht_get in Hd. rewrite apply_reopen_map in Hd. congruence.
Qed.

(** The others stand as they did. *)
Lemma ended_others t0 w fh outcome rr t fh' a' :
  table_ok t0 → round_ok t0 w →
  ReopenRound_ended (rw_round w) (rw_table w) fh outcome = Some (rr, t) →
  fh' ≠ fh → (fh', a') ∈ live t0 →
  settled_or_pending t0 (MkRW rr t (<[fh := outcome]> (rw_outcomes w))) fh' a'.
Proof.
  intros Ht0 Hok He Hne Hin'.
  pose proof He as (a & rec & Hre & Hrec & Hrr & Hcase)%ReopenRound_ended_inv.
  pose proof (reopening_live _ _ _ _ Hok Hre) as Hin.
  assert (a ≠ a') as Haa by (intros <-; eauto using live_inj).
  destruct (proj1 Hok fh' a' Hin') as (r0 & r & H0 & Hr & Hag & Hst).
  destruct (ended_ops _ _ _ _ _ _ _ _ Hre Hrec He) as [Hm Hh].
  exists r0, r. split; [done|]. split.
  { unfold deref; cbn [rw_table]. rewrite Hh. fold (deref (apply_reopen (rw_table w) a outcome) a').
    by rewrite apply_reopen_deref_ne. }
  split; [done|]. cbn [rw_round rw_table rw_outcomes]. rewrite Hm.
  destruct Hst as [Hp|(o & Ho & Hs & Hmap)].
  - left. revert Hp. unfold reopening.
    destruct Hrr as [(-> & -> & _)|(-> & ->)]; rewrite ?lookup_delete_ne by done; done.
  - right. exists o. rewrite lookup_insert_ne by done. split_and!; [done..|].
    intros Ha. destruct (Hmap Ha) as [?|Hin2]; [by left|right].
    destruct Hcase as [(_ & -> & _)|(_ & -> & _)]; set_solver.
Qed.

Lemma round_step_ok t0 w w' : table_ok t0 → round_ok t0 w → round_step w w' → round_ok t0 w'.
Proof.
  intros Ht0 Hok Hstep. destruct Hstep as [fh req rr Hs|fh outcome rr t He|op t Hop].
  - unfold ReopenRound_send in Hs. destruct (rr_unsent (rw_round w) !! fh) as [a|] eqn:Hu;
      cbn [mbind option_bind] in Hs; [|done].
    destruct (deref (rw_table w) a); cbn [mbind option_bind] in Hs; [|done]. simplify_eq.
    destruct Hok as (Hl & Hun & Hse). split_and!; simpl.
    + intros fh' a' Hin'. destruct (Hl fh' a' Hin') as (r0 & r & ? & ? & ? & Hcase).
      exists r0, r. split_and!; [done..|]. cbn [rw_round rw_outcomes rw_table].
      destruct Hcase as [Hp|?]; [left|by right]. revert Hp. unfold reopening; simpl.
      destruct (decide (fh' = fh)) as [->|Hne].
      * rewrite lookup_insert_eq, Hu. destruct (rr_sending _ !! fh) as [b|] eqn:Hb; [|done].
        intros [= <-]. apply Hse in Hb. apply Hun in Hu.
        apply elem_of_live in Hb as (? & ? & _), Hu as (? & ? & _). congruence.
      * by rewrite lookup_insert_ne, lookup_delete_ne.
    + intros fh' a' Ha. split_lookups. eauto.
    + intros fh' a' Ha. split_lookups; eauto.
  - split_and!.
    + intros fh' a' Hin'. destruct (decide (fh' = fh)) as [->|]; [|by eapply ended_others].
      pose proof He as (a & ? & Hre & _)%ReopenRound_ended_inv.
      pose proof (reopening_live _ _ _ _ Hok Hre) as Hin.
      assert (a = a') as -> by (apply elem_of_live in Hin as (? & ? & _), Hin' as (? & ? & _); congruence).
      by eapply ended_settles.
    + destruct Hok as (_ & Hun & _). intros fh' a'. cbn [rw_round].
      apply ReopenRound_ended_inv in He as (a & ? & _ & _ & [(_ & -> & _)|(_ & ->)] & _); [|apply Hun].
      intros Ha. split_lookups. eauto.
    + destruct Hok as (_ & _ & Hse). intros fh' a'. cbn [rw_round].
      apply ReopenRound_ended_inv in He as (a & ? & _ & _ & [(-> & _)|(-> & _)] & _); [apply Hse|].
      intros Ha. split_lookups. eauto.
  - destruct Hok as (Hl & Hun & Hse). split_and!; [|done..].
    intros fh a Hin. by eapply settled_or_pending_op, Hl.
Qed.

(** A reopen is sent once: what is being sent is no more to send. *)
Definition sent_once (rr : ReopenRound) : Prop :=
  ∀ fh a, rr_sending rr !! fh = Some a → rr_unsent rr !! fh = None.

Lemma round_step_sent_once w w' :
  sent_once (rw_round w) → round_step w w' → sent_once (rw_round w').
Proof.
  unfold sent_once. intros Hd Hstep. destruct Hstep as [fh req rr Hs|fh o rr t He|]; simpl.
  - unfold ReopenRound_send in Hs. destruct (rr_unsent (rw_round w) !! fh) as [b|] eqn:Hu;
      cbn [mbind option_bind] in Hs; [|done].
    destruct (deref (rw_table w) b); cbn [mbind option_bind] in Hs; [|done]. simplify_eq. simpl.
    intros fh' a Ha. destruct (decide (fh' = fh)) as [->|Hne]; [apply lookup_delete_eq|].
    rewrite lookup_insert_ne in Ha by done. rewrite lookup_delete_ne by done. eauto.
  - apply ReopenRound_ended_inv in He as (b & ? & _ & _ & Hrr & _). intros fh' a.
    destruct Hrr as [(-> & -> & _)|(-> & ->)]; intros Ha.
    + rewrite lookup_delete_None. right. eauto.
    + split_lookups. eauto.
  - done.
Qed.

Definition round_reachable (t0 : HandleTable) (w : RoundWorld) : Prop :=
  table_reachable t0 ∧ rtc round_step (rw_new t0) w.

Lemma round_reachable_ok t0 w : round_reachable t0 w → round_ok t0 w ∧ sent_once (rw_round w).
Proof.
  intros [Ht0%table_reachable_ok Hr]. split.
  - eapply (rtc_invariant round_step (round_ok t0)); [|exact Hr|apply round_new_ok].
    intros. by eapply round_step_ok.
  - eapply (rtc_invariant round_step (λ w, sent_once (rw_round w))); [|exact Hr|].
    + intros. by eapply round_step_sent_once.
    + intros fh a Ha. simpl in Ha. by rewrite lookup_empty in Ha.
Qed.

(** ** Properties of the round *)

(** C8: when a new session's connection may be published, every handle held as
    the session began has been settled: its reopen ended, and if its record is
    not dead, the reopen's reply named the file the handle was opened on (inode
    number and kernel file handle alike); and a handle the kernel still holds is
    dead or was reopened under its id.  This holds however the reopens, the
    kernel's releases, other opens and the release task interleave. *)
Theorem reopen_round_settles t0 w fh a :
  round_reachable t0 w → publishable (rw_round w) = true → (fh, a) ∈ live t0 →
  ∃ r o, deref (rw_table w) a = Some r ∧ rw_outcomes w !! fh = Some o
    ∧ (is_dead r = false → ∃ attr, o = Ok (Resp_Opened attr) ∧ hr_key r = KeyNode_of attr)
    ∧ (ht_get (rw_table w) fh = Some a → is_dead r = true ∨ fh ∈ rr_reopened (rw_round w)).
Proof.
  intros [[Hl _] _]%round_reachable_ok Hp Hin.
  apply andb_true_iff in Hp as [Hu%bool_decide_eq_true Hs%bool_decide_eq_true].
  destruct (Hl fh a Hin) as (r0 & r & _ & Hr & Hag & [Hre|(o & Ho & Hsame & Hm)]).
  { unfold reopening in Hre. by rewrite Hs, Hu, !lookup_empty in Hre. }
  exists r, o. split_and!; [done|done| |done]. intros Hd. specialize (Hsame Hd).
  unfold same_file in Hsame. destruct o as [[]|]; try done. exists attr. split; [done|].
  rewrite (proj1 (aged_same _ _ Hag)). by apply describes_of.
Qed.

Definition demo_attr (ino : Z) : Attr :=
  let t := Build_TimeSpec 0 0 in
  MkAttr ino 0 0 t t t Regular 420 1 0 0 0 4096 None (MkIdentity 1 []) false.

(** The file is reopened, the directory's reopen is lost with its connection. *)
Definition demo_round_ops : option RoundWorld :=
  let t := demo_table in
  '(_, rr) ← ReopenRound_send (ReopenRound_new t) t 1;
  '(rr, t) ← ReopenRound_ended rr t 1 (Ok (Resp_Opened (demo_attr 42)));
  '(rr, t) ← ReopenRound_ended rr t 2 (Err Error_Disconnected);
  Some (MkRW rr t (<[2 := Err Error_Disconnected]> (<[1 := Ok (Resp_Opened (demo_attr 42))]> ∅))).

Definition demo_round : RoundWorld := default (rw_new demo_table) demo_round_ops.

Lemma demo_round_reachable : round_reachable demo_table demo_round.
Proof.
  split; [apply demo_table_reachable|].
  eapply rtc_l; [eapply (rs_send _ 1); vm_compute; reflexivity|].
  eapply rtc_l; [eapply (rs_ended _ 1 (Ok (Resp_Opened (demo_attr 42)))); vm_compute; reflexivity|].
  eapply rtc_l; [eapply (rs_ended _ 2 (Err Error_Disconnected)); vm_compute; reflexivity|].
  vm_compute. apply rtc_refl.
Qed.

Lemma reopen_round_settles_witness :
  ∃ r, deref (rw_table demo_round) 0%nat = Some r ∧ is_dead r = false
       ∧ ∃ attr, hr_key r = KeyNode_of attr.
Proof.
  destruct (reopen_round_settles demo_table demo_round 1 0%nat demo_round_reachable)
    as (r & o & Hr & _ & Hs & _).
  - vm_compute. reflexivity.
  - apply elem_of_live. eexists. split; [reflexivity|]. split; reflexivity.
  - exists r. split; [exact Hr|]. vm_compute in Hr. injection Hr as <-. split; [reflexivity|].
    destruct (Hs eq_refl) as (attr & _ & Hk). exists attr. exact Hk.
Defined.

(** A reopen of the round can always end, once, whatever its outcome: the
    step does not fail, the handle leaves the round and the other handles of the
    round stay where they are.  Afterwards either the release of the handle is
    owed (its record died, or the kernel released it meanwhile, so what the
    reopen may have opened on the server is not leaked), or the handle counts as
    reopened and is still held. *)
Theorem reopen_ends t0 w fh a outcome :
  round_reachable t0 w → reopening (rw_round w) fh = Some a →
  ∃ rr t, ReopenRound_ended (rw_round w) (rw_table w) fh outcome = Some (rr, t)
    ∧ reopening rr fh = None
    ∧ (∀ fh', fh' ≠ fh → reopening rr fh' = reopening (rw_round w) fh')
    ∧ (is_Some (ht_owed t !! fh) ∨ fh ∈ rr_reopened rr ∧ is_Some (ht_get t fh)).
Proof.
  intros [Hok Hd]%round_reachable_ok Hre.
  pose proof (reopening_live _ _ _ _ Hok Hre) as Hin.
  destruct (proj1 Hok fh a Hin) as (r0 & r & _ & Hr & _).
  pose proof (apply_reopen_deref _ a outcome r Hr) as Hr'.
  set (t1 := apply_reopen (rw_table w) a outcome) in *.
  set (r' := if same_file r outcome then r else mark_dead r) in *.
  destruct (owe_release_spec t1 (hr_kind r') fh) as (t2 & Ht2 & Ho2).
  assert (is_Some (ht_owed t2 !! fh)) as Howed.
  { rewrite Ho2. destruct (ht_owed t1 !! fh) eqn:H1; [by exists o|].
    eexists. apply lookup_insert_eq. }
  unfold ReopenRound_ended, reopening in *.
  destruct (rr_sending (rw_round w) !! fh) as [b|] eqn:Hs;
    [injection Hre as ->|rewrite Hre]; cbn [mbind option_bind]; fold t1; rewrite Hr'; cbn [mbind option_bind];
    (destruct (is_dead r' || bool_decide (ht_get t1 fh = None)) eqn:Hb;
     [rewrite Ht2; cbn [mbind option_bind]|]);
    do 2 eexists; (split; [reflexivity|]); cbn [rr_sending rr_unsent rr_reopened];
    rewrite ?lookup_delete_eq, ?Hs, ?(Hd _ _ Hs); (split; [done|]);
    (split; [intros fh' Hne; by rewrite ?lookup_delete_ne|]);
    try (by left); right; (split; [set_solver|]);
    apply orb_false_iff in Hb as [_ Hb%bool_decide_eq_false]; by apply not_eq_None_Some.
Qed.

Lemma reopen_ends_witness :
  ∃ rr t, ReopenRound_ended (ReopenRound_new demo_table) demo_table 2 (Err Error_Timeout)
          = Some (rr, t) ∧ reopening rr 2 = None.
Proof.
  destruct (reopen_ends demo_table (rw_new demo_table) 2 1%nat (Err Error_Timeout))
    as (rr & t & He & Hn & _).
  - split; [apply demo_table_reachable|apply rtc_refl].
  - vm_compute. reflexivity.
  - exists rr, t. split; [exact He|exact Hn].
Defined.
