(* ===== verification/Caller.v ===== *)
(** * A call of the client ([crates/client/src/client.rs])

    One exchange on a stream ([exchange]), the wait for a connection
    ([wait_connected]), the call with its retries ([attempt]), and the open and
    release paths built on it.

    The network, the clock and the kernel's interrupts are the environment: each
    await of the source is a field of an environment record that says what it
    came to, and a [select!] whose other arm is the call's give-up is an [Await].
    An environment is a list, one element per turn of the loop, so that every
    definition is a function of what happened; a list that ends before the call
    does leaves it running.  What an exchange does to its QUIC stream is logged as
    a list of actions.  Accounting, tracing and taps, and the texts of causes, are
    not modelled. *)

From S2P Require Import Prelude Types Msg ClientTypes Owners ClientHandles Machine.

(** ** Exchanges *)

Inductive ErrorExchange :=
| EX_NotSent
| EX_Lost
| EX_Protocol (msg : string)
| EX_GaveUp (error : Error) (written : bool) (pending : bool).

(** [From<ErrorExchange> for Error]. *)
Definition Error_from_exchange (e : ErrorExchange) : Error :=
  match e with
  | EX_NotSent | EX_Lost => Error_Disconnected
  | EX_Protocol msg => Error_Protocol msg
  | EX_GaveUp error _ _ => error
  end.

(** The export root as its server describes it. *)
Record KeyRoot := MkKeyRoot { kr_ino : Z; kr_identity : Identity }.

Definition rewrite_root (root : KeyRoot) (a : Attr) : Attr :=
  if (a_ino a =? kr_ino root) && bool_decide (a_identity a = kr_identity root) then
    MkAttr ROOT (a_size a) (a_blocks a) (a_atime a) (a_mtime a) (a_ctime a) (a_kind a)
      (a_perm a) (a_nlink a) (a_uid a) (a_gid a) (a_rdev a) (a_blksize a) (a_xattr_names a)
      (a_identity a) (a_foreign a)
  else a.

Definition as_node_one (root : KeyRoot) (resp : Response) : Response :=
  match resp with
  | Resp_Entry a => Resp_Entry (rewrite_root root a)
  | Resp_Attr a => Resp_Attr (rewrite_root root a)
  | Resp_Opened a => Resp_Opened (rewrite_root root a)
  | Resp_Readdir entries e =>
      Resp_Readdir ((λ d, MkDirEntry (de_next_offset d) (de_name d)
                            (rewrite_root root <$> de_attr d)) <$> entries) e
  | _ => resp
  end.

(** What a future raced against the call's give-up came to. *)
Inductive Await (A : Type) := Gives (a : A) | GivesUp (e : Error).
Arguments Gives {A} a.
Arguments GivesUp {A} e.

(** [ErrorCodec], as far as [codec_error] tells it apart. *)
Inductive ErrorRead := Read_Io | Read_Other (msg : string).
Definition ReadReply : Type := result ErrorRead (result string Response).

Definition codec_error (e : ErrorRead) : ErrorExchange :=
  match e with
  | Read_Io => EX_Lost
  | Read_Other msg => EX_Protocol msg
  end.

Record ExchangeEnv := MkXE {
  xe_open : Await bool;
  xe_encode : result string ();
  xe_write : Await bool;
  xe_finish : bool;
  xe_reply : Await ReadReply }.

(** What is done to the stream: the request written whole; the send side finished
    or reset with [CANCELLED]; the receive side stopped with [CANCELLED]. *)
Inductive StreamAction := SA_Written | SA_Finish | SA_Reset | SA_Stop.
#[export] Instance StreamAction_eq_dec : EqDecision StreamAction.
Proof. solve_decision. Defined.

(** The drops of [SideSend] and [SideRecv]: a side not done with is reset or
    stopped. *)
Definition drop_send (done : bool) : list StreamAction := if done then [] else [SA_Reset].
Definition drop_recv (done : bool) : list StreamAction := if done then [] else [SA_Stop].

(** The outcome, and the actions on the stream until the exchange returns.  A
    pending reply keeps both sides: nothing is dropped. *)
Definition exchange (root : KeyRoot) (ids : ClientIds.IdMap) (req : Request) (env : ExchangeEnv)
  : result ErrorExchange Response * list StreamAction :=
  match xe_open env with
  | GivesUp e => (Err (EX_GaveUp e false false), [])
  | Gives false => (Err EX_NotSent, [])
  | Gives true =>
      let dropped := drop_recv false ++ drop_send false in
      match xe_encode env with
      | Err e => (Err (EX_Protocol e), dropped)
      | Ok _ =>
          match xe_write env with
          | GivesUp e => (Err (EX_GaveUp e false false), dropped)
          | Gives false => (Err EX_NotSent, dropped)
          | Gives true =>
              let changes := changes req in
              let finished := if changes then [] else [SA_Finish] in
              if negb changes && negb (xe_finish env) then
                (Err EX_Lost, SA_Written :: finished ++ drop_recv false)
              else
                let sent := SA_Written :: finished in
                match xe_reply env with
                | GivesUp e => (Err (EX_GaveUp e true true), sent)
                | Gives (Err e) => (Err (codec_error e), sent ++ drop_send (negb changes))
                | Gives (Ok (Err e)) => (Err (EX_Protocol e), sent ++ drop_send (negb changes))
                | Gives (Ok (Ok resp)) =>
                    (Ok (ClientIds.incoming ids req (as_node_one root resp)),
                     sent ++ (if changes then [SA_Finish] else []))
                end
          end
      end
  end.

(** An exchange given up on: what is left of it is counted and cancelled, or
    dropped.  The connection, the actions, and the call's error. *)
Definition given_up (error : Error) (pending counted changes : bool) (a : AttachedState)
  : Error * AttachedState * list StreamAction :=
  if pending then
    if counted then (error, CancelPending_count a, [SA_Reset])
    else (error, a, drop_send (negb changes) ++ drop_recv false)
  else (error, a, []).

(** Whether a request whose reply was lost may be sent again, given the records of
    the handles it names. *)
Definition retry_safe (req : Request) (handles : option HandleRec * option HandleRec) : bool :=
  match req with
  | Req_Lookup _ _ | Req_Getattr _ _ | Req_Setattr _ _ _ | Req_Readlink _ | Req_Read _ _ _
  | Req_Release _ _ | Req_Fsync _ _ | Req_Opendir _ _ | Req_Readdir _ _ _
  | Req_Releasedir _ _ | Req_Statfs _ | Req_Getxattr _ _ | Req_Listxattr _ | Req_Access _ _
  | Req_CopyFileRange _ _ _ _ _ | Req_Fallocate _ _ _ _ | Req_Lseek _ _ _ => true
  | Req_Write _ _ _ => match handles.1 with Some rec => negb (appends rec) | None => false end
  | Req_Open _ _ flags => Z.land flags O_TRUNC =? 0
  | Req_Create _ _ _ _ flags => Z.land flags (Z.lor O_EXCL O_TRUNC) =? 0
  | Req_Setxattr _ _ _ flags => flags =? 0
  | Req_Mknod _ _ _ _ | Req_Mkdir _ _ _ | Req_Unlink _ _ | Req_Rmdir _ _
  | Req_Symlink _ _ _ | Req_Rename _ _ _ _ _ | Req_Link _ _ _ | Req_Removexattr _ _ => false
  end.

(** ** Waiting for a connection *)

Record Attached := MkAtt {
  att_state : AttachedState;
  att_root : KeyRoot;
  att_ids : ClientIds.IdMap }.

Inductive ConnState :=
| Conn_Connected (a : Attached)
| Conn_Connecting (since : Z)
| Conn_Closed.

(** What [timeout_at(limit, state.changed())] came to. *)
Inductive WaitChange := State_Changed | State_Dropped | State_Deadline.

(** One look at the connection's state, or the kernel's interrupt of the wait. *)
Inductive WaitEv :=
| Wait_Look (now : Z) (current : ConnState) (change : WaitChange)
| Wait_Interrupt.

(** [interruptible] around [wait_connected]; [None] while the wait goes on. *)
Fixpoint wait_connected (deadline offline_timeout : Z) (call : CallState) (evs : list WaitEv)
  : option (result Error Attached) :=
  match evs with
  | [] => None
  | Wait_Interrupt :: _ => Some (Err Error_Interrupted)
  | Wait_Look now current change :: evs =>
      let wait limit :=
        if limit <=? now then Some (Err Error_Timeout)
        else match change with
             | State_Changed => wait_connected deadline offline_timeout call evs
             | State_Dropped => Some (Err Error_Closed)
             | State_Deadline => Some (Err Error_Timeout)
             end in
      match current with
      | Conn_Connected attached =>
          if takes call (att_state attached) then Some (Ok attached) else wait deadline
      | Conn_Closed => Some (Err Error_Closed)
      | Conn_Connecting since => wait (Z.min deadline (since + offline_timeout))
      end
  end.

(** ** A call *)

(** One turn of the loop: whether a handle of the request is dead, the wait, the
    pending cancels as first read and as seen while waiting for them, the
    exchange, and the clock after it. *)
Record AttemptEnv := MkAE {
  ae_dead : bool;
  ae_wait : list WaitEv;
  ae_pending : Z;
  ae_cancels : Await (list Z);
  ae_exchange : ExchangeEnv;
  ae_now : Z }.

(** What a call sent: on which connection, with how many cancels pending, what came
    of it, the connection after, and all that was done to the stream. *)
Record SentRec := MkSent {
  sr_on : AttachedState;
  sr_pending : Z;
  sr_outcome : result ErrorExchange Response;
  sr_after : AttachedState;
  sr_actions : list StreamAction }.

Inductive Run (A : Type) := Running | Panicked | Done (a : A).
Arguments Running {A}.
Arguments Panicked {A}.
Arguments Done {A} a.

(** How the call ended, with its state, and what it sent. *)
Definition AttemptOut : Type := Run (result Error Response * CallState) * list SentRec.

Definition logged (s : SentRec) (out : AttemptOut) : AttemptOut := (out.1, s :: out.2).

(** The count a change goes out at, once the wait for the cancels is over. *)
Definition wait_cancels (call : CallState) (a : AttachedState) (pending : Z)
    (cancels : Await (list Z)) : Run (result Error Z) :=
  match sendable call a pending with
  | Send_Now => Done (Ok pending)
  | Send_No => Panicked
  | Send_AfterCancels =>
      match cancels with
      | GivesUp e => Done (Err e)
      | Gives counts =>
          match List.find (λ n, bool_decide (sendable call a n = Send_Now)) counts with
          | Some n => Done (Ok n)
          | None => Running
          end
      end
  end.

(** How the outcome of an exchange of [req] moves the call: on to another turn, or
    to its end; with the connection, and what is done to the stream, after. *)
Definition after_exchange (req : Request) (call : CallState) (a : AttachedState)
    (r : result ErrorExchange Response)
  : option (CallState * option (result Error Response) * AttachedState * list StreamAction) :=
  let goes_on (cr : CallState * result Error ()) :=
    (cr.1, match cr.2 with Ok _ => None | Err e => Some (Err e) end, a, []) in
  match r with
  | Ok (Resp_Err errno) => Some (answered call true, Some (Err (Error_Remote errno)), a, [])
  | Ok resp => Some (answered call false, Some (Ok resp), a, [])
  | Err EX_NotSent => goes_on <$> lost call Loss_NotSent
  | Err EX_Lost => goes_on <$> lost call Loss_Lost
  | Err (EX_Protocol msg) => Some (failed call, Some (Err (Error_Protocol msg)), a, [])
  | Err (EX_GaveUp error written pending) =>
      let '(call, counted) := gave_up call written in
      let '(error, a, actions) := given_up error pending counted (changes req) a in
      Some (call, Some (Err error), a, actions)
  end.

Fixpoint attempt (req : Request) (offline_timeout : Z) (offline_deadline : Z)
    (call : CallState) (envs : list AttemptEnv) : AttemptOut :=
  match envs with
  | [] => (Running, [])
  | env :: envs =>
      if ae_dead env then (Done (Err Error_Stale, failed call), [])
      else
        match wait_connected offline_deadline offline_timeout call (ae_wait env) with
        | None => (Running, [])
        | Some (Err e) =>
            let call := match e with
                        | Error_Timeout | Error_Interrupted => (gave_up call false).1
                        | _ => failed call
                        end in
            (Done (Err e, call), [])
        | Some (Ok attached) =>
            match ClientIds.outgoing (att_ids attached) req with
            | Err e => (Done (Err e, failed call), [])
            | Ok mapped =>
                let sent_req := default req mapped in
                match wait_cancels call (att_state attached) (ae_pending env) (ae_cancels env) with
                | Panicked => (Panicked, [])
                | Running => (Running, [])
                | Done (Err e) => (Done (Err e, (gave_up call false).1), [])
                | Done (Ok pending) =>
                    match sent call (at_generation (att_state attached)) with
                    | None => (Panicked, [])
                    | Some call =>
                        let '(r, actions) := exchange (att_root attached) (att_ids attached)
                                               sent_req (ae_exchange env) in
                        match after_exchange sent_req call (att_state attached) r with
                        | None => (Panicked, [])
                        | Some (call, Some result, a, rest) =>
                            (Done (result, call),
                             [MkSent (att_state attached) pending r a (actions ++ rest)])
                        | Some (call, None, a, rest) =>
                            let rec := MkSent (att_state attached) pending r a (actions ++ rest) in
                            let offline_deadline :=
                              match r with
                              | Err EX_Lost => ae_now env + offline_timeout
                              | _ => offline_deadline
                              end in
                            logged rec (attempt req offline_timeout offline_deadline call envs)
                        end
                    end
                end
            end
        end
  end.

(** The records of the handles a request names, as the call begins. *)
Definition handles_of (t : HandleTable) (req : Request) : option HandleRec * option HandleRec :=
  let rec_of fh := fh ← fh; a ← ht_get t fh; deref t a in
  (rec_of (fhs req).1, rec_of (fhs req).2).

(** [Caller::call]: the request's own handles decide whether it may be resent. *)
Definition call (t : HandleTable) (req : Request) (offline_timeout now : Z)
    (envs : list AttemptEnv) : AttemptOut :=
  attempt req offline_timeout (now + offline_timeout)
    (CallState_new (changes req) (retry_safe req (handles_of t req))) envs.

(** ** Opens and releases *)

(** The end of [Client::open_handle]: the call for the fresh id [fh] came to
    [opened]; [node] says which node the attributes belong to, or refuses them.
    [None]: the [unreachable!]. *)
Definition open_handle_end (t : HandleTable) (fh : Z) (path : Path) (flags : Z)
    (kind : HandleKind) (opener : option Opener) (node : Attr → result Error Z)
    (opened : result Error Response) : option (result Error (Z * Attr) * HandleTable) :=
  let owe := owe_release t (release_request kind fh) in
  match open_settled opened, opened with
  | Settle_Keep, Ok (Resp_Opened attr) =>
      match node attr with
      | Ok nodeid =>
          Some (Ok (fh, attr),
                (ht_insert t fh nodeid (KeyNode_of attr) path flags kind opener).2)
      | Err e => t ← owe; Some (Err e, t)
      end
  | Settle_Owe, Ok other =>
      t ← owe; Some (Err (Error_Protocol ("unexpected reply " +:+ kind_name other)), t)
  | Settle_Owe, Err e => t ← owe; Some (Err e, t)
  | Settle_Nothing, Err e => Some (Err e, t)
  | _, _ => None
  end.

(** [Caller::release], its call come to [released]. *)
Definition release_end (t : HandleTable) (req : Request) (released : result Error Response)
  : option (result Error () * HandleTable) :=
  t ← (if release_owed released then owe_release t req else Some t);
  Some (match released with
        | Ok Resp_Ok => Ok ()
        | Ok other => Err (Error_Protocol ("unexpected reply " +:+ kind_name other))
        | Err e => Err e
        end, t).

(** ** One turn of the loop *)

(** The frame went out whole, so the server may run it. *)
Definition written_whole (s : SentRec) : bool := bool_decide (SA_Written ∈ sr_actions s).

Lemma wait_connected_takes d o c evs a :
  wait_connected d o c evs = Some (Ok a) → takes c (att_state a) = true.
Proof.
  revert d. induction evs as [|ev evs IH]; intros d; [done|]. destruct ev as [now cur ch|]; [|done].
  cbn [wait_connected]. destruct cur as [b|since|]; [|destruct (_ <=? now), ch; eauto; done|done].
  destruct (takes c (att_state b)) eqn:Ht; [by intros [= <-]|].
  destruct (d <=? now), ch; eauto; done.
Qed.

Lemma takes_spec c a :
  takes c a = true ↔
    c_status c = Call_Waiting ∧ at_published a = true ∧ c_min_generation c ≤ at_generation a.
Proof. unfold takes. rewrite !andb_true_iff, bool_decide_eq_true, Z.leb_le. tauto. Qed.

Lemma sendable_now c a n :
  takes c a = true → sendable c a n = Send_Now ↔ (c_changes c = true → n = 0).
Proof.
  unfold sendable. intros ->. simpl. destruct (c_changes c); simpl; [|naive_solver].
  destruct (Z.eqb_spec n 0); simpl; naive_solver.
Qed.

Lemma wait_cancels_spec c a n cs :
  takes c a = true →
  match wait_cancels c a n cs with
  | Panicked => False
  | Done (Ok m) => c_changes c = true → m = 0
  | _ => True
  end.
Proof.
  intros Ht. unfold wait_cancels. destruct (sendable c a n) eqn:Hs.
  - unfold sendable in Hs. rewrite Ht in Hs. simpl in Hs. by destruct (_ && _).
  - destruct cs as [counts|]; [|done]. destruct (List.find _ counts) eqn:Hf; [|done].
    apply List.find_some in Hf as [_ Hf%bool_decide_eq_true].
    by apply (proj1 (sendable_now c a _ Ht)).
  - by apply (proj1 (sendable_now c a _ Ht)).
Qed.

(** What an exchange writes, and how its outcome tells. *)
Lemma exchange_spec root ids req env r actions :
  exchange root ids req env = (r, actions) →
  (r = Err EX_NotSent → SA_Written ∉ actions)
  ∧ (∀ e pending, r = Err (EX_GaveUp e false pending) → SA_Written ∉ actions ∧ pending = false)
  ∧ (∀ e pending, r = Err (EX_GaveUp e true pending) →
       actions = SA_Written :: (if changes req then [] else [SA_Finish]) ∧ pending = true)
  ∧ (changes req = true → SA_Finish ∈ actions → is_ok r = true).
Proof.
  unfold exchange, codec_error. intros Hx.
  destruct (xe_open env) as [[]|], (xe_encode env), (xe_write env) as [[]|], (changes req),
    (xe_finish env), (xe_reply env) as [[[]|[]]|]; simpl in Hx; injection Hx as <- <-;
    split_and!; intros; simplify_eq/=; try done; try split; try done;
    rewrite ?elem_of_cons, ?elem_of_nil in *; intuition congruence.
Qed.

(** One turn ends the call having sent nothing, ends it with one exchange, or goes
    on to the next with a call that waits for a newer connection. *)
Inductive turn_goes_on (c : CallState) (s : SentRec) (c' : CallState) : Prop :=
| turn_not_sent :
    sr_outcome s = Err EX_NotSent → c_lost_once c' = c_lost_once c → turn_goes_on c s c'
| turn_lost :
    sr_outcome s = Err EX_Lost → c_resendable c = true → c_lost_once c = false →
    c_lost_once c' = true → turn_goes_on c s c'.

Record turn_sent (req : Request) (c : CallState) (s : SentRec) : Prop := {
  ts_takes : takes c (sr_on s) = true;
  ts_pending : c_changes c = true → sr_pending s = 0;
  ts_exchange : ∃ root ids env mapped actions rest c1,
    ClientIds.outgoing ids req = Ok mapped
    ∧ exchange root ids (default req mapped) env = (sr_outcome s, actions)
    ∧ sr_actions s = actions ++ rest
    ∧ sent c (at_generation (sr_on s)) = Some c1
    ∧ ∃ c2 r, after_exchange (default req mapped) c1 (sr_on s) (sr_outcome s)
              = Some (c2, r, sr_after s, rest) }.

Lemma sent_waiting c g : c_status c = Call_Waiting → ∃ c1, sent c g = Some c1 ∧ c_status c1 = Call_InFlight g
  ∧ c_changes c1 = c_changes c ∧ c_resendable c1 = c_resendable c ∧ c_lost_once c1 = c_lost_once c.
Proof. intros Hs. unfold sent. rewrite Hs. eexists. split; [done|]. done. Qed.

Lemma after_exchange_spec req c g a r :
  c_status c = Call_InFlight g →
  ∃ c' res a' rest, after_exchange req c a r = Some (c', res, a', rest)
    ∧ (res = None → c_status c' = Call_Waiting ∧ c_min_generation c' = g + 1
         ∧ c_changes c' = c_changes c ∧ c_resendable c' = c_resendable c
         ∧ (r = Err EX_NotSent ∧ c_lost_once c' = c_lost_once c
            ∨ r = Err EX_Lost ∧ c_resendable c = true ∧ c_lost_once c = false
              ∧ c_lost_once c' = true)).
Proof.
  intros Hs. destruct r as [resp|[| |msg|e w p]]; simpl.
  - destruct resp; do 4 eexists; by split.
  - unfold lost. rewrite Hs. do 4 eexists. split; [done|]. simpl. tauto.
  - unfold lost. rewrite Hs.
    destruct (c_resendable c) eqn:Hr, (c_lost_once c) eqn:Hl; simpl; do 4 eexists;
      (split; [done|]); simpl; intros; naive_solver.
  - do 4 eexists. by split.
  - destruct (given_up _ _ _ _ _) as [[e' a'] rest]. do 4 eexists. by split.
Qed.

Lemma attempt_turn req ot od c env envs :
  c_status c = Call_Waiting →
  let out := attempt req ot od c (env :: envs) in
  out.2 = [] ∧ out.1 ≠ Panicked
  ∨ ∃ s, turn_sent req c s
      ∧ (out.2 = [s] ∧ out.1 ≠ Panicked
         ∨ ∃ od' c', out = logged s (attempt req ot od' c' envs)
             ∧ c_status c' = Call_Waiting
             ∧ c_min_generation c' = at_generation (sr_on s) + 1
             ∧ c_changes c' = c_changes c ∧ c_resendable c' = c_resendable c
             ∧ turn_goes_on c s c').
Proof.
  intros Hs. cbn [attempt]. destruct (ae_dead env); [by left|].
  destruct (wait_connected _ _ _ _) as [[a|e]|] eqn:Hw; [|by left..].
  apply wait_connected_takes in Hw.
  destruct (ClientIds.outgoing _ req) as [mapped|e] eqn:Hout; [|by left].
  pose proof (wait_cancels_spec c _ (ae_pending env) (ae_cancels env) Hw) as Hc.
  destruct (wait_cancels _ _ _ _) as [| |[pending|e]]; [by left|done| |by left].
  destruct (sent_waiting c (at_generation (att_state a)) Hs) as (c1 & Hsent & Hf & Hch & Hre & Hlo).
  rewrite Hsent. destruct (exchange _ _ _ _) as [r actions] eqn:Hx.
  destruct (after_exchange_spec (default req mapped) c1 _ (att_state a) r Hf)
    as (c' & res & a' & rest & Ha & Hn). rewrite Ha.
  right. exists (MkSent (att_state a) pending r a' (actions ++ rest)).
  split.
  - split; [done|done|]. exists (att_root a), (att_ids a), (ae_exchange env), mapped, actions, rest, c1.
    split_and!; [done..|]. by exists c', res.
  - destruct res as [res|]; [by left|]. right.
    destruct (Hn eq_refl) as (Hw' & Hm & Hc' & Hr' & Hg). do 2 eexists. split; [reflexivity|].
    split_and!; [done|done|congruence|congruence|].
    destruct Hg as [[? ?]|(? & ? & ? & ?)]; [apply turn_not_sent|apply turn_lost]; simpl; congruence.
Qed.

(** How often a call from here may still be written whole. *)
Definition writes_left (c : CallState) : nat :=
  if c_resendable c && negb (c_lost_once c) then 2 else 1.

Lemma given_up_left error pending counted ch a error' a' rest :
  given_up error pending counted ch a = (error', a', rest) →
  SA_Written ∉ rest ∧ (pending = false → rest = [])
  ∧ a' = if pending && counted then CancelPending_count a else a.
Proof.
  unfold given_up. destruct pending, counted, ch; simpl; intros [= <- <- <-];
    split_and!; try done; set_solver.
Qed.

(** An exchange that was not sent wrote nothing whole. *)
Lemma turn_not_written req c s :
  turn_sent req c s → sr_outcome s = Err EX_NotSent → written_whole s = false.
Proof.
  intros [_ _ (root & ids & env & mapped & actions & rest & c1 & _ & Hx & Ha & _ & c2 & r & Haf)] Ho.
  unfold written_whole. rewrite Ha. apply bool_decide_eq_false. rewrite Ho in *.
  apply exchange_spec in Hx as (Hn & _). specialize (Hn eq_refl).
  assert (rest = []) as ->. { simpl in Haf. destruct (lost _ _) as [[]|]; simpl in Haf; by simplify_eq. }
  by rewrite app_nil_r.
Qed.

Lemma attempt_writes req ot envs : ∀ od c,
  c_status c = Call_Waiting →
  (length (filter (λ s, written_whole s = true) (attempt req ot od c envs).2) ≤ writes_left c)%nat.
Proof.
  induction envs as [|env envs IH]; intros od c Hc; [simpl; lia|].
  assert (1 ≤ writes_left c)%nat as H1 by (unfold writes_left; destruct (_ && _); lia).
  destruct (attempt_turn req ot od c env envs Hc) as [[-> _]|(s & Hs & Hout)]; [simpl; lia|].
  destruct Hout as [[-> _]|(od' & c' & -> & Hw & _ & _ & Hr & Hg)].
  - rewrite filter_cons. case_decide; simpl; lia.
  - specialize (IH od' c' Hw). cbn [logged snd]. rewrite filter_cons.
    destruct Hg as [Ho Hl|Ho Hre Hl Hl'].
    + rewrite (turn_not_written req c s Hs Ho). rewrite decide_False by done.
      assert (writes_left c' = writes_left c) as <- by (unfold writes_left; by rewrite Hr, Hl). done.
    + assert (writes_left c' = 1%nat) as Hw1 by (unfold writes_left; by rewrite Hl', andb_false_r).
      assert (writes_left c = 2%nat) as Hw2 by (unfold writes_left; by rewrite Hre, Hl).
      case_decide; simpl; lia.
Qed.

(** What holds of each exchange of a call, in order: [newer] than every one before. *)
Fixpoint increasing (above : Z) (log : list SentRec) : Prop :=
  match log with
  | [] => True
  | s :: log => above ≤ at_generation (sr_on s) ∧ increasing (at_generation (sr_on s) + 1) log
  end.

Lemma attempt_increasing req ot envs : ∀ od c,
  c_status c = Call_Waiting → increasing (c_min_generation c) (attempt req ot od c envs).2.
Proof.
  induction envs as [|env envs IH]; intros od c Hc; [done|].
  destruct (attempt_turn req ot od c env envs Hc) as [[-> _]|(s & Hs & Hout)]; [done|].
  destruct (proj1 (takes_spec _ _) (ts_takes _ _ _ Hs)) as (_ & _ & Hmin).
  destruct Hout as [[-> _]|(od' & c' & -> & Hw & Hm & _)]; simpl; [done|].
  split; [done|]. rewrite <- Hm. by apply IH.
Qed.

(** A change's exchange, as the protocol orders it: sent with no cancel pending on
    the connection; its send side finished only once it is answered, so that a
    give-up can still reach the server; and given up on once written whole, it is
    counted on the connection's pending cancels and the server told. *)
Definition change_ordered (s : SentRec) : Prop :=
  sr_pending s = 0 ∧ at_published (sr_on s) = true
  ∧ (SA_Finish ∈ sr_actions s → is_ok (sr_outcome s) = true)
  ∧ (∀ e p, sr_outcome s = Err (EX_GaveUp e true p) →
       SA_Reset ∈ sr_actions s ∧ at_cancels (sr_after s) = at_cancels (sr_on s) + 1)
  ∧ ((∀ e p, sr_outcome s ≠ Err (EX_GaveUp e true p)) → sr_after s = sr_on s).

Lemma outgoing_changes ids req mapped :
  ClientIds.outgoing ids req = Ok mapped → changes (default req mapped) = changes req.
Proof.
  destruct ids as [|o]; simpl; [by intros [= <-]|]. intros H.
  unfold ClientIds.Owned_outgoing in H. destruct req; simplify_eq; try done.
  - destruct (_ || _); [|by simplify_eq].
    destruct (ClientIds.map_opt (ClientIds.server o User) _); simpl in H; [|done].
    destruct (ClientIds.map_opt _ _); simpl in H; [|done]. by simplify_eq.
  - destruct (is_posix_acl name); [|by simplify_eq].
    destruct (acl_owners value); [|by simplify_eq]. destruct (forallb _ _); by simplify_eq.
Qed.

Lemma turn_change_ordered req c s :
  changes req = true → c_changes c = true → turn_sent req c s → change_ordered s.
Proof.
  intros Hreq Hc [Ht Hp (root & ids & env & mapped & actions & rest & c1 & Hout & Hx & Ha & Hsent & c2 & r & Haf)].
  destruct (proj1 (takes_spec _ _) Ht) as (_ & Hpub & _).
  assert (changes (default req mapped) = true) as Hch by (by rewrite (outgoing_changes _ _ _ Hout)).
  apply exchange_spec in Hx as (_ & Hgf & Hgt & Hfin).
  unfold change_ordered. split; [auto|]. split; [done|]. rewrite Ha.
  assert (in_flight c1 = true ∧ c_changes c1 = true) as [Hif Hc1].
  { unfold sent in Hsent. destruct (c_status c); simplify_eq. done. }
  destruct (sr_outcome s) as [resp|[| |msg|e [] p]] eqn:Ho; simpl in Haf.
  - split_and!; [done|by intros ? ? ?|]. intros _. by destruct resp; injection Haf as _ _ <- _.
  - destruct (lost _ _) as [[]|]; [|done]. injection Haf as _ _ <- <-. rewrite app_nil_r.
    split_and!; [auto|by intros ? ? ?|done].
  - destruct (lost _ _) as [[]|]; [|done]. injection Haf as _ _ <- <-. rewrite app_nil_r.
    split_and!; [auto|by intros ? ? ?|done].
  - injection Haf as _ _ <- <-. rewrite app_nil_r. split_and!; [auto|by intros ? ? ?|done].
  - destruct (Hgt e p eq_refl) as [Hact ->]. rewrite Hch in Hact. unfold counts_give_up in Haf.
    rewrite Hif, Hc1 in Haf. injection Haf as _ _ <- <-. rewrite Hact.
    split_and!; [simpl; set_solver| |intros Hno; by destruct (Hno e true)].
    intros ? ? _. split; [simpl; set_solver|done].
  - destruct (Hgf e p eq_refl) as [Hact ->]. injection Haf as _ _ <- <-. rewrite app_nil_r.
    split_and!; [auto|by intros ? ? ?|done].
Qed.

(** ** Properties *)

(** C4: a request reaches the server at most as often as is safe.  However its
    connections fail, a call writes its request whole at most twice, and at most
    once unless sending it again cannot change the outcome ([retry_safe]): a
    rename, an append or an exclusive create is never run twice by the client's
    own doing. *)
Theorem call_written_at_most t req offline_timeout now envs :
  (length (filter (λ s, written_whole s = true) (call t req offline_timeout now envs).2)
   ≤ if retry_safe req (handles_of t req) then 2 else 1)%nat.
Proof.
  pose proof (attempt_writes req offline_timeout envs (now + offline_timeout)
    (CallState_new (changes req) (retry_safe req (handles_of t req))) eq_refl) as H.
  unfold writes_left in H. simpl in H. rewrite andb_true_r in H. exact H.
Qed.

(** A call never trips an assertion of the protocol's state machine (it is
    sent only while waiting and loses only an exchange in flight), and each time
    it is sent again it is on a connection of a strictly newer generation. *)
Theorem call_resends_on_newer t req offline_timeout now envs :
  (call t req offline_timeout now envs).1 ≠ Panicked
  ∧ increasing 0 (call t req offline_timeout now envs).2.
Proof.
  unfold call. split; [|by apply (attempt_increasing req _ envs _ (CallState_new _ _))].
  assert (∀ envs od c, c_status c = Call_Waiting →
            (attempt req offline_timeout od c envs).1 ≠ Panicked) as H.
  { clear envs. induction envs as [|env envs IH]; intros od c Hc; [done|].
    destruct (attempt_turn req offline_timeout od c env envs Hc)
      as [[_ ?]|(s & _ & [[_ ?]|(od' & c' & -> & Hw & _)])]; [done..|]. by apply IH. }
  by apply H.
Qed.

(** A change is sent only when the server has answered for every change its
    connection gave up on, and stays cancellable until it is answered: its send
    side is not finished before; and if it is given up on once written whole, it
    is counted on the connection's pending cancels, once, and the server is told. *)
Theorem call_orders_changes t req offline_timeout now envs :
  changes req = true → Forall change_ordered (call t req offline_timeout now envs).2.
Proof.
  intros Hreq. unfold call.
  assert (∀ envs od c, c_status c = Call_Waiting → c_changes c = true →
            Forall change_ordered (attempt req offline_timeout od c envs).2) as H.
  { clear envs. induction envs as [|env envs IH]; intros od c Hc Hch; [by constructor|].
    destruct (attempt_turn req offline_timeout od c env envs Hc)
      as [[-> _]|(s & Hs & [[-> _]|(od' & c' & -> & Hw & _ & Hch' & _)])]; [by constructor|..].
    - constructor; [|constructor]. by eapply turn_change_ordered.
    - constructor; [by eapply turn_change_ordered|]. apply IH; [done|congruence]. }
  by apply H.
Qed.

(** A mkdir: the first stream fails, the second exchange is given up on once
    written. *)
Definition demo_conn (generation : Z) : ConnState :=
  Conn_Connected (MkAtt (publish (AttachedState_new generation)) (MkKeyRoot 2 (MkIdentity 1 []))
                    ClientIds.IdMap_Direct).
Definition demo_envs : list AttemptEnv :=
  [MkAE false [Wait_Look 0 (demo_conn 1) State_Changed] 0 (Gives [])
     (MkXE (Gives false) (Ok ()) (Gives true) true (GivesUp Error_Timeout)) 0;
   MkAE false [Wait_Look 1 (demo_conn 1) State_Changed; Wait_Look 2 (demo_conn 2) State_Changed]
     1 (Gives [1; 0])
     (MkXE (Gives true) (Ok ()) (Gives true) true (GivesUp Error_Interrupted)) 3].
Definition demo_mkdir : Request := Req_Mkdir Path_root (MkName []) 493.

Lemma call_orders_changes_witness :
  (call demo_table demo_mkdir 100 0 demo_envs).1
  = Done (Err Error_Interrupted, MkCall true false false 2 2 (Call_Ended End_GaveUp))
  ∧ length (call demo_table demo_mkdir 100 0 demo_envs).2 = 2%nat
  ∧ Forall change_ordered (call demo_table demo_mkdir 100 0 demo_envs).2.
Proof.
  split; [vm_compute; reflexivity|]. split; [vm_compute; reflexivity|].
  apply (call_orders_changes demo_table demo_mkdir 100 0 demo_envs). reflexivity.
Defined.

(** An open leaves no doubt.  It ends with its handle in the table, live and
    keyed by the file the reply described, under the id it was opened with; or
    with an error, and then the release of that id is owed, except when the
    server refused the open or the call never went out, which leave nothing to
    release. *)
Theorem open_leaves_no_doubt t fh path flags kind opener node opened :
  ∃ r t', open_handle_end t fh path flags kind opener node opened = Some (r, t')
    ∧ match r with
      | Ok (fh', attr) =>
          fh' = fh ∧ opened = Ok (Resp_Opened attr)
          ∧ ∃ a rec, ht_get t' fh = Some a ∧ deref t' a = Some rec ∧ is_dead rec = false
                     ∧ hr_key rec = KeyNode_of attr ∧ hr_kind rec = kind
      | Err e =>
          is_Some (ht_owed t' !! fh)
          ∨ opened = Err e ∧ t' = t
            ∧ match e with
              | Error_Stale | Error_Remote _ | Error_Closed | Error_Unmapped => True
              | _ => False
              end
      end.
Proof.
  destruct (owe_release_spec t kind fh) as (t1 & Ht1 & Ho1).
  assert (is_Some (ht_owed t1 !! fh)) as Howed.
  { rewrite Ho1. destruct (ht_owed t !! fh) eqn:H; [by eexists|]. rewrite lookup_insert_eq. by eexists. }
  unfold open_handle_end. rewrite Ht1. destruct opened as [resp|e].
  - destruct resp; try (do 2 eexists; (split; [reflexivity|]); by left).
    cbn [open_settled]. destruct (node attr) as [nodeid|e].
    + destruct (ht_insert _ _ _ _ _ _ _ _) as [a t2] eqn:Hi.
      apply ht_insert_fields in Hi as (-> & Hh & Hm & _).
      do 2 eexists. split; [reflexivity|]. split; [done|]. split; [done|].
      do 2 eexists. unfold ht_get, deref. cbn [snd]. rewrite Hm, Hh, lookup_insert_eq.
      split; [done|]. rewrite lookup_app_r, Nat.sub_diag by lia. split; [reflexivity|done].
    + do 2 eexists. split; [reflexivity|]. by left.
  - destruct e; cbn [open_settled]; do 2 eexists; (split; [reflexivity|]);
      first [by left | right; by split_and!].
Qed.
