(* ===== verification/Inodes.v ===== *)
(** * The client's node table ([crates/client/src/inodes.rs])

    What the kernel calls each file (a nodeid), the names each was reached
    through, and the path a node is addressed by on the wire.

    The search of [id_for] for a free number and the climb of [names_to] to the
    root recurse on fuel: the source bounds the climb by [MAX_DEPTH], which is the
    fuel here; the search's fuel is the number of nodes and one more, which the
    theorems show to be enough. *)

From S2P Require Import Prelude Types Msg ClientTypes.

(** ** Data and operations *)

Definition FNV_OFFSET : Z := 0xcbf29ce484222325.
Definition FNV_PRIME : Z := 0x00000100000001b3.

Definition fnv_step (hash : Z) (b : byte) : Z := wrap64 (Z.lxor hash (byte_z b) * FNV_PRIME).

(** Where the substitutes for a file start. *)
Definition substitute (identity : Identity) : Z :=
  Z.max (foldl fnv_step FNV_OFFSET (le_bytes 4 (handle_type identity) ++ handle identity)) 2.

Definition MAX_DEPTH : nat := Nat.div PATH_MAX 2.

Record Node := MkNode {
  nd_aliases : list (Z * Name);
  nd_lookup_count : Z;
  nd_key : option KeyNode;
  nd_unlinked : bool;
  nd_kind : FileKind;
  nd_children : gmap Name Z }.

Record NodeTable := MkNodes { nt_nodes : gmap Z Node; nt_by_key : gmap KeyNode Z }.

Definition NodeTable_new : NodeTable :=
  MkNodes {[ROOT := MkNode [] 1 None false Directory ∅]} ∅.

(** [wrapping_add(1).max(2)]. *)
Definition next_id (id : Z) : Z := Z.max (wrap64 (id + 1)) 2.

Fixpoint free_from (fuel : nat) (nodes : gmap Z Node) (id : Z) : option Z :=
  match fuel with
  | O => None
  | S fuel => match nodes !! id with
              | None => Some id
              | Some _ => free_from fuel nodes (next_id id)
              end
  end.

(** [is_none_or]. *)
Definition is_root_identity (t : NodeTable) (identity : Identity) : bool :=
  match nt_nodes t !! ROOT with
  | Some root => match nd_key root with
                 | None => true
                 | Some k => bool_decide (k_identity k = identity)
                 end
  | None => false
  end.

(** [None]: the search has not ended within its fuel. *)
Definition id_for (t : NodeTable) (seen : Seen) : option Z :=
  if (seen_ino seen =? ROOT) && is_root_identity t (seen_identity seen) then Some ROOT
  else match nt_by_key t !! Seen_key seen with
       | Some id => Some id
       | None =>
           if negb (seen_foreign seen) && (ROOT <? seen_ino seen)
              && bool_decide (nt_nodes t !! seen_ino seen = None)
           then Some (seen_ino seen)
           else free_from (S (size (nt_nodes t))) (nt_nodes t) (substitute (seen_identity seen))
       end.

Definition upd_node (t : NodeTable) (ino : Z) (f : Node → Node) : NodeTable :=
  MkNodes (alter f ino (nt_nodes t)) (nt_by_key t).

Definition with_aliases (n : Node) (aliases : list (Z * Name)) (unlinked : bool) : Node :=
  MkNode aliases (nd_lookup_count n) (nd_key n) unlinked (nd_kind n) (nd_children n).
Definition with_children (n : Node) (children : gmap Name Z) : Node :=
  MkNode (nd_aliases n) (nd_lookup_count n) (nd_key n) (nd_unlinked n) (nd_kind n) children.

Definition retain_not (alias : Z * Name) (aliases : list (Z * Name)) : list (Z * Name) :=
  filter (λ a, a ≠ alias) aliases.

Definition is_empty {A} (l : list A) : bool := match l with [] => true | _ => false end.

Definition drop_alias (t : NodeTable) (ino parent : Z) (name : Name) : NodeTable :=
  upd_node t ino (λ n,
    let aliases := retain_not (parent, name) (nd_aliases n) in
    with_aliases n aliases (nd_unlinked n || is_empty aliases)).

Definition child (t : NodeTable) (parent : Z) (name : Name) : option Z :=
  n ← nt_nodes t !! parent; nd_children n !! name.

Definition set_child (t : NodeTable) (parent : Z) (name : Name) (id : Z) : NodeTable :=
  upd_node t parent (λ n, with_children n (<[name := id]> (nd_children n))).
Definition remove_child (t : NodeTable) (parent : Z) (name : Name) : NodeTable :=
  upd_node t parent (λ n, with_children n (delete name (nd_children n))).

(** The node counted one lookup more, under its newest name. *)
Definition looked_up (parent : Z) (name : Name) (seen : Seen) (n : Node) : Node :=
  MkNode (retain_not (parent, name) (nd_aliases n) ++ [(parent, name)])
    (nd_lookup_count n + 1) (nd_key n) false (seen_kind seen) (nd_children n).

Definition insert_lookup (t : NodeTable) (parent : Z) (name : Name) (seen : Seen)
  : option (option Z * NodeTable) :=
  id ← id_for t seen;
  if id =? ROOT then Some (None, t)
  else
    let previous := child t parent name in
    let t := set_child t parent name id in
    let t := match previous with
             | Some previous => if previous =? id then t else drop_alias t previous parent name
             | None => t
             end in
    let node := default (MkNode [] 0 (Some (Seen_key seen)) false (seen_kind seen) ∅)
                  (nt_nodes t !! id) in
    Some (Some id,
          MkNodes (<[id := looked_up parent name seen node]> (nt_nodes t))
            (<[Seen_key seen := id]> (nt_by_key t))).

(** [None]: the [expect] that the root is there. *)
Definition root_seen (t : NodeTable) (identity : Identity) : option NodeTable :=
  _ ← nt_nodes t !! ROOT;
  Some (upd_node t ROOT (λ n,
    MkNode (nd_aliases n) (nd_lookup_count n) (Some (MkKeyNode ROOT identity)) (nd_unlinked n)
      (nd_kind n) (nd_children n))).

(** A parent forgets that a name leads to [ino]. *)
Definition unname (ino : Z) (t : NodeTable) (alias : Z * Name) : NodeTable :=
  if bool_decide (child t alias.1 alias.2 = Some ino) then remove_child t alias.1 alias.2 else t.

Definition forget (t : NodeTable) (ino n : Z) : bool * NodeTable :=
  if ino =? ROOT then (false, t)
  else match nt_nodes t !! ino with
       | None => (false, t)
       | Some node =>
           let count := sat_sub64 (nd_lookup_count node) n in
           if 0 <? count then
             (false, upd_node t ino (λ nd,
                MkNode (nd_aliases nd) count (nd_key nd) (nd_unlinked nd) (nd_kind nd)
                  (nd_children nd)))
           else
             let t := MkNodes (delete ino (nt_nodes t))
                        match nd_key node with
                        | Some key => delete key (nt_by_key t)
                        | None => nt_by_key t
                        end in
             (true, foldl (unname ino) t (nd_aliases node))
       end.

(** [Iterator::find_map]. *)
Fixpoint find_map {A B} (f : A → option B) (l : list A) : option B :=
  match l with
  | [] => None
  | x :: l => match f x with Some y => Some y | None => find_map f l end
  end.

(** The names from the root to [ino]; the fuel is [MAX_DEPTH + 1 - depth]. *)
Fixpoint names_to (fuel : nat) (t : NodeTable) (ino : Z) : option (list Name) :=
  if ino =? ROOT then Some []
  else match fuel with
       | O => None
       | S fuel =>
           node ← nt_nodes t !! ino;
           find_map (λ a : Z * Name, names ← names_to fuel t a.1; Some (names ++ [a.2]))
             (reverse (nd_aliases node))
       end.

Definition path_of (t : NodeTable) (ino : Z) : option Path :=
  names ← names_to (S MAX_DEPTH) t ino; ok_opt (Path_from_names names).

Fixpoint resolve_names (t : NodeTable) (current : Z) (ns : list Name) : option Z :=
  match ns with
  | [] => Some current
  | name :: ns => current ← child t current name; resolve_names t current ns
  end.

Definition resolve_path (t : NodeTable) (path : Path) : option Z :=
  resolve_names t ROOT (names path).

(** [rposition]: the last index whose element satisfies [p]. *)
Fixpoint rposition {A} (p : A → bool) (l : list A) : option nat :=
  match l with
  | [] => None
  | x :: l => match rposition p l with
              | Some i => Some (S i)
              | None => if p x then Some O else None
              end
  end.

Definition alias_was_wrong (t : NodeTable) (id : Z) (path : Path)
  : option (Z * Name) * NodeTable :=
  match Path_split_last path, nt_nodes t !! id with
  | Some (dir, last), Some node =>
      match rposition (λ a : Z * Name,
              bool_decide (a.2 = last)
              && bool_decide (names_to (S MAX_DEPTH) t a.1 = Some (names dir)))
              (nd_aliases node) with
      | Some at_ =>
          match nd_aliases node !! at_ with
          | Some (parent, name) =>
              let aliases := delete at_ (nd_aliases node) in
              let t := upd_node t id (λ n,
                         with_aliases n aliases (nd_unlinked n || is_empty aliases)) in
              (Some (parent, name), unname id t (parent, name))
          | None => (None, t)
          end
      | None => (None, t)
      end
  | _, _ => (None, t)
  end.

Definition unlink (t : NodeTable) (parent : Z) (name : Name) : NodeTable :=
  match child t parent name with
  | None => t
  | Some id => drop_alias (remove_child t parent name) id parent name
  end.

(** The node is renamed from one name to another. *)
Definition move_alias (from to : Z * Name) (n : Node) : Node :=
  with_aliases n (retain_not from (nd_aliases n) ++ [to]) (nd_unlinked n).

Definition rename (t : NodeTable) (parent : Z) (name : Name) (newparent : Z) (newname : Name)
  : NodeTable :=
  match child t parent name with
  | None => t
  | Some id =>
      if bool_decide (child t newparent newname = Some id) then t
      else
        let t := remove_child t parent name in
        let replaced := child t newparent newname in
        let t := set_child t newparent newname id in
        let t := match replaced with
                 | Some replaced => drop_alias t replaced newparent newname
                 | None => t
                 end in
        upd_node t id (move_alias (parent, name) (newparent, newname))
  end.

Definition exchange_names (t : NodeTable) (parent : Z) (name : Name) (newparent : Z)
    (newname : Name) : NodeTable :=
  match child t parent name, child t newparent newname with
  | Some a, Some b =>
      if a =? b then t
      else
        let t := set_child t parent name b in
        let t := set_child t newparent newname a in
        let t := upd_node t a (move_alias (parent, name) (newparent, newname)) in
        upd_node t b (move_alias (newparent, newname) (parent, name))
  | _, _ => unlink (unlink t parent name) newparent newname
  end.

(** Up to [limit] known directory entries. *)
Definition entries (t : NodeTable) (limit : nat) : list (Z * Name * Z) :=
  take limit (flat_map (λ pn : Z * Node,
    (λ nc : Name * Z, (pn.1, nc.1, nc.2)) <$> map_to_list (nd_children pn.2))
    (map_to_list (nt_nodes t))).

(** ** Every sequence of operations *)

Inductive NodeOp :=
| NOp_insert_lookup (parent : Z) (name : Name) (seen : Seen)
| NOp_root_seen (identity : Identity)
| NOp_forget (ino n : Z)
| NOp_alias_was_wrong (id : Z) (path : Path)
| NOp_unlink (parent : Z) (name : Name)
| NOp_rename (parent : Z) (name : Name) (newparent : Z) (newname : Name)
| NOp_exchange (parent : Z) (name : Name) (newparent : Z) (newname : Name).

Definition run_node_op (t : NodeTable) (op : NodeOp) : option NodeTable :=
  match op with
  | NOp_insert_lookup parent name seen => snd <$> insert_lookup t parent name seen
  | NOp_root_seen identity => root_seen t identity
  | NOp_forget ino n => Some (forget t ino n).2
  | NOp_alias_was_wrong id path => Some (alias_was_wrong t id path).2
  | NOp_unlink parent name => Some (unlink t parent name)
  | NOp_rename parent name newparent newname => Some (rename t parent name newparent newname)
  | NOp_exchange parent name newparent newname =>
      Some (exchange_names t parent name newparent newname)
  end.

Definition node_step (t t' : NodeTable) : Prop := ∃ op, run_node_op t op = Some t'.
Definition nodes_reachable (t : NodeTable) : Prop := rtc node_step NodeTable_new t.

(** ** A node is one file *)

(** The files and the nodes are matched one to one. *)
Record keys_ok (t : NodeTable) : Prop := {
  kok_root : is_Some (nt_nodes t !! ROOT);
  kok_keyed : ∀ id n, nt_nodes t !! id = Some n → id ≠ ROOT → is_Some (nd_key n);
  kok_index : ∀ k id, nt_by_key t !! k = Some id ↔
    id ≠ ROOT ∧ ∃ n, nt_nodes t !! id = Some n ∧ nd_key n = Some k }.

Lemma upd_node_keys t ino f :
  (∀ n, nd_key (f n) = nd_key n) → keys_ok t → keys_ok (upd_node t ino f).
Proof.
  intros Hf [Hr Hk Hi].
  assert (∀ id n, nt_nodes (upd_node t ino f) !! id = Some n →
            ∃ n0, nt_nodes t !! id = Some n0 ∧ nd_key n = nd_key n0) as Hback.
  { simpl. intros id n Hn. rewrite lookup_alter in Hn. case_decide; subst; [|eauto].
    destruct (nt_nodes t !! id) as [n0|]; simplify_eq/=. exists n0. by rewrite Hf. }
  assert (∀ id n0, nt_nodes t !! id = Some n0 →
            ∃ n, nt_nodes (upd_node t ino f) !! id = Some n ∧ nd_key n = nd_key n0) as Hforth.
  { simpl. intros id n0 Hn. rewrite lookup_alter. case_decide; subst; [|eauto].
    rewrite Hn. simpl. exists (f n0). by rewrite Hf. }
  split.
  - destruct Hr as [n0 Hn]. destruct (Hforth _ _ Hn) as (n & ? & _). by exists n.
  - intros id n Hn Hne. destruct (Hback id n Hn) as (n0 & Hn0 & ->). by eapply Hk.
  - intros k id. cbn [upd_node nt_by_key]. rewrite Hi. split; intros [Hne (n & Hn & Hkn)].
    + destruct (Hforth _ _ Hn) as (n' & Hn' & Hk'). split; [done|]. exists n'. by rewrite Hk'.
    + destruct (Hback _ _ Hn) as (n0 & Hn0 & Hk0). split; [done|]. exists n0. by rewrite <- Hk0.
Qed.

Lemma drop_alias_keys t ino p n : keys_ok t → keys_ok (drop_alias t ino p n).
Proof. by apply upd_node_keys. Qed.
Lemma set_child_keys t p n id : keys_ok t → keys_ok (set_child t p n id).
Proof. by apply upd_node_keys. Qed.
Lemma remove_child_keys t p n : keys_ok t → keys_ok (remove_child t p n).
Proof. by apply upd_node_keys. Qed.
Lemma move_alias_keys t id a b : keys_ok t → keys_ok (upd_node t id (move_alias a b)).
Proof. by apply upd_node_keys. Qed.
Lemma unname_keys ino t a : keys_ok t → keys_ok (unname ino t a).
Proof. unfold unname. case_bool_decide; [apply remove_child_keys|done]. Qed.
Lemma unlink_keys t p n : keys_ok t → keys_ok (unlink t p n).
Proof. unfold unlink. destruct (child t p n); [|done]. intros. by apply drop_alias_keys, remove_child_keys. Qed.
#[local] Hint Resolve drop_alias_keys set_child_keys remove_child_keys move_alias_keys
  unname_keys unlink_keys : jfs.

Lemma free_from_free fuel nodes : ∀ id id',
  free_from fuel nodes id = Some id' → 2 ≤ id → nodes !! id' = None ∧ 2 ≤ id'.
Proof.
  induction fuel as [|fuel IH]; intros id id'; simpl; [done|].
  destruct (nodes !! id) eqn:Hid; [|by intros [= <-]]. intros Hf _. eapply IH; [exact Hf|].
  unfold next_id. lia.
Qed.

(** The number a file gets: the root's, its own node's, or one no node has. *)
Lemma id_for_spec t seen id :
  id_for t seen = Some id →
  id = ROOT ∨ (nt_by_key t !! Seen_key seen = Some id)
  ∨ (id ≠ ROOT ∧ nt_nodes t !! id = None ∧ nt_by_key t !! Seen_key seen = None).
Proof.
  unfold id_for. destruct (_ && _); [by intros [= <-]; left|].
  destruct (nt_by_key t !! Seen_key seen) as [i|] eqn:Hk; [intros [= <-]; auto|].
  destruct (_ && _) eqn:Hc.
  - rewrite !andb_true_iff, Z.ltb_lt, bool_decide_eq_true in Hc. destruct Hc as [[_ Hlt] Hn].
    intros [= <-]. right. right. split; [lia|done].
  - intros [Hn H2]%free_from_free; [|unfold substitute; lia].
    right. right. split; [unfold ROOT; lia|done].
Qed.

Lemma insert_node_keys t id n k :
  keys_ok t → id ≠ ROOT → nd_key n = Some k →
  (nt_by_key t !! k = Some id ∨ nt_nodes t !! id = None ∧ nt_by_key t !! k = None) →
  keys_ok (MkNodes (<[id := n]> (nt_nodes t)) (<[k := id]> (nt_by_key t))).
Proof.
  intros [Hr Hk Hi] Hne Hkey Hcase. split; cbn [nt_nodes nt_by_key].
  - rewrite lookup_insert_ne by done. done.
  - intros id' n' Hn' Hne'. split_lookups; [by eexists|]. by eapply Hk.
  - intros k' id'. destruct (decide (k' = k)) as [->|Hkne].
    + rewrite lookup_insert_eq. split.
      * intros [= <-]. split; [done|]. exists n. by rewrite lookup_insert_eq.
      * intros [Hne' (n' & Hn' & Hk')]. destruct (decide (id' = id)) as [->|Hid]; [done|].
        rewrite lookup_insert_ne in Hn' by done.
        assert (nt_by_key t !! k = Some id') as Hb by (apply Hi; eauto).
        destruct Hcase as [Hb'|[_ Hb']]; congruence.
    + rewrite lookup_insert_ne by done. rewrite Hi. split; intros [Hne' (n' & Hn' & Hk')]; (split; [done|]).
      * exists n'. rewrite lookup_insert_ne; [done|]. intros ->.
        destruct Hcase as [Hb|[Hno _]]; [|congruence].
        apply Hi in Hb as [_ (n0 & Hn0 & Hk0)]. congruence.
      * exists n'. by split_lookups.
Qed.

Lemma insert_lookup_keys t parent name seen r t' :
  keys_ok t → insert_lookup t parent name seen = Some (r, t') → keys_ok t'.
Proof.
  intros Hok H. unfold insert_lookup in H.
  destruct (id_for t seen) as [id|] eqn:Hid; cbn [mbind option_bind] in H; [|done].
  destruct (Z.eqb_spec id ROOT) as [->|Hne]; [by simplify_eq|].
  set (t1 := match child t parent name with Some previous => _ | None => _ end) in H.
  injection H as <- <-.
  assert (keys_ok t1) as Hok1.
  { subst t1. destruct (child t parent name); [destruct (_ =? _)|]; eauto with jfs. }
  assert (nt_by_key t1 = nt_by_key t) as Hb.
  { subst t1. by destruct (child t parent name); [destruct (_ =? _)|]. }
  assert (nt_nodes t1 !! id = None ↔ nt_nodes t !! id = None) as Hn.
  { subst t1. destruct (child t parent name); [destruct (_ =? _)|];
      cbn [set_child drop_alias upd_node nt_nodes]; rewrite ?lookup_alter_None; tauto. }
  apply id_for_spec in Hid as [?|[Hk|(_ & Hno & Hk)]]; [done| |].
  - apply insert_node_keys; [done|done| |left; by rewrite Hb].
    rewrite <- Hb in Hk. apply (kok_index _ Hok1) in Hk as [_ (n & -> & Hkey)]. done.
  - rewrite (proj2 Hn Hno). cbn [default]. apply insert_node_keys; [done|done|done|].
    right. rewrite Hb. split; [by apply Hn|done].
Qed.

Lemma forget_keys t ino n : keys_ok t → keys_ok (forget t ino n).2.
Proof.
  intros Hok. unfold forget. destruct (Z.eqb_spec ino ROOT) as [|Hne]; [done|].
  destruct (nt_nodes t !! ino) as [node|] eqn:Hn; [|done].
  destruct (_ <? _); [by apply upd_node_keys|]. cbn [snd].
  destruct (kok_keyed t Hok ino node Hn Hne) as [k Hk]. rewrite Hk.
  set (t1 := MkNodes _ _). assert (keys_ok t1) as Hok1.
  { destruct Hok as [Hr Hkd Hi]. split; cbn [nt_nodes nt_by_key t1].
    - by rewrite lookup_delete_ne.
    - intros id n' Hn' Hid. split_lookups. by eapply Hkd.
    - intros k' id. destruct (decide (k' = k)) as [->|Hkne].
      + rewrite lookup_delete_eq. split; [done|]. intros [Hid (n' & Hn' & Hk')].
        split_lookups. assert (nt_by_key t !! k = Some id) as H1 by (apply Hi; eauto).
        assert (nt_by_key t !! k = Some ino) as H2 by (apply Hi; eauto). congruence.
      + rewrite lookup_delete_ne, Hi by done. split; intros [Hid (n' & Hn' & Hk')]; (split; [done|]).
        * exists n'. rewrite lookup_delete_ne; [done|]. intros ->. congruence.
        * split_lookups. eauto. }
  clearbody t1. generalize (nd_aliases node). intros l. revert t1 Hok1.
  induction l as [|a l IH]; intros t1 Hok1; simpl; [done|]. apply IH. eauto with jfs.
Qed.

Lemma run_node_op_keys t op t' : keys_ok t → run_node_op t op = Some t' → keys_ok t'.
Proof.
  intros Hok. destruct op; cbn [run_node_op].
  - destruct (insert_lookup _ _ _ _) as [[r t1]|] eqn:Hi; [|done]. intros [= <-].
    by eapply insert_lookup_keys.
  - unfold root_seen. destruct (nt_nodes t !! ROOT) as [r|] eqn:Hr; cbn [mbind option_bind]; [|done].
    intros [= <-]. destruct Hok as [_ Hk Hi]. split; cbn [upd_node nt_nodes nt_by_key].
    + rewrite lookup_alter_eq, Hr. by eexists.
    + intros id n Hn Hne. rewrite lookup_alter_ne in Hn by done. by eapply Hk.
    + intros k id. rewrite Hi. split; intros [Hne H]; (split; [done|]);
        [rewrite lookup_alter_ne by done|rewrite lookup_alter_ne in H by done]; done.
  - intros [= <-]. by apply forget_keys.
  - intros [= <-]. unfold alias_was_wrong.
    destruct (Path_split_last path) as [[dir last]|]; [|done].
    destruct (nt_nodes t !! id); [|done]. destruct (rposition _ _) as [i|]; [|done].
    destruct (nd_aliases n !! i) as [[p nm]|]; [|done]. cbn [snd].
    apply unname_keys. by apply upd_node_keys.
  - intros [= <-]. eauto with jfs.
  - intros [= <-]. unfold rename. destruct (child t parent name); [|done].
    case_bool_decide; [done|]. destruct (child (remove_child _ _ _) newparent newname); auto 10 with jfs.
  - intros [= <-]. unfold exchange_names. destruct (child t parent name), (child t newparent newname);
      try destruct (_ =? _); auto 10 with jfs.
Qed.

Lemma nodes_reachable_keys t : nodes_reachable t → keys_ok t.
Proof.
  intros Hr. eapply (rtc_invariant node_step keys_ok); [|exact Hr|].
  - intros t1 t2 Hok [op Hop]. by eapply run_node_op_keys.
  - split; cbn [NodeTable_new nt_nodes nt_by_key].
    + rewrite lookup_singleton_eq. by eexists.
    + by intros id n [<- _]%lookup_singleton_Some.
    + intros k id. rewrite lookup_empty. split; [done|].
      by intros [Hne (n & [<- _]%lookup_singleton_Some & _)].
Qed.

(** ** Names and nodes agree *)

(** The node has been reached by this name. *)
Definition aliased (t : NodeTable) (a : Z * Name) (id : Z) : Prop :=
  ∃ n, nt_nodes t !! id = Some n ∧ a ∈ nd_aliases n.

(** Where a directory has a child, the child is a node that knows the name. *)
Definition children_ok (t : NodeTable) : Prop :=
  ∀ p name id, child t p name = Some id → aliased t (p, name) id.

Lemma child_upd t ino f p name :
  (∀ n, nd_children (f n) = nd_children n) → child (upd_node t ino f) p name = child t p name.
Proof.
  intros Hf. unfold child, upd_node. cbn [nt_nodes]. rewrite lookup_alter. case_decide; [|done].
  subst. destruct (nt_nodes t !! p); simpl; [|done]. by rewrite Hf.
Qed.

Lemma aliased_upd t ino f a id :
  (∀ n, nd_aliases (f n) = nd_aliases n) → aliased (upd_node t ino f) a id ↔ aliased t a id.
Proof.
  intros Hf. unfold aliased, upd_node. cbn [nt_nodes]. rewrite lookup_alter. case_decide; [|done].
  subst. destruct (nt_nodes t !! id) as [n|]; simpl; [|naive_solver].
  split; intros (n' & [= <-] & Hin); eexists; (split; [done|]); by rewrite ?Hf in *.
Qed.

Lemma child_set_child t p name id p' name' :
  child (set_child t p name id) p' name'
  = if bool_decide (p' = p ∧ name' = name ∧ is_Some (nt_nodes t !! p)) then Some id
    else child t p' name'.
Proof.
  unfold child, set_child, upd_node. cbn [nt_nodes]. rewrite lookup_alter. case_decide; subst.
  - destruct (nt_nodes t !! p') as [n|] eqn:Hn; simpl.
    + destruct (decide (name' = name)) as [->|Hne].
      * rewrite lookup_insert_eq. by rewrite bool_decide_eq_true_2 by (split_and!; eauto).
      * rewrite lookup_insert_ne by done. by rewrite bool_decide_eq_false_2 by naive_solver.
    + rewrite bool_decide_eq_false_2; [done|]. intros (_ & _ & [? ?]). congruence.
  - by rewrite bool_decide_eq_false_2 by naive_solver.
Qed.

Lemma child_remove_child t p name p' name' :
  child (remove_child t p name) p' name'
  = if bool_decide (p' = p ∧ name' = name) then None else child t p' name'.
Proof.
  unfold child, remove_child, upd_node. cbn [nt_nodes]. rewrite lookup_alter. case_decide; subst.
  - destruct (nt_nodes t !! p') as [n|]; simpl; [|by case_bool_decide].
    destruct (decide (name' = name)) as [->|Hne].
    + rewrite lookup_delete_eq. by rewrite bool_decide_eq_true_2.
    + rewrite lookup_delete_ne by done. by rewrite bool_decide_eq_false_2 by naive_solver.
  - by rewrite bool_decide_eq_false_2 by naive_solver.
Qed.

Lemma aliased_drop_alias t ino p name a id :
  aliased (drop_alias t ino p name) a id ↔ aliased t a id ∧ ¬ (id = ino ∧ a = (p, name)).
Proof.
  unfold aliased, drop_alias, upd_node. cbn [nt_nodes]. rewrite lookup_alter. case_decide; [|naive_solver].
  subst. destruct (nt_nodes t !! id) as [n|]; simpl; [|naive_solver]. split.
  - intros (n' & [= <-] & Hin). simpl in Hin. apply list_elem_of_filter in Hin. naive_solver.
  - intros [(n' & [= <-] & Hin) Hne]. eexists. split; [done|]. simpl.
    apply list_elem_of_filter. naive_solver.
Qed.

Lemma aliased_move t id from to a j :
  aliased (upd_node t id (move_alias from to)) a j ↔
    j = id ∧ is_Some (nt_nodes t !! id) ∧ (a = to ∨ aliased t a j ∧ a ≠ from)
    ∨ j ≠ id ∧ aliased t a j.
Proof.
  unfold aliased, upd_node. cbn [nt_nodes]. rewrite lookup_alter.
  destruct (decide (id = j)) as [->|Hne].
  - destruct (nt_nodes t !! j) as [n|]; simpl.
    + split.
      * intros (n' & [= <-] & Hin). simpl in Hin. left. split; [done|]. split; [by eexists|].
        apply elem_of_app in Hin as [Hin|Hin]; [|left; by apply list_elem_of_singleton in Hin].
        apply list_elem_of_filter in Hin. right. naive_solver.
      * intros [(_ & _ & Hc)|[? _]]; [|done]. eexists. split; [done|]. simpl. apply elem_of_app.
        destruct Hc as [->|[(n' & [= <-] & Hin) Hf]]; [right; by apply list_elem_of_singleton|left].
        by apply list_elem_of_filter.
    + split; [naive_solver|]. intros [(_ & [? ?] & _)|[? _]]; done.
  - naive_solver.
Qed.

Lemma aliased_node t a id : aliased t a id → is_Some (nt_nodes t !! id).
Proof. intros (n & Hn & _). by eexists. Qed.

Lemma aliased_set_child t p name j a id : aliased (set_child t p name j) a id ↔ aliased t a id.
Proof. by apply aliased_upd. Qed.
Lemma aliased_remove_child t p name a id : aliased (remove_child t p name) a id ↔ aliased t a id.
Proof. by apply aliased_upd. Qed.
Lemma child_drop_alias t ino p name p' name' :
  child (drop_alias t ino p name) p' name' = child t p' name'.
Proof. by apply child_upd. Qed.
Lemma child_move t id a b p name : child (upd_node t id (move_alias a b)) p name = child t p name.
Proof. by apply child_upd. Qed.
Lemma is_Some_upd t ino f id :
  is_Some (nt_nodes (upd_node t ino f) !! id) ↔ is_Some (nt_nodes t !! id).
Proof. cbn [upd_node nt_nodes]. by rewrite lookup_alter_is_Some. Qed.

Lemma unlink_children t p name : children_ok t → children_ok (unlink t p name).
Proof.
  intros Hok. unfold unlink. destruct (child t p name) as [id|] eqn:Hc; [|done].
  intros p' name' j. rewrite child_drop_alias, child_remove_child, aliased_drop_alias,
    aliased_remove_child. case_bool_decide as Hp; [done|]. intros Hj. split; [by apply Hok|].
  intros [-> [= -> ->]]. tauto.
Qed.

(** Only names of [l] may still lead to [id], which no longer knows them. *)
Definition children_but (t : NodeTable) (id : Z) (l : list (Z * Name)) : Prop :=
  ∀ p name j, child t p name = Some j → aliased t (p, name) j ∨ j = id ∧ (p, name) ∈ l.

Lemma unname_children id t a l :
  children_but t id (a :: l) → children_but (unname id t a) id l.
Proof.
  intros Hok p name j. unfold unname. case_bool_decide as Hc.
  - rewrite child_remove_child, aliased_remove_child. case_bool_decide as Hp; [done|].
    intros [?|[-> [Ha|?]%elem_of_cons]]%Hok; [by left| |by right]. subst a. simpl in *. tauto.
  - intros Hj. destruct (Hok _ _ _ Hj) as [?|[-> [Ha|?]%elem_of_cons]]; [by left| |by right].
    subst a. simpl in *. congruence.
Qed.

Lemma unname_all_children id l : ∀ t,
  children_but t id l → children_ok (foldl (unname id) t l).
Proof.
  induction l as [|a l IH]; intros t Hok; simpl.
  - intros p name j Hj. destruct (Hok _ _ _ Hj) as [?|[_ []%elem_of_nil]]. done.
  - by apply IH, unname_children.
Qed.

Lemma forget_children t ino n : children_ok t → children_ok (forget t ino n).2.
Proof.
  intros Hok. unfold forget. destruct (ino =? ROOT); [done|].
  destruct (nt_nodes t !! ino) as [node|] eqn:Hn; [|done]. destruct (_ <? _).
  - intros p name j. cbn [snd]. rewrite child_upd, aliased_upd by done. apply Hok.
  - cbn [snd]. apply unname_all_children. intros p name j Hj. unfold child, aliased in *.
    cbn [nt_nodes] in *. destruct (decide (p = ino)) as [->|Hne].
    { by rewrite lookup_delete_eq in Hj. }
    rewrite lookup_delete_ne in Hj by done. destruct (Hok p name j Hj) as (nd & Hnd & Hin).
    destruct (decide (j = ino)) as [->|Hj']; [right|left].
    + split; [done|]. congruence.
    + exists nd. by rewrite lookup_delete_ne.
Qed.

Lemma elem_of_delete {A} (l : list A) i x : x ∈ l → x ∈ delete i l ∨ l !! i = Some x.
Proof.
  intros (j & Hj)%list_elem_of_lookup. destruct (decide (j = i)) as [->|Hne]; [by right|left].
  rewrite delete_take_drop. apply elem_of_app. destruct (Nat.lt_ge_cases j i) as [Hlt|Hge].
  - left. apply list_elem_of_lookup. exists j. by rewrite lookup_take_lt.
  - right. apply list_elem_of_lookup. exists (j - S i)%nat. rewrite lookup_drop.
    by replace (S i + (j - S i))%nat with j by lia.
Qed.

Lemma alias_was_wrong_children t id path :
  children_ok t → children_ok (alias_was_wrong t id path).2.
Proof.
  intros Hok. unfold alias_was_wrong. destruct (Path_split_last path) as [[dir last]|]; [|done].
  destruct (nt_nodes t !! id) as [node|] eqn:Hn; [|done].
  destruct (rposition _ _) as [i|]; [|done].
  destruct (nd_aliases node !! i) as [[q nm]|] eqn:Hi; [|done]. cbn [snd].
  apply (unname_all_children id [(q, nm)]). intros p name j. rewrite child_upd by done.
  intros (nd & Hnd & Hin)%Hok. unfold aliased. cbn [upd_node nt_nodes].
  destruct (decide (j = id)) as [->|Hne].
  - rewrite lookup_alter_eq, Hnd. simplify_eq.
    destruct (elem_of_delete _ i _ Hin) as [Hd|Hd]; [left|right].
    + eexists. split; [done|]. done.
    + split; [done|]. rewrite Hi in Hd. injection Hd as -> ->. by left.
  - left. exists nd. by rewrite lookup_alter_ne.
Qed.

Lemma child_node t p name id : child t p name = Some id → is_Some (nt_nodes t !! p).
Proof. unfold child. destruct (nt_nodes t !! p); [by eexists|done]. Qed.

Lemma insert_lookup_children t parent name seen r t' :
  children_ok t → insert_lookup t parent name seen = Some (r, t') → children_ok t'.
Proof.
  intros Hok H. unfold insert_lookup in H.
  destruct (id_for t seen) as [id|]; cbn [mbind option_bind] in H; [|done].
  destruct (id =? ROOT); [by simplify_eq|].
  set (t1 := match child t parent name with Some previous => _ | None => _ end) in H.
  injection H as <- <-. intros p' n' j.
  assert (child t1 p' n' = child (set_child t parent name id) p' n') as Hc1.
  { subst t1. destruct (child t parent name); [|done]. destruct (_ =? _); [done|].
    apply child_drop_alias. }
  assert (aliased t (p', n') j → (p', n') ≠ (parent, name) → aliased t1 (p', n') j) as Ha1.
  { intros Ha Hne. subst t1. destruct (child t parent name);
      [destruct (_ =? _); [|rewrite aliased_drop_alias]|]; rewrite aliased_set_child; naive_solver. }
  set (node := default _ (nt_nodes t1 !! id)). set (t2 := MkNodes _ _).
  assert (child t2 p' n' = child t1 p' n') as ->.
  { unfold child, t2. cbn [nt_nodes]. destruct (decide (p' = id)) as [->|Hne].
    - rewrite lookup_insert_eq. unfold node. destruct (nt_nodes t1 !! id); [done|].
      simpl. apply lookup_empty.
    - by rewrite lookup_insert_ne. }
  rewrite Hc1, child_set_child. case_bool_decide as Hp.
  - destruct Hp as (-> & -> & _). intros [= <-]. eexists. unfold t2. cbn [nt_nodes].
    rewrite lookup_insert_eq. split; [done|]. simpl. apply elem_of_app. right. by left.
  - intros Hj. pose proof (Hok _ _ _ Hj) as Ha.
    assert ((p', n') ≠ (parent, name)) as Hne.
    { intros [= -> ->]. apply Hp. split_and!; [done|done|]. by eapply child_node. }
    destruct (Ha1 Ha Hne) as (nd & Hnd & Hin). unfold aliased, t2. cbn [nt_nodes].
    destruct (decide (j = id)) as [->|Hid].
    + rewrite lookup_insert_eq. eexists. split; [done|]. simpl. apply elem_of_app. left.
      apply list_elem_of_filter. split; [done|]. unfold node. by rewrite Hnd.
    + exists nd. by rewrite lookup_insert_ne.
Qed.

Lemma rename_children t p name np nn : children_ok t → children_ok (rename t p name np nn).
Proof.
  intros Hok. unfold rename. destruct (child t p name) as [id|] eqn:Hc; [|done].
  case_bool_decide as Hsame; [done|]. pose proof (Hok _ _ _ Hc) as Hnode%aliased_node.
  intros p' n' j. rewrite child_move, aliased_move.
  set (t2 := set_child (remove_child t p name) np nn id).
  set (t3 := match child (remove_child t p name) np nn with Some _ => _ | None => _ end).
  assert (child t3 p' n' = child t2 p' n') as ->.
  { unfold t3. destruct (child (remove_child _ _ _) np nn); [apply child_drop_alias|done]. }
  assert (aliased t (p', n') j → (p', n') ≠ (np, nn) → aliased t3 (p', n') j) as Ha3.
  { intros Ha Hne. unfold t3. destruct (child (remove_child _ _ _) np nn);
      rewrite ?aliased_drop_alias; unfold t2; rewrite aliased_set_child, aliased_remove_child;
      naive_solver. }
  assert (is_Some (nt_nodes t3 !! id)) as Hid3.
  { unfold t3, t2. destruct (child (remove_child _ _ _) np nn); unfold drop_alias, set_child, remove_child;
      by rewrite !is_Some_upd. }
  unfold t2. rewrite child_set_child, child_remove_child. case_bool_decide as Hnew.
  - destruct Hnew as (-> & -> & _). intros [= <-]. auto.
  - case_bool_decide as Hold; [done|]. intros Hj. pose proof (Hok _ _ _ Hj) as Ha.
    assert ((p', n') ≠ (np, nn)) as Hne.
    { intros [= -> ->]. apply Hnew. split_and!; [done|done|]. unfold remove_child.
      rewrite is_Some_upd. by eapply child_node. }
    specialize (Ha3 Ha Hne). destruct (decide (j = id)) as [->|]; [left|by right].
    split; [done|]. split; [done|]. right. split; [done|]. intros [= -> ->]. tauto.
Qed.

Lemma exchange_children t p name np nn : children_ok t → children_ok (exchange_names t p name np nn).
Proof.
  intros Hok. unfold exchange_names.
  destruct (child t p name) as [a|] eqn:Ha, (child t np nn) as [b|] eqn:Hb;
    try by apply unlink_children, unlink_children.
  destruct (Z.eqb_spec a b) as [|Hab]; [done|].
  pose proof (aliased_node _ _ _ (Hok _ _ _ Ha)) as Hna.
  pose proof (aliased_node _ _ _ (Hok _ _ _ Hb)) as Hnb.
  pose proof (child_node _ _ _ _ Ha) as Hp. pose proof (child_node _ _ _ _ Hb) as Hnp.
  intros p' n' j. rewrite !child_move, !child_set_child, !aliased_move, !aliased_set_child.
  assert (∀ q nm i, is_Some (nt_nodes t !! i) → is_Some (nt_nodes (set_child t p name q) !! i)
            ∧ is_Some (nt_nodes (set_child (set_child t p name q) np nn nm) !! i)
            ∧ ∀ id f, is_Some (nt_nodes (upd_node (set_child (set_child t p name q) np nn nm) id f) !! i))
    as Hset.
  { intros q nm i Hi. unfold set_child. split_and!; [| |intros id f]; by rewrite !is_Some_upd. }
  pose proof (Hset b a a Hna) as (_ & Ha2 & _). pose proof (Hset b a b Hnb) as (_ & _ & Hb3).
  pose proof (Hset b a np Hnp) as (Hnp2 & _). case_bool_decide as H1.
  - destruct H1 as (-> & -> & _). intros [= <-]. right.
    split; [done|]. left. split_and!; [done|done|by left].
  - case_bool_decide as H2.
    + destruct H2 as (-> & -> & _). intros [= <-]. left.
      split_and!; [done|apply Hb3|by left].
    + intros Hj. pose proof (Hok _ _ _ Hj) as Hal.
      assert ((p', n') ≠ (p, name) ∧ (p', n') ≠ (np, nn)) as [Hn1 Hn2] by naive_solver.
      destruct (decide (j = b)), (decide (j = a)); naive_solver.
Qed.

Lemma run_node_op_children t op t' : children_ok t → run_node_op t op = Some t' → children_ok t'.
Proof.
  intros Hok. destruct op; cbn [run_node_op].
  - destruct (insert_lookup _ _ _ _) as [[r t1]|] eqn:Hi; [|done]. intros [= <-].
    by eapply insert_lookup_children.
  - unfold root_seen. destruct (nt_nodes t !! ROOT); cbn [mbind option_bind]; [|done].
    intros [= <-] p name j. rewrite child_upd, aliased_upd by done. apply Hok.
  - intros [= <-]. by apply forget_children.
  - intros [= <-]. by apply alias_was_wrong_children.
  - intros [= <-]. by apply unlink_children.
  - intros [= <-]. by apply rename_children.
  - intros [= <-]. by apply exchange_children.
Qed.

Lemma nodes_reachable_children t : nodes_reachable t → children_ok t.
Proof.
  intros Hr. eapply (rtc_invariant node_step children_ok); [|exact Hr|].
  - intros t1 t2 Hok [op Hop]. by eapply run_node_op_children.
  - intros p name j. unfold child. cbn [NodeTable_new nt_nodes].
    destruct ({[ROOT := _]} !! p) as [n|] eqn:Hn; [|done].
    apply lookup_singleton_Some in Hn as [_ <-]. simpl. by rewrite lookup_empty.
Qed.

(** ** Numbers *)

Lemma next_id_closed id : 2 ≤ id < 2 ^ 64 → next_id id = 2 + (id - 2 + 1) mod (2 ^ 64 - 2).
Proof.
  intros Hid. unfold next_id, wrap64. destruct (Z.eq_dec id (2 ^ 64 - 1)) as [->|Hne].
  - reflexivity.
  - rewrite !Z.mod_small; lia.
Qed.

Lemma iter_next_id k : ∀ id, 2 ≤ id < 2 ^ 64 →
  Nat.iter k next_id id = 2 + (id - 2 + Z.of_nat k) mod (2 ^ 64 - 2).
Proof.
  induction k as [|k IH]; intros id Hid.
  - simpl. rewrite Z.add_0_r, Z.mod_small; lia.
  - rewrite Nat.iter_succ, IH by done.
    pose proof (Z.mod_pos_bound (id - 2 + Z.of_nat k) (2 ^ 64 - 2) ltac:(lia)).
    rewrite next_id_closed by lia. f_equal.
    replace (2 + (id - 2 + Z.of_nat k) mod (2 ^ 64 - 2) - 2 + 1)
      with ((id - 2 + Z.of_nat k) mod (2 ^ 64 - 2) + 1) by lia.
    rewrite Z.add_mod_idemp_l by lia. f_equal. lia.
Qed.

Lemma iter_next_id_inj id i j :
  2 ≤ id < 2 ^ 64 → Z.of_nat i < 2 ^ 64 - 2 → Z.of_nat j < 2 ^ 64 - 2 →
  Nat.iter i next_id id = Nat.iter j next_id id → i = j.
Proof.
  intros Hid Hi Hj. rewrite !iter_next_id by done. intros Heq.
  assert ((id - 2 + Z.of_nat i) mod (2 ^ 64 - 2) = (id - 2 + Z.of_nat j) mod (2 ^ 64 - 2)) as Hm by lia.
  pose proof (Z.div_mod (id - 2 + Z.of_nat i) (2 ^ 64 - 2) ltac:(lia)) as H1.
  pose proof (Z.div_mod (id - 2 + Z.of_nat j) (2 ^ 64 - 2) ltac:(lia)) as H2.
  pose proof (Z.mod_pos_bound (id - 2 + Z.of_nat j) (2 ^ 64 - 2) ltac:(lia)).
  rewrite Hm in H1. set (a := (id - 2 + Z.of_nat i) / (2 ^ 64 - 2)) in *.
  set (b := (id - 2 + Z.of_nat j) / (2 ^ 64 - 2)) in *. nia.
Qed.

Lemma free_from_taken fuel nodes : ∀ id,
  free_from fuel nodes id = None →
  ∀ k, (k < fuel)%nat → is_Some (nodes !! Nat.iter k next_id id).
Proof.
  induction fuel as [|fuel IH]; intros id; simpl; [lia|].
  destruct (nodes !! id) as [n|] eqn:Hn; [|done]. intros Hf k Hk.
  destruct k as [|k]; [by eexists|]. rewrite Nat.iter_succ_r. apply IH; [done|lia].
Qed.

Lemma free_from_total nodes id :
  2 ≤ id < 2 ^ 64 → Z.of_nat (size nodes) < 2 ^ 64 - 3 →
  is_Some (free_from (S (size nodes)) nodes id).
Proof.
  intros Hid Hsize. destruct (free_from _ nodes id) as [i|] eqn:Hf; [by eexists|].
  pose proof (free_from_taken _ _ _ Hf) as Hall.
  set (l := (λ k, Nat.iter k next_id id) <$> seq 0 (S (size nodes))).
  assert (NoDup l) as Hnd.
  { apply NoDup_fmap_2_strong; [|apply NoDup_seq]. intros i j Hi%elem_of_seq Hj%elem_of_seq.
    apply iter_next_id_inj; [done|lia..]. }
  assert (length l ≤ size nodes)%nat as Hle.
  { rewrite <- (size_dom (D := gset Z)). rewrite <- (size_list_to_set (C := gset Z) l Hnd).
    apply subseteq_size. intros x Hx%elem_of_list_to_set.
    apply list_elem_of_fmap in Hx as (k & -> & Hk%elem_of_seq).
    apply elem_of_dom. apply Hall. lia. }
  unfold l in Hle. rewrite length_fmap, length_seq in Hle. lia.
Qed.

Lemma substitute_range i : 2 ≤ substitute i < 2 ^ 64.
Proof.
  unfold substitute. split; [lia|].
  assert (∀ l h, h < 2 ^ 64 → foldl fnv_step h l < 2 ^ 64) as Hl.
  { induction l as [|b l IH]; intros h Hh; simpl; [done|]. apply IH.
    unfold fnv_step. apply wrap64_range. }
  specialize (Hl (le_bytes 4 (handle_type i) ++ handle i) FNV_OFFSET eq_refl). lia.
Qed.

Lemma id_for_total t seen :
  Z.of_nat (size (nt_nodes t)) < 2 ^ 64 - 3 → is_Some (id_for t seen).
Proof.
  intros Hsize. unfold id_for. destruct (_ && _); [by eexists|].
  destruct (nt_by_key t !! _); [by eexists|]. destruct (_ && _); [by eexists|].
  apply free_from_total; [apply substitute_range|done].
Qed.

(** ** Paths *)

(** The names lead from the root to the node, each by a name it is known by. *)
Inductive leads (t : NodeTable) : list Name → Z → Prop :=
| leads_root : leads t [] ROOT
| leads_alias ns parent name id :
    leads t ns parent → id ≠ ROOT → aliased t (parent, name) id → leads t (ns ++ [name]) id.

Lemma find_map_Some {A B} (f : A → option B) l y :
  find_map f l = Some y → ∃ x, x ∈ l ∧ f x = Some y.
Proof.
  induction l as [|x l IH]; simpl; [done|]. destruct (f x) eqn:Hx.
  - intros [= <-]. exists x. split; [by left|done].
  - intros (x' & Hin & Hf)%IH. exists x'. split; [by right|done].
Qed.

Lemma find_map_is_Some {A B} (f : A → option B) l x :
  x ∈ l → is_Some (f x) → is_Some (find_map f l).
Proof.
  induction 1 as [x l|x y l _ IH]; intros Hx; simpl.
  - destruct Hx as [z ->]. by eexists.
  - destruct (f y); [by eexists|auto].
Qed.

Lemma names_to_sound fuel t : ∀ ino ns,
  names_to fuel t ino = Some ns → leads t ns ino ∧ (length ns ≤ fuel)%nat.
Proof.
  induction fuel as [|fuel IH]; intros ino ns; cbn [names_to].
  - destruct (Z.eqb_spec ino ROOT) as [->|]; [|done]. intros [= <-]. split; [constructor|simpl; lia].
  - destruct (Z.eqb_spec ino ROOT) as [->|Hne].
    { intros [= <-]. split; [constructor|simpl; lia]. }
    destruct (nt_nodes t !! ino) as [n|] eqn:Hn; cbn [mbind option_bind]; [|done].
    intros ([p name] & Hin & Hf)%find_map_Some. simpl in Hf.
    destruct (names_to fuel t p) as [ns'|] eqn:Hp; simpl in Hf; [|done]. injection Hf as <-.
    apply IH in Hp as [Hl Hlen]. split.
    + eapply leads_alias; [done|done|]. exists n. split; [done|].
      by rewrite elem_of_reverse in Hin.
    + rewrite length_app. simpl. lia.
Qed.

Lemma names_to_complete t ns ino :
  leads t ns ino → ∀ fuel, (length ns ≤ fuel)%nat → is_Some (names_to fuel t ino).
Proof.
  induction 1 as [|ns p name id _ IH Hne (n & Hn & Hin)]; intros fuel Hfuel.
  - destruct fuel; simpl; by eexists.
  - rewrite length_app in Hfuel. simpl in Hfuel. destruct fuel as [|fuel]; [lia|].
    cbn [names_to]. destruct (Z.eqb_spec id ROOT); [done|]. rewrite Hn. cbn [mbind option_bind].
    apply (find_map_is_Some _ _ (p, name)).
    + by rewrite elem_of_reverse.
    + simpl. destruct (IH fuel ltac:(lia)) as [ns' ->]. simpl. by eexists.
Qed.

(** A path that fits is not deeper than the climb goes. *)
Lemma fits_depth ns :
  Forall name_valid ns → (byte_len (MkPath ns) ≤ PATH_MAX)%nat → (length ns ≤ MAX_DEPTH)%nat.
Proof.
  intros Hv. unfold byte_len. cbn [names].
  assert (length ns ≤ sum_list_with (λ n, length (as_bytes n)) ns)%nat as Hsum.
  { induction Hv as [|n ns (Hne & _) _ IH]; simpl; [lia|]. destruct (as_bytes n); [done|]. simpl. lia. }
  change MAX_DEPTH with 2048%nat. change PATH_MAX with 4096%nat. lia.
Qed.

(** The newest name comes first. *)
Lemma names_to_newest fuel t id n old parent name ns :
  id ≠ ROOT → nt_nodes t !! id = Some n → nd_aliases n = old ++ [(parent, name)] →
  names_to fuel t parent = Some ns → names_to (S fuel) t id = Some (ns ++ [name]).
Proof.
  intros Hne Hn Ha Hp. cbn [names_to]. destruct (Z.eqb_spec id ROOT); [done|].
  rewrite Hn. cbn [mbind option_bind]. rewrite Ha, reverse_app. simpl. by rewrite Hp.
Qed.

Lemma resolve_names_node t ns : ∀ current id,
  children_ok t → is_Some (nt_nodes t !! current) →
  resolve_names t current ns = Some id → is_Some (nt_nodes t !! id).
Proof.
  induction ns as [|name ns IH]; intros current id Hok Hc; simpl; [by intros [= <-]|].
  destruct (child t current name) as [next|] eqn:Hn; simpl; [|done].
  apply IH; [done|]. by eapply aliased_node, Hok.
Qed.

(** ** Properties *)

Definition demo_name (s : string) : Name := MkName (String.list_byte_of_string s).
Definition demo_seen (ino h : Z) (kind : FileKind) : Seen :=
  MkSeen ino (MkIdentity 1 [z_byte h]) false kind.

(** A directory, and a file in it. *)
Definition demo_dir : NodeTable :=
  from_option snd NodeTable_new
    (insert_lookup NodeTable_new ROOT (demo_name "d") (demo_seen 10 1 Directory)).
Definition demo_nodes : NodeTable :=
  from_option snd NodeTable_new
    (insert_lookup demo_dir 10 (demo_name "f") (demo_seen 11 2 Regular)).

Lemma demo_nodes_reachable : nodes_reachable demo_nodes.
Proof.
  apply (rtc_l _ _ demo_dir).
  { exists (NOp_insert_lookup ROOT (demo_name "d") (demo_seen 10 1 Directory)). vm_compute. reflexivity. }
  apply rtc_once.
  exists (NOp_insert_lookup 10 (demo_name "f") (demo_seen 11 2 Regular)). vm_compute. reflexivity.
Qed.

(** C14: a node id names one file.  After any sequence of the table's operations,
    two nodes other than the root never stand for the same file; and the number a
    file is given exists (the search for a free one ends while the table has room)
    and is its own node's if it has one, and otherwise one that no node has, so
    that no file is ever given another's number. *)
Theorem node_per_file t seen :
  nodes_reachable t → Z.of_nat (size (nt_nodes t)) < 2 ^ 64 - 3 →
  (∀ i j ni nj k, i ≠ ROOT → j ≠ ROOT → nt_nodes t !! i = Some ni → nt_nodes t !! j = Some nj →
     nd_key ni = Some k → nd_key nj = Some k → i = j)
  ∧ ∃ id, id_for t seen = Some id
    ∧ (id ≠ ROOT → match nt_nodes t !! id with
                   | Some n => nd_key n = Some (Seen_key seen)
                   | None => ∀ j n, j ≠ ROOT → nt_nodes t !! j = Some n →
                               nd_key n ≠ Some (Seen_key seen)
                   end).
Proof.
  intros [_ _ Hi]%nodes_reachable_keys Hsize. split.
  - intros i j ni nj k Hir Hjr Hni Hnj Hki Hkj.
    assert (nt_by_key t !! k = Some i) as H1 by (apply Hi; eauto).
    assert (nt_by_key t !! k = Some j) as H2 by (apply Hi; eauto). congruence.
  - destruct (id_for_total t seen Hsize) as [id Hid]. exists id. split; [done|]. intros Hne.
    apply id_for_spec in Hid as [?|[Hk|(_ & Hno & Hk)]]; [done| |].
    + apply Hi in Hk as [_ (n & -> & Hkn)]. done.
    + rewrite Hno. intros j n Hj Hn Hkn.
      assert (nt_by_key t !! Seen_key seen = Some j) by (apply Hi; eauto). congruence.
Qed.

(** The file recycles the inode number of the one known: it gets another. *)
Lemma node_per_file_witness :
  ∃ id, id_for demo_nodes (demo_seen 11 3 Regular) = Some id ∧ id ≠ 11.
Proof.
  destruct (node_per_file demo_nodes (demo_seen 11 3 Regular) demo_nodes_reachable)
    as (_ & id & Hid & _).
  - reflexivity.
  - exists id. split; [exact Hid|]. intros ->. vm_compute in Hid. discriminate.
Defined.

(** Names and nodes agree.  After any sequence of the table's operations,
    whatever a directory of the table has as a child is a node of the table that
    knows it by that name: following a path never leads to a forgotten node, and
    a rename, an exchange or an unlink leaves no name behind. *)
Theorem children_lead_to_nodes t path id :
  nodes_reachable t → resolve_path t path = Some id →
  is_Some (nt_nodes t !! id)
  ∧ ∀ parent name j, child t parent name = Some j → aliased t (parent, name) j.
Proof.
  intros Hr Hp. pose proof (nodes_reachable_children t Hr) as Hok. split; [|exact Hok].
  eapply resolve_names_node; [done| |exact Hp]. apply kok_root. by apply nodes_reachable_keys.
Qed.

Lemma children_lead_to_nodes_witness : is_Some (nt_nodes demo_nodes !! 11).
Proof.
  apply (children_lead_to_nodes demo_nodes (MkPath [demo_name "d"; demo_name "f"]) 11
           demo_nodes_reachable). vm_compute. reflexivity.
Defined.

(** The path a node is addressed by is right and is found.  A path [path_of]
    gives leads from the root to the node by names the nodes are known by, and
    fits the wire's limit; and when it gives none although some chain of valid
    names leads to the node, that is because of a chain too long for the limit,
    never because the climb was cut at [MAX_DEPTH]. *)
Theorem path_of_spec t ino :
  (∀ p, path_of t ino = Some p → leads t (names p) ino ∧ (byte_len p ≤ PATH_MAX)%nat)
  ∧ ∀ ns, path_of t ino = None → leads t ns ino → Forall name_valid ns →
      ∃ ns', leads t ns' ino ∧ (PATH_MAX < byte_len (MkPath ns'))%nat.
Proof.
  unfold path_of. split.
  - intros p. destruct (names_to _ t ino) as [ns|] eqn:Hn; cbn [mbind option_bind]; [|done].
    destruct (Path_from_names ns) eqn:Hp; simpl; [|done]. intros [= ->].
    apply Path_from_names_Ok in Hp as [-> Hlen]. apply names_to_sound in Hn as [Hl _]. done.
  - intros ns Hnone Hl Hv.
    destruct (Nat.le_gt_cases (byte_len (MkPath ns)) PATH_MAX) as [Hfit|]; [|by exists ns].
    destruct (names_to_complete t ns ino Hl (S MAX_DEPTH)) as [ns' Hns'].
    { pose proof (fits_depth ns Hv Hfit). lia. }
    rewrite Hns' in Hnone. cbn [mbind option_bind] in Hnone.
    apply names_to_sound in Hns' as [Hl' _]. exists ns'. split; [done|].
    destruct (Nat.le_gt_cases (byte_len (MkPath ns')) PATH_MAX) as [Hfit'|]; [|done].
    rewrite (proj2 (Path_from_names_Ok ns' (MkPath ns')) (conj eq_refl Hfit')) in Hnone. done.
Qed.

Lemma path_of_spec_witness :
  leads demo_nodes [demo_name "d"; demo_name "f"] 11.
Proof.
  apply (proj1 (path_of_spec demo_nodes 11) (MkPath [demo_name "d"; demo_name "f"])).
  vm_compute. reflexivity.
Defined.

(** What the kernel is told of, it can use.  When a lookup is recorded, the
    file's node is under that name: the directory, if known, has it as its child,
    and the node is addressed through the directory's own path and that name,
    ahead of any older name. *)
Theorem lookup_is_addressed t parent name seen id t' ns :
  insert_lookup t parent name seen = Some (Some id, t') →
  names_to MAX_DEPTH t' parent = Some ns →
  (is_Some (nt_nodes t !! parent) → child t' parent name = Some id)
  ∧ names_to (S MAX_DEPTH) t' id = Some (ns ++ [name]).
Proof.
  intros H Hp. unfold insert_lookup in H.
  destruct (id_for t seen) as [id'|]; cbn [mbind option_bind] in H; [|done].
  destruct (Z.eqb_spec id' ROOT) as [|Hne]; [done|].
  set (t1 := match child t parent name with Some previous => _ | None => _ end) in H.
  injection H as <- <-. split.
  - intros Hpar.
    assert (child t1 parent name = Some id') as Hc.
    { subst t1. destruct (child t parent name); [destruct (_ =? _)|]; rewrite ?child_drop_alias,
        child_set_child, bool_decide_eq_true_2 by done; done. }
    unfold child in *. cbn [nt_nodes]. destruct (decide (parent = id')) as [->|Hd].
    + rewrite lookup_insert_eq. simpl. by destruct (nt_nodes t1 !! id').
    + by rewrite lookup_insert_ne.
  - eapply names_to_newest; [done|cbn [nt_nodes]; apply lookup_insert_eq|reflexivity|exact Hp].
Qed.

Definition demo_third : NodeTable :=
  from_option snd NodeTable_new
    (insert_lookup demo_nodes 10 (demo_name "g") (demo_seen 12 4 Regular)).

Lemma lookup_is_addressed_witness :
  names_to (S MAX_DEPTH) demo_third 12 = Some ([demo_name "d"] ++ [demo_name "g"]).
Proof.
  apply (lookup_is_addressed demo_nodes 10 (demo_name "g") (demo_seen 12 4 Regular) 12 demo_third
           [demo_name "d"]); vm_compute; reflexivity.
Defined.
