(* ===== verification/Readahead.v ===== *)
(** * Runs of sequential reads ([crates/client/src/readahead.rs])

    Whether the kernel's readahead window is what holds a sequential reader back:
    one open file's current run of reads, and the finding it comes to.

    An instant and a duration are nanoseconds, as a [Z].  The share of time with a
    read in flight is computed in [f64] by the source, and here by the standard's
    model of it ([Float.v]).  The mean latency of a
    finding is kept as the [f64] of seconds the source converts to a [Duration].
    Counters of bytes and reads are unbounded.  Texts for the log are left out. *)

From S2P Require Import Prelude Float Types Msg ClientTypes ClientHandles Codec.

(** ** Data and operations *)

Definition O_WRONLY : Z := 1.
Definition O_RDWR : Z := 2.
Definition O_DIRECT : Z := 16384.

Definition RUN_SLACK : Z := 2 * MAX_IO.
Definition RUN_HEAVY : Z := Z.shiftl 256 20.
Definition RUN_LARGEST_MIN : Z := 64 * 1024.

(** The literal [0.9], rounded as the compiler rounds it. *)
Definition RUN_BUSY : spec_float := f64_div (f64_of 9) (f64_of 10).

Definition saturating_duration_since (now since : Z) : Z := Z.max 0 (now - since).

Definition through_page_cache (flags : Z) : bool :=
  (Z.land flags O_DIRECT =? 0) && negb (Z.land flags O_ACCMODE =? O_WRONLY).

Record RunRead := MkRun {
  rn_next : Z;
  rn_started : Z;
  rn_bytes : Z;
  rn_reads : Z;
  rn_waited : Z;
  rn_largest : Z;
  rn_inflight : Z;
  rn_busy_since : option Z;
  rn_busy : Z;
  rn_reported : bool }.

Record FindingReadahead := MkFinding {
  fi_bytes : Z;
  fi_elapsed : Z;
  fi_largest : Z;
  fi_latency_mean : spec_float;
  fi_busy_share : spec_float }.

Definition RunRead_new (offset now : Z) : RunRead := MkRun offset now 0 0 0 0 0 None 0 false.

(** Whether a read at [offset] belongs to the run. *)
Definition continues (r : RunRead) (offset : Z) : bool :=
  (rn_next r <=? sat_add64 offset RUN_SLACK) && (offset <=? sat_add64 (rn_next r) RUN_SLACK).

Definition RunRead_start (r : RunRead) (offset size now : Z) : RunRead :=
  let r := if continues r offset then r
           else MkRun offset now 0 0 0 0 (rn_inflight r)
                  (if 0 <? rn_inflight r then Some now else None) 0 false in
  MkRun (Z.max (rn_next r) (sat_add64 offset size)) (rn_started r) (rn_bytes r) (rn_reads r)
    (rn_waited r) (Z.max (rn_largest r) size) (rn_inflight r + 1)
    (if rn_inflight r =? 0 then Some now else rn_busy_since r) (rn_busy r) (rn_reported r).

(** The time with a read in flight, up to [now]. *)
Definition busy_at (r : RunRead) (now : Z) : Z :=
  rn_busy r + match rn_busy_since r with
              | Some since => saturating_duration_since now since
              | None => 0
              end.

(** The read is off the count; the last one in flight ends a busy stretch. *)
Definition settle (r : RunRead) (bytes took now : Z) : RunRead :=
  let inflight := Z.max 0 (rn_inflight r - 1) in
  let '(busy_since, busy) :=
    if inflight =? 0 then
      match rn_busy_since r with
      | Some since => (None, rn_busy r + saturating_duration_since now since)
      | None => (None, rn_busy r)
      end
    else (rn_busy_since r, rn_busy r) in
  MkRun (rn_next r) (rn_started r) (rn_bytes r + bytes) (rn_reads r + 1) (rn_waited r + took)
    (rn_largest r) inflight busy_since busy (rn_reported r).

Definition RunRead_end (r : RunRead) (bytes took now : Z) : option FindingReadahead * RunRead :=
  let r := settle r bytes took now in
  if rn_reported r || (rn_bytes r <? RUN_HEAVY) || (rn_largest r <? RUN_LARGEST_MIN)
     || (MAX_IO <=? rn_largest r) then (None, r)
  else
    let elapsed := saturating_duration_since now (rn_started r) in
    if elapsed =? 0 then (None, r)
    else
      let busy_share := f64_div (as_secs_f64 (busy_at r now)) (as_secs_f64 elapsed) in
      if SFltb busy_share RUN_BUSY then (None, r)
      else
        (Some (MkFinding (rn_bytes r) elapsed (rn_largest r)
                 (f64_div (as_secs_f64 (rn_waited r)) (f64_of (rn_reads r))) busy_share),
         MkRun (rn_next r) (rn_started r) (rn_bytes r) (rn_reads r) (rn_waited r) (rn_largest r)
           (rn_inflight r) (rn_busy_since r) (rn_busy r) true).

(** [saturating_mul]. *)
Definition window_short (kb : Z) : bool := Z.min (kb * 1024) u64_max <? MAX_IO.

(** ** Every sequence of reads *)

Inductive ReadEv :=
| Read_Start (offset size now : Z)
| Read_End (bytes took now : Z).

Definition ev_now (e : ReadEv) : Z :=
  match e with Read_Start _ _ now | Read_End _ _ now => now end.

Definition run_read_ev (r : RunRead) (e : ReadEv) : option FindingReadahead * RunRead :=
  match e with
  | Read_Start offset size now => (None, RunRead_start r offset size now)
  | Read_End bytes took now => RunRead_end r bytes took now
  end.

(** The run after the events, and what each came to. *)
Fixpoint run_reads (r : RunRead) (evs : list ReadEv)
  : list (option FindingReadahead) * RunRead :=
  match evs with
  | [] => ([], r)
  | e :: evs => let '(f, r) := run_read_ev r e in
                let '(fs, r) := run_reads r evs in (f :: fs, r)
  end.

(** Times do not go back. *)
Fixpoint ordered_from (t : Z) (evs : list ReadEv) : Prop :=
  match evs with [] => True | e :: evs => t ≤ ev_now e ∧ ordered_from (ev_now e) evs end.

(** Reads sent and not yet answered. *)
Fixpoint outstanding (n : Z) (evs : list ReadEv) : Z :=
  match evs with
  | [] => n
  | Read_Start _ _ _ :: evs => outstanding (n + 1) evs
  | Read_End _ _ _ :: evs => outstanding (Z.max 0 (n - 1)) evs
  end.

(** ** Invariant

    A read is in flight exactly while a busy stretch is open, and busy time fits in
    the time since the run began. *)
Record run_ok (r : RunRead) (t : Z) : Prop := {
  run_inflight : 0 ≤ rn_inflight r;
  run_open : 0 < rn_inflight r ↔ is_Some (rn_busy_since r);
  run_started : rn_started r ≤ t;
  run_since : ∀ since, rn_busy_since r = Some since → rn_started r ≤ since ≤ t;
  run_busy : 0 ≤ rn_busy r;
  run_fits : rn_busy r ≤ match rn_busy_since r with Some s => s | None => t end - rn_started r }.

Lemma run_ok_new offset now : run_ok (RunRead_new offset now) now.
Proof.
  split; cbn; try lia; try done.
Qed.

Lemma run_ok_later r t t' : run_ok r t → t ≤ t' → run_ok r t'.
Proof.
  intros [Hi Ho Hs Hn Hb Hf] Hle. split; try done; try lia.
  - intros s Hs'. specialize (Hn s Hs'). lia.
  - destruct (rn_busy_since r); lia.
Qed.

Lemma run_ok_start r offset size now :
  run_ok r now →
  run_ok (RunRead_start r offset size now) now
  ∧ rn_inflight (RunRead_start r offset size now) = rn_inflight r + 1.
Proof.
  intros Hok. unfold RunRead_start.
  set (r1 := if continues r offset then r else _).
  assert (run_ok r1 now ∧ rn_inflight r1 = rn_inflight r) as [Hok1 <-].
  { subst r1. destruct (continues r offset); [done|]. destruct Hok as [Hi Ho Hs Hn Hb Hf].
    split; [|done].
    destruct (Z.ltb_spec 0 (rn_inflight r)); split; cbn; try lia; try done.
    - intros s [= <-]. lia.
    - split; [lia|by intros []]. }
  clearbody r1. clear Hok. destruct Hok1 as [Hi Ho Hs Hn Hb Hf]. split; [|done].
  split; cbn [rn_inflight rn_busy_since rn_started rn_busy]; try lia.
  - split; [intros _|lia]. destruct (Z.eqb_spec (rn_inflight r1) 0); [by eexists|].
    apply Ho. lia.
  - intros s. destruct (Z.eqb_spec (rn_inflight r1) 0); [intros [= <-]; lia|apply Hn].
  - destruct (Z.eqb_spec (rn_inflight r1) 0) as [H0|]; [|done].
    destruct (rn_busy_since r1); [|done]. assert (0 < rn_inflight r1) by (apply Ho; eauto). lia.
Qed.

Lemma run_ok_settle r bytes took now :
  run_ok r now →
  run_ok (settle r bytes took now) now
  ∧ rn_inflight (settle r bytes took now) = Z.max 0 (rn_inflight r - 1).
Proof.
  intros [Hi Ho Hs Hn Hb Hf]. unfold settle, saturating_duration_since.
  destruct (Z.eqb_spec (Z.max 0 (rn_inflight r - 1)) 0) as [H0|H0].
  - destruct (rn_busy_since r) as [s|] eqn:Hsi; cbn.
    + specialize (Hn s eq_refl). split; [|done].
      split; cbn; try lia; try done. split; [lia|]. by intros [].
    + split; [|done]. split; cbn; try lia; try done. split; [lia|]. by intros [].
  - split; [|done]. split; cbn; try lia; try done.
    rewrite <- Ho. lia.
Qed.

Lemma end_settles r bytes took now f r' :
  RunRead_end r bytes took now = (f, r') →
  (run_ok (settle r bytes took now) now → run_ok r' now)
  ∧ rn_inflight r' = rn_inflight (settle r bytes took now)
  ∧ (∀ x, f = Some x →
       rn_reported r = false ∧ rn_reported r' = true ∧ RUN_HEAVY ≤ fi_bytes x
       ∧ RUN_LARGEST_MIN ≤ fi_largest x < MAX_IO ∧ 0 < fi_elapsed x
       ∧ SFltb (fi_busy_share x) RUN_BUSY = false)
  ∧ (f = None → rn_reported r' = rn_reported r).
Proof.
  unfold RunRead_end. set (r1 := settle r bytes took now).
  assert (rn_reported r1 = rn_reported r) as Hr1.
  { subst r1. unfold settle. by destruct (_ =? 0), (rn_busy_since r). }
  clearbody r1. cbv zeta.
  destruct (rn_reported r1 || _ || _ || _) eqn:Hc; [by intros [= <- <-]|].
  destruct (Z.eqb_spec (saturating_duration_since now (rn_started r1)) 0); [by intros [= <- <-]|].
  destruct (SFltb _ _) eqn:Hl; [by intros [= <- <-]|]. intros [= <- <-].
  rewrite !orb_false_iff, !Z.ltb_ge, Z.leb_gt in Hc. destruct Hc as [[[Hr Hh] Hm] Hx].
  split_and!; [|done| |done].
  - intros [Hi Ho Hs Hn Hb Hf]. by split.
  - intros x [= <-]. cbn [fi_bytes fi_largest fi_elapsed fi_busy_share rn_reported].
    unfold saturating_duration_since in *. split_and!; try done; try lia; congruence.
Qed.

(** When the last event was. *)
Fixpoint last_now (t : Z) (evs : list ReadEv) : Z :=
  match evs with [] => t | e :: evs => last_now (ev_now e) evs end.

Lemma run_reads_ok evs : ∀ r t,
  run_ok r t → ordered_from t evs →
  run_ok (run_reads r evs).2 (last_now t evs)
  ∧ rn_inflight (run_reads r evs).2 = outstanding (rn_inflight r) evs.
Proof.
  induction evs as [|e evs IH]; intros r t Hok Ho; [done|].
  destruct Ho as [Hle Ho]. apply (run_ok_later _ _ _ Hok) in Hle as Hok'.
  destruct e as [offset size now|bytes took now];
    cbn [run_reads run_read_ev ev_now outstanding last_now] in *.
  - destruct (run_ok_start r offset size now Hok') as [H1 H2].
    destruct (IH _ _ H1 Ho) as [Hr Hi]. rewrite H2 in Hi. revert Hr Hi. by destruct (run_reads _ evs).
  - destruct (RunRead_end r bytes took now) as [f r1] eqn:He.
    destruct (end_settles _ _ _ _ _ _ He) as (H1 & H2 & _).
    destruct (run_ok_settle r bytes took now Hok') as [H3 H4].
    destruct (IH _ _ (H1 H3) Ho) as [Hr Hi]. rewrite H2, H4 in Hi. revert Hr Hi. by destruct (run_reads _ evs).
Qed.

Lemma run_reads_app l1 l2 : ∀ r,
  run_reads r (l1 ++ l2)
  = ((run_reads r l1).1 ++ (run_reads (run_reads r l1).2 l2).1,
     (run_reads (run_reads r l1).2 l2).2).
Proof.
  induction l1 as [|e l1 IH]; intros r; cbn [run_reads app].
  - cbn. by destruct (run_reads r l2).
  - destruct (run_read_ev r e) as [f r']. rewrite IH. by destruct (run_reads r' l1).
Qed.

Lemma last_now_snoc evs e : ∀ t, last_now t (evs ++ [e]) = ev_now e.
Proof. induction evs as [|e' evs IH]; intros t; [done|apply IH]. Qed.

(** *** One finding a run *)

(** A read at [offset] is further than two of the largest requests from where the run's
    reads have got to, on either side: it begins a run of its own. *)
Definition far_from (next offset : Z) : Prop :=
  Z.min (offset + 2 * MAX_IO) u64_max < next ∨ Z.min (next + 2 * MAX_IO) u64_max < offset.

(** Event [k] begins a run. *)
Definition begins_run (r : RunRead) (evs : list ReadEv) (k : nat) : Prop :=
  ∃ offset size now, evs !! k = Some (Read_Start offset size now)
    ∧ far_from (rn_next (run_reads r (take k evs)).2) offset.

Lemma continues_false r offset : continues r offset = false → far_from (rn_next r) offset.
Proof.
  unfold continues, far_from, sat_add64, RUN_SLACK. rewrite andb_false_iff, !Z.leb_gt.
  intros [H|H]; [left|right]; lia.
Qed.

Lemma start_reported r offset size now :
  continues r offset = true → rn_reported (RunRead_start r offset size now) = rn_reported r.
Proof. intros Hc. unfold RunRead_start. by rewrite Hc. Qed.

Lemma begins_run_later r e evs k :
  begins_run (run_read_ev r e).2 evs k → begins_run r (e :: evs) (S k).
Proof.
  intros (offset & size & now & He & Hf). exists offset, size, now. split; [done|].
  cbn [take run_reads]. destruct (run_read_ev r e) as [f r']. cbn [snd] in Hf.
  by destruct (run_reads r' (take k evs)).
Qed.

Lemma run_reads_cons r e evs :
  (run_reads r (e :: evs)).1 = (run_read_ev r e).1 :: (run_reads (run_read_ev r e).2 evs).1.
Proof. cbn. destruct (run_read_ev r e) as [f r']. cbn. by destruct (run_reads r' evs). Qed.

(** Of a run that has reported, nothing more comes before a new one begins. *)
Lemma reported_until_new evs : ∀ r j x,
  rn_reported r = true → (run_reads r evs).1 !! j = Some (Some x) →
  ∃ k, (k < j)%nat ∧ begins_run r evs k.
Proof.
  induction evs as [|e evs IH]; intros r j x Hr Hx; [done|]. rewrite run_reads_cons in Hx.
  assert (∀ j', j = S j' → rn_reported (run_read_ev r e).2 = true → ∃ k, (k < j)%nat ∧ begins_run r (e :: evs) k) as Hlater.
  { intros j' -> Hr'. destruct (IH _ j' x Hr' Hx) as (k & Hk & Hb). exists (S k).
    split; [lia|]. by apply begins_run_later. }
  destruct e as [offset size now|bytes took now].
  - destruct j as [|j]; [done|]. destruct (continues r offset) eqn:Hc.
    + apply (Hlater j); [done|]. cbn [run_read_ev snd]. by rewrite start_reported.
    + exists 0%nat. split; [lia|]. exists offset, size, now. split; [done|]. by apply continues_false.
  - cbn [run_read_ev] in *. destruct (RunRead_end r bytes took now) as [f r1] eqn:He.
    destruct (end_settles _ _ _ _ _ _ He) as (_ & _ & Hf & Hn). cbn [fst snd] in *.
    destruct f as [y|]; [destruct (Hf y eq_refl) as [? _]; congruence|].
    destruct j as [|j]; [done|]. apply (Hlater j); [done|]. by rewrite Hn.
Qed.

Lemma begins_run_app r evs1 evs2 k :
  begins_run (run_reads r evs1).2 evs2 k → begins_run r (evs1 ++ evs2) (length evs1 + k).
Proof.
  revert r. induction evs1 as [|e evs1 IH]; intros r Hb; [done|]. cbn [length app Nat.add].
  apply begins_run_later, IH. cbn in Hb. destruct (run_read_ev r e) as [f r'].
  cbn [snd]. by destruct (run_reads r' evs1).
Qed.

Lemma length_run_reads evs : ∀ r, length (run_reads r evs).1 = length evs.
Proof. induction evs as [|e evs IH]; intros r; [done|]. rewrite run_reads_cons. cbn. by rewrite IH. Qed.

(** A finding marks its run. *)
Lemma finding_marks evs : ∀ r i x, (run_reads r evs).1 !! i = Some (Some x) →
  rn_reported (run_reads r (take (S i) evs)).2 = true
  ∧ RUN_HEAVY ≤ fi_bytes x ∧ RUN_LARGEST_MIN ≤ fi_largest x < MAX_IO ∧ 0 < fi_elapsed x
  ∧ SFltb (fi_busy_share x) RUN_BUSY = false.
Proof.
  induction evs as [|e evs IH]; intros r i x Hx; [done|]. rewrite run_reads_cons in Hx.
  destruct i as [|i].
  - injection Hx as Hx. cbn [take run_reads]. destruct e as [offset size now|bytes took now]; [done|].
    cbn [run_read_ev] in *. rewrite take_0. cbn [run_reads].
    destruct (RunRead_end r bytes took now) as [f r1] eqn:He. cbn in Hx. subst f.
    destruct (end_settles _ _ _ _ _ _ He) as (_ & _ & Hf & _). destruct (Hf x eq_refl) as [_ Hf']. exact Hf'.
  - destruct (IH _ i x Hx) as [Hr Hf]. split; [|done]. cbn [take run_reads].
    destruct (run_read_ev r e) as [f r']. cbn [snd] in Hr. cbn [take] in Hr.
    by destruct (run_reads r' _).
Qed.

Lemma one_finding_a_run r evs i j x y :
  (run_reads r evs).1 !! i = Some (Some x) → (run_reads r evs).1 !! j = Some (Some y) → (i < j)%nat →
  ∃ k, (i < k < j)%nat ∧ begins_run r evs k.
Proof.
  intros Hx Hy Hij. destruct (finding_marks _ _ _ _ Hx) as [Hr _].
  assert (i < length evs)%nat as Hi by (apply lookup_lt_Some in Hx; by rewrite length_run_reads in Hx).
  rewrite <- (take_drop (S i) evs) in Hy at 1. rewrite run_reads_app in Hy. cbn [fst] in Hy.
  assert (length (run_reads r (take (S i) evs)).1 = S i) as Hl by (rewrite length_run_reads, length_take; lia).
  rewrite lookup_app_r in Hy by lia. rewrite Hl in Hy.
  destruct (reported_until_new _ _ _ _ Hr Hy) as (k & Hk & Hb).
  exists (S i + k)%nat. split; [lia|].
  rewrite <- (take_drop (S i) evs).
  replace (S i) with (length (take (S i) evs)) at 3 by (rewrite length_take; lia).
  by apply begins_run_app.
Qed.

(** ** Properties *)


(** A heavy run reports at its fourth event; the reads that go on with it report nothing;
    a read far off begins a run that reports again. *)
Definition demo_evs : list ReadEv :=
  [Read_Start 0 131072 0; Read_Start 131072 131072 10; Read_End 200000000 60 60; Read_End 100000000 90 100;
   Read_Start 262144 131072 100; Read_End 300000000 90 200;
   Read_Start 1000000000 131072 200; Read_End 300000000 90 300].

