(* ===== verification/Fuse.v ===== *)
(** * The FUSE front end ([crates/client/src/fuse.rs])

    The kernel's requests and the tasks that answer them.  Every request is answered
    by a task of its own that runs concurrently with the others, so a handler is a
    program ([Prog]): a tree of atomic steps on the shared state, each one the section
    of the source under one lock, and of calls to the server, whose outcome the task
    waits for.  A loop of the source that may go round for ever is a [Goto] to a named
    loop head ([Label], [loop_body]); everything else is a finite tree, so a handler is
    a function and can be run.

    The calls end as [Caller.v] says; here their outcome is whatever the environment
    gives.  The typed wrappers around them ([crates/client/src/client.rs]) are part of
    this file.  A panic is the program [Panic].

    What is left out: the registry of requests for the watchdog and interrupts, the
    negotiation of [init], and log lines.  The process behind an open, which its task
    looks up first, comes with the request. *)

From S2P Require Import Prelude Types Msg ClientTypes ClientHandles Machine Caller Inodes Codec.
From S2P Require Import Float Readahead.

(** ** Constants *)

Definition ENXIO : Z := 6.
Definition EBADF : Z := 9.
Definition ENOTTY : Z := 25.
Definition ERANGE : Z := 34.
Definition ENAMETOOLONG : Z := 36.
Definition ENODATA : Z := 61.

Definition O_DIRECTORY : Z := 65536.
Definition SEEK_DATA : Z := 3.
Definition SEEK_HOLE : Z := 4.
Definition RENAME_EXCHANGE : Z := 2.

Definition READDIR_FETCH : Z := 1024 * 1024.
Definition READDIR_FETCH_FIRST : Z := 256 * 1024.
Definition GENERATION : Z := 0.

(** [invalidate.rs]: pending notifier calls. *)
Definition QUEUE : Z := 4096.

(** ** Times and attributes *)

Definition i64_min : Z := - 2 ^ 63.
Definition i64_max : Z := 2 ^ 63 - 1.
Definition is_i64 (z : Z) : bool := (i64_min <=? z) && (z <=? i64_max).

(** A [SystemTime] is a count of nanoseconds from the epoch whose whole seconds fit an
    [i64]; an addition past that panics. *)
Definition systime_checked (ns : Z) : option Z := if is_i64 (ns / NANOS) then Some ns else None.

Definition system_time (t : TimeSpec) : option Z :=
  base ← systime_checked (ts_sec t * NANOS);
  systime_checked (base + ts_nsec t).

(** [Duration] of a time before the epoch; [as i64] and the negations wrap. *)
Definition as_i64 (z : Z) : Z := (z + 2 ^ 63) mod 2 ^ 64 - 2 ^ 63.

Definition timespec (t : Z) : TimeSpec :=
  if 0 <=? t then {| ts_sec := as_i64 (t / NANOS); ts_nsec := t mod NANOS |}
  else
    let d := - t in
    if d mod NANOS =? 0 then {| ts_sec := as_i64 (- as_i64 (d / NANOS)); ts_nsec := 0 |}
    else {| ts_sec := as_i64 (as_i64 (- as_i64 (d / NANOS)) - 1);
            ts_nsec := NANOS - d mod NANOS |}.

(** [fuser::TimeOrNow]. *)
Inductive KernelTime := KT_SpecificTime (t : Z) | KT_Now.

Definition time_or_now (t : KernelTime) : TimeOrNow :=
  match t with
  | KT_SpecificTime t => TimeOrNow_Time (timespec t)
  | KT_Now => TimeOrNow_Now
  end.

(** [fuser::FileAttr]; [FileType] has the constructors of [FileKind]. *)
Record FileAttr := MkFileAttr {
  fa_ino : Z; fa_size : Z; fa_blocks : Z;
  fa_atime : Z; fa_mtime : Z; fa_ctime : Z; fa_crtime : Z;
  fa_kind : FileKind; fa_perm : Z; fa_nlink : Z; fa_uid : Z; fa_gid : Z;
  fa_rdev : Z; fa_blksize : Z; fa_flags : Z }.

Definition file_attr (id : Z) (attr : Attr) : option FileAttr :=
  atime ← system_time (a_atime attr);
  mtime ← system_time (a_mtime attr);
  ctime ← system_time (a_ctime attr);
  Some (MkFileAttr id (a_size attr) (a_blocks attr) atime mtime ctime ctime (a_kind attr)
          (a_perm attr) (a_nlink attr) (a_uid attr) (a_gid attr) (as_u32 (a_rdev attr))
          (a_blksize attr) 0).

(** [0o755] is 493. *)
Definition dir_placeholder (ino : Z) : FileAttr :=
  MkFileAttr ino 0 0 0 0 0 0 Directory 493 2 0 0 0 4096 0.

Definition unlinked_placeholder (ino : Z) : FileAttr :=
  MkFileAttr ino 0 0 0 0 0 0 Regular 0 0 0 0 0 4096 0.

Definition setattr_flushes_times (set : SetAttr) : bool :=
  match s_mtime set with Some (TimeOrNow_Time _) => true | _ => false end
  && negb (bool_decide (is_Some (s_atime set))) && negb (bool_decide (is_Some (s_mode set)))
  && negb (bool_decide (is_Some (s_uid set))) && negb (bool_decide (is_Some (s_gid set)))
  && negb (bool_decide (is_Some (s_size set))).

Definition flags_for_server (flags : Z) : Z :=
  let flags := Z.land flags (Z.lnot O_APPEND) in
  if Z.land flags O_ACCMODE =? O_WRONLY then
    Z.lor (Z.land flags (Z.lnot O_ACCMODE)) O_RDWR
  else flags.

Definition name_of (os : list byte) : result Z Name :=
  map_err (λ e, match e with ErrorName_TooLong => ENAMETOOLONG | _ => EINVAL end) (Name_new os).

(** ** Shared state *)

(** [invalidate.rs]. *)
Inductive Work :=
| Work_Entry (parent : Z) (name : Name)
| Work_Inode (ino : Z)
| Work_DirGrew (ino : Z)
| Work_Sweep.
#[export] Instance Work_eq_dec : EqDecision Work.
Proof. solve_decision. Defined.

(** The bounded channel to the notifier thread: what it holds, and whether the thread
    still receives. *)
Record Channel := MkChannel { ch_items : list Work; ch_receives : bool }.
Inductive TrySend := Sent (ch : Channel) | Send_Full | Send_Disconnected.

Definition try_send (ch : Channel) (w : Work) : TrySend :=
  if negb (ch_receives ch) then Send_Disconnected
  else if QUEUE <=? len_z (ch_items ch) then Send_Full
  else Sent (MkChannel (ch_items ch ++ [w]) true).

Record KnownXattrs := MkKnown { kx_names : list (list byte); kx_until : Z }.

Record AttrReported := MkReported { ar_size : Z; ar_mtime : TimeSpec }.
#[export] Instance AttrReported_eq_dec : EqDecision AttrReported.
Proof. solve_decision. Defined.

Definition DirBuffer : Type := list (Z * DirEntry).

Record DirState := MkDir {
  ds_ino : Z; ds_buffer : DirBuffer; ds_fetched : Z; ds_end : option Z }.

Record Shared := MkShared {
  sh_handles : HandleTable;
  sh_nodes : NodeTable;
  sh_dirs : gmap Z DirState;
  sh_reads : gmap Z RunRead;
  sh_xattrs : gmap Z KnownXattrs;
  sh_reported : gmap Z AttrReported;
  sh_invalidations : bool;
  sh_channel : Channel }.

(** The mount's configuration. *)
Record Config := MkConfig { entry_ttl : Z; attr_ttl : Z }.

Definition with_handles (h : HandleTable) (s : Shared) : Shared :=
  MkShared h (sh_nodes s) (sh_dirs s) (sh_reads s) (sh_xattrs s) (sh_reported s)
    (sh_invalidations s) (sh_channel s).
Definition with_nodes (t : NodeTable) (s : Shared) : Shared :=
  MkShared (sh_handles s) t (sh_dirs s) (sh_reads s) (sh_xattrs s) (sh_reported s)
    (sh_invalidations s) (sh_channel s).
Definition with_dirs (d : gmap Z DirState) (s : Shared) : Shared :=
  MkShared (sh_handles s) (sh_nodes s) d (sh_reads s) (sh_xattrs s) (sh_reported s)
    (sh_invalidations s) (sh_channel s).
Definition with_reads (r : gmap Z RunRead) (s : Shared) : Shared :=
  MkShared (sh_handles s) (sh_nodes s) (sh_dirs s) r (sh_xattrs s) (sh_reported s)
    (sh_invalidations s) (sh_channel s).
Definition with_xattrs (x : gmap Z KnownXattrs) (s : Shared) : Shared :=
  MkShared (sh_handles s) (sh_nodes s) (sh_dirs s) (sh_reads s) x (sh_reported s)
    (sh_invalidations s) (sh_channel s).
Definition with_reported (r : gmap Z AttrReported) (s : Shared) : Shared :=
  MkShared (sh_handles s) (sh_nodes s) (sh_dirs s) (sh_reads s) (sh_xattrs s) r
    (sh_invalidations s) (sh_channel s).
Definition with_channel (c : Channel) (s : Shared) : Shared :=
  MkShared (sh_handles s) (sh_nodes s) (sh_dirs s) (sh_reads s) (sh_xattrs s) (sh_reported s)
    (sh_invalidations s) c.
Definition with_invalidations (b : bool) (s : Shared) : Shared :=
  MkShared (sh_handles s) (sh_nodes s) (sh_dirs s) (sh_reads s) (sh_xattrs s) (sh_reported s)
    b (sh_channel s).

(** [Backend::new], with the client's table of handles. *)
Definition Shared_new (h : HandleTable) : Shared :=
  MkShared h NodeTable_new ∅ ∅ ∅ ∅ false (MkChannel [] false).

(** ** Programs *)

(** What a directory page shows of an entry. *)
Record PlainEntry := MkPlain { pe_ino : Z; pe_offset : Z; pe_kind : FileKind; pe_name : list byte }.
Record PlusEntry := MkPlus {
  pp_offset : Z; pp_name : list byte; pp_entry_valid : Z; pp_attr_valid : Z; pp_attr : FileAttr }.

Inductive FuseReply :=
| FR_Error (errno : Z)
| FR_Entry (attr_valid entry_valid : Z) (attr : FileAttr)
| FR_Attr (valid : Z) (attr : FileAttr)
| FR_Created (valid : Z) (attr : FileAttr) (fh : Z)
| FR_Opened (fh : Z)
| FR_Data (data : list byte)
| FR_Written (n : Z)
| FR_Ok
| FR_Directory (entries : list PlainEntry)
| FR_DirectoryPlus (entries : list PlusEntry)
| FR_Lseek (offset : Z)
| FR_Statfs (s : StatfsData)
| FR_XattrSize (n : Z)
| FR_None.

(** The heads of the loops that go round until the server's reply is of the right
    file, or until a range is done. *)
Inductive Label :=
| L_getattr (ino : Z) (fh : option Z)
| L_setattr (ino : Z) (fh : option Z) (set : SetAttr)
| L_open (ino flags : Z) (opener : option Opener)
| L_opendir (ino : Z) (opener : option Opener)
| L_fallocate (fh offset len mode done : Z).

Inductive Prog :=
| Reply (r : FuseReply)
| Panic
| Atom (step : Z → Shared → Shared * Prog)
| Call (req : Request) (k : result Error Response → Prog)
| Goto (l : Label).

(** Look at the state, or change it, in one step. *)
Definition look {X} (f : Shared → X) (k : X → Prog) : Prog := Atom (λ _ s, (s, k (f s))).
Definition change (f : Shared → Shared) (p : Prog) : Prog := Atom (λ _ s, (f s, p)).
Definition fail (errno : Z) : Prog := Reply (FR_Error errno).
Definition fail_with (e : Error) : Prog := fail (Error_errno e).

(** Attributes whose times no [SystemTime] holds panic as they are converted. *)
Definition with_file_attr (id : Z) (attr : Attr) (k : FileAttr → Prog) : Prog :=
  match file_attr id attr with Some fa => k fa | None => Panic end.

(** ** Calls ([client.rs]) *)

Definition unexpected (resp : Response) : Error :=
  Error_Protocol ("unexpected reply " +:+ kind_name resp).

(** The reply of a request, as its wrapper takes it. *)
Definition reply_attr (r : Response) : result Error Attr :=
  match r with
  | Resp_Entry attr | Resp_Attr attr => Ok attr
  | other => Err (unexpected other)
  end.
Definition reply_ok (r : Response) : result Error () :=
  match r with Resp_Ok => Ok () | other => Err (unexpected other) end.
Definition reply_bytes (r : Response) : result Error (list byte) :=
  match r with
  | Resp_Readlink b | Resp_Read b | Resp_Xattr b => Ok b
  | other => Err (unexpected other)
  end.
Definition reply_written (r : Response) : result Error Z :=
  match r with Resp_Written n => Ok n | other => Err (unexpected other) end.
Definition reply_copied (len : Z) (r : Response) : result Error Z :=
  match r with
  | Resp_Copied n => if n <=? len then Ok n else Err (unexpected r)
  | other => Err (unexpected other)
  end.
Definition reply_seeked (r : Response) : result Error Z :=
  match r with Resp_Seeked n => Ok n | other => Err (unexpected other) end.
Definition reply_readdir (r : Response) : result Error (list DirEntry * bool) :=
  match r with Resp_Readdir entries e => Ok (entries, e) | other => Err (unexpected other) end.
Definition reply_statfs (r : Response) : result Error StatfsData :=
  match r with Resp_Statfs s => Ok s | other => Err (unexpected other) end.

(** [self.call(req).await?] and the wrapper's match. *)
Definition call_as {X} (take : Response → result Error X) (req : Request)
    (k : result Error X → Prog) : Prog :=
  Call req (λ r, k (r ≫= take)).
Definition call_attr := call_as reply_attr.
Definition call_ok := call_as reply_ok.
Definition call_bytes := call_as reply_bytes.

(** [Client::open_handle]: [node] is the caller's judgement of the reply's attributes,
    a program of its own; what it said, if it was asked, is given on. *)
Definition open_handle (path : Path) (flags : Z) (kind : HandleKind) (opener : option Opener)
    (build : Z → Request) (node : Attr → (result Error Z → Prog) → Prog)
    (k : result Error (Z * Attr) → option (result Error Z) → Prog) : Prog :=
  Atom (λ _ s, let '(fh, h) := ht_alloc (sh_handles s) in (with_handles h s,
    Call (build fh) (λ opened,
      let settle (said : option (result Error Z)) :=
        Atom (λ _ s,
          match open_handle_end (sh_handles s) fh path flags kind opener
                  (λ _, default (Err Error_Stale) said) opened with
          | Some (r, h) => (with_handles h s, k r said)
          | None => (s, Panic)
          end) in
      match open_settled opened, opened with
      | Settle_Keep, Ok (Resp_Opened attr) => node attr (λ said, settle (Some said))
      | _, _ => settle None
      end))).

Definition client_open (path : Path) (flags : Z) (opener : option Opener) :=
  open_handle path flags HK_File opener (λ fh, Req_Open fh path flags).
Definition client_opendir (path : Path) (opener : option Opener) :=
  open_handle path (Z.lor O_RDONLY O_DIRECTORY) HK_Dir opener (λ fh, Req_Opendir fh path).
Definition client_create (parent : Path) (name : Name) (mode flags : Z) (opener : option Opener)
    (node : Attr → (result Error Z → Prog) → Prog)
    (k : result Error (Z * Attr) → option (result Error Z) → Prog) : Prog :=
  match Path_join parent name with
  | Ok path => open_handle path flags HK_File opener
                 (λ fh, Req_Create fh parent name mode flags) node k
  | Err _ => k (Err (Error_Remote ENAMETOOLONG)) None
  end.

(** [Client::release] and [Client::releasedir]: [req] is the request of the kind. *)
Definition client_release (fh : Z) (req : Request) (k : result Error () → Prog) : Prog :=
  Atom (λ _ s,
    let '(begins, h) := release_begins (sh_handles s) fh in
    (with_handles h s,
     if begins then
       Call req (λ r, Atom (λ _ s,
         match release_end (sh_handles s) req r with
         | Some (out, h) => (with_handles h s, k out)
         | None => (s, Panic)
         end))
     else k (Ok ()))).

(** The wrappers of the requests that take no more than a call; those that make or remove
    a name are known by their requests, which [making] and [unmaking] call. *)
Definition client_lookup (parent : Path) (name : Name) := call_attr (Req_Lookup parent name).
Definition client_getattr (path : option Path) (fh : option Z) := call_attr (Req_Getattr path fh).
Definition client_setattr (path : option Path) (fh : option Z) (set : SetAttr) := call_attr (Req_Setattr path fh set).
Definition client_readlink (path : Path) := call_bytes (Req_Readlink path).
Definition client_mknod (mode rdev : Z) (parent : Path) (name : Name) : Request := Req_Mknod parent name mode rdev.
Definition client_mkdir (mode : Z) (parent : Path) (name : Name) : Request := Req_Mkdir parent name mode.
Definition client_symlink (target : list byte) (parent : Path) (name : Name) : Request := Req_Symlink parent name target.
Definition client_unlink (parent : Path) (name : Name) : Request := Req_Unlink parent name.
Definition client_rmdir (parent : Path) (name : Name) : Request := Req_Rmdir parent name.
Definition client_rename (parent : Path) (name : Name) (newparent : Path) (newname : Name) (flags : Z) :=
  call_ok (Req_Rename parent name newparent newname flags).
Definition client_link (path newparent : Path) (newname : Name) := call_attr (Req_Link path newparent newname).
Definition client_releasedir (fh : Z) := client_release fh (Req_Releasedir fh false).
Definition client_read (fh offset size : Z) := call_bytes (Req_Read fh offset size).
Definition client_fsync (fh : Z) (datasync : bool) := call_ok (Req_Fsync fh datasync).
Definition client_setxattr (path : Path) (name value : list byte) (flags : Z) := call_ok (Req_Setxattr path name value flags).
Definition client_getxattr (path : Path) (name : list byte) := call_bytes (Req_Getxattr path name).
Definition client_listxattr (path : Path) := call_bytes (Req_Listxattr path).
Definition client_removexattr (path : Path) (name : list byte) := call_ok (Req_Removexattr path name).
Definition client_access (path : Path) (mask : Z) := call_ok (Req_Access path mask).

(** One turn of [Client::fallocate]'s loop. *)
Definition client_fallocate (fh offset len mode done : Z) (k : result Error () → Prog) : Prog :=
  let chunk := Z.min (len - done) MAX_FALLOCATE in
  call_ok (Req_Fallocate fh (offset + done) chunk mode) (λ r,
    match r with
    | Err e => k (Err e)
    | Ok _ => let done := done + chunk in
              if done =? len then k (Ok ()) else Goto (L_fallocate fh offset len mode done)
    end).

(** ** The shared state's operations *)

Section handlers.
Context (cfg : Config).

Definition with_path (ino : Z) (k : Path → Prog) : Prog :=
  look (λ s, path_of (sh_nodes s) ino) (λ path,
    match path with Some path => k path | None => fail ESTALE end).

Definition path_for_handle_op (ino : Z) (fh : option Z)
    (k : result Z (option Path * option Z) → Prog) : Prog :=
  look (λ s, path_of (sh_nodes s) ino) (λ path,
    match path, fh with
    | Some path, _ => k (Ok (Some path, fh))
    | None, Some fh => k (Ok (None, Some fh))
    | None, None =>
        look (λ s, any_live_for (sh_handles s) ino) (λ live,
          match live with
          | Some fh => k (Ok (None, Some fh))
          | None => k (Err ESTALE)
          end)
    end).

Definition is_unlinked_file (t : NodeTable) (ino : Z) : bool :=
  match nt_nodes t !! ino with
  | Some node => nd_unlinked node && bool_decide (nd_kind node = Regular)
  | None => false
  end.

(** Whether the node's file is the one the attributes describe. *)
Definition node_describes (t : NodeTable) (id : Z) (attr : Attr) : bool :=
  match nt_nodes t !! id ≫= nd_key with
  | Some key => describes key attr
  | None => false
  end.

Definition shared_describes (id : Z) (attr : Attr) (k : bool → Prog) : Prog :=
  if id =? ROOT then k true
  else look (λ s, node_describes (sh_nodes s) id attr) k.

(** Queue one invalidation through the sender the state holds, if it holds one. *)
Definition queue (w : Work) (k : bool → Prog) : Prog :=
  Atom (λ _ s,
    if sh_invalidations s then
      match try_send (sh_channel s) w with
      | Sent ch => (with_channel ch s, k true)
      | _ => (s, k false)
      end
    else (s, k false)).

Definition shared_alias_was_wrong (id : Z) (path : Path) (p : Prog) : Prog :=
  Atom (λ _ s,
    let '(alias, t) := alias_was_wrong (sh_nodes s) id path in
    (with_nodes t s,
     match alias with
     | None => p
     | Some (parent, name) => queue (Work_Entry parent name) (λ _, p)
     end)).

(** The judgement of an open by path: [same_file]. *)
Definition shared_same_file (id : Z) (path : Path) (attr : Attr)
    (said : result Error Z → Prog) : Prog :=
  shared_describes id attr (λ yes,
    if yes then said (Ok id) else shared_alias_was_wrong id path (said (Err Error_Stale))).

Definition parent_of (t : NodeTable) (ino : Z) : Z :=
  default ROOT (n ← nt_nodes t !! ino; a ← last (nd_aliases n); Some a.1).

Definition remembered (now id : Z) (attr : Attr) (m : gmap Z KnownXattrs) : gmap Z KnownXattrs :=
  match a_xattr_names attr with
  | Some names => <[id := MkKnown names (now + attr_ttl cfg)]> m
  | None => delete id m
  end.

Definition xattr_remember (id : Z) (attr : Attr) (p : Prog) : Prog :=
  Atom (λ now s, (with_xattrs (remembered now id attr (sh_xattrs s)) s, p)).

Definition xattr_forget (ino : Z) (p : Prog) : Prog :=
  change (λ s, with_xattrs (delete ino (sh_xattrs s)) s) p.

Definition reported_forget (ino : Z) (p : Prog) : Prog :=
  change (λ s, with_reported (delete ino (sh_reported s)) s) p.

Definition reported_insert (ino : Z) (attr : Attr) (p : Prog) : Prog :=
  change (λ s, with_reported (<[ino := MkReported (a_size attr) (a_mtime attr)]> (sh_reported s)) s) p.

(** The names queued one by one, until one cannot be. *)
Fixpoint queue_all (aliases : list (Z * Name)) (k : bool → Prog) : Prog :=
  match aliases with
  | [] => k true
  | (parent, name) :: aliases =>
      queue (Work_Entry parent name) (λ sent, if sent then queue_all aliases k else k false)
  end.

Definition drop_by_name (ino : Z) (k : bool → Prog) : Prog :=
  look (λ s, default [] (nd_aliases <$> nt_nodes (sh_nodes s) !! ino)) (λ aliases,
    look sh_invalidations (λ set, if set then queue_all aliases k else k false)).

Definition attr_reported (id : Z) (attr : Attr) (p : Prog) : Prog :=
  if negb (bool_decide (a_kind attr = Regular)) then p
  else
    let now := MkReported (a_size attr) (a_mtime attr) in
    Atom (λ _ s,
      match sh_reported s !! id with
      | None => (with_reported (<[id := now]> (sh_reported s)) s, p)
      | Some before =>
          (s, if bool_decide (before = now) then p
              else look (λ s, any_live_for (sh_handles s) id) (λ live,
                     match live with
                     | Some _ => p
                     | None => drop_by_name id (λ dropped,
                                 if dropped then reported_insert id attr p else p)
                     end))
      end).

(** What is sent is timed by the clock of its record. *)
Definition read_sent (fh offset size : Z) (k : Z → Prog) : Prog :=
  Atom (λ now s,
    let run := default (RunRead_new offset now) (sh_reads s !! fh) in
    (with_reads (<[fh := RunRead_start run offset size now]> (sh_reads s)) s, k now)).

Definition read_answered (fh bytes sent : Z) (p : Prog) : Prog :=
  Atom (λ now s,
    (match sh_reads s !! fh with
     | Some run =>
         with_reads (<[fh := (RunRead_end run bytes (saturating_duration_since now sent) now).2]>
                       (sh_reads s)) s
     | None => s
     end, p)).

Definition known_absent (now : Z) (m : gmap Z KnownXattrs) (ino : Z) (name : list byte) : bool :=
  match m !! ino with
  | Some known => (now <? kx_until known) && negb (existsb (λ n, bool_decide (n = name)) (kx_names known))
  | None => false
  end.

Definition known_list (now : Z) (m : gmap Z KnownXattrs) (ino : Z) : option (list byte) :=
  match m !! ino with
  | Some known =>
      if now <? kx_until known
      then Some (flat_map (λ n, n ++ [Byte.x00]) (kx_names known)) else None
  | None => None
  end.

(** What [id_for] cannot finish is a search that never ends. *)
Definition register (parent : Z) (name : Name) (attr : Attr) (k : result Z Z → Prog) : Prog :=
  Atom (λ _ s,
    match insert_lookup (sh_nodes s) parent name (Seen_from attr) with
    | Some (Some id, t) =>
        (with_nodes t s, xattr_remember id attr (attr_reported id attr (k (Ok id))))
    | Some (None, t) => (with_nodes t s, k (Err EIO))
    | None => (s, Panic)
    end).

Definition reply_entry (parent : Z) (name : Name) (attr : Attr) : Prog :=
  register parent name attr (λ r,
    match r with
    | Ok id => with_file_attr id attr (λ fa, Reply (FR_Entry (attr_ttl cfg) (entry_ttl cfg) fa))
    | Err e => fail e
    end).

Definition grown (ino : Z) (st : DirState) : DirState :=
  if ds_ino st =? ino then MkDir (ds_ino st) (ds_buffer st) (ds_fetched st) None else st.

Definition dir_grew (ino : Z) (p : Prog) : Prog :=
  change (λ s, with_dirs (grown ino <$> sh_dirs s) s) p.

Definition reply_created (parent : Z) (name : Name) (attr : Attr) : Prog :=
  dir_grew parent (reply_entry parent name attr).

(** ** Directory pages *)

Fixpoint tag_with_cookies (first : Z) (entries : list DirEntry) : DirBuffer :=
  match entries with
  | [] => []
  | e :: entries => (first, e) :: tag_with_cookies (de_next_offset e) entries
  end.

Definition set_buffer (b : DirBuffer) (st : DirState) : DirState :=
  MkDir (ds_ino st) b (ds_fetched st) (ds_end st).
Definition set_fetched (now : Z) (st : DirState) : DirState :=
  MkDir (ds_ino st) (ds_buffer st) now (ds_end st).
Definition set_end (e : option Z) (st : DirState) : DirState :=
  MkDir (ds_ino st) (ds_buffer st) (ds_fetched st) e.

Definition alter_dir (f : DirState → DirState) (fh : Z) (s : Shared) : Shared :=
  with_dirs (alter f fh (sh_dirs s)) s.

Definition stash (fh : Z) (rest : DirBuffer) (p : Prog) : Prog :=
  change (alter_dir (set_buffer rest) fh) p.

Definition note_end (fh : Z) (last : option Z) (ended : bool) (p : Prog) : Prog :=
  match last with
  | None => p
  | Some last => change (alter_dir (set_end (if ended then Some last else None)) fh) p
  end.

(** What a handle's buffer has for a page at [offset]: the page itself, the empty page
    of the known end, or nothing. *)
Inductive FromBuffer := Buffered (page : DirBuffer) | At_End | Must_Fetch.

Definition from_buffer (st : DirState) (offset now : Z) (plus : bool) : FromBuffer :=
  let fresh := negb plus || (saturating_duration_since now (ds_fetched st) <? attr_ttl cfg) in
  if negb (offset =? 0) && fresh
     && match ds_buffer st with (cookie, _) :: _ => cookie =? offset | [] => false end
  then Buffered (ds_buffer st)
  else if negb (offset =? 0) && bool_decide (ds_end st = Some offset) then At_End
  else Must_Fetch.

Definition dir_page (fh offset : Z) (plus : bool) (k : result Error DirBuffer → Prog) : Prog :=
  Atom (λ now s,
    match sh_dirs s !! fh with
    | None => (s, k (Err (Error_Remote EBADF)))
    | Some st =>
        (alter_dir (set_buffer []) fh s,
         match from_buffer st offset now plus with
         | Buffered page => k (Ok page)
         | At_End => k (Ok [])
         | Must_Fetch =>
             let fetch := if offset =? 0 then READDIR_FETCH_FIRST else READDIR_FETCH in
             call_as reply_readdir (Req_Readdir fh offset fetch) (λ r,
               match r with
               | Err e => k (Err e)
               | Ok (entries, ended) =>
                   Atom (λ now s, (alter_dir (set_fetched now) fh s,
                     note_end fh (de_next_offset <$> last entries) ended
                       (k (Ok (tag_with_cookies offset entries)))))
               end)
         end)
    end).

(** The room an entry takes in the kernel's buffer: a header, the name, and padding to
    eight bytes. *)
Definition entsize (header : Z) (name : list byte) : Z := (header + len_z name + 7) / 8 * 8.
Definition DIRENT : Z := 24.
Definition DIRENTPLUS : Z := 152.

(** [None] for an entry that cannot be numbered; the outer option is the search's. *)
Definition plain_number (t : NodeTable) (dir parent : Z) (e : DirEntry) : option (option Z) :=
  if bool_decide (de_name e = [dot]) then Some (Some dir)
  else if bool_decide (de_name e = [dot; dot]) then Some (Some parent)
  else match de_attr e with
       | None => Some None
       | Some attr => Some <$> id_for t (Seen_from attr)
       end.

(** The entries the kernel's buffer takes, and the rest from the first it does not. *)
Fixpoint add_plain (t : NodeTable) (dir parent room : Z) (entries : DirBuffer)
  : option (list PlainEntry * DirBuffer) :=
  match entries with
  | [] => Some ([], [])
  | (cookie, e) :: rest =>
      number ← plain_number t dir parent e;
      match number with
      | None => add_plain t dir parent room rest
      | Some number =>
          let size := entsize DIRENT (de_name e) in
          if room <? size then Some ([], (cookie, e) :: rest)
          else
            out ← add_plain t dir parent (room - size) rest;
            Some (MkPlain number (de_next_offset e) (default Directory (a_kind <$> de_attr e))
                    (de_name e) :: out.1, out.2)
      end
  end.

(** The page as it grows, entry by entry: [added] has what the kernel's buffer took. *)
Fixpoint add_plus (dir fh room : Z) (added : list PlusEntry) (entries : DirBuffer) : Prog :=
  match entries with
  | [] => Reply (FR_DirectoryPlus added)
  | (cookie, e) :: rest =>
      let size := entsize DIRENTPLUS (de_name e) in
      let full := room <? size in
      let shown fa := MkPlus (de_next_offset e) (de_name e) (entry_ttl cfg) (entry_ttl cfg) fa in
      let ends := stash fh ((cookie, e) :: rest) (Reply (FR_DirectoryPlus added)) in
      let goes_on fa := add_plus dir fh (room - size) (added ++ [shown fa]) rest in
      if bool_decide (de_name e = [dot]) then
        if full then ends else goes_on (dir_placeholder dir)
      else if bool_decide (de_name e = [dot; dot]) then
        look (λ s, parent_of (sh_nodes s) dir) (λ parent,
          if full then ends else goes_on (dir_placeholder parent))
      else match de_attr e with
           | None => add_plus dir fh room added rest
           | Some attr =>
               match Name_new (de_name e) with
               | Err _ => add_plus dir fh room added rest
               | Ok name =>
                   Atom (λ _ s,
                     match id_for (sh_nodes s) (Seen_from attr) with
                     | None => (s, Panic)
                     | Some id =>
                         match file_attr id attr with
                         | None => (s, Panic)
                         | Some fa =>
                             if full then (s, ends)
                             else match insert_lookup (sh_nodes s) dir name (Seen_from attr) with
                                  | None => (s, Panic)
                                  | Some (_, t) =>
                                      (with_nodes t s,
                                       xattr_remember id attr (attr_reported id attr (goes_on fa)))
                                  end
                         end
                     end)
               end
           end
  end.

Definition reply_xattr (size : Z) (value : list byte) : Prog :=
  if size =? 0 then Reply (FR_XattrSize (as_u32 (len_z value)))
  else if size <? len_z value then fail ERANGE
  else Reply (FR_Data value).

(** ** Handlers *)

(** The name of a request, checked before its task starts. *)
Definition with_name (os : list byte) (k : Name → Prog) : Prog :=
  match name_of os with Ok name => k name | Err e => fail e end.

Definition reply_ok_or (r : result Error ()) : Prog :=
  match r with Ok _ => Reply FR_Ok | Err e => fail_with e end.

Definition fuse_lookup (parent : Z) (name : list byte) : Prog :=
  with_name name (λ name, with_path parent (λ path,
    client_lookup path name (λ r,
      match r with Ok attr => reply_entry parent name attr | Err e => fail_with e end))).

Definition fuse_forget (ino nlookup : Z) : Prog :=
  Atom (λ _ s,
    let '(gone, t) := forget (sh_nodes s) ino nlookup in
    (with_nodes t s,
     if gone then xattr_forget ino (reported_forget ino (Reply FR_None)) else Reply FR_None)).

(** One turn of [getattr]'s loop. *)
Definition getattr_turn (ino : Z) (fh : option Z) : Prog :=
  path_for_handle_op ino fh (λ addressed,
    match addressed with
    | Err e => fail e
    | Ok (path, by_fh) =>
        client_getattr path by_fh (λ r,
          match r with
          | Err e => fail_with e
          | Ok attr =>
              let answer :=
                (if ino =? ROOT then
                   λ p, Atom (λ _ s, match root_seen (sh_nodes s) (a_identity attr) with
                                     | Some t => (with_nodes t s, p)
                                     | None => (s, Panic)
                                     end)
                 else id)
                  (xattr_remember ino attr (attr_reported ino attr
                     (with_file_attr ino attr (λ fa, Reply (FR_Attr (attr_ttl cfg) fa))))) in
              match by_fh with
              | Some _ => answer
              | None =>
                  shared_describes ino attr (λ yes,
                    if yes then answer
                    else shared_alias_was_wrong ino (default Path_root path)
                           (Goto (L_getattr ino fh)))
              end
          end)
    end).

Definition observes_only (set : SetAttr) : bool :=
  negb (bool_decide (is_Some (s_size set))) && negb (bool_decide (is_Some (s_mtime set))).

Definition setattr_turn (ino : Z) (fh : option Z) (set : SetAttr) : Prog :=
  path_for_handle_op ino fh (λ addressed,
    match addressed with
    | Err e =>
        if setattr_flushes_times set then
          look (λ s, is_unlinked_file (sh_nodes s) ino) (λ gone,
            if gone then Reply (FR_Attr 0 (unlinked_placeholder ino)) else fail e)
        else fail e
    | Ok (path, by_fh) =>
        client_setattr path by_fh set (λ r,
          match r with
          | Err e => fail_with e
          | Ok attr =>
              let answer :=
                xattr_remember ino attr
                  ((if observes_only set then attr_reported ino attr else reported_insert ino attr)
                     (with_file_attr ino attr (λ fa, Reply (FR_Attr (attr_ttl cfg) fa)))) in
              match by_fh with
              | Some _ => answer
              | None =>
                  shared_describes ino attr (λ yes,
                    if yes then answer
                    else shared_alias_was_wrong ino (default Path_root path)
                           (Goto (L_setattr ino fh set)))
              end
          end)
    end).

Definition fuse_setattr (ino : Z) (mode uid gid size : option Z) (atime mtime : option KernelTime)
    (fh : option Z) : Prog :=
  setattr_turn ino fh (MkSetAttr mode uid gid size (time_or_now <$> atime) (time_or_now <$> mtime)).

Definition fuse_readlink (ino : Z) : Prog :=
  with_path ino (λ path, client_readlink path (λ r,
    match r with Ok target => Reply (FR_Data target) | Err e => fail_with e end)).

(** A request that makes [name] under [parent]. *)
Definition making (parent : Z) (os : list byte) (build : Path → Name → Request) : Prog :=
  with_name os (λ name, with_path parent (λ path,
    call_attr (build path name) (λ r,
      match r with Ok attr => reply_created parent name attr | Err e => fail_with e end))).

Definition fuse_mknod (parent : Z) (name : list byte) (mode rdev : Z) : Prog :=
  making parent name (client_mknod mode rdev).
Definition fuse_mkdir (parent : Z) (name : list byte) (mode : Z) : Prog :=
  making parent name (client_mkdir mode).
Definition fuse_symlink (parent : Z) (name target : list byte) : Prog :=
  making parent name (client_symlink target).

(** A request that takes [name] from [parent]. *)
Definition unmaking (parent : Z) (os : list byte) (build : Path → Name → Request) : Prog :=
  with_name os (λ name, with_path parent (λ path,
    call_ok (build path name) (λ r,
      match r with
      | Ok _ => change (λ s, with_nodes (unlink (sh_nodes s) parent name) s) (Reply FR_Ok)
      | Err e => fail_with e
      end))).

Definition fuse_unlink (parent : Z) (name : list byte) : Prog := unmaking parent name client_unlink.
Definition fuse_rmdir (parent : Z) (name : list byte) : Prog := unmaking parent name client_rmdir.

Definition fuse_rename (parent : Z) (os : list byte) (newparent : Z) (newos : list byte)
    (flags : Z) : Prog :=
  with_name os (λ name, with_name newos (λ newname,
    with_path parent (λ path, with_path newparent (λ newpath,
      client_rename path name newpath newname flags (λ r,
        match r with
        | Ok _ =>
            change (λ s, with_nodes
              (if negb (Z.land flags RENAME_EXCHANGE =? 0)
               then exchange_names (sh_nodes s) parent name newparent newname
               else rename (sh_nodes s) parent name newparent newname) s)
              (dir_grew newparent (Reply FR_Ok))
        | Err e => fail_with e
        end))))).

Definition fuse_link (ino newparent : Z) (newos : list byte) : Prog :=
  with_name newos (λ newname, with_path ino (λ path, with_path newparent (λ newpath,
    client_link path newpath newname (λ r,
      match r with
      | Ok attr =>
          shared_describes ino attr (λ yes,
            if yes then reply_created newparent newname attr
            else shared_alias_was_wrong ino path (reply_created newparent newname attr))
      | Err e => fail_with e
      end)))).

(** [wrong_name]: the judgement was asked and refused. *)
Definition wrong_name (said : option (result Error Z)) : bool :=
  match said with Some (Err _) => true | _ => false end.

Definition open_turn (ino flags : Z) (opener : option Opener) : Prog :=
  with_path ino (λ path,
    client_open path flags opener (shared_same_file ino path) (λ opened said,
      if wrong_name said then Goto (L_open ino flags opener)
      else match opened with
           | Ok (fh, attr) =>
               xattr_remember ino attr (attr_reported ino attr (Reply (FR_Opened fh)))
           | Err e => fail_with e
           end)).

Definition fuse_open (ino flags : Z) (opener : option Opener) : Prog :=
  open_turn ino (flags_for_server flags) opener.

Definition fuse_create (parent : Z) (os : list byte) (mode flags : Z) (opener : option Opener)
  : Prog :=
  with_name os (λ name, with_path parent (λ path,
    client_create path name mode (flags_for_server flags) opener
      (λ attr said, dir_grew parent (register parent name attr (λ r, said (map_err Error_Remote r))))
      (λ created said,
         match created, said with
         | Ok (fh, attr), Some (Ok id) =>
             with_file_attr id attr (λ fa,
               Reply (FR_Created (Z.min (entry_ttl cfg) (attr_ttl cfg)) fa fh))
         | Ok _, _ => fail EIO
         | Err e, _ => fail_with e
         end))).

(** The source answers before it closes the run's account, which no reply reads. *)
Definition fuse_read (fh offset size flags : Z) : Prog :=
  let answer (p : Z → Prog → Prog) :=
    client_read fh offset size (λ r,
      match r with
      | Ok data => p (len_z data) (Reply (FR_Data data))
      | Err e => p 0 (fail_with e)
      end) in
  if through_page_cache flags then
    read_sent fh offset size (λ sent, answer (λ bytes p, read_answered fh bytes sent p))
  else answer (λ _ p, p).

Definition fuse_write (fh offset : Z) (data : list byte) : Prog :=
  call_as reply_written (Req_Write fh offset data) (λ r,
    match r with Ok n => Reply (FR_Written n) | Err e => fail_with e end).

Definition fuse_copy_file_range (fh_in offset_in fh_out offset_out len flags : Z) : Prog :=
  if negb (flags =? 0) then fail EINVAL
  else call_as (reply_copied len) (Req_CopyFileRange fh_in offset_in fh_out offset_out len) (λ r,
    match r with Ok n => Reply (FR_Written n) | Err e => fail_with e end).

Definition fallocate_turn (fh offset len mode done : Z) : Prog :=
  client_fallocate fh offset len mode done reply_ok_or.

Definition fuse_lseek (ino fh offset whence : Z) : Prog :=
  let seek (whence : Whence) :=
    if offset <? 0 then fail ENXIO
    else look (λ s, may_be_dirty (sh_handles s) ino) (λ dirty,
      if dirty then fail EINVAL
      else call_as reply_seeked (Req_Lseek fh offset whence) (λ r,
        match r with
        | Ok found => if found <=? i64_max then Reply (FR_Lseek found) else fail EIO
        | Err e => fail_with e
        end)) in
  if whence =? SEEK_DATA then seek Whence_Data
  else if whence =? SEEK_HOLE then seek Whence_Hole
  else fail EINVAL.

Definition is_writer (t : HandleTable) (fh : Z) : bool :=
  match a ← ht_get t fh; deref t a with Some rec => opened_to_write rec | None => false end.

Definition fuse_release (ino fh : Z) : Prog :=
  change (λ s, with_reads (delete fh (sh_reads s)) s)
    (look (λ s, is_writer (sh_handles s) fh) (λ writer,
       client_release fh (Req_Release fh false) (λ r,
         match r with
         | Ok _ =>
             if writer then
               look (λ s, any_live_for (sh_handles s) ino) (λ live,
                 match live with
                 | None => reported_forget ino (drop_by_name ino (λ _, Reply FR_Ok))
                 | Some _ => Reply FR_Ok
                 end)
             else Reply FR_Ok
         | Err e => fail_with e
         end))).

Definition fuse_fsync (fh : Z) (datasync : bool) : Prog := client_fsync fh datasync reply_ok_or.

Definition opendir_turn (ino : Z) (opener : option Opener) : Prog :=
  with_path ino (λ path,
    client_opendir path opener (shared_same_file ino path) (λ opened said,
      if wrong_name said then Goto (L_opendir ino opener)
      else match opened with
           | Ok (fh, _) =>
               Atom (λ now s, (with_dirs (<[fh := MkDir ino [] now None]> (sh_dirs s)) s,
                               Reply (FR_Opened fh)))
           | Err e => fail_with e
           end)).

Definition fuse_readdir (ino fh offset room : Z) : Prog :=
  dir_page fh offset false (λ r,
    match r with
    | Err e => fail_with e
    | Ok page =>
        look (λ s, parent_of (sh_nodes s) ino) (λ parent,
          look (λ s, add_plain (sh_nodes s) ino parent room page) (λ out,
            match out with
            | Some (added, rest) => stash fh rest (Reply (FR_Directory added))
            | None => Panic
            end))
    end).

Definition fuse_readdirplus (ino fh offset room : Z) : Prog :=
  dir_page fh offset true (λ r,
    match r with Err e => fail_with e | Ok page => add_plus ino fh room [] page end).

Definition fuse_releasedir (fh : Z) : Prog :=
  change (λ s, with_dirs (delete fh (sh_dirs s)) s)
    (client_releasedir fh reply_ok_or).

Definition fuse_statfs (ino : Z) : Prog :=
  look (λ s, default Path_root (path_of (sh_nodes s) ino)) (λ path,
    call_as reply_statfs (Req_Statfs path) (λ r,
      match r with Ok s => Reply (FR_Statfs s) | Err e => fail_with e end)).

Definition fuse_setxattr (ino : Z) (name value : list byte) (flags position : Z) : Prog :=
  if negb (position =? 0) then fail EINVAL
  else with_path ino (λ path,
    client_setxattr path name value flags (λ r, xattr_forget ino (reply_ok_or r))).

Definition fuse_getxattr (ino : Z) (name : list byte) (size : Z) : Prog :=
  Atom (λ now s, (s,
    if known_absent now (sh_xattrs s) ino name then fail ENODATA
    else with_path ino (λ path, client_getxattr path name (λ r,
      match r with Ok value => reply_xattr size value | Err e => fail_with e end)))).

Definition fuse_listxattr (ino size : Z) : Prog :=
  Atom (λ now s, (s,
    match known_list now (sh_xattrs s) ino with
    | Some list => reply_xattr size list
    | None => with_path ino (λ path, client_listxattr path (λ r,
        match r with Ok value => reply_xattr size value | Err e => fail_with e end))
    end)).

Definition fuse_removexattr (ino : Z) (name : list byte) : Prog :=
  with_path ino (λ path,
    client_removexattr path name (λ r, xattr_forget ino (reply_ok_or r))).

Definition fuse_access (ino mask : Z) : Prog :=
  with_path ino (λ path, client_access path mask reply_ok_or).

Definition loop_body (l : Label) : Prog :=
  match l with
  | L_getattr ino fh => getattr_turn ino fh
  | L_setattr ino fh set => setattr_turn ino fh set
  | L_open ino flags opener => open_turn ino flags opener
  | L_opendir ino opener => opendir_turn ino opener
  | L_fallocate fh offset len mode done => fallocate_turn fh offset len mode done
  end.

End handlers.

(** ** Requests *)

Inductive KernelRequest :=
| K_lookup (parent : Z) (name : list byte)
| K_forget (ino nlookup : Z)
| K_getattr (ino : Z) (fh : option Z)
| K_setattr (ino : Z) (mode uid gid size : option Z) (atime mtime : option KernelTime) (fh : option Z)
| K_readlink (ino : Z)
| K_mknod (parent : Z) (name : list byte) (mode rdev : Z)
| K_mkdir (parent : Z) (name : list byte) (mode : Z)
| K_unlink (parent : Z) (name : list byte)
| K_rmdir (parent : Z) (name : list byte)
| K_symlink (parent : Z) (name target : list byte)
| K_rename (parent : Z) (name : list byte) (newparent : Z) (newname : list byte) (flags : Z)
| K_link (ino newparent : Z) (newname : list byte)
| K_open (ino flags : Z) (opener : option Opener)
| K_create (parent : Z) (name : list byte) (mode flags : Z) (opener : option Opener)
| K_read (ino fh offset size flags : Z)
| K_write (ino fh offset : Z) (data : list byte)
| K_copy_file_range (fh_in offset_in ino_out fh_out offset_out len flags : Z)
| K_fallocate (ino fh offset length mode : Z)
| K_lseek (ino fh offset whence : Z)
| K_flush
| K_release (ino fh : Z)
| K_fsync (ino fh : Z) (datasync : bool)
| K_opendir (ino : Z) (opener : option Opener)
| K_readdir (ino fh offset room : Z)
| K_readdirplus (ino fh offset room : Z)
| K_fsyncdir (ino fh : Z) (datasync : bool)
| K_releasedir (ino fh : Z)
| K_statfs (ino : Z)
| K_setxattr (ino : Z) (name value : list byte) (flags position : Z)
| K_getxattr (ino : Z) (name : list byte) (size : Z)
| K_listxattr (ino size : Z)
| K_removexattr (ino : Z) (name : list byte)
| K_access (ino mask : Z)
| K_ioctl (ino : Z).

(** [impl Filesystem for Backend]. *)
Definition handler (cfg : Config) (r : KernelRequest) : Prog :=
  match r with
  | K_lookup parent name => fuse_lookup cfg parent name
  | K_forget ino n => fuse_forget ino n
  | K_getattr ino fh => getattr_turn cfg ino fh
  | K_setattr ino mode uid gid size atime mtime fh =>
      fuse_setattr cfg ino mode uid gid size atime mtime fh
  | K_readlink ino => fuse_readlink ino
  | K_mknod parent name mode rdev => fuse_mknod cfg parent name mode rdev
  | K_mkdir parent name mode => fuse_mkdir cfg parent name mode
  | K_unlink parent name => fuse_unlink parent name
  | K_rmdir parent name => fuse_rmdir parent name
  | K_symlink parent name target => fuse_symlink cfg parent name target
  | K_rename parent name newparent newname flags => fuse_rename parent name newparent newname flags
  | K_link ino newparent newname => fuse_link cfg ino newparent newname
  | K_open ino flags opener => fuse_open cfg ino flags opener
  | K_create parent name mode flags opener => fuse_create cfg parent name mode flags opener
  | K_read _ fh offset size flags => fuse_read fh offset size flags
  | K_write _ fh offset data => fuse_write fh offset data
  | K_copy_file_range fh_in offset_in _ fh_out offset_out len flags =>
      fuse_copy_file_range fh_in offset_in fh_out offset_out len flags
  | K_fallocate _ fh offset length mode => fallocate_turn fh offset length mode 0
  | K_lseek ino fh offset whence => fuse_lseek ino fh offset whence
  | K_flush => Reply FR_Ok
  | K_release ino fh => fuse_release ino fh
  | K_fsync _ fh datasync => fuse_fsync fh datasync
  | K_opendir ino opener => opendir_turn ino opener
  | K_readdir ino fh offset room => fuse_readdir cfg ino fh offset room
  | K_readdirplus ino fh offset room => fuse_readdirplus cfg ino fh offset room
  | K_fsyncdir _ fh datasync => fuse_fsync fh datasync
  | K_releasedir _ fh => fuse_releasedir fh
  | K_statfs ino => fuse_statfs ino
  | K_setxattr ino name value flags position => fuse_setxattr ino name value flags position
  | K_getxattr ino name size => fuse_getxattr ino name size
  | K_listxattr ino size => fuse_listxattr ino size
  | K_removexattr ino name => fuse_removexattr ino name
  | K_access ino mask => fuse_access ino mask
  | K_ioctl _ => fail ENOTTY
  end.

(** ** A task run alone *)

(** Run a program against a server until it replies or comes to a loop's head, with
    the clock at [now]. *)
Fixpoint exec (serve : Request → result Error Response) (now : Z) (p : Prog) (s : Shared)
  : Shared * option (FuseReply + Label) :=
  match p with
  | Reply r => (s, Some (inl r))
  | Panic => (s, None)
  | Atom step => let '(s, p) := step now s in exec serve now p s
  | Call req k => exec serve now (k (serve req)) s
  | Goto l => (s, Some (inr l))
  end.

(** The same, going round its loops [rounds] times at most; it may come to rest at the
    head of one. *)
Fixpoint exec_loop (cfg : Config) (serve : Request → result Error Response) (now : Z) (rounds : nat)
    (p : Prog) (s : Shared) : Shared * option (FuseReply + Label) :=
  match exec serve now p s, rounds with
  | (s, Some (inr l)), S rounds => exec_loop cfg serve now rounds (loop_body cfg l) s
  | out, _ => out
  end.
