(* ===== verification/FuseInv.v ===== *)
(** * The front end's invariants ([crates/client/src/fuse.rs], [inodes.rs])

    Kernel requests are answered concurrently: a world is the shared state, the tasks
    under way and what the kernel knows, and a step of it lets a task take one atomic
    step, gives a call its outcome, delivers a reply, brings a request in, or changes
    what other threads own (handles, the invalidation queue, directory buffers).

    What the kernel knows is the number of lookups it has been told of and has not
    given back for each node; what it may send is the kernel's side of the protocol:
    it names only nodes it holds, gives back no more lookups than it has, and does not
    give the last one back while a request on the node is under way.

    The proof is by rely and guarantee.  [safe] says of a program what it does at
    each step to the node table and the caches, in terms of a ghost record of the
    lookups it has registered and not yet told the kernel of, and of the files it has
    identified; [safe] is proved once per combinator, and a handler's proof composes
    those. *)

From S2P Require Import Prelude Types Msg ClientTypes ClientHandles Machine Caller Inodes Codec.
From S2P Require Import Float Readahead Fuse.

(** ** Node table operations, as lookup counts and keys see them *)

Definition node_view (n : Node) : option KeyNode * Z := (nd_key n, nd_lookup_count n).
Definition views (t : NodeTable) (id : Z) : option (option KeyNode * Z) :=
  node_view <$> nt_nodes t !! id.

(** The lookups a node counts. *)
Definition count (t : NodeTable) (id : Z) : Z := default 0 (snd <$> views t id).

Lemma views_upd t ino f id :
  (∀ n, node_view (f n) = node_view n) → views (upd_node t ino f) id = views t id.
Proof.
  intros Hf. unfold views. cbn [upd_node nt_nodes]. rewrite lookup_alter.
  case_decide; [subst|done]. destruct (nt_nodes t !! id); cbn; [|done]. by rewrite Hf.
Qed.

Lemma views_drop_alias t ino p n id : views (drop_alias t ino p n) id = views t id.
Proof. by apply views_upd. Qed.
Lemma views_set_child t p n i id : views (set_child t p n i) id = views t id.
Proof. by apply views_upd. Qed.
Lemma views_remove_child t p n id : views (remove_child t p n) id = views t id.
Proof. by apply views_upd. Qed.
Lemma views_move_alias t i a b id : views (upd_node t i (move_alias a b)) id = views t id.
Proof. by apply views_upd. Qed.
Lemma views_unname i t a id : views (unname i t a) id = views t id.
Proof. unfold unname. case_bool_decide; [apply views_remove_child|done]. Qed.
#[local] Hint Rewrite views_drop_alias views_set_child views_remove_child views_move_alias
  views_unname : jfs.

Lemma views_unlink t p n id : views (unlink t p n) id = views t id.
Proof. unfold unlink. destruct (child t p n); autorewrite with jfs; done. Qed.

Lemma views_rename t p n np nn id : views (rename t p n np nn) id = views t id.
Proof.
  unfold rename. destruct (child t p n); [|done]. case_bool_decide; [done|].
  cbv zeta. destruct (child (remove_child t p n) np nn); autorewrite with jfs; done.
Qed.

Lemma views_exchange t p n np nn id : views (exchange_names t p n np nn) id = views t id.
Proof.
  unfold exchange_names. destruct (child t p n); [|by rewrite !views_unlink].
  destruct (child t np nn); [|by rewrite !views_unlink].
  destruct (_ =? _); [done|]. cbv zeta. autorewrite with jfs; done.
Qed.

Lemma views_alias_was_wrong t i path id : views (alias_was_wrong t i path).2 id = views t id.
Proof.
  unfold alias_was_wrong. destruct (Path_split_last path) as [[dir last]|]; [|done].
  destruct (nt_nodes t !! i); [|done]. destruct (rposition _ _) as [k|]; [|done].
  destruct (nd_aliases n !! k) as [[p nm]|]; [|done]. cbn [snd].
  rewrite views_unname. by apply views_upd.
Qed.

Lemma views_root_seen t i t' id :
  root_seen t i = Some t' → id ≠ ROOT → views t' id = views t id.
Proof.
  unfold root_seen. destruct (nt_nodes t !! ROOT); cbn [mbind option_bind]; [|done].
  intros [= <-] Hne. unfold views. cbn [upd_node nt_nodes]. by rewrite lookup_alter_ne.
Qed.

Lemma views_unname_all i l : ∀ t id, views (foldl (unname i) t l) id = views t id.
Proof. induction l as [|a l IH]; intros t id; [done|]. cbn. by rewrite IH, views_unname. Qed.

(** A registered lookup is one more for one node, whose file it is. *)
Lemma insert_lookup_views t parent name seen r t' :
  keys_ok t → insert_lookup t parent name seen = Some (r, t') →
  match r with
  | None => t' = t ∧ id_for t seen = Some ROOT
  | Some id =>
      id ≠ ROOT ∧ id_for t seen = Some id
      ∧ views t' id = Some (Some (Seen_key seen), count t id + 1)
      ∧ (∀ id', id' ≠ id → views t' id' = views t id')
      ∧ (∀ n, nt_nodes t !! id = Some n → nd_key n = Some (Seen_key seen))
  end.
Proof.
  intros Hok H. unfold insert_lookup in H.
  destruct (id_for t seen) as [id|] eqn:Hid; cbn [mbind option_bind] in H; [|done].
  destruct (Z.eqb_spec id ROOT) as [->|Hne]; [by simplify_eq|].
  set (t1 := match child t parent name with Some previous => _ | None => _ end) in H.
  injection H as <- <-.
  assert (∀ i, views t1 i = views t i) as Hv.
  { intros i. subst t1. destruct (child t parent name); [destruct (_ =? _)|];
      autorewrite with jfs; done. }
  clearbody t1.
  assert (∀ n, nt_nodes t !! id = Some n → nd_key n = Some (Seen_key seen)) as Hkey.
  { intros n Hn. apply id_for_spec in Hid as [?|[Hk|(_ & Hno & _)]]; [done| |congruence].
    apply (kok_index _ Hok) in Hk as [_ (n' & Hn' & Hk')]. congruence. }
  split_and!; [done|done| | |done].
  - unfold views. cbn [nt_nodes]. rewrite lookup_insert_eq. cbn. unfold node_view, looked_up; cbn.
    specialize (Hv id). unfold count. rewrite <- Hv. unfold views in *.
    destruct (nt_nodes t1 !! id) as [n1|] eqn:Hn1; cbn; [|done].
    destruct (nt_nodes t !! id) as [n|] eqn:Hn; cbn in Hv; [|done].
    unfold node_view in Hv. injection Hv as Hk Hc. by rewrite Hk, (Hkey n eq_refl).
  - intros i Hi. rewrite <- Hv. unfold views. cbn [nt_nodes]. by rewrite lookup_insert_ne.
Qed.

(** A forget takes lookups from one node, and the node with the last of them. *)
Lemma forget_views t ino n gone t' :
  ino ≠ ROOT → 0 ≤ n ≤ count t ino → forget t ino n = (gone, t') →
  (∀ id, id ≠ ino → views t' id = views t id)
  ∧ count t' ino = count t ino - n
  ∧ (gone = true → views t' ino = None)
  ∧ (gone = false → (fst <$> views t' ino) = (fst <$> views t ino)
                    ∧ (is_Some (views t ino) → 0 < count t' ino)).
Proof.
  intros Hne Hn Hf. unfold forget in Hf. rewrite (proj2 (Z.eqb_neq ino ROOT)) in Hf by done.
  destruct (nt_nodes t !! ino) as [node|] eqn:Hnode.
  2:{ simplify_eq. unfold count, views in *. rewrite Hnode in *. cbn in *.
      split_and!; try done; try lia. }
  assert (count t ino = nd_lookup_count node) as Hc.
  { unfold count, views. by rewrite Hnode. }
  unfold sat_sub64 in Hf.
  destruct (Z.ltb_spec 0 (Z.max 0 (nd_lookup_count node - n))); injection Hf as <- <-.
  - split_and!; try done.
    + intros id Hid. unfold views. cbn [upd_node nt_nodes]. by rewrite lookup_alter_ne.
    + unfold count, views in *. cbn [upd_node nt_nodes]. rewrite lookup_alter_eq, Hnode in *.
      cbn in *. lia.
    + intros _. unfold count, views in *. cbn [upd_node nt_nodes]. rewrite lookup_alter_eq, Hnode in *.
      cbn in *. split; [done|]. lia.
  - assert (∀ id, views (foldl (unname ino) (MkNodes (delete ino (nt_nodes t))
        match nd_key node with Some key => delete key (nt_by_key t) | None => nt_by_key t end)
        (nd_aliases node)) id = if decide (id = ino) then None else views t id) as Hv.
    { intros id. rewrite views_unname_all. unfold views. cbn [nt_nodes].
      rewrite lookup_delete. case_decide; subst; case_decide; done. }
    split_and!; try done.
    + intros id Hid. rewrite Hv. by rewrite decide_False.
    + unfold count at 1. rewrite Hv, decide_True by done. cbn. lia.
    + intros _. rewrite Hv. by rewrite decide_True.
Qed.

(** ** What a program does *)

(** The nodes a request names. *)
Definition subjects (r : KernelRequest) : list Z :=
  match r with
  | K_lookup ino _ | K_getattr ino _ | K_setattr ino _ _ _ _ _ _ _ | K_readlink ino
  | K_mknod ino _ _ _ | K_mkdir ino _ _ | K_unlink ino _ | K_rmdir ino _ | K_symlink ino _ _
  | K_open ino _ _ | K_create ino _ _ _ _ | K_read ino _ _ _ _ | K_write ino _ _ _
  | K_copy_file_range _ _ ino _ _ _ _ | K_fallocate ino _ _ _ _ | K_lseek ino _ _ _
  | K_release ino _ | K_fsync ino _ _ | K_opendir ino _ | K_readdir ino _ _ _
  | K_readdirplus ino _ _ _ | K_fsyncdir ino _ _ | K_releasedir ino _ | K_statfs ino
  | K_setxattr ino _ _ _ _ | K_getxattr ino _ _ | K_listxattr ino _ | K_removexattr ino _
  | K_access ino _ | K_ioctl ino => [ino]
  | K_rename parent _ newparent _ _ => [parent; newparent]
  | K_link ino newparent _ => [ino; newparent]
  | K_forget _ _ | K_flush => []
  end.

Definition label_subject (l : Label) : option Z :=
  match l with
  | L_getattr ino _ | L_setattr ino _ _ | L_open ino _ _ | L_opendir ino _ => Some ino
  | L_fallocate _ _ _ _ _ => None
  end.

Definition is_dots (name : list byte) : bool :=
  bool_decide (name = [dot]) || bool_decide (name = [dot; dot]).

(** The attributes a reply gives the kernel of files, the dots' placeholders aside. *)
Definition shown (r : FuseReply) : list FileAttr :=
  match r with
  | FR_Entry _ _ fa | FR_Attr _ fa | FR_Created _ fa _ => [fa]
  | FR_DirectoryPlus es => pp_attr <$> filter (λ e, is_dots (pp_name e) = false) es
  | _ => []
  end.

(** The nodes a reply tells the kernel of, each once for every lookup. *)
Definition told_nodes (r : FuseReply) : list Z :=
  match r with
  | FR_Entry _ _ _ | FR_Created _ _ _ | FR_DirectoryPlus _ => fa_ino <$> shown r
  | _ => []
  end.

Fixpoint occurrences (id : Z) (l : list Z) : Z :=
  match l with [] => 0 | i :: l => b2z (i =? id) + occurrences id l end.
Definition told (r : FuseReply) (id : Z) : Z := occurrences id (told_nodes r).

(** A request sent to the server and what came of it. *)
Definition Sending : Type := Request * result Error Response.

(** What a task has to its name: the lookups it registered and has not told the kernel
    of (or, of a forget, still has to give back), the files it identified, the last
    request it sent, and the nodes whose cached attributes it still has to drop. *)
Record Ghost := MkGhost {
  g_owed : Z → Z;
  g_keys : list (Z * KeyNode);
  g_sent : option Sending;
  g_xattrs : list Z;
  g_reported : list Z }.

Definition g_start : Ghost := MkGhost (λ _, 0) [] None [] [].
Definition g_forgets (ino n : Z) : Ghost := MkGhost (λ id, if id =? ino then n else 0) [] None [] [].

(** The nodes that cannot go while the task runs. *)
Definition supported (subj : list Z) (g : Ghost) (id : Z) : Prop :=
  id = ROOT ∨ id ∈ subj ∨ 0 < g_owed g id.

Record ghost_ok (subj : list Z) (g : Ghost) : Prop := {
  gok_owed : ∀ id, 0 ≤ g_owed g id;
  gok_keys : ∀ id k, (id, k) ∈ g_keys g → id ≠ ROOT ∧ supported subj g id }.

Definition has_key (t : NodeTable) (id : Z) (k : KeyNode) : Prop := fst <$> views t id = Some (Some k).

(** A server's attributes have times a [SystemTime] holds. *)
Definition time_ok (t : TimeSpec) : Prop := is_i64 (ts_sec t) = true ∧ 0 ≤ ts_nsec t < NANOS.
Definition attr_ok (a : Attr) : Prop :=
  time_ok (a_atime a) ∧ time_ok (a_mtime a) ∧ time_ok (a_ctime a).
Definition entry_ok (e : DirEntry) : Prop := ∀ a, de_attr e = Some a → attr_ok a.
Definition buffer_ok (b : DirBuffer) : Prop := ∀ ce, ce ∈ b → entry_ok ce.2.
Definition outcome_ok (r : result Error Response) : Prop :=
  match r with
  | Ok (Resp_Entry a) | Ok (Resp_Attr a) | Ok (Resp_Opened a) => attr_ok a
  | Ok (Resp_Readdir es _) => ∀ e, e ∈ es → entry_ok e
  | _ => True
  end.

(** So have those buffered. *)
Definition buffers_ok (s : Shared) : Prop :=
  ∀ fh st, sh_dirs s !! fh = Some st → buffer_ok (ds_buffer st).

(** What a task may take for granted when it takes a step. *)
Record pre (subj : list Z) (g : Ghost) (s : Shared) : Prop := {
  pre_keys_ok : keys_ok (sh_nodes s);
  pre_small : Z.of_nat (size (nt_nodes (sh_nodes s))) < 2 ^ 64 - 3;
  pre_ghost : ghost_ok subj g;
  pre_supported : ∀ id, supported subj g id → is_Some (nt_nodes (sh_nodes s) !! id);
  pre_owed : ∀ id, id ≠ ROOT → g_owed g id ≤ count (sh_nodes s) id;
  pre_facts : ∀ id k, (id, k) ∈ g_keys g → has_key (sh_nodes s) id k;
  pre_buffers : buffers_ok s }.

(** The cache keeps to the nodes, or to what a task is about to drop. *)
Definition kept {A} (m m' : gmap Z A) (t t' : NodeTable) (drops drops' : list Z) : Prop :=
  ∀ id, is_Some (m' !! id) →
    is_Some (nt_nodes t' !! id) ∨ id ∈ drops'
    ∨ (is_Some (m !! id) ∧ nt_nodes t !! id = None ∧ id ∉ drops).

(** What a step of a task does. *)
Record guarantee (subj : list Z) (g : Ghost) (s : Shared) (g' : Ghost) (s' : Shared) : Prop := {
  gt_ghost : ghost_ok subj g';
  gt_sent : g_sent g' = g_sent g;
  gt_keys_ok : keys_ok (sh_nodes s');
  gt_count : ∀ id, id ≠ ROOT →
    count (sh_nodes s') id - count (sh_nodes s) id = g_owed g' id - g_owed g id;
  gt_present : ∀ id, id ≠ ROOT → is_Some (nt_nodes (sh_nodes s') !! id) →
    0 < count (sh_nodes s') id ∨ views (sh_nodes s') id = views (sh_nodes s) id;
  gt_stable : ∀ id v v', id ≠ ROOT →
    views (sh_nodes s) id = Some v → views (sh_nodes s') id = Some v' → v'.1 = v.1;
  gt_facts : ∀ id k, (id, k) ∈ g_keys g' → has_key (sh_nodes s') id k;
  gt_xattrs : kept (sh_xattrs s) (sh_xattrs s') (sh_nodes s) (sh_nodes s') (g_xattrs g) (g_xattrs g');
  gt_reported :
    kept (sh_reported s) (sh_reported s') (sh_nodes s) (sh_nodes s') (g_reported g) (g_reported g');
  gt_buffers : buffers_ok s' }.

(** A reply shows attributes of the file the node is: one the task identified.  A reply
    to a request by handle shows what the server answered of the handle's file, which
    nothing checks; and the root is what the server says it is. *)
Definition by_handle (req : Request) : Prop :=
  match req with
  | Req_Getattr _ fh | Req_Setattr _ fh _ => is_Some fh
  | _ => False
  end.
Definition answers_attr (out : result Error Response) (attr : Attr) : Prop :=
  out = Ok (Resp_Attr attr) ∨ out = Ok (Resp_Entry attr).

Definition own_attr (g : Ghost) (ino : Z) (attr : Attr) : Prop :=
  ino = ROOT ∨ (ino, KeyNode_of attr) ∈ g_keys g
  ∨ ∃ req out, g_sent g = Some (req, out) ∧ by_handle req ∧ answers_attr out attr.
Definition shows_own (g : Ghost) (fa : FileAttr) : Prop :=
  ∃ attr, file_attr (fa_ino fa) attr = Some fa ∧ own_attr g (fa_ino fa) attr.

(** The reply to a time flush that was not sent, which the kernel ignores. *)
Definition placeholder (r : FuseReply) : Prop :=
  ∃ ino, r = FR_Attr 0 (unlinked_placeholder ino).

Definition g_call (req : Request) (out : result Error Response) (g : Ghost) : Ghost :=
  MkGhost (g_owed g) (g_keys g) (Some (req, out)) (g_xattrs g) (g_reported g).

Definition g_done (g : Ghost) : Prop := g_xattrs g = [] ∧ g_reported g = [].

Fixpoint safe (subj : list Z) (g : Ghost) (p : Prog) : Prop :=
  match p with
  | Reply r =>
      g_done g ∧ (∀ id, id ≠ ROOT → told r id = g_owed g id)
      ∧ (placeholder r ∨ ∀ fa, fa ∈ shown r → shows_own g fa)
  | Panic => False
  | Atom step => ∀ now s, pre subj g s →
      let '(s', p') := step now s in ∃ g', guarantee subj g s g' s' ∧ safe subj g' p'
  | Call req k => ∀ r, outcome_ok r → safe subj (g_call req r g) (k r)
  | Goto l => g_done g ∧ (∀ id, id ≠ ROOT → g_owed g id = 0)
      ∧ (∀ id, label_subject l = Some id → id ∈ subj)
  end.

(** ** Combinators *)

Lemma system_time_ok t : time_ok t → is_Some (system_time t).
Proof.
  intros [Hs Hn]. unfold system_time, systime_checked.
  rewrite Z.div_mul, Hs by (unfold NANOS; lia). cbn.
  replace ((ts_sec t * NANOS + ts_nsec t) / NANOS) with (ts_sec t).
  - rewrite Hs. by eexists.
  - rewrite Z.add_comm, Z.div_add, (Z.div_small (ts_nsec t)) by (unfold NANOS in *; lia). lia.
Qed.

Lemma file_attr_ok id a : attr_ok a → ∃ fa, file_attr id a = Some fa ∧ fa_ino fa = id.
Proof.
  intros (Ha & Hm & Hc). unfold file_attr.
  destruct (system_time_ok _ Ha) as [? ->], (system_time_ok _ Hm) as [? ->],
    (system_time_ok _ Hc) as [? ->]. cbn. eauto.
Qed.

Section combinators.
Context (subj : list Z).

(** A step that leaves nodes and caches as they are. *)
Definition inert (s s' : Shared) : Prop :=
  sh_nodes s' = sh_nodes s ∧ sh_xattrs s' = sh_xattrs s ∧ sh_reported s' = sh_reported s
  ∧ (buffers_ok s → buffers_ok s').

Lemma kept_refl {A} (m : gmap Z A) t t' drops :
  (∀ id, is_Some (nt_nodes t !! id) → is_Some (nt_nodes t' !! id)) → kept m m t t' drops drops.
Proof.
  intros Ht id Hm. destruct (nt_nodes t !! id) as [n|] eqn:Hn; [left; apply Ht; eauto|].
  destruct (decide (id ∈ drops)); auto.
Qed.

Lemma has_key_views t t' id k : views t' id = views t id → has_key t id k → has_key t' id k.
Proof. unfold has_key. by intros ->. Qed.

Lemma views_some t id : is_Some (views t id) ↔ is_Some (nt_nodes t !! id).
Proof. unfold views. by rewrite fmap_is_Some. Qed.

Lemma count_views t t' id : views t' id = views t id → count t' id = count t id.
Proof. unfold count. by intros ->. Qed.

(** A step that keeps every count and key but the root's, and drops at most what is
    cached. *)
Lemma quiet_guarantee g s s' :
  pre subj g s →
  keys_ok (sh_nodes s') →
  (∀ id, id ≠ ROOT → views (sh_nodes s') id = views (sh_nodes s) id) →
  (∀ id, is_Some (sh_xattrs s' !! id) → is_Some (sh_xattrs s !! id) ∨ supported subj g id) →
  (∀ id, is_Some (sh_reported s' !! id) → is_Some (sh_reported s !! id) ∨ supported subj g id) →
  buffers_ok s' →
  guarantee subj g s g s'.
Proof.
  intros [Hk Hsm Hg Hsup How Hf _] Hk' Hv Hx Hr Hb.
  assert (∀ id, is_Some (nt_nodes (sh_nodes s) !! id) ↔ is_Some (nt_nodes (sh_nodes s') !! id)) as Hdom.
  { intros id. destruct (decide (id = ROOT)) as [->|Hne].
    - split; intros _; [apply (kok_root _ Hk')|apply (kok_root _ Hk)].
    - by rewrite <- !views_some, (Hv id Hne). }
  split; try done.
  - intros id Hne. rewrite (count_views _ _ _ (Hv id Hne)). lia.
  - intros id Hne _. right. by apply Hv.
  - intros id v v' Hne H1 H2. rewrite (Hv id Hne) in H2. congruence.
  - intros id k Hin. destruct (gok_keys _ _ Hg id k Hin) as [Hne _].
    eapply has_key_views; [by apply Hv|]. by apply Hf.
  - intros id Hi. destruct (decide (is_Some (nt_nodes (sh_nodes s) !! id))) as [H1|H1].
    + left. by apply Hdom.
    + destruct (Hx id Hi) as [H2|H2]; [|exfalso; by apply H1, Hsup].
      destruct (decide (id ∈ g_xattrs g)); [auto|]. right. right. split_and!; [done| |done].
      by apply eq_None_not_Some.
  - intros id Hi. destruct (decide (is_Some (nt_nodes (sh_nodes s) !! id))) as [H1|H1].
    + left. by apply Hdom.
    + destruct (Hr id Hi) as [H2|H2]; [|exfalso; by apply H1, Hsup].
      destruct (decide (id ∈ g_reported g)); [auto|]. right. right. split_and!; [done| |done].
      by apply eq_None_not_Some.
Qed.

Lemma inert_guarantee g s s' : pre subj g s → inert s s' → guarantee subj g s g s'.
Proof.
  intros Hp (H1 & H2 & H3 & H4).
  apply quiet_guarantee; [done| | | | |by apply H4, (pre_buffers _ _ _ Hp)];
    rewrite ?H1, ?H2, ?H3; auto.
  apply (pre_keys_ok _ _ _ Hp).
Qed.

Lemma safe_atom_inert g step :
  (∀ now s, pre subj g s → inert s (step now s).1 ∧ safe subj g (step now s).2) →
  safe subj g (Atom step).
Proof.
  intros H now s Hp. specialize (H now s Hp). destruct (step now s) as [s' p]. destruct H as [Hi Hs].
  exists g. split; [by apply inert_guarantee|done].
Qed.

Lemma safe_look {X} g (f : Shared → X) k :
  (∀ s, pre subj g s → safe subj g (k (f s))) → safe subj g (look f k).
Proof. intros H. apply safe_atom_inert. intros now s Hp. split; [done|]. by apply H. Qed.

Lemma safe_change g f p :
  (∀ s, inert s (f s)) → safe subj g p → safe subj g (change f p).
Proof. intros Hf Hp. apply safe_atom_inert. intros now s _. split; [apply Hf|done]. Qed.

Lemma safe_queue g w k : (∀ b, safe subj g (k b)) → safe subj g (queue w k).
Proof.
  intros H. apply safe_atom_inert. intros now s _. destruct (sh_invalidations s); [|split; [done|apply H]].
  destruct (try_send _ w); (split; [done|apply H]).
Qed.

Lemma safe_queue_all g aliases k : (∀ b, safe subj g (k b)) → safe subj g (queue_all aliases k).
Proof.
  intros H. induction aliases as [|[p n] l IH]; [apply H|]. cbn [queue_all].
  apply safe_queue. by intros [].
Qed.

Lemma safe_drop_by_name g ino k : (∀ b, safe subj g (k b)) → safe subj g (drop_by_name ino k).
Proof.
  intros H. apply safe_look. intros s _. apply safe_look. intros s' _.
  destruct (sh_invalidations s'); [by apply safe_queue_all|done].
Qed.

(** A step of the caches alone: what it adds is about a node that cannot go. *)
Lemma safe_caches g step :
  (∀ now s, pre subj g s →
     sh_nodes (step now s).1 = sh_nodes s ∧ sh_dirs (step now s).1 = sh_dirs s
     ∧ (∀ id, is_Some (sh_xattrs (step now s).1 !! id) →
          is_Some (sh_xattrs s !! id) ∨ supported subj g id)
     ∧ (∀ id, is_Some (sh_reported (step now s).1 !! id) →
          is_Some (sh_reported s !! id) ∨ supported subj g id)
     ∧ safe subj g (step now s).2) →
  safe subj g (Atom step).
Proof.
  intros H now s Hp. specialize (H now s Hp). destruct (step now s) as [s' p].
  destruct H as (Hn & Hd & Hx & Hr & Hs). cbn [fst snd] in *. exists g. split; [|done].
  apply quiet_guarantee; rewrite ?Hn; auto; [apply (pre_keys_ok _ _ _ Hp)|].
  unfold buffers_ok. rewrite Hd. apply (pre_buffers _ _ _ Hp).
Qed.

Lemma insert_some {A} (m : gmap Z A) i x id :
  is_Some (<[i := x]> m !! id) → is_Some (m !! id) ∨ id = i.
Proof. rewrite lookup_insert_is_Some. naive_solver. Qed.
Lemma delete_some {A} (m : gmap Z A) i id : is_Some (delete i m !! id) → is_Some (m !! id).
Proof. rewrite lookup_delete_is_Some. tauto. Qed.
#[local] Hint Resolve delete_some : core.

Lemma safe_xattr_remember cfg g id attr p :
  supported subj g id → safe subj g p → safe subj g (xattr_remember cfg id attr p).
Proof.
  intros Hs Hp. apply safe_caches. intros now s _. cbn. split_and!; [done|done| |auto|done].
  unfold remembered. destruct (a_xattr_names attr); intros i Hi; [|left; eauto].
  apply insert_some in Hi as [Hi| ->]; auto.
Qed.

Lemma safe_xattr_forget g ino p : safe subj g p → safe subj g (xattr_forget ino p).
Proof. intros Hp. apply safe_caches. intros now s _. cbn. split_and!; eauto. Qed.

Lemma safe_reported_forget g ino p : safe subj g p → safe subj g (reported_forget ino p).
Proof. intros Hp. apply safe_caches. intros now s _. cbn. split_and!; eauto. Qed.

Lemma safe_reported_insert g ino attr p :
  supported subj g ino → safe subj g p → safe subj g (reported_insert ino attr p).
Proof.
  intros Hs Hp. apply safe_caches. intros now s _. cbn. split_and!; [done|done|auto| |done].
  intros i Hi. apply insert_some in Hi as [Hi| ->]; auto.
Qed.

Lemma safe_attr_reported g id attr p :
  supported subj g id → safe subj g p → safe subj g (attr_reported id attr p).
Proof.
  intros Hs Hp. unfold attr_reported. destruct (negb _); [done|]. apply safe_caches.
  intros now s _. destruct (sh_reported s !! id) as [before|] eqn:Hb; cbn [fst snd].
  - split_and!; auto. case_bool_decide; [done|]. apply safe_look. intros s' _.
    destruct (any_live_for _ _); [done|]. apply safe_drop_by_name. intros []; [|done].
    by apply safe_reported_insert.
  - split_and!; auto. cbn. intros i Hi. apply insert_some in Hi as [Hi| ->]; auto.
Qed.

(** A step of the node table that keeps counts and keys. *)
Lemma safe_nodes g step :
  (∀ now s, pre subj g s →
     inert (with_nodes (sh_nodes (step now s).1) s) (step now s).1
     ∧ keys_ok (sh_nodes (step now s).1)
     ∧ (∀ id, id ≠ ROOT → views (sh_nodes (step now s).1) id = views (sh_nodes s) id)
     ∧ safe subj g (step now s).2) →
  safe subj g (Atom step).
Proof.
  intros H now s Hp. specialize (H now s Hp). destruct (step now s) as [s' p].
  destruct H as ((_ & Hx & Hr & Hb) & Hk & Hv & Hs). cbn [fst snd] in *. exists g. split; [|done].
  apply quiet_guarantee; try done; [| |by apply Hb, (pre_buffers _ _ _ Hp)];
    cbn in *; rewrite ?Hx, ?Hr; auto.
Qed.

Lemma alias_was_wrong_keys t id path : keys_ok t → keys_ok (alias_was_wrong t id path).2.
Proof. intros Hk. by eapply (run_node_op_keys t (NOp_alias_was_wrong id path)). Qed.

Lemma safe_alias_was_wrong g id path p :
  safe subj g p → safe subj g (shared_alias_was_wrong id path p).
Proof.
  intros Hs. apply safe_nodes. intros now s Hp.
  pose proof (alias_was_wrong_keys (sh_nodes s) id path (pre_keys_ok _ _ _ Hp)) as Hk.
  pose proof (views_alias_was_wrong (sh_nodes s) id path) as Hv.
  destruct (alias_was_wrong (sh_nodes s) id path) as [alias t]. cbn [fst snd] in *.
  split_and!; [done|done|intros; apply Hv|].
  destruct alias as [[parent name]|]; [by apply safe_queue|done].
Qed.

(** ** Files identified *)

Definition g_know (id : Z) (k : KeyNode) (g : Ghost) : Ghost :=
  MkGhost (g_owed g) ((id, k) :: g_keys g) (g_sent g) (g_xattrs g) (g_reported g).

(** One lookup registered, of the file [k]. *)
Definition g_add (id : Z) (k : KeyNode) (g : Ghost) : Ghost :=
  MkGhost (λ i, g_owed g i + b2z (id =? i)) ((id, k) :: g_keys g) (g_sent g)
    (g_xattrs g) (g_reported g).

Lemma know_guarantee g s id k :
  pre subj g s → id ≠ ROOT → supported subj g id → has_key (sh_nodes s) id k →
  guarantee subj g s (g_know id k g) s.
Proof.
  intros Hp Hne Hs Hk. destruct (inert_guarantee g s s Hp) as [G1 G2 G3 G4 G5 G6 G7 G8 G9 G10];
    [done|].
  split; try done.
  - destruct G1 as [Ho Hkk]. split; [done|]. intros i k' Hin. cbn in Hin.
    apply elem_of_cons in Hin as [[= -> ->]|Hin]; [done|by eapply Hkk].
  - intros i k' Hin. cbn in Hin. apply elem_of_cons in Hin as [[= -> ->]|Hin]; [done|by apply G7].
Qed.

Lemma safe_describes g id attr k :
  id ∈ subj →
  (id = ROOT → safe subj g (k true)) →
  (id ≠ ROOT → safe subj (g_know id (KeyNode_of attr) g) (k true)) →
  safe subj g (k false) →
  safe subj g (shared_describes id attr k).
Proof.
  intros Hin Hr Hy Hn. unfold shared_describes. destruct (Z.eqb_spec id ROOT) as [E|Hne]; [auto|].
  intros now s Hp. destruct (node_describes (sh_nodes s) id attr) eqn:Hd.
  - exists (g_know id (KeyNode_of attr) g). split; [|auto].
    apply know_guarantee; [done|done|right; by left|]. unfold node_describes in Hd.
    unfold has_key, views. destruct (nt_nodes (sh_nodes s) !! id) as [n|]; cbn in *; [|done].
    destruct (nd_key n) as [key|]; [|done]. apply describes_of in Hd as ->. done.
  - exists g. split; [by apply inert_guarantee|done].
Qed.

Lemma ghost_ok_add g id k :
  ghost_ok subj g → id ≠ ROOT → ghost_ok subj (g_add id k g).
Proof.
  intros [Ho Hk] Hne. split; cbn.
  - intros i. pose proof (Ho i). pose proof (b2z_range (id =? i)). lia.
  - intros i k' Hin. apply elem_of_cons in Hin as [[= -> ->]|Hin].
    + split; [done|]. right. right. cbn. rewrite Z.eqb_refl. pose proof (Ho id). cbn. lia.
    + destruct (Hk i k' Hin) as [Hi Hs]. split; [done|]. destruct Hs as [?|[?|?]]; [by left|by right; left|].
      right. right. cbn. pose proof (b2z_range (id =? i)). lia.
Qed.

Lemma count_none t id : nt_nodes t !! id = None → count t id = 0.
Proof. unfold count, views. by intros ->. Qed.

Lemma insert_lookup_guarantee g s parent name attr id t :
  pre subj g s →
  insert_lookup (sh_nodes s) parent name (Seen_from attr) = Some (Some id, t) →
  id ≠ ROOT ∧ guarantee subj g s (g_add id (KeyNode_of attr) g) (with_nodes t s).
Proof.
  intros [Hk Hsm Hg Hsup How Hf Hb] Hi.
  pose proof (insert_lookup_keys _ _ _ _ _ _ Hk Hi) as Hk'.
  apply (insert_lookup_views _ _ _ _ _ _ Hk) in Hi as (Hne & _ & Hv & Hvo & Hkey).
  split; [done|].
  assert (0 ≤ count (sh_nodes s) id) as Hc0.
  { pose proof (How id Hne). pose proof (gok_owed _ _ Hg id). lia. }
  assert (count t id = count (sh_nodes s) id + 1) as Hc.
  { unfold count at 1. by rewrite Hv. }
  assert (∀ i, is_Some (nt_nodes (sh_nodes s) !! i) → is_Some (nt_nodes t !! i)) as Hdom.
  { intros i. rewrite <- !views_some. destruct (decide (i = id)) as [->|Hi];
      [by rewrite Hv|by rewrite Hvo]. }
  split; cbn [with_nodes sh_nodes sh_xattrs sh_reported g_add g_owed g_sent g_keys g_xattrs g_reported];
    try done.
  - by apply ghost_ok_add.
  - intros i Hi. destruct (Z.eqb_spec id i) as [->|Hii]; cbn; [lia|].
    rewrite (count_views _ _ _ (Hvo i (not_eq_sym Hii))). lia.
  - intros i Hi _. destruct (decide (i = id)) as [->|Hii]; [left; lia|right; by apply Hvo].
  - intros i v v' Hi H1 H2. destruct (decide (i = id)) as [->|Hii].
    + rewrite Hv in H2. injection H2 as <-. unfold views in H1.
      destruct (nt_nodes (sh_nodes s) !! id) as [n|] eqn:Hn; cbn in H1; [|done]. injection H1 as <-.
      cbn. symmetry. by apply Hkey.
    + rewrite (Hvo i Hii) in H2. congruence.
  - intros i k Hin. apply elem_of_cons in Hin as [[= -> ->]|Hin].
    + unfold has_key. by rewrite Hv.
    + destruct (decide (i = id)) as [->|Hii]; [|eapply has_key_views; [by apply Hvo|by apply Hf]].
      specialize (Hf id k Hin). unfold has_key in *. rewrite Hv. cbn. unfold views in Hf.
      destruct (nt_nodes (sh_nodes s) !! id) as [n|] eqn:Hn; cbn in Hf; [|done].
      rewrite <- (Hkey n eq_refl). by injection Hf as ->.
  - by apply kept_refl.
  - by apply kept_refl.
Qed.

Lemma supported_add g id k : 0 ≤ g_owed g id → supported subj (g_add id k g) id.
Proof. intros H. right. right. cbn. rewrite Z.eqb_refl. cbn. lia. Qed.

Lemma safe_register cfg g parent name attr k :
  (∀ id, id ≠ ROOT → safe subj (g_add id (KeyNode_of attr) g) (k (Ok id))) →
  safe subj g (k (Err EIO)) →
  safe subj g (register cfg parent name attr k).
Proof.
  intros Hok Herr now s Hp.
  destruct (insert_lookup (sh_nodes s) parent name (Seen_from attr)) as [[[id|] t]|] eqn:Hi.
  - destruct (insert_lookup_guarantee g s parent name attr id t Hp Hi) as [Hne Hg].
    assert (0 ≤ g_owed g id) as H0 by (apply (pre_ghost _ _ _ Hp)).
    eexists. split; [exact Hg|]. apply safe_xattr_remember; [by apply supported_add|].
    apply safe_attr_reported; [by apply supported_add|]. auto.
  - apply (insert_lookup_views _ _ _ _ _ _ (pre_keys_ok _ _ _ Hp)) in Hi as [-> _].
    exists g. split; [|done]. apply inert_guarantee; done.
  - exfalso. unfold insert_lookup in Hi.
    destruct (id_for_total (sh_nodes s) (Seen_from attr) (pre_small _ _ _ Hp)) as [id Hid].
    rewrite Hid in Hi. cbn in Hi. destruct (_ =? _); done.
Qed.

End combinators.

(** ** Calls *)

(** A task with nothing to its name. *)
Definition idle (g : Ghost) : Prop := g_done g ∧ (∀ id, id ≠ ROOT → g_owed g id = 0).

Lemma idle_start : idle g_start.
Proof. done. Qed.
Lemma idle_call g req out : idle g → idle (g_call req out g).
Proof. done. Qed.
Lemma idle_know g id k : idle g → idle (g_know id k g).
Proof. done. Qed.
#[export] Hint Resolve idle_start idle_call idle_know : jfs.

(** Replies that show no file. *)
Definition bare (r : FuseReply) : bool :=
  match r with
  | FR_Entry _ _ _ | FR_Attr _ _ | FR_Created _ _ _ | FR_DirectoryPlus _ => false
  | _ => true
  end.

Lemma safe_bare subj g r : idle g → bare r = true → safe subj g (Reply r).
Proof.
  intros [Hd Ho] Hb. cbn. split_and!; [done| |].
  - intros id Hne. rewrite (Ho id Hne). by destruct r.
  - right. intros fa Hfa. exfalso. destruct r; cbn in *; try done; by apply elem_of_nil in Hfa.
Qed.

Lemma safe_fail subj g e : idle g → safe subj g (fail e).
Proof. intros Hg. by apply safe_bare. Qed.
Lemma safe_fail_with subj g e : idle g → safe subj g (fail_with e).
Proof. intros Hg. by apply safe_bare. Qed.
Lemma safe_ok subj g : idle g → safe subj g (Reply FR_Ok).
Proof. intros Hg. by apply safe_bare. Qed.
Lemma safe_ok_or subj g r : idle g → safe subj g (reply_ok_or r).
Proof. intros Hg. destruct r; by apply safe_bare. Qed.
#[export] Hint Resolve safe_fail safe_fail_with safe_ok safe_ok_or : jfs.
#[export] Hint Extern 1 (safe _ _ (Reply _)) => (apply safe_bare; [eauto with jfs|done]) : jfs.

(** A wrapper's result, when the outcome was fit to be one. *)
Definition taken_ok {X} (ok : X → Prop) (r : result Error X) : Prop :=
  match r with Ok x => ok x | Err _ => True end.

Lemma safe_call_as {X} subj g (take : Response → result Error X) (ok : X → Prop) req k :
  (∀ resp x, outcome_ok (Ok resp) → take resp = Ok x → ok x) →
  (∀ out r, taken_ok ok r → r = out ≫= take → safe subj (g_call req out g) (k r)) →
  safe subj g (call_as take req k).
Proof.
  intros Ht Hk r Hr. apply Hk; [|done]. destruct r as [resp|e]; cbn; [|done].
  destruct (take resp) eqn:E; cbn; [|done]. by eapply Ht.
Qed.

Lemma reply_attr_answers out attr : out ≫= reply_attr = Ok attr → answers_attr out attr.
Proof. destruct out as [[]|]; cbn; intros [=]; subst; [by right|by left]. Qed.

Lemma safe_call_attr subj g req k :
  (∀ out attr, attr_ok attr → answers_attr out attr → safe subj (g_call req out g) (k (Ok attr))) →
  (∀ out e, safe subj (g_call req out g) (k (Err e))) →
  safe subj g (call_attr req k).
Proof.
  intros Hok Herr. apply (safe_call_as _ _ _ attr_ok).
  - intros [] x; cbn; intros; simplify_eq; done.
  - intros out [attr|e] Ha Hr; [|apply Herr]. apply Hok; [done|]. by apply reply_attr_answers.
Qed.

Lemma safe_call_any {X} subj g (take : Response → result Error X) req k :
  (∀ out r, safe subj (g_call req out g) (k r)) → safe subj g (call_as take req k).
Proof. intros H r _. apply H. Qed.

Lemma safe_file_attr subj g id attr k :
  attr_ok attr → (∀ fa, file_attr id attr = Some fa → fa_ino fa = id → safe subj g (k fa)) →
  safe subj g (with_file_attr id attr k).
Proof.
  intros Ha Hk. unfold with_file_attr. destruct (file_attr_ok id attr Ha) as (fa & Hf & Hi).
  rewrite Hf. eauto.
Qed.

Lemma owe_release_some t kind fh : is_Some (owe_release t (release_request kind fh)).
Proof. destruct kind; cbn; destruct (ht_owed t !! fh); by eexists. Qed.

(** How the end of an open settles. *)
Lemma open_handle_end_said t fh path flags kind opener said opened :
  ∃ r t', open_handle_end t fh path flags kind opener (λ _, default (Err Error_Stale) said) opened
          = Some (r, t')
    ∧ match open_settled opened, opened with
      | Settle_Keep, Ok (Resp_Opened attr) =>
          match said with
          | Some (Ok _) => r = Ok (fh, attr)
          | Some (Err e) => r = Err e
          | None => True
          end
      | _, _ => ∃ e, r = Err e
      end.
Proof.
  unfold open_handle_end. destruct (owe_release_some t kind fh) as [t' Ht'].
  destruct opened as [[]|[]]; cbn; rewrite ?Ht'; cbn; eauto.
  destruct said as [[|]|]; cbn; rewrite ?Ht'; cbn; eauto.
Qed.

Lemma safe_open_handle subj g path flags kind opener build node k
    (Q : Z → Attr → Ghost → result Error Z → Prop) :
  (∀ fh attr kont, attr_ok attr →
     (∀ g' r, Q fh attr g' r → safe subj g' (kont r)) →
     ∀ out, safe subj (g_call (build fh) out g) (node attr kont)) →
  (∀ fh attr g' id, attr_ok attr → Q fh attr g' (Ok id) →
     safe subj g' (k (Ok (fh, attr)) (Some (Ok id)))) →
  (∀ fh attr g' e, Q fh attr g' (Err e) → safe subj g' (k (Err e) (Some (Err e)))) →
  (∀ fh out e, safe subj (g_call (build fh) out g) (k (Err e) None)) →
  safe subj g (open_handle path flags kind opener build node k).
Proof.
  intros Hnode Hok Herr Hnone. apply safe_atom_inert. intros now s _.
  destruct (ht_alloc (sh_handles s)) as [fh h]. split; [done|]. cbn [snd]. intros opened Ho.
  assert (∀ g' said, match open_settled opened, opened with
      | Settle_Keep, Ok (Resp_Opened attr) =>
          match said with Some r => Q fh attr g' r | None => False end
      | _, _ => said = None ∧ g' = g_call (build fh) opened g end →
    safe subj g' (Atom (λ _ s,
      match open_handle_end (sh_handles s) fh path flags kind opener
              (λ _, default (Err Error_Stale) said) opened with
      | Some (r, h) => (with_handles h s, k r said)
      | None => (s, Panic)
      end))) as Hsettle.
  { intros g' said Hs. apply safe_atom_inert. intros now' s' _.
    destruct (open_handle_end_said (sh_handles s') fh path flags kind opener said opened)
      as (r & t' & -> & Hr). split; [done|]. cbn [snd].
    destruct opened as [[]|[]]; cbn [open_settled] in *;
      try (destruct Hr as [e ->], Hs as [-> ->]; apply Hnone).
    destruct said as [[id|e]|]; subst; eauto; done. }
  destruct opened as [[]|[]]; cbn [open_settled] in Hsettle |- *; try (by apply Hsettle).
  apply Hnode; [done|]. intros g' r HQ. by apply Hsettle.
Qed.

Lemma safe_client_release subj g fh req k :
  match req with Req_Release _ _ | Req_Releasedir _ _ => True | _ => False end →
  (∀ g' r, idle g' → safe subj g' (k r)) → idle g → safe subj g (client_release fh req k).
Proof.
  intros Hreq Hk Hg. apply safe_atom_inert. intros now s _.
  destruct (release_begins (sh_handles s) fh) as [[|] h]; (split; [done|]); cbn [snd]; [|by apply Hk].
  intros r _. apply safe_atom_inert. intros now' s' _.
  assert (is_Some (release_end (sh_handles s') req r)) as [[out h'] ->].
  { unfold release_end. destruct (release_owed r); cbn; [|by eexists].
    destruct req; try done; cbn; destruct (ht_owed _ !! _); by eexists. }
  split; [done|]. cbn [snd]. apply Hk. by apply idle_call.
Qed.
