(* ===== verification/FuseSafe.v ===== *)
(** * The front end's handlers keep the invariants ([crates/client/src/fuse.rs])

    Every handler of [Fuse.v], and every turn of its loops, is [safe]; the step
    relation of the worlds; and what follows of every reachable one: the node table
    is exactly what the kernel holds, and a node's attributes are its own file's. *)

From S2P Require Import Prelude Types Msg ClientTypes ClientHandles Machine Caller Inodes Codec.
From S2P Require Import Float Readahead Fuse FuseInv.

(** ** Handlers *)

Section handlers.
Context (cfg : Config) (subj : list Z).

Lemma safe_with_name g os k : idle g → (∀ name, safe subj g (k name)) → safe subj g (with_name os k).
Proof. intros Hg Hk. unfold with_name. destruct (name_of os); eauto with jfs. Qed.

Lemma safe_with_path g ino k : idle g → (∀ path, safe subj g (k path)) → safe subj g (with_path ino k).
Proof.
  intros Hg Hk. apply safe_look. intros s _. destruct (path_of _ _); eauto with jfs.
Qed.

Lemma safe_path_for_handle_op g ino fh k :
  (∀ r, safe subj g (k r)) → safe subj g (path_for_handle_op ino fh k).
Proof.
  intros Hk. apply safe_look. intros s _. destruct (path_of _ _), fh; try apply Hk.
  apply safe_look. intros s' _. destruct (any_live_for _ _); apply Hk.
Qed.

Lemma inert_dirs s d :
  (∀ fh st, d !! fh = Some st → ∃ st0, sh_dirs s !! fh = Some st0
     ∧ (ds_buffer st = ds_buffer st0 ∨ ds_buffer st = [])) →
  inert s (with_dirs d s).
Proof.
  intros H. split_and!; try done. intros Hb fh st Hst. cbn in Hst.
  destruct (H fh st Hst) as (st0 & H0 & [->| ->]); [by eapply Hb|].
  intros ce Hce. by apply elem_of_nil in Hce.
Qed.

Lemma safe_dir_grew g ino p : safe subj g p → safe subj g (dir_grew ino p).
Proof.
  intros Hp. apply safe_change; [|done]. intros s. apply inert_dirs. intros fh st Hst.
  rewrite lookup_fmap in Hst. destruct (sh_dirs s !! fh) as [st0|]; cbn in Hst; [|done].
  injection Hst as <-. exists st0. split; [done|]. left. unfold grown. by destruct (_ =? _).
Qed.

Lemma safe_alter_dir g f fh p :
  (∀ st, buffer_ok (ds_buffer st) → buffer_ok (ds_buffer (f st))) →
  safe subj g p → safe subj g (change (alter_dir f fh) p).
Proof.
  intros Hf Hp. apply safe_change; [|done]. intros s. split_and!; try done. intros Hb fh' st Hst.
  cbn in Hst. rewrite lookup_alter in Hst. case_decide; subst; [|by eapply Hb].
  destruct (sh_dirs s !! fh') as [st0|] eqn:H0; cbn in Hst; [|done]. injection Hst as <-.
  eapply Hf, Hb, H0.
Qed.

Lemma safe_stash g fh rest p : buffer_ok rest → safe subj g p → safe subj g (stash fh rest p).
Proof. intros Hr. by apply safe_alter_dir. Qed.

Lemma safe_note_end g fh last ended p : safe subj g p → safe subj g (note_end fh last ended p).
Proof. intros Hp. unfold note_end. destruct last; [|done]. by apply safe_alter_dir. Qed.

(** The reply that tells the kernel of the one lookup registered. *)
Lemma told_one id : occurrences id [id] = 1.
Proof. cbn. by rewrite Z.eqb_refl. Qed.

Lemma safe_entry_reply g id attr fa r :
  idle g → shown r = [fa] → told_nodes r = [fa_ino fa] →
  file_attr id attr = Some fa → fa_ino fa = id →
  safe subj (g_add id (KeyNode_of attr) g) (Reply r).
Proof.
  intros [Hd Ho] Hs Ht Hf Hi. cbn [safe]. split_and!; [done| |].
  - intros i Hne. unfold told. rewrite Ht, Hi. cbn. rewrite (Ho i Hne). lia.
  - right. rewrite Hs. intros fa' Hfa. apply list_elem_of_singleton in Hfa as ->.
    exists attr. rewrite Hi. split; [done|]. right; left. cbn. by left.
Qed.

Lemma safe_reply_entry g parent name attr :
  idle g → attr_ok attr → safe subj g (reply_entry cfg parent name attr).
Proof.
  intros Hg Ha. apply safe_register; [|eauto with jfs]. intros id Hne.
  apply safe_file_attr; [done|]. intros fa Hf Hi. by eapply safe_entry_reply.
Qed.

Lemma safe_reply_created g parent name attr :
  idle g → attr_ok attr → safe subj g (reply_created cfg parent name attr).
Proof. intros Hg Ha. apply safe_dir_grew. by apply safe_reply_entry. Qed.

Lemma safe_lookup g parent name : idle g → safe subj g (fuse_lookup cfg parent name).
Proof.
  intros Hg. apply safe_with_name; [done|]. intros n. apply safe_with_path; [done|]. intros path.
  apply safe_call_attr; [|eauto with jfs]. intros out attr Hr _. apply safe_reply_entry; eauto with jfs.
Qed.

Lemma safe_making g parent os build : idle g → safe subj g (making cfg parent os build).
Proof.
  intros Hg. apply safe_with_name; [done|]. intros n. apply safe_with_path; [done|]. intros path.
  apply safe_call_attr; [|eauto with jfs]. intros out attr Hr _. apply safe_reply_created; eauto with jfs.
Qed.

Lemma safe_nodes_change g (f : NodeTable → NodeTable) p :
  (∀ t, keys_ok t → keys_ok (f t)) → (∀ t id, views (f t) id = views t id) →
  safe subj g p → safe subj g (change (λ s, with_nodes (f (sh_nodes s)) s) p).
Proof.
  intros Hk Hv Hp. apply safe_nodes. intros now s Hpre. split_and!; [done| |intros; apply Hv|done].
  apply Hk, (pre_keys_ok _ _ _ Hpre).
Qed.

Lemma safe_unmaking g parent os build : idle g → safe subj g (unmaking parent os build).
Proof.
  intros Hg. apply safe_with_name; [done|]. intros n. apply safe_with_path; [done|]. intros path.
  apply safe_call_any. intros ? [|e]; [|eauto with jfs].
  apply (safe_nodes_change _ (λ t, unlink t parent n)).
  - intros t. apply unlink_keys.
  - intros t id. apply views_unlink.
  - eauto with jfs.
Qed.

Lemma safe_rename g parent os newparent newos flags :
  idle g → safe subj g (fuse_rename parent os newparent newos flags).
Proof.
  intros Hg. do 2 (apply safe_with_name; [done|]; intros ?). do 2 (apply safe_with_path; [done|]; intros ?).
  apply safe_call_any. intros ? [|e]; [|eauto with jfs].
  apply (safe_nodes_change _ (λ t, if negb (Z.land flags RENAME_EXCHANGE =? 0)
    then exchange_names t parent name newparent name0 else rename t parent name newparent name0)).
  - intros t Hk. destruct (negb _).
    + by eapply (run_node_op_keys t (NOp_exchange parent name newparent name0)).
    + by eapply (run_node_op_keys t (NOp_rename parent name newparent name0)).
  - intros t id. destruct (negb _); [apply views_exchange|apply views_rename].
  - apply safe_dir_grew. eauto with jfs.
Qed.

Lemma safe_link g ino newparent newos :
  ino ∈ subj → idle g → safe subj g (fuse_link cfg ino newparent newos).
Proof.
  intros Hin Hg. apply safe_with_name; [done|]. intros n. do 2 (apply safe_with_path; [done|]; intros ?).
  apply safe_call_attr; [|eauto with jfs]. intros out attr Hr _. apply safe_describes; [done|..]; intros.
  - apply safe_reply_created; eauto with jfs.
  - apply safe_reply_created; eauto with jfs.
  - apply safe_alias_was_wrong, safe_reply_created; eauto with jfs.
Qed.

(** The reply to a [getattr] or [setattr] that passed its check. *)
Lemma safe_attr_reply g ino attr valid :
  attr_ok attr → idle g →
  own_attr g ino attr →
  safe subj g (with_file_attr ino attr (λ fa, Reply (FR_Attr valid fa))).
Proof.
  intros Ha [Hd Ho] Hk. apply safe_file_attr; [done|]. intros fa Hf Hi. cbn [safe shown].
  split_and!; [done| |].
  - intros id Hne. by rewrite (Ho id Hne).
  - right. intros fa' Hfa. apply list_elem_of_singleton in Hfa as ->. exists attr. by rewrite Hi.
Qed.

Lemma safe_goto g l id : idle g → label_subject l = Some id → id ∈ subj → safe subj g (Goto l).
Proof. intros [Hd Ho] Hl Hin. cbn. split_and!; [done|done|]. intros i Hi. congruence. Qed.

Lemma subj_supported g id : id ∈ subj → supported subj g id.
Proof. intros. right. by left. Qed.
#[local] Hint Resolve subj_supported : jfs.

Lemma safe_root_seen g identity p :
  safe subj g p →
  safe subj g (Atom (λ _ s, match root_seen (sh_nodes s) identity with
                            | Some t => (with_nodes t s, p)
                            | None => (s, Panic)
                            end)).
Proof.
  intros Hp. apply safe_nodes. intros now s Hpre.
  pose proof (pre_keys_ok _ _ _ Hpre) as Hk.
  assert (is_Some (root_seen (sh_nodes s) identity)) as [t Ht].
  { unfold root_seen. destruct (kok_root _ Hk) as [n ->]. by eexists. }
  rewrite Ht. cbn [fst snd]. split_and!; [done| | |done].
  - by eapply (run_node_op_keys _ (NOp_root_seen identity)).
  - intros id Hne. by eapply views_root_seen.
Qed.

Lemma safe_getattr g ino fh : ino ∈ subj → idle g → safe subj g (getattr_turn cfg ino fh).
Proof.
  intros Hin Hg. apply safe_path_for_handle_op. intros [[path by_fh]|e]; [|eauto with jfs].
  apply safe_call_attr; [|eauto with jfs]. intros out attr Hr Hans'. cbv zeta.
  set (answer := (if ino =? ROOT then _ else id) _).
  assert (∀ g', idle g' → own_attr g' ino attr →
            safe subj g' answer) as Hans.
  { intros g' Hg' Hk. subst answer.
    assert (safe subj g' (xattr_remember cfg ino attr (attr_reported ino attr
      (with_file_attr ino attr (λ fa, Reply (FR_Attr (attr_ttl cfg) fa)))))) as H1.
    { apply safe_xattr_remember; [eauto with jfs|]. apply safe_attr_reported; [eauto with jfs|].
      by apply safe_attr_reply. }
    destruct (ino =? ROOT); [by apply safe_root_seen|exact H1]. }
  clearbody answer. destruct by_fh as [h|].
  - apply Hans; [eauto with jfs|]. right. right. eexists _, _. split; [done|]. split; [by eexists|done].
  - apply safe_describes; [done|intros..|].
    + apply Hans; [eauto with jfs|by left].
    + apply Hans; [eauto with jfs|]. right. left. cbn. by left.
    + apply safe_alias_was_wrong. eapply safe_goto; eauto with jfs.
Qed.

Lemma safe_setattr g ino fh set : ino ∈ subj → idle g → safe subj g (setattr_turn cfg ino fh set).
Proof.
  intros Hin Hg. apply safe_path_for_handle_op. intros [[path by_fh]|e].
  2:{ destruct (setattr_flushes_times set); [|eauto with jfs]. apply safe_look. intros s _.
      destruct (is_unlinked_file _ _); [|eauto with jfs]. cbn [safe]. destruct Hg as [Hd Ho].
      split_and!; [done| |].
      - intros id Hne. by rewrite (Ho id Hne).
      - left. by eexists. }
  apply safe_call_attr; [|eauto with jfs]. intros out attr Hr Hans'. cbv zeta.
  set (answer := xattr_remember _ _ _ _).
  assert (∀ g', idle g' → own_attr g' ino attr →
            safe subj g' answer) as Hans.
  { intros g' Hg' Hk. apply safe_xattr_remember; [eauto with jfs|].
    destruct (observes_only set); [apply safe_attr_reported|apply safe_reported_insert];
      eauto with jfs; by apply safe_attr_reply. }
  clearbody answer. destruct by_fh as [h|].
  - apply Hans; [eauto with jfs|]. right. right. eexists _, _. split; [done|]. split; [by eexists|done].
  - apply safe_describes; [done|intros..|].
    + apply Hans; [eauto with jfs|by left].
    + apply Hans; [eauto with jfs|]. right. left. cbn. by left.
    + apply safe_alias_was_wrong. eapply safe_goto; eauto with jfs.
Qed.

(** An open judged by [same_file]: refused ones go round again. *)
Lemma safe_same_file g ino path attr kont :
  ino ∈ subj → idle g →
  (∀ g' r, idle g' → safe subj g' (kont r)) →
  safe subj g (shared_same_file ino path attr kont).
Proof.
  intros Hin Hg Hk. apply safe_describes; [done|intros..|]; eauto with jfs.
  apply safe_alias_was_wrong. eauto.
Qed.

Lemma safe_open g ino flags opener : ino ∈ subj → idle g → safe subj g (open_turn cfg ino flags opener).
Proof.
  intros Hin Hg. apply safe_with_path; [done|]. intros path.
  apply (safe_open_handle _ _ _ _ _ _ _ _ _ (λ _ _ g' _, idle g')).
  - intros fh attr kont _ Hk out. apply safe_same_file; eauto with jfs.
  - intros fh attr g' id _ Hg'. cbn beta in Hg'. cbn [wrong_name].
    apply safe_xattr_remember; [eauto with jfs|]. apply safe_attr_reported; eauto with jfs.
  - intros fh attr g' e Hg'. eapply safe_goto; eauto.
  - intros fh out e. cbn [wrong_name]. eauto with jfs.
Qed.

Lemma safe_opendir g ino opener : ino ∈ subj → idle g → safe subj g (opendir_turn ino opener).
Proof.
  intros Hin Hg. apply safe_with_path; [done|]. intros path.
  apply (safe_open_handle _ _ _ _ _ _ _ _ _ (λ _ _ g' _, idle g')).
  - intros fh attr kont _ Hk out. apply safe_same_file; eauto with jfs.
  - intros fh attr g' id _ Hg'. cbn beta in Hg'. cbn [wrong_name]. apply safe_atom_inert. intros now s _.
    split; [|cbn [snd]; eauto with jfs]. split_and!; try done. intros Hb fh' st Hst. cbn in Hst.
    apply lookup_insert_Some in Hst as [[_ <-]|[_ Hst]]; [|by eapply Hb].
    intros ce Hce. by apply elem_of_nil in Hce.
  - intros fh attr g' e Hg'. eapply safe_goto; eauto.
  - intros fh out e. cbn [wrong_name]. eauto with jfs.
Qed.

Lemma safe_create g parent os mode flags opener :
  idle g → safe subj g (fuse_create cfg parent os mode flags opener).
Proof.
  intros Hg. apply safe_with_name; [done|]. intros name. apply safe_with_path; [done|]. intros path.
  unfold client_create. destruct (Path_join path name) as [joined|]; [|eauto with jfs].
  apply (safe_open_handle _ _ _ _ _ _ _ _ _ (λ fh attr g' r,
    match r with
    | Ok id => ∃ g0, idle g0 ∧ g' = g_add id (KeyNode_of attr) g0
    | Err _ => idle g'
    end)).
  - intros fh attr kont Ha Hk out. apply safe_dir_grew, safe_register.
    + intros id Hne. cbn [map_err]. apply Hk. eauto with jfs.
    + cbn [map_err]. apply Hk. eauto with jfs.
  - intros fh attr g' id Ha (g0 & Hg0 & ->). apply safe_file_attr; [done|]. intros fa Hf Hi.
    by eapply safe_entry_reply.
  - intros fh attr g' e Hg'. eauto with jfs.
  - intros fh out e. eauto with jfs.
Qed.

Lemma tag_with_cookies_snd offset es : (tag_with_cookies offset es).*2 = es.
Proof. revert offset. induction es as [|e es IH]; intros o; cbn; [done|]. by rewrite IH. Qed.

Lemma buffer_ok_tag offset es : (∀ e, e ∈ es → entry_ok e) → buffer_ok (tag_with_cookies offset es).
Proof.
  intros H ce Hce. apply H. rewrite <- (tag_with_cookies_snd offset es). by apply list_elem_of_fmap_2.
Qed.

Lemma safe_dir_page g fh offset plus k :
  idle g → (∀ g' r, idle g' → taken_ok buffer_ok r → safe subj g' (k r)) →
  safe subj g (dir_page cfg fh offset plus k).
Proof.
  intros Hg Hk. apply safe_atom_inert. intros now s Hp.
  destruct (sh_dirs s !! fh) as [st|] eqn:Hst; cbn [fst snd]; [|split; [done|by apply Hk]].
  pose proof (pre_buffers _ _ _ Hp fh st Hst) as Hb. split.
  { apply inert_dirs. intros fh' st' Hst'. rewrite lookup_alter in Hst'. case_decide; subst.
    - rewrite Hst in Hst'. cbn in Hst'. injection Hst' as <-. eauto.
    - eauto. }
  destruct (from_buffer cfg st offset now plus) as [page| |] eqn:Hfb.
  - assert (page = ds_buffer st) as ->; [|by apply Hk; [|exact Hb]].
    unfold from_buffer in Hfb. destruct (_ && _ && _); [by injection Hfb|]. by destruct (_ && _).
  - apply Hk; [done|]. intros ce Hce. by apply elem_of_nil in Hce.
  - apply (safe_call_as _ _ _ (λ x, ∀ e, e ∈ x.1 → entry_ok e)).
    { intros [] x Hok Hx; cbn in Hx; simplify_eq. exact Hok. }
    intros out [[es ended]|e] Hr _; [|apply Hk; eauto with jfs]. cbn in Hr.
    apply safe_atom_inert. intros now' s' _. cbn [fst snd]. split.
    + apply inert_dirs. intros fh' st' Hst'. rewrite lookup_alter in Hst'. case_decide; subst; [|eauto].
      destruct (sh_dirs s' !! fh') as [st0|]; cbn in Hst'; [|done]. injection Hst' as <-. eauto.
    + apply safe_note_end, Hk; [eauto with jfs|]. by apply buffer_ok_tag.
Qed.

Lemma occurrences_app id l1 l2 : occurrences id (l1 ++ l2) = occurrences id l1 + occurrences id l2.
Proof. induction l1 as [|i l1 IH]; cbn; lia. Qed.

Lemma shown_snoc added e :
  shown (FR_DirectoryPlus (added ++ [e]))
  = shown (FR_DirectoryPlus added) ++ (if is_dots (pp_name e) then [] else [pp_attr e]).
Proof.
  cbn. rewrite filter_app, fmap_app. f_equal. unfold filter, list_filter.
  destruct (is_dots (pp_name e)); [by rewrite decide_False|by rewrite decide_True].
Qed.

Lemma told_snoc added e id :
  told (FR_DirectoryPlus (added ++ [e])) id
  = told (FR_DirectoryPlus added) id
    + (if is_dots (pp_name e) then 0 else b2z (fa_ino (pp_attr e) =? id)).
Proof.
  unfold told, told_nodes. rewrite shown_snoc, fmap_app, occurrences_app. f_equal.
  destruct (is_dots (pp_name e)); cbn; lia.
Qed.

(** What is in the page so far is what the task owes the kernel. *)
Record page_ok (g : Ghost) (added : list PlusEntry) : Prop := {
  pg_done : g_done g;
  pg_owed : ∀ id, id ≠ ROOT → told (FR_DirectoryPlus added) id = g_owed g id;
  pg_shown : ∀ fa, fa ∈ shown (FR_DirectoryPlus added) → shows_own g fa }.

Lemma page_dots g added e : page_ok g added → is_dots (pp_name e) = true → page_ok g (added ++ [e]).
Proof.
  intros [Hd Ho Hs] He. split; [done| |].
  - intros id Hne. rewrite told_snoc, He, (Ho id Hne). lia.
  - intros fa. rewrite shown_snoc, He, app_nil_r. apply Hs.
Qed.

Lemma shows_own_mono g g' fa :
  g_sent g' = g_sent g → (∀ x, x ∈ g_keys g → x ∈ g_keys g') → shows_own g fa → shows_own g' fa.
Proof.
  intros Hs Hk (attr & Hf & Ho). exists attr. split; [done|]. unfold own_attr in *. rewrite Hs. naive_solver.
Qed.

Lemma page_add g added e id attr :
  page_ok g added → file_attr id attr = Some (pp_attr e) → fa_ino (pp_attr e) = id → id ≠ ROOT →
  is_dots (pp_name e) = false →
  page_ok (g_add id (KeyNode_of attr) g) (added ++ [e]).
Proof.
  intros [Hd Ho Hs] Hf Hi Hne He. split; [done| |].
  - intros i Hin. rewrite told_snoc, He, (Ho i Hin), Hi. done.
  - intros fa Hin. rewrite shown_snoc, He in Hin. apply elem_of_app in Hin as [Hin|Hin].
    + eapply shows_own_mono; [..|by apply Hs]; [done|]. intros x Hx. cbn. by right.
    + apply list_elem_of_singleton in Hin as ->. exists attr. rewrite Hi.
      split; [done|]. right. left. cbn. by left.
Qed.

Lemma page_root g added e attr :
  page_ok g added → file_attr ROOT attr = Some (pp_attr e) → fa_ino (pp_attr e) = ROOT → page_ok g (added ++ [e]).
Proof.
  intros [Hd Ho Hs] Hf Hi. split; [done| |].
  - intros i Hin. rewrite told_snoc, (Ho i Hin), Hi. destruct (is_dots _); [lia|].
    rewrite (proj2 (Z.eqb_neq ROOT i)) by done. cbn. lia.
  - intros fa Hin. rewrite shown_snoc in Hin. apply elem_of_app in Hin as [Hin|Hin]; [by apply Hs|].
    destruct (is_dots _); [by apply elem_of_nil in Hin|].
    apply list_elem_of_singleton in Hin as ->. exists attr. rewrite Hi. split; [done|]. by left.
Qed.

Lemma safe_add_plus dir fh entries : ∀ g room added,
  page_ok g added → buffer_ok entries → safe subj g (add_plus cfg dir fh room added entries).
Proof.
  induction entries as [|[cookie e] rest IH]; intros g room added Hpg Hb.
  { destruct Hpg. split_and!; [done..|]. by right. }
  assert (buffer_ok rest) as Hrest by (intros ce Hce; apply Hb; by right).
  assert (entry_ok e) as He by (apply (Hb (cookie, e)); by left).
  assert (safe subj g (stash fh ((cookie, e) :: rest) (Reply (FR_DirectoryPlus added)))) as Hends.
  { apply safe_stash; [done|]. destruct Hpg. split_and!; [done..|]. by right. }
  cbn [add_plus]. case_bool_decide as Hd1.
  { destruct (room <? _); [done|]. apply IH; [|done]. apply page_dots; [done|].
    cbn. unfold is_dots. by rewrite bool_decide_eq_true_2. }
  case_bool_decide as Hd2.
  { apply safe_look. intros s _. destruct (room <? _); [done|]. apply IH; [|done].
    apply page_dots; [done|]. cbn. unfold is_dots. rewrite (bool_decide_eq_true_2 _ Hd2).
    apply orb_true_r. }
  destruct (de_attr e) as [attr|] eqn:Hattr; [|by apply IH].
  destruct (Name_new (de_name e)) as [name|]; [|by apply IH].
  intros now s Hp. destruct (id_for_total (sh_nodes s) (Seen_from attr) (pre_small _ _ _ Hp)) as [id Hid].
  rewrite Hid. destruct (file_attr_ok id attr (He attr Hattr)) as (fa & Hfa & Hi). rewrite Hfa.
  destruct (room <? _); [exists g; split; [by apply inert_guarantee|done]|].
  destruct (insert_lookup (sh_nodes s) dir name (Seen_from attr)) as [[r t]|] eqn:Hins.
  2:{ exfalso. unfold insert_lookup in Hins. rewrite Hid in Hins. cbn in Hins.
      by destruct (_ =? _). }
  destruct r as [id'|].
  - pose proof (insert_lookup_views _ _ _ _ _ _ (pre_keys_ok _ _ _ Hp) Hins) as (_ & Hid' & _).
    rewrite Hid in Hid'. injection Hid' as <-.
    destruct (insert_lookup_guarantee _ g s dir name attr id t Hp Hins) as [Hne Hg].
    assert (0 ≤ g_owed g id) as H0 by (apply (pre_ghost _ _ _ Hp)).
    eexists. split; [exact Hg|]. apply safe_xattr_remember; [by apply supported_add|].
    apply safe_attr_reported; [by apply supported_add|]. apply IH; [|done].
    eapply page_add; eauto. cbn. unfold is_dots. by rewrite !bool_decide_eq_false_2.
  - pose proof (insert_lookup_views _ _ _ _ _ _ (pre_keys_ok _ _ _ Hp) Hins) as [-> Hid'].
    rewrite Hid in Hid'. injection Hid' as ->. exists g. split; [by apply inert_guarantee|].
    apply safe_xattr_remember; [by left|]. apply safe_attr_reported; [by left|].
    apply IH; [|done]. by eapply page_root.
Qed.

Lemma safe_readdirplus g ino fh offset room :
  idle g → safe subj g (fuse_readdirplus cfg ino fh offset room).
Proof.
  intros Hg. apply safe_dir_page; [done|]. intros g' [page|e] Hg' Hr; [|eauto with jfs].
  apply safe_add_plus; [|done]. destruct Hg' as [Hd Ho]. split; [done| |].
  - intros id Hne. by rewrite (Ho id Hne).
  - intros fa Hfa. by apply elem_of_nil in Hfa.
Qed.

(** ** Forgetting *)

Definition g_drops (x r : list Z) : Ghost := MkGhost (λ _, 0) [] None x r.

Lemma ghost_ok_drops x r : ghost_ok subj (g_drops x r).
Proof. split; [done|]. intros id k Hk. by apply elem_of_nil in Hk. Qed.

Lemma kept_delete {A} (m : gmap Z A) t ino l :
  kept m (delete ino m) t t (ino :: l) l.
Proof.
  intros id Hid. apply lookup_delete_is_Some in Hid as [Hne Hid].
  destruct (nt_nodes t !! id) as [n|] eqn:Hn; [left; eauto|]. right.
  destruct (decide (id ∈ l)); [by left|]. right. split_and!; [done|done|].
  rewrite elem_of_cons. by intros [->|?].
Qed.

Lemma safe_clean ino : safe subj (g_drops [ino] [ino]) (xattr_forget ino (reported_forget ino (Reply FR_None))).
Proof.
  intros now s Hp. cbn. exists (g_drops [] [ino]). split.
  { destruct (inert_guarantee subj (g_drops [ino] [ino]) s s Hp) as [G1 G2 G3 G4 G5 G6 G7 G8 G9 G10]; [done|].
    split; try done; [apply ghost_ok_drops|apply kept_delete]. }
  intros now' s' Hp'. exists (g_drops [] []). split.
  { destruct (inert_guarantee subj (g_drops [] [ino]) s' s' Hp') as [G1 G2 G3 G4 G5 G6 G7 G8 G9 G10]; [done|].
    split; try done; [apply ghost_ok_drops|apply kept_delete]. }
  by apply (safe_bare subj (g_drops [] []) FR_None).
Qed.

(** What is cached of the node forgotten is dropped next, if the node is gone. *)
Lemma kept_forget {A} (m : gmap Z A) t t' ino gone :
  (∀ id, id ≠ ino → views t' id = views t id) →
  (gone = false → (fst <$> views t' ino) = (fst <$> views t ino)) →
  kept m m t t' [] (if gone : bool then [ino] else []).
Proof.
  intros Hv Hg id Hi.
  destruct (nt_nodes t' !! id) as [nd|] eqn:Hnd; [left; eauto|]. right.
  destruct (decide (id = ino)) as [->|Hii].
  - destruct gone; [left; by left|]. right. split_and!; [done| |apply not_elem_of_nil].
    specialize (Hg eq_refl). unfold views in Hg. rewrite Hnd in Hg. by destruct (nt_nodes t !! ino).
  - right. split_and!; [done| |apply not_elem_of_nil]. specialize (Hv id Hii). unfold views in Hv.
    rewrite Hnd in Hv. by destruct (nt_nodes t !! id).
Qed.

Lemma forget_guarantee ino n s gone t :
  pre subj (g_forgets ino n) s → 0 ≤ n → forget (sh_nodes s) ino n = (gone, t) →
  guarantee subj (g_forgets ino n) s (if gone then g_drops [ino] [ino] else g_drops [] []) (with_nodes t s).
Proof.
  intros [Hk Hsm Hg Hsup How Hf Hb] Hn Hfor.
  pose proof (forget_keys (sh_nodes s) ino n Hk) as Hk'. rewrite Hfor in Hk'. cbn [snd] in Hk'.
  destruct (decide (ino = ROOT)) as [->|Hne].
  { unfold forget in Hfor. rewrite Z.eqb_refl in Hfor. injection Hfor as <- <-.
    split; cbn; try done; try apply ghost_ok_drops; try (by apply kept_refl).
    - intros id Hid. rewrite (proj2 (Z.eqb_neq id ROOT)) by done. lia.
    - by right.
    - intros id v v' Hid H1 H2. congruence. }
  pose proof (How ino Hne) as Hc. cbn in Hc. rewrite Z.eqb_refl in Hc.
  destruct (forget_views _ _ _ _ _ Hne (conj Hn Hc) Hfor) as (Hv & Hct & Hg1 & Hg0).
  split; cbn [with_nodes sh_nodes sh_xattrs sh_reported]; try done.
  - destruct gone; apply ghost_ok_drops.
  - by destruct gone.
  - intros id Hid. replace (g_owed (if gone then _ else _) id) with 0 by (by destruct gone).
    cbn. destruct (Z.eqb_spec id ino) as [->|Hii]; [lia|].
    rewrite (count_views _ _ _ (Hv id Hii)). lia.
  - intros id Hid Hs. destruct (decide (id = ino)) as [->|Hii]; [|right; by apply Hv].
    left. destruct gone.
    + apply views_some in Hs. rewrite (Hg1 eq_refl) in Hs. by destruct Hs.
    + destruct (Hg0 eq_refl) as [Hfst Hpos]. apply Hpos. apply views_some in Hs.
      destruct (views t ino), (views (sh_nodes s) ino); cbn in Hfst; try done; by destruct Hs.
  - intros id v v' Hid H1 H2. destruct (decide (id = ino)) as [->|Hii].
    + destruct gone; [by rewrite (Hg1 eq_refl) in H2|]. destruct (Hg0 eq_refl) as [Hfst _].
      rewrite H1, H2 in Hfst. by injection Hfst.
    + rewrite (Hv id Hii) in H2. congruence.
  - intros id k Hin. destruct gone; by apply elem_of_nil in Hin.
  - replace (g_xattrs (if gone then _ else _)) with (if gone then [ino] else []) by (by destruct gone).
    apply kept_forget; [done|]. intros E. by apply Hg0.
  - replace (g_reported (if gone then _ else _)) with (if gone then [ino] else []) by (by destruct gone).
    apply kept_forget; [done|]. intros E. by apply Hg0.
Qed.

Lemma safe_forget ino n : 0 ≤ n → safe subj (g_forgets ino n) (fuse_forget ino n).
Proof.
  intros Hn now s Hp. destruct (forget (sh_nodes s) ino n) as [gone t] eqn:Hf.
  eexists. split; [by apply forget_guarantee|]. destruct gone; [apply safe_clean|by apply safe_bare].
Qed.

(** ** Every handler *)

Lemma safe_reply_xattr g size value : idle g → safe subj g (reply_xattr size value).
Proof. intros Hg. unfold reply_xattr. destruct (_ =? _); [|destruct (_ <? _)]; eauto with jfs. Qed.

Lemma safe_read g fh offset size flags : idle g → safe subj g (fuse_read fh offset size flags).
Proof.
  intros Hg. unfold fuse_read. destruct (through_page_cache flags).
  - apply safe_atom_inert. intros now s _. split; [done|]. cbn [snd].
    apply safe_call_any. intros ? [data|e]; apply safe_atom_inert; intros now' s' _;
      (split; [by destruct (sh_reads s' !! fh)|]); cbn [snd]; eauto with jfs.
  - apply safe_call_any. intros ? [data|e]; eauto with jfs.
Qed.

Lemma safe_lseek g ino fh offset whence : idle g → safe subj g (fuse_lseek ino fh offset whence).
Proof.
  intros Hg. unfold fuse_lseek. cbv zeta.
  assert (∀ w, safe subj g (if offset <? 0 then fail ENXIO
    else look (λ s, may_be_dirty (sh_handles s) ino) (λ dirty,
      if dirty then fail EINVAL
      else call_as reply_seeked (Req_Lseek fh offset w) (λ r,
        match r with
        | Ok found => if found <=? i64_max then Reply (FR_Lseek found) else fail EIO
        | Err e => fail_with e
        end)))) as Hseek.
  { intros w. destruct (_ <? _); [eauto with jfs|]. apply safe_look. intros s _.
    destruct (may_be_dirty _ _); [eauto with jfs|]. apply safe_call_any.
    intros ? [found|e]; [destruct (_ <=? _)|]; eauto with jfs. }
  destruct (_ =? _); [apply Hseek|]. destruct (_ =? _); [apply Hseek|eauto with jfs].
Qed.

Lemma safe_release g ino fh : idle g → safe subj g (fuse_release ino fh).
Proof.
  intros Hg. apply safe_change; [done|]. apply safe_look. intros s _.
  apply safe_client_release; [done| |done]. intros g' [|e] Hg'; [|eauto with jfs].
  destruct (is_writer _ _); [|eauto with jfs]. apply safe_look. intros s' _.
  destruct (any_live_for _ _); [eauto with jfs|]. apply safe_reported_forget, safe_drop_by_name.
  eauto with jfs.
Qed.

Lemma safe_readdir g ino fh offset room :
  idle g → safe subj g (fuse_readdir cfg ino fh offset room).
Proof.
  intros Hg. apply safe_dir_page; [done|]. intros g' [page|e] Hg' Hr; [|eauto with jfs].
  apply safe_look. intros s _. apply safe_look. intros s' Hp.
  assert (∃ added rest, add_plain (sh_nodes s') ino (parent_of (sh_nodes s) ino) room page
            = Some (added, rest) ∧ buffer_ok rest) as (added & rest & -> & Hb).
  { revert room. cbn in Hr. induction page as [|[cookie e] page IH]; intros room.
    { exists [], []. split; [done|]. intros ce Hce. by apply elem_of_nil in Hce. }
    assert (buffer_ok page) as Hrest by (intros ce Hce; apply Hr; by right).
    cbn [add_plain].
    assert (∃ n, plain_number (sh_nodes s') ino (parent_of (sh_nodes s) ino) e = Some n) as [n ->].
    { unfold plain_number. do 2 (case_bool_decide; [by eexists|]).
      destruct (de_attr e) as [attr|]; [|by eexists].
      destruct (id_for_total (sh_nodes s') (Seen_from attr) (pre_small _ _ _ Hp)) as [id ->].
      by eexists. }
    cbn [mbind option_bind]. destruct n as [n|]; [|by apply IH]. cbv zeta.
    destruct (room <? _); [by eexists _, _|].
    destruct (IH Hrest (room - entsize DIRENT (de_name e))) as (a & r & -> & Hr').
    by eexists _, _. }
  apply safe_stash; [done|]. eauto with jfs.
Qed.

Lemma safe_loop g l :
  idle g → (∀ id, label_subject l = Some id → id ∈ subj) → safe subj g (loop_body cfg l).
Proof.
  intros Hg Hl. destruct l; cbn [loop_body label_subject] in *.
  - apply safe_getattr; auto.
  - apply safe_setattr; auto.
  - apply safe_open; auto.
  - apply safe_opendir; auto.
  - apply safe_call_any. intros ? [|e]; [|eauto with jfs]. cbv zeta.
    destruct (_ =? len); [eauto with jfs|]. cbn [safe]. by destruct Hg.
Qed.

End handlers.

(** The ghost a request starts with. *)
Definition g_of (r : KernelRequest) : Ghost :=
  match r with K_forget ino n => g_forgets ino n | _ => g_start end.

Definition forgets_nonneg (r : KernelRequest) : Prop :=
  match r with K_forget _ n => 0 ≤ n | _ => True end.

Lemma safe_handler cfg r : forgets_nonneg r → safe (subjects r) (g_of r) (handler cfg r).
Proof.
  intros Hn. pose proof idle_start as Hi.
  destruct r; cbn [handler g_of subjects];
    eauto using safe_lookup, safe_getattr, safe_setattr, safe_making, safe_unmaking, safe_rename,
      safe_open, safe_create, safe_read, safe_lseek, safe_release, safe_opendir,
      safe_readdir, safe_readdirplus, list_elem_of_here with jfs.
  - by apply safe_forget.
  - apply safe_with_path; [done|]. intros path. apply safe_call_any. intros ? [|]; eauto with jfs.
  - apply safe_link; [by left|done].
  - apply safe_call_any. intros ? [|]; eauto with jfs.
  - unfold fuse_copy_file_range. destruct (negb _); [eauto with jfs|].
    apply safe_call_any. intros ? [|]; eauto with jfs.
  - apply (safe_loop cfg _ g_start (L_fallocate fh offset length mode 0)); [done|]. done.
  - apply safe_call_any. intros ? r. eauto with jfs.
  - apply safe_call_any. intros ? r. eauto with jfs.
  - apply safe_change; [|apply safe_client_release; eauto with jfs]. intros s. apply inert_dirs.
    intros fh' st [_ Hst]%lookup_delete_Some. eauto.
  - apply safe_look. intros s _. apply safe_call_any. intros ? [|]; eauto with jfs.
  - unfold fuse_setxattr. destruct (negb _); [eauto with jfs|]. apply safe_with_path; [done|].
    intros path. apply safe_call_any. intros ? r. apply safe_xattr_forget. eauto with jfs.
  - apply safe_atom_inert. intros now s _. split; [done|]. cbn [snd].
    destruct (known_absent _ _ _ _); [eauto with jfs|]. apply safe_with_path; [done|]. intros path.
    apply safe_call_any. intros ? [|]; [apply safe_reply_xattr|]; eauto with jfs.
  - apply safe_atom_inert. intros now s _. split; [done|]. cbn [snd].
    destruct (known_list _ _ _); [by apply safe_reply_xattr|]. apply safe_with_path; [done|]. intros path.
    apply safe_call_any. intros ? [|]; [apply safe_reply_xattr|]; eauto with jfs.
  - apply safe_with_path; [done|].
    intros path. apply safe_call_any. intros ? r. apply safe_xattr_forget. eauto with jfs.
  - apply safe_with_path; [done|]. intros path. apply safe_call_any. intros ? r. eauto with jfs.
Qed.
