(* ===== verification/FuseWorld.v ===== *)
(** * All requests at once ([crates/client/src/fuse.rs])

    The step relation of the front end: requests come in, tasks take their steps in
    any order, calls come back with any outcome, replies reach the kernel, and the
    other threads (the connection's manager, the invalidation threads) change what is
    theirs.  Its invariant is the composition of the tasks' [safe]ty; the properties
    are of every reachable world. *)

From S2P Require Import Prelude Types Msg ClientTypes ClientHandles Machine Caller Inodes Codec.
From S2P Require Import Float Readahead Fuse FuseInv FuseSafe.

(** ** Steps *)

Record Task := MkTask { tk_req : KernelRequest; tk_prog : Prog; tk_sent : option Sending }.

(** [w_kernel] is the lookups of each node the kernel has been told of and has not
    given back. *)
Record World := MkWorld {
  w_shared : Shared; w_tasks : gmap Z Task; w_kernel : Z → Z }.

Definition World_new (h : HandleTable) : World := MkWorld (Shared_new h) ∅ (λ _, 0).

(** What the kernel may send. *)
Definition may_send (w : World) (r : KernelRequest) : Prop :=
  match r with
  | K_forget ino n =>
      0 ≤ n ∧ (ino = ROOT ∨ n ≤ w_kernel w ino
        ∧ (n = w_kernel w ino → ∀ u t, w_tasks w !! u = Some t → ino ∉ subjects (tk_req t)))
  | _ => ∀ ino, ino ∈ subjects r → ino = ROOT ∨ 0 < w_kernel w ino
  end.

Definition given_back (r : KernelRequest) (k : Z → Z) : Z → Z :=
  match r with
  | K_forget ino n => λ id, if id =? ino then k id - n else k id
  | _ => k
  end.

(** What other threads do to the shared state: handles are reopened or killed, the
    queue is drained and filled, cached attributes and known ends are dropped. *)
Record others (s s' : Shared) : Prop := {
  ot_nodes : sh_nodes s' = sh_nodes s;
  ot_reported : sh_reported s' = sh_reported s;
  ot_xattrs : ∀ id, is_Some (sh_xattrs s' !! id) → is_Some (sh_xattrs s !! id);
  ot_dirs : ∀ fh st', sh_dirs s' !! fh = Some st' →
    ∃ st, sh_dirs s !! fh = Some st ∧ ds_buffer st' = ds_buffer st }.

Inductive fuse_step (cfg : Config) : World → World → Prop :=
| fs_arrive w u r :
    w_tasks w !! u = None → may_send w r →
    fuse_step cfg w (MkWorld (w_shared w) (<[u := MkTask r (handler cfg r) None]> (w_tasks w))
                       (given_back r (w_kernel w)))
| fs_atom w u r step sent now :
    w_tasks w !! u = Some (MkTask r (Atom step) sent) →
    Z.of_nat (size (nt_nodes (sh_nodes (w_shared w)))) < 2 ^ 64 - 3 →
    fuse_step cfg w (MkWorld (step now (w_shared w)).1
                       (<[u := MkTask r (step now (w_shared w)).2 sent]> (w_tasks w)) (w_kernel w))
| fs_call w u r req k sent out :
    w_tasks w !! u = Some (MkTask r (Call req k) sent) → outcome_ok out →
    fuse_step cfg w (MkWorld (w_shared w) (<[u := MkTask r (k out) (Some (req, out))]> (w_tasks w))
                       (w_kernel w))
| fs_goto w u r l sent :
    w_tasks w !! u = Some (MkTask r (Goto l) sent) →
    fuse_step cfg w (MkWorld (w_shared w) (<[u := MkTask r (loop_body cfg l) sent]> (w_tasks w))
                       (w_kernel w))
| fs_reply w u r rep sent :
    w_tasks w !! u = Some (MkTask r (Reply rep) sent) →
    fuse_step cfg w (MkWorld (w_shared w) (delete u (w_tasks w)) (λ id, w_kernel w id + told rep id))
| fs_others w s' :
    others (w_shared w) s' → fuse_step cfg w (MkWorld s' (w_tasks w) (w_kernel w)).

(** ** Invariant *)

Definition owed_all (tg : gmap Z (Task * Ghost)) (id : Z) : Z := map_sum (λ x, g_owed x.2 id) tg.

Definition covered {A} (m : gmap Z A) (t : NodeTable) (drops : Ghost → list Z)
    (tg : gmap Z (Task * Ghost)) : Prop :=
  ∀ id, is_Some (m !! id) →
    is_Some (nt_nodes t !! id) ∨ ∃ u x, tg !! u = Some x ∧ id ∈ drops x.2.

Record winv (w : World) (tg : gmap Z (Task * Ghost)) : Prop := {
  wi_tasks : w_tasks w = fst <$> tg;
  wi_safe : ∀ u x, tg !! u = Some x → safe (subjects (tk_req x.1)) x.2 (tk_prog x.1);
  wi_ghost : ∀ u x, tg !! u = Some x → ghost_ok (subjects (tk_req x.1)) x.2;
  wi_sent : ∀ u x, tg !! u = Some x → g_sent x.2 = tk_sent x.1;
  wi_keys : keys_ok (sh_nodes (w_shared w));
  wi_count : ∀ id, id ≠ ROOT →
    count (sh_nodes (w_shared w)) id = w_kernel w id + owed_all tg id;
  wi_pos : ∀ id, id ≠ ROOT → is_Some (nt_nodes (sh_nodes (w_shared w)) !! id) →
    0 < count (sh_nodes (w_shared w)) id;
  wi_kernel : ∀ id, id ≠ ROOT → 0 ≤ w_kernel w id;
  wi_subj : ∀ u x id, tg !! u = Some x → id ∈ subjects (tk_req x.1) → id = ROOT ∨ 0 < w_kernel w id;
  wi_facts : ∀ u x id k, tg !! u = Some x → (id, k) ∈ g_keys x.2 →
    has_key (sh_nodes (w_shared w)) id k;
  wi_xattrs : covered (sh_xattrs (w_shared w)) (sh_nodes (w_shared w)) g_xattrs tg;
  wi_reported : covered (sh_reported (w_shared w)) (sh_nodes (w_shared w)) g_reported tg;
  wi_buffers : buffers_ok (w_shared w) }.

Lemma winv_task w tg u t :
  winv w tg → w_tasks w !! u = Some t → ∃ g, tg !! u = Some (t, g).
Proof.
  intros Hi Ht. rewrite (wi_tasks _ _ Hi), lookup_fmap in Ht.
  destruct (tg !! u) as [[t' g]|]; cbn in Ht; [|done]. injection Ht as ->. eauto.
Qed.

Lemma owed_nonneg (tg : gmap Z (Task * Ghost)) id :
  (∀ u x, tg !! u = Some x → ghost_ok (subjects (tk_req x.1)) x.2) →
  (∀ u x, tg !! u = Some x → 0 ≤ g_owed x.2 id).
Proof. intros H u x Hx. apply (H u x Hx). Qed.

(** What supports a node keeps it in the table. *)
Lemma winv_present w tg u x id :
  winv w tg → tg !! u = Some x → supported (subjects (tk_req x.1)) x.2 id →
  is_Some (nt_nodes (sh_nodes (w_shared w)) !! id).
Proof.
  intros Hi Hx Hs. destruct (decide (id = ROOT)) as [->|Hne]; [apply (kok_root _ (wi_keys _ _ Hi))|].
  pose proof (wi_count _ _ Hi id Hne) as Hc. pose proof (wi_kernel _ _ Hi id Hne) as Hk.
  pose proof (owed_nonneg tg id (wi_ghost _ _ Hi)) as Hn.
  pose proof (map_sum_ge (λ x : Task * Ghost, g_owed x.2 id) tg u x Hn Hx) as Hge. cbn in Hge.
  fold (owed_all tg id) in Hge. pose proof (map_sum_nonneg (λ x : Task * Ghost, g_owed x.2 id) tg Hn) as H0.
  fold (owed_all tg id) in H0.
  assert (0 < count (sh_nodes (w_shared w)) id) as Hpos.
  { destruct Hs as [?|[Hs|Hs]]; [done| |lia].
    destruct (wi_subj _ _ Hi u x id Hx Hs); [done|]. lia. }
  destruct (nt_nodes (sh_nodes (w_shared w)) !! id) eqn:E; [by eexists|].
  rewrite (count_none _ _ E) in Hpos. lia.
Qed.

Lemma winv_pre w tg u x :
  winv w tg → tg !! u = Some x →
  Z.of_nat (size (nt_nodes (sh_nodes (w_shared w)))) < 2 ^ 64 - 3 →
  pre (subjects (tk_req x.1)) x.2 (w_shared w).
Proof.
  intros Hi Hx Hs. split; try apply Hi; try done; eauto using winv_present.
  - by eapply Hi.
  - intros id Hne. rewrite (wi_count _ _ Hi id Hne). pose proof (wi_kernel _ _ Hi id Hne).
    pose proof (map_sum_ge (λ x : Task * Ghost, g_owed x.2 id) tg u x
      (owed_nonneg tg id (wi_ghost _ _ Hi)) Hx) as Hge. cbn in Hge. unfold owed_all. lia.
  - intros id k Hk. by eapply Hi.
Qed.

Lemma owed_insert tg u x y id :
  tg !! u = Some x → owed_all (<[u := y]> tg) id = owed_all tg id - g_owed x.2 id + g_owed y.2 id.
Proof. intros Hx. exact (map_sum_insert_Some (λ x : Task * Ghost, g_owed x.2 id) tg u y x Hx). Qed.

Lemma covered_insert {A} (m : gmap Z A) t drops tg u x y :
  tg !! u = Some x → drops y.2 = drops x.2 → covered m t drops tg → covered m t drops (<[u := y]> tg).
Proof.
  intros Hx Hd Hc id Hid. destruct (Hc id Hid) as [?|(u' & z & Hz & Hin)]; [by left|]. right.
  destruct (decide (u' = u)) as [->|Hne].
  - exists u, y. rewrite lookup_insert_eq. split; [done|]. rewrite Hd. congruence.
  - exists u', z. by rewrite lookup_insert_ne.
Qed.

(** A task goes on with what it has. *)
Lemma winv_swap w tg u r p sent g p' sent' :
  winv w tg → tg !! u = Some (MkTask r p sent, g) →
  safe (subjects r) (MkGhost (g_owed g) (g_keys g) sent' (g_xattrs g) (g_reported g)) p' →
  winv (MkWorld (w_shared w) (<[u := MkTask r p' sent']> (w_tasks w)) (w_kernel w))
    (<[u := (MkTask r p' sent', MkGhost (g_owed g) (g_keys g) sent' (g_xattrs g) (g_reported g))]> tg).
Proof.
  intros Hi Hx Hs. pose proof Hi as [H1 H2 H3 H4 H5 H6 H7 H8 H9 H10 H11 H12 H13].
  split; cbn [w_shared w_tasks w_kernel]; try done.
  - by rewrite H1, fmap_insert.
  - intros u' x Hu. apply lookup_insert_Some in Hu as [[_ <-]|[_ Hu]]; [done|by eapply H2].
  - intros u' x Hu. apply lookup_insert_Some in Hu as [[_ <-]|[_ Hu]]; [|by eapply H3].
    destruct (H3 u _ Hx) as [Ho Hk]. by split.
  - intros u' x Hu. apply lookup_insert_Some in Hu as [[_ <-]|[_ Hu]]; [done|by eapply H4].
  - intros id Hne. rewrite (owed_insert _ _ _ _ _ Hx), H6 by done. cbn. lia.
  - intros u' x id Hu. apply lookup_insert_Some in Hu as [[_ <-]|[_ Hu]];
      [apply (H9 u _ id Hx)|by eapply H9].
  - intros u' x id k Hu. apply lookup_insert_Some in Hu as [[_ <-]|[_ Hu]];
      [apply (H10 u _ id k Hx)|by eapply H10].
  - by eapply covered_insert.
  - by eapply covered_insert.
Qed.

Lemma kept_covered {A} (m m' : gmap Z A) t t' drops tg u x y :
  tg !! u = Some x →
  kept m m' t t' (drops x.2) (drops y.2) → covered m t drops tg →
  covered m' t' drops (<[u := y]> tg).
Proof.
  intros Hx Hk Hc id Hid. destruct (Hk id Hid) as [?|[Hin|(Hm & Hn & Hin)]]; [by left| |].
  - right. exists u, y. by rewrite lookup_insert_eq.
  - destruct (Hc id Hm) as [[? ?]|(u' & z & Hz & Hin')]; [congruence|]. right.
    exists u', z. rewrite lookup_insert_ne; [done|]. intros <-. by simplify_eq.
Qed.

(** A task takes a step. *)
Lemma winv_step_atom w tg u r p sent g s' p' g' :
  winv w tg → tg !! u = Some (MkTask r p sent, g) →
  guarantee (subjects r) g (w_shared w) g' s' → safe (subjects r) g' p' →
  winv (MkWorld s' (<[u := MkTask r p' sent]> (w_tasks w)) (w_kernel w))
    (<[u := (MkTask r p' sent, g')]> tg).
Proof.
  intros Hi Hx HG Hs. pose proof Hi as [H1 H2 H3 H4 H5 H6 H7 H8 H9 H10 H11 H12 H13].
  destruct HG as [G1 G2 G3 G4 G5 G6 G7 G8 G9 G10].
  assert (∀ u' x, <[u := (MkTask r p' sent, g')]> tg !! u' = Some x →
            ghost_ok (subjects (tk_req x.1)) x.2) as Hgh.
  { intros u' x Hu. apply lookup_insert_Some in Hu as [[_ <-]|[_ Hu]]; [done|by eapply H3]. }
  assert (∀ id, id ≠ ROOT → count (sh_nodes s') id
            = w_kernel w id + owed_all (<[u := (MkTask r p' sent, g')]> tg) id) as Hcount.
  { intros id Hne. rewrite (owed_insert _ _ _ _ _ Hx). pose proof (G4 id Hne).
    pose proof (H6 id Hne). cbn [snd]. lia. }
  split; cbn [w_shared w_tasks w_kernel]; try done.
  - by rewrite H1, fmap_insert.
  - intros u' x Hu. apply lookup_insert_Some in Hu as [[_ <-]|[_ Hu]]; [done|by eapply H2].
  - intros u' x Hu. apply lookup_insert_Some in Hu as [[_ <-]|[_ Hu]]; [|by eapply H4].
    cbn. rewrite G2. by apply (H4 u _ Hx).
  - intros id Hne Hp. destruct (G5 id Hne Hp) as [?|Hv]; [done|]. rewrite (count_views _ _ _ Hv).
    apply H7; [done|]. rewrite <- views_some, <- Hv, views_some. done.
  - intros u' x id Hu. apply lookup_insert_Some in Hu as [[_ <-]|[_ Hu]];
      [apply (H9 u _ id Hx)|by eapply H9].
  - intros u' x id k Hu Hk. apply lookup_insert_Some in Hu as [[_ <-]|[Hne Hu]]; [by apply G7|].
    destruct (gok_keys _ _ (H3 u' x Hu) id k Hk) as [Hr Hsup].
    pose proof (H10 u' x id k Hu Hk) as Hkey.
    assert (is_Some (views (sh_nodes s') id)) as [v' Hv'].
    { apply views_some. destruct (nt_nodes (sh_nodes s') !! id) eqn:E; [by eexists|]. exfalso.
      pose proof (Hcount id Hr) as Hc. rewrite (count_none _ _ E) in Hc.
      pose proof (H8 id Hr) as Hk0.
      pose proof (owed_nonneg _ id Hgh) as Hn.
      assert (<[u:=(MkTask r p' sent, g')]> tg !! u' = Some x) as Hu' by (by rewrite lookup_insert_ne).
      pose proof (map_sum_ge (λ x : Task * Ghost, g_owed x.2 id) _ u' x Hn Hu') as Hge. cbn in Hge.
      unfold owed_all in Hc.
      destruct Hsup as [?|[Hsub|Ho]]; [done| |lia].
      pose proof (map_sum_nonneg (λ x : Task * Ghost, g_owed x.2 id) _ Hn).
      destruct (H9 u' x id Hu Hsub); [done|]. lia. }
    unfold has_key in *. destruct (views (sh_nodes (w_shared w)) id) as [v|] eqn:Hv; cbn in Hkey; [|done].
    rewrite Hv'. cbn. rewrite (G6 id v v' Hr Hv Hv'). done.
  - by eapply kept_covered.
  - by eapply kept_covered.
Qed.

Lemma covered_delete {A} (m : gmap Z A) t drops tg u x :
  tg !! u = Some x → drops x.2 = [] → covered m t drops tg → covered m t drops (delete u tg).
Proof.
  intros Hx Hd Hc id Hid. destruct (Hc id Hid) as [?|(u' & z & Hz & Hin)]; [by left|]. right.
  exists u', z. rewrite lookup_delete_ne; [done|]. intros <-. simplify_eq.
  rewrite Hd in Hin. by apply elem_of_nil in Hin.
Qed.

Lemma occurrences_nonneg id l : 0 ≤ occurrences id l.
Proof. induction l as [|i l IH]; cbn; [lia|]. pose proof (b2z_range (i =? id)). lia. Qed.

Lemma winv_reply w tg u r rep sent g :
  winv w tg → tg !! u = Some (MkTask r (Reply rep) sent, g) →
  winv (MkWorld (w_shared w) (delete u (w_tasks w)) (λ id, w_kernel w id + told rep id)) (delete u tg).
Proof.
  intros Hi Hx. pose proof Hi as [H1 H2 H3 H4 H5 H6 H7 H8 H9 H10 H11 H12 H13].
  pose proof (H2 u _ Hx) as Hs. cbn in Hs. destruct Hs as ([Hd1 Hd2] & Ho & _).
  assert (∀ id, 0 ≤ told rep id) as Ht by (intros; apply occurrences_nonneg).
  split; cbn [w_shared w_tasks w_kernel]; try done.
  - by rewrite H1, fmap_delete.
  - intros u' x [_ Hu]%lookup_delete_Some. by eapply H2.
  - intros u' x [_ Hu]%lookup_delete_Some. by eapply H3.
  - intros u' x [_ Hu]%lookup_delete_Some. by eapply H4.
  - intros id Hne. unfold owed_all. rewrite (map_sum_delete _ _ _ _ Hx), H6 by done.
    rewrite (Ho id Hne). unfold owed_all. cbn. lia.
  - intros id Hne. pose proof (H8 id Hne). pose proof (Ht id). lia.
  - intros u' x id [_ Hu]%lookup_delete_Some Hin. destruct (H9 u' x id Hu Hin); [by left|].
    right. pose proof (Ht id). lia.
  - intros u' x id k [_ Hu]%lookup_delete_Some. by eapply H10.
  - by eapply covered_delete.
  - by eapply covered_delete.
Qed.

Lemma covered_new {A} (m : gmap Z A) t drops tg u y :
  tg !! u = None → covered m t drops tg → covered m t drops (<[u := y]> tg).
Proof.
  intros Hx Hc id Hid. destruct (Hc id Hid) as [?|(u' & z & Hz & Hin)]; [by left|]. right.
  exists u', z. rewrite lookup_insert_ne; [done|]. intros <-. congruence.
Qed.

Lemma winv_arrive cfg w tg u r :
  winv w tg → w_tasks w !! u = None → may_send w r →
  winv (MkWorld (w_shared w) (<[u := MkTask r (handler cfg r) None]> (w_tasks w))
          (given_back r (w_kernel w)))
    (<[u := (MkTask r (handler cfg r) None, g_of r)]> tg).
Proof.
  intros Hi Hu Hm. pose proof Hi as [H1 H2 H3 H4 H5 H6 H7 H8 H9 H10 H11 H12 H13].
  assert (tg !! u = None) as Hg.
  { rewrite H1, lookup_fmap in Hu. by destruct (tg !! u). }
  assert (forgets_nonneg r) as Hn by (by destruct r; try done; destruct Hm).
  assert (g_keys (g_of r) = [] ∧ g_sent (g_of r) = None) as [Hk Hsn] by (by destruct r).
  assert (∀ id, 0 ≤ g_owed (g_of r) id) as Hown.
  { intros id. destruct r; cbn in *; try lia. destruct (_ =? _); lia. }
  assert (∀ id, id ≠ ROOT → given_back r (w_kernel w) id = w_kernel w id - g_owed (g_of r) id) as Hgb.
  { intros id _. destruct r; cbn; try lia. destruct (_ =? _); lia. }
  assert (∀ id, id ≠ ROOT → 0 ≤ given_back r (w_kernel w) id) as Hk0.
  { intros id Hne. pose proof (H8 id Hne). destruct r; cbn in *; try lia.
    destruct (Z.eqb_spec id ino) as [->|]; [|lia]. destruct Hm as [_ [?|[? _]]]; [done|lia]. }
  split; cbn [w_shared w_tasks w_kernel]; try done.
  - by rewrite H1, fmap_insert.
  - intros u' x Hu'. apply lookup_insert_Some in Hu' as [[_ <-]|[_ Hu']]; [|by eapply H2].
    by apply safe_handler.
  - intros u' x Hu'. apply lookup_insert_Some in Hu' as [[_ <-]|[_ Hu']]; [|by eapply H3].
    split; [done|]. cbn. rewrite Hk. intros id k Hin. by apply elem_of_nil in Hin.
  - intros u' x Hu'. apply lookup_insert_Some in Hu' as [[_ <-]|[_ Hu']]; [done|by eapply H4].
  - intros id Hne. unfold owed_all. rewrite map_sum_insert_None by done. rewrite (Hgb id Hne), H6 by done.
    unfold owed_all. cbn. lia.
  - intros u' x id Hu' Hin. apply lookup_insert_Some in Hu' as [[_ <-]|[Hne Hu']].
    + cbn in Hin. destruct r; cbn in *; try (by apply Hm); by apply elem_of_nil in Hin.
    + destruct (H9 u' x id Hu' Hin) as [->|Hpos]; [by left|].
      destruct r; cbn; try (by right). destruct (Z.eqb_spec id ino) as [->|]; [|by right].
      destruct Hm as [_ [->|[Hle Hno]]]; [by left|]. right.
      assert (nlookup ≠ w_kernel w ino); [|lia]. intros ->.
      refine (Hno eq_refl u' x.1 _ Hin). rewrite H1, lookup_fmap, Hu'. done.
  - intros u' x id k Hu' Hin. apply lookup_insert_Some in Hu' as [[_ <-]|[_ Hu']]; [|by eapply H10].
    cbn in Hin. rewrite Hk in Hin. by apply elem_of_nil in Hin.
  - by apply covered_new.
  - by apply covered_new.
Qed.

Lemma winv_others w tg s' :
  winv w tg → others (w_shared w) s' → winv (MkWorld s' (w_tasks w) (w_kernel w)) tg.
Proof.
  intros [H1 H2 H3 H4 H5 H6 H7 H8 H9 H10 H11 H12 H13] [Hn Hr Hx Hd].
  split; cbn [w_shared w_tasks w_kernel]; rewrite ?Hn, ?Hr; try done.
  - intros id Hid. apply H11. by apply Hx.
  - intros fh st' Hst. destruct (Hd fh st' Hst) as (st & Hst' & ->). by eapply H13.
Qed.

Lemma winv_fuse_step cfg w w' tg : winv w tg → fuse_step cfg w w' → ∃ tg', winv w' tg'.
Proof.
  intros Hi Hstep. destruct Hstep as [w u r Hu Hm|w u r step sent now Hu Hsm|w u r req k sent out Hu Ho
    |w u r l sent Hu|w u r rep sent Hu|w s' Ho].
  - eexists. by apply winv_arrive.
  - destruct (winv_task _ _ _ _ Hi Hu) as [g Hg].
    pose proof (wi_safe _ _ Hi u _ Hg) as Hs. cbn [fst snd tk_req tk_prog] in Hs.
    specialize (Hs now (w_shared w) (winv_pre _ _ _ _ Hi Hg Hsm)).
    destruct (step now (w_shared w)) as [s' p']. destruct Hs as (g' & HG & Hs).
    eexists. by eapply winv_step_atom.
  - destruct (winv_task _ _ _ _ Hi Hu) as [g Hg].
    pose proof (wi_safe _ _ Hi u _ Hg) as Hs. eexists. eapply winv_swap; [done|done|]. by apply Hs.
  - destruct (winv_task _ _ _ _ Hi Hu) as [g Hg].
    pose proof (wi_safe _ _ Hi u _ Hg) as Hs. cbn in Hs. destruct Hs as (Hd & Hz & Hl).
    eexists. eapply winv_swap; [done|done|]. by apply safe_loop.
  - destruct (winv_task _ _ _ _ Hi Hu) as [g Hg]. eexists. by eapply winv_reply.
  - eexists. by eapply winv_others.
Qed.

Lemma winv_new h : winv (World_new h) ∅.
Proof.
  assert (keys_ok NodeTable_new) as Hk by (apply nodes_reachable_keys; constructor).
  split; cbn; try done; try (by intros ? ? ?); try (by intros ? [? ?]).
  - intros id Hne. unfold owed_all. rewrite map_sum_empty. unfold count, views. cbn.
    by rewrite lookup_insert_ne.
  - intros id Hne Hs. cbn in Hs. rewrite lookup_insert_ne in Hs by done. by destruct Hs.
Qed.

Definition fuse_reachable (cfg : Config) (h : HandleTable) (w : World) : Prop :=
  rtc (fuse_step cfg) (World_new h) w.

Lemma winv_reachable cfg h w : fuse_reachable cfg h w → ∃ tg, winv w tg.
Proof.
  intros Hr. eapply (rtc_invariant _ (λ w, ∃ tg, winv w tg)); [|exact Hr|].
  - intros x y (tg & Hi) Hs. by eapply winv_fuse_step.
  - eexists. apply winv_new.
Qed.

Lemma reachable_no_panic cfg h w u t :
  fuse_reachable cfg h w → w_tasks w !! u = Some t → tk_prog t ≠ Panic.
Proof.
  intros (tg & Hi)%winv_reachable Ht Hp. destruct (winv_task _ _ _ _ Hi Ht) as [g Hg].
  pose proof (wi_safe _ _ Hi u _ Hg) as Hs. cbn in Hs. by rewrite Hp in Hs.
Qed.

(** ** Runs

    A schedule is a list of steps to take; [drive] takes them, where they can be
    taken. *)

Inductive Drive :=
| D_arrive (u : Z) (r : KernelRequest)
| D_atom (u now : Z)
| D_call (u : Z) (out : result Error Response)
| D_goto (u : Z)
| D_reply (u : Z).

Definition may_sendb (w : World) (r : KernelRequest) : bool :=
  match r with
  | K_forget ino n =>
      (0 <=? n) && ((ino =? ROOT) || ((n <=? w_kernel w ino)
        && (negb (n =? w_kernel w ino)
            || bool_decide (map_Forall (λ _ t, ino ∉ subjects (tk_req t)) (w_tasks w)))))
  | _ => forallb (λ ino, (ino =? ROOT) || (0 <? w_kernel w ino)) (subjects r)
  end.

Lemma may_sendb_sound w r : may_sendb w r = true → may_send w r.
Proof.
  intros H. destruct r; cbn [may_sendb may_send] in *;
    try (intros i Hi; apply list_elem_of_In in Hi; eapply (proj1 (forallb_forall _ _)) in H; [|exact Hi];
         apply orb_true_iff in H as [H|H]; [left; by apply Z.eqb_eq|right; by apply Z.ltb_lt]).
  apply andb_true_iff in H as [H1 H]. split; [lia|].
  apply orb_true_iff in H as [H|H]; [left; lia|right]. apply andb_true_iff in H as [H2 H].
  split; [lia|]. intros Hn u t Ht. apply orb_true_iff in H as [H|H]; [lia|].
  apply bool_decide_eq_true in H. by apply (H u t).
Qed.

Definition time_okb (t : TimeSpec) : bool :=
  is_i64 (ts_sec t) && (0 <=? ts_nsec t) && (ts_nsec t <? NANOS).
Definition attr_okb (a : Attr) : bool :=
  time_okb (a_atime a) && time_okb (a_mtime a) && time_okb (a_ctime a).
Definition outcome_okb (r : result Error Response) : bool :=
  match r with
  | Ok (Resp_Entry a) | Ok (Resp_Attr a) | Ok (Resp_Opened a) => attr_okb a
  | Ok (Resp_Readdir es _) =>
      forallb (λ e, match de_attr e with Some a => attr_okb a | None => true end) es
  | _ => true
  end.

Lemma attr_okb_sound a : attr_okb a = true → attr_ok a.
Proof.
  assert (∀ t, time_okb t = true → time_ok t) as Ht.
  { intros t H. unfold time_okb in H. rewrite !andb_true_iff in H. split; [tauto|lia]. }
  unfold attr_okb. rewrite !andb_true_iff. intros [[? ?] ?]. by split_and!; apply Ht.
Qed.

Lemma outcome_okb_sound r : outcome_okb r = true → outcome_ok r.
Proof.
  destruct r as [[]|]; cbn; try done; try apply attr_okb_sound.
  intros H e He a Ha. apply list_elem_of_In in He.
  eapply (proj1 (forallb_forall _ _)) in H; [|exact He]. rewrite Ha in H. by apply attr_okb_sound.
Qed.

Definition with_task (w : World) (u : Z) (t : Task) : World :=
  MkWorld (w_shared w) (<[u := t]> (w_tasks w)) (w_kernel w).

Definition drive_step (cfg : Config) (w : World) (d : Drive) : option World :=
  match d with
  | D_arrive u r =>
      match w_tasks w !! u with
      | Some _ => None
      | None =>
          if may_sendb w r then
            Some (MkWorld (w_shared w) (<[u := MkTask r (handler cfg r) None]> (w_tasks w))
                    (given_back r (w_kernel w)))
          else None
      end
  | D_atom u now =>
      match w_tasks w !! u with
      | Some (MkTask r (Atom step) sent) =>
          if Z.of_nat (size (nt_nodes (sh_nodes (w_shared w)))) <? 2 ^ 64 - 3 then
            Some (MkWorld (step now (w_shared w)).1
                    (<[u := MkTask r (step now (w_shared w)).2 sent]> (w_tasks w)) (w_kernel w))
          else None
      | _ => None
      end
  | D_call u out =>
      match w_tasks w !! u with
      | Some (MkTask r (Call req k) sent) =>
          if outcome_okb out then Some (with_task w u (MkTask r (k out) (Some (req, out)))) else None
      | _ => None
      end
  | D_goto u =>
      match w_tasks w !! u with
      | Some (MkTask r (Goto l) sent) => Some (with_task w u (MkTask r (loop_body cfg l) sent))
      | _ => None
      end
  | D_reply u =>
      match w_tasks w !! u with
      | Some (MkTask r (Reply rep) sent) =>
          Some (MkWorld (w_shared w) (delete u (w_tasks w)) (λ id, w_kernel w id + told rep id))
      | _ => None
      end
  end.

Fixpoint drive (cfg : Config) (w : World) (ds : list Drive) : option World :=
  match ds with
  | [] => Some w
  | d :: ds => w ← drive_step cfg w d; drive cfg w ds
  end.

Lemma drive_step_sound cfg w d w' : drive_step cfg w d = Some w' → fuse_step cfg w w'.
Proof.
  destruct d; cbn [drive_step]; intros H.
  - destruct (w_tasks w !! u) eqn:Hu; [done|]. destruct (may_sendb w r) eqn:Hm; [|done].
    injection H as <-. constructor; [done|]. by apply may_sendb_sound.
  - destruct (w_tasks w !! u) as [[r [] sent]|] eqn:Hu; try done.
    destruct (Z.ltb_spec (Z.of_nat (size (nt_nodes (sh_nodes (w_shared w))))) (2 ^ 64 - 3)); [|done].
    injection H as <-. by constructor.
  - destruct (w_tasks w !! u) as [[r [] sent]|] eqn:Hu; try done.
    destruct (outcome_okb out) eqn:Ho; [|done]. injection H as <-. econstructor; [done|].
    by apply outcome_okb_sound.
  - destruct (w_tasks w !! u) as [[r [] sent]|] eqn:Hu; try done. injection H as <-. by constructor.
  - destruct (w_tasks w !! u) as [[r [] sent]|] eqn:Hu; try done. injection H as <-. by econstructor.
Qed.

Lemma drive_sound cfg ds : ∀ w w', drive cfg w ds = Some w' → rtc (fuse_step cfg) w w'.
Proof.
  induction ds as [|d ds IH]; intros w w' H; cbn in H; [by injection H as ->|].
  destruct (drive_step cfg w d) as [w1|] eqn:Hd; cbn in H; [|done].
  eapply rtc_l; [by eapply drive_step_sound|]. by apply IH.
Qed.

Lemma drive_app cfg ds1 ds2 : ∀ w, drive cfg w (ds1 ++ ds2) = drive cfg w ds1 ≫= λ w, drive cfg w ds2.
Proof.
  induction ds1 as [|d ds1 IH]; intros w; [done|]. cbn. destruct (drive_step cfg w d); [apply IH|done].
Qed.

(** ** Properties *)

(** C22: the table is what the kernel holds.  However requests interleave and however
    their calls end: every node the kernel may name is in the table, with at least the
    lookups the kernel has of it, so no request finds its node gone; no task panics;
    and whenever no request is under way, the table's nodes and their lookup counts are
    exactly the kernel's, and the caches of attributes speak only of those nodes. *)
Theorem kernel_nodes_exact cfg h w :
  fuse_reachable cfg h w →
  (∀ id, id ≠ ROOT → 0 < w_kernel w id →
     ∃ n, nt_nodes (sh_nodes (w_shared w)) !! id = Some n ∧ w_kernel w id ≤ nd_lookup_count n)
  ∧ (∀ u t, w_tasks w !! u = Some t → tk_prog t ≠ Panic)
  ∧ (w_tasks w = ∅ →
       (∀ id, id ≠ ROOT →
          match nt_nodes (sh_nodes (w_shared w)) !! id with
          | Some n => nd_lookup_count n = w_kernel w id ∧ 0 < w_kernel w id
          | None => w_kernel w id = 0
          end)
       ∧ dom (sh_xattrs (w_shared w)) ⊆ dom (nt_nodes (sh_nodes (w_shared w)))
       ∧ dom (sh_reported (w_shared w)) ⊆ dom (nt_nodes (sh_nodes (w_shared w)))).
Proof.
  intros Hr. pose proof (λ u t, reachable_no_panic cfg h w u t Hr) as Hnp.
  destruct (winv_reachable _ _ _ Hr) as [tg Hi].
  assert (∀ id n, nt_nodes (sh_nodes (w_shared w)) !! id = Some n →
            count (sh_nodes (w_shared w)) id = nd_lookup_count n) as Hcn.
  { intros id n Hn. unfold count, views. by rewrite Hn. }
  split_and!.
  - intros id Hne Hpos. pose proof (wi_count _ _ Hi id Hne) as Hc.
    pose proof (map_sum_nonneg (λ x : Task * Ghost, g_owed x.2 id) tg
      (owed_nonneg tg id (wi_ghost _ _ Hi))) as H0. unfold owed_all in Hc.
    destruct (nt_nodes (sh_nodes (w_shared w)) !! id) as [n|] eqn:Hn.
    + exists n. split; [done|]. rewrite <- (Hcn id n Hn). lia.
    + rewrite (count_none _ _ Hn) in Hc. lia.
  - exact Hnp.
  - intros He. assert (tg = ∅) as ->.
    { rewrite (wi_tasks _ _ Hi) in He. by apply fmap_empty_iff in He. }
    split_and!.
    + intros id Hne. pose proof (wi_count _ _ Hi id Hne) as Hc. unfold owed_all in Hc.
      rewrite map_sum_empty in Hc.
      destruct (nt_nodes (sh_nodes (w_shared w)) !! id) as [n|] eqn:Hn.
      * pose proof (wi_pos _ _ Hi id Hne) as Hp. rewrite Hn in Hp.
        rewrite (Hcn id n Hn) in *. specialize (Hp ltac:(eauto)). lia.
      * rewrite (count_none _ _ Hn) in Hc. lia.
    + intros id Hid. apply elem_of_dom in Hid. apply elem_of_dom.
      destruct (wi_xattrs _ _ Hi id Hid) as [?|(u & x & Hx & _)]; [done|by rewrite lookup_empty in Hx].
    + intros id Hid. apply elem_of_dom in Hid. apply elem_of_dom.
      destruct (wi_reported _ _ Hi id Hid) as [?|(u & x & Hx & _)]; [done|by rewrite lookup_empty in Hx].
Qed.


(** ** Runs of the model *)

Definition demo_time (s : Z) : TimeSpec := {| ts_sec := s; ts_nsec := 0 |}.
Definition demo_attr (ino h : Z) (kind : FileKind) (xattrs : option (list (list byte))) : Attr :=
  MkAttr ino 5 1 (demo_time 7) (demo_time 7) (demo_time 7) kind 420 1 0 0 0 4096 xattrs
    (MkIdentity h []) false.
Definition demo_bytes (s : string) : list byte := String.list_byte_of_string s.
Definition demo_cfg : Config := MkConfig 1000 10.
Definition demo_world : World := World_new HandleTable_default.

(** A lookup of [f] under the root, up to its reply. *)
Definition demo_lookup : list Drive :=
  [D_arrive 1 (K_lookup ROOT (demo_bytes "f")); D_atom 1 0;
   D_call 1 (Ok (Resp_Entry (demo_attr 10 1 Regular (Some [])))); D_atom 1 0; D_atom 1 0; D_atom 1 0].

Lemma kernel_nodes_exact_witness :
  ∃ w, drive demo_cfg demo_world (demo_lookup ++ [D_reply 1]) = Some w
       ∧ ∃ n, nt_nodes (sh_nodes (w_shared w)) !! 10 = Some n ∧ nd_lookup_count n = 1.
Proof.
  assert (match drive demo_cfg demo_world (demo_lookup ++ [D_reply 1]) with
          | Some w => bool_decide (w_kernel w 10 = 1) && bool_decide (size (w_tasks w) = 0%nat)
          | None => false
          end = true) as H by (by vm_compute).
  destruct (drive demo_cfg demo_world (demo_lookup ++ [D_reply 1])) as [w|] eqn:Hd; [|done].
  apply andb_true_iff in H as [H1%bool_decide_eq_true H2%bool_decide_eq_true].
  exists w. split; [done|]. apply map_size_empty_inv in H2.
  destruct (kernel_nodes_exact demo_cfg HandleTable_default w (drive_sound _ _ _ _ Hd)) as (_ & _ & H3).
  destruct (H3 H2) as (H4 & _). specialize (H4 10 ltac:(done)).
  destruct (nt_nodes (sh_nodes (w_shared w)) !! 10) as [n|]; [|lia].
  exists n. split; [done|]. lia.
Defined.

(** The attributes of the entry task [u] is about to reply with, if it last sent a
    lookup. *)
Definition entry_of (w : World) (u : Z) : option FileAttr :=
  match w_tasks w !! u with
  | Some (MkTask _ (Reply (FR_Entry _ _ fa)) (Some (Req_Lookup _ _, _))) => Some fa
  | _ => None
  end.


(** ** What the locks do not rule out *)

(** What task [u] is about to reply, and the last request it sent. *)
Definition reply_of (w : World) (u : Z) : option (FuseReply * option Request) :=
  match w_tasks w !! u with
  | Some (MkTask _ (Reply r) sent) => Some (r, fst <$> sent)
  | _ => None
  end.

(** A directory opened as handle 1. *)
Definition demo_opendir : list Drive :=
  [D_arrive 1 (K_opendir ROOT None); D_atom 1 0; D_atom 1 0;
   D_call 1 (Ok (Resp_Opened (demo_attr ROOT 9 Directory None))); D_atom 1 0; D_atom 1 0; D_reply 1].

(** A listing fetched before a name was added, whose task records the end after the
    one that adds the name has cleared it. *)
Definition demo_stale_end : list Drive :=
  demo_opendir ++
  [D_arrive 2 (K_readdir ROOT 1 0 4096); D_atom 2 1;
   D_call 2 (Ok (Resp_Readdir [MkDirEntry 5 [dot] None] true));
   D_arrive 3 (K_mkdir ROOT (demo_bytes "d") 493); D_atom 3 2;
   D_call 3 (Ok (Resp_Entry (demo_attr 11 2 Directory None)));
   D_atom 3 3; D_atom 3 3; D_atom 3 3; D_reply 3;
   D_atom 2 4; D_atom 2 4; D_atom 2 4; D_atom 2 4; D_atom 2 4; D_reply 2;
   D_arrive 4 (K_readdir ROOT 1 5 4096); D_atom 4 9; D_atom 4 9; D_atom 4 9; D_atom 4 9].

(** The handle is left at an end that the directory has outgrown, by a name this client
    added and was answered for: its next read there is answered empty without asking
    the server. *)
Example end_outlives_growth :
  (w ← drive demo_cfg demo_world demo_stale_end; reply_of w 4) = Some (FR_Directory [], None).
Proof. by vm_compute. Qed.

(** Attributes fetched before an extended attribute was set, and kept after the task
    that set it dropped what was known. *)
Definition demo_stale_xattrs : list Drive :=
  demo_lookup ++
  [D_reply 1; D_arrive 2 (K_getattr 10 None); D_atom 2 1;
   D_call 2 (Ok (Resp_Attr (demo_attr 10 1 Regular (Some []))));
   D_arrive 3 (K_setxattr 10 (demo_bytes "user.a") (demo_bytes "1") 0 0); D_atom 3 2;
   D_call 3 (Ok Resp_Ok); D_atom 3 3; D_reply 3;
   D_atom 2 4; D_atom 2 4; D_atom 2 4; D_reply 2;
   D_arrive 4 (K_getxattr 10 (demo_bytes "user.a") 0); D_atom 4 5].

(** The attribute just set, and answered for, is denied without asking the server. *)
Example xattr_set_is_denied :
  (w ← drive demo_cfg demo_world demo_stale_xattrs; reply_of w 4) = Some (FR_Error ENODATA, None).
Proof. by vm_compute. Qed.

(** A page of entries with attributes lets the kernel keep the attributes for the
    entries' time, not the attributes'. *)
Example plus_attributes_kept_as_entries :
  match drive demo_cfg demo_world (demo_opendir ++
    [D_arrive 2 (K_readdirplus ROOT 1 0 4096); D_atom 2 1;
     D_call 2 (Ok (Resp_Readdir [MkDirEntry 5 (demo_bytes "f")
                                   (Some (demo_attr 10 1 Regular None))] true));
     D_atom 2 2; D_atom 2 2; D_atom 2 2; D_atom 2 2; D_atom 2 2]) with
  | Some w => match reply_of w 2 with
              | Some (FR_DirectoryPlus [e], _) => (pp_attr_valid e, attr_ttl demo_cfg)
              | _ => (0, 0)
              end
  | None => (0, 0)
  end = (1000, 10).
Proof. by vm_compute. Qed.

(** Times a wire message may carry and no [SystemTime] holds. *)
Example late_time_panics : system_time {| ts_sec := i64_max; ts_nsec := 1000000000 |} = None.
Proof. by vm_compute. Qed.
