(* ===== verification/FuseDirs.v ===== *)
(** * Listing a directory through the mount ([crates/client/src/fuse.rs])

    A directory is read page by page: the kernel asks at the offset of the last entry
    it was given, with a buffer of some size, for plain pages or for pages with
    attributes as it likes; the front end fetches more than that from the server and
    keeps the rest in the handle.  The theorem is that, whatever the sizes, the kinds of
    the pages, and the server's own cuts, the pages are the server's listing. *)

From S2P Require Import Prelude Types Msg ClientTypes ClientHandles Machine Caller Inodes Codec.
From S2P Require Import Float Readahead Fuse FuseInv FuseSafe.

(** ** Reading a directory *)

(** What a page shows of its entries. *)
Definition listed (r : FuseReply) : option (list (Z * list byte)) :=
  match r with
  | FR_Directory es => Some ((λ e, (pe_offset e, pe_name e)) <$> es)
  | FR_DirectoryPlus es => Some ((λ e, (pp_offset e, pp_name e)) <$> es)
  | _ => None
  end.

Definition entry_listed (e : DirEntry) : Z * list byte := (de_next_offset e, de_name e).

(** One request of the kernel's: the clock, the room in its buffer, and whether it asks
    for attributes. *)
Record ReadCall := MkReadCall { rc_now : Z; rc_room : Z; rc_plus : bool }.

Definition read_page (cfg : Config) (ino fh offset : Z) (c : ReadCall) : Prog :=
  if rc_plus c then fuse_readdirplus cfg ino fh offset (rc_room c)
  else fuse_readdir cfg ino fh offset (rc_room c).

(** Read on from [offset] until a page is empty; [None] if one is not a page, or the
    calls run out first. *)
Fixpoint read_on (cfg : Config) (serve : Request → result Error Response) (ino fh : Z)
    (calls : list ReadCall) (offset : Z) (s : Shared) : option (list (Z * list byte)) :=
  match calls with
  | [] => None
  | c :: calls =>
      match exec serve (rc_now c) (read_page cfg ino fh offset c) s with
      | (s, Some (inl r)) =>
          page ← listed r;
          match last page with
          | None => Some []
          | Some (offset, _) => rest ← read_on cfg serve ino fh calls offset s; Some (page ++ rest)
          end
      | _ => None
      end
  end.

(** [o] is where the entries [rest] of the directory [es] begin. *)
Definition position (es : list DirEntry) (o : Z) (rest : list DirEntry) : Prop :=
  (o = 0 ∧ rest = es) ∨ ∃ before e, es = before ++ e :: rest ∧ o = de_next_offset e.

(** Cookies tell entries apart, and none is the start's. *)
Definition cookies_ok (es : list DirEntry) : Prop :=
  NoDup (de_next_offset <$> es) ∧ Forall (λ e, de_next_offset e ≠ 0) es.

(** A server's answer at a position: entries from there, one at least unless none is
    left; all of them, if it says the directory ended. *)
Definition serves (serve : Request → result Error Response) (fh : Z) (es : list DirEntry) : Prop :=
  ∀ o rest max, position es o rest →
    ∃ chunk more ended, serve (Req_Readdir fh o max) = Ok (Resp_Readdir chunk ended)
      ∧ rest = chunk ++ more ∧ (chunk = [] → rest = []) ∧ (ended = true → more = []).

(** An entry either page can show: a dot, or a valid name with its attributes. *)
Definition listable (e : DirEntry) : Prop :=
  is_dots (de_name e) = true
  ∨ ∃ attr name, de_attr e = Some attr ∧ attr_ok attr ∧ Name_new (de_name e) = Ok name.

(** ** Positions *)

Lemma position_unique es o r1 r2 :
  cookies_ok es → position es o r1 → position es o r2 → r1 = r2.
Proof.
  intros [Hn Hz] H1 H2.
  assert (∀ before e r, es = before ++ e :: r → de_next_offset e ≠ 0) as Hz'.
  { intros before e r ->. apply Forall_app in Hz as [_ Hz]. by apply Forall_cons_iff in Hz as [? _]. }
  destruct H1 as [[-> ->]|(b1 & e1 & H1 & ->)], H2 as [[Ho ->]|(b2 & e2 & H2 & He)].
  - done.
  - exfalso. by eapply Hz'.
  - exfalso. by eapply Hz'.
  - assert (b1 ++ [e1] = b2 ++ [e2] ∧ r1 = r2) as [_ ?]; [|done].
    assert (length b1 = length b2) as Hl.
    { eapply (NoDup_lookup _ (length b1) (length b2) (de_next_offset e1)) in Hn; [done| |].
      - rewrite H1, fmap_app, lookup_app_r by (by rewrite length_fmap).
        by rewrite length_fmap, Nat.sub_diag.
      - rewrite H2, fmap_app, lookup_app_r by (by rewrite length_fmap).
        rewrite length_fmap, Nat.sub_diag. cbn. by rewrite He. }
    rewrite H1 in H2. rewrite !(cons_middle _ _ r1), !(cons_middle _ _ r2), !app_assoc in H2.
    apply app_inj_1 in H2; [done|]. rewrite !length_app. cbn. lia.
Qed.

Lemma position_last es o rest delivered e more :
  position es o rest → rest = delivered ++ e :: more → position es (de_next_offset e) more.
Proof.
  intros Hp ->. right. destruct Hp as [[-> <-]|(before & e' & -> & ->)].
  - by exists delivered, e.
  - exists (before ++ e' :: delivered), e. split; [|done]. by rewrite <- app_assoc.
Qed.

Lemma position_listable es o rest : Forall listable es → position es o rest → Forall listable rest.
Proof.
  intros Hf [[_ ->]|(before & e & -> & _)]; [done|].
  apply Forall_app in Hf as [_ Hf]. by apply Forall_cons_iff in Hf as [_ ?].
Qed.

(** ** A page *)

(** What the handle keeps between the kernel's requests. *)
Record dir_ok (es : list DirEntry) (o : Z) (rest : list DirEntry) (st : DirState) : Prop := {
  dok_buffer : ds_buffer st = [] ∨
    ∃ chunk more, ds_buffer st = tag_with_cookies o chunk ∧ rest = chunk ++ more ∧ chunk ≠ [];
  dok_end : ∀ c, ds_end st = Some c → position es c [] }.

Definition room_for (header room : Z) (es : list DirEntry) : Prop :=
  Forall (λ e, entsize header (de_name e) ≤ room) es.

Lemma entsize_mono name : entsize DIRENT name ≤ entsize DIRENTPLUS name.
Proof.
  unfold entsize, DIRENT, DIRENTPLUS. apply Z.mul_le_mono_nonneg_r; [lia|].
  apply Z.div_le_mono; lia.
Qed.

(** The entries delivered and those left of a page of [es] tagged from [o]. *)
Definition split_page (o : Z) (es delivered left : list DirEntry) (rest : DirBuffer) : Prop :=
  es = delivered ++ left
  ∧ rest = tag_with_cookies (default o (de_next_offset <$> last delivered)) left.

Lemma split_cons o e es delivered left rest :
  split_page (de_next_offset e) es delivered left rest →
  split_page o (e :: es) (e :: delivered) left rest.
Proof.
  intros [-> ->]. split; [done|]. rewrite last_cons. by destruct (last delivered).
Qed.

Lemma add_plain_splits t dir parent es : ∀ o room,
  Z.of_nat (size (nt_nodes t)) < 2 ^ 64 - 3 → Forall listable es →
  ∃ added delivered left rest,
    add_plain t dir parent room (tag_with_cookies o es) = Some (added, rest)
    ∧ split_page o es delivered left rest
    ∧ (λ e, (pe_offset e, pe_name e)) <$> added = entry_listed <$> delivered
    ∧ (∀ e es', es = e :: es' → entsize DIRENT (de_name e) ≤ room → delivered ≠ []).
Proof.
  induction es as [|e es IH]; intros o room Hs Hl.
  { exists [], [], [], []. by split_and!. }
  apply Forall_cons_iff in Hl as [He Hl]. cbn [tag_with_cookies add_plain].
  assert (∃ n, plain_number t dir parent e = Some (Some n)) as [n ->].
  { unfold plain_number. do 2 (case_bool_decide; [by eexists|]). destruct He as [He|(attr & nm & -> & _)].
    - exfalso. unfold is_dots in He. by rewrite !bool_decide_eq_false_2 in He.
    - destruct (id_for_total t (Seen_from attr) Hs) as [id ->]. by eexists. }
  cbn [mbind option_bind]. cbv zeta. destruct (Z.ltb_spec room (entsize DIRENT (de_name e))).
  { exists [], [], (e :: es), ((o, e) :: tag_with_cookies (de_next_offset e) es).
    split_and!; [done|done|done|]. intros e' es' [= <- <-]. lia. }
  destruct (IH (de_next_offset e) (room - entsize DIRENT (de_name e)) Hs Hl)
    as (added & delivered & left & rest & -> & Hsp & Heq & _).
  cbn [mbind option_bind fst snd]. eexists _, (e :: delivered), left, rest. split_and!; [done| | |done].
  - by apply split_cons.
  - cbn. by rewrite Heq.
Qed.

Lemma exec_queue_all serve now aliases k : ∀ s, ∃ s' b,
  exec serve now (queue_all aliases k) s = exec serve now (k b) s'
  ∧ sh_dirs s' = sh_dirs s ∧ sh_nodes s' = sh_nodes s.
Proof.
  induction aliases as [|[p n] l IH]; intros s; [by exists s, true|]. cbn [queue_all queue exec].
  destruct (sh_invalidations s); [|by exists s, false].
  destruct (try_send (sh_channel s) (Work_Entry p n)) as [ch| |]; [|by exists s, false|by exists s, false].
  destruct (IH (with_channel ch s)) as (s' & b & -> & Hd & Hn). by exists s', b.
Qed.

(** Recording attributes leaves the nodes and the handles alone. *)
Lemma exec_attr_reported serve now id attr p s : ∃ s',
  exec serve now (attr_reported id attr p) s = exec serve now p s'
  ∧ sh_dirs s' = sh_dirs s ∧ sh_nodes s' = sh_nodes s.
Proof.
  unfold attr_reported. destruct (negb _); [by exists s|]. cbn [exec].
  destruct (sh_reported s !! id) as [before|]; [|by eexists]. case_bool_decide; [by exists s|].
  cbn [look exec]. destruct (any_live_for _ _); [by exists s|]. unfold drop_by_name. cbn [look exec].
  destruct (sh_invalidations s); [|by exists s].
  destruct (exec_queue_all serve now (default [] (nd_aliases <$> nt_nodes (sh_nodes s) !! id))
    (λ dropped, if dropped then reported_insert id attr p else p) s) as (s' & b & -> & Hd & Hn).
  destruct b; [|by exists s']. cbn [reported_insert change exec]. by eexists.
Qed.

Lemma insert_lookup_size t parent name seen r t' :
  insert_lookup t parent name seen = Some (r, t') →
  (size (nt_nodes t') ≤ S (size (nt_nodes t)))%nat.
Proof.
  unfold insert_lookup. destruct (id_for t seen) as [id|]; cbn [mbind option_bind]; [|done].
  destruct (_ =? ROOT); [intros [= <- <-]; lia|]. intros [= <- <-]. cbn [nt_nodes].
  set (t1 := match child t parent name with Some _ => _ | None => _ end).
  assert (dom (nt_nodes t1) = dom (nt_nodes t)) as Hd.
  { subst t1. destruct (child t parent name); [destruct (_ =? _)|];
      cbn [drop_alias set_child upd_node nt_nodes]; by rewrite ?dom_alter_L. }
  rewrite <- !size_dom, dom_insert_L, Hd, size_union_alt.
  assert (size (dom (nt_nodes t) ∖ {[id]}) ≤ size (dom (nt_nodes t)))%nat.
  { apply subseteq_size. set_solver. }
  rewrite size_singleton. lia.
Qed.

Definition shown_names (es : list PlusEntry) : list (Z * list byte) :=
  (λ e, (pp_offset e, pp_name e)) <$> es.

(** Run from [s], the program [p] ends the page of [es] it began with [added]: with
    some more of the entries, at least the first if there is [room] for it, and the
    rest kept in the handle. *)
Definition ends_page (serve : Request → result Error Response) (now fh o : Z) (es : list DirEntry)
    (room : Z) (added : list PlusEntry) (s s0 : Shared) (p : Prog) : Prop :=
  ∃ more delivered left rest s',
    exec serve now p s0 = (s', Some (inl (FR_DirectoryPlus (added ++ more))))
    ∧ split_page o es delivered left rest
    ∧ shown_names more = entry_listed <$> delivered
    ∧ sh_dirs s' = match left with [] => sh_dirs s | _ => alter (set_buffer rest) fh (sh_dirs s) end
    ∧ Z.of_nat (size (nt_nodes (sh_nodes s'))) ≤ Z.of_nat (size (nt_nodes (sh_nodes s))) + len_z delivered
    ∧ (∀ e es', es = e :: es' → entsize DIRENTPLUS (de_name e) ≤ room → delivered ≠ []).

(** The entry does not fit. *)
Lemma ends_full serve now fh o e es room added s :
  room < entsize DIRENTPLUS (de_name e) →
  ends_page serve now fh o (e :: es) room added s s
    (stash fh (tag_with_cookies o (e :: es)) (Reply (FR_DirectoryPlus added))).
Proof.
  intros Hr. exists [], [], (e :: es), (tag_with_cookies o (e :: es)), (alter_dir (set_buffer
      (tag_with_cookies o (e :: es))) fh s).
  rewrite app_nil_r. unfold len_z. split_and!; try done; [cbn; lia|]. intros e' es' [= <- <-]. lia.
Qed.

(** The entry fits, and the page goes on. *)
Lemma ends_goes_on serve now fh o e es room room' added shown s s0 p :
  (pp_offset shown, pp_name shown) = entry_listed e →
  sh_dirs s0 = sh_dirs s →
  Z.of_nat (size (nt_nodes (sh_nodes s0))) ≤ Z.of_nat (size (nt_nodes (sh_nodes s))) + 1 →
  ends_page serve now fh (de_next_offset e) es room' (added ++ [shown]) s0 s0 p →
  ends_page serve now fh o (e :: es) room added s s0 p.
Proof.
  intros He Hd1 Hs1 (more & delivered & left & rest & s' & Hx & Hsp & Hn & Hd & Hz & _).
  exists (shown :: more), (e :: delivered), left, rest, s'. rewrite <- app_assoc in Hx. split_and!.
  - done.
  - by apply split_cons.
  - unfold shown_names in *. cbn. by rewrite He, Hn.
  - by rewrite Hd, Hd1.
  - unfold len_z in *. cbn [length]. lia.
  - done.
Qed.

Lemma exec_add_plus cfg serve now dir fh es : ∀ o room added s,
  Z.of_nat (size (nt_nodes (sh_nodes s))) + len_z es < 2 ^ 64 - 3 → Forall listable es →
  ends_page serve now fh o es room added s s
    (add_plus cfg dir fh room added (tag_with_cookies o es)).
Proof.
  induction es as [|e es IH]; intros o room added s Hs Hl.
  { exists [], [], [], [], s. unfold len_z. cbn. rewrite app_nil_r. split_and!; try done. lia. }
  apply Forall_cons_iff in Hl as [He Hl].
  assert (len_z (e :: es) = 1 + len_z es ∧ 0 ≤ len_z es) as [Hlen Hes0]
    by (unfold len_z; cbn [length]; lia).
  set (size_ := entsize DIRENTPLUS (de_name e)).
  assert (∀ fa s0, sh_dirs s0 = sh_dirs s →
    Z.of_nat (size (nt_nodes (sh_nodes s0))) ≤ Z.of_nat (size (nt_nodes (sh_nodes s))) + 1 →
    ends_page serve now fh o (e :: es) room added s s0
      (add_plus cfg dir fh (room - size_)
         (added ++ [MkPlus (de_next_offset e) (de_name e) (entry_ttl cfg) (entry_ttl cfg) fa])
         (tag_with_cookies (de_next_offset e) es))) as Hon.
  { intros fa s0 Hd0 Hs0. eapply ends_goes_on; [|done|done|apply IH; [lia|done]]. done. }
  pose proof (ends_full serve now fh o e es room added s) as Hfull. fold size_ in Hfull.
  clear IH. cbn [tag_with_cookies add_plus] in *. fold size_.
  case_bool_decide as Hd1; [destruct (Z.ltb_spec room size_); [auto|apply Hon; [done|lia]]|].
  case_bool_decide as Hd2.
  { unfold ends_page. cbn [look exec]. destruct (Z.ltb_spec room size_); [by apply Hfull|].
    apply Hon; [done|lia]. }
  destruct He as [He|(attr & name & -> & Ha & ->)].
  { exfalso. unfold is_dots in He. by rewrite !bool_decide_eq_false_2 in He. }
  unfold ends_page. cbn [exec].
  destruct (id_for_total (sh_nodes s) (Seen_from attr)) as [id Hid]; [lia|]. rewrite Hid.
  destruct (file_attr_ok id attr Ha) as (fa & -> & _).
  destruct (Z.ltb_spec room size_); [by apply Hfull|].
  destruct (insert_lookup (sh_nodes s) dir name (Seen_from attr)) as [[r t]|] eqn:Hins.
  2:{ exfalso. unfold insert_lookup in Hins. rewrite Hid in Hins. cbn in Hins. by destruct (_ =? _). }
  apply insert_lookup_size in Hins. cbn [xattr_remember exec].
  match goal with |- context [exec serve now (attr_reported id attr ?p) ?s0] =>
    destruct (exec_attr_reported serve now id attr p s0) as (s1 & -> & Hd & Hn) end.
  apply Hon; [by rewrite Hd|]. rewrite Hn. cbn. lia.
Qed.

Section reading.
Context (cfg : Config) (serve : Request → result Error Response) (ino fh : Z) (es : list DirEntry).
Context (Hcookies : cookies_ok es) (Hserves : serves serve fh es) (Hlist : Forall listable es).

Lemma from_buffer_spec st o now plus :
  match from_buffer cfg st o now plus with
  | Buffered page => page = ds_buffer st ∧ ds_buffer st ≠ []
  | At_End => ds_end st = Some o
  | Must_Fetch => True
  end.
Proof.
  unfold from_buffer. cbv zeta.
  destruct (negb (o =? 0)), (negb plus || _), (ds_buffer st) as [|[c e] b], (bool_decide (ds_end st = Some o)) eqn:He;
    cbn; try done; try (by apply bool_decide_eq_true in He); destruct (c =? o); try done;
    by apply bool_decide_eq_true in He.
Qed.

Lemma exec_note_end now o chunk more ended p s st :
  position es o (chunk ++ more) → (ended = true → more = []) →
  sh_dirs s !! fh = Some st → ds_buffer st = [] → (∀ c, ds_end st = Some c → position es c []) →
  ∃ s' st', exec serve now (note_end fh (de_next_offset <$> last chunk) ended p) s = exec serve now p s'
    ∧ sh_dirs s' !! fh = Some st' ∧ ds_buffer st' = []
    ∧ (∀ c, ds_end st' = Some c → position es c []) ∧ sh_nodes s' = sh_nodes s.
Proof.
  intros Hp Hended H1 H2 H3. unfold note_end.
  destruct (last chunk) as [e|] eqn:Hl; cbn [fmap option_fmap option_map]; [|by exists s, st].
  cbn [change exec]. eexists _, (set_end _ st). split; [done|]. cbn. rewrite lookup_alter_eq, H1.
  split_and!; [done|done| |done]. intros c Hc. destruct ended; [|done]. injection Hc as <-.
  specialize (Hended eq_refl) as ->. apply last_Some in Hl as [before ->].
  eapply position_last; [done|]. by rewrite app_nil_r.
Qed.

Lemma exec_dir_page now plus k o rest s st :
  position es o rest → sh_dirs s !! fh = Some st → dir_ok es o rest st →
  ∃ chunk more s1 st1,
    exec serve now (dir_page cfg fh o plus k) s = exec serve now (k (Ok (tag_with_cookies o chunk))) s1
    ∧ rest = chunk ++ more ∧ (chunk = [] → rest = [])
    ∧ sh_dirs s1 !! fh = Some st1 ∧ ds_buffer st1 = []
    ∧ (∀ c, ds_end st1 = Some c → position es c []) ∧ sh_nodes s1 = sh_nodes s.
Proof.
  intros Hp Hst [Hb He]. cbn [dir_page exec]. rewrite Hst.
  assert (sh_dirs (alter_dir (set_buffer []) fh s) !! fh = Some (set_buffer [] st)) as Hst1.
  { cbn. by rewrite lookup_alter_eq, Hst. }
  pose proof (from_buffer_spec st o now plus) as Hfb.
  destruct (from_buffer cfg st o now plus) as [page| |].
  { destruct Hfb as [-> Hbuf]. destruct Hb as [Hb|(chunk & more & Hb & -> & Hne)]; [done|].
    rewrite Hb. exists chunk, more, (alter_dir (set_buffer []) fh s), (set_buffer [] st). by split_and!. }
  { assert (rest = []) as -> by (eapply position_unique; [done|done|by apply He]).
    exists [], [], (alter_dir (set_buffer []) fh s), (set_buffer [] st). by split_and!. }
  cbn [call_as exec].
  destruct (Hserves o rest (if o =? 0 then READDIR_FETCH_FIRST else READDIR_FETCH) Hp)
    as (chunk & more & ended & -> & -> & Hc & Hended).
  cbn [mbind result_bind reply_readdir exec].
  edestruct (exec_note_end now o chunk more ended (k (Ok (tag_with_cookies o chunk)))
    (alter_dir (set_fetched now) fh (alter_dir (set_buffer []) fh s))
    (set_fetched now (set_buffer [] st))) as (s2 & st2 & Hx & H1 & H2 & H3 & H4); try done.
  { cbn. by rewrite lookup_alter_eq, lookup_alter_eq, Hst. }
  exists chunk, more, s2, st2. by split_and!.
Qed.

Lemma read_page_step c o rest s st :
  position es o rest → sh_dirs s !! fh = Some st → dir_ok es o rest st →
  Z.of_nat (size (nt_nodes (sh_nodes s))) + len_z rest < 2 ^ 64 - 3 →
  room_for DIRENTPLUS (rc_room c) es →
  ∃ s' r delivered left st',
    exec serve (rc_now c) (read_page cfg ino fh o c) s = (s', Some (inl r))
    ∧ listed r = Some (entry_listed <$> delivered)
    ∧ rest = delivered ++ left ∧ (delivered = [] → rest = [])
    ∧ sh_dirs s' !! fh = Some st'
    ∧ dir_ok es (default o (de_next_offset <$> last delivered)) left st'
    ∧ Z.of_nat (size (nt_nodes (sh_nodes s'))) + len_z left < 2 ^ 64 - 3.
Proof.
  intros Hp Hst Hok Hsize Hroom. unfold read_page.
  assert (∀ plus k, ∃ chunk more s1 st1,
    exec serve (rc_now c) (dir_page cfg fh o plus k) s
      = exec serve (rc_now c) (k (Ok (tag_with_cookies o chunk))) s1
    ∧ rest = chunk ++ more ∧ (chunk = [] → rest = [])
    ∧ sh_dirs s1 !! fh = Some st1 ∧ ds_buffer st1 = []
    ∧ (∀ c, ds_end st1 = Some c → position es c []) ∧ sh_nodes s1 = sh_nodes s) as Hpage.
  { intros plus k. by eapply exec_dir_page. }
  pose proof (position_listable _ _ _ Hlist Hp) as Hl.
  assert (∀ chunk more e chunk', rest = chunk ++ more → chunk = e :: chunk' →
    entsize DIRENTPLUS (de_name e) ≤ rc_room c) as Hfits.
  { intros chunk more e chunk' -> ->. unfold room_for in Hroom. rewrite Forall_forall in Hroom.
    apply Hroom. destruct Hp as [[_ <-]|(b & e' & -> & _)]; [by left|].
    rewrite elem_of_app. right. right. by left. }
  assert (∀ chunk more delivered left rst st1, rest = chunk ++ more →
    split_page o chunk delivered left rst → ds_buffer st1 = [] →
    (∀ c, ds_end st1 = Some c → position es c []) →
    dir_ok es (default o (de_next_offset <$> last delivered)) (left ++ more)
      match left with [] => st1 | _ => set_buffer rst st1 end) as Hkeep.
  { intros chunk more delivered left rst st1 _ [_ ->] Hb He. split; destruct left; cbn; eauto.
    right. by exists (d :: left), more. }
  destruct (rc_plus c).
  - edestruct (Hpage true) as (chunk & more & s1 & st1 & Hx & Hr & Hce & H1 & H2 & H3 & H4).
    unfold fuse_readdirplus. rewrite Hx. cbn iota.
    destruct (exec_add_plus cfg serve (rc_now c) ino fh chunk o (rc_room c) [] s1)
      as (added & delivered & left & rst & s' & -> & Hsp & Hn & Hd & Hz & Hne).
    { rewrite H4. unfold len_z in *. rewrite Hr, length_app in Hsize. lia. }
    { rewrite Hr in Hl. by apply Forall_app in Hl as [? _]. }
    pose proof (Hkeep _ _ _ _ _ _ Hr Hsp H2 H3) as Hdok. destruct Hsp as [Hsp Hrst].
    eexists s', _, delivered, (left ++ more), _. split_and!; [done| | | | |exact Hdok|].
    + cbn [listed app]. unfold shown_names in Hn. by rewrite Hn.
    + by rewrite Hr, Hsp, app_assoc.
    + intros ->. destruct chunk as [|e chunk]; [by apply Hce|]. exfalso.
      by eapply Hne; [done|eapply Hfits|].
    + rewrite Hd. destruct left; [done|]. by rewrite lookup_alter_eq, H1.
    + rewrite H4 in Hz. rewrite Hr, Hsp in Hsize. unfold len_z in *. rewrite !length_app in *. lia.
  - edestruct (Hpage false) as (chunk & more & s1 & st1 & Hx & Hr & Hce & H1 & H2 & H3 & H4).
    unfold fuse_readdir. rewrite Hx. cbn [look exec].
    destruct (add_plain_splits (sh_nodes s1) ino (parent_of (sh_nodes s1) ino) chunk o (rc_room c))
      as (added & delivered & left & rst & -> & Hsp & Hn & Hne).
    { rewrite H4. unfold len_z in *. lia. }
    { rewrite Hr in Hl. by apply Forall_app in Hl as [? _]. }
    cbn [stash change exec]. destruct Hsp as [Hsp Hrst].
    eexists _, _, delivered, (left ++ more), (set_buffer rst st1). split_and!; [done| | | | | |].
    + cbn [listed]. by rewrite Hn.
    + by rewrite Hr, Hsp, app_assoc.
    + intros ->. destruct chunk as [|e chunk]; [by apply Hce|]. exfalso.
      eapply Hne; [done| |done]. pose proof (entsize_mono (de_name e)).
      assert (entsize DIRENTPLUS (de_name e) ≤ rc_room c) by (by eapply Hfits). lia.
    + cbn. by rewrite lookup_alter_eq, H1.
    + split; cbn; [|done]. destruct left as [|d left]; [by left|]. right. by exists (d :: left), more.
    + cbn. rewrite H4, Hr, Hsp in *. unfold len_z in *. rewrite !length_app in *. lia.
Qed.
End reading.

Lemma last_listed (l : list DirEntry) : last (entry_listed <$> l) = entry_listed <$> last l.
Proof. apply fmap_last. Qed.

Lemma read_on_from cfg serve ino fh es calls :
  cookies_ok es → serves serve fh es → Forall listable es → ∀ o rest s st,
  position es o rest → sh_dirs s !! fh = Some st → dir_ok es o rest st →
  Z.of_nat (size (nt_nodes (sh_nodes s))) + len_z rest < 2 ^ 64 - 3 →
  Forall (λ c, room_for DIRENTPLUS (rc_room c) es) calls →
  (length rest < length calls)%nat →
  read_on cfg serve ino fh calls o s = Some (entry_listed <$> rest).
Proof.
  intros Hc Hs Hl. induction calls as [|c calls IH]; intros o rest s st Hp Hst Hok Hz Hr Hlen;
    [cbn in Hlen; lia|].
  apply Forall_cons_iff in Hr as [Hr Hrs].
  destruct (read_page_step cfg serve ino fh es Hc Hs Hl c o rest s st Hp Hst Hok Hz Hr)
    as (s' & r & delivered & left & st' & Hx & Hli & -> & Hne & Hst' & Hok' & Hz').
  cbn [read_on]. rewrite Hx, Hli. cbn [mbind option_bind]. rewrite last_listed.
  destruct (last delivered) as [e|] eqn:Hlast; cbn [fmap option_fmap option_map].
  - apply last_Some in Hlast as [before ->]. unfold entry_listed at 1. cbn [default] in Hok'.
    rewrite (IH _ left s' st'); [|..|done|].
    + cbn [mbind option_bind]. by rewrite (fmap_app _ (before ++ [e])).
    + eapply position_last; [done|]. by rewrite <- app_assoc.
    + done.
    + done.
    + done.
    + rewrite !length_app in Hlen. cbn in Hlen. lia.
  - apply last_None in Hlast as ->. by rewrite (Hne eq_refl).
Qed.

(** C24: a directory reads as the server lists it.  Through one handle, from the start and
    on from the last entry given each time, until a page is empty: however large the
    kernel's buffers are (an entry fits at least), whichever of its pages ask for
    attributes, whenever they are asked for, and wherever the server cuts its own
    replies, the pages together are the directory's entries, each once and in order,
    and the reading ends within one page more than there are entries. *)
Theorem listing_through_the_mount cfg serve ino fh es s now calls :
  cookies_ok es → serves serve fh es → Forall listable es →
  Z.of_nat (size (nt_nodes (sh_nodes s))) + len_z es < 2 ^ 64 - 3 →
  sh_dirs s !! fh = Some (MkDir ino [] now None) →
  Forall (λ c, room_for DIRENTPLUS (rc_room c) es) calls → (length es < length calls)%nat →
  read_on cfg serve ino fh calls 0 s = Some (entry_listed <$> es).
Proof.
  intros Hc Hs Hl Hz Hd Hr Hlen. eapply read_on_from; try done; [by left|].
  split; [by left|done].
Qed.

(** A directory of three entries, served two at a time. *)
Definition demo_entry (o ino : Z) (name : string) : DirEntry :=
  MkDirEntry o (String.list_byte_of_string name)
    (Some (MkAttr ino 5 1 {| ts_sec := 7; ts_nsec := 0 |} {| ts_sec := 7; ts_nsec := 0 |}
             {| ts_sec := 7; ts_nsec := 0 |} Regular 420 1 0 0 0 4096 None (MkIdentity ino []) false)).
Definition demo_dot : DirEntry := MkDirEntry 4 [dot] None.
Definition demo_es : list DirEntry := [demo_dot; demo_entry 9 20 "a"; demo_entry 6 21 "b"].
Definition demo_serve (r : Request) : result Error Response :=
  match r with
  | Req_Readdir _ 0 _ => Ok (Resp_Readdir [demo_dot; demo_entry 9 20 "a"] false)
  | Req_Readdir _ 4 _ => Ok (Resp_Readdir [demo_entry 9 20 "a"] false)
  | Req_Readdir _ 9 _ => Ok (Resp_Readdir [demo_entry 6 21 "b"] true)
  | _ => Ok (Resp_Readdir [] true)
  end.
Definition demo_shared : Shared :=
  with_dirs {[1 := MkDir ROOT [] 0 None]} (Shared_new HandleTable_default).
Definition demo_calls : list ReadCall :=
  [MkReadCall 1 160 true; MkReadCall 2 4096 false; MkReadCall 3 4096 true; MkReadCall 4 160 false].

Lemma listing_through_the_mount_witness :
  read_on (MkConfig 10 10) demo_serve ROOT 1 demo_calls 0 demo_shared
  = Some (entry_listed <$> demo_es).
Proof.
  apply (listing_through_the_mount (MkConfig 10 10) demo_serve ROOT 1 demo_es demo_shared 0 demo_calls).
  - split; [|repeat constructor; done]. apply (bool_decide_unpack _). by vm_compute.
  - intros o rest max [[-> ->]|(before & e & Heq & ->)].
    + by exists [demo_dot; demo_entry 9 20 "a"], [demo_entry 6 21 "b"], false.
    + unfold demo_es in Heq. destruct before as [|e0 [|e1 [|e2 before]]]; cbn in Heq; simplify_eq.
      * by exists [demo_entry 9 20 "a"], [demo_entry 6 21 "b"], false.
      * by exists [demo_entry 6 21 "b"], [], true.
      * by exists [], [], true.
      * by destruct before.
  - assert (∀ o i n name, Name_new (String.list_byte_of_string n) = Ok name → listable (demo_entry o i n)) as H.
    { intros o i n name Hn. right. eexists _, name. split_and!; [done| |done]. repeat split; cbn; lia. }
    unfold demo_es. rewrite !Forall_cons_iff. split_and!; [by left|by eapply H|by eapply H|done].
  - by vm_compute.
  - done.
  - assert (∀ room, 160 ≤ room → room_for DIRENTPLUS room demo_es) as H.
    { intros room Hr. unfold room_for, demo_es. rewrite !Forall_cons_iff.
      split_and!; [..|done]; (etrans; [|exact Hr]); by vm_compute. }
    unfold demo_calls. rewrite !Forall_cons_iff. split_and!; [..|done]; apply H; cbn; lia.
  - cbn. lia.
Defined.
