(* ===== verification/FuseLoops.v ===== *)
(** * The front end's loops end ([crates/client/src/fuse.rs], [client.rs])

    A request by path whose reply is of another file costs the node the name the path
    went by and is tried by the next; an allocation goes chunk by chunk.  A task run
    alone goes round such a loop a bounded number of times, whatever the server answers
    and whatever the clock says ([within]), as long as no chain of names is deeper than a
    path can be ([shallow]; [deep_name_is_kept] shows what happens where one is); and
    ends in a reply when the answers' times can be held ([replies]). *)

From S2P Require Import Prelude Types Msg ClientTypes ClientHandles Machine Caller Inodes Codec.
From S2P Require Import Float Readahead Fuse FuseInv FuseSafe FuseWorld.

(** ** Runs against any server *)

(** Run alone from [s], the task replies, panics, or comes to a loop's head with [P]. *)
Fixpoint goes (P : Shared → Label → Prop) (p : Prog) (s : Shared) : Prop :=
  match p with
  | Reply _ | Panic => True
  | Goto l => P s l
  | Atom step => ∀ now, goes P (step now s).2 (step now s).1
  | Call _ k => ∀ r, goes P (k r) s
  end.

(** It comes to its end within [rounds] turns of its loops. *)
Fixpoint within (cfg : Config) (rounds : nat) (p : Prog) (s : Shared) : Prop :=
  goes (λ s l, match rounds with
               | O => False
               | S rounds => within cfg rounds (loop_body cfg l) s
               end) p s.

(** The same of a run to its reply: the table of nodes can grow, the server's times are
    such as a [SystemTime] holds, and the task does not panic. *)
Fixpoint gets (P : Shared → Label → Prop) (p : Prog) (s : Shared) : Prop :=
  match p with
  | Reply _ => True
  | Panic => False
  | Goto l => P s l
  | Atom step => ∀ now, Z.of_nat (size (nt_nodes (sh_nodes s))) < 2 ^ 64 - 3 →
      gets P (step now s).2 (step now s).1
  | Call _ k => ∀ r, outcome_ok r → gets P (k r) s
  end.
Fixpoint replies (cfg : Config) (rounds : nat) (p : Prog) (s : Shared) : Prop :=
  gets (λ s l, match rounds with
               | O => False
               | S rounds => replies cfg rounds (loop_body cfg l) s
               end) p s.

(** [p] is what is left of request [r]'s task [u] in a reachable world that shares [s]. *)
Definition left_of (cfg : Config) (h : HandleTable) (u : Z) (r : KernelRequest) (p : Prog) (s : Shared) : Prop :=
  ∃ w sent, fuse_reachable cfg h w ∧ w_shared w = s ∧ w_tasks w !! u = Some (MkTask r p sent).

(** A task's run that ends does not end in a panic. *)
Lemma goes_gets cfg h u r P : ∀ p s, left_of cfg h u r p s → goes P p s →
  gets (λ s' l, P s' l ∧ left_of cfg h u r (loop_body cfg l) s') p s.
Proof.
  fix IH 1. intros [rep| |step|req k|l] s (w & sent & Hr & <- & Hu) Hg; cbn in *.
  - done.
  - by apply (reachable_no_panic _ _ _ _ _ Hr Hu).
  - intros now Hsize. apply IH; [|apply Hg]. eexists _, sent. split_and!.
    + eapply rtc_r; [exact Hr|]. by apply (fs_atom cfg w u r step sent now).
    + done.
    + apply lookup_insert_eq.
  - intros out Ho. apply IH; [|apply Hg]. eexists _, _. split_and!.
    + eapply rtc_r; [exact Hr|]. by apply (fs_call cfg w u r req k sent out).
    + done.
    + apply lookup_insert_eq.
  - split; [done|]. eexists _, sent. split_and!.
    + eapply rtc_r; [exact Hr|]. by apply (fs_goto cfg w u r l sent).
    + done.
    + apply lookup_insert_eq.
Qed.

Lemma gets_mono (P Q : Shared → Label → Prop) : (∀ s l, P s l → Q s l) → ∀ p s, gets P p s → gets Q p s.
Proof. intros HPQ. fix IH 1. intros [r| |step|req k|l] s; cbn; auto. Qed.

Lemma within_replies cfg h u r rounds : ∀ p s, left_of cfg h u r p s →
  within cfg rounds p s → replies cfg rounds p s.
Proof.
  induction rounds as [|rounds IH]; intros p s Hl Hw; cbn in *;
    (eapply gets_mono; [|by eapply goes_gets]); cbn; [by intros s' l []|].
  intros s' l [H1 H2]. by apply IH.
Qed.

Section goes.
Context (P : Shared → Label → Prop).

Lemma goes_mono (Q : Shared → Label → Prop) : (∀ s l, P s l → Q s l) →
  ∀ p s, goes P p s → goes Q p s.
Proof.
  intros HPQ. fix IH 1. intros [r| |step|req k|l] s; cbn; auto.
Qed.

Lemma goes_queue w k s : (∀ b s', sh_nodes s' = sh_nodes s → goes P (k b) s') → goes P (queue w k) s.
Proof.
  intros H now. cbn. destruct (sh_invalidations s); [|by apply H].
  destruct (try_send (sh_channel s) w); by apply H.
Qed.

Lemma goes_queue_all aliases k : ∀ s,
  (∀ b s', sh_nodes s' = sh_nodes s → goes P (k b) s') → goes P (queue_all aliases k) s.
Proof.
  induction aliases as [|[parent name] aliases IH]; intros s H; cbn [queue_all]; [by apply H|].
  apply goes_queue. intros [] s' Hs'; [|by apply H]. apply IH. intros b s'' Hs''. apply H. congruence.
Qed.

Lemma goes_drop_by_name ino k s :
  (∀ b s', sh_nodes s' = sh_nodes s → goes P (k b) s') → goes P (drop_by_name ino k) s.
Proof.
  intros H now now'. cbn. destruct (sh_invalidations s); [by apply goes_queue_all|by apply H].
Qed.

Lemma goes_attr_reported id attr p s :
  (∀ s', sh_nodes s' = sh_nodes s → goes P p s') → goes P (attr_reported id attr p) s.
Proof.
  intros H. unfold attr_reported. case_match; [by apply H|]. intros now. cbn.
  destruct (sh_reported s !! id); cbn; [|by apply H].
  case_match; cbn; [by apply H|]. intros now'. cbn. destruct (any_live_for _ _); [by apply H|].
  apply goes_drop_by_name. intros [] s' Hs'; [|by apply H]. intros now''. cbn. by apply H.
Qed.

(** A wrong name costs the node an alias. *)
Lemma goes_alias_was_wrong id path p s :
  (∀ s', sh_nodes s' = (alias_was_wrong (sh_nodes s) id path).2 → goes P p s') →
  goes P (shared_alias_was_wrong id path p) s.
Proof.
  intros H now. cbn. destruct (alias_was_wrong (sh_nodes s) id path) as [[[parent name]|] t]; cbn [fst snd].
  - apply goes_queue. intros b s' Hs'. by apply H.
  - by apply H.
Qed.

(** [settle] records the handle and goes on with what was said. *)
Lemma goes_open_handle path flags kind opener build node k s :
  (∀ attr s' settle, sh_nodes s' = sh_nodes s →
     (∀ said s'', (∀ h r, goes P (k r (Some said)) (with_handles h s'')) →
        goes P (settle said) s'') →
     goes P (node attr settle) s') →
  (∀ r s', sh_nodes s' = sh_nodes s → goes P (k r None) s') →
  goes P (open_handle path flags kind opener build node k) s.
Proof.
  intros Hnode Hk now. destruct (ht_alloc (sh_handles s)) as [fh h] eqn:Ha. cbn [fst snd].
  intros opened.
  assert (∀ said s', (∀ h r, goes P (k r said) (with_handles h s')) →
    goes P (Atom (λ _ s,
          match open_handle_end (sh_handles s) fh path flags kind opener
                  (λ _, default (Err Error_Stale) said) opened with
          | Some (r, h) => (with_handles h s, k r said)
          | None => (s, Panic)
          end)) s') as Hsettle.
  { intros said s' H now'. destruct (open_handle_end _ _ _ _ _ _ _ _) as [[r h']|]; cbn [fst snd];
      [apply H|done]. }
  assert (∀ h' r, goes P (k r None) (with_handles h' (with_handles h s))) as Hnone.
  { intros h' r. by apply Hk. }
  destruct (open_settled opened); try (by apply Hsettle).
  destruct opened as [[]|]; try (by apply Hsettle).
  apply Hnode; [done|]. intros said s'. apply (Hsettle (Some said)).
Qed.
End goes.

(** ** One turn *)

(** The node a path loop is about. *)
Definition label_node (l : Label) : option Z :=
  match l with
  | L_getattr ino _ | L_setattr ino _ _ | L_open ino _ _ | L_opendir ino _ => Some ino
  | L_fallocate _ _ _ _ _ => None
  end.

(** The node's path was wrong, and lost. *)
Definition name_lost (t : NodeTable) (ino : Z) (t' : NodeTable) : Prop :=
  ino ≠ ROOT ∧ ∃ path, path_of t ino = Some path ∧ t' = (alias_was_wrong t ino path).2.

Lemma goes_with_path P ino k s :
  (∀ path, path_of (sh_nodes s) ino = Some path → goes P (k path) s) → goes P (with_path ino k) s.
Proof. intros H now. cbn [fst snd]. destruct (path_of (sh_nodes s) ino); [by apply H|done]. Qed.

Lemma goes_describes P id attr k s :
  goes P (k true) s → (id ≠ ROOT → goes P (k false) s) → goes P (shared_describes id attr k) s.
Proof.
  intros Ht Hf. unfold shared_describes. destruct (Z.eqb_spec id ROOT); [done|].
  intros now. cbn [fst snd]. destruct (node_describes _ _ _); auto.
Qed.

Lemma goes_with_file_attr P id attr k s : (∀ fa, goes P (k fa) s) → goes P (with_file_attr id attr k) s.
Proof. intros H. unfold with_file_attr. destruct (file_attr id attr); [apply H|done]. Qed.

(** Only a request by path alone goes without a handle. *)
Lemma goes_path_for_handle_op P ino fh k s :
  (∀ path by_fh, goes P (k (Ok (path, Some by_fh))) s) →
  (∀ path, path_of (sh_nodes s) ino = Some path → goes P (k (Ok (Some path, None))) s) →
  (∀ e, goes P (k (Err e)) s) →
  goes P (path_for_handle_op ino fh k) s.
Proof.
  intros Hfh Hpath He now. cbn [fst snd]. destruct (path_of (sh_nodes s) ino) as [path|] eqn:Hp.
  - destruct fh; [apply Hfh|by apply Hpath].
  - destruct fh; [apply Hfh|]. intros now'. cbn [fst snd].
    destruct (any_live_for _ _); [apply Hfh|apply He].
Qed.

Section turns.
Context (cfg : Config) (s : Shared).

(** What a turn says of the head it comes back to. *)
Let back (l : Label) (ino : Z) (s' : Shared) (l' : Label) : Prop :=
  l' = l ∧ name_lost (sh_nodes s) ino (sh_nodes s').

(** The reply's attributes are judged when no handle named the file. *)
Lemma goes_judged l ino path attr p :
  path_of (sh_nodes s) ino = Some path → goes (back l ino) p s →
  goes (back l ino)
    (shared_describes ino attr (λ yes,
       if yes then p else shared_alias_was_wrong ino path (Goto l))) s.
Proof.
  intros Hp H. apply goes_describes; [done|]. intros Hne. apply goes_alias_was_wrong.
  intros s' Hs'. split; [done|]. split; [done|]. by exists path.
Qed.

Lemma getattr_goes ino fh : goes (back (L_getattr ino fh) ino) (getattr_turn cfg ino fh) s.
Proof.
  assert (∀ attr, goes (back (L_getattr ino fh) ino)
    ((if ino =? ROOT then
        λ p, Atom (λ _ s, match root_seen (sh_nodes s) (a_identity attr) with
                          | Some t => (with_nodes t s, p)
                          | None => (s, Panic)
                          end)
      else id)
       (xattr_remember cfg ino attr (attr_reported ino attr
          (with_file_attr ino attr (λ fa, Reply (FR_Attr (attr_ttl cfg) fa)))))) s) as Hanswer.
  { intros attr.
    assert (∀ s', goes (back (L_getattr ino fh) ino)
      (xattr_remember cfg ino attr (attr_reported ino attr
         (with_file_attr ino attr (λ fa, Reply (FR_Attr (attr_ttl cfg) fa))))) s') as H.
    { intros s' now. cbn [fst snd]. apply goes_attr_reported. intros s'' _.
      by apply goes_with_file_attr. }
    case_match; [|apply H]. intros now. destruct (root_seen _ _); cbn [fst snd]; [apply H|done]. }
  apply goes_path_for_handle_op; [| |done].
  - intros path by_fh r. destruct (r ≫= reply_attr) as [attr|e]; [apply Hanswer|done].
  - intros path Hp r. destruct (r ≫= reply_attr) as [attr|e]; [|done]. by apply goes_judged.
Qed.

Lemma setattr_goes ino fh set :
  goes (back (L_setattr ino fh set) ino) (setattr_turn cfg ino fh set) s.
Proof.
  assert (∀ attr, goes (back (L_setattr ino fh set) ino)
    (xattr_remember cfg ino attr
       ((if observes_only set then attr_reported ino attr else reported_insert ino attr)
          (with_file_attr ino attr (λ fa, Reply (FR_Attr (attr_ttl cfg) fa))))) s) as Hanswer.
  { intros attr now. cbn [fst snd]. case_match.
    - apply goes_attr_reported. intros s'' _. by apply goes_with_file_attr.
    - intros now'. cbn [fst snd]. by apply goes_with_file_attr. }
  apply goes_path_for_handle_op.
  - intros path by_fh r. destruct (r ≫= reply_attr) as [attr|e]; [apply Hanswer|done].
  - intros path Hp r. destruct (r ≫= reply_attr) as [attr|e]; [|done]. by apply goes_judged.
  - intros e. destruct (setattr_flushes_times set); [|done]. intros now. cbn [fst snd].
    by destruct (is_unlinked_file _ _).
Qed.

(** An open's judgement: what refuses has lost the name. *)
Lemma goes_open l ino path flags kind opener build k :
  path_of (sh_nodes s) ino = Some path →
  (∀ r said s', wrong_name said = false → goes (back l ino) (k r said) s') →
  (∀ r e s', name_lost (sh_nodes s) ino (sh_nodes s') → goes (back l ino) (k r (Some (Err e))) s') →
  goes (back l ino)
    (open_handle path flags kind opener build (shared_same_file ino path) k) s.
Proof.
  intros Hp Hok Hwrong. apply goes_open_handle; [|intros; by apply Hok].
  intros attr s' settle Hs' Hsettle. apply goes_describes.
  - apply Hsettle. intros h r. by apply Hok.
  - intros Hne. apply goes_alias_was_wrong. intros s'' Hs''. apply Hsettle. intros h r.
    apply Hwrong. split; [done|]. exists path. split; [done|]. cbn. by rewrite Hs'', Hs'.
Qed.

Lemma open_goes ino flags opener :
  goes (back (L_open ino flags opener) ino) (open_turn cfg ino flags opener) s.
Proof.
  apply goes_with_path. intros path Hp. apply goes_open; [done| |].
  - intros r said s' ->. destruct r as [[fh attr]|]; [|done]. intros now. cbn [fst snd].
    by apply goes_attr_reported.
  - intros r e s' Hl. by split.
Qed.

Lemma opendir_goes ino opener :
  goes (back (L_opendir ino opener) ino) (opendir_turn ino opener) s.
Proof.
  apply goes_with_path. intros path Hp. apply goes_open; [done| |].
  - intros r said s' ->. by destruct r as [[fh attr]|].
  - intros r e s' Hl. by split.
Qed.

Lemma turn_goes l ino : label_node l = Some ino → goes (back l ino) (loop_body cfg l) s.
Proof.
  destruct l; intros [= <-];
    [apply getattr_goes|apply setattr_goes|apply open_goes|apply opendir_goes].
Qed.
End turns.

(** ** The other handlers do not loop *)

Section straight.
Context (P : Shared → Label → Prop) (cfg : Config).

Lemma goes_with_name os k s : (∀ name, goes P (k name) s) → goes P (with_name os k) s.
Proof. intros H. unfold with_name. destruct (name_of os); [apply H|done]. Qed.

Lemma goes_register parent name attr k s :
  (∀ r s', goes P (k r) s') → goes P (register cfg parent name attr k) s.
Proof.
  intros H now. destruct (insert_lookup _ _ _ _) as [[[id|] t]|]; cbn [fst snd]; [|apply H|done].
  intros now'. cbn [fst snd]. apply goes_attr_reported. intros s' _. apply H.
Qed.

Lemma goes_reply_entry parent name attr s : goes P (reply_entry cfg parent name attr) s.
Proof. apply goes_register. intros [id|e] s'; [by apply goes_with_file_attr|done]. Qed.

Lemma goes_reply_created parent name attr s : goes P (reply_created cfg parent name attr) s.
Proof. intros now. apply goes_reply_entry. Qed.

Lemma goes_dir_page fh offset plus k s :
  (∀ r s', goes P (k r) s') → goes P (dir_page cfg fh offset plus k) s.
Proof.
  intros H now. destruct (sh_dirs s !! fh) as [st|]; cbn [fst snd]; [|apply H].
  destruct (from_buffer cfg st offset now plus); [apply H..|]. intros r.
  destruct (r ≫= reply_readdir) as [[entries ended]|e]; [|apply H]. intros now'. cbn [fst snd].
  unfold note_end. destruct (_ <$> _); [|apply H]. intros now''. apply H.
Qed.

Lemma goes_add_plus dir fh : ∀ entries room added s, goes P (add_plus cfg dir fh room added entries) s.
Proof.
  induction entries as [|[cookie e] rest IH]; intros room added s; [done|]. cbn [add_plus].
  assert (∀ s, goes P (stash fh ((cookie, e) :: rest) (Reply (FR_DirectoryPlus added))) s) as Hends
    by done.
  case_bool_decide; [destruct (room <? _); [apply Hends|apply IH]|].
  case_bool_decide.
  { intros now. cbn [fst snd]. destruct (room <? _); [apply Hends|apply IH]. }
  destruct (de_attr e) as [attr|]; [|apply IH]. destruct (Name_new (de_name e)); [|apply IH].
  intros now. destruct (id_for _ _); [|done]. destruct (file_attr _ _); [|done].
  destruct (room <? _); [apply Hends|]. destruct (insert_lookup _ _ _ _) as [[r t]|]; [|done].
  cbn [fst snd]. intros now'. cbn [fst snd]. apply goes_attr_reported. intros s' _. apply IH.
Qed.

Lemma goes_client_release fh req k s : (∀ r s', goes P (k r) s') → goes P (client_release fh req k) s.
Proof.
  intros H now. destruct (release_begins _ _) as [[] h]; cbn [fst snd]; [|apply H].
  intros r now'. destruct (release_end _ _ _) as [[out h']|]; cbn [fst snd]; [apply H|done].
Qed.

Lemma goes_reply_ok_or r s : goes P (reply_ok_or r) s.
Proof. by destruct r. Qed.

Lemma goes_making parent os build s : goes P (making cfg parent os build) s.
Proof.
  apply goes_with_name. intros name. apply goes_with_path. intros path _ r.
  destruct (r ≫= reply_attr); [apply goes_reply_created|done].
Qed.

Lemma goes_unmaking parent os build s : goes P (unmaking parent os build) s.
Proof.
  apply goes_with_name. intros name. apply goes_with_path. intros path _ r.
  by destruct (r ≫= reply_ok).
Qed.

Lemma goes_rename parent os newparent newos flags s :
  goes P (fuse_rename parent os newparent newos flags) s.
Proof.
  apply goes_with_name. intros name. apply goes_with_name. intros newname.
  apply goes_with_path. intros path _. apply goes_with_path. intros newpath _ r.
  by destruct (r ≫= reply_ok).
Qed.

Lemma goes_link ino newparent newos s : goes P (fuse_link cfg ino newparent newos) s.
Proof.
  apply goes_with_name. intros newname. apply goes_with_path. intros path _.
  apply goes_with_path. intros newpath _ r. destruct (r ≫= reply_attr); [|done].
  apply goes_describes; [apply goes_reply_created|]. intros _. apply goes_alias_was_wrong.
  intros. apply goes_reply_created.
Qed.

Lemma goes_create parent os mode flags opener s : goes P (fuse_create cfg parent os mode flags opener) s.
Proof.
  apply goes_with_name. intros name. apply goes_with_path. intros path _.
  assert (∀ created (said : option (result Error Z)) s', goes P
    match created, said with
    | Ok (fh, attr), Some (Ok id) =>
        with_file_attr id attr (λ fa, Reply (FR_Created (Z.min (entry_ttl cfg) (attr_ttl cfg)) fa fh))
    | Ok _, _ => fail EIO
    | Err e, _ => fail_with e
    end s') as Hk.
  { intros [[fh attr]|e] [[id|e']|] s'; try done. by apply goes_with_file_attr. }
  unfold client_create. destruct (Path_join path name); [|apply (Hk (Err _) None)].
  apply goes_open_handle; [|intros r s' _; apply (Hk r None)]. intros attr s' settle _ Hsettle now. cbn [fst snd].
  apply goes_register. intros r s''. apply Hsettle. intros h r'. apply (Hk r' (Some _)).
Qed.

Lemma goes_read fh offset size flags s : goes P (fuse_read fh offset size flags) s.
Proof.
  unfold fuse_read. destruct (through_page_cache flags).
  - intros now. cbn [fst snd]. intros r. by destruct (r ≫= reply_bytes).
  - intros r. by destruct (r ≫= reply_bytes).
Qed.

Lemma goes_lseek ino fh offset whence s : goes P (fuse_lseek ino fh offset whence) s.
Proof.
  assert (∀ w, goes P (look (λ s, may_be_dirty (sh_handles s) ino) (λ dirty,
      if dirty then fail EINVAL
      else call_as reply_seeked (Req_Lseek fh offset w) (λ r,
        match r with
        | Ok found => if found <=? i64_max then Reply (FR_Lseek found) else fail EIO
        | Err e => fail_with e
        end))) s) as H.
  { intros w now. cbn [fst snd]. destruct (may_be_dirty _ _); [done|]. intros r.
    destruct (r ≫= reply_seeked) as [found|]; [|done]. by destruct (found <=? i64_max). }
  unfold fuse_lseek. repeat case_match; try done; apply H.
Qed.

Lemma goes_release ino fh s : goes P (fuse_release ino fh) s.
Proof.
  intros now now'. cbn [fst snd]. apply goes_client_release. intros [[]|] s'; [|done].
  destruct (is_writer _ _); [|done]. intros now''. cbn [fst snd].
  destruct (any_live_for _ _); [done|]. intros now'''. cbn [fst snd]. by apply goes_drop_by_name.
Qed.

Lemma goes_readdir ino fh offset room s : goes P (fuse_readdir cfg ino fh offset room) s.
Proof.
  apply goes_dir_page. intros [page|] s'; [|done]. intros now now'. cbn [fst snd].
  by destruct (add_plain _ _ _ _ _) as [[added rest]|].
Qed.

Lemma goes_readdirplus ino fh offset room s : goes P (fuse_readdirplus cfg ino fh offset room) s.
Proof. apply goes_dir_page. intros [page|] s'; [apply goes_add_plus|done]. Qed.

Lemma goes_reply_xattr size value s : goes P (reply_xattr size value) s.
Proof. unfold reply_xattr. by repeat case_match. Qed.

Lemma goes_getxattr ino name size s : goes P (fuse_getxattr ino name size) s.
Proof.
  intros now. cbn [fst snd]. destruct (known_absent _ _ _ _); [done|].
  apply goes_with_path. intros path _ r. destruct (r ≫= reply_bytes); [apply goes_reply_xattr|done].
Qed.

Lemma goes_listxattr ino size s : goes P (fuse_listxattr ino size) s.
Proof.
  intros now. cbn [fst snd]. destruct (known_list _ _ _); [apply goes_reply_xattr|].
  apply goes_with_path. intros path _ r. destruct (r ≫= reply_bytes); [apply goes_reply_xattr|done].
Qed.

Lemma goes_setxattr ino name value flags position s :
  goes P (fuse_setxattr ino name value flags position) s.
Proof.
  unfold fuse_setxattr. destruct (negb _); [done|]. apply goes_with_path. intros path _ r now.
  apply goes_reply_ok_or.
Qed.

Lemma goes_forget ino n s : goes P (fuse_forget ino n) s.
Proof. intros now. by destruct (forget _ _ _) as [[] t]. Qed.

Lemma goes_lookup parent name s : goes P (fuse_lookup cfg parent name) s.
Proof.
  apply goes_with_name. intros n. apply goes_with_path. intros path _ r.
  destruct (r ≫= reply_attr); [apply goes_reply_entry|done].
Qed.

Lemma goes_releasedir fh s : goes P (fuse_releasedir fh) s.
Proof. intros now. apply goes_client_release. intros r s'. apply goes_reply_ok_or. Qed.

(** The path loops are labels of their own; so is an allocation. *)
Definition entry_label (req : KernelRequest) : option Label :=
  match req with
  | K_getattr ino fh => Some (L_getattr ino fh)
  | K_setattr ino mode uid gid size atime mtime fh =>
      Some (L_setattr ino fh
        (MkSetAttr mode uid gid size (time_or_now <$> atime) (time_or_now <$> mtime)))
  | K_open ino flags opener => Some (L_open ino (flags_for_server flags) opener)
  | K_opendir ino opener => Some (L_opendir ino opener)
  | K_fallocate _ fh offset length mode => Some (L_fallocate fh offset length mode 0)
  | _ => None
  end.

Lemma handler_straight req s : entry_label req = None → goes P (handler cfg req) s.
Proof.
  destruct req; intros Hl; cbn in Hl; try done; cbn [handler]; try exact I;
    unfold fuse_mknod, fuse_mkdir, fuse_symlink, fuse_unlink, fuse_rmdir;
    auto using goes_lookup, goes_forget, goes_making, goes_unmaking, goes_rename, goes_link,
      goes_create, goes_read, goes_lseek, goes_release, goes_readdir, goes_readdirplus,
      goes_getxattr, goes_listxattr, goes_setxattr, goes_releasedir.
  - apply goes_with_path. intros path _ r. by destruct (r ≫= reply_bytes).
  - intros r. by destruct (r ≫= reply_written).
  - unfold fuse_copy_file_range. destruct (negb _); [done|]. intros r.
    by destruct (r ≫= reply_copied len).
  - intros r. apply goes_reply_ok_or.
  - intros r. apply goes_reply_ok_or.
  - intros now r. by destruct (r ≫= reply_statfs).
  - apply goes_with_path. intros path _ r now. apply goes_reply_ok_or.
  - apply goes_with_path. intros path _ r. apply goes_reply_ok_or.
Qed.

Lemma handler_entry req l : entry_label req = Some l → handler cfg req = loop_body cfg l.
Proof. by destruct req; intros [= <-]. Qed.
End straight.

(** ** Names run out *)

(** Every chain of names from the root is one the climb goes to the end of. *)
Definition shallow (t : NodeTable) : Prop := ∀ ns id, leads t ns id → (length ns ≤ MAX_DEPTH)%nat.

Definition n_aliases (t : NodeTable) (id : Z) : nat :=
  length (default [] (nd_aliases <$> nt_nodes t !! id)).

Lemma find_map_ext {A B} (f g : A → option B) l :
  (∀ x, x ∈ l → f x = g x) → find_map f l = find_map g l.
Proof.
  induction l as [|x l IH]; intros H; cbn; [done|]. rewrite (H x); [|by left].
  rewrite IH; [done|]. intros y Hy. apply H. by right.
Qed.

(** One more level makes no difference where no chain is that deep. *)
Lemma names_to_enough t : ∀ fuel id,
  (∀ ns, leads t ns id → (length ns ≤ fuel)%nat) → names_to (S fuel) t id = names_to fuel t id.
Proof.
  induction fuel as [|fuel IH]; intros id Hd.
  - destruct (names_to 1 t id) as [ns|] eqn:Hn.
    + apply names_to_sound in Hn as [Hl _]. pose proof (Hd ns Hl) as Hlen.
      inversion Hl as [|ns' p name id' _ _ _]; subst; [done|]. rewrite length_app in Hlen. cbn in Hlen. lia.
    + cbn in *. by destruct (id =? ROOT).
  - cbn [names_to] in *. destruct (Z.eqb_spec id ROOT) as [|Hne]; [done|].
    destruct (nt_nodes t !! id) as [n|] eqn:Hn; [|done]. cbn [mbind option_bind].
    apply find_map_ext. intros [p name] Hin. rewrite elem_of_reverse in Hin. cbn [fst snd].
    f_equal. apply (IH p). intros ns Hl.
    assert (leads t (ns ++ [name]) id) as Hl'.
    { eapply leads_alias; [done|done|]. by exists n. }
    apply Hd in Hl'. rewrite length_app in Hl'. cbn in Hl'. lia.
Qed.

Lemma rposition_is_Some {A} (p : A → bool) l x : x ∈ l → p x = true → is_Some (rposition p l).
Proof.
  induction 1 as [x l|x y l Hin IH]; intros Hp; cbn.
  - destruct (rposition p l); [by eexists|]. rewrite Hp. by eexists.
  - destruct (IH Hp) as [i ->]. by eexists.
Qed.

Lemma aliased_unname ino t a b id : aliased (unname ino t a) b id ↔ aliased t b id.
Proof.
  unfold unname. destruct a as [p name]. case_match; [|done]. apply aliased_remove_child.
Qed.

Lemma elem_of_take_in {A} n (l : list A) x : x ∈ take n l → x ∈ l.
Proof. intros H. rewrite <- (take_drop n l). apply elem_of_app. by left. Qed.
Lemma elem_of_drop_in {A} n (l : list A) x : x ∈ drop n l → x ∈ l.
Proof. intros H. rewrite <- (take_drop n l). apply elem_of_app. by right. Qed.

Lemma rposition_lookup {A} (p : A → bool) l : ∀ i, rposition p l = Some i → is_Some (l !! i).
Proof.
  induction l as [|x l IH]; intros i; cbn; [done|]. destruct (rposition p l) as [j|].
  - intros [= <-]. by apply IH.
  - destruct (p x); [|done]. intros [= <-]. by eexists.
Qed.

Lemma n_aliases_unname i t a id : n_aliases (unname i t a) id = n_aliases t id.
Proof.
  unfold unname. case_bool_decide; [|done]. unfold n_aliases, remove_child, upd_node. cbn [nt_nodes].
  rewrite lookup_alter. case_decide; [|done]. subst. by destruct (nt_nodes t !! _).
Qed.

Lemma alias_was_wrong_leads t id path ns j :
  leads (alias_was_wrong t id path).2 ns j → leads t ns j.
Proof.
  assert (∀ a j, aliased (alias_was_wrong t id path).2 a j → aliased t a j) as Hal.
  { intros a i. unfold alias_was_wrong. destruct (Path_split_last path) as [[dir last]|]; [|done].
    destruct (nt_nodes t !! id) as [node|] eqn:Hn; [|done].
    destruct (rposition _ _) as [at_|]; [|done].
    destruct (nd_aliases node !! at_) as [[parent name]|]; [|done]. cbn [snd].
    rewrite aliased_unname. unfold aliased, upd_node. cbn [nt_nodes]. rewrite lookup_alter.
    case_decide as Hd; [|done]. subst i. rewrite Hn. cbn. intros (n & [= <-] & Hin). exists node.
    split; [done|]. cbn in Hin. rewrite delete_take_drop in Hin.
    apply elem_of_app in Hin as [Hin|Hin]; [by apply (elem_of_take_in at_)|by apply (elem_of_drop_in (S at_))]. }
  induction 1 as [|ns p name i _ IH Hne Ha]; [constructor|]. eapply leads_alias; eauto.
Qed.

(** The name a path went by is found and lost. *)
Lemma path_of_loses t id path :
  shallow t → id ≠ ROOT → path_of t id = Some path →
  (n_aliases (alias_was_wrong t id path).2 id < n_aliases t id)%nat.
Proof.
  intros Hsh Hne. unfold path_of. destruct (names_to (S MAX_DEPTH) t id) as [ns|] eqn:Hns; [|done].
  cbn [mbind option_bind]. destruct (Path_from_names ns) as [p|] eqn:Hp; [|done]. intros [= ->].
  apply Path_from_names_Ok in Hp as [-> _]. cbn [names_to] in Hns.
  destruct (Z.eqb_spec id ROOT) as [|_]; [done|].
  destruct (nt_nodes t !! id) as [node|] eqn:Hn; [|done]. cbn [mbind option_bind] in Hns.
  apply find_map_Some in Hns as ([parent name] & Hin & Hf). rewrite elem_of_reverse in Hin.
  cbn [fst snd] in Hf. destruct (names_to MAX_DEPTH t parent) as [ns'|] eqn:Hp; [|done].
  injection Hf as <-. unfold alias_was_wrong, Path_split_last. cbn [names].
  rewrite reverse_snoc, Hn. cbn [reverse]. rewrite reverse_involutive.
  assert (names_to (S MAX_DEPTH) t parent = Some ns') as Hp'.
  { rewrite names_to_enough; [done|]. intros ms Hms. by eapply Hsh. }
  destruct (rposition_is_Some (λ a : Z * Name,
    bool_decide (a.2 = name) && bool_decide (names_to (S MAX_DEPTH) t a.1 = Some (names (MkPath ns'))))
    (nd_aliases node) (parent, name)) as [at_ Hat]; [done| |].
  { cbn [fst snd names]. by rewrite Hp', !bool_decide_true. }
  cbn [names] in Hat |- *. rewrite Hat. apply rposition_lookup in Hat as [[p' name'] Ha].
  rewrite Ha. cbn [snd]. rewrite n_aliases_unname. unfold n_aliases, upd_node. cbn [nt_nodes].
  rewrite lookup_alter, decide_True, Hn by done. cbn. rewrite length_delete by by eexists.
  apply lookup_lt_Some in Ha. lia.
Qed.

Lemma name_lost_shrinks t id t' : shallow t → name_lost t id t' →
  shallow t' ∧ (n_aliases t' id < n_aliases t id)%nat.
Proof.
  intros Hsh (Hne & path & Hp & ->). split; [|by apply path_of_loses].
  intros ns j Hl. by eapply Hsh, alias_was_wrong_leads.
Qed.

Lemma path_loop_within cfg l ino : label_node l = Some ino → ∀ rounds s,
  shallow (sh_nodes s) → (n_aliases (sh_nodes s) ino ≤ rounds)%nat →
  within cfg rounds (loop_body cfg l) s.
Proof.
  intros Hl. induction rounds as [|rounds IH]; intros s Hsh Hn;
    (eapply goes_mono; [|by apply turn_goes]); intros s' l' [-> Hlost];
    (apply name_lost_shrinks in Hlost as [Hsh' Hlt]; [|done]); [lia|].
  apply IH; [done|lia].
Qed.

Lemma fallocate_within cfg fh offset len mode : ∀ rounds done s,
  len - done ≤ (Z.of_nat rounds + 1) * MAX_FALLOCATE →
  within cfg rounds (loop_body cfg (L_fallocate fh offset len mode done)) s.
Proof.
  assert (0 < MAX_FALLOCATE) as Hpos by done.
  induction rounds as [|rounds IH]; intros d s Hd; cbn [within loop_body fallocate_turn] in *;
    intros r; destruct (r ≫= reply_ok) as [[]|]; cbv zeta; try apply goes_reply_ok_or;
    (destruct (Z.eqb_spec (d + Z.min (len - d) MAX_FALLOCATE) len); [apply goes_reply_ok_or|]).
  - lia.
  - apply IH. lia.
Qed.

(** Nodes ranked below the names they have make a shallow table. *)
Lemma shallow_ranked t (rank : Z → nat) :
  (∀ id, rank id ≤ MAX_DEPTH)%nat →
  map_Forall (λ id n, Forall (λ a : Z * Name, rank a.1 < rank id)%nat (nd_aliases n)) (nt_nodes t) →
  shallow t.
Proof.
  intros Hmax Hr.
  assert (∀ ns id, leads t ns id → length ns ≤ rank id)%nat as H.
  { induction 1 as [|ns p name id _ IH _ (n & Hn & Hin)]; [cbn; lia|].
    specialize (Hr id n Hn). rewrite Forall_forall in Hr. specialize (Hr _ Hin). cbn in Hr.
    rewrite length_app. cbn. lia. }
  intros ns id Hl. etrans; [by apply H|done].
Qed.

(** ** Properties *)

(** The turns a request's loop may take beyond its first. *)
Definition rounds_of (req : KernelRequest) (t : NodeTable) : nat :=
  match req with
  | K_getattr ino _ | K_setattr ino _ _ _ _ _ _ _ | K_open ino _ _ | K_opendir ino _ => n_aliases t ino
  | K_fallocate _ _ _ length _ => Z.to_nat (length / MAX_FALLOCATE)
  | _ => O
  end.

Lemma handler_within cfg req s :
  shallow (sh_nodes s) → within cfg (rounds_of req (sh_nodes s)) (handler cfg req) s.
Proof.
  intros Hsh. destruct (entry_label req) as [l|] eqn:Hl.
  - rewrite (handler_entry cfg req l Hl).
    destruct req; inversion Hl; subst l; try (eapply path_loop_within; [reflexivity|done|cbn; lia]).
    apply fallocate_within. cbn [rounds_of].
    pose proof (Z_div_mod_eq_full length MAX_FALLOCATE).
    pose proof (Z.mod_pos_bound length MAX_FALLOCATE). assert (0 < MAX_FALLOCATE) by done. nia.
  - destruct (rounds_of req (sh_nodes s)); by apply handler_straight.
Qed.

(** C34: A kernel request of a reachable mount that no other task interferes with comes to
    its reply, if no chain of names from the root is deeper than a path can be.
    [getattr], [setattr], [open] and [opendir] go round their loop at most once for each
    name the node has, since a reply of another file takes the name the path went by from
    the node; [fallocate] at most once for each full chunk of the range; every other
    handler not at all.  That bound holds whatever the server answers to each of the calls
    and whatever the clock says; and when the answers' times are such as a [SystemTime]
    holds, the task ends in a reply and not in a panic. *)
Theorem loops_end cfg h w u req sent :
  fuse_reachable cfg h w → w_tasks w !! u = Some (MkTask req (handler cfg req) sent) →
  shallow (sh_nodes (w_shared w)) →
  let rounds := rounds_of req (sh_nodes (w_shared w)) in
  within cfg rounds (handler cfg req) (w_shared w)
  ∧ replies cfg rounds (handler cfg req) (w_shared w).
Proof.
  intros Hr Hu Hsh rounds. pose proof (handler_within cfg req (w_shared w) Hsh) as Hw.
  split; [exact Hw|]. eapply within_replies; [|exact Hw]. by exists w, sent.
Qed.

Definition demo_rank (id : Z) : nat := if id =? 10 then 1%nat else 0%nat.
(** A file looked up and then asked for its attributes: two turns at most. *)
Definition demo_stat : list Drive := demo_lookup ++ [D_reply 1; D_arrive 2 (K_getattr 10 None)].

Lemma loops_end_witness :
  ∃ w, drive demo_cfg demo_world demo_stat = Some w
    ∧ n_aliases (sh_nodes (w_shared w)) 10 = 1%nat
    ∧ replies demo_cfg 1 (handler demo_cfg (K_getattr 10 None)) (w_shared w).
Proof.
  assert (match drive demo_cfg demo_world demo_stat with
          | Some w => (n_aliases (sh_nodes (w_shared w)) 10 =? 1)%nat
              && bool_decide (map_Forall (λ id n, Forall (λ a : Z * Name,
                   demo_rank a.1 < demo_rank id)%nat (nd_aliases n))
                   (nt_nodes (sh_nodes (w_shared w))))
              && match w_tasks w !! 2 with Some (MkTask (K_getattr 10 None) _ None) => true | _ => false end
          | None => false
          end = true) as H by (by vm_compute).
  destruct (drive demo_cfg demo_world (demo_lookup ++ [D_reply 1])) as [w0|] eqn:H0; [|by vm_compute in H0].
  assert (drive demo_cfg demo_world demo_stat = drive_step demo_cfg w0 (D_arrive 2 (K_getattr 10 None))) as Heq.
  { unfold demo_stat. change [D_reply 1; D_arrive 2 (K_getattr 10 None)]
      with ([D_reply 1] ++ [D_arrive 2 (K_getattr 10 None)]).
    rewrite app_assoc, drive_app, H0. cbn [mbind option_bind drive].
    by destruct (drive_step demo_cfg w0 (D_arrive 2 (K_getattr 10 None))). }
  destruct (drive demo_cfg demo_world demo_stat) as [w|] eqn:Hd; [|done].
  apply andb_true_iff in H as [[Hn%Nat.eqb_eq Hf%bool_decide_eq_true]%andb_true_iff _].
  exists w. split; [done|]. split; [done|].
  assert (w_tasks w !! 2 = Some (MkTask (K_getattr 10 None) (handler demo_cfg (K_getattr 10 None)) None)) as Hu.
  { symmetry in Heq. cbn [drive_step] in Heq. destruct (w_tasks w0 !! 2); [done|].
    destruct (may_sendb _ _); [|done]. injection Heq as <-. apply lookup_insert_eq. }
  rewrite <- Hn. refine (proj2 (loops_end demo_cfg HandleTable_default w 2 _ None (drive_sound _ _ _ _ Hd) Hu _)).
  apply (shallow_ranked _ demo_rank); [|exact Hf].
  intros id. unfold demo_rank. change MAX_DEPTH with 2048%nat. case_match; lia.
Defined.

(** ** A chain too deep *)

(** [n] directories, each in the one before. *)
Fixpoint deep_chain (n : nat) (parent : Z) (t : NodeTable) : Z * NodeTable :=
  match n with
  | O => (parent, t)
  | S n =>
      let ino := parent + 1 in
      match insert_lookup t parent (demo_name "x") (MkSeen (ino + 1000) (MkIdentity 1
              (map z_byte [ino / 256; ino mod 256])) false Directory) with
      | Some (Some id, t) => deep_chain n id t
      | _ => (parent, t)
      end
  end.

Definition named (parent : Z) (name : string) (ino h : Z) (kind : FileKind) (t : NodeTable) : NodeTable :=
  from_option snd t (insert_lookup t parent (demo_name name) (demo_seen ino h kind)).

(** A directory seen at [p] and then below the deepest of a chain, with a file of its
    first days. *)
Definition deep_nodes : NodeTable :=
  let t := named ROOT "p" 10 1 Directory NodeTable_new in
  let t := named 10 "f" 11 2 Regular t in
  let '(bottom, t) := deep_chain MAX_DEPTH ROOT t in
  named bottom "p" 10 1 Directory t.

(** The file's path goes by [p], since the climb gives the deep name up; told that it is
    wrong, the table climbs from the directory itself, with a level to spare, reaches the root
    by the deep name, and so finds no name to take: the loop's next turn is this one. *)
Example deep_name_is_kept :
  match path_of deep_nodes 11 with
  | Some path => bool_decide (names path = [demo_name "p"; demo_name "f"])
                 && bool_decide ((alias_was_wrong deep_nodes 11 path).1 = None)
  | None => false
  end = true.
Proof. vm_compute. reflexivity. Qed.
