(* ===== verification/Invalidate.v ===== *)
(** * Cache invalidation ([crates/client/src/invalidate.rs])

    Server events, and reconnects, become work for the notifier thread, which tells the
    kernel what to drop.  The translator is a task of its own: one turn takes an event
    or a change of the connection's state and queues what it comes to, without ever
    waiting for room; the notifier thread takes the queue's work in order.  Both act on
    the front end's shared state ([Fuse.v]), in steps that [FuseWorld.others] allows. *)

From S2P Require Import Prelude Types Msg ClientTypes ClientHandles Machine Caller Inodes Codec.
From S2P Require Import Readahead Fuse FuseInv FuseWorld.

(** ** The translator *)

Definition SWEEP_LIMIT : nat := 4096.

Record Translator := MkTranslator { tr_sweep_pending : bool; tr_last_generation : Z }.
Definition Translator_new : Translator := MkTranslator false 0.

(** An entry of every name of a node. *)
Definition alias_work (node : Node) : list Work :=
  (λ a : Z * Name, Work_Entry a.1 a.2) <$> nd_aliases node.

(** What an item of an event comes to; [open] is the nodes held open. *)
Definition item_work (nodes : NodeTable) (open : list Z) (item : EventItem) : list Work :=
  match item with
  | Ev_Entry dir name =>
      match resolve_path nodes dir with Some parent => [Work_Entry parent name] | None => [] end
  | Ev_Data path =>
      match resolve_path nodes path with
      | Some ino =>
          Work_Inode ino ::
          match nt_nodes nodes !! ino with
          | Some node => if bool_decide (nd_kind node = Regular) then alias_work node else []
          | None => []
          end
      | None => []
      end
  | Ev_Overflow => [Work_Sweep]
  | Ev_Unwatched dir =>
      match ino ← resolve_path nodes dir; node ← nt_nodes nodes !! ino; Some (ino, node) with
      | Some (ino, node) =>
          alias_work node ++ Work_DirGrew ino ::
          (Work_Inode <$> filter (λ c, c ∈ open) (map_to_list (nd_children node)).*2)
      | None => []
      end
  end.

Definition is_unwatched (i : EventItem) : bool :=
  match i with Ev_Unwatched _ => true | _ => false end.

Definition event_work (s : Shared) (e : Event) : list Work :=
  let open := if existsb is_unwatched (ev_items e) then open_nodeids (sh_handles s) else [] in
  flat_map (item_work (sh_nodes s) open) (ev_items e).

(** How queueing a list of work ended. *)
Inductive SendAll := All_Sent | Queue_Full | Queue_Gone.

Fixpoint send_all (ch : Channel) (work : list Work) : Channel * SendAll :=
  match work with
  | [] => (ch, All_Sent)
  | w :: work => match try_send ch w with
                 | Sent ch => send_all ch work
                 | Send_Full => (ch, Queue_Full)
                 | Send_Disconnected => (ch, Queue_Gone)
                 end
  end.

(** The end of a turn: a sweep that is due goes first. *)
Definition queue_turn (tr : Translator) (ch : Channel) (work : list Work)
  : Channel * option Translator :=
  let send ch :=
    match send_all ch work with
    | (ch, All_Sent) => (ch, Some (MkTranslator false (tr_last_generation tr)))
    | (ch, Queue_Full) => (ch, Some (MkTranslator true (tr_last_generation tr)))
    | (ch, Queue_Gone) => (ch, None)
    end in
  if tr_sweep_pending tr then
    match try_send ch Work_Sweep with
    | Sent ch => send ch
    | Send_Full => (ch, Some tr)
    | Send_Disconnected => (ch, None)
    end
  else send ch.

(** What wakes the translator. *)
Inductive Wake :=
| Wake_Event (e : Event)
| Wake_EventsEnd
| Wake_State (c : ConnState)
| Wake_StateEnd.

(** The work a change of state to a connection of [generation] comes to. *)
Definition state_work (tr : Translator) (generation : Z) : list Work :=
  if (1 <? generation) && negb (generation =? tr_last_generation tr) then [Work_Sweep] else [].

(** One turn; [None] when the translator has ended. *)
Definition translate_turn (tr : Translator) (s : Shared) (wake : Wake) : Shared * option Translator :=
  let turn tr work := let '(ch, tr) := queue_turn tr (sh_channel s) work in (with_channel ch s, tr) in
  match wake with
  | Wake_Event e => turn tr (event_work s e)
  | Wake_State (Conn_Connected att) =>
      let generation := at_generation (att_state att) in
      turn (MkTranslator (tr_sweep_pending tr) generation) (state_work tr generation)
  | Wake_State _ => (s, Some tr)
  | Wake_EventsEnd | Wake_StateEnd => (s, None)
  end.

(** ** The notifier *)

(** A call to the kernel: a directory entry, or an inode's attributes with or without
    its pages. *)
Inductive Notice := N_entry (parent : Z) (name : Name) | N_inode (ino : Z) (pages : bool).
#[export] Instance Notice_eq_dec : EqDecision Notice.
Proof. solve_decision. Defined.

Definition dirs_grew_all (s : Shared) : Shared := with_dirs (set_end None <$> sh_dirs s) s.
Definition xattr_clear (s : Shared) : Shared := with_xattrs ∅ s.

Definition inval_inode (s : Shared) (ino : Z) : Notice :=
  N_inode ino (negb (has_writer (sh_handles s) ino)).

Definition is_regular (t : NodeTable) (id : Z) : bool :=
  match nt_nodes t !! id with Some n => bool_decide (nd_kind n = Regular) | None => false end.

Definition sweep (s : Shared) : list Notice :=
  let known := entries (sh_nodes s) SWEEP_LIMIT in
  let files := filter (λ c, is_regular (sh_nodes s) c = true) known.*2 in
  (inval_inode s <$> open_nodeids (sh_handles s) ++ files)
  ++ ((λ e : Z * Name * Z, N_entry e.1.1 e.1.2) <$> known).

Definition notify (s : Shared) (w : Work) : Shared * list Notice :=
  match w with
  | Work_Entry parent name => (with_dirs (grown parent <$> sh_dirs s) s, [N_entry parent name])
  | Work_Inode ino => (with_xattrs (delete ino (sh_xattrs s)) s, [inval_inode s ino])
  | Work_DirGrew ino => (with_dirs (grown ino <$> sh_dirs s) s, [])
  | Work_Sweep => let s := dirs_grew_all (xattr_clear s) in (s, sweep s)
  end.

(** One turn of the notifier's loop: the oldest work of the queue. *)
Definition notifier_turn (s : Shared) : option (Shared * list Notice) :=
  match ch_items (sh_channel s) with
  | [] => None
  | w :: rest => Some (notify (with_channel (MkChannel rest (ch_receives (sh_channel s))) s) w)
  end.

(** [Invalidator::start] and its drop. *)
Definition invalidator_start (s : Shared) : Shared :=
  with_invalidations true (with_channel (MkChannel [] true) s).
Definition invalidator_stop (s : Shared) : Shared := with_invalidations false s.

(** ** What a turn queues *)

Lemma try_send_spec ch w ch' :
  try_send ch w = Sent ch' → ch_items ch' = ch_items ch ++ [w] ∧ len_z (ch_items ch) < QUEUE.
Proof.
  unfold try_send. destruct (negb _); [done|]. destruct (Z.leb_spec QUEUE (len_z (ch_items ch))); [done|].
  by intros [= <-].
Qed.

Lemma send_all_spec work : ∀ ch ch' r,
  send_all ch work = (ch', r) →
  ∃ sent rest, work = sent ++ rest ∧ ch_items ch' = ch_items ch ++ sent
    ∧ (r = All_Sent → rest = []).
Proof.
  induction work as [|w work IH]; intros ch ch' r H; cbn in H.
  { injection H as <- <-. exists [], []. split_and!; [done|by rewrite app_nil_r|done]. }
  destruct (try_send ch w) as [ch1| |] eqn:Hs.
  - apply try_send_spec in Hs as [Hi _]. destruct (IH _ _ _ H) as (sent & rest & -> & Hc & Hr).
    exists (w :: sent), rest. split_and!; [done| |done]. by rewrite Hc, Hi, <- app_assoc.
  - injection H as <- <-. exists [], (w :: work). split_and!; [done|by rewrite app_nil_r|done].
  - injection H as <- <-. exists [], (w :: work). split_and!; [done|by rewrite app_nil_r|done].
Qed.

(** A turn that goes on queues a sweep that was due, then all the work, or leaves a
    sweep due. *)
Lemma queue_turn_spec tr ch work ch' tr' :
  queue_turn tr ch work = (ch', Some tr') →
  ∃ sent, ch_items ch' = ch_items ch ++ sent
    ∧ (tr_sweep_pending tr = true → tr_sweep_pending tr' = true ∨ Work_Sweep ∈ sent)
    ∧ ((∀ w, w ∈ work → w ∈ sent) ∨ tr_sweep_pending tr' = true).
Proof.
  unfold queue_turn. cbv zeta.
  assert (∀ ch1, match send_all ch1 work with
    | (ch, All_Sent) => (ch, Some (MkTranslator false (tr_last_generation tr)))
    | (ch, Queue_Full) => (ch, Some (MkTranslator true (tr_last_generation tr)))
    | (ch, Queue_Gone) => (ch, None) end = (ch', Some tr') →
    ∃ sent, ch_items ch' = ch_items ch1 ++ sent
      ∧ ((∀ w, w ∈ work → w ∈ sent) ∨ tr_sweep_pending tr' = true)) as Hsend.
  { intros ch1 H. destruct (send_all ch1 work) as [ch2 r] eqn:Hs.
    destruct (send_all_spec _ _ _ _ Hs) as (sent & rest & -> & Hc & Hr).
    destruct r; simplify_eq; exists sent; (split; [done|]); [left|by right].
    rewrite (Hr eq_refl), app_nil_r. done. }
  destruct (tr_sweep_pending tr) eqn:Hp.
  - destruct (try_send ch Work_Sweep) as [ch1| |] eqn:Ht; intros H.
    + apply try_send_spec in Ht as [Hi _]. destruct (Hsend ch1 H) as (sent & Hc & Hw).
      exists (Work_Sweep :: sent). rewrite Hc, Hi, <- app_assoc. split_and!; [done|right; by left|].
      destruct Hw as [Hw|Hw]; [left; intros w Hin; right; auto|by right].
    + injection H as <- <-. exists []. rewrite app_nil_r. rewrite Hp. split_and!; auto.
    + done.
  - intros H. destruct (Hsend ch H) as (sent & Hc & Hw). exists sent. split_and!; [done|done|done].
Qed.

(** ** Runs of the translator

    Between its turns anything may happen to the shared state, so a run is a list of
    turns, each with the state it finds. *)

Definition asked (tr : Translator) (s : Shared) (wake : Wake) : list Work :=
  match wake with
  | Wake_Event e => event_work s e
  | Wake_State (Conn_Connected att) => state_work tr (at_generation (att_state att))
  | _ => []
  end.

(** What each turn asked for and what it queued. *)
Fixpoint turns (tr : Translator) (ws : list (Wake * Shared))
  : option (Translator * list (list Work * list Work)) :=
  match ws with
  | [] => Some (tr, [])
  | (wake, s) :: ws =>
      let '(s', tr') := translate_turn tr s wake in
      tr' ← tr';
      out ← turns tr' ws;
      Some (out.1, (asked tr s wake,
                    drop (length (ch_items (sh_channel s))) (ch_items (sh_channel s'))) :: out.2)
  end.

Lemma translate_turn_spec tr s wake s' tr' :
  translate_turn tr s wake = (s', Some tr') →
  let queued := drop (length (ch_items (sh_channel s))) (ch_items (sh_channel s')) in
  (tr_sweep_pending tr = true → tr_sweep_pending tr' = true ∨ Work_Sweep ∈ queued)
  ∧ ((∀ w, w ∈ asked tr s wake → w ∈ queued) ∨ tr_sweep_pending tr' = true).
Proof.
  assert (∀ tr0 work, tr_sweep_pending tr0 = tr_sweep_pending tr →
    (let '(ch, tr) := queue_turn tr0 (sh_channel s) work in (with_channel ch s, tr)) = (s', Some tr') →
    (tr_sweep_pending tr = true → tr_sweep_pending tr' = true
       ∨ Work_Sweep ∈ drop (length (ch_items (sh_channel s))) (ch_items (sh_channel s')))
    ∧ ((∀ w, w ∈ work → w ∈ drop (length (ch_items (sh_channel s))) (ch_items (sh_channel s')))
       ∨ tr_sweep_pending tr' = true)) as Hturn.
  { intros tr0 work Hp H. destruct (queue_turn tr0 (sh_channel s) work) as [ch o] eqn:Hq.
    injection H as <- ->. apply queue_turn_spec in Hq as (sent & Hc & H1 & H2). cbn.
    rewrite Hc, drop_app_length. by rewrite Hp in H1. }
  cbv zeta. unfold translate_turn. destruct wake as [e| |[att| |]|]; cbn [asked].
  - by apply Hturn.
  - done.
  - by apply Hturn.
  - intros [= <- <-]. split; [by left|]. left. intros w Hw. by apply elem_of_nil in Hw.
  - intros [= <- <-]. split; [by left|]. left. intros w Hw. by apply elem_of_nil in Hw.
  - done.
Qed.

(** A sweep that is due stays due until it is queued. *)
Lemma pending_kept ws : ∀ tr tr' log,
  turns tr ws = Some (tr', log) → tr_sweep_pending tr = true →
  tr_sweep_pending tr' = true ∨ ∃ j a q, log !! j = Some (a, q) ∧ Work_Sweep ∈ q.
Proof.
  induction ws as [|[wake s] ws IH]; intros tr tr' log H Hp; cbn [turns] in H.
  { injection H as <- <-. by left. }
  destruct (translate_turn tr s wake) as [s' o] eqn:Ht. destruct o as [tr1|]; cbn in H; [|done].
  destruct (turns tr1 ws) as [[tr2 log2]|] eqn:Hr; cbn in H; [|done]. injection H as <- <-.
  destruct (translate_turn_spec _ _ _ _ _ Ht) as [H1 _].
  destruct (H1 Hp) as [Hp1|Hq]; [|right; by exists 0%nat; eauto].
  destruct (IH _ _ _ Hr Hp1) as [?|(j & a & q & Hj & Hq)]; [by left|right].
  exists (S j), a, q. done.
Qed.

(** The directory entries of the table, unless it has more than a sweep covers. *)
Lemma entries_all t parent name id :
  (length (entries t SWEEP_LIMIT) < SWEEP_LIMIT)%nat →
  child t parent name = Some id → (parent, name, id) ∈ entries t SWEEP_LIMIT.
Proof.
  unfold entries. intros Hl Hc. rewrite length_take in Hl.
  rewrite take_ge by lia. unfold child in Hc.
  destruct (nt_nodes t !! parent) as [n|] eqn:Hn; cbn in Hc; [|done].
  apply list_elem_of_In, in_flat_map. exists (parent, n). split.
  - by apply list_elem_of_In, elem_of_map_to_list.
  - apply list_elem_of_In, list_elem_of_fmap. exists (name, id). split; [done|].
    by apply elem_of_map_to_list.
Qed.

(** The invalidation threads do to the shared state only what [others] allows. *)
Lemma notify_others s w : others s (notify s w).1.
Proof.
  assert (∀ f, (∀ st, ds_buffer (f st) = ds_buffer st) → ∀ fh st',
    (f <$> sh_dirs s) !! fh = Some st' → ∃ st, sh_dirs s !! fh = Some st ∧ ds_buffer st' = ds_buffer st) as Hd.
  { intros f Hf fh st' H. rewrite lookup_fmap in H. destruct (sh_dirs s !! fh) as [st|]; [|done].
    injection H as <-. eauto. }
  destruct w; split; cbn; try done; try (by eauto).
  - apply Hd. intros st. unfold grown. by destruct (_ =? _).
  - intros id. rewrite lookup_delete_is_Some. tauto.
  - apply Hd. intros st. unfold grown. by destruct (_ =? _).
  - intros id [? H]. by rewrite lookup_empty in H.
  - by apply Hd.
Qed.

Lemma translate_others tr s wake : others s (translate_turn tr s wake).1.
Proof.
  assert (∀ ch, others s (with_channel ch s)) as H by (intros ch; split; cbn; eauto).
  assert (others s s) as H0 by (split; eauto).
  unfold translate_turn. destruct wake as [e| |[att| |]|]; try done;
    destruct (queue_turn _ _ _); apply H.
Qed.

(** ** Properties *)

(** C25: no invalidation is lost.  In every run of the translator, whatever happens to the
    queue and the node table between its turns: each piece of work an event or a
    reconnection came to was queued in its own turn, or a sweep, which covers it, was
    queued in a later one, or a sweep is still due. *)
Theorem no_invalidation_lost ws tr log i work queued w :
  turns Translator_new ws = Some (tr, log) →
  log !! i = Some (work, queued) → w ∈ work →
  w ∈ queued ∨ (∃ j a q, (i < j)%nat ∧ log !! j = Some (a, q) ∧ Work_Sweep ∈ q)
  ∨ tr_sweep_pending tr = true.
Proof.
  generalize Translator_new. intros tr0. revert tr0 tr log i.
  induction ws as [|[wake s] ws IH]; intros tr0 tr log i H Hi Hw; cbn [turns] in H.
  { injection H as <- <-. done. }
  destruct (translate_turn tr0 s wake) as [s' o] eqn:Ht. destruct o as [tr1|]; cbn in H; [|done].
  destruct (turns tr1 ws) as [[tr2 log2]|] eqn:Hr; cbn in H; [|done]. injection H as <- <-.
  destruct i as [|i]; cbn in Hi.
  - injection Hi as <- <-. destruct (translate_turn_spec _ _ _ _ _ Ht) as [_ [H2|H2]]; [left; auto|].
    right. destruct (pending_kept _ _ _ _ Hr H2) as [?|(j & a & q & Hj & Hq)]; [by right|left].
    exists (S j), a, q. split_and!; [lia|done|done].
  - destruct (IH _ _ _ _ Hr Hi Hw) as [?|[(j & a & q & Hlt & Hj & Hq)|?]]; [by left| |by right; right].
    right. left. exists (S j), a, q. split_and!; [lia|done|done].
Qed.

(** A sweep drops everything, and flushes no writer.  After one no extended attribute
    name is remembered and no directory handle keeps an end; the kernel is told to drop
    every file held open, and, unless the table has more entries than a sweep covers,
    every entry known and every regular file under it; and the pages of a file are
    dropped exactly if no live handle of this client writes it. *)
Theorem sweep_drops_everything s s' notices :
  notify s Work_Sweep = (s', notices) →
  sh_xattrs s' = ∅ ∧ (∀ fh st, sh_dirs s' !! fh = Some st → ds_end st = None)
  ∧ (∀ ino, ino ∈ open_nodeids (sh_handles s) →
       N_inode ino (negb (has_writer (sh_handles s) ino)) ∈ notices)
  ∧ (∀ ino pages, N_inode ino pages ∈ notices → pages = negb (has_writer (sh_handles s) ino))
  ∧ ((length (entries (sh_nodes s) SWEEP_LIMIT) < SWEEP_LIMIT)%nat →
     ∀ parent name id, child (sh_nodes s) parent name = Some id →
       N_entry parent name ∈ notices
       ∧ (is_regular (sh_nodes s) id = true → ∃ pages, N_inode id pages ∈ notices)).
Proof.
  cbn [notify]. intros [= <- <-]. split_and!; [done| | | |].
  - intros fh st Hst. cbn in Hst. rewrite lookup_fmap in Hst. destruct (sh_dirs s !! fh); [|done].
    by injection Hst as <-.
  - intros ino Hin. unfold sweep. apply elem_of_app. left. apply list_elem_of_fmap.
    exists ino. split; [done|]. apply elem_of_app. by left.
  - intros ino pages Hin. unfold sweep in Hin. apply elem_of_app in Hin as [Hin|Hin].
    + apply list_elem_of_fmap in Hin as (i & [= -> ->] & _). done.
    + by apply list_elem_of_fmap in Hin as (e & He & _).
  - intros Hl parent name id Hc. pose proof (entries_all _ _ _ _ Hl Hc) as He. unfold sweep. split.
    + apply elem_of_app. right. apply list_elem_of_fmap. by exists (parent, name, id).
    + intros Hr. eexists. apply elem_of_app. left. apply list_elem_of_fmap. exists id.
      split; [done|]. apply elem_of_app. right. apply list_elem_of_filter. split; [done|].
      apply list_elem_of_fmap. by exists (parent, name, id).
Qed.

(** ** Runs of the model *)

Definition demo_full : Shared :=
  with_channel (MkChannel (replicate 4096 (Work_DirGrew 7)) true) (Shared_new HandleTable_default).
Definition demo_room : Shared :=
  with_channel (MkChannel [] true) (Shared_new HandleTable_default).
Definition demo_overflow : Wake := Wake_Event (MkEvent [Ev_Overflow] None).

(** An overflow that finds the queue full, and an event that finds room. *)
Definition demo_turns : list (Wake * Shared) :=
  [(demo_overflow, demo_full); (Wake_Event (MkEvent [Ev_Data Path_root] None), demo_room)].

Lemma no_invalidation_lost_witness :
  ∃ tr log, turns Translator_new demo_turns = Some (tr, log)
    ∧ ∃ j a q, (0 < j)%nat ∧ log !! j = Some (a, q) ∧ Work_Sweep ∈ q.
Proof.
  assert (match turns Translator_new demo_turns with
          | Some (tr, log) => bool_decide (log !! 0%nat = Some ([Work_Sweep], []))
                              && negb (tr_sweep_pending tr)
          | None => false
          end = true) as H by (by vm_compute).
  destruct (turns Translator_new demo_turns) as [[tr log]|] eqn:Ht; [|done].
  apply andb_true_iff in H as [H1%bool_decide_eq_true H2%negb_true_iff].
  exists tr, log. split; [done|].
  destruct (no_invalidation_lost demo_turns tr log 0 [Work_Sweep] [] Work_Sweep Ht H1) as [H|[H|H]].
  - by left.
  - by apply elem_of_nil in H.
  - done.
  - congruence.
Defined.

Definition demo_known : Shared := with_nodes demo_nodes (Shared_new HandleTable_default).

Lemma sweep_drops_everything_witness :
  N_entry 10 (demo_name "f") ∈ (notify demo_known Work_Sweep).2
  ∧ ∃ pages, N_inode 11 pages ∈ (notify demo_known Work_Sweep).2.
Proof.
  destruct (notify demo_known Work_Sweep) as [s' notices] eqn:Hn.
  destruct (sweep_drops_everything demo_known s' notices Hn) as (_ & _ & _ & _ & H).
  destruct (H ltac:(apply Nat.ltb_lt; by vm_compute) 10 (demo_name "f") 11 ltac:(by vm_compute)) as [H1 H2].
  split; [done|]. by apply H2.
Defined.

(** The queue is full when the server says that anything may have changed; the notifier
    then works the queue off, and the connection goes down and comes up as it was.  The
    sweep is still only due: nothing queues it until another event comes. *)
Definition drained (n : nat) (s : Shared) : Shared :=
  Nat.iter n (λ s, match notifier_turn s with Some (s, _) => s | None => s end) s.

Example due_sweep_waits :
  let '(s1, tr1) := translate_turn Translator_new demo_full demo_overflow in
  let s2 := drained 4096 s1 in
  match tr1 with
  | Some tr1 =>
      let '(s3, tr2) := translate_turn tr1 s2 (Wake_State (Conn_Connecting 0)) in
      (tr_sweep_pending <$> tr2, len_z (ch_items (sh_channel s3)))
  | None => (None, 0)
  end = (Some true, 0).
Proof. by vm_compute. Qed.
