(* ===== verification/Watch.v ===== *)
(** * Change notification: what sessions are told ([crates/server/src/watch.rs])

    The items an inotify event stands for, the log of which session changed what,
    the window that gathers and deduplicates items, and what of a batch each
    session is sent.  The table of watched directories is [WatchTable.v].
    Times are nanoseconds; a lock guards one operation each, so an operation is
    one step. *)

From S2P Require Import Prelude Types Msg.

(** Flags of [inotify(7)]. *)
Definition IN_MODIFY : Z := 0x2.
Definition IN_ATTRIB : Z := 0x4.
Definition IN_MOVED_FROM : Z := 0x40.
Definition IN_MOVED_TO : Z := 0x80.
Definition IN_CREATE : Z := 0x100.
Definition IN_DELETE : Z := 0x200.
Definition IN_DELETE_SELF : Z := 0x400.
Definition IN_UNMOUNT : Z := 0x2000.
Definition IN_Q_OVERFLOW : Z := 0x4000.
Definition IN_IGNORED : Z := 0x8000.
Definition IN_ISDIR : Z := 0x40000000.

Definition MAX_PENDING : Z := 10000.
Definition ORIGIN_MEMORY : Z := 1000000000.
Definition CHANGE_LOG_CAPACITY : nat := 4096.

(** [AddWatchFlags::intersects] and [contains]. *)
Definition intersects (mask flags : Z) : bool := negb (Z.land mask flags =? 0).
Definition contains (mask flags : Z) : bool := Z.land mask flags =? flags.

(** ** Batches *)

Record EventBatch := MkBatch { eb_items : list (EventItem * option Z) }.

Definition for_session (b : EventBatch) (session_id : Z) : option Event :=
  match (filter (λ io : EventItem * option Z, io.2 ≠ Some session_id) (eb_items b)).*1 with
  | [] => None
  | items => Some (MkEvent items None)
  end.

(** ** The log of changes *)

Record ChangeLog := MkLog {
  cl_by_path : gmap (list byte) (Z * Z);
  cl_order : list (list byte) }.

Definition ChangeLog_default : ChangeLog := MkLog ∅ [].

(** The eviction loop. *)
Fixpoint evict (order : list (list byte)) (by_path : gmap (list byte) (Z * Z)) : ChangeLog :=
  match order with
  | [] => MkLog by_path []
  | oldest :: rest =>
      if (CHANGE_LOG_CAPACITY <? length order)%nat then evict rest (delete oldest by_path)
      else MkLog by_path order
  end.

Definition record (l : ChangeLog) (path : Path) (session_id now : Z) : ChangeLog :=
  let key := to_os_string path in
  let by_path := <[key := (session_id, now)]> (cl_by_path l) in
  match cl_by_path l !! key with
  | Some _ => MkLog by_path (cl_order l)
  | None => evict (cl_order l ++ [key]) by_path
  end.

Definition record_entry (l : ChangeLog) (dir : Path) (name : Name) (session_id now : Z)
  : ChangeLog :=
  match Path_join dir name with
  | Ok path => record l path session_id now
  | Err _ => l
  end.

Definition take_origin (l : ChangeLog) (key : list byte) (now : Z) : option Z * ChangeLog :=
  match cl_by_path l !! key with
  | None => (None, l)
  | Some (session, at_) =>
      (if now - at_ <? ORIGIN_MEMORY then Some session else None,
       MkLog (delete key (cl_by_path l)) (cl_order l))
  end.

(** ** The window *)

Record Pending := MkPending {
  pn_items : list (EventItem * option Z);
  pn_seen : gset EventItem;
  pn_overflow : bool }.

Definition Pending_default : Pending := MkPending [] ∅ false.

Definition Pending_fold (p : Pending) (item : EventItem) (origin : option Z) : Pending :=
  if pn_overflow p then p
  else if bool_decide (item = Ev_Overflow) || (MAX_PENDING <=? Z.of_nat (length (pn_items p)))
  then MkPending [] ∅ true
  else if bool_decide (item ∈ pn_seen p) then p
  else MkPending (pn_items p ++ [(item, origin)]) ({[item]} ∪ pn_seen p) false.

Definition Pending_flush (p : Pending) : option EventBatch * Pending :=
  if pn_overflow p then (Some (MkBatch [(Ev_Overflow, None)]), MkPending [] ∅ false)
  else match pn_items p with
       | [] => (None, p)
       | items => (Some (MkBatch items), MkPending [] ∅ (pn_overflow p))
       end.

Definition origin_key (item : EventItem) : option (list byte) :=
  match item with
  | Ev_Entry dir name => to_os_string <$> ok_opt (Path_join dir name)
  | Ev_Data path => Some (to_os_string path)
  | Ev_Overflow | Ev_Unwatched _ => None
  end.

(** [fold_events], at one reading of the clock. *)
Definition fold_event (now : Z) (st : Pending * ChangeLog) (item : EventItem)
  : Pending * ChangeLog :=
  let '(origin, log) := match origin_key item with
                        | Some key => take_origin st.2 key now
                        | None => (None, st.2)
                        end in
  (Pending_fold st.1 item origin, log).

Definition fold_events (now : Z) (p : Pending) (log : ChangeLog) (items : list EventItem)
  : Pending * ChangeLog := foldl (fold_event now) (p, log) items.

(** ** Events *)

Definition items_for (dir : Path) (mask : Z) (name : Name) : list EventItem :=
  (if intersects mask (Z.lor (Z.lor (Z.lor IN_CREATE IN_DELETE) IN_MOVED_FROM) IN_MOVED_TO)
   then [Ev_Entry dir name] else [])
  ++ (if intersects mask (Z.lor IN_MODIFY IN_ATTRIB)
      then match Path_join dir name with Ok path => [Ev_Data path] | Err _ => [] end else []).

Definition structural (mask : Z) : bool :=
  intersects mask (Z.lor (Z.lor (Z.lor IN_Q_OVERFLOW IN_IGNORED) IN_UNMOUNT) IN_DELETE_SELF)
  || contains mask IN_ISDIR
     && intersects mask (Z.lor (Z.lor IN_MOVED_FROM IN_MOVED_TO) IN_DELETE).

Definition parent_of (path : Path) : Path :=
  match Path_split_last path with Some (parent, _) => parent | None => Path_root end.

(** The directories a request reads or changes by path. *)
Definition dirs_named (req : Request) : list Path :=
  match req with
  | Req_Lookup parent _ | Req_Mknod parent _ _ _ | Req_Mkdir parent _ _ | Req_Unlink parent _
  | Req_Rmdir parent _ | Req_Symlink parent _ _ | Req_Create _ parent _ _ _ => [parent]
  | Req_Rename parent _ newparent _ _ => [parent; newparent]
  | Req_Link path newparent _ => [parent_of path; newparent]
  | Req_Getattr path _ | Req_Setattr path _ _ =>
      match path with Some path => [parent_of path] | None => [] end
  | Req_Readlink path | Req_Open _ path _ | Req_Setxattr path _ _ _ | Req_Getxattr path _
  | Req_Listxattr path | Req_Removexattr path _ | Req_Access path _ => [parent_of path]
  | Req_Opendir _ path => [path]
  | Req_Read _ _ _ | Req_Write _ _ _ | Req_Release _ _ | Req_Fsync _ _ | Req_Readdir _ _ _
  | Req_Releasedir _ _ | Req_Statfs _ | Req_CopyFileRange _ _ _ _ _ | Req_Fallocate _ _ _ _
  | Req_Lseek _ _ _ => []
  end.

(** ** What a window reports *)

(** The items of a window, each once with the origin it first came with. *)
Definition add_first (acc : list (EventItem * option Z)) (io : EventItem * option Z)
  : list (EventItem * option Z) :=
  if bool_decide (io.1 ∈ acc.*1) then acc else acc ++ [io].
Definition firsts (l : list (EventItem * option Z)) : list (EventItem * option Z) :=
  foldl add_first [] l.

Definition window (l : list (EventItem * option Z)) : Pending :=
  foldl (λ p io, Pending_fold p io.1 io.2) Pending_default l.

Lemma firsts_snoc l io : firsts (l ++ [io]) = add_first (firsts l) io.
Proof. unfold firsts. by rewrite foldl_snoc. Qed.

Lemma window_snoc l io : window (l ++ [io]) = Pending_fold (window l) io.1 io.2.
Proof. unfold window. by rewrite foldl_snoc. Qed.

Lemma add_first_length acc io : (length acc ≤ length (add_first acc io))%nat.
Proof. unfold add_first. case_bool_decide; [done|]. rewrite length_app. lia. Qed.

(** The window is the deduplicated list until it overflows. *)
Lemma window_spec l :
  if pn_overflow (window l) then
    pn_items (window l) = []
    ∧ (Ev_Overflow ∈ l.*1 ∨ MAX_PENDING ≤ Z.of_nat (length (firsts l)))
  else pn_items (window l) = firsts l ∧ pn_seen (window l) = list_to_set (firsts l).*1
       ∧ Ev_Overflow ∉ l.*1 ∧ Z.of_nat (length (firsts l)) ≤ MAX_PENDING.
Proof.
  induction l as [|[i o] l IH] using rev_ind.
  { split_and!; [done|done|apply not_elem_of_nil|unfold MAX_PENDING; simpl; lia]. }
  rewrite window_snoc, firsts_snoc. cbn [fst snd].
  pose proof (add_first_length (firsts l) (i, o)) as Hmono.
  assert (Ev_Overflow ∈ (l ++ [(i, o)]).*1 ↔ Ev_Overflow ∈ l.*1 ∨ Ev_Overflow = i) as Hel
    by (rewrite fmap_app, elem_of_app; simpl; by rewrite list_elem_of_singleton).
  unfold Pending_fold. destruct (pn_overflow (window l)) eqn:Hov.
  { rewrite Hov. rewrite Hel. destruct IH as (? & [?|?]); (split; [done|]); [tauto|]. right. lia. }
  destruct IH as (Hi & Hs & Hno & Hlen). case_bool_decide as Hio; simpl.
  { split; [done|]. left. apply Hel. auto. }
  rewrite Hi. destruct (Z.leb_spec MAX_PENDING (Z.of_nat (length (firsts l)))); simpl.
  { split; [done|]. right. lia. }
  assert (i ∈ pn_seen (window l) ↔ i ∈ (firsts l).*1) as Hseen by (rewrite Hs; apply elem_of_list_to_set).
  unfold add_first. cbn [fst]. destruct (decide (i ∈ (firsts l).*1)) as [Hin|Hin].
  - rewrite (bool_decide_eq_true_2 (i ∈ pn_seen _)) by by apply Hseen.
    rewrite bool_decide_eq_true_2 by done. rewrite Hov, Hel.
    split_and!; [done|done|naive_solver|lia].
  - rewrite (bool_decide_eq_false_2 (i ∈ pn_seen _)) by by rewrite Hseen.
    rewrite bool_decide_eq_false_2 by done. cbn [pn_overflow pn_items pn_seen]. rewrite Hel.
    split_and!; [done|rewrite fmap_app, Hs; simpl; set_solver|naive_solver|].
    rewrite length_app. simpl. lia.
Qed.

Lemma firsts_items l i : i ∈ (firsts l).*1 ↔ i ∈ l.*1.
Proof.
  induction l as [|io l IH] using rev_ind; [done|].
  rewrite firsts_snoc, fmap_app, elem_of_app, <- IH. unfold add_first. simpl.
  rewrite list_elem_of_singleton.
  case_bool_decide as Hin; [naive_solver|]. rewrite fmap_app, elem_of_app. simpl.
  by rewrite list_elem_of_singleton.
Qed.

Lemma for_session_elem b s i o :
  (i, o) ∈ eb_items b → o ≠ Some s →
  ∃ ev, for_session b s = Some ev ∧ i ∈ ev_items ev.
Proof.
  intros Hin Ho. unfold for_session.
  assert (i ∈ (filter (λ io : EventItem * option Z, io.2 ≠ Some s) (eb_items b)).*1) as Hf.
  { apply list_elem_of_fmap. exists (i, o). split; [done|]. by apply list_elem_of_filter. }
  destruct (filter _ _).*1 as [|x xs]; [by apply elem_of_nil in Hf|]. by eexists.
Qed.

(** ** The log stays bounded *)

Definition log_ok (l : ChangeLog) : Prop :=
  (length (cl_order l) ≤ CHANGE_LOG_CAPACITY)%nat
  ∧ ∀ k, is_Some (cl_by_path l !! k) → k ∈ cl_order l.

Lemma evict_ok order : ∀ m,
  (∀ k, is_Some (m !! k) → k ∈ order) → log_ok (evict order m).
Proof.
  induction order as [|oldest rest IH]; intros m Hm.
  - split; [simpl; lia|]. done.
  - cbn [evict]. destruct (Nat.ltb_spec CHANGE_LOG_CAPACITY (length (oldest :: rest))).
    + apply IH. intros k [x Hx]. apply lookup_delete_Some in Hx as [Hne Hx].
      specialize (Hm k ltac:(by eexists)). apply elem_of_cons in Hm as [?|?]; congruence.
    + by split.
Qed.

Lemma record_ok l path s now : log_ok l → log_ok (record l path s now).
Proof.
  intros [Hlen Hk]. unfold record. destruct (cl_by_path l !! to_os_string path) eqn:Hp.
  - split; [done|]. cbn [cl_by_path cl_order]. intros k.
    destruct (decide (k = to_os_string path)) as [->|Hne]; [intros _; apply Hk; by eexists|].
    rewrite lookup_insert_ne by done. apply Hk.
  - apply evict_ok. intros k. rewrite elem_of_app, list_elem_of_singleton.
    destruct (decide (k = to_os_string path)) as [->|Hne]; [by right|].
    rewrite lookup_insert_ne by done. left. auto.
Qed.

Lemma record_entry_ok l dir name s now : log_ok l → log_ok (record_entry l dir name s now).
Proof. unfold record_entry. destruct (Path_join dir name); [apply record_ok|done]. Qed.

Lemma take_origin_ok l key now : log_ok l → log_ok (take_origin l key now).2.
Proof.
  intros [Hlen Hk]. unfold take_origin. destruct (cl_by_path l !! key) as [[s a]|]; [|done].
  split; [done|]. cbn [snd cl_by_path cl_order]. intros k [x [_ Hx]%lookup_delete_Some].
  apply Hk. by eexists.
Qed.

(** The operations on the log, in any order. *)
Inductive log_step (l : ChangeLog) : ChangeLog → Prop :=
| log_record path s now : log_step l (record l path s now)
| log_record_entry dir name s now : log_step l (record_entry l dir name s now)
| log_take key now : log_step l (take_origin l key now).2.

Lemma log_reachable_ok l : rtc log_step ChangeLog_default l → log_ok l.
Proof.
  intros Hr. eapply (rtc_invariant log_step log_ok); [|exact Hr|].
  - intros l1 l2 Hok Hs. destruct Hs; auto using record_ok, record_entry_ok, take_origin_ok.
  - split; [simpl; lia|]. intros k [x Hx]. cbn [ChangeLog_default cl_by_path] in Hx. by rewrite lookup_empty in Hx.
Qed.

Lemma evict_short order m : (length order ≤ CHANGE_LOG_CAPACITY)%nat → evict order m = MkLog m order.
Proof.
  intros Hlen. destruct order as [|k order]; [done|]. cbn [evict].
  destruct (Nat.ltb_spec CHANGE_LOG_CAPACITY (length (k :: order))); [lia|done].
Qed.

(** A record is there to read, unless a slot left over for its path is evicted. *)
Lemma record_lookup l path s now :
  log_ok l → (to_os_string path ∈ cl_order l → is_Some (cl_by_path l !! to_os_string path)) →
  cl_by_path (record l path s now) !! to_os_string path = Some (s, now).
Proof.
  intros [Hlen _] Hstale. unfold record. set (key := to_os_string path) in *.
  destruct (cl_by_path l !! key) eqn:Hp; [apply lookup_insert_eq|].
  destruct (cl_order l) as [|oldest rest].
  - rewrite evict_short by (apply Nat.leb_le; reflexivity). apply lookup_insert_eq.
  - cbn [app evict]. destruct (_ <? _)%nat; [|apply lookup_insert_eq]. simpl in Hlen.
    rewrite evict_short by (rewrite length_app; simpl; lia). cbn [cl_by_path].
    rewrite lookup_delete_ne; [apply lookup_insert_eq|]. intros ->.
    destruct Hstale as [? ?]; [by left|done].
Qed.

Lemma size_list_to_set_le (l : list (list byte)) :
  (size (list_to_set l : gset (list byte)) ≤ length l)%nat.
Proof.
  induction l as [|k ks IH]; simpl; [done|].
  rewrite size_union_alt, size_singleton.
  pose proof (subseteq_size (list_to_set ks ∖ {[k]} : gset (list byte)) (list_to_set ks) ltac:(set_solver)).
  lia.
Qed.

Lemma log_ok_size l : log_ok l → (size (cl_by_path l) ≤ CHANGE_LOG_CAPACITY)%nat.
Proof.
  intros [Hlen Hk]. etransitivity; [|exact Hlen].
  rewrite <- (size_dom (D := gset (list byte))).
  etransitivity; [|apply size_list_to_set_le]. apply subseteq_size.
  intros k Hin%elem_of_dom. apply elem_of_list_to_set. auto.
Qed.

(** ** Properties *)

(** No change is withheld from a session but its own.  Whatever items a window
    gathers, it flushes them once and is empty after: either each distinct item
    once in the order it first came, at most [MAX_PENDING] of them, or the one
    item that says to forget everything, and that only if something overflowed.
    So a session is sent every item that did not first come as its own change, or
    the overflow that covers it. *)
Theorem window_reports_everything l :
  l ≠ [] →
  ∃ batch, Pending_flush (window l) = (Some batch, Pending_default)
    ∧ (eb_items batch = firsts l ∧ Z.of_nat (length (firsts l)) ≤ MAX_PENDING
       ∨ eb_items batch = [(Ev_Overflow, None)]
         ∧ (Ev_Overflow ∈ l.*1 ∨ MAX_PENDING ≤ Z.of_nat (length (firsts l))))
    ∧ ∀ s i o, (i, o) ∈ firsts l → o ≠ Some s →
        ∃ ev, for_session batch s = Some ev ∧ (i ∈ ev_items ev ∨ Ev_Overflow ∈ ev_items ev).
Proof.
  intros Hne. pose proof (window_spec l) as Hw. unfold Pending_flush.
  destruct (pn_overflow (window l)) eqn:Hov.
  - destruct Hw as [_ Hcase]. eexists. split; [reflexivity|]. split; [right; by split|].
    intros s i o _ _. destruct (for_session_elem (MkBatch [(Ev_Overflow, None)]) s Ev_Overflow None)
      as (ev & Hev & Hin); [by left|done|]. exists ev. auto.
  - destruct Hw as (Hi & _ & _ & Hlen). rewrite Hi.
    destruct (firsts l) as [|x xs] eqn:Hf.
    { destruct l as [|[i o] l]; [done|]. exfalso.
      assert (i ∈ (firsts ((i, o) :: l)).*1) as Hin by (apply firsts_items; left).
      rewrite Hf in Hin. by apply elem_of_nil in Hin. }
    eexists. split; [reflexivity|]. split; [left; by split|].
    intros s i o Hin Ho. destruct (for_session_elem (MkBatch (x :: xs)) s i o Hin Ho)
      as (ev & Hev & Hiev). exists ev. auto.
Qed.

Lemma window_reports_everything_witness :
  ∃ batch, (Pending_flush (window [(Ev_Data Path_root, Some 7)])).1 = Some batch
    ∧ ∃ ev, for_session batch 8 = Some ev
            ∧ (Ev_Data Path_root ∈ ev_items ev ∨ Ev_Overflow ∈ ev_items ev).
Proof.
  destruct (window_reports_everything [(Ev_Data Path_root, Some 7)]) as (b & Hb & _ & Hs).
  - discriminate.
  - exists b. split; [rewrite Hb; reflexivity|].
    apply (Hs 8 (Ev_Data Path_root) (Some 7)); [vm_compute; left|discriminate].
Defined.

(** The log of changes is bounded and remembers.  After any sequence of
    records and reads it holds at most [CHANGE_LOG_CAPACITY] changes; a change
    just recorded is attributed to the session that made it within
    [ORIGIN_MEMORY], and once only, provided the queue has no slot left over from
    an earlier change to the same path that was attributed already. *)
Theorem change_log_attributes_once l path s now later :
  rtc log_step ChangeLog_default l → now ≤ later < now + ORIGIN_MEMORY →
  (to_os_string path ∈ cl_order l → is_Some (cl_by_path l !! to_os_string path)) →
  (size (cl_by_path l) ≤ CHANGE_LOG_CAPACITY)%nat
  ∧ ∃ l', take_origin (record l path s now) (to_os_string path) later = (Some s, l')
          ∧ ∀ t, (take_origin l' (to_os_string path) t).1 = None.
Proof.
  intros Hok%log_reachable_ok Ht Hstale. split; [by apply log_ok_size|].
  eexists. unfold take_origin at 1. rewrite record_lookup by done.
  replace (later - now <? ORIGIN_MEMORY) with true by lia.
  split; [reflexivity|]. intros t. unfold take_origin. cbn [cl_by_path].
  by rewrite lookup_delete_eq.
Qed.

Lemma change_log_attributes_once_witness :
  ∃ l', take_origin (record ChangeLog_default Path_root 7 5) (to_os_string Path_root) 6 = (Some 7, l').
Proof.
  destruct (change_log_attributes_once ChangeLog_default Path_root 7 5 6) as (_ & l' & Hl & _).
  - apply rtc_refl.
  - split; [discriminate|reflexivity].
  - intros []%elem_of_nil.
  - exists l'. exact Hl.
Defined.

(** ** Two limits of the attribution *)

(** The provision of [change_log_attributes_once] is needed: when the queue is full
    and its oldest slot is left over from an attributed change to the same path,
    recording that path again evicts the slot and with it the new record. *)
Lemma stale_slot_drops_the_record l path s now rest :
  cl_order l = to_os_string path :: rest → length (cl_order l) = CHANGE_LOG_CAPACITY →
  cl_by_path l !! to_os_string path = None →
  cl_by_path (record l path s now) !! to_os_string path = None.
Proof.
  intros Ho Hlen Hn. unfold record. rewrite Hn, Ho. rewrite Ho in Hlen. cbn [app evict].
  set (key := to_os_string path) in *. cbn [length] in Hlen.
  destruct (Nat.ltb_spec CHANGE_LOG_CAPACITY (length (key :: rest ++ [key]))) as [_|Hge].
  - rewrite evict_short by (rewrite length_app; simpl; lia). cbn [cl_by_path].
    apply lookup_delete_eq.
  - cbn [length] in Hge. rewrite length_app in Hge. simpl in Hge. lia.
Qed.

(** A change by someone else in the same window as the session's own to the same
    path is not sent to the session: the window keeps the first origin. *)
Lemma same_window_change_withheld :
  let l := [(Ev_Data Path_root, Some 7); (Ev_Data Path_root, None)] in
  ∃ batch, (Pending_flush (window l)).1 = Some batch ∧ for_session batch 7 = None.
Proof. eexists. split; vm_compute; reflexivity. Qed.
