(* ===== verification/WatchTable.v ===== *)
(** * Change notification: the watched directories ([crates/server/src/watch.rs])

    The tree of watched directories, kept against what the kernel reports.  The
    kernel's side, the trait [Marks], is a class whose operations thread a state
    of their own, so an instance may answer as it likes, a concurrent change
    included.  A mark is shared by a node and the guards that hold it, so its
    counters are in a store and a node has its mark's index.  Log lines and event
    counters are not modelled.  Iterating a [HashMap] is in the order of the map. *)

From stdpp Require Import sorting.
From S2P Require Import Prelude Types Msg Wire Watch.

Definition UNWATCHABLE_RETRY : Z := 60 * 1000000000.
Definition EVICT_BATCH : Z := 512.
Definition BUDGET_MAX : Z := 65536.
Definition BUDGET_FALLBACK : Z := 8192.
Definition LIMITED_HOLD : Z := 600 * 1000000000.
Definition IN_MOVE_SELF : Z := 0x800.
Definition ENOSPC : Z := 28.

Notation errno := Z (only parsing).

(** [trait Marks]. *)
Class Marks (W : Type) := {
  MS : Type;
  Dir : Type;
  m_open : MS → Path → MS * result errno Dir;
  m_open_child : MS → Dir → Name → MS * result errno Dir;
  m_add : MS → Dir → MS * result errno W;
  m_rm : MS → W → MS }.

Section table.
Context {W : Type} `{Countable W} `{HMk : !Marks W}.

Inductive State := Watched (wd : W) | Unwatchable (retry_at : Z).

(** The counters of a [Mark]; its state, which never changes, is in the node. *)
Record MarkUse := MkUse { mk_used : Z; mk_holds : Z }.

Inductive Node := MkNode (state : State) (mark : nat) (children : gmap Name Node).

Definition n_state (n : Node) : State := let '(MkNode s _ _) := n in s.
Definition n_mark (n : Node) : nat := let '(MkNode _ m _) := n in m.
Definition n_children (n : Node) : gmap Name Node := let '(MkNode _ _ c) := n in c.
Definition with_children (n : Node) (c : gmap Name Node) : Node := MkNode (n_state n) (n_mark n) c.

Definition is_watched (n : Node) : bool :=
  match n_state n with Watched _ => true | Unwatchable _ => false end.

Record RawEvent := MkRaw { re_wd : W; re_mask : Z; re_cookie : Z; re_name : option (list byte) }.

Record Table := MkTable {
  t_ms : MS;
  t_root : Node;
  t_by_wd : gmap W Path;
  t_watched : Z;
  t_budget : Z;
  t_capped : option (Z * Z);
  t_round : Z;
  t_dead : bool;
  (** the marks' counters, and the next index *)
  t_marks : gmap nat MarkUse;
  t_next : nat }.

Definition set_ms (ms : MS) (t : Table) : Table :=
  MkTable ms (t_root t) (t_by_wd t) (t_watched t) (t_budget t) (t_capped t) (t_round t)
    (t_dead t) (t_marks t) (t_next t).
Definition set_root (r : Node) (t : Table) : Table :=
  MkTable (t_ms t) r (t_by_wd t) (t_watched t) (t_budget t) (t_capped t) (t_round t)
    (t_dead t) (t_marks t) (t_next t).
Definition set_by_wd (m : gmap W Path) (t : Table) : Table :=
  MkTable (t_ms t) (t_root t) m (t_watched t) (t_budget t) (t_capped t) (t_round t)
    (t_dead t) (t_marks t) (t_next t).
Definition set_watched (w : Z) (t : Table) : Table :=
  MkTable (t_ms t) (t_root t) (t_by_wd t) w (t_budget t) (t_capped t) (t_round t)
    (t_dead t) (t_marks t) (t_next t).
Definition set_capped (c : option (Z * Z)) (t : Table) : Table :=
  MkTable (t_ms t) (t_root t) (t_by_wd t) (t_watched t) (t_budget t) c (t_round t)
    (t_dead t) (t_marks t) (t_next t).
Definition set_round (r : Z) (t : Table) : Table :=
  MkTable (t_ms t) (t_root t) (t_by_wd t) (t_watched t) (t_budget t) (t_capped t) r
    (t_dead t) (t_marks t) (t_next t).
Definition set_marks (m : gmap nat MarkUse) (t : Table) : Table :=
  MkTable (t_ms t) (t_root t) (t_by_wd t) (t_watched t) (t_budget t) (t_capped t) (t_round t)
    (t_dead t) m (t_next t).

(** ** Marks *)

(** [Mark::new], as [Node::new] uses it. *)
Definition Node_new (state : State) (round : Z) (t : Table) : Node * Table :=
  (MkNode state (t_next t) ∅,
   MkTable (t_ms t) (t_root t) (t_by_wd t) (t_watched t) (t_budget t) (t_capped t) (t_round t)
     (t_dead t) (<[t_next t := MkUse round 0]> (t_marks t)) (S (t_next t))).

Definition stamp (mark : nat) (round : Z) (t : Table) : Table :=
  set_marks (alter (λ u, MkUse round (mk_holds u)) mark (t_marks t)) t.

(** [Armed::hold] and [Armed::drop]; the guard is the mark's index. *)
Definition Armed_hold (mark : nat) (t : Table) : nat * Table :=
  (mark, set_marks (alter (λ u, MkUse (mk_used u) (as_u32 (mk_holds u + 1))) mark (t_marks t)) t).
Definition Armed_drop (mark : nat) (t : Table) : Table :=
  set_marks (alter (λ u, MkUse (mk_used u) (as_u32 (mk_holds u - 1))) mark (t_marks t)) t.

Definition used_of (t : Table) (mark : nat) : Z := from_option mk_used 0 (t_marks t !! mark).
Definition holds_of (t : Table) (mark : nat) : Z := from_option mk_holds 0 (t_marks t !! mark).

(** ** The tree *)

(** [Table::node]: walk down by name. *)
Fixpoint node_at (n : Node) (p : list Name) : option Node :=
  match p with
  | [] => Some n
  | x :: p => match n_children n !! x with Some c => node_at c p | None => None end
  end.

(** [Table::node_mut], with what is done to the node. *)
Fixpoint alter_at (f : Node → Node) (n : Node) (p : list Name) : Node :=
  match p with
  | [] => f n
  | x :: p =>
      match n_children n !! x with
      | Some c => with_children n (<[x := alter_at f c p]> (n_children n))
      | None => n
      end
  end.

Definition detach (path : Path) (t : Table) : option Node * Table :=
  match Path_split_last path with
  | None => (None, t)
  | Some (parent, name) =>
      match node_at (t_root t) (names parent) with
      | None => (None, t)
      | Some slot =>
          (n_children slot !! name,
           set_root (alter_at (λ n, with_children n (delete name (n_children n)))
                       (t_root t) (names parent)) t)
      end
  end.

(** [x -= 1] on a [usize], as a release build computes it. *)
Definition usize_dec (x : Z) : Z := if x =? 0 then usize_max else x - 1.

(** Stop watching a node and everything below it, announcing each when asked to. *)
Definition unwatch (state : State) (path : Path) (announce : bool) (st : Table * list EventItem)
    : Table * list EventItem :=
  match state with
  | Unwatchable _ => st
  | Watched wd =>
      let '(t, out) := st in
      let t := match t_by_wd t !! wd with
               | Some _ => set_ms (m_rm (t_ms t) wd) (set_by_wd (delete wd (t_by_wd t)) t)
               | None => t
               end in
      (set_watched (usize_dec (t_watched t)) t,
       if announce then out ++ [Ev_Unwatched path] else out)
  end.

Fixpoint drop_tree (node : Node) (path : Path) (announce : bool) (st : Table * list EventItem)
    : Table * list EventItem :=
  match node with
  | MkNode state _ children =>
      unwatch state path announce
        (map_fold (λ name child st,
            let child_path := match Path_join path name with Ok p => p | Err _ => path end in
            drop_tree child child_path announce st) st children)
  end.

Definition put (path : Path) (node : Node) (st : Table * list EventItem) : Table * list EventItem :=
  let '(t, out) := st in
  match Path_split_last path with
  | None => (t, out)
  | Some (parent, name) =>
      match node_at (t_root t) (names parent) with
      | None => drop_tree node path true (t, out)
      | Some slot =>
          let t' := set_root (alter_at (λ n, with_children n (<[name := node]> (n_children n)))
                                (t_root t) (names parent)) t in
          match n_children slot !! name with
          | Some displaced => drop_tree displaced path true (t', out)
          | None => (t', out)
          end
      end
  end.

Fixpoint rekey (node : Node) (path : Path) (st : Table * list EventItem)
    : Node * (Table * list EventItem) :=
  match node with
  | MkNode state mark children =>
      let '(t, out) := st in
      let t := match state with
               | Watched wd => set_by_wd (<[wd := path]> (t_by_wd t)) t
               | Unwatchable _ => t
               end in
      let '(kept, st) :=
        map_fold (λ name child '(kept, st),
            match Path_join path name with
            | Ok child_path =>
                let '(child, st) := rekey child child_path st in (<[name := child]> kept, st)
            | Err _ => (kept, drop_tree child path true st)
            end) (∅, (t, out)) children in
      (MkNode state mark kept, st)
  end.

Definition reroot (from to : Path) (st : Table * list EventItem) : bool * (Table * list EventItem) :=
  let '(detached, t) := detach from st.1 in
  match detached with
  | None => (false, (t, st.2))
  | Some node =>
      let '(node, st) := rekey node to (t, st.2) in
      (true, put to node st)
  end.

(** The deepest directory on the path that is watched. *)
Fixpoint deepest_watched (n : Node) (ns : list Name) : Node :=
  match ns with
  | [] => n
  | x :: ns =>
      match n_children n !! x with
      | Some c => if is_watched c then deepest_watched c ns else n
      | None => n
      end
  end.

(** ** Eviction *)

Definition budget_at (now : Z) (t : Table) : Z * Table :=
  match t_capped t with
  | Some (cap, until_) => if now <? until_ then (cap, t) else (t_budget t, set_capped None t)
  | None => (t_budget t, t)
  end.

(** [keep.starts_with(names)]. *)
Fixpoint starts_with (keep ns : list Name) : bool :=
  match keep, ns with
  | _, [] => true
  | k :: keep, n :: ns => bool_decide (k = n) && starts_with keep ns
  | [], _ :: _ => false
  end.

Definition watched_below (n : Node) : bool :=
  map_fold (λ _ c acc, is_watched c || acc) false (n_children n).

(** Every directory below a node that eviction may take, with when it was last used. *)
Fixpoint leaves_of (t : Table) (keep : list Name) (n : Node) (ns : list Name)
    : list (Z * list Name) :=
  match n with
  | MkNode _ _ children =>
      map_fold (λ name child acc,
          acc ++ (if negb (is_watched child) then []
                  else
                    let ns := ns ++ [name] in
                    if watched_below child then leaves_of t keep child ns
                    else if (holds_of t (n_mark child) =? 0) && negb (starts_with keep ns)
                         then [(used_of t (n_mark child), ns)] else []))
        [] children
  end.

(** The derived order of names and of lists of them. *)
Fixpoint lex_cmp {A} (cmp : A → A → comparison) (a b : list A) : comparison :=
  match a, b with
  | [], [] => Eq
  | [], _ :: _ => Lt
  | _ :: _, [] => Gt
  | x :: a, y :: b => match cmp x y with Eq => lex_cmp cmp a b | c => c end
  end.
Definition name_cmp (a b : Name) : comparison :=
  lex_cmp (λ x y, Z.compare (byte_z x) (byte_z y)) (as_bytes a) (as_bytes b).
Definition leaf_cmp (a b : Z * list Name) : comparison :=
  match Z.compare a.1 b.1 with
  | Eq => match Nat.compare (length b.2) (length a.2) with
          | Eq => lex_cmp name_cmp a.2 b.2
          | c => c
          end
  | c => c
  end.
Definition leaf_le (a b : Z * list Name) : Prop := leaf_cmp a b ≠ Gt.
#[export] Instance leaf_le_dec : RelDecision leaf_le.
Proof. intros a b. unfold leaf_le. destruct (leaf_cmp a b); [left|left|right]; naive_solver. Defined.

(** [select_nth_unstable_by(take - 1, ..)] and the first [take]: the [take] least. *)
Definition take_least (take_ : nat) (leaves : list (Z * list Name)) : list (Z * list Name) :=
  take take_ (merge_sort leaf_le leaves).

Definition evict_one (victim : list Name) (st : Table * list EventItem) : Table * list EventItem :=
  let '(detached, t) := detach (MkPath victim) st.1 in
  match detached with
  | Some node => drop_tree node (MkPath victim) true (t, st.2)
  | None => (t, st.2)
  end.

(** The loop; [None] is more turns than [fuel]. *)
Fixpoint evict_loop (fuel : nat) (keep : list Name) (want dropped : Z)
    (st : Table * list EventItem) : option (Table * list EventItem) :=
  if dropped <? want then
    match fuel with
    | O => None
    | S fuel =>
        let leaves := leaves_of st.1 keep (t_root st.1) [] in
        match leaves with
        | [] => Some st
        | _ =>
            let take_ := Z.min (want - dropped) (len_z leaves) in
            let st := foldl (λ st v, evict_one v st) st (take_least (Z.to_nat take_) leaves).*2 in
            evict_loop fuel keep want (dropped + take_) st
        end
    end
  else Some st.

Definition evict_want (watched budget : Z) : Z :=
  let over := sat_sub64 (watched + 1) budget in
  Z.max over (Z.min (Z.max (budget / 16) 1) EVICT_BATCH).

Definition evict (keep : Path) (now : Z) (st : Table * list EventItem) : option (Table * list EventItem) :=
  let '(budget, t) := budget_at now st.1 in
  let want := evict_want (t_watched t) budget in
  let t := set_round (wrap64 (t_round t + 1)) t in
  evict_loop (Z.to_nat want) (names keep) want 0 (t, st.2).

(** ** Watching a path *)

Inductive Touched := Done (held : option nat) | Missing.

(** The walk of [touch], from a node. *)
Fixpoint touch_walk (n : Node) (ns : list Name) (round now : Z) (t : Table) : Touched * Table :=
  match ns with
  | [] => let '(h, t) := Armed_hold (n_mark n) t in (Done (Some h), t)
  | x :: ns =>
      match n_children n !! x with
      | None => (Missing, t)
      | Some child =>
          match n_state child with
          | Watched _ => touch_walk child ns round now (stamp (n_mark child) round t)
          | Unwatchable retry_at =>
              if now <? retry_at
              then let '(h, t) := Armed_hold (n_mark n) t in (Done (Some h), t)
              else (Missing, t)
          end
      end
  end.
Definition touch (dir : Path) (now : Z) (t : Table) : Touched * Table :=
  if t_dead t then (Done None, t)
  else touch_walk (t_root t) (names dir) (t_round t) now t.

Definition place (path : Path) (wd : W) (now : Z) (st : Table * list EventItem)
    : option (bool * (Table * list EventItem)) :=
  match t_by_wd st.1 !! wd with
  | Some old =>
      if bool_decide (old = path) then Some (true, st)
      else Some (reroot old path st)
  | None =>
      let '(budget, t) := budget_at now st.1 in
      st ← (if budget <=? t_watched t then evict path now (t, st.2) else Some (t, st.2));
      let '(t, out) := st in
      let t := set_watched (t_watched t + 1) (set_by_wd (<[wd := path]> (t_by_wd t)) t) in
      let '(node, t) := Node_new (Watched wd) (t_round t) t in
      Some (true, put path node (t, out))
  end.

Definition limited (now : Z) (t : Table) : Table :=
  set_capped (Some (t_watched t, now + LIMITED_HOLD)) t.

Definition add (dir : Dir) (t : Table) : result errno W * Table :=
  let '(ms, r) := m_add (t_ms t) dir in (r, set_ms ms t).
Definition open_ (path : Path) (t : Table) : result errno Dir * Table :=
  let '(ms, r) := m_open (t_ms t) path in (r, set_ms ms t).
Definition open_child (dir : Dir) (name : Name) (t : Table) : result errno Dir * Table :=
  let '(ms, r) := m_open_child (t_ms t) dir name in (r, set_ms ms t).

Definition install (path : Path) (dir : Dir) (now : Z) (st : Table * list EventItem)
    : option (bool * (Table * list EventItem)) :=
  let '(added, t) := add dir st.1 in
  '(added, st) ←
    match added with
    | Err e =>
        if (e =? ENOSPC) && (0 <? t_watched t) then
          st ← evict path now (limited now t, st.2);
          let '(added, t) := add dir st.1 in Some (added, (t, st.2))
        else Some (added, (t, st.2))
    | Ok _ => Some (added, (t, st.2))
    end;
  match added with
  | Ok wd => place path wd now st
  | Err _ =>
      let '(t, out) := st in
      let '(node, t) := Node_new (Unwatchable (now + UNWATCHABLE_RETRY)) (t_round t) t in
      Some (false, put path node (t, out))
  end.

Definition verify (path : Path) (dir : Dir) (now : Z) (st : Table * list EventItem)
    : option (bool * (Table * list EventItem)) :=
  match n_state <$> node_at (t_root st.1) (names path) with
  | Some (Watched wd) =>
      let '(found, t) := add dir st.1 in
      match found with
      | Ok found =>
          if bool_decide (found = wd) then Some (true, (t, st.2))
          else
            let '(stale, t) := detach path t in
            let st := match stale with
                      | Some stale => drop_tree stale path true (t, st.2)
                      | None => (t, st.2)
                      end in
            place path found now st
      | Err _ => Some (false, (t, st.2))
      end
  | _ => Some (false, st)
  end.

(** The loop of [extend], from an open directory: [done] is the path so far. *)
Fixpoint extend_down (dir : Dir) (done rest : list Name) (now : Z) (st : Table * list EventItem)
    : option (Table * list EventItem) :=
  match rest with
  | [] => Some st
  | x :: rest =>
      let '(child, t) := open_child dir x st.1 in
      match child with
      | Err _ => Some (t, st.2)
      | Ok child =>
          '(installed, st) ← install (MkPath (done ++ [x])) child now (t, st.2);
          if (installed : bool) then extend_down child (done ++ [x]) rest now st else Some st
      end
  end.

Definition extend (ns : list Name) (depth : nat) (now : Z) (st : Table * list EventItem)
    : option (Table * list EventItem) :=
  let prefix := MkPath (take depth ns) in
  let '(dir, t) := open_ prefix st.1 in
  match dir with
  | Err _ => Some (t, st.2)
  | Ok dir =>
      '(go, st) ← (if (0 <? depth)%nat then verify prefix dir now (t, st.2) else Some (true, (t, st.2)));
      if (go : bool) then extend_down dir (take depth ns) (drop depth ns) now st else Some st
  end.

(** How far down the path is watched. *)
Fixpoint watched_depth (n : Node) (ns : list Name) : nat :=
  match ns with
  | [] => 0
  | x :: ns =>
      match n_children n !! x with
      | Some c => if is_watched c then S (watched_depth c ns) else 0
      | None => 0
      end
  end.

Definition arm (dir : Path) (now : Z) (st : Table * list EventItem)
    : option (option nat * (Table * list EventItem)) :=
  let '(touched, t) := touch dir now st.1 in
  match touched with
  | Done held => Some (held, (t, st.2))
  | Missing =>
      '(t, out) ← extend (names dir) (watched_depth (t_root t) (names dir)) now (t, st.2);
      let '(h, t) := Armed_hold (n_mark (deepest_watched (t_root t) (names dir))) t in
      Some (Some h, (t, out))
  end.

(** ** Applying events *)

(** [Table::is]. *)
Definition is_ (dir : Dir) (wd : W) (t : Table) : bool * Table :=
  let '(found, t) := add dir t in
  match found with
  | Ok found =>
      if bool_decide (found = wd) then (true, t)
      else match t_by_wd t !! found with
           | Some _ => (false, t)
           | None => (false, set_ms (m_rm (t_ms t) found) t)
           end
  | Err _ => (false, t)
  end.

Definition still_there (path : Path) (t : Table) : bool * Table :=
  match n_state <$> node_at (t_root t) (names path) with
  | Some (Watched wd) =>
      let '(dir, t) := open_ path t in
      match dir with Ok dir => is_ dir wd t | Err _ => (false, t) end
  | _ => (false, t)
  end.

Fixpoint recheck_below (n : Node) (parent : Dir) (ns : list Name) (st : Table * list EventItem)
    : gmap Name Node * (Table * list EventItem) :=
  match n with
  | MkNode _ _ children =>
      map_fold (λ name child '(kept, st),
          let ns := ns ++ [name] in
          let '(here, t) :=
            match n_state child with
            | Watched wd =>
                let '(dir, t) := open_child parent name st.1 in
                match dir with
                | Ok dir => let '(same, t) := is_ dir wd t in
                            (if (same : bool) then Some dir else None, t)
                | Err _ => (None, t)
                end
            | Unwatchable _ => (None, st.1)
            end in
          match here with
          | Some dir =>
              let '(below, st) := recheck_below child dir ns (t, st.2) in
              (<[name := with_children child below]> kept, st)
          | None => (kept, drop_tree child (MkPath ns) true (t, st.2))
          end) (∅, st) children
  end.

Definition recheck (st : Table * list EventItem) : Table * list EventItem :=
  let '(t, out) := st in
  let taken := t_root t in
  let t := set_root (with_children taken ∅) t in
  let '(root, t) := open_ Path_root t in
  match root with
  | Ok root =>
      let '(kept, (t, out)) := recheck_below taken root [] (t, out) in
      (set_root (with_children (t_root t) kept) t, out)
  | Err _ => map_fold (λ name node st, drop_tree node (MkPath [name]) true st) (t, out)
               (n_children taken)
  end.

Definition die (t : Table) : Table :=
  MkTable (t_ms t) (with_children (t_root t) ∅) ∅ 0 (t_budget t) (t_capped t) (t_round t)
    true (t_marks t) (t_next t).

Definition report (e : RawEvent) (t : Table) (out : list EventItem)
    : option (Path * Name) * list EventItem :=
  match t_by_wd t !! re_wd e with
  | None => (None, out)
  | Some dir =>
      match re_name e with
      | None =>
          (None, if is_root dir && intersects (re_mask e) (Z.lor IN_MODIFY IN_ATTRIB)
                 then out ++ [Ev_Data dir] else out)
      | Some name =>
          match Name_new name with
          | Err _ => (None, out)
          | Ok name => (Some (dir, name), out ++ items_for dir (re_mask e) name)
          end
      end
  end.

Record Applying := MkApplying {
  ap_moving : gmap Z (Path * Node); ap_table : Table; ap_out : list EventItem }.

Definition drop_moving (moving : gmap Z (Path * Node)) (st : Table * list EventItem)
    : Table * list EventItem :=
  map_fold (λ _ '(path, node) st, drop_tree node path true st) st moving.

(** What a structural event in a directory does, at the path it names. *)
Definition apply_structural (e : RawEvent) (path : Path) (a : Applying) : Applying :=
  let '(MkApplying moving t out) := a in
  if contains (re_mask e) IN_MOVED_FROM then
    let '(there, t) := still_there path t in
    if there then MkApplying moving t out
    else let '(detached, t) := detach path t in
         match detached with
         | Some node => MkApplying (<[re_cookie e := (path, node)]> moving) t out
         | None => MkApplying moving t out
         end
  else if contains (re_mask e) IN_MOVED_TO then
    let arrived := moving !! re_cookie e in
    let moving := delete (re_cookie e) moving in
    let '(there, t) := still_there path t in
    if there then
      let '(t, out) := match arrived with
                       | Some (from, node) => drop_tree node from true (t, out)
                       | None => (t, out)
                       end in
      MkApplying moving t out
    else
      let '(old, t) := detach path t in
      let st := match old with
                | Some old => drop_tree old path true (t, out)
                | None => (t, out)
                end in
      let '(t, out) := match arrived with
                       | Some (_, node) => let '(node, st) := rekey node path st in put path node st
                       | None => st
                       end in
      MkApplying moving t out
  else if contains (re_mask e) IN_DELETE then
    let '(there, t) := still_there path t in
    if there then MkApplying moving t out
    else let '(detached, t) := detach path t in
         match detached with
         | Some node => let '(t, out) := drop_tree node path true (t, out) in MkApplying moving t out
         | None => MkApplying moving t out
         end
  else a.

(** One event of the loop of [apply]; nothing once the table is dead. *)
Definition apply_event (a : Applying) (e : RawEvent) : Applying :=
  let '(MkApplying moving t out) := a in
  if t_dead t then a
  else if contains (re_mask e) IN_Q_OVERFLOW then
    let '(t, out) := drop_moving moving (t, out) in
    let '(t, out) := recheck (t, out ++ [Ev_Overflow]) in
    MkApplying ∅ t out
  else
    match t_by_wd t !! re_wd e with
    | None => a
    | Some dir =>
        if intersects (re_mask e) (Z.lor (Z.lor IN_IGNORED IN_UNMOUNT) IN_DELETE_SELF) then
          if is_root dir then MkApplying moving (die t) (out ++ [Ev_Overflow])
          else if contains (re_mask e) IN_IGNORED then
            let '(detached, t) := detach dir t in
            match detached with
            | Some node => let '(t, out) := drop_tree node dir false (t, out) in
                           MkApplying moving t out
            | None => MkApplying moving t out
            end
          else a
        else if contains (re_mask e) IN_MOVE_SELF then a
        else
          let '(reported, out) := report e t out in
          match reported with
          | None => MkApplying moving t out
          | Some (dir, name) =>
              if negb (contains (re_mask e) IN_ISDIR) then MkApplying moving t out
              else match Path_join dir name with
                   | Err _ => MkApplying moving t out
                   | Ok path => apply_structural e path (MkApplying moving t out)
                   end
          end
    end.

Definition apply (events : list RawEvent) (st : Table * list EventItem) : Table * list EventItem :=
  let '(MkApplying moving t out) := foldl apply_event (MkApplying ∅ st.1 st.2) events in
  drop_moving moving (t, out).

(** ** The table in the server *)

Definition Table_new (ms : MS) (budget : Z) : result errno Table :=
  let '(ms, dir) := m_open ms Path_root in
  dir ← dir;
  let '(ms, wd) := m_add ms dir in
  wd ← wd;
  Ok (MkTable ms (MkNode (Watched wd) 0 ∅) {[wd := Path_root]} 0 budget None 0 false
        {[0%nat := MkUse 0 0]} 1).

(** What [fs.inotify.max_user_watches] reads as: an error, a text that is no number, or it. *)
Definition budget_from (sysctl : result errno (option Z)) : Z :=
  match sysctl with
  | Ok (Some limit) => Z.min (Z.max (limit / 2) 1) BUDGET_MAX
  | Ok None => BUDGET_FALLBACK
  | Err _ => BUDGET_FALLBACK
  end.

Record Inner := MkInner { in_table : Table; in_pending : Pending }.

Definition Watches_arm (dir : Path) (now : Z) (w : Inner) : option (option nat * Inner) :=
  let '(touched, t) := touch dir now (in_table w) in
  match touched with
  | Done held => Some (held, MkInner t (in_pending w))
  | Missing =>
      '(held, (t, out)) ← arm dir now (t, []);
      Some (held, MkInner t (foldl (λ p item, Pending_fold p item None) (in_pending w) out))
  end.

Fixpoint Watches_arm_all (dirs : list Path) (now : Z) (w : Inner) : option (list nat * Inner) :=
  match dirs with
  | [] => Some ([], w)
  | dir :: dirs =>
      '(held, w) ← Watches_arm dir now w;
      '(rest, w) ← Watches_arm_all dirs now w;
      Some (match held with Some h => h :: rest | None => rest end, w)
  end.
Definition arm_request (req : Request) (now : Z) (w : Inner) : option (list nat * Inner) :=
  Watches_arm_all (dirs_named req) now w.

(** One read of the event thread: [now] is the clock as the items are folded. *)
Definition event_turn (raw : list RawEvent) (now : Z) (w : Inner) (log : ChangeLog)
    : Inner * ChangeLog :=
  if existsb (λ e, structural (re_mask e)) raw then
    let '(t, out) := apply raw (in_table w, []) in
    let '(p, log) := fold_events now (in_pending w) log out in
    (MkInner t p, log)
  else
    let out := foldl (λ out e, (report e (in_table w) out).2) [] raw in
    let '(p, log) := fold_events now (in_pending w) log out in
    (MkInner (in_table w) p, log).

End table.
