(* ===== verification/WatchInv.v ===== *)
(** * Change notification: what the table of watched directories keeps

    The descriptors of a tree as a list, the effect of every operation on it, and
    the invariant: the descriptors the table knows are those of its tree, each
    leading to its directory's path, and the count is their number. *)

From stdpp Require Import sorting.
From S2P Require Import Prelude Types Msg Wire Watch WatchTable.

Lemma Path_split_last_None p : Path_split_last p = None → names p = [].
Proof.
  unfold Path_split_last. destruct (reverse (names p)) as [|x l] eqn:Hr; [|done].
  intros _. by rewrite <- (reverse_involutive (names p)), Hr.
Qed.

Section inv.
Context {W : Type} `{Countable W} `{HMk : !Marks W}.
Local Notation Node := (@WatchTable.Node W).
Local Notation Table := (@WatchTable.Table W _ _ HMk).
Implicit Types (n : Node) (t : Table) (c : gmap Name Node).

(** ** Trees *)

(** How many nodes a tree has, for induction. *)
Fixpoint node_size n : nat :=
  match n with MkNode _ _ c => S (map_fold (λ _ k acc, node_size k + acc)%nat 0%nat c) end.

Lemma size_child s m c k n :
  c !! k = Some n → (node_size n < node_size (MkNode s m c))%nat.
Proof.
  intros Hk. cbn [node_size].
  enough (node_size n ≤ map_fold (λ _ k acc, node_size k + acc)%nat 0%nat c)%nat by lia.
  rewrite <- (insert_delete_id c k n Hk).
  rewrite map_fold_insert_L; [lia|intros; lia|apply lookup_delete_eq].
Qed.

Lemma Node_rect' (P : Node → Prop) :
  (∀ s m c, (∀ k n, c !! k = Some n → P n) → P (MkNode s m c)) → ∀ n, P n.
Proof.
  intros HP n. remember (node_size n) as sz eqn:Hsz. revert n Hsz.
  induction sz as [sz IH] using lt_wf_ind. intros [s m c] ->.
  apply HP. intros k n Hk. eapply IH; [|done]. by eapply size_child.
Qed.

Definition state_wds (s : State) : list W :=
  match s with Watched w => [w] | Unwatchable _ => [] end.

(** The descriptors of a tree. *)
Fixpoint wlist n : list W :=
  match n with MkNode s _ c => map_fold (λ _ k acc, wlist k ++ acc) (state_wds s) c end.

Definition forest (l : list (Name * Node)) : list W := mjoin ((λ kn, wlist kn.2) <$> l).

Lemma wlist_node s m c :
  wlist (MkNode s m c) = forest (map_to_list c) ++ state_wds s.
Proof.
  cbn [wlist]. rewrite map_fold_foldr. unfold forest.
  induction (map_to_list c) as [|[k n] l IH]; [done|]. cbn in *. by rewrite IH, <- app_assoc.
Qed.

Local Arguments wlist : simpl never.

Lemma forest_perm l l' : l ≡ₚ l' → forest l ≡ₚ forest l'.
Proof. intros Hl. unfold forest. by rewrite Hl. Qed.

Lemma wlist_insert s m c k n :
  c !! k = None → wlist (MkNode s m (<[k := n]> c)) ≡ₚ wlist n ++ wlist (MkNode s m c).
Proof.
  intros Hk. rewrite !wlist_node, (forest_perm _ _ (map_to_list_insert c k n Hk)).
  unfold forest. cbn. by rewrite <- app_assoc.
Qed.

Lemma wlist_child s m c k n :
  c !! k = Some n → wlist (MkNode s m c) ≡ₚ wlist n ++ wlist (MkNode s m (delete k c)).
Proof.
  intros Hk. rewrite <- (insert_delete_id c k n Hk) at 1.
  apply wlist_insert. apply lookup_delete_eq.
Qed.

Lemma with_children_eta n : with_children n (n_children n) = n.
Proof. by destruct n. Qed.

(** The rest of a tree around one of its nodes does not depend on the node. *)
Lemma alter_at_wlist p n slot :
  node_at n p = Some slot →
  ∃ R, wlist n ≡ₚ wlist slot ++ R ∧ ∀ f, wlist (alter_at f n p) ≡ₚ wlist (f slot) ++ R.
Proof.
  revert n. induction p as [|x p IH]; intros n Hn; cbn in *.
  - simplify_eq. exists []. split; [by rewrite app_nil_r|]. intros f. by rewrite app_nil_r.
  - destruct (n_children n !! x) as [c|] eqn:Hc; [|done].
    destruct (IH c Hn) as (R & HR & Hf). destruct n as [s m ch]; cbn in *.
    exists (R ++ wlist (MkNode s m (delete x ch))). split.
    + rewrite (wlist_child s m ch x c Hc), HR. by rewrite <- app_assoc.
    + intros f. unfold with_children; cbn [n_state n_mark].
      rewrite <- insert_delete_eq, wlist_insert by apply lookup_delete_eq.
      rewrite Hf. by rewrite <- app_assoc.
Qed.

Lemma node_at_app n p q : node_at n (p ++ q) = node_at n p ≫= λ m, node_at m q.
Proof.
  revert n. induction p as [|x p IH]; intros n; cbn; [done|].
  destruct (n_children n !! x); [apply IH|done].
Qed.

Lemma elem_of_forest w l : w ∈ forest l ↔ ∃ k n, (k, n) ∈ l ∧ w ∈ wlist n.
Proof.
  unfold forest. rewrite list_elem_of_join. setoid_rewrite list_elem_of_fmap.
  split.
  - intros (L & Hw & [k n] & -> & Hl). eauto.
  - intros (k & n & Hl & Hw). exists (wlist n). split; [done|]. by exists (k, n).
Qed.

Lemma elem_of_wlist w n :
  w ∈ wlist n ↔ ∃ q n', node_at n q = Some n' ∧ n_state n' = Watched w.
Proof.
  induction n as [s m c IH] using Node_rect'.
  rewrite wlist_node, elem_of_app, elem_of_forest. split.
  - intros [(k & n & Hl & Hw)|Hw].
    + apply elem_of_map_to_list in Hl. apply (IH k n Hl) in Hw as (q & n' & Hq & Hs).
      exists (k :: q), n'. cbn. by rewrite Hl.
    + destruct s; [|by apply not_elem_of_nil in Hw]. apply list_elem_of_singleton in Hw as ->.
      by exists [], (MkNode (Watched wd) m c).
  - intros ([|k q] & n' & Hq & Hs); cbn in Hq.
    + simplify_eq. cbn in Hs. subst. right. left.
    + destruct (c !! k) as [n|] eqn:Hk; [|done]. left. exists k, n.
      split; [by apply elem_of_map_to_list|]. apply (IH k n Hk). eauto.
Qed.

(** ** Dropping a tree *)

(** What [drop_tree] leaves alone. *)
Record framed (t t' : Table) : Prop := MkFramed {
  fr_root : t_root t' = t_root t;
  fr_budget : t_budget t' = t_budget t;
  fr_capped : t_capped t' = t_capped t;
  fr_round : t_round t' = t_round t;
  fr_dead : t_dead t' = t_dead t;
  fr_marks : t_marks t' = t_marks t;
  fr_next : t_next t' = t_next t }.

Lemma framed_refl t : framed t t.
Proof. by split. Qed.
Lemma framed_trans t t' t'' : framed t t' → framed t' t'' → framed t t''.
Proof. intros [] []. split; congruence. Qed.

(** The effect of dropping the descriptors [L], with [items] announced. *)
Record dropped (L : list W) (items : list EventItem) (st st' : Table * list EventItem) : Prop := {
  dr_frame : framed st.1 st'.1;
  dr_by_wd w : t_by_wd st'.1 !! w = if decide (w ∈ L) then None else t_by_wd st.1 !! w;
  dr_watched : t_watched st'.1 = Nat.iter (length L) usize_dec (t_watched st.1);
  dr_out : st'.2 = st.2 ++ items }.

Lemma dropped_nil st : dropped [] [] st st.
Proof.
  split; [apply framed_refl| |done|by rewrite app_nil_r].
  intros w. rewrite decide_False by apply not_elem_of_nil. done.
Qed.

Lemma dropped_app L L' its its' st st' st'' :
  dropped L its st st' → dropped L' its' st' st'' → dropped (L' ++ L) (its ++ its') st st''.
Proof.
  intros [F1 B1 W1 O1] [F2 B2 W2 O2]. split.
  - by eapply framed_trans.
  - intros w. rewrite B2, B1. repeat case_decide; rewrite ?elem_of_app in *; naive_solver.
  - rewrite W2, W1, length_app, Nat.iter_add. done.
  - by rewrite O2, O1, <- app_assoc.
Qed.

Definition announced (announce : bool) (s : @State W) (p : Path) : list EventItem :=
  match s with
  | Watched _ => if announce then [Ev_Unwatched p] else []
  | Unwatchable _ => []
  end.

Lemma unwatch_dropped s p a st :
  dropped (state_wds s) (announced a s p) st (unwatch s p a st).
Proof.
  destruct st as [t out], s as [w|r]; cbn [unwatch state_wds announced]; [|apply dropped_nil].
  split; cbn.
  - by destruct (t_by_wd t !! w).
  - intros w'. destruct (t_by_wd t !! w) eqn:Hw; cbn.
    + case_decide as Hin; [apply list_elem_of_singleton in Hin as ->; apply lookup_delete_eq|].
      rewrite lookup_delete_ne; [done|]. intros ->. apply Hin. left.
    + case_decide as Hin; [by apply list_elem_of_singleton in Hin as ->|done].
  - by destruct (t_by_wd t !! w).
  - destruct a; [done|by rewrite app_nil_r].
Qed.

(** Names below a node, as one path: what is announced of a tree. *)
Definition join_or (p : Path) (x : Name) : Path :=
  match Path_join p x with Ok q => q | Err _ => p end.

Lemma drop_tree_dropped n p a st :
  ∃ items, dropped (wlist n) items st (drop_tree n p a st)
  ∧ length items = (if a then length (wlist n) else 0)%nat
  ∧ (∀ i, i ∈ items → ∃ q, i = Ev_Unwatched q)
  ∧ (a = true → ∀ q n' w, node_at n q = Some n' → n_state n' = Watched w →
       Ev_Unwatched (foldl join_or p q) ∈ items).
Proof.
  revert p st. induction n as [s m c IH] using Node_rect'. intros p st.
  cbn [drop_tree]. rewrite map_fold_foldr.
  assert (∃ items, let st' := foldr (uncurry (λ name child st,
              drop_tree child (join_or p name) a st)) st (map_to_list c) in
            dropped (forest (map_to_list c)) items st st'
            ∧ length items = (if a then length (forest (map_to_list c)) else 0)%nat
            ∧ (∀ i, i ∈ items → ∃ q, i = Ev_Unwatched q)
            ∧ (a = true → ∀ k n q n' w, (k, n) ∈ map_to_list c →
                 node_at n q = Some n' → n_state n' = Watched w →
                 Ev_Unwatched (foldl join_or (join_or p k) q) ∈ items)) as (items & Hd & Hl & Hall & Han).
  { assert (∀ k n, (k, n) ∈ map_to_list c → c !! k = Some n) as Hin
      by (intros k n; apply elem_of_map_to_list).
    induction (map_to_list c) as [|[k n] l IHl].
    - exists []. split; [apply dropped_nil|]. split; [by destruct a|].
      split; [by intros i Hi%not_elem_of_nil|]. by intros _ ????? ?%not_elem_of_nil.
    - destruct IHl as (items & Hd & Hl & Hall & Han); [intros; apply Hin; by right|].
      cbn [foldr uncurry]. set (st' := foldr _ st l) in *.
      destruct (IH k n ltac:(apply Hin; left) (join_or p k) st') as (its & Hd' & Hl' & Hall' & Han').
      exists (items ++ its). split; [by apply (dropped_app _ _ _ _ _ _ _ Hd Hd')|]. split.
      { change (forest ((k, n) :: l)) with (wlist n ++ forest l).
        rewrite !length_app, Hl, Hl'. destruct a; lia. }
      split; [intros i [Hi|Hi]%elem_of_app; eauto|].
      intros Ha k' n'' q n' w [Heq|Hl0]%elem_of_cons Hq Hs; apply elem_of_app; [right|left].
      + simplify_eq. by eapply Han'.
      + by eapply Han. }
  set (st' := foldr _ st (map_to_list c)) in *.
  exists (items ++ announced a s p). rewrite wlist_node.
  split; [|split; [|split]].
  - pose proof (dropped_app _ _ _ _ _ _ _ Hd (unwatch_dropped s p a st')) as [F B Wt O].
    split; [done| | |done].
    + intros w. rewrite B. repeat case_decide; rewrite ?elem_of_app in *; naive_solver.
    + rewrite Wt. f_equal. rewrite !length_app. lia.
  - rewrite !length_app, Hl. destruct s, a; cbn; lia.
  - intros i [Hi|Hi]%elem_of_app; [eauto|]. destruct s, a; cbn in Hi;
      [apply list_elem_of_singleton in Hi as ->; eauto|by apply not_elem_of_nil in Hi..].
  - intros Ha [|k q] n' w Hq Hs; cbn in Hq; apply elem_of_app.
    + simplify_eq. cbn in Hs. subst. right. left.
    + destruct (c !! k) as [n|] eqn:Hk; [|done]. left. cbn [foldl].
      eapply Han; [done|by apply elem_of_map_to_list|done|done].
Qed.

Lemma iter_dec k x : Z.of_nat k ≤ x → Nat.iter k usize_dec x = x - Z.of_nat k.
Proof.
  induction k as [|k IH]; intros Hk; [cbn; lia|].
  change (Nat.iter (S k) usize_dec x) with (usize_dec (Nat.iter k usize_dec x)).
  rewrite IH by lia. unfold usize_dec. destruct (Z.eqb_spec (x - Z.of_nat k) 0); lia.
Qed.

(** ** The invariant *)

(** Every watched directory of the tree [n], at [p], is known under its path. *)
Definition placed (by_wd : gmap W Path) n (p : list Name) : Prop :=
  ∀ q n' w, node_at n q = Some n' → n_state n' = Watched w → by_wd !! w = Some (MkPath (p ++ q)).

(** [F] are descriptors known to the table and, for now, not in its tree. *)
Record table_ok (t : Table) (F : list W) : Prop := MkOk {
  ok_nodup : NoDup (wlist (t_root t) ++ F);
  ok_dom w : w ∈ wlist (t_root t) ++ F ↔ is_Some (t_by_wd t !! w);
  ok_count : t_watched t + 1 = len_z (wlist (t_root t) ++ F);
  ok_root : is_watched (t_root t) = true;
  ok_placed : placed (t_by_wd t) (t_root t) [] }.

Lemma ok_perm t F F' : F ≡ₚ F' → table_ok t F → table_ok t F'.
Proof.
  intros HF [N D C R P]. split; [| | |done|done].
  - by rewrite <- HF.
  - intros w. by rewrite <- HF.
  - unfold len_z in *. by rewrite <- HF.
Qed.

Lemma wlist_root_pos n : is_watched n = true → (0 < length (wlist n))%nat.
Proof.
  destruct n as [[w|] m c]; [|done]. intros _. rewrite wlist_node, length_app. cbn. lia.
Qed.

Lemma placed_dropped by_wd by_wd' n p (L : list W) :
  placed by_wd n p → (∀ w, w ∈ wlist n → w ∉ L) →
  (∀ w, by_wd' !! w = if decide (w ∈ L) then None else by_wd !! w) → placed by_wd' n p.
Proof.
  intros Hp Hd Hb q n' w Hq Hs. rewrite Hb, decide_False; [by eapply Hp|].
  apply Hd, elem_of_wlist. eauto.
Qed.

Lemma ok_dropped t F L items st' out :
  table_ok t (L ++ F) → dropped L items (t, out) st' → table_ok st'.1 F.
Proof.
  intros [N D C R P] [Fr B Wt O]. cbn [fst snd] in *.
  assert (∀ w, w ∈ wlist (t_root t) ++ F → w ∉ L) as Hdis.
  { rewrite (Permutation_app_swap_app (wlist (t_root t)) L F) in N.
    apply NoDup_app in N as (_ & N & _). intros w Hw HL. by apply (N w HL). }
  split; rewrite ?(fr_root _ _ Fr).
  - rewrite (Permutation_app_swap_app (wlist (t_root t)) L F) in N.
    by apply NoDup_app in N as (_ & _ & N).
  - intros w. rewrite B. case_decide as Hw.
    + split; [|by intros [? ?]]. intros Hr. by destruct (Hdis w Hr).
    + rewrite <- D, !elem_of_app in *. naive_solver.
  - rewrite Wt. pose proof (wlist_root_pos (t_root t) R). unfold len_z in *.
    rewrite !length_app in *. rewrite iter_dec by lia. lia.
  - done.
  - eapply placed_dropped; [exact P| |exact B]. intros w Hw. apply Hdis, elem_of_app. by left.
Qed.

Lemma ok_drop_tree t F n p a out :
  table_ok t (wlist n ++ F) → table_ok (drop_tree n p a (t, out)).1 F.
Proof.
  intros Hok. destruct (drop_tree_dropped n p a (t, out)) as (items & Hd & _).
  by eapply ok_dropped.
Qed.

(** A change to the parts the invariant does not mention. *)
Lemma ok_same t t' F :
  table_ok t F →
  t_root t' = t_root t → t_by_wd t' = t_by_wd t → t_watched t' = t_watched t → table_ok t' F.
Proof. intros [N D C R P] Hr Hb Hw. by split; rewrite ?Hr, ?Hb, ?Hw. Qed.

(** *** Taking a tree out *)

Lemma node_at_delete p x n q n' :
  node_at (alter_at (λ n, with_children n (delete x (n_children n))) n p) q = Some n' →
  ∃ n'', node_at n q = Some n'' ∧ n_state n'' = n_state n' ∧ n_mark n'' = n_mark n'.
Proof.
  revert n q. induction p as [|y p IH]; intros n q Hq.
  - destruct q as [|z q]; cbn in Hq; [simplify_eq; by exists n|]. cbn.
    destruct (delete x (n_children n) !! z) as [c|] eqn:Hc; [|done].
    apply lookup_delete_Some in Hc as [_ Hc]. rewrite Hc. eauto.
  - cbn in Hq. destruct (n_children n !! y) as [c|] eqn:Hc; [|eauto].
    destruct q as [|z q]; cbn in Hq |- *; [simplify_eq; by exists n|].
    destruct (decide (z = y)) as [->|Hne].
    + rewrite lookup_insert_eq in Hq. rewrite Hc. eauto.
    + rewrite lookup_insert_ne in Hq by done. destruct (n_children n !! z); [eauto|done].
Qed.

Lemma node_at_insert p x k n q n' :
  node_at (alter_at (λ n, with_children n (<[x := k]> (n_children n))) n p) q = Some n' →
  (∃ q', q = p ++ x :: q' ∧ node_at k q' = Some n')
  ∨ ∃ n'', node_at n q = Some n'' ∧ n_state n'' = n_state n' ∧ n_mark n'' = n_mark n'.
Proof.
  revert n q. induction p as [|y p IH]; intros n q Hq.
  - destruct q as [|z q]; cbn in Hq; [simplify_eq; right; by exists n|]. cbn.
    destruct (decide (z = x)) as [->|Hne].
    + rewrite lookup_insert_eq in Hq. left. by exists q.
    + rewrite lookup_insert_ne in Hq by done. right.
      destruct (n_children n !! z); [eauto|done].
  - cbn in Hq. destruct (n_children n !! y) as [c|] eqn:Hc; [|eauto].
    destruct q as [|z q]; cbn in Hq |- *; [simplify_eq; right; by exists n|].
    destruct (decide (z = y)) as [->|Hne].
    + rewrite lookup_insert_eq in Hq. rewrite Hc. apply IH in Hq as [(q' & -> & Hq)|Hq]; [|by right].
      left. by exists q'.
    + rewrite lookup_insert_ne in Hq by done. right. destruct (n_children n !! z); [eauto|done].
Qed.

Lemma alter_at_state f n p :
  (∀ n, n_state (f n) = n_state n) → n_state (alter_at f n p) = n_state n.
Proof. intros Hf. destruct p; cbn; [apply Hf|]. by destruct (_ !! _). Qed.

Lemma is_watched_state n n' : n_state n = n_state n' → is_watched n = is_watched n'.
Proof. unfold is_watched. by intros ->. Qed.

Lemma wlist_delete_child n x :
  wlist n ≡ₚ from_option wlist [] (n_children n !! x)
            ++ wlist (with_children n (delete x (n_children n))).
Proof.
  destruct n as [s m c]. unfold with_children; cbn [n_state n_mark n_children].
  destruct (c !! x) as [k|] eqn:Hk; cbn [from_option].
  - by apply wlist_child.
  - by rewrite delete_id.
Qed.

(** What is taken out is still known, under the path it had. *)
Lemma ok_detach path t F o t' :
  detach path t = (o, t') → table_ok t F →
  table_ok t' (from_option wlist [] o ++ F)
  ∧ (∀ n, o = Some n → placed (t_by_wd t') n (names path))
  ∧ t_by_wd t' = t_by_wd t ∧ t_marks t' = t_marks t ∧ t_dead t' = t_dead t.
Proof.
  unfold detach. intros Hd Hok.
  destruct (Path_split_last path) as [[parent x]|] eqn:Hsp; [|by simplify_eq].
  destruct (node_at (t_root t) (names parent)) as [slot|] eqn:Hslot; [|by simplify_eq].
  injection Hd as <- <-. destruct Hok as [N D C R P].
  apply Path_split_last_Some in Hsp.
  destruct (alter_at_wlist (names parent) (t_root t) slot Hslot) as (Rst & HR & Hf).
  set (g := λ n, with_children n (delete x (n_children n))) in *.
  assert (wlist (t_root t) ++ F
          ≡ₚ wlist (alter_at g (t_root t) (names parent))
             ++ from_option wlist [] (n_children slot !! x) ++ F) as HP.
  { rewrite HR, Hf, (wlist_delete_child slot x). fold (g slot).
    rewrite <- !app_assoc. solve_Permutation. }
  split; [|split; [|done]].
  - split; cbn.
    + by rewrite <- HP.
    + intros w. by rewrite <- HP.
    + unfold len_z in *. by rewrite <- HP.
    + rewrite <- R. apply is_watched_state. by apply alter_at_state.
    + intros q n' w Hq Hs. apply node_at_delete in Hq as (n'' & Hq & Hs' & _).
      eapply P; [done|]. congruence.
  - intros n Hn q n' w Hq Hs. cbn. rewrite Hsp, <- app_assoc. apply (P (names parent ++ x :: q) n' w); [|done].
    rewrite node_at_app, Hslot. cbn. by rewrite Hn.
Qed.

(** *** Putting a tree in *)

Lemma wlist_insert_child n x k :
  wlist (with_children n (<[x := k]> (n_children n))) ++ from_option wlist [] (n_children n !! x)
  ≡ₚ wlist k ++ wlist n.
Proof.
  destruct n as [s m c]. unfold with_children; cbn [n_state n_mark n_children].
  rewrite <- insert_delete_eq, wlist_insert by apply lookup_delete_eq.
  destruct (c !! x) as [d|] eqn:Hd; cbn [from_option].
  - rewrite (wlist_child s m c x d Hd), <- app_assoc. apply Permutation_app_head, Permutation_app_comm.
  - by rewrite app_nil_r, delete_id.
Qed.

Lemma ok_put path n t F out :
  names path ≠ [] → table_ok t (wlist n ++ F) → placed (t_by_wd t) n (names path) →
  table_ok (put path n (t, out)).1 F ∧ t_dead (put path n (t, out)).1 = t_dead t.
Proof.
  intros Hne Hok Hpl. unfold put.
  destruct (Path_split_last path) as [[parent x]|] eqn:Hsp.
  2:{ by apply Path_split_last_None in Hsp. }
  apply Path_split_last_Some in Hsp.
  destruct (node_at (t_root t) (names parent)) as [slot|] eqn:Hslot.
  2:{ split; [by apply ok_drop_tree|].
      destruct (drop_tree_dropped n path true (t, out)) as (? & [Fr _ _ _] & _).
      by rewrite (fr_dead _ _ Fr). }
  destruct Hok as [N D C R P].
  destruct (alter_at_wlist (names parent) (t_root t) slot Hslot) as (Rst & HR & Hf).
  set (g := λ n0, with_children n0 (<[x := n]> (n_children n0))) in *.
  set (t' := set_root _ t).
  assert (table_ok t' (from_option wlist [] (n_children slot !! x) ++ F)) as Hok'.
  { assert (wlist (t_root t) ++ wlist n ++ F
            ≡ₚ wlist (alter_at g (t_root t) (names parent))
               ++ from_option wlist [] (n_children slot !! x) ++ F) as HP.
    { rewrite HR, Hf. pose proof (wlist_insert_child slot x n) as Hi. fold (g slot) in Hi.
      transitivity ((wlist n ++ wlist slot) ++ Rst ++ F); [solve_Permutation|].
      rewrite <- Hi. solve_Permutation. }
    split; cbn.
    + by rewrite <- HP.
    + intros w. by rewrite <- HP.
    + unfold len_z in *. by rewrite <- HP.
    + rewrite <- R. apply is_watched_state. by apply alter_at_state.
    + intros q n' w Hq Hs. apply node_at_insert in Hq as [(q' & -> & Hq)|(n'' & Hq & Hs' & _)].
      * replace (names parent ++ x :: q') with (names path ++ q')
          by (by rewrite Hsp, <- app_assoc). by eapply Hpl.
      * eapply P; [done|]. congruence. }
  destruct (n_children slot !! x) as [d|]; cbn [from_option app] in Hok'; [|done].
  split; [by apply ok_drop_tree|].
  destruct (drop_tree_dropped d path true (t', out)) as (? & [Fr _ _ _] & _).
  by rewrite (fr_dead _ _ Fr).
Qed.

(** *** Moving a tree *)

Lemma Path_join_names p x q : Path_join p x = Ok q → q = MkPath (names p ++ [x]).
Proof. unfold Path_join. by intros [-> _]%Path_from_names_Ok. Qed.

(** The effect of recording the descriptors [L] anew, of which [D] are dropped. *)
Record rekeyed (L D : list W) (st st' : Table * list EventItem) : Prop := {
  rk_frame : framed st.1 st'.1;
  rk_other w : w ∉ L → t_by_wd st'.1 !! w = t_by_wd st.1 !! w;
  rk_gone w : w ∈ D → t_by_wd st'.1 !! w = None;
  rk_watched : t_watched st'.1 = Nat.iter (length D) usize_dec (t_watched st.1) }.

Lemma rekeyed_trans L D L' D' st st' st'' :
  rekeyed L D st st' → rekeyed L' D' st' st'' → (∀ w, w ∈ L → w ∉ L') → (∀ w, w ∈ D → w ∈ L) →
  rekeyed (L' ++ L) (D' ++ D) st st''.
Proof.
  intros [F1 O1 G1 W1] [F2 O2 G2 W2] Hdis HD. split.
  - by eapply framed_trans.
  - intros w Hw. rewrite elem_of_app in Hw. rewrite O2, O1; tauto.
  - intros w [Hw|Hw]%elem_of_app; [by apply G2|]. rewrite O2; [by apply G1|eauto].
  - by rewrite W2, W1, length_app, Nat.iter_add.
Qed.

Lemma dropped_rekeyed L items st st' : dropped L items st st' → rekeyed L L st st'.
Proof.
  intros [F B Wt _]. split; [done| | |done]; intros w Hw; rewrite B.
  - by rewrite decide_False.
  - by rewrite decide_True.
Qed.

Definition rekey_child (p : Path) (name : Name) (child : Node)
    (acc : gmap Name Node * (Table * list EventItem)) :=
  let '(kept, st) := acc in
  match Path_join p name with
  | Ok child_path =>
      let '(child, st) := rekey child child_path st in (<[name := child]> kept, st)
  | Err _ => (kept, drop_tree child p true st)
  end.

(** The promise of [rekey] about a tree whose descriptors are all different. *)
Definition rekeys n (p : Path) (st : Table * list EventItem) : Prop :=
  ∃ D, wlist n ≡ₚ wlist (rekey n p st).1 ++ D
       ∧ rekeyed (wlist n) D st (rekey n p st).2
       ∧ placed (t_by_wd (rekey n p st).2.1) (rekey n p st).1 (names p).

Lemma NoDup_disjoint (A B : list W) w : NoDup (A ++ B) → w ∈ A → w ∉ B.
Proof. intros (_ & Hd & _)%NoDup_app Ha. by apply Hd. Qed.

Lemma placed_other by_wd by_wd' n p (L : list W) :
  placed by_wd n p → (∀ w, w ∉ L → by_wd' !! w = by_wd !! w) →
  (∀ w, w ∈ wlist n → w ∉ L) → placed by_wd' n p.
Proof.
  intros Hp Hb Hd q n' w Hq Hs. rewrite Hb; [by eapply Hp|]. apply Hd, elem_of_wlist. eauto.
Qed.

Lemma rekey_children p l st :
  NoDup l.*1 → NoDup (forest l) →
  (∀ k n q st, (k, n) ∈ l → NoDup (wlist n) → rekeys n q st) →
  let r := foldr (uncurry (rekey_child p)) (∅, st) l in
  ∃ D, forest l ≡ₚ forest (map_to_list r.1) ++ D
       ∧ rekeyed (forest l) D st r.2
       ∧ (∀ k, is_Some (r.1 !! k) → k ∈ l.*1)
       ∧ ∀ k n, r.1 !! k = Some n → placed (t_by_wd r.2.1) n (names p ++ [k]).
Proof.
  induction l as [|[k n] l IH]; intros Hk Hnd Hrk.
  - exists []. cbn. split; [by rewrite map_to_list_empty|]. split.
    { split; [apply framed_refl|done|by intros w ?%not_elem_of_nil|done]. }
    split; [by intros j [? ?]|]. by intros j m Hj.
  - cbn in Hk. apply NoDup_cons in Hk as [Hkl Hk].
    change (forest ((k, n) :: l)) with (wlist n ++ forest l) in *.
    destruct (IH Hk) as (D & HP & HR & Hdom & Hpl).
    { by apply NoDup_app in Hnd as (_ & _ & ?). }
    { intros; eapply Hrk; [by right|done]. }
    cbn [foldr uncurry]. set (r := foldr _ (∅, st) l) in *. destruct r as [kept st'].
    cbn [fst snd] in *. cbn [rekey_child].
    assert (kept !! k = None) as Hkk.
    { destruct (kept !! k) eqn:E; [|done]. destruct Hkl. apply Hdom. rewrite E. eauto. }
    assert (∀ w, w ∈ forest l → w ∉ wlist n) as Hdis.
    { intros w Hw Hn. by apply (NoDup_disjoint _ _ w Hnd Hn). }
    assert (∀ w, w ∈ D → w ∈ forest l) as HD by (intros w Hw; rewrite HP; apply elem_of_app; by right).
    assert (∀ j m, kept !! j = Some m → ∀ w, w ∈ wlist m → w ∉ wlist n) as Hkd.
    { intros j m Hj w Hw. apply Hdis. rewrite HP, elem_of_app, elem_of_forest. left.
      exists j, m. split; [by apply elem_of_map_to_list|done]. }
    destruct (Path_join p k) as [q|e] eqn:Hq.
    + apply Path_join_names in Hq as ->.
      destruct (Hrk k n (MkPath (names p ++ [k])) st') as (D' & HP' & HR' & Hpl');
        [left|by apply NoDup_app in Hnd as (? & _)|].
      destruct (rekey n (MkPath (names p ++ [k])) st') as [n' st'']. cbn [fst snd] in *.
      exists (D' ++ D). split; [|split; [|split]].
      * rewrite (forest_perm _ _ (map_to_list_insert kept k n' Hkk)).
        change (forest ((k, n') :: map_to_list kept)) with (wlist n' ++ forest (map_to_list kept)).
        rewrite HP', HP. solve_Permutation.
      * by eapply rekeyed_trans.
      * intros j [m Hj]. destruct (decide (j = k)) as [->|]; [left|].
        rewrite lookup_insert_ne in Hj by done. right. apply Hdom. rewrite Hj. eauto.
      * intros j m Hj. destruct (decide (j = k)) as [->|].
        { rewrite lookup_insert_eq in Hj. by simplify_eq. }
        rewrite lookup_insert_ne in Hj by done.
        eapply placed_other; [by apply Hpl|apply (rk_other _ _ _ _ HR')|by eapply Hkd].
    + destruct (drop_tree_dropped n p true st') as (items & Hd%dropped_rekeyed & _).
      set (st'' := drop_tree n p true st') in *. cbn [fst snd].
      exists (wlist n ++ D). split; [|split; [|split]].
      * rewrite HP. solve_Permutation.
      * by eapply rekeyed_trans.
      * intros j Hj. right. by apply Hdom.
      * intros j m Hj. eapply placed_other; [by apply Hpl|apply (rk_other _ _ _ _ Hd)|by eapply Hkd].
Qed.

Lemma rekey_rekeys n p st : NoDup (wlist n) → rekeys n p st.
Proof.
  revert p st. induction n as [s m c IH] using Node_rect'. intros p [t out] Hnd.
  rewrite wlist_node in Hnd. unfold rekeys. cbn [rekey].
  set (t0 := match s with Watched wd => _ | Unwatchable _ => t end).
  rewrite map_fold_foldr.
  change (λ name child '(kept, st), match Path_join p name with
            | Ok child_path =>
                let '(child, st) := rekey child child_path st in (<[name := child]> kept, st)
            | Err _ => (kept, drop_tree child p true st)
            end) with (rekey_child p).
  destruct (rekey_children p (map_to_list c) (t0, out)) as (D & HP & HR & _ & Hpl).
  { apply NoDup_fst_map_to_list. }
  { by apply NoDup_app in Hnd as (? & _). }
  { intros k n q st Hl Hn. apply elem_of_map_to_list in Hl. by eapply IH. }
  set (r := foldr _ (∅, (t0, out)) (map_to_list c)) in *. destruct r as [kept st'].
  cbn [fst snd] in *.
  assert (∀ w, w ∈ forest (map_to_list c) → w ∉ state_wds s) as Hdis
    by (intros w Hw; by apply (NoDup_disjoint _ _ w Hnd)).
  assert (rekeyed (state_wds s) [] (t, out) (t0, out)) as H0.
  { unfold t0. destruct s as [w|]; split; cbn; try done; intros w' Hw';
      try by apply not_elem_of_nil in Hw'.
    rewrite lookup_insert_ne; [done|]. intros ->. apply Hw'. left. }
  exists D. rewrite !wlist_node. split; [rewrite HP; solve_Permutation|]. split.
  - pose proof (rekeyed_trans _ _ _ _ _ _ _ H0 HR) as Ht. rewrite app_nil_r in Ht. apply Ht.
    + intros w Hw Hf. by apply (Hdis w).
    + by intros w ?%not_elem_of_nil.
  - intros [|k q] n' w Hq Hs; cbn in Hq.
    + simplify_eq. cbn in Hs. subst s. rewrite (rk_other _ _ _ _ HR).
      * unfold t0. cbn. rewrite lookup_insert_eq, app_nil_r. by destruct p.
      * intros Hw. apply (Hdis w Hw). left.
    + destruct (kept !! k) as [n|] eqn:Hk; [|done].
      rewrite (Hpl k n Hk q n' w Hq Hs). by rewrite <- app_assoc.
Qed.

Lemma ok_rekey n p t F out :
  table_ok t (wlist n ++ F) →
  table_ok (rekey n p (t, out)).2.1 (wlist (rekey n p (t, out)).1 ++ F)
  ∧ placed (t_by_wd (rekey n p (t, out)).2.1) (rekey n p (t, out)).1 (names p)
  ∧ t_dead (rekey n p (t, out)).2.1 = t_dead t.
Proof.
  intros [N Dm C R P].
  assert (NoDup (wlist n)) as Hnd.
  { apply NoDup_app in N as (_ & _ & N). by apply NoDup_app in N as (N & _). }
  assert (∀ w, w ∈ wlist (t_root t) ++ F → w ∉ wlist n) as Hdis.
  { rewrite (Permutation_app_swap_app (wlist (t_root t)) (wlist n) F) in N.
    intros w Hw Hn. by apply (NoDup_disjoint _ _ w N Hn). }
  destruct (rekey_rekeys n p (t, out) Hnd) as (D & HP & HR & Hpl).
  destruct (rekey n p (t, out)) as [n' [t' out']]. cbn [fst snd] in *.
  destruct HR as [Fr O G Wt]. cbn [fst snd] in *. rewrite (fr_dead _ _ Fr).
  split; [|done].
  assert (wlist (t_root t) ++ wlist n ++ F ≡ₚ D ++ wlist (t_root t) ++ wlist n' ++ F) as HL
    by (rewrite HP; solve_Permutation).
  rewrite HL in N. split; rewrite ?(fr_root _ _ Fr).
  - by apply NoDup_app in N as (_ & _ & N).
  - intros w. destruct (decide (w ∈ D)) as [HwD|HwD].
    + rewrite G by done. split; [|by intros [? ?]]. intros Hw.
      by destruct (NoDup_disjoint _ _ w N HwD).
    + destruct (decide (w ∈ wlist n)) as [Hwn|Hwn].
      * assert (w ∈ wlist n') as Hn' by (rewrite HP, elem_of_app in Hwn; tauto).
        apply elem_of_wlist in Hn' as (q & m & Hq & Hs).
        rewrite (Hpl q m w Hq Hs). split; [eauto|]. intros _.
        rewrite !elem_of_app. right. left. apply elem_of_wlist. eauto.
      * rewrite O by done. rewrite <- Dm, !elem_of_app.
        assert (w ∉ wlist n') by (intros Hn'; apply Hwn; rewrite HP, elem_of_app; by left). tauto.
  - rewrite Wt. unfold len_z in *. rewrite HL, length_app in C.
    pose proof (wlist_root_pos (t_root t) R). rewrite !length_app in *. rewrite iter_dec by lia. lia.
  - done.
  - eapply placed_other; [exact P|exact O|]. intros w Hw. apply Hdis, elem_of_app. by left.
Qed.

(** *** Evicting *)

Lemma ok_evict_one v st F : table_ok st.1 F → table_ok (evict_one v st).1 F.
Proof.
  intros Hok. unfold evict_one. destruct (detach (MkPath v) st.1) as [o t'] eqn:Hd.
  destruct (ok_detach _ _ F _ _ Hd Hok) as (Hok' & _).
  destruct o as [n|]; [by apply ok_drop_tree|done].
Qed.

Lemma ok_evict_all vs st F :
  table_ok st.1 F → table_ok (foldl (λ st v, evict_one v st) st vs).1 F.
Proof.
  revert st. induction vs as [|v vs IH]; intros st Hok; [done|]. cbn. apply IH. by apply ok_evict_one.
Qed.

(** Descriptors only go. *)
Definition shrinks (t t' : Table) : Prop := ∀ w, t_by_wd t !! w = None → t_by_wd t' !! w = None.

Lemma shrinks_evict_one v st : shrinks st.1 (evict_one v st).1.
Proof.
  intros w Hw. unfold evict_one. destruct (detach (MkPath v) st.1) as [o t'] eqn:Hd.
  assert (t_by_wd t' = t_by_wd st.1) as Hb.
  { unfold detach in Hd. destruct (Path_split_last _) as [[p x]|]; [|by simplify_eq].
    destruct (node_at _ _); by simplify_eq. }
  destruct o as [n|]; [|cbn; by rewrite Hb].
  destruct (drop_tree_dropped n (MkPath v) true (t', st.2)) as (items & [_ B _ _] & _).
  rewrite B. case_decide; [done|]. cbn. by rewrite Hb.
Qed.

Lemma shrinks_evict_all vs st : shrinks st.1 (foldl (λ st v, evict_one v st) st vs).1.
Proof.
  revert st. induction vs as [|v vs IH]; intros st w Hw; [done|]. cbn. apply IH.
  by apply shrinks_evict_one.
Qed.

(** The loop ends within [want] turns, since each takes a leaf or stops. *)
Lemma ok_evict_loop fuel keep want dropped st F :
  table_ok st.1 F → want - dropped ≤ Z.of_nat fuel →
  ∃ st', evict_loop fuel keep want dropped st = Some st' ∧ table_ok st'.1 F ∧ shrinks st.1 st'.1.
Proof.
  assert (shrinks st.1 st.1) as Hrefl by (by intros w Hw).
  revert dropped st Hrefl. induction fuel as [|fuel IH]; intros dropped st Hrefl Hok Hf; cbn [evict_loop].
  - destruct (Z.ltb_spec dropped want); [lia|eauto].
  - destruct (Z.ltb_spec dropped want) as [Hlt|]; [|eauto].
    destruct (leaves_of st.1 keep (t_root st.1) []) as [|l leaves] eqn:Hl; [eauto|].
    set (take_ := Z.min _ _). set (st1 := foldl _ st _).
    destruct (IH (dropped + take_) st1) as (st' & He & Hok' & Hs).
    + by intros w Hw.
    + by apply ok_evict_all.
    + assert (1 ≤ take_); [|lia]. unfold take_, len_z. cbn [length]. lia.
    + exists st'. split; [done|]. split; [done|]. intros w Hw. apply Hs. by apply shrinks_evict_all.
Qed.

Lemma ok_budget now t F :
  table_ok t F → table_ok (budget_at now t).2 F.
Proof.
  intros Hok. unfold budget_at. destruct (t_capped t) as [[cap u]|]; [|done].
  destruct (now <? u); [done|]. by eapply ok_same.
Qed.

Lemma budget_by_wd now t : t_by_wd (budget_at now t).2 = t_by_wd t.
Proof. unfold budget_at. destruct (t_capped t) as [[]|]; [|done]. by destruct (_ <? _). Qed.

Lemma ok_evict keep now st F :
  table_ok st.1 F → ∃ st', evict keep now st = Some st' ∧ table_ok st'.1 F ∧ shrinks st.1 st'.1.
Proof.
  intros Hok. unfold evict. pose proof (ok_budget now st.1 F Hok) as Hb.
  pose proof (budget_by_wd now st.1) as Hw.
  destruct (budget_at now st.1) as [budget t]. cbn [snd] in *.
  destruct (ok_evict_loop (Z.to_nat (evict_want (t_watched t) budget)) (names keep)
    (evict_want (t_watched t) budget) 0 (set_round (wrap64 (t_round t + 1)) t, st.2) F)
    as (st' & He & Hok' & Hs).
  - by eapply ok_same.
  - unfold evict_want. lia.
  - exists st'. split; [done|]. split; [done|]. intros w Hn. apply Hs. cbn. by rewrite Hw.
Qed.

(** *** Watching a path *)

(** The call returns, and the invariant holds after it. *)
Definition keeps {A} (F : list W) (m : option (A * (Table * list EventItem))) : Prop :=
  ∃ a st, m = Some (a, st) ∧ table_ok st.1 F.

Lemma ok_reroot from to st F :
  names to ≠ [] → table_ok st.1 F → table_ok (reroot from to st).2.1 F.
Proof.
  intros Hne Hok. unfold reroot. destruct (detach from st.1) as [o t'] eqn:Hd.
  destruct (ok_detach _ _ F _ _ Hd Hok) as (Hok' & _). destruct o as [n|]; [|done].
  destruct (ok_rekey n to t' F st.2 Hok') as (Hr & Hp & _).
  destruct (rekey n to (t', st.2)) as [n' [t'' out'']]. cbn [fst snd] in *. by apply ok_put.
Qed.

Lemma node_at_new s m q n' : node_at (MkNode s m ∅ : Node) q = Some n' → q = [] ∧ n' = MkNode s m ∅.
Proof. destruct q as [|x q]; cbn; [naive_solver|]. by rewrite lookup_empty. Qed.

Lemma ok_Node_new s round t F :
  table_ok t F → table_ok (Node_new s round t).2 F.
Proof. intros Hok. by eapply ok_same. Qed.

Lemma ok_add_wd t F wd path :
  t_by_wd t !! wd = None → table_ok t F →
  table_ok (set_watched (t_watched t + 1) (set_by_wd (<[wd := path]> (t_by_wd t)) t)) (wd :: F).
Proof.
  intros Hwd [N D C R P].
  assert (wd ∉ wlist (t_root t) ++ F) as Hnew by (rewrite D, Hwd; by intros [? ?]).
  assert (wlist (t_root t) ++ wd :: F ≡ₚ wd :: wlist (t_root t) ++ F) as HP by solve_Permutation.
  split; cbn.
  - rewrite HP. by apply NoDup_cons.
  - intros w. rewrite HP, elem_of_cons, D. destruct (decide (w = wd)) as [->|Hne].
    + rewrite lookup_insert_eq. split; eauto.
    + rewrite lookup_insert_ne by done. naive_solver.
  - unfold len_z in *. rewrite HP. cbn [length]. lia.
  - done.
  - intros q n' w Hq Hs. rewrite lookup_insert_ne; [by eapply P|]. intros ->. apply Hnew.
    apply elem_of_app. left. apply elem_of_wlist. eauto.
Qed.

Lemma ok_place path wd now st F :
  names path ≠ [] → table_ok st.1 F → keeps F (place path wd now st).
Proof.
  intros Hne Hok. unfold place. destruct (t_by_wd st.1 !! wd) as [old|] eqn:Hwd.
  - case_bool_decide; [by exists true, st|].
    exists (reroot old path st).1, (reroot old path st).2. split; [by destruct (reroot old path st)|].
    by apply ok_reroot.
  - pose proof (ok_budget now st.1 F Hok) as Hb.
    pose proof (budget_by_wd now st.1) as Hbw.
    destruct (budget_at now st.1) as [budget t]. cbn [snd] in *.
    assert (∃ st', (if budget <=? t_watched t then evict path now (t, st.2) else Some (t, st.2)) = Some st'
                   ∧ table_ok st'.1 F ∧ t_by_wd st'.1 !! wd = None) as (st' & -> & Hok' & Hwd').
    { destruct (budget <=? t_watched t).
      - destruct (ok_evict path now (t, st.2) F Hb) as (st' & He & Hok' & Hs). exists st'.
        split; [done|]. split; [done|]. apply Hs. cbn. by rewrite Hbw.
      - eexists. split; [done|]. cbn. by rewrite Hbw. }
    cbn [mbind option_bind]. destruct st' as [t' out']. cbn [fst snd] in *.
    set (t1 := set_watched _ _).
    assert (table_ok t1 (wd :: F)) as Hok1 by (by apply ok_add_wd).
    destruct (Node_new (Watched wd) (t_round t1) t1) as [node t2] eqn:Hn.
    injection Hn as <- <-. eexists _, _. split; [done|].
    apply ok_put; [done|by eapply (ok_same t1)|].
    intros q n' w (-> & ->)%node_at_new [= <-]. cbn. rewrite lookup_insert_eq, app_nil_r. by destruct path.
Qed.

Lemma ok_add dir t F : table_ok t F → table_ok (add dir t).2 F.
Proof. intros Hok. unfold add. destruct (m_add _ _). by eapply ok_same. Qed.
Lemma ok_open path t F : table_ok t F → table_ok (open_ path t).2 F.
Proof. intros Hok. unfold open_. destruct (m_open _ _). by eapply ok_same. Qed.
Lemma ok_open_child dir x t F : table_ok t F → table_ok (open_child dir x t).2 F.
Proof. intros Hok. unfold open_child. destruct (m_open_child _ _ _). by eapply ok_same. Qed.

Lemma ok_install path dir now st F :
  names path ≠ [] → table_ok st.1 F → keeps F (install path dir now st).
Proof.
  intros Hne Hok. unfold install. pose proof (ok_add dir st.1 F Hok) as Ha.
  destruct (add dir st.1) as [added t]. cbn [snd] in Ha.
  assert (∀ (added : result Z W) (st : Table * list EventItem), table_ok st.1 F →
    keeps F match added with
            | Ok wd => place path wd now st
            | Err _ => let '(t, out) := st in
                       let '(node, t) := Node_new (Unwatchable (now + UNWATCHABLE_RETRY)) (t_round t) t in
                       Some (false, put path node (t, out))
            end) as Hend.
  { intros [wd|e] st' Hst'; [by apply ok_place|]. destruct st' as [t' out'].
    destruct (Node_new _ _ t') as [node t''] eqn:Hn. injection Hn as <- <-.
    eexists _, _. split; [done|]. apply ok_put; [done| |].
    - rewrite wlist_node. cbn. rewrite map_to_list_empty. by eapply ok_same.
    - by intros q n' w (-> & ->)%node_at_new Hs. }
  destruct added as [wd|e]; [by apply (Hend (Ok wd) (t, st.2))|].
  destruct ((e =? ENOSPC) && (0 <? t_watched t)); [|by apply (Hend (Err e) (t, st.2))].
  destruct (ok_evict path now (limited now t, st.2) F) as (st' & -> & Hst' & _); [by eapply ok_same|].
  cbn [mbind option_bind]. pose proof (ok_add dir st'.1 F Hst') as Ha'.
  destruct (add dir st'.1) as [added t']. by apply (Hend added (t', st'.2)).
Qed.

Lemma ok_verify path dir now st F :
  names path ≠ [] → table_ok st.1 F → keeps F (verify path dir now st).
Proof.
  intros Hne Hok. unfold verify.
  destruct (n_state <$> node_at (t_root st.1) (names path)) as [[wd|]|];
    [|by eexists _, _|by eexists _, _].
  pose proof (ok_add dir st.1 F Hok) as Ha. destruct (add dir st.1) as [[found|e] t]; cbn [snd] in Ha;
    [|by eexists _, _].
  case_bool_decide; [by eexists _, _|].
  destruct (detach path t) as [o t'] eqn:Hd. destruct (ok_detach _ _ F _ _ Hd Ha) as (Hok' & _).
  apply ok_place; [done|]. destruct o; [by apply ok_drop_tree|done].
Qed.

Lemma ok_extend_down dir done_ rest now st F :
  table_ok st.1 F →
  ∃ st', extend_down dir done_ rest now st = Some st' ∧ table_ok st'.1 F.
Proof.
  revert dir done_ st. induction rest as [|x rest IH]; intros dir done_ st Hok; cbn; [eauto|].
  pose proof (ok_open_child dir x st.1 F Hok) as Ho.
  destruct (open_child dir x st.1) as [[child|e] t]; cbn [snd] in Ho; [|eauto].
  destruct (ok_install (MkPath (done_ ++ [x])) child now (t, st.2) F) as (b & st' & -> & Hok').
  { cbn. by destruct done_. }
  { done. }
  cbn. destruct b; [by apply IH|eauto].
Qed.

Lemma ok_extend ns depth now st F :
  (depth ≤ length ns)%nat → table_ok st.1 F →
  ∃ st', extend ns depth now st = Some st' ∧ table_ok st'.1 F.
Proof.
  intros Hd Hok. unfold extend. pose proof (ok_open (MkPath (take depth ns)) st.1 F Hok) as Ho.
  destruct (open_ (MkPath (take depth ns)) st.1) as [[dir|e] t]; cbn [snd] in Ho; [|eauto].
  destruct (Nat.ltb_spec 0 depth).
  - destruct (ok_verify (MkPath (take depth ns)) dir now (t, st.2) F) as (b & st' & -> & Hok').
    { cbn. intros He%(f_equal length). rewrite length_take in He. cbn in He. lia. }
    { done. }
    cbn. destruct b; [by apply ok_extend_down|eauto].
  - cbn. by apply ok_extend_down.
Qed.

Lemma watched_depth_le n ns : (watched_depth n ns ≤ length ns)%nat.
Proof.
  revert n. induction ns as [|x ns IH]; intros n; cbn; [lia|].
  destruct (n_children n !! x) as [c|]; [|lia]. destruct (is_watched c); [|lia].
  specialize (IH c). lia.
Qed.

Lemma touch_same dir now t :
  t_root (touch dir now t).2 = t_root t ∧ t_by_wd (touch dir now t).2 = t_by_wd t
  ∧ t_watched (touch dir now t).2 = t_watched t ∧ t_dead (touch dir now t).2 = t_dead t.
Proof.
  unfold touch. destruct (t_dead t) eqn:Hd; [done|].
  assert (∀ n ns round t', let r := touch_walk n ns round now t' in
    t_root r.2 = t_root t' ∧ t_by_wd r.2 = t_by_wd t' ∧ t_watched r.2 = t_watched t'
    ∧ t_dead r.2 = t_dead t') as Hw; [|rewrite <- Hd; apply Hw].
  intros n ns round. revert n. induction ns as [|x ns IH]; intros n t'; cbn; [done|].
  destruct (n_children n !! x) as [c|]; [|done]. destruct (n_state c); [|by destruct (now <? retry_at)].
  destruct (IH c (stamp (n_mark c) round t')) as (? & ? & ? & ?). done.
Qed.

Lemma ok_touch dir now t F : table_ok t F → table_ok (touch dir now t).2 F.
Proof. intros Hok. destruct (touch_same dir now t) as (? & ? & ? & _). by eapply ok_same. Qed.

Lemma ok_arm dir now st F : table_ok st.1 F → keeps F (arm dir now st).
Proof.
  intros Hok. unfold arm. pose proof (ok_touch dir now st.1 F Hok) as Ht.
  destruct (touch dir now st.1) as [[held|] t]; cbn [snd] in Ht; [by eexists _, _|].
  destruct (ok_extend (names dir) (watched_depth (t_root t) (names dir)) now (t, st.2) F)
    as ([t' out'] & -> & Hok'); [apply watched_depth_le|done|].
  cbn. eexists _, _. split; [done|]. cbn. by eapply ok_same.
Qed.

(** *** Checking against the filesystem *)

Lemma ok_is dir wd t F : table_ok t F → table_ok (is_ dir wd t).2 F.
Proof.
  intros Hok. unfold is_. pose proof (ok_add dir t F Hok) as Ha.
  destruct (add dir t) as [[found|] t']; cbn [snd] in Ha; [|done].
  case_bool_decide; [done|]. destruct (t_by_wd t' !! found); [done|]. by eapply ok_same.
Qed.

Lemma is_same dir wd t :
  t_root (is_ dir wd t).2 = t_root t ∧ t_by_wd (is_ dir wd t).2 = t_by_wd t
  ∧ t_dead (is_ dir wd t).2 = t_dead t.
Proof.
  unfold is_, add. destruct (m_add _ _) as [ms [found|]]; [|done].
  case_bool_decide; [done|]. by destruct (t_by_wd _ !! found).
Qed.

Lemma ok_still_there path t F : table_ok t F → table_ok (still_there path t).2 F.
Proof.
  intros Hok. unfold still_there.
  destruct (n_state <$> node_at (t_root t) (names path)) as [[wd|]|]; [|done..].
  pose proof (ok_open path t F Hok) as Ho.
  destruct (open_ path t) as [[dir|] t']; cbn [snd] in Ho; [by apply ok_is|done].
Qed.

(** Pruning keeps the nodes that are left as they were. *)
Definition pruned n n' : Prop :=
  ∀ q m, node_at n' q = Some m → ∃ m', node_at n q = Some m' ∧ n_state m' = n_state m.

(** Descriptors only go, and the paths of the others stay. *)
Definition keeps_paths (t t' : Table) : Prop :=
  ∀ w, t_by_wd t' !! w = None ∨ t_by_wd t' !! w = t_by_wd t !! w.

Lemma keeps_paths_trans t t' t'' : keeps_paths t t' → keeps_paths t' t'' → keeps_paths t t''.
Proof.
  intros H1 H2 w. destruct (H2 w) as [-> | ->]; [by left|]. destruct (H1 w); auto.
Qed.

Lemma keeps_paths_drop n p a st : keeps_paths st.1 (drop_tree n p a st).1.
Proof.
  intros w. destruct (drop_tree_dropped n p a st) as (items & [_ B _ _] & _).
  rewrite B. case_decide; auto.
Qed.

Lemma drop_tree_root n p a st : t_root (drop_tree n p a st).1 = t_root st.1.
Proof. destruct (drop_tree_dropped n p a st) as (items & [Fr _ _ _] & _). apply (fr_root _ _ Fr). Qed.
Lemma drop_tree_dead n p a st : t_dead (drop_tree n p a st).1 = t_dead st.1.
Proof. destruct (drop_tree_dropped n p a st) as (items & [Fr _ _ _] & _). apply (fr_dead _ _ Fr). Qed.

Definition recheck_child (parent : Dir) (ns : list Name) (name : Name) (child : Node)
    (acc : gmap Name Node * (Table * list EventItem)) :=
  let '(kept, st) := acc in
  let ns := ns ++ [name] in
  let '(here, t) :=
    match n_state child with
    | Watched wd =>
        let '(dir, t) := open_child parent name st.1 in
        match dir with
        | Ok dir => let '(same, t) := is_ dir wd t in
                    (if (same : bool) then Some dir else None, t)
        | Err _ => (None, t)
        end
    | Unwatchable _ => (None, st.1)
    end in
  match here with
  | Some dir =>
      let '(below, st) := recheck_below child dir ns (t, st.2) in
      (<[name := with_children child below]> kept, st)
  | None => (kept, drop_tree child (MkPath ns) true (t, st.2))
  end.

Definition rechecks (children : list (Name * Node)) (F : list W) (st : Table * list EventItem)
    (r : gmap Name Node * (Table * list EventItem)) : Prop :=
  table_ok r.2.1 (forest (map_to_list r.1) ++ F)
  ∧ keeps_paths st.1 r.2.1 ∧ t_root r.2.1 = t_root st.1
  ∧ (∀ (k : Name) (c' : Node), r.1 !! k = Some c' → ∃ c : Node, (k, c) ∈ children ∧ pruned c c').

(** What the look at one child leaves: the same table but for the kernel's side. *)
Lemma looked parent name child (st : Table * list EventItem) F :
  table_ok st.1 F →
  let r := match n_state child with
           | Watched wd =>
               let '(dir, t) := open_child parent name st.1 in
               match dir with
               | Ok dir => let '(same, t) := is_ dir wd t in
                           (if (same : bool) then Some dir else None, t)
               | Err _ => (None, t)
               end
           | Unwatchable _ => (None, st.1)
           end in
  table_ok r.2 F ∧ t_by_wd r.2 = t_by_wd st.1 ∧ t_root r.2 = t_root st.1.
Proof.
  intros Hok. destruct (n_state child) as [wd|]; [|done].
  pose proof (ok_open_child parent name st.1 F Hok) as Ho.
  assert (t_by_wd (open_child parent name st.1).2 = t_by_wd st.1
          ∧ t_root (open_child parent name st.1).2 = t_root st.1) as [Hb Hr]
    by (unfold open_child; by destruct (m_open_child _ _ _)).
  destruct (open_child parent name st.1) as [[dir|] t]; cbn [snd] in *; [|done].
  pose proof (ok_is dir wd t F Ho) as Hi. destruct (is_same dir wd t) as (Hir & Hib & _).
  destruct (is_ dir wd t) as [same t']. cbn [snd] in *. split; [by destruct same|]. by rewrite Hib, Hir.
Qed.

Lemma recheck_children parent ns l F (st : Table * list EventItem) :
  NoDup l.*1 →
  (∀ k n dir ns F st, (k, n) ∈ l → table_ok st.1 (forest (map_to_list (n_children n)) ++ F) →
     rechecks (map_to_list (n_children n)) F st (recheck_below n dir ns st)) →
  table_ok st.1 (forest l ++ F) →
  rechecks l F st (foldr (uncurry (recheck_child parent ns)) (∅, st) l).
Proof.
  revert F. induction l as [|[k n] l IH]; intros F Hk HR Hok.
  - split; cbn; [by rewrite map_to_list_empty|]. split; [by right|]. done.
  - cbn in Hk. apply NoDup_cons in Hk as [Hkl Hk].
    destruct (IH (wlist n ++ F) Hk) as (Hok1 & Hkp1 & Hr1 & Hpr1).
    { intros; eapply HR; [by right|done]. }
    { eapply ok_perm; [|exact Hok]. change (forest ((k, n) :: l)) with (wlist n ++ forest l).
      solve_Permutation. }
    cbn [foldr uncurry]. set (r := foldr _ (∅, st) l) in *. destruct r as [kept st1].
    cbn [fst snd] in *.
    assert (kept !! k = None) as Hkk.
    { destruct (kept !! k) as [c'|] eqn:E; [|done]. destruct (Hpr1 k c' E) as (c & Hc & _).
      destruct Hkl. apply list_elem_of_fmap. by exists (k, c). }
    cbn [recheck_child]. destruct (looked parent k n st1 _ Hok1) as (Hok2 & Hb2 & Hr2).
    set (lk := match n_state n with Watched _ => _ | Unwatchable _ => _ end) in *.
    destruct lk as [here t2]. cbn [snd] in *.
    assert (keeps_paths st1.1 t2) as Hkp2 by (intros w; right; by rewrite Hb2).
    assert (∀ (k' : Name) (c' : Node), kept !! k' = Some c' →
              ∃ c : Node, (k', c) ∈ (k, n) :: l ∧ pruned c c') as Hpr.
    { intros k' c' Hc'. destruct (Hpr1 k' c' Hc') as (c & ? & ?). exists c. split; [by right|done]. }
    destruct here as [dir|].
    + destruct n as [s m c].
      destruct (HR k (MkNode s m c) dir (ns ++ [k]) (state_wds s ++ forest (map_to_list kept) ++ F)
                  (t2, st1.2)) as (Hok3 & Hkp3 & Hr3 & Hpr3).
      { left. }
      { cbn [n_children fst]. eapply ok_perm; [|exact Hok2]. rewrite wlist_node. solve_Permutation. }
      destruct (recheck_below (MkNode s m c) dir (ns ++ [k]) (t2, st1.2)) as [below st3].
      cbn [fst snd n_children] in *. split; [|split; [|split]]; cbn [fst snd].
      * eapply ok_perm; [|exact Hok3].
        rewrite (forest_perm _ _ (map_to_list_insert kept k _ Hkk)).
        change (forest ((k, with_children (MkNode s m c) below) :: map_to_list kept))
          with (wlist (MkNode s m below) ++ forest (map_to_list kept)).
        rewrite wlist_node. solve_Permutation.
      * eapply keeps_paths_trans; [exact Hkp1|]. eapply keeps_paths_trans; [exact Hkp2|exact Hkp3].
      * by rewrite Hr3, Hr2, Hr1.
      * intros k' c' Hc'. destruct (decide (k' = k)) as [->|Hne].
        2:{ rewrite lookup_insert_ne in Hc' by done. by apply Hpr. }
        rewrite lookup_insert_eq in Hc'. injection Hc' as <-.
        exists (MkNode s m c). split; [left|]. intros [|y q] m' Hq; cbn in Hq |- *; [naive_solver|].
        destruct (below !! y) as [b|] eqn:Hb; [|done].
        destruct (Hpr3 y b Hb) as (c0 & Hc0%elem_of_map_to_list & Hp0).
        cbn in Hc0. rewrite Hc0. by apply Hp0.
    + split; [|split; [|split]]; cbn [fst snd].
      * apply ok_drop_tree. eapply ok_perm; [|exact Hok2]. solve_Permutation.
      * eapply keeps_paths_trans; [exact Hkp1|]. eapply keeps_paths_trans; [exact Hkp2|].
        apply (keeps_paths_drop n (MkPath (ns ++ [k])) true (t2, st1.2)).
      * rewrite drop_tree_root. cbn. by rewrite Hr2, Hr1.
      * done.
Qed.

Lemma recheck_below_rechecks n dir ns F (st : Table * list EventItem) :
  table_ok st.1 (forest (map_to_list (n_children n)) ++ F) →
  rechecks (map_to_list (n_children n)) F st (recheck_below n dir ns st).
Proof.
  revert dir ns F st. induction n as [s m c IH] using Node_rect'. intros dir ns F st Hok.
  cbn [recheck_below n_children]. rewrite map_fold_foldr.
  apply (recheck_children dir ns (map_to_list c) F st).
  - apply NoDup_fst_map_to_list.
  - intros k n d ns' F' st' Hl. apply elem_of_map_to_list in Hl. by apply (IH k n Hl).
  - done.
Qed.

Definition drop_all (l : list (Path * Node)) (st : Table * list EventItem) : Table * list EventItem :=
  foldr (λ pn st, drop_tree pn.2 pn.1 true st) st l.

Lemma ok_drop_all l st F :
  table_ok st.1 (mjoin ((λ pn, wlist pn.2) <$> l) ++ F) → table_ok (drop_all l st).1 F.
Proof.
  revert F. induction l as [|[p n] l IH]; intros F Hok; [done|]. cbn [drop_all foldr].
  fold (drop_all l st).
  assert (table_ok (drop_all l st).1 (wlist n ++ F)) as Hn.
  { apply IH. eapply ok_perm; [|exact Hok]. cbn. solve_Permutation. }
  destruct (drop_all l st) as [t out]. by apply ok_drop_tree.
Qed.

Lemma ok_taken t F :
  table_ok t F →
  table_ok (set_root (with_children (t_root t) ∅) t)
    (forest (map_to_list (n_children (t_root t))) ++ F)
  ∧ ∀ k n, n_children (t_root t) !! k = Some n → placed (t_by_wd t) n [k].
Proof.
  intros [N D C R P]. destruct (t_root t) as [s m c] eqn:Hr.
  assert (wlist (MkNode s m c) ++ F
          ≡ₚ wlist (MkNode s m (∅ : gmap Name Node)) ++ forest (map_to_list c) ++ F) as HP.
  { rewrite !wlist_node, map_to_list_empty. cbn. solve_Permutation. }
  split.
  - unfold with_children; cbn. split; cbn.
    + by rewrite <- HP.
    + intros w. by rewrite <- HP.
    + unfold len_z in *. by rewrite <- HP.
    + by rewrite <- R.
    + intros q n' w (-> & ->)%node_at_new Hs. eapply (P []); [done|done].
  - intros k n Hk q n' w Hq Hs. cbn in Hk. apply (P (k :: q) n' w); [|done]. cbn. by rewrite Hk.
Qed.

Lemma ok_recheck st F : table_ok st.1 F → table_ok (recheck st).1 F.
Proof.
  destruct st as [t out]. cbn [fst]. intros Hok. unfold recheck.
  destruct (ok_taken t F Hok) as [Hok1 Hpl]. set (t1 := set_root _ t) in *.
  pose proof (ok_open Path_root t1 _ Hok1) as Hok2.
  assert (t_by_wd (open_ Path_root t1).2 = t_by_wd t ∧ t_root (open_ Path_root t1).2 = t_root t1)
    as [Hb2 Hr2] by (unfold open_; by destruct (m_open _ _)).
  destruct (open_ Path_root t1) as [[root|e] t2]; cbn [snd] in *.
  - destruct (recheck_below_rechecks (t_root t) root [] F (t2, out)) as (Hok3 & Hkp & Hr3 & Hpr); [done|].
    destruct (recheck_below (t_root t) root [] (t2, out)) as [kept [t3 out3]]. cbn [fst snd] in *.
    destruct Hok3 as [N D C R P]. rewrite Hr3, Hr2 in *.
    destruct (t_root t) as [s m c] eqn:Hrt. unfold t1, with_children in *; cbn in *.
    assert (wlist (MkNode s m (∅ : gmap Name Node)) ++ forest (map_to_list kept) ++ F
            ≡ₚ wlist (MkNode s m kept) ++ F) as HP.
    { rewrite !wlist_node, map_to_list_empty. cbn. solve_Permutation. }
    split; cbn.
    + by rewrite <- HP.
    + intros w. by rewrite <- HP.
    + unfold len_z in *. by rewrite <- HP.
    + by rewrite <- R.
    + intros [|k q] n' w Hq Hs; cbn in Hq.
      * eapply (P []); [done|]. by simplify_eq.
      * destruct (kept !! k) as [c'|] eqn:Hk; [|done].
        destruct (Hpr k c' Hk) as (c0 & Hc0%elem_of_map_to_list & Hp).
        destruct (Hp q n' Hq) as (m' & Hq' & Hs').
        assert (t_by_wd t !! w = Some (MkPath ([k] ++ q))) as Hw
          by (eapply (Hpl k c0 Hc0); [done|congruence]).
        destruct (Hkp w) as [Hn|Hn]; [|by rewrite Hn, Hb2].
        assert (is_Some (t_by_wd t3 !! w)) as [? ?]; [|congruence].
        apply D. rewrite HP. apply elem_of_app. left. apply elem_of_wlist.
        exists (k :: q), n'. cbn. by rewrite Hk.
  - rewrite map_fold_foldr.
    assert (∀ l, foldr (uncurry (λ name node st, drop_tree node (MkPath [name]) true st)) (t2, out) l
             = drop_all ((λ kn : Name * Node, (MkPath [kn.1], kn.2)) <$> l) (t2, out)) as ->.
    { intros l. induction l as [|[k n] l IH]; [done|]. cbn. by rewrite IH. }
    apply ok_drop_all. rewrite <- list_fmap_compose. exact Hok2.
Qed.

(** *** Applying events *)

Definition moving_wds (m : gmap Z (Path * Node)) : list W :=
  mjoin ((λ kv : Z * (Path * Node), wlist kv.2.2) <$> map_to_list m).

Lemma moving_wds_insert m k pn :
  m !! k = None → moving_wds (<[k := pn]> m) ≡ₚ wlist pn.2 ++ moving_wds m.
Proof. intros Hk. unfold moving_wds. by rewrite map_to_list_insert. Qed.

Lemma moving_wds_delete m k pn :
  m !! k = Some pn → moving_wds m ≡ₚ wlist pn.2 ++ moving_wds (delete k m).
Proof.
  intros Hk. rewrite <- (insert_delete_id m k pn Hk) at 1.
  apply moving_wds_insert, lookup_delete_eq.
Qed.

Lemma drop_moving_all m st :
  drop_moving m st = drop_all (map_to_list m).*2 st.
Proof.
  unfold drop_moving. rewrite map_fold_foldr.
  induction (map_to_list m) as [|[k [p n]] l IH]; [done|]. cbn. by rewrite IH.
Qed.

Lemma ok_drop_moving m st F :
  table_ok st.1 (moving_wds m ++ F) → table_ok (drop_moving m st).1 F.
Proof.
  intros Hok. rewrite drop_moving_all. apply ok_drop_all. rewrite <- list_fmap_compose. exact Hok.
Qed.

(** A table whose root's watch has ended: no descriptor leads anywhere. *)
Definition gone (t : Table) : Prop := t_dead t = true ∧ ∀ w, t_by_wd t !! w = None.

Lemma gone_die t : gone (die t).
Proof. split; [done|]. intros w. apply lookup_empty. Qed.

Lemma gone_drop_tree n p a st : gone st.1 → gone (drop_tree n p a st).1.
Proof.
  intros [Hd Hw]. split; [by rewrite drop_tree_dead|]. intros w.
  destruct (keeps_paths_drop n p a st w) as [-> | ->]; [done|apply Hw].
Qed.

Lemma gone_drop_all l st : gone st.1 → gone (drop_all l st).1.
Proof. intros Hg. induction l as [|[p n] l IH]; [done|]. cbn [drop_all foldr]. by apply gone_drop_tree. Qed.

Definition applying_ok (a : Applying) : Prop :=
  gone (ap_table a) ∨ table_ok (ap_table a) (moving_wds (ap_moving a)).

(** The cookies of the moves a list of events begins. *)
Definition cookies_from (es : list (@RawEvent W)) : list Z :=
  re_cookie <$> filter (λ e : @RawEvent W, contains (re_mask e) IN_MOVED_FROM = true) es.

Lemma ok_arrived from_node path m k t out :
  names path ≠ [] → m !! k = Some from_node →
  table_ok t (moving_wds m) →
  table_ok (let '(n, st) := rekey from_node.2 path (t, out) in put path n st).1
    (moving_wds (delete k m)).
Proof.
  intros Hne Hk Hok. assert (table_ok t (wlist from_node.2 ++ moving_wds (delete k m))) as Hok1
    by (eapply ok_perm; [by apply moving_wds_delete|done]).
  destruct (ok_rekey from_node.2 path t _ out Hok1) as (Hr & Hp & _).
  destruct (rekey from_node.2 path (t, out)) as [n [t' out']]. cbn [fst snd] in *.
  by apply ok_put.
Qed.

Lemma ok_apply_structural e path a :
  names path ≠ [] →
  (contains (re_mask e) IN_MOVED_FROM = true → ap_moving a !! re_cookie e = None) →
  table_ok (ap_table a) (moving_wds (ap_moving a)) →
  table_ok (ap_table (apply_structural e path a)) (moving_wds (ap_moving (apply_structural e path a)))
  ∧ ∀ k, is_Some (ap_moving (apply_structural e path a) !! k) →
      is_Some (ap_moving a !! k) ∨ contains (re_mask e) IN_MOVED_FROM = true ∧ k = re_cookie e.
Proof.
  destruct a as [m t out]. cbn [ap_moving ap_table]. intros Hne Hfresh Hok. unfold apply_structural.
  pose proof (ok_still_there path t _ Hok) as Hst.
  destruct (contains (re_mask e) IN_MOVED_FROM) eqn:Hf.
  - destruct (still_there path t) as [there t1]. cbn [snd] in Hst.
    destruct there; [auto|]. destruct (detach path t1) as [o t2] eqn:Hd.
    destruct (ok_detach _ _ _ _ _ Hd Hst) as (Hok2 & _). destruct o as [n|]; [|auto].
    cbn. split.
    + eapply ok_perm; [|exact Hok2]. symmetry. rewrite moving_wds_insert by auto. done.
    + intros k. destruct (decide (k = re_cookie e)); [auto|]. rewrite lookup_insert_ne by done. auto.
  - destruct (contains (re_mask e) IN_MOVED_TO).
    + destruct (still_there path t) as [there t1]. cbn [snd] in Hst.
      assert (∀ k, is_Some (delete (re_cookie e) m !! k) → is_Some (m !! k) ∨ false = true ∧ k = re_cookie e)
        as Hdom by (intros k [x [_ Hx]%lookup_delete_Some]; eauto).
      destruct there.
      * destruct (m !! re_cookie e) as [[from n]|] eqn:Hk.
        -- pose proof (ok_drop_tree t1 (moving_wds (delete (re_cookie e) m)) n from true out) as Hdr.
           destruct (drop_tree n from true (t1, out)) as [t2 out2]. cbn in *. split; [|done].
           apply Hdr. eapply ok_perm; [apply (moving_wds_delete _ _ _ Hk)|done].
        -- cbn. split; [|done]. by rewrite delete_id.
      * destruct (detach path t1) as [o t2] eqn:Hd.
        destruct (ok_detach _ _ _ _ _ Hd Hst) as (Hok2 & _).
        set (st := match o with Some old => _ | None => _ end).
        assert (table_ok st.1 (moving_wds m)) as Hok3
          by (unfold st; destruct o; [by apply ok_drop_tree|done]).
        destruct (m !! re_cookie e) as [fn|] eqn:Hk.
        -- destruct fn as [from n]. destruct st as [t3 out3]. cbn [fst] in Hok3.
           pose proof (ok_arrived (from, n) path m (re_cookie e) t3 out3 Hne Hk Hok3) as Hok4.
           cbn [snd] in Hok4.
           destruct (let '(node, st) := rekey n path (t3, out3) in put path node st) as [t4 out4].
           by split.
        -- destruct st as [t3 out3]. cbn in *. split; [|done]. by rewrite delete_id.
    + destruct (contains (re_mask e) IN_DELETE); [|auto].
      destruct (still_there path t) as [there t1]. cbn [snd] in Hst. destruct there; [auto|].
      destruct (detach path t1) as [o t2] eqn:Hd.
      destruct (ok_detach _ _ _ _ _ Hd Hst) as (Hok2 & _). destruct o as [n|]; [|auto].
      pose proof (ok_drop_tree t2 (moving_wds m) n path true out Hok2) as Hdr.
      destruct (drop_tree n path true (t2, out)) as [t3 out3]. auto.
Qed.

Lemma ok_apply_event a e :
  (contains (re_mask e) IN_MOVED_FROM = true → ap_moving a !! re_cookie e = None) →
  applying_ok a →
  applying_ok (apply_event a e)
  ∧ ∀ k, is_Some (ap_moving (apply_event a e) !! k) →
      is_Some (ap_moving a !! k) ∨ contains (re_mask e) IN_MOVED_FROM = true ∧ k = re_cookie e.
Proof.
  intros Hfresh Hok. destruct a as [m t out]. unfold apply_event.
  destruct (t_dead t) eqn:Hdead; [auto|].
  destruct Hok as [[Hd _]|Hok]; cbn [ap_moving ap_table] in *; [congruence|].
  destruct (contains (re_mask e) IN_Q_OVERFLOW).
  { pose proof (ok_drop_moving m (t, out) []) as Hdm. rewrite app_nil_r in Hdm. specialize (Hdm Hok).
    destruct (drop_moving m (t, out)) as [t1 out1].
    pose proof (ok_recheck (t1, out1 ++ [Ev_Overflow]) [] Hdm) as Hr.
    destruct (recheck (t1, out1 ++ [Ev_Overflow])) as [t2 out2]. cbn in *. split.
    - right. cbn. unfold moving_wds. by rewrite map_to_list_empty.
    - intros k. rewrite lookup_empty. by intros [? ?]. }
  destruct (t_by_wd t !! re_wd e) as [dir|] eqn:Hwd; [|split; [by right|auto]].
  destruct (intersects _ _).
  { destruct (is_root dir); [split; [left; apply gone_die|auto]|].
    destruct (contains (re_mask e) IN_IGNORED); [|split; [by right|auto]].
    destruct (detach dir t) as [o t2] eqn:Hd. destruct (ok_detach _ _ _ _ _ Hd Hok) as (Hok2 & _).
    destruct o as [n|]; [|split; [by right|auto]].
    pose proof (ok_drop_tree t2 (moving_wds m) n dir false out Hok2) as Hdr.
    destruct (drop_tree n dir false (t2, out)) as [t3 out3]. split; [by right|auto]. }
  destruct (contains (re_mask e) IN_MOVE_SELF); [split; [by right|auto]|].
  destruct (report e t out) as [[[dir' x]|] out1]; [|split; [by right|auto]].
  destruct (negb _); [split; [by right|auto]|].
  destruct (Path_join dir' x) as [path|] eqn:Hj; [|split; [by right|auto]].
  apply Path_join_names in Hj as ->.
  destruct (ok_apply_structural e (MkPath (names dir' ++ [x])) (MkApplying m t out1)) as [H1 H2].
  { cbn. by destruct (names dir'). }
  { done. }
  { done. }
  split; [by right|done].
Qed.

Lemma ok_apply_all es a :
  NoDup (cookies_from es) → (∀ k, k ∈ cookies_from es → ap_moving a !! k = None) →
  applying_ok a → applying_ok (foldl apply_event a es).
Proof.
  revert a. induction es as [|e es IH]; intros a Hnd Hfresh Hok; [done|]. cbn [foldl].
  unfold cookies_from in *. rewrite filter_cons in Hnd, Hfresh.
  destruct (ok_apply_event a e) as [Hok' Hdom]; [|done|].
  { intros Hc. apply Hfresh. rewrite decide_True by done. left. }
  case_decide as Hc; cbn in Hnd, Hfresh.
  - apply NoDup_cons in Hnd as [Hni Hnd]. apply IH; [done| |done].
    intros k Hk. destruct (ap_moving (apply_event a e) !! k) eqn:E; [|done].
    destruct (Hdom k) as [[x Hx]|[_ ->]]; [by rewrite E| |done].
    rewrite Hfresh in Hx; [done|by right].
  - apply IH; [done| |done]. intros k Hk. destruct (ap_moving (apply_event a e) !! k) eqn:E; [|done].
    destruct (Hdom k) as [[x Hx]|[? _]]; [by rewrite E| |done]. by rewrite Hfresh in Hx.
Qed.

Lemma ok_apply es st :
  NoDup (cookies_from es) → gone st.1 ∨ table_ok st.1 [] →
  gone (apply es st).1 ∨ table_ok (apply es st).1 [].
Proof.
  intros Hnd Hok. unfold apply.
  pose proof (ok_apply_all es (MkApplying ∅ st.1 st.2) Hnd) as Ha.
  destruct (foldl apply_event _ es) as [m t out].
  destruct Ha as [Hd|Hok'].
  - intros k _. apply lookup_empty.
  - unfold applying_ok; cbn. unfold moving_wds. by rewrite map_to_list_empty.
  - left. rewrite drop_moving_all. by apply gone_drop_all.
  - right. apply ok_drop_moving. by rewrite app_nil_r.
Qed.

End inv.
