(* ===== verification/WatchSafety.v ===== *)
(** * Change notification: what the table promises

    The invariant over every run of the table, eviction (what it spares, what it
    announces, how much room it makes), the guards [arm] hands out, and two cases
    in which the table's idea of what is watched parts from the kernel's. *)

From stdpp Require Import sorting.
From S2P Require Import Prelude Types Msg Wire Watch WatchTable WatchInv.
From Stdlib Require Import Strings.Byte.

Section safety.
Context {W : Type} `{Countable W} `{HMk : !Marks W}.
Local Notation Node := (@WatchTable.Node W).
Local Notation Table := (@WatchTable.Table W _ _ HMk).
Implicit Types (n : Node) (t : Table) (p q v : list Name).

(** Every directory on the path below the root is watched. *)
Definition chain n p : Prop :=
  ∀ p1 p2, p = p1 ++ p2 → p1 ≠ [] → ∃ m, node_at n p1 = Some m ∧ is_watched m = true.

Lemma chain_cons n x c p :
  n_children n !! x = Some c → is_watched c = true → chain c p → chain n (x :: p).
Proof.
  intros Hx Hc Hp [|y p1] p2 Heq Hne; [done|]. cbn in Heq. injection Heq as <- Heq. cbn. rewrite Hx.
  destruct p1 as [|z p1]; [by exists c|]. by apply (Hp (z :: p1) p2).
Qed.

Lemma chain_prefix n p1 p2 : chain n (p1 ++ p2) → chain n p1.
Proof. intros Hc q1 q2 -> Hne. apply (Hc q1 (q2 ++ p2)); [by rewrite app_assoc|done]. Qed.

(** ** Leaves *)

Lemma watched_below_true n x c :
  n_children n !! x = Some c → is_watched c = true → watched_below n = true.
Proof.
  intros Hx Hc. unfold watched_below. rewrite map_fold_foldr.
  apply elem_of_map_to_list in Hx.
  induction (map_to_list (n_children n)) as [|[k m] l IH]; [by apply not_elem_of_nil in Hx|].
  cbn. apply elem_of_cons in Hx as [Heq|Hx]; [simplify_eq; by rewrite Hc|].
  rewrite IH by done. apply orb_true_r.
Qed.

Definition leaf_at (t : Table) (keep : list Name) n (ns q : list Name) : Prop :=
  ∃ m, node_at n q = Some m ∧ is_watched m = true ∧ watched_below m = false
       ∧ holds_of t (n_mark m) = 0 ∧ starts_with keep (ns ++ q) = false.

Lemma leaves_of_spec t keep n ns u r :
  (u, r) ∈ leaves_of t keep n ns →
  ∃ q, r = ns ++ q ∧ q ≠ [] ∧ chain n q ∧ leaf_at t keep n ns q.
Proof.
  revert ns. induction n as [s m c IH] using Node_rect'. intros ns Hin.
  cbn [leaves_of] in Hin. rewrite map_fold_foldr in Hin.
  assert (∀ k d, (k, d) ∈ map_to_list c → c !! k = Some d) as Hl
    by (intros k d; apply elem_of_map_to_list).
  induction (map_to_list c) as [|[k d] l IHl]; [by apply not_elem_of_nil in Hin|].
  cbn in Hin. apply elem_of_app in Hin as [Hin|Hin].
  { apply IHl; [done|]. intros; apply Hl; by right. }
  assert (c !! k = Some d) as Hk by (apply Hl; left).
  destruct (is_watched d) eqn:Hw; [|by apply not_elem_of_nil in Hin]. cbn [negb] in Hin.
  destruct (watched_below d) eqn:Hb.
  - destruct (IH k d Hk (ns ++ [k]) Hin) as (q & -> & Hne & Hc & (x & Hx & ? & ? & ? & ?)).
    exists (k :: q). split; [by rewrite <- app_assoc|]. split; [done|].
    split; [by eapply chain_cons|]. exists x. cbn. rewrite Hk. repeat split; try done.
    by rewrite <- app_assoc in *.
  - destruct (Z.eqb_spec (holds_of t (n_mark d)) 0); [|by apply not_elem_of_nil in Hin].
    destruct (starts_with keep (ns ++ [k])) eqn:Hs; [by apply not_elem_of_nil in Hin|].
    apply list_elem_of_singleton in Hin. injection Hin as -> ->.
    exists [k]. split; [done|]. split; [done|]. split.
    + eapply chain_cons; [done|done|]. intros p1 p2 Heq Hne. by destruct p1.
    + exists d. cbn. by rewrite Hk.
Qed.

(** No leaf is inside another, so each can still be taken after the others. *)
Lemma leaf_not_prefix t keep n q1 q2 :
  chain n q2 → leaf_at t keep n [] q1 → q1 `prefix_of` q2 → q1 = q2.
Proof.
  intros Hc (m & Hm & _ & Hb & _) [[|x k] ->]; [by rewrite app_nil_r|]. exfalso.
  destruct (Hc (q1 ++ [x]) k) as (d & Hd & Hw); [by rewrite <- app_assoc|by destruct q1|].
  rewrite node_at_app, Hm in Hd. cbn in Hd.
  destruct (n_children m !! x) as [c|] eqn:Hx; [|done]. injection Hd as ->.
  rewrite (watched_below_true m x d Hx Hw) in Hb. done.
Qed.

Lemma leaves_NoDup t keep n ns : NoDup (leaves_of t keep n ns).*2.
Proof.
  revert ns. induction n as [s m c IH] using Node_rect'. intros ns.
  cbn [leaves_of]. rewrite map_fold_foldr.
  assert (∀ k d, (k, d) ∈ map_to_list c → c !! k = Some d) as Hl
    by (intros k d; apply elem_of_map_to_list).
  pose proof (NoDup_fst_map_to_list c) as Hnd.
  set (f := λ name (child : Node) (acc : list (Z * list Name)), acc ++ _).
  assert (∀ l, (∀ k d, (k, d) ∈ l → c !! k = Some d) → NoDup l.*1 →
    NoDup (foldr (uncurry f) [] l).*2
    ∧ ∀ r, r ∈ (foldr (uncurry f) [] l).*2 → ∃ k q, k ∈ l.*1 ∧ r = ns ++ k :: q) as Hgo;
    [|by apply (Hgo (map_to_list c))].
  clear Hl Hnd. intros l Hl Hnd. induction l as [|[k d] l IHl].
  { cbn. split; [constructor|]. by intros r ?%not_elem_of_nil. }
  cbn in Hnd. apply NoDup_cons in Hnd as [Hk Hnd].
  destruct IHl as [Hn Hr]; [intros; apply Hl; by right|done|].
  assert (c !! k = Some d) as Hck by (apply Hl; left).
  cbn [foldr uncurry]. unfold f at 1 3. rewrite fmap_app.
  set (tail := if negb (is_watched d) then [] else _).
  assert (NoDup tail.*2 ∧ ∀ r, r ∈ tail.*2 → ∃ q, r = ns ++ k :: q) as [Ht Htr].
  { unfold tail. destruct (is_watched d); [|by split; [constructor|intros r ?%not_elem_of_nil]].
    cbn [negb]. destruct (watched_below d).
    - split; [by apply (IH k)|]. intros r ([u r'] & -> & Hin)%list_elem_of_fmap.
      destruct (leaves_of_spec _ _ _ _ _ _ Hin) as (q & -> & _). exists q. cbn. by rewrite <- app_assoc.
    - destruct (_ && _); [|by split; [constructor|intros r ?%not_elem_of_nil]].
      split; [apply NoDup_singleton|]. intros r ->%list_elem_of_singleton. by exists []. }
  split.
  - apply NoDup_app. split; [done|]. split; [|done].
    intros r Hin Hin'. destruct (Hr r Hin) as (k' & q & Hk' & ->).
    destruct (Htr _ Hin') as (q' & Heq). apply app_inv_head in Heq. by simplify_eq.
  - intros r [Hin|Hin]%elem_of_app.
    + destruct (Hr r Hin) as (k' & q & Hk' & ->). exists k', q. split; [by right|done].
    + destruct (Htr r Hin) as (q & ->). exists k, q. split; [left|done].
Qed.

(** ** Eviction *)

(** The same directory, perhaps with less below it. *)
Definition same_dir n n' : Prop := n_state n' = n_state n ∧ n_mark n' = n_mark n.

Lemma node_at_delete_keep pp x n p m :
  ¬ (pp ++ [x]) `prefix_of` p → node_at n p = Some m →
  ∃ m', node_at (alter_at (λ n, with_children n (delete x (n_children n))) n pp) p = Some m'
        ∧ same_dir m m'.
Proof.
  revert n p. induction pp as [|y pp IH]; intros n p Hp Hm.
  - destruct p as [|z p]; cbn in *; [simplify_eq; by eexists|].
    assert (z ≠ x) as Hne by (intros ->; apply Hp; by exists p).
    rewrite lookup_delete_ne by done. by eexists.
  - cbn. destruct (n_children n !! y) as [c|] eqn:Hc; [|by exists m].
    destruct p as [|z p]; cbn in *; [simplify_eq; by eexists|].
    destruct (decide (z = y)) as [->|Hne].
    + rewrite lookup_insert_eq. rewrite Hc in Hm. apply IH; [|done].
      intros [k ->]. apply Hp. by exists k.
    + rewrite lookup_insert_ne by done. by exists m.
Qed.

Lemma join_or_fold (p : Path) q :
  (byte_len (MkPath (names p ++ q)) ≤ PATH_MAX)%nat → foldl join_or p q = MkPath (names p ++ q).
Proof.
  revert p. induction q as [|x q IH]; intros p Hl; cbn [foldl].
  - rewrite app_nil_r. by destruct p.
  - replace (names p ++ x :: q) with ((names p ++ [x]) ++ q) in * by (by rewrite <- app_assoc).
    assert (join_or p x = MkPath (names p ++ [x])) as Hj.
    { unfold join_or, Path_join. rewrite (proj2 (Path_from_names_Ok (names p ++ [x]) (MkPath (names p ++ [x])))); [done|].
      split; [done|]. eapply Nat.le_trans; [apply (byte_len_prefix (names p ++ [x]) q)|done]. }
    rewrite Hj, IH; [done|]. done.
Qed.

(** The effect of evicting the directories [vs]. *)
Record evicted (vs : list (list Name)) (st st' : Table * list EventItem) : Prop := {
  ev_watched : t_watched st'.1 + len_z vs ≤ t_watched st.1;
  ev_marks : t_marks st'.1 = t_marks st.1;
  ev_keep p m : node_at (t_root st.1) p = Some m → (∀ v, v ∈ vs → ¬ v `prefix_of` p) →
    ∃ m', node_at (t_root st'.1) p = Some m' ∧ same_dir m m';
  ev_said w path : t_by_wd st.1 !! w = Some path → (byte_len path ≤ PATH_MAX)%nat →
    t_by_wd st'.1 !! w = None → Ev_Unwatched path ∈ st'.2;
  ev_same w path : t_by_wd st'.1 !! w = Some path → t_by_wd st.1 !! w = Some path;
  ev_out : ∃ more, st'.2 = st.2 ++ more }.

Lemma evicted_nil st : evicted [] st st.
Proof.
  split; try done.
  - change (len_z []) with 0. lia.
  - intros p m Hm _. exists m. done.
  - congruence.
  - exists []. by rewrite app_nil_r.
Qed.

Lemma evicted_app vs vs' st st' st'' :
  evicted vs st st' → evicted vs' st' st'' → evicted (vs ++ vs') st st''.
Proof.
  intros [W1 M1 K1 S1 P1 [o1 O1]] [W2 M2 K2 S2 P2 [o2 O2]]. split.
  - unfold len_z in *. rewrite length_app. lia.
  - congruence.
  - intros p m Hm Hv. destruct (K1 p m Hm) as (m1 & H1 & [Hs Hk]); [intros; apply Hv, elem_of_app; auto|].
    destruct (K2 p m1 H1) as (m2 & H2 & [Hs' Hk']); [intros; apply Hv, elem_of_app; auto|].
    exists m2. split; [done|]. split; congruence.
  - intros w path Hw Hl Hn. destruct (t_by_wd st'.1 !! w) as [path'|] eqn:Hw'.
    + pose proof (P1 w path' Hw'). simplify_eq. by apply (S2 w path).
    + rewrite O2. apply elem_of_app. left. by apply (S1 w path).
  - eauto.
  - exists (o1 ++ o2). by rewrite O2, O1, app_assoc.
Qed.

Lemma evict_one_evicted v st F m :
  v ≠ [] → table_ok st.1 F → node_at (t_root st.1) v = Some m → is_watched m = true →
  evicted [v] st (evict_one v st).
Proof.
  intros Hne Hok Hm Hw. unfold evict_one.
  destruct (detach (MkPath v) st.1) as [o t'] eqn:Hd.
  destruct (ok_detach _ _ F _ _ Hd Hok) as (Hok' & Hpl & Hb & Hmk & _).
  unfold detach in Hd.
  destruct (Path_split_last (MkPath v)) as [[parent x]|] eqn:Hsp.
  2:{ by apply Path_split_last_None in Hsp. }
  apply Path_split_last_Some in Hsp. cbn in Hsp. subst v.
  rewrite node_at_app in Hm. destruct (node_at (t_root st.1) (names parent)) as [slot|] eqn:Hslot; [|done].
  cbn in Hm. destruct (n_children slot !! x) as [m'|] eqn:Hx; [|done]. injection Hm as ->.
  injection Hd as <- <-. cbn [from_option] in Hok'. specialize (Hpl m eq_refl).
  set (t' := set_root _ st.1) in *.
  destruct (drop_tree_dropped m (MkPath (names parent ++ [x])) true (t', st.2))
    as (items & [Fr B Wt O] & _ & _ & Han). specialize (Han eq_refl).
  set (st' := drop_tree _ _ _ _) in *. cbn [fst snd] in *.
  assert (0 < length (wlist m))%nat as Hpos by (by apply wlist_root_pos).
  split.
  - rewrite Wt. cbn. destruct Hok' as [_ _ C R _]. unfold len_z in *. rewrite !length_app in C.
    pose proof (wlist_root_pos (t_root t') R). change (t_watched t') with (t_watched st.1) in C.
    rewrite iter_dec by lia. cbn [length]. lia.
  - by rewrite (fr_marks _ _ Fr).
  - intros p d Hp Hv. rewrite (fr_root _ _ Fr). apply node_at_delete_keep; [|done]. apply Hv. left.
  - intros w path Hpath Hl Hn. rewrite B in Hn. case_decide as Hin; [|cbn in Hn; congruence].
    apply elem_of_wlist in Hin as (q & d & Hq & Hs).
    pose proof (Hpl q d w Hq Hs) as Hp'. cbn in Hp'. rewrite Hpath in Hp'. injection Hp' as ->.
    rewrite O. apply elem_of_app. right.
    pose proof (join_or_fold (MkPath (names parent ++ [x])) q Hl) as Hj. cbn [names] in Hj.
    rewrite <- Hj. by eapply Han.
  - intros w path. rewrite B. case_decide; [done|]. done.
  - by exists items.
Qed.

Lemma evict_all_evicted vs st F :
  table_ok st.1 F → NoDup vs →
  (∀ v, v ∈ vs → v ≠ [] ∧ ∃ m, node_at (t_root st.1) v = Some m ∧ is_watched m = true) →
  (∀ v v', v ∈ vs → v' ∈ vs → v `prefix_of` v' → v = v') →
  evicted vs st (foldl (λ st v, evict_one v st) st vs).
Proof.
  revert st. induction vs as [|v vs IH]; intros st Hok Hnd Hv Ha; [apply evicted_nil|].
  apply NoDup_cons in Hnd as [Hni Hnd]. cbn [foldl].
  destruct (Hv v) as (Hne & m & Hm & Hw); [left|].
  pose proof (evict_one_evicted v st F m Hne Hok Hm Hw) as He.
  change (v :: vs) with ([v] ++ vs). eapply evicted_app; [exact He|].
  apply IH; [by apply ok_evict_one|done| |].
  - intros v' Hv'. destruct (Hv v') as (Hne' & m' & Hm' & Hw'); [by right|]. split; [done|].
    destruct (ev_keep _ _ _ He v' m' Hm') as (m'' & Hm'' & [Hs _]).
    + intros v0 ->%list_elem_of_singleton Hp. assert (v = v') as -> by (apply Ha; [left|by right|done]). done.
    + exists m''. split; [done|]. rewrite <- Hw'. by apply is_watched_state.
  - intros v1 v2 H1 H2. apply Ha; by right.
Qed.

Lemma take_least_spec k (leaves : list (Z * list Name)) :
  NoDup leaves.*2 →
  NoDup (take_least k leaves).*2
  ∧ (∀ v, v ∈ (take_least k leaves).*2 → ∃ u, (u, v) ∈ leaves)
  ∧ length (take_least k leaves).*2 = Nat.min k (length leaves).
Proof.
  intros Hnd. unfold take_least. pose proof (merge_sort_Permutation leaf_le leaves) as HP.
  set (l := merge_sort leaf_le leaves) in *.
  assert (NoDup l.*2) as Hnd' by (by rewrite HP).
  split; [|split].
  - rewrite <- (take_drop k l), fmap_app in Hnd'. by apply NoDup_app in Hnd' as (? & _).
  - intros v ([u v'] & -> & Hin)%list_elem_of_fmap. exists u. rewrite <- HP.
    rewrite <- (take_drop k l). apply elem_of_app. by left.
  - rewrite length_fmap, length_take. f_equal. apply Permutation_length, HP.
Qed.

(** What eviction may not take. *)
Definition spared (t : Table) (keep : list Name) p (m : Node) : Prop :=
  chain (t_root t) p ∧ (p = [] ∨ holds_of t (n_mark m) ≠ 0 ∨ starts_with keep p = true).

Lemma chain_kept t t' p :
  chain (t_root t) p →
  (∀ p1 m, p1 `prefix_of` p → node_at (t_root t) p1 = Some m →
     ∃ m', node_at (t_root t') p1 = Some m' ∧ same_dir m m') →
  chain (t_root t') p.
Proof.
  intros Hc Hk p1 p2 -> Hne. destruct (Hc p1 p2 eq_refl Hne) as (m & Hm & Hw).
  destruct (Hk p1 m) as (m' & Hm' & [Hs _]); [by exists p2|done|].
  exists m'. split; [done|]. rewrite <- Hw. by apply is_watched_state.
Qed.

Lemma evict_loop_spec fuel keep want dropped st st' F :
  table_ok st.1 F → evict_loop fuel keep want dropped st = Some st' →
  ∃ vs, evicted vs st st'
        ∧ (want - dropped ≤ len_z vs ∨ leaves_of st'.1 keep (t_root st'.1) [] = [])
        ∧ ∀ p m, node_at (t_root st.1) p = Some m → spared st.1 keep p m →
            ∃ m', node_at (t_root st'.1) p = Some m' ∧ same_dir m m' ∧ spared st'.1 keep p m'.
Proof.
  revert dropped st. induction fuel as [|fuel IH]; intros dropped st Hok He; cbn [evict_loop] in He.
  - destruct (Z.ltb_spec dropped want); [done|]. injection He as <-. exists [].
    split; [apply evicted_nil|]. split; [left; unfold len_z; cbn [length]; lia|]. intros p m Hm Hs. by exists m.
  - destruct (Z.ltb_spec dropped want) as [Hlt|Hge].
    2:{ injection He as <-. exists []. split; [apply evicted_nil|].
        split; [left; unfold len_z; cbn [length]; lia|]. intros p m Hm Hs. by exists m. }
    destruct (leaves_of st.1 keep (t_root st.1) []) as [|l0 ls0] eqn:Hl.
    { injection He as <-. exists []. split; [apply evicted_nil|]. split; [by right|].
      intros p m Hm Hs. by exists m. }
    rewrite <- Hl in He. set (leaves := leaves_of st.1 keep (t_root st.1) []) in *.
    set (take_ := Z.min (want - dropped) (len_z leaves)) in *.
    destruct (take_least_spec (Z.to_nat take_) leaves) as (Hnd & Hin & Hlen);
      [apply leaves_NoDup|].
    set (vs := (take_least (Z.to_nat take_) leaves).*2) in *.
    assert (∀ v, v ∈ vs → v ≠ [] ∧ chain (t_root st.1) v ∧ leaf_at st.1 keep (t_root st.1) [] v) as Hleaf.
    { intros v Hv. destruct (Hin v Hv) as [u Hu].
      apply leaves_of_spec in Hu as (q & -> & Hne & Hc & Hlf). done. }
    assert (evicted vs st (foldl (λ st v, evict_one v st) st vs)) as Hev.
    { apply (evict_all_evicted vs st F Hok Hnd).
      - intros v Hv. destruct (Hleaf v Hv) as (Hne & _ & m & Hm & Hw & _). eauto.
      - intros v v' Hv Hv'. destruct (Hleaf v Hv) as (_ & _ & Hlf). destruct (Hleaf v' Hv') as (_ & Hc & _).
        by apply (leaf_not_prefix st.1 keep (t_root st.1)). }
    destruct (IH (dropped + take_) (foldl (λ st v, evict_one v st) st vs)) as (vs' & Hev' & Hw & Hsp);
      [by apply ok_evict_all|done|].
    set (st1 := foldl _ st vs) in *. exists (vs ++ vs'). split; [by eapply evicted_app|]. split.
    { destruct Hw as [Hw|Hw]; [left|by right]. unfold len_z in *. rewrite length_app, Hlen. lia. }
    intros p m Hm [Hc Hor].
    assert (∀ p1 m1, p1 `prefix_of` p → node_at (t_root st.1) p1 = Some m1 →
      ∃ m', node_at (t_root st1.1) p1 = Some m' ∧ same_dir m1 m') as Hkp.
    { intros p1 m1 Hp1 Hm1. apply (ev_keep _ _ _ Hev p1 m1 Hm1). intros v Hv Hvp.
      destruct (Hleaf v Hv) as (Hne & _ & Hlf).
      assert (v = p) as ->.
      { apply (leaf_not_prefix st.1 keep (t_root st.1) v p Hc Hlf). by etransitivity. }
      destruct Hlf as (d & Hd & _ & _ & Hh & Hst). cbn in Hst. rewrite Hm in Hd. injection Hd as ->.
      destruct Hor as [?|[?|?]]; congruence. }
    destruct (Hkp p m) as (m1 & Hm1 & [Hs1 Hk1]); [done|done|].
    destruct (Hsp p m1 Hm1) as (m2 & Hm2 & [Hs2 Hk2] & Hspd).
    { split; [by eapply chain_kept|]. unfold holds_of in *. rewrite (ev_marks _ _ _ Hev), Hk1. done. }
    exists m2. split; [done|]. split; [split; congruence|done].
Qed.

(** ** Guards *)

Lemma deepest_watched_spec n ns :
  ∃ p1 p2, ns = p1 ++ p2 ∧ node_at n p1 = Some (deepest_watched n ns) ∧ chain n p1.
Proof.
  revert n. induction ns as [|x ns IH]; intros n; cbn.
  { exists [], []. repeat split. intros p1 p2 Heq Hne. by destruct p1. }
  assert (∃ p1 p2, x :: ns = p1 ++ p2 ∧ node_at n p1 = Some n ∧ chain n p1) as Hstop.
  { exists [], (x :: ns). repeat split. intros p1 p2 Heq Hne. by destruct p1. }
  destruct (n_children n !! x) as [c|] eqn:Hx; [|done]. destruct (is_watched c) eqn:Hc; [|done].
  destruct (IH c) as (p1 & p2 & -> & Hp & Hch). exists (x :: p1), p2. split; [done|].
  split; [cbn; by rewrite Hx|by eapply chain_cons].
Qed.

(** The guard [h] holds a watched directory on [ns], watched all the way down. *)
Definition guards (t : Table) (ns : list Name) (h : nat) : Prop :=
  ∃ p1 p2 m, ns = p1 ++ p2 ∧ node_at (t_root t) p1 = Some m ∧ n_mark m = h ∧ chain (t_root t) p1
             ∧ (p1 = [] ∨ is_watched m = true).

Lemma touch_walk_guards n ns round now t h t' :
  touch_walk n ns round now t = (Done (Some h), t') →
  ∃ p1 p2 m, ns = p1 ++ p2 ∧ node_at n p1 = Some m ∧ n_mark m = h ∧ chain n p1.
Proof.
  revert n t. induction ns as [|x ns IH]; intros n t Ht; cbn in Ht.
  { injection Ht as <- <-. exists [], [], n. repeat split. intros p1 p2 Heq Hne. by destruct p1. }
  destruct (n_children n !! x) as [c|] eqn:Hx; [|done].
  destruct (n_state c) as [w|r] eqn:Hs.
  - destruct (IH c _ Ht) as (p1 & p2 & m & -> & Hm & Hh & Hc).
    exists (x :: p1), p2, m. split; [done|]. split; [cbn; by rewrite Hx|]. split; [done|].
    eapply chain_cons; [done| |done]. unfold is_watched. by rewrite Hs.
  - destruct (now <? r); [|done]. injection Ht as <- <-. exists [], (x :: ns), n.
    repeat split. intros p1 p2 Heq Hne. by destruct p1.
Qed.

Lemma touch_walk_held n ns round now t o t' :
  touch_walk n ns round now t = (Done o, t') → ∃ h, o = Some h.
Proof.
  revert n t. induction ns as [|x ns IH]; intros n t Ht; cbn in Ht.
  { injection Ht as <- <-. eauto. }
  destruct (n_children n !! x) as [c|]; [|discriminate Ht].
  destruct (n_state c) as [w|r]; [by eapply IH|].
  destruct (now <? r); [|discriminate Ht]. injection Ht as <- <-. eauto.
Qed.

Lemma chain_watched n p m : chain n p → p ≠ [] → node_at n p = Some m → is_watched m = true.
Proof.
  intros Hc Hne Hm. destruct (Hc p []) as (m' & Hm' & Hw); [by rewrite app_nil_r|done|]. congruence.
Qed.

Lemma guards_intro t ns p1 p2 m :
  ns = p1 ++ p2 → node_at (t_root t) p1 = Some m → chain (t_root t) p1 → guards t ns (n_mark m).
Proof.
  intros Hns Hm Hc. exists p1, p2, m. split; [done|]. split; [done|]. split; [done|]. split; [done|].
  destruct p1; [by left|right]. by eapply chain_watched.
Qed.

Lemma arm_guards dir now st held st' :
  t_dead st.1 = false → arm dir now st = Some (held, st') →
  ∃ h, held = Some h ∧ guards st'.1 (names dir) h.
Proof.
  intros Hd Ha. unfold arm in Ha.
  destruct (touch_same dir now st.1) as (Hr & _ & _ & _).
  destruct (touch dir now st.1) as [[o|] t] eqn:Ht; cbn [snd] in Hr.
  - injection Ha as <- <-. unfold touch in Ht. rewrite Hd in Ht.
    destruct (touch_walk_held _ _ _ _ _ _ _ Ht) as [h ->]. exists h. split; [done|].
    destruct (touch_walk_guards _ _ _ _ _ _ _ Ht) as (p1 & p2 & m & Hns & Hm & <- & Hc).
    cbn [fst]. rewrite <- Hr in Hm, Hc. by apply (guards_intro t _ p1 p2 m).
  - destruct (extend _ _ _ _) as [[t1 out1]|]; [|done]. cbn in Ha. injection Ha as <- <-.
    eexists. split; [done|]. destruct (deepest_watched_spec (t_root t1) (names dir)) as (p1 & p2 & Hns & Hm & Hc).
    cbn [fst]. by apply (guards_intro _ _ p1 p2).
Qed.

(** ** Runs *)

(** One operation on the table, under its lock: a request's walk or arming, a guard
    dropped, a read's worth of events, the end of the event thread when [poll] fails.  A rename's cookie begins one move only. *)
Inductive table_step : Table → Table → Prop :=
| step_touch dir now t : table_step t (touch dir now t).2
| step_arm dir now t held t' out :
    arm dir now (t, []) = Some (held, (t', out)) → table_step t t'
| step_armed_drop mark t : table_step t (Armed_drop mark t)
| step_apply es t : NoDup (cookies_from es) → table_step t (apply es (t, [])).1
| step_die t : table_step t (die t).

Definition alive_ok (t : Table) : Prop := gone t ∨ table_ok t [].

Lemma ok_Armed_drop mark t F : table_ok t F → table_ok (Armed_drop mark t) F.
Proof. intros Hok. by eapply ok_same. Qed.

Lemma ok_step t t' : table_step t t' → alive_ok t → alive_ok t'.
Proof.
  intros Hs Hok. destruct Hs as [dir now t|dir now t held t' out Ha|mark t|es t Hnd|t].
  - destruct (touch_same dir now t) as (? & Hb & ? & Hd). destruct Hok as [[Hdt Hw]|Hok]; [left|right].
    + split; [congruence|]. intros w. by rewrite Hb.
    + by eapply ok_same.
  - destruct Hok as [Hok|Hok].
    + left. unfold arm, touch in Ha. cbn [fst] in Ha. rewrite (proj1 Hok) in Ha. by simplify_eq.
    + right. destruct (ok_arm dir now (t, []) [] Hok) as (a & st & Ha' & Hok'). by simplify_eq.
  - destruct Hok as [Hok|Hok]; [by left|right]. by apply ok_Armed_drop.
  - by apply (ok_apply es (t, [])).
  - left. apply gone_die.
Qed.

Lemma ok_new ms budget t : Table_new ms budget = Ok t → table_ok t [].
Proof.
  unfold Table_new. destruct (m_open ms Path_root) as [ms1 [dir|]]; [|done]. cbn.
  destruct (m_add ms1 dir) as [ms2 [wd|]]; [|done]. cbn. intros [= <-].
  assert (wlist (MkNode (Watched wd) 0 (∅ : gmap Name Node)) = [wd]) as Hw
    by (rewrite wlist_node, map_to_list_empty; done).
  split; cbn [t_root t_by_wd t_watched]; rewrite ?Hw, ?app_nil_r.
  - apply NoDup_singleton.
  - intros w. rewrite list_elem_of_singleton. destruct (decide (w = wd)) as [->|].
    + rewrite lookup_singleton_eq. naive_solver.
    + rewrite lookup_singleton_ne by done. split; [done|by intros [? ?]].
  - done.
  - done.
  - intros q n' w (-> & ->)%node_at_new [= <-]. by rewrite lookup_singleton_eq.
Qed.

Lemma ok_reachable ms budget t0 t :
  Table_new ms budget = Ok t0 → rtc table_step t0 t → alive_ok t.
Proof.
  intros H0 Hr. apply (rtc_invariant table_step alive_ok t0 t); [intros x y Hx Hxy; by eapply ok_step|done|].
  right. by eapply ok_new.
Qed.

(** Nothing eviction may take is left. *)
Definition nothing_to_take (t : Table) (keep : list Name) : Prop :=
  leaves_of t keep (t_root t) [] = [].

Lemma ok_size t : table_ok t [] → t_watched t + 1 = Z.of_nat (size (t_by_wd t)).
Proof.
  intros [N D C _ _]. rewrite app_nil_r in *. rewrite C. unfold len_z. f_equal.
  rewrite <- size_dom. rewrite <- (size_list_to_set (C:=gset W)) by done. f_equal.
  apply set_eq. intros w. by rewrite elem_of_list_to_set, elem_of_dom, D.
Qed.

End safety.

(** ** Properties *)


(** Arming a directory always returns, with a guard that holds.  Whatever the
    kernel answers, and however much is evicted on the way, [arm] on a live table
    ends; the guard it returns holds a directory on the path (the export root at
    least) that is watched, as is every directory above it. *)
Theorem arm_returns_a_guard {W} `{Countable W} `{HMk : !Marks W} ms budget (t0 t : Table) dir now :
  Table_new ms budget = Ok t0 → rtc table_step t0 t → t_dead t = false →
  ∃ h t' out, arm dir now (t, []) = Some (Some h, (t', out)) ∧ guards t' (names dir) h.
Proof.
  intros H0 Hr Hd. destruct (ok_reachable ms budget t0 t H0 Hr) as [[? _]|Hok]; [congruence|].
  destruct (ok_arm dir now (t, []) [] Hok) as (held & [t' out] & Ha & _).
  destruct (arm_guards dir now (t, []) held (t', out) Hd Ha) as (h & -> & Hg). eauto.
Qed.

(** Eviction spares what is in use and says what it drops.  A directory that a
    request or a handle holds, or that is on the path being watched, and everything
    above it, is watched after an eviction as before, under the same mark; and every
    directory that is no longer watched has been announced, so clients drop what they
    cached under it. *)
Theorem evict_spares_and_says {W} `{Countable W} `{HMk : !Marks W}
    keep now (st st' : Table * list EventItem) :
  table_ok st.1 [] → evict keep now st = Some st' →
  (∀ p m, node_at (t_root st.1) p = Some m → spared st.1 (names keep) p m →
     ∃ m', node_at (t_root st'.1) p = Some m' ∧ same_dir m m' ∧ chain (t_root st'.1) p)
  ∧ (∀ (w : W) path, t_by_wd st.1 !! w = Some path → (byte_len path ≤ PATH_MAX)%nat →
       t_by_wd st'.1 !! w = Some path
       ∨ t_by_wd st'.1 !! w = None ∧ Ev_Unwatched path ∈ st'.2).
Proof.
  intros Hok He. unfold evict in He.
  pose proof (ok_budget now st.1 [] Hok) as Hb. pose proof (budget_by_wd now st.1) as Hbw.
  assert (t_root (budget_at now st.1).2 = t_root st.1 ∧ t_marks (budget_at now st.1).2 = t_marks st.1)
    as [Hbr Hbm].
  { unfold budget_at. destruct (t_capped st.1) as [[]|]; [|done]. by destruct (_ <? _). }
  destruct (budget_at now st.1) as [budget t]. cbn [snd] in *.
  assert (table_ok (set_round (wrap64 (t_round t + 1)) t, st.2).1 []) as Hb' by (by eapply ok_same).
  destruct (evict_loop_spec _ _ _ _ _ _ [] Hb' He)
    as (vs & Hev & _ & Hsp). cbn [fst snd] in *. split.
  - intros p m Hm Hs. destruct (Hsp p m) as (m' & Hm' & Hd' & [Hc _]).
    + cbn. by rewrite Hbr.
    + unfold spared, holds_of in *. cbn. by rewrite Hbr, Hbm.
    + eauto.
  - intros w path Hw Hl. destruct (t_by_wd st'.1 !! w) as [path'|] eqn:Hw'.
    + left. pose proof (ev_same _ _ _ Hev w path' Hw') as Hsame. cbn in Hsame. congruence.
    + right. split; [done|]. apply (ev_said _ _ _ Hev w path); [|done|done]. cbn. congruence.
Qed.

(** Eviction makes room.  After it there is room for one more watch within the
    budget in force, or nothing is left that it may take: every watched directory with
    nothing watched below it is held or on the path being watched. *)
Theorem evict_makes_room {W} `{Countable W} `{HMk : !Marks W}
    keep now (st : Table * list EventItem) :
  table_ok st.1 [] →
  ∃ st', evict (W:=W) keep now st = Some st'
         ∧ (t_watched st'.1 + 1 ≤ (budget_at now st.1).1
            ∨ nothing_to_take st'.1 (names keep)).
Proof.
  intros Hok. destruct (ok_evict keep now st [] Hok) as (st' & He & _). exists st'. split; [done|].
  unfold evict in He. pose proof (ok_budget now st.1 [] Hok) as Hb.
  destruct (budget_at now st.1) as [budget t]. cbn [snd fst] in *.
  assert (table_ok (set_round (wrap64 (t_round t + 1)) t, st.2).1 []) as Hb' by (by eapply ok_same).
  destruct (evict_loop_spec _ _ _ _ _ _ [] Hb' He)
    as (vs & Hev & Hw & _).
  destruct Hw as [Hw|Hw]; [left|by right].
  pose proof (ev_watched _ _ _ Hev) as Hd. cbn [fst] in Hd.
  change (t_watched (set_round (wrap64 (t_round t + 1)) t)) with (t_watched t) in Hd.
  unfold evict_want, sat_sub64 in Hw. lia.
Qed.

(** ** A kernel

    Directories by path, each with an inode number that is also the descriptor of
    its watch, and the set of inodes watched. *)

Module Kernel.
Record t := MkKernel { fs : gmap (list Name) Z; watches : gset Z }.

Definition open (k : t) (path : Path) : t * result Z (list Name * Z) :=
  (k, match fs k !! names path with Some i => Ok (names path, i) | None => Err 2 end).
Definition open_child (k : t) (d : list Name * Z) (x : Name) : t * result Z (list Name * Z) :=
  (k, match fs k !! (d.1 ++ [x]) with Some i => Ok (d.1 ++ [x], i) | None => Err 2 end).
Definition add (k : t) (d : list Name * Z) : t * result Z Z :=
  (MkKernel (fs k) ({[d.2]} ∪ watches k), Ok d.2).
Definition rm (k : t) (wd : Z) : t := MkKernel (fs k) (watches k ∖ {[wd]}).

#[export] Instance marks : Marks Z := {|
  MS := t; Dir := list Name * Z; m_open := open; m_open_child := open_child;
  m_add := add; m_rm := rm |}.

Definition na : Name := MkName [Byte.x61].
Definition nb : Name := MkName [Byte.x62].
Definition nc : Name := MkName [Byte.x63].

(** An export with [a] and, inside it, [b]. *)
Definition demo_fs : gmap (list Name) Z := {[ [] := 1; [na] := 2; [na; nb] := 3 ]}.
Definition demo_kernel : t := MkKernel demo_fs ∅.
Definition demo_new : Table (W:=Z) :=
  match Table_new (W:=Z) demo_kernel 8 with
  | Ok t => t
  | Err _ => MkTable demo_kernel (MkNode (Unwatchable 0) 0 ∅) ∅ 0 0 None 0 false ∅ 0
  end.
Definition armed (dir : list Name) (t : Table (W:=Z)) : Table (W:=Z) :=
  match arm (W:=Z) (MkPath dir) 0 (t, []) with Some (_, (t, _)) => t | None => t end.
Definition demo_armed : Table (W:=Z) := armed [na; nb] demo_new.
(** The guard, whose mark is the second made, is dropped. *)
Definition demo_idle : Table (W:=Z) := Armed_drop (W:=Z) 2 demo_armed.

(** [b] becomes [a], as by [mv a/b t; rmdir a; mv t a], with a [c] made inside it, before
    any event of it is applied. *)
Definition demo_moved : Table (W:=Z) :=
  set_ms (W:=Z) (MkKernel {[ [] := 1; [na] := 3; [na; nc] := 4 ]} (watches (t_ms demo_idle))) demo_idle.

Lemma new_ok : Table_new (W:=Z) demo_kernel 8 = Ok demo_new.
Proof.
  assert (is_ok (Table_new (W:=Z) demo_kernel 8) = true) as H by (vm_compute; reflexivity).
  unfold demo_new. by destruct (Table_new (W:=Z) (HMk:=marks) demo_kernel 8).
Qed.

Lemma armed_step dir t : rtc table_step t (armed dir t).
Proof.
  unfold armed. destruct (arm (W:=Z) (MkPath dir) 0 (t, [])) as [[held [t' out]]|] eqn:E;
    [|apply rtc_refl].
  apply rtc_once. by eapply step_arm.
Qed.

Lemma armed_ok : table_ok (W:=Z) demo_armed [].
Proof.
  destruct (ok_reachable (W:=Z) (HMk:=marks) demo_kernel 8 demo_new demo_armed new_ok
              (armed_step [na; nb] demo_new)) as [[Hd _]|Hok]; [|exact Hok].
  vm_compute in Hd. discriminate Hd.
Qed.

Lemma idle_ok : table_ok (W:=Z) demo_idle [].
Proof. exact (ok_Armed_drop 2 demo_armed [] armed_ok). Qed.
End Kernel.

#[local] Existing Instance Kernel.marks.


Lemma arm_returns_a_guard_witness :
  ∃ h t' out, arm (W:=Z) (MkPath [Kernel.na; Kernel.nb]) 0 (Kernel.demo_new, [])
              = Some (Some h, (t', out)) ∧ guards t' [Kernel.na; Kernel.nb] h.
Proof.
  apply (arm_returns_a_guard (W:=Z) (HMk:=Kernel.marks) Kernel.demo_kernel 8 Kernel.demo_new
           Kernel.demo_new (MkPath [Kernel.na; Kernel.nb]) 0).
  - exact Kernel.new_ok.
  - apply rtc_refl.
  - vm_compute. reflexivity.
Defined.

(** With the guard gone [b] is dropped and announced, for a path beside it. *)
Lemma evict_spares_and_says_witness :
  ∃ st', evict (W:=Z) (MkPath [Kernel.na; Kernel.nc]) 0 (Kernel.demo_idle, []) = Some st'
  ∧ Ev_Unwatched (MkPath [Kernel.na; Kernel.nb]) ∈ st'.2.
Proof.
  destruct (ok_evict (W:=Z) (MkPath [Kernel.na; Kernel.nc]) 0 (Kernel.demo_idle, []) [] Kernel.idle_ok)
    as (st' & He & _).
  exists st'. split; [exact He|].
  destruct (proj2 (evict_spares_and_says (W:=Z) (HMk:=Kernel.marks) (MkPath [Kernel.na; Kernel.nc]) 0
    (Kernel.demo_idle, []) st' Kernel.idle_ok He) 3 (MkPath [Kernel.na; Kernel.nb])) as [Hs|[_ Hs]].
  - vm_compute. reflexivity.
  - apply Nat.leb_le. vm_compute. reflexivity.
  - exfalso.
    assert (match evict (W:=Z) (MkPath [Kernel.na; Kernel.nc]) 0 (Kernel.demo_idle, []) with
            | Some st' => t_by_wd st'.1 !! 3 | None => None end = None) as Hn
      by (vm_compute; reflexivity).
    rewrite He in Hn. rewrite Hn in Hs. discriminate Hs.
  - exact Hs.
Defined.

Lemma evict_makes_room_witness :
  ∃ st', evict (W:=Z) (MkPath [Kernel.na; Kernel.nc]) 0 (Kernel.demo_idle, []) = Some st'
         ∧ (t_watched st'.1 + 1 ≤ (budget_at 0 Kernel.demo_idle).1
            ∨ nothing_to_take st'.1 [Kernel.na; Kernel.nc]).
Proof.
  exact (evict_makes_room (W:=Z) (HMk:=Kernel.marks) (MkPath [Kernel.na; Kernel.nc]) 0
           (Kernel.demo_idle, []) Kernel.idle_ok).
Defined.

(** A directory that takes its parent's place while it is watched: [arm] drops the
    parent's subtree, the directory's own watch with it, and then records that
    directory as watched.  The table has descriptor 3 at [a]; the kernel does not. *)
Example verify_records_a_removed_watch :
  let t := Kernel.armed [Kernel.na; Kernel.nc] Kernel.demo_moved in
  t_by_wd t !! 3 = Some (MkPath [Kernel.na]) ∧ 3 ∉ Kernel.watches (t_ms t).
Proof.
  split; [vm_compute; reflexivity|].
  apply (bool_decide_eq_false_1 (3 ∈ Kernel.watches
    (t_ms (Kernel.armed [Kernel.na; Kernel.nc] Kernel.demo_moved)))). vm_compute. reflexivity.
Qed.

(** A batch in which a watched directory moves away and the export root's watch then
    ends: the count was set to zero with the directory still to be dropped, and wraps. *)
Example count_wraps_when_the_root_goes :
  let gone := MkRaw 1 (Z.lor IN_MOVED_FROM IN_ISDIR) 7 (Some [Byte.x61]) in
  let unmounted := MkRaw 1 IN_UNMOUNT 0 None in
  let t := set_ms (W:=Z) (Kernel.MkKernel {[ [] := 1 ]} ∅) Kernel.demo_idle in
  let t' := (apply (W:=Z) [gone; unmounted] (t, [])).1 in
  t_dead t' = true ∧ t_watched t' = usize_max - 1.
Proof. vm_compute. split; reflexivity. Qed.
