(* ===== verification/WatchLoop.v ===== *)
(** * The event thread of change notification ([crates/server/src/watch.rs])

    The thread that reads the kernel's events ([read_events]), applies them to the table
    of watched directories and folds what they report into the window, and flushes the
    window to the sessions every [DEBOUNCE_WINDOW] ([run_events]), while requests watch
    directories, drop their guards and record what they change.  The table is
    [WatchTable.v], the window and the log of changes [Watch.v].

    A read of the inotify instance, what [poll] gave and the clock are the system's, and
    are given to a turn; the clock never goes back.  The broadcast channel is the list of
    the batches sent. *)

From S2P Require Import Prelude Types Msg Watch WatchTable WatchInv WatchSafety.

Definition DEBOUNCE_WINDOW : Z := 100 * 1000000.
Definition READS_PER_APPLY : nat := 64.

Section loop.
Context {W : Type} `{Countable W} `{HMk : !Marks W}.
Local Notation Table := (@Table W _ _ HMk).
Local Notation Inner := (@Inner W _ _ HMk).
Local Notation RawEvent := (@RawEvent W).
Local Notation Node := (@Node W).
Implicit Types (t : Table) (out : list EventItem) (n : Node).

(** ** Reading *)

(** What one read of the instance gives: events, [EAGAIN], [EINTR], another error. *)
Inductive ReadInotify := RI_Events (es : list RawEvent) | RI_Again | RI_Interrupted | RI_Failed.

(** [read_events]: [reads i] is what the [i]th read gives. *)
Fixpoint read_events_from (turns i : nat) (reads : nat → ReadInotify) : list RawEvent :=
  match turns with
  | O => []
  | S turns =>
      match reads i with
      | RI_Events es => es ++ read_events_from turns (S i) reads
      | RI_Again | RI_Failed => []
      | RI_Interrupted => read_events_from turns (S i) reads
      end
  end.
Definition read_events (reads : nat → ReadInotify) : list RawEvent :=
  read_events_from READS_PER_APPLY 0 reads.

(** ** The loop *)

(** What [poll] gives: which descriptors are ready, an interruption, another error. *)
Inductive Polled := Po_Ready (events stop : bool) | Po_Interrupted | Po_Failed.
Definition ready_events (p : Polled) : bool := match p with Po_Ready e _ => e | _ => false end.
Definition ready_stop (p : Polled) : bool := match p with Po_Ready _ s => s | _ => false end.

(** [lp_sent]: the batches given to the broadcast channel, the first one first.
    [lp_clock]: the latest time anyone has read, a ghost. *)
Record Loop := MkLoop {
  lp_inner : Inner;
  lp_log : ChangeLog;
  lp_flush_at : Z;
  lp_sent : list EventBatch;
  lp_over : bool;
  lp_clock : Z }.

Definition Loop_new (w : Inner) (now : Z) : Loop :=
  MkLoop w ChangeLog_default (now + DEBOUNCE_WINDOW) [] false now.

Definition flush (l : Loop) : Loop :=
  let '(batch, p) := Pending_flush (in_pending (lp_inner l)) in
  MkLoop (MkInner (in_table (lp_inner l)) p) (lp_log l) (lp_flush_at l)
    (lp_sent l ++ option_list batch) (lp_over l) (lp_clock l).

(** What the system gives a turn: [tn_folded], [tn_checked] and [tn_set] are the times
    read as the items are folded, as the deadline is checked and as it is set again. *)
Record LoopTurn := MkTurn {
  tn_polled : Polled; tn_reads : nat → ReadInotify;
  tn_folded : Z; tn_checked : Z; tn_set : Z }.

Definition with_events (tn : LoopTurn) (l : Loop) : Loop :=
  if ready_events (tn_polled tn) then
    let '(w, log) := event_turn (read_events (tn_reads tn)) (tn_folded tn) (lp_inner l) (lp_log l) in
    MkLoop w log (lp_flush_at l) (lp_sent l) (lp_over l) (lp_clock l)
  else l.

Definition flush_due (tn : LoopTurn) (l : Loop) : Loop :=
  if lp_flush_at l <=? tn_checked tn then
    flush (MkLoop (lp_inner l) (lp_log l) (tn_set tn + DEBOUNCE_WINDOW) (lp_sent l) (lp_over l) (lp_clock l))
  else l.

Definition poll_failed (tn : LoopTurn) (l : Loop) : Loop :=
  let w := lp_inner l in
  let '(p, log) := fold_events (tn_folded tn) (in_pending w) (lp_log l) [Ev_Overflow] in
  flush (MkLoop (MkInner (die (in_table w)) p) log (lp_flush_at l) (lp_sent l) true (lp_clock l)).

Definition stopped (l : Loop) : Loop :=
  MkLoop (lp_inner l) (lp_log l) (lp_flush_at l) (lp_sent l) true (lp_clock l).

Definition at_clock (now : Z) (l : Loop) : Loop :=
  MkLoop (lp_inner l) (lp_log l) (lp_flush_at l) (lp_sent l) (lp_over l) now.

(** One turn of [run_events]'s loop. *)
Definition run_turn (tn : LoopTurn) (l : Loop) : Loop :=
  at_clock (tn_set tn)
    match tn_polled tn with
    | Po_Failed => poll_failed tn l
    | _ => if ready_stop (tn_polled tn) then stopped l else flush_due tn (with_events tn l)
    end.

(** ** The table as requests use it *)

(** [Watches]: none, on a server without change notification. *)
Definition Watches : Type := option Inner.

Definition watches_arm (dir : Path) (now : Z) (w : Watches) : option (option nat * Watches) :=
  match w with
  | None => Some (None, None)
  | Some inner => '(held, inner) ← Watches_arm dir now inner; Some (held, Some inner)
  end.
Definition watches_arm_request (req : Request) (now : Z) (w : Watches) : option (list nat * Watches) :=
  match w with
  | None => Some ([], None)
  | Some inner => '(held, inner) ← arm_request req now inner; Some (held, Some inner)
  end.
Definition watched (w : Watches) : Z := from_option (λ inner, t_watched (in_table inner)) 0 w.

(** [spawn]: [instance] is the inotify instance, or why there is none; [stop] and [thread]
    are whether the stop signal and the thread could be made. *)
Definition spawn (instance : result Z MS) (budget : Z) (stop thread : bool) : Watches :=
  match instance with
  | Err _ => None
  | Ok ms =>
      match Table_new ms budget with
      | Err _ => None
      | Ok t => if stop && thread then Some (MkInner t Pending_default) else None
      end
  end.

(** ** Everyone at once *)

(** The items a list of items is folded as, each with its origin. *)
Fixpoint attribute (now : Z) (log : ChangeLog) (items : list EventItem)
    : list (EventItem * option Z) * ChangeLog :=
  match items with
  | [] => ([], log)
  | item :: items =>
      let '(origin, log) := match origin_key item with
                            | Some key => take_origin log key now
                            | None => (None, log)
                            end in
      let '(rest, log) := attribute now log items in
      ((item, origin) :: rest, log)
  end.

(** What a read's worth of events reports. *)
Definition turn_out (raw : list RawEvent) (t : Table) : list EventItem :=
  if existsb (λ e, structural (re_mask e)) raw then (apply raw (t, [])).2
  else foldl (λ out e, (report e t out).2) [] raw.

Definition turn_items (tn : LoopTurn) (l : Loop) : list (EventItem * option Z) :=
  match tn_polled tn with
  | Po_Failed => [(Ev_Overflow, None)]
  | _ =>
      if ready_stop (tn_polled tn) then []
      else if ready_events (tn_polled tn) then
        (attribute (tn_folded tn) (lp_log l) (turn_out (read_events (tn_reads tn)) (in_table (lp_inner l)))).1
      else []
  end.

Definition arm_items (dir : Path) (now : Z) (w : Inner) : list (EventItem * option Z) :=
  match (touch dir now (in_table w)).1 with
  | Done _ => []
  | Missing => from_option (λ r, (λ item, (item, None)) <$> r.2.2) []
                 (arm dir now ((touch dir now (in_table w)).2, []))
  end.

Definition with_inner (w : Inner) (now : Z) (l : Loop) : Loop :=
  MkLoop w (lp_log l) (lp_flush_at l) (lp_sent l) (lp_over l) now.
Definition with_log (log : ChangeLog) (now : Z) (l : Loop) : Loop :=
  MkLoop (lp_inner l) log (lp_flush_at l) (lp_sent l) (lp_over l) now.

(** A turn of the thread, a request watching a directory, a guard dropped, a change
    recorded; labelled with the items it folds into the window. *)
Inductive loop_step (l : Loop) : list (EventItem * option Z) → Loop → Prop :=
| ls_turn tn :
    lp_over l = false →
    lp_clock l ≤ tn_folded tn ≤ tn_checked tn → tn_checked tn ≤ tn_set tn →
    loop_step l (turn_items tn l) (run_turn tn l)
| ls_arm dir now held w :
    lp_clock l ≤ now → Watches_arm dir now (lp_inner l) = Some (held, w) →
    loop_step l (arm_items dir now (lp_inner l)) (with_inner w now l)
| ls_drop mark :
    loop_step l []
      (with_inner (MkInner (Armed_drop mark (in_table (lp_inner l))) (in_pending (lp_inner l))) (lp_clock l) l)
| ls_record path session now :
    lp_clock l ≤ now → loop_step l [] (with_log (record (lp_log l) path session now) now l)
| ls_record_entry dir name session now :
    lp_clock l ≤ now → loop_step l [] (with_log (record_entry (lp_log l) dir name session now) now l).

(** Many steps, and all they folded, in order. *)
Inductive loop_run (l : Loop) : list (EventItem * option Z) → Loop → Prop :=
| lr_done : loop_run l [] l
| lr_step h l1 items l2 : loop_run l h l1 → loop_step l1 items l2 → loop_run l (h ++ items) l2.

(** ** What the kernel gives a turn *)

(** The events of a turn's first [n] reads. *)
Definition given (reads : nat → ReadInotify) (n : nat) : list RawEvent :=
  mjoin ((λ i, match reads i with RI_Events es => es | _ => [] end) <$> seq 0 n).

(** A turn has read all there is to read after [n] reads: the next finds nothing or
    fails, or it has read 64 times. *)
Definition drained_by (reads : nat → ReadInotify) (n : nat) : Prop :=
  (∀ i, (i < n)%nat → reads i ≠ RI_Again ∧ reads i ≠ RI_Failed)
  ∧ ((n < 64)%nat ∧ (reads n = RI_Again ∨ reads n = RI_Failed) ∨ n = 64%nat).

Lemma read_events_given reads : ∀ (m i n : nat),
  (i + m = 64)%nat → (i ≤ n)%nat → drained_by reads n →
  read_events_from m i reads
  = mjoin ((λ i, match reads i with RI_Events es => es | _ => [] end) <$> seq i (n - i)).
Proof.
  induction m as [|m IH]; intros i n Hm Hi [Hgo Hend].
  - replace (n - i)%nat with 0%nat by lia. done.
  - cbn [read_events_from]. destruct (decide (i = n)) as [->|Hne].
    + rewrite Nat.sub_diag. destruct Hend as [[_ [-> | ->]]|?]; [done|done|lia].
    + assert (i < n)%nat as Hlt by lia. replace (n - i)%nat with (S (n - S i)) by lia.
      cbn [seq fmap list_fmap mjoin list_join]. destruct (Hgo i Hlt) as [Ha Hf].
      destruct (reads i); try done; rewrite (IH (S i) n); (done || lia).
Qed.

Lemma read_events_all reads (n : nat) : drained_by reads n → read_events reads = given reads n.
Proof.
  intros Hd. unfold read_events, given. rewrite (read_events_given reads READS_PER_APPLY 0 n);
    [by rewrite Nat.sub_0_r|reflexivity|lia|done].
Qed.

(** ** What a read reports *)

(** Items are only added. *)
Definition grows (st st' : Table * list EventItem) : Prop := st.2 `prefix_of` st'.2.

Ltac same_out := unfold grows; cbn [snd]; reflexivity.

Lemma grows_refl st : grows st st.
Proof. same_out. Qed.
Lemma grows_trans st st' st'' : grows st st' → grows st' st'' → grows st st''.
Proof. unfold grows. apply transitivity. Qed.

Lemma grows_from t t' out x : grows (t, out) x → grows (t', out) x.
Proof. done. Qed.

Lemma grows_fold {K A B : Type} (f : K * A → B * (Table * list EventItem) → B * (Table * list EventItem))
    (l : list (K * A)) (b : B) st :
  (∀ ka b st, ka ∈ l → grows st (f ka (b, st)).2) → grows st (foldr f (b, st) l).2.
Proof.
  induction l as [|ka l IH]; intros Hf; [cbn; apply grows_refl|]. cbn [foldr].
  assert (grows st (foldr f (b, st) l).2) as Hl by (apply IH; intros; apply Hf; by right).
  destruct (foldr f (b, st) l) as [b1 st1]. eapply grows_trans; [exact Hl|]. apply (Hf ka b1 st1). left.
Qed.

Lemma grows_drop_tree n p a st : grows st (drop_tree n p a st).
Proof.
  destruct (drop_tree_dropped n p a st) as (items & [_ _ _ Ho] & _). exists items. exact Ho.
Qed.

Lemma grows_drop_all l st : grows st (drop_all l st).
Proof.
  induction l as [|[p n] l IH]; [apply grows_refl|]. eapply grows_trans; [exact IH|apply grows_drop_tree].
Qed.

Lemma grows_put p n st : grows st (put p n st).
Proof.
  destruct st as [t out]. cbn. destruct (Path_split_last p) as [[parent x]|]; [|same_out].
  destruct (node_at _ _) as [slot|]; [|apply grows_drop_tree].
  destruct (n_children slot !! x) as [d|]; [|same_out].
  eapply grows_from, grows_drop_tree.
Qed.

Lemma grows_rekey n p st : grows st (rekey n p st).2.
Proof.
  revert p st. induction n as [s m c IH] using Node_rect'. intros p [t out]. cbn [rekey].
  rewrite map_fold_foldr. set (t0 := match s with Watched _ => _ | Unwatchable _ => t end).
  match goal with |- context [foldr ?f ?i ?l] => pose proof (grows_fold f l ∅ (t0, out)) as Hg end.
  destruct (foldr _ _ _) as [kept st]. apply Hg. clear Hg. intros [k n] kept' [t' out'] Hin%elem_of_map_to_list. cbn.
  destruct (Path_join p k) as [q|]; [|apply grows_drop_tree].
  pose proof (IH k n Hin q (t', out')) as Hg. by destruct (rekey n q (t', out')).
Qed.

Lemma grows_recheck_below n dir ns st : grows st (recheck_below n dir ns st).2.
Proof.
  revert dir ns st. induction n as [s m c IH] using Node_rect'. intros dir ns [t out]. cbn [recheck_below].
  rewrite map_fold_foldr. apply grows_fold. intros [k n] kept [t' out'] Hin%elem_of_map_to_list. cbn.
  set (look := match n_state n with Watched _ => _ | Unwatchable _ => _ end). destruct look as [[d|] t1].
  - pose proof (IH k n Hin d (ns ++ [k]) (t1, out')) as Hg. by destruct (recheck_below n d (ns ++ [k]) (t1, out')).
  - eapply grows_from, grows_drop_tree.
Qed.

Lemma grows_recheck st : grows st (recheck st).
Proof.
  destruct st as [t out]. unfold recheck. destruct (open_ Path_root _) as [[root|e] t1].
  - pose proof (grows_recheck_below (t_root t) root [] (t1, out)) as Hg.
    by destruct (recheck_below _ _ _ _) as [kept [t2 out2]].
  - rewrite map_fold_foldr. induction (map_to_list (n_children (t_root t))) as [|[k n] l IH]; [same_out|].
    eapply grows_trans; [exact IH|apply grows_drop_tree].
Qed.

(** [apply]'s loop only adds items. *)
Definition adds (a a' : Applying) : Prop := ap_out a `prefix_of` ap_out a'.

Lemma adds_arrived m m' t t' out x : grows (t, out) x → adds (MkApplying m t' out) (let '(t, out) := x in MkApplying m' t out).
Proof. by destruct x. Qed.

Lemma adds_apply_structural (e : RawEvent) path a : adds a (apply_structural e path a).
Proof.
  destruct a as [m t out]. unfold apply_structural.
  destruct (contains _ IN_MOVED_FROM).
  { destruct (still_there path t) as [[] t1]; [by unfold adds|]. destruct (detach path t1) as [[n|] t2]; by unfold adds. }
  destruct (contains _ IN_MOVED_TO).
  { destruct (still_there path t) as [[] t1].
    - destruct (m !! re_cookie e) as [[from n]|]; [|by unfold adds]. eapply adds_arrived, grows_drop_tree.
    - destruct (detach path t1) as [old t2].
      assert (grows (t2, out) (match old with Some old => drop_tree old path true (t2, out) | None => (t2, out) end)) as Hold
        by (destruct old; [apply grows_drop_tree|apply grows_refl]).
      eapply adds_arrived. destruct (m !! re_cookie e) as [[from n]|]; [|exact Hold].
      eapply grows_trans; [exact Hold|].
      match goal with |- context [rekey n path ?st] => pose proof (grows_rekey n path st) as Hr; destruct (rekey n path st) end.
      eapply grows_trans; [exact Hr|apply grows_put]. }
  destruct (contains _ IN_DELETE); [|by unfold adds].
  destruct (still_there path t) as [[] t1]; [by unfold adds|]. destruct (detach path t1) as [[n|] t2]; [|by unfold adds].
  eapply adds_arrived, grows_drop_tree.
Qed.

(** An event is ordinary where it is about an entry, or a change of the directory. *)
Definition ordinary (e : RawEvent) : bool :=
  negb (contains (re_mask e) IN_Q_OVERFLOW
        || intersects (re_mask e) (Z.lor (Z.lor IN_IGNORED IN_UNMOUNT) IN_DELETE_SELF)
        || contains (re_mask e) IN_MOVE_SELF).

Lemma adds_ordinary (e : RawEvent) a :
  t_dead (ap_table a) = false → ordinary e = true →
  (report e (ap_table a) (ap_out a)).2 `prefix_of` ap_out (apply_event a e).
Proof.
  destruct a as [m t out]. cbn [ap_table ap_out]. intros Hd He. unfold ordinary in He.
  apply negb_true_iff, orb_false_iff in He as [[H1 H2]%orb_false_iff H3].
  unfold apply_event. rewrite Hd, H1. destruct (t_by_wd t !! re_wd e) as [dir|] eqn:Hw.
  2:{ unfold report. by rewrite Hw. }
  rewrite H2, H3. destruct (report e t out) as [[[d x]|] out1]; [|done]. cbn [snd].
  destruct (negb _); [done|]. destruct (Path_join d x); [|done].
  apply (adds_apply_structural e _ (MkApplying m t out1)).
Qed.

Lemma report_adds (e : RawEvent) t out : out `prefix_of` (report e t out).2.
Proof.
  unfold report. destruct (t_by_wd t !! re_wd e) as [dir|]; [|done].
  destruct (re_name e) as [x|]; [destruct (Name_new x)|]; cbn [snd]; try done.
  - by eexists.
  - destruct (_ && _); [by eexists|done].
Qed.

Lemma adds_apply_event (e : RawEvent) a : adds a (apply_event a e).
Proof.
  destruct (ordinary e) eqn:He.
  { destruct (t_dead (ap_table a)) eqn:Hd.
    - destruct a as [m t out]. cbn in Hd. unfold adds, apply_event. by rewrite Hd.
    - unfold adds. eapply transitivity; [apply (report_adds e (ap_table a))|]. by apply adds_ordinary. }
  destruct a as [m t out]. unfold apply_event. destruct (t_dead t); [by unfold adds|].
  unfold ordinary in He. destruct (contains (re_mask e) IN_Q_OVERFLOW); cbn in He.
  { pose proof (grows_drop_all (map_to_list m).*2 (t, out)) as H1. rewrite <- drop_moving_all in H1.
    destruct (drop_moving m (t, out)) as [t1 out1]. eapply adds_arrived.
    eapply grows_trans; [exact H1|]. eapply grows_trans; [|apply grows_recheck]. by exists [Ev_Overflow]. }
  destruct (t_by_wd t !! re_wd e) as [dir|]; [|by unfold adds].
  destruct (intersects _ _); cbn in He.
  - destruct (is_root dir); [by exists [Ev_Overflow]|]. destruct (contains _ IN_IGNORED); [|by unfold adds].
    destruct (detach dir t) as [[n|] t2]; [|by unfold adds]. eapply adds_arrived, grows_drop_tree.
  - apply negb_false_iff in He. rewrite He. by unfold adds.
Qed.

Lemma adds_apply (es : list RawEvent) a : adds a (foldl apply_event a es).
Proof.
  revert a. induction es as [|e es IH]; intros a; [by unfold adds|]. cbn [foldl].
  unfold adds in *. eapply transitivity; [apply (adds_apply_event e a)|apply IH].
Qed.

(** The table as the event after [before] is applied, of a read that gave [raw]. *)
Definition table_at (raw before : list RawEvent) t : Table :=
  if existsb (λ e, structural (re_mask e)) raw then ap_table (foldl apply_event (MkApplying ∅ t []) before)
  else t.

Lemma overflow_structural mask : contains mask IN_Q_OVERFLOW = true → structural mask = true.
Proof.
  unfold contains, structural, intersects. intros Hm%Z.eqb_eq. apply orb_true_iff. left.
  apply negb_true_iff, Z.eqb_neq. intros H0.
  assert (Z.testbit (Z.land mask IN_Q_OVERFLOW) 14 = true) as H1 by (by rewrite Hm).
  rewrite Z.land_spec in H1. apply andb_true_iff in H1 as [H1 _].
  assert (Z.testbit 0 14 = true) as H2; [|done].
  rewrite <- H0, Z.land_spec, H1. reflexivity.
Qed.

(** What an event of a read means, bit by bit of its mask as the kernel numbers them: an
    entry changed ([IN_MOVED_FROM], [IN_MOVED_TO], [IN_CREATE], [IN_DELETE]) or its data
    did ([IN_MODIFY], [IN_ATTRIB]), under the directory its descriptor leads to as it is
    applied; the root itself changed; or events were lost ([IN_Q_OVERFLOW]). *)
Definition entry_changed (mask : Z) : Prop :=
  Z.testbit mask 6 = true ∨ Z.testbit mask 7 = true ∨ Z.testbit mask 8 = true ∨ Z.testbit mask 9 = true.
Definition data_changed (mask : Z) : Prop := Z.testbit mask 1 = true ∨ Z.testbit mask 2 = true.
Definition means_ordinary (e : RawEvent) t (item : EventItem) : Prop :=
  ∃ dir, t_by_wd t !! re_wd e = Some dir
    ∧ match re_name e with
      | Some x => ∃ name, Name_new x = Ok name
          ∧ (entry_changed (re_mask e) ∧ item = Ev_Entry dir name
             ∨ data_changed (re_mask e) ∧ ∃ path, Path_join dir name = Ok path ∧ item = Ev_Data path)
      | None => dir = Path_root ∧ data_changed (re_mask e) ∧ item = Ev_Data Path_root
      end.
Definition means (e : RawEvent) t (item : EventItem) : Prop :=
  Z.testbit (re_mask e) 14 = true ∧ item = Ev_Overflow
  ∨ ordinary e = true ∧ means_ordinary e t item.
Definition caused (raw : list RawEvent) t (item : EventItem) : Prop :=
  ∃ before e after, raw = before ++ e :: after ∧ t_dead (table_at raw before t) = false
    ∧ means e (table_at raw before t) item.

Lemma intersects_bit mask flags (n : Z) :
  Z.testbit mask n = true → Z.testbit flags n = true → intersects mask flags = true.
Proof.
  intros Hm Hf. unfold intersects. apply negb_true_iff, Z.eqb_neq. intros H0.
  assert (Z.testbit (Z.land mask flags) n = true) as H1 by (by rewrite Z.land_spec, Hm, Hf).
  by rewrite H0, Z.bits_0 in H1.
Qed.

Lemma overflow_bit mask : contains mask IN_Q_OVERFLOW = Z.testbit mask 14.
Proof. exact (land_eqb_bit mask 14 ltac:(lia)). Qed.

(** An ordinary event is reported. *)
Lemma means_reported (e : RawEvent) t item out : means_ordinary e t item → item ∈ (report e t out).2.
Proof.
  intros (dir & Hw & Hm). unfold report. rewrite Hw. destruct (re_name e) as [x|].
  - destruct Hm as (name & -> & Hi). cbn [snd]. apply elem_of_app. right. unfold items_for. apply elem_of_app.
    destruct Hi as [[He ->]|(Hd & path & Hj & ->)]; [left|right].
    + replace (intersects _ _) with true; [left|].
      symmetry. destruct He as [?|[?|[?|?]]]; by eapply intersects_bit.
    + replace (intersects _ _) with true; [rewrite Hj; left|].
      symmetry. destruct Hd; by eapply intersects_bit.
  - destruct Hm as (-> & Hd & ->). replace (intersects _ _) with true; [cbn; apply elem_of_app; right; left|].
    symmetry. destruct Hd; by eapply intersects_bit.
Qed.

Lemma means_applied (e : RawEvent) a item :
  t_dead (ap_table a) = false → means e (ap_table a) item → item ∈ ap_out (apply_event a e).
Proof.
  intros Hd [(Ho & ->)|(He & Hm)].
  - rewrite <- overflow_bit in Ho. destruct a as [m t out]. cbn in Hd. unfold apply_event. rewrite Hd, Ho.
    destruct (drop_moving m (t, out)) as [t1 out1].
    pose proof (grows_recheck (t1, out1 ++ [Ev_Overflow])) as [k Hk].
    destruct (recheck _) as [t2 out2]. cbn in *. rewrite Hk, !elem_of_app, list_elem_of_singleton. auto.
  - destruct (adds_ordinary e a Hd He) as [k ->]. apply elem_of_app. left. by apply means_reported.
Qed.

Lemma reports_add (es : list RawEvent) t out : out `prefix_of` foldl (λ out e, (report e t out).2) out es.
Proof.
  revert out. induction es as [|e es IH]; intros out; [done|]. cbn [foldl].
  eapply transitivity; [apply (report_adds e t)|apply IH].
Qed.

Lemma caused_reported raw t item : caused raw t item → item ∈ turn_out raw t.
Proof.
  intros (before & e & after & -> & Hd & Hm). unfold turn_out, table_at in *.
  destruct (existsb _ (before ++ e :: after)) eqn:Hs.
  - unfold apply. cbn [fst snd]. rewrite foldl_app. cbn [foldl].
    set (a := foldl apply_event _ before) in *.
    pose proof (means_applied e a item Hd Hm) as H1.
    pose proof (adds_apply after (apply_event a e)) as [k2 H2].
    destruct (foldl apply_event (apply_event a e) after) as [m t1 out1].
    pose proof (grows_drop_all (map_to_list m).*2 (t1, out1)) as [k3 H3]. rewrite <- drop_moving_all in H3.
    cbn in H2, H3. rewrite H3, H2, !elem_of_app. auto.
  - rewrite foldl_app. cbn [foldl]. destruct Hm as [(Ho & _)|(_ & Hm)].
    + exfalso. rewrite <- overflow_bit in Ho. rewrite existsb_app in Hs. apply orb_false_iff in Hs as [_ Hs]. cbn [existsb] in Hs.
      apply orb_false_iff in Hs as [Hs _].
      pose proof (overflow_structural _ Ho) as Ht. congruence.
    + match goal with |- item ∈ foldl _ ?o after => destruct (reports_add after t o) as [k ->] end.
      apply elem_of_app. left. by apply means_reported.
Qed.

Lemma attribute_items now log items : (attribute now log items).1.*1 = items.
Proof.
  revert log. induction items as [|i items IH]; intros log; [done|]. cbn [attribute].
  destruct (match origin_key i with Some _ => _ | None => _ end) as [o log1].
  specialize (IH log1). destruct (attribute now log1 items) as [rest log2]. cbn in *. by rewrite IH.
Qed.

Lemma fold_events_attribute now p log items :
  fold_events now p log items
  = (foldl (λ p io, Pending_fold p io.1 io.2) p (attribute now log items).1, (attribute now log items).2).
Proof.
  revert p log. induction items as [|i items IH]; intros p log; [done|].
  assert (fold_events now p log (i :: items)
    = fold_events now (fold_event now (p, log) i).1 (fold_event now (p, log) i).2 items) as ->
    by (unfold fold_events; cbn [foldl]; by destruct (fold_event now (p, log) i)).
  cbn [attribute]. unfold fold_event. cbn [fst snd].
  destruct (match origin_key i with Some _ => _ | None => _ end) as [o log1]. cbn. rewrite IH.
  by destruct (attribute now log1 items).
Qed.

(** ** What becomes of an item *)

Definition fold_all (p : Pending) (items : list (EventItem * option Z)) : Pending :=
  foldl (λ p io, Pending_fold p io.1 io.2) p items.

Lemma window_app cur items : window (cur ++ items) = fold_all (window cur) items.
Proof. unfold window, fold_all. by rewrite foldl_app. Qed.

Lemma event_turn_pending raw now w log :
  let r := event_turn raw now w log in
  in_pending r.1 = fold_all (in_pending w) (attribute now log (turn_out raw (in_table w))).1
  ∧ r.2 = (attribute now log (turn_out raw (in_table w))).2.
Proof.
  unfold event_turn, turn_out. destruct (existsb _ raw).
  - destruct (apply raw (in_table w, [])) as [t out]. by rewrite fold_events_attribute.
  - by rewrite fold_events_attribute.
Qed.

Lemma arm_pending dir now w held w' :
  Watches_arm dir now w = Some (held, w') → in_pending w' = fold_all (in_pending w) (arm_items dir now w).
Proof.
  unfold Watches_arm, arm_items. destruct (touch dir now (in_table w)) as [[h|] t]; cbn [fst snd].
  { intros [= <- <-]. done. }
  destruct (arm dir now (t, [])) as [[h [t' out]]|]; cbn; [|done]. intros [= <- <-].
  unfold fold_all. cbn [in_pending]. generalize (in_pending w). induction out as [|i out IH]; intros p; [done|]. cbn. apply IH.
Qed.

#[local] Arguments read_events : simpl never.

(** A window flushed to a batch, as each session gets it. *)
Definition told (seg : list (EventItem * option Z)) (b : EventBatch) : Prop :=
  (eb_items b = firsts seg
   ∨ eb_items b = [(Ev_Overflow, None)]
     ∧ (Ev_Overflow ∈ seg.*1 ∨ MAX_PENDING ≤ Z.of_nat (length (firsts seg))))
  ∧ ∀ s i o, (i, o) ∈ firsts seg → o ≠ Some s →
      ∃ ev, for_session b s = Some ev ∧ (i ∈ ev_items ev ∨ Ev_Overflow ∈ ev_items ev).
Definition all_told (h : list (EventItem * option Z)) (sent : list EventBatch) : Prop :=
  ∃ segs, h = mjoin segs ∧ Forall2 told segs sent.

Definition loop_ok (h : list (EventItem * option Z)) (l : Loop) : Prop :=
  (∃ before cur, h = before ++ cur ∧ all_told before (lp_sent l) ∧ in_pending (lp_inner l) = window cur)
  ∧ (lp_over l = false → lp_flush_at l ≤ lp_clock l + DEBOUNCE_WINDOW).

Lemma all_told_snoc h sent seg b : all_told h sent → told seg b → all_told (h ++ seg) (sent ++ [b]).
Proof.
  intros (segs & -> & Hs) Hb. exists (segs ++ [seg]). split.
  - by rewrite join_app; cbn; rewrite app_nil_r.
  - apply Forall2_app; [done|]. by constructor.
Qed.

(** A flush tells all that was folded. *)
Lemma flush_tells before cur l :
  all_told before (lp_sent l) → in_pending (lp_inner l) = window cur →
  all_told (before ++ cur) (lp_sent (flush l)) ∧ in_pending (lp_inner (flush l)) = Pending_default.
Proof.
  intros Ht Hp. unfold flush. rewrite Hp. destruct (decide (cur = [])) as [->|Hne].
  - cbn. by rewrite !app_nil_r.
  - destruct (window_reports_everything cur Hne) as (b & -> & Hb & Hs). cbn.
    split; [|done]. apply all_told_snoc; [done|]. split; [naive_solver|done].
Qed.

Lemma with_events_pending tn l :
  ready_stop (tn_polled tn) = false → tn_polled tn ≠ Po_Failed →
  in_pending (lp_inner (with_events tn l)) = fold_all (in_pending (lp_inner l)) (turn_items tn l)
  ∧ lp_sent (with_events tn l) = lp_sent l ∧ lp_flush_at (with_events tn l) = lp_flush_at l.
Proof.
  intros Hs Hf. unfold with_events, turn_items. destruct (tn_polled tn) as [e s| |]; [|done|done].
  cbn [ready_stop ready_events] in *. subst s. destruct e; [|done].
  destruct (event_turn_pending (read_events (tn_reads tn)) (tn_folded tn) (lp_inner l) (lp_log l)) as [Hp _].
  destruct (event_turn _ _ _ _) as [w log]. cbn [fst in_pending lp_inner lp_sent lp_flush_at] in *.
  split_and!; [exact Hp|reflexivity|reflexivity].
Qed.

Lemma poll_failed_tells before cur tn l :
  all_told before (lp_sent l) → in_pending (lp_inner l) = window cur →
  all_told (before ++ cur ++ [(Ev_Overflow, None)]) (lp_sent (poll_failed tn l))
  ∧ in_pending (lp_inner (poll_failed tn l)) = Pending_default.
Proof.
  intros Ht Hp. unfold poll_failed. rewrite fold_events_attribute.
  set (l' := MkLoop _ _ _ _ _ _). apply (flush_tells before (cur ++ [(Ev_Overflow, None)]) l'); [done|].
  cbn. rewrite Hp. by rewrite window_app.
Qed.

(** A turn flushes all where the clock has reached the deadline, or [poll] fails. *)
Definition flushes (tn : LoopTurn) (l : Loop) : bool :=
  match tn_polled tn with
  | Po_Failed => true
  | p => negb (ready_stop p) && (lp_flush_at l <=? tn_checked tn)
  end.

Lemma turn_tells before cur tn l :
  all_told before (lp_sent l) → in_pending (lp_inner l) = window cur →
  if flushes tn l then
    all_told (before ++ cur ++ turn_items tn l) (lp_sent (run_turn tn l))
    ∧ in_pending (lp_inner (run_turn tn l)) = Pending_default
  else all_told before (lp_sent (run_turn tn l))
       ∧ in_pending (lp_inner (run_turn tn l)) = window (cur ++ turn_items tn l).
Proof.
  intros Ht Hp.
  assert (tn_polled tn = Po_Failed ∨ tn_polled tn ≠ Po_Failed) as [Hf|Hf] by (destruct (tn_polled tn); auto).
  { unfold flushes, turn_items, run_turn. rewrite Hf. cbn [lp_sent lp_inner at_clock].
    by apply poll_failed_tells. }
  assert (flushes tn l = negb (ready_stop (tn_polled tn)) && (lp_flush_at l <=? tn_checked tn)) as ->
    by (unfold flushes; by destruct (tn_polled tn)).
  assert (run_turn tn l = at_clock (tn_set tn)
    (if ready_stop (tn_polled tn) then stopped l else flush_due tn (with_events tn l))) as ->
    by (unfold run_turn; by destruct (tn_polled tn)).
  destruct (ready_stop (tn_polled tn)) eqn:Hs; cbn [negb andb at_clock lp_sent lp_inner].
  { split; [exact Ht|]. unfold turn_items. destruct (tn_polled tn); cbn in Hs; try done; subst; cbn; by rewrite app_nil_r. }
  destruct (with_events_pending tn l Hs Hf) as (Hw & Hsent & Hat). unfold flush_due. rewrite Hat.
  rewrite Hp, <- window_app in Hw. rewrite <- Hsent in Ht.
  destruct (lp_flush_at l <=? tn_checked tn); [|done].
  by apply (flush_tells before (cur ++ turn_items tn l) (MkLoop _ _ _ _ _ _)).
Qed.

Lemma turn_clock tn l : lp_clock (run_turn tn l) = tn_set tn.
Proof. done. Qed.

Lemma turn_deadline tn l :
  lp_flush_at l ≤ lp_clock l + DEBOUNCE_WINDOW → lp_clock l ≤ tn_set tn →
  lp_over (run_turn tn l) = false → lp_flush_at (run_turn tn l) ≤ lp_clock (run_turn tn l) + DEBOUNCE_WINDOW.
Proof.
  intros Hd Hc. rewrite turn_clock. unfold run_turn, at_clock. cbn [lp_over lp_flush_at].
  assert (lp_flush_at (flush_due tn (with_events tn l)) ≤ tn_set tn + DEBOUNCE_WINDOW) as Hok.
  { unfold flush_due, flush, with_events.
    destruct (ready_events _); [destruct (event_turn _ _ _ _)|]; cbn [lp_flush_at lp_inner];
      destruct (_ <=? _); cbn; try destruct (Pending_flush _); cbn [lp_flush_at]; lia. }
  destruct (tn_polled tn) as [e s| |]; [destruct s; cbn [ready_stop]|done|].
  - intros [=].
  - done.
  - unfold poll_failed, flush. destruct (fold_events _ _ _ _). destruct (Pending_flush _). intros [=].
Qed.

Lemma loop_ok_step h l items l' : loop_step l items l' → loop_ok h l → loop_ok (h ++ items) l'.
Proof.
  intros Hs [(before & cur & -> & Ht & Hp) Hd]. destruct Hs as [tn Ho Hc Hc'|dir now held w Hc Ha|mark| |].
  - split; [|intros; apply turn_deadline; [by apply Hd|lia|done]].
    pose proof (turn_tells before cur tn l Ht Hp) as Htn. rewrite <- app_assoc.
    destruct (flushes tn l), Htn as [Htn Hpn].
    + exists (before ++ cur ++ turn_items tn l), []. by rewrite app_nil_r.
    + by exists before, (cur ++ turn_items tn l).
  - split; [|cbn; intros; specialize (Hd ltac:(done)); lia].
    exists before, (cur ++ arm_items dir now (lp_inner l)). rewrite <- app_assoc. split; [done|]. split; [done|].
    cbn. rewrite (arm_pending dir now (lp_inner l) held w Ha), Hp. by rewrite window_app.
  - rewrite app_nil_r. split; [by exists before, cur|done].
  - rewrite app_nil_r. split; [by exists before, cur|cbn; intros; specialize (Hd ltac:(done)); lia].
  - rewrite app_nil_r. split; [by exists before, cur|cbn; intros; specialize (Hd ltac:(done)); lia].
Qed.

Lemma loop_ok_run w now h l :
  in_pending w = Pending_default → loop_run (Loop_new w now) h l → loop_ok h l.
Proof.
  intros Hw Hr. remember (Loop_new w now) as l0 eqn:H0. induction Hr as [|h l1 items l2 _ IH Hs].
  - subst l0. split; [|cbn; unfold DEBOUNCE_WINDOW; lia]. exists [], []. split; [done|].
    split; [by exists []|done].
  - by eapply loop_ok_step; [|apply IH].
Qed.

End loop.

(** ** Properties *)

(** C16: whatever the kernel reports is told.  However the event thread's turns, the
    requests that watch directories, their guards and the changes they record
    interleave: of all the events the kernel gives a turn, read after read until it has
    no more or 64 reads are made, what each means, under the directory its descriptor
    leads to by then, or that events were lost, is folded in that turn; everything folded has gone out in order, a window to a batch, each session
    being sent every item of it that did not first come as its own change, or the
    overflow that covers it, or waits in the window, in order; and nothing waits longer
    than [DEBOUNCE_WINDOW] once the thread comes round, nor past a failure of [poll],
    which tells every session to forget everything. *)
Theorem changes_are_told {W} `{Countable W} `{HMk : !Marks W} (w : @Inner W _ _ HMk) now h l :
  loop_run (Loop_new w now) h l → in_pending w = Pending_default →
  (∀ tn n item, tn_polled tn = Po_Ready true false → drained_by (tn_reads tn) n →
     caused (given (tn_reads tn) n) (in_table (lp_inner l)) item → item ∈ (turn_items tn l).*1)
  ∧ (∃ before cur, h = before ++ cur ∧ all_told before (lp_sent l) ∧ in_pending (lp_inner l) = window cur)
  ∧ ∀ tn, lp_over l = false →
      (ready_stop (tn_polled tn) = false ∧ lp_clock l + DEBOUNCE_WINDOW ≤ tn_checked tn
       ∨ tn_polled tn = Po_Failed) →
      all_told (h ++ turn_items tn l) (lp_sent (run_turn tn l))
      ∧ (tn_polled tn = Po_Failed → lp_over (run_turn tn l) = true ∧ Ev_Overflow ∈ (turn_items tn l).*1).
Proof.
  intros Hr Hw. destruct (loop_ok_run w now h l Hw Hr) as [(before & cur & Hh & Ht & Hp) Hd].
  split; [|split; [by exists before, cur|]].
  - intros tn n item He Hn Hc%caused_reported. unfold turn_items. rewrite He. cbn [ready_events ready_stop].
    by rewrite attribute_items, (read_events_all _ n Hn).
  - intros tn Ho Hf. specialize (Hd Ho).
    assert (flushes tn l = true) as Hfl.
    { unfold flushes. destruct Hf as [[Hs Hf]| ->]; [|done].
      destruct (tn_polled tn); cbn [ready_stop] in *; [subst|..|done]; cbn; lia. }
    pose proof (turn_tells before cur tn l Ht Hp) as Htn. rewrite Hfl in Htn. destruct Htn as [Htn _].
    split; [by rewrite Hh, <- app_assoc|]. intros Hpf. unfold run_turn, turn_items. rewrite Hpf.
    split; [|left]. unfold at_clock, poll_failed, flush. destruct (fold_events _ _ _ _).
    by destruct (Pending_flush _).
Qed.

#[local] Existing Instance Kernel.marks.

(** A file is made in [a], which is watched as 2; the window goes out at the deadline. *)
Definition demo_event : RawEvent (W:=Z) := MkRaw 2 IN_CREATE 0 (Some [Byte.x63]).
Definition demo_turn (now : Z) : LoopTurn (W:=Z) :=
  MkTurn (Po_Ready true false) (λ i, if (i =? 0)%nat then RI_Events [demo_event] else RI_Again) now now now.
Definition demo_loop : Loop (W:=Z) := Loop_new (MkInner Kernel.demo_armed Pending_default) 0.
Definition demo_run : Loop (W:=Z) := run_turn (demo_turn 5) demo_loop.

Lemma changes_are_told_witness :
  Ev_Entry (MkPath [Kernel.na]) Kernel.nc ∈ (turn_items (demo_turn 100000005) demo_run).*1
  ∧ all_told (([] ++ turn_items (demo_turn 5) demo_loop) ++ turn_items (demo_turn 100000005) demo_run)
      (lp_sent (run_turn (demo_turn 100000005) demo_run)).
Proof.
  destruct (changes_are_told (W:=Z) (HMk:=Kernel.marks) (MkInner Kernel.demo_armed Pending_default) 0
              ([] ++ turn_items (demo_turn 5) demo_loop) demo_run) as (H1 & _ & H3).
  - eapply lr_step; [apply lr_done|]. apply ls_turn.
    + reflexivity.
    + cbn. lia.
    + cbn. lia.
  - reflexivity.
  - split.
    + apply (H1 _ 1%nat); [reflexivity| |].
      { split; [|left; split; [lia|by left]]. intros i Hi. replace i with 0%nat by lia. done. }
      exists [], demo_event, []. split; [vm_compute; reflexivity|].
      split; [vm_compute; reflexivity|]. right. split; [vm_compute; reflexivity|].
      exists (MkPath [Kernel.na]). split; [vm_compute; reflexivity|]. exists Kernel.nc.
      split; [vm_compute; reflexivity|]. left. split; [|reflexivity]. right; right; left. reflexivity.
    + apply H3; [vm_compute; reflexivity|]. left. split; [reflexivity|]. vm_compute. discriminate.
Defined.

(** The session that did not make it is told of the file once. *)
Example demo_told :
  (λ b, ev_items <$> for_session b 7) <$> lp_sent (run_turn (demo_turn 100000005) demo_run)
  = [Some [Ev_Entry (MkPath [Kernel.na]) Kernel.nc]].
Proof. vm_compute. reflexivity. Qed.
