(* ===== verification/Dirents.v ===== *)
(** * Directory listings ([crates/server/src/dirents.rs])

    The records [getdents64] fills a buffer with, and a page of a listing built
    from them.

    The parser's loop recurses on fuel, the length of the buffer, which is enough
    since every record advances by at least its header.  The system calls and the
    description of an entry are the environment: [getdents64] is the list of what
    each call came to, and [attr_entry] a function from a name to its attributes
    or errno.  Native-endian integers are little-endian. *)

From S2P Require Import Prelude Types Msg.
From Stdlib Require Import Strings.Byte.

Record RawDirent := MkRaw { rd_off : Z; rd_name : list byte }.

Definition HEADER_LEN : nat := 8 + 8 + 2 + 1.

(** The bytes before the first NUL, all of them if there is none. *)
Fixpoint until_nul (l : list byte) : list byte :=
  match l with
  | [] => []
  | b :: l => if bool_decide (b = x00) then [] else b :: until_nul l
  end.

(** The loop, [rec] being [&buf[pos..]]. *)
Fixpoint parse_from (fuel : nat) (rec : list byte) : list RawDirent :=
  match fuel with
  | O => []
  | S fuel =>
      if (HEADER_LEN <=? length rec)%nat then
        let off := of_le_bytes (take 8 (drop 8 rec)) in
        let reclen := Z.to_nat (of_le_bytes (take 2 (drop 16 rec))) in
        if (reclen <? HEADER_LEN)%nat || (length rec <? reclen)%nat then []
        else
          let name_area := take (reclen - HEADER_LEN) (drop HEADER_LEN rec) in
          MkRaw off (until_nul name_area) :: parse_from fuel (drop reclen rec)
      else []
  end.

Definition parse (buf : list byte) : list RawDirent := parse_from (length buf) buf.

(** Errno values of [libc]. *)
Definition ENOENT : Z := 2.
Definition ENOMEM : Z := 12.
Definition EXDEV : Z := 18.
Definition ENFILE : Z := 23.
Definition EMFILE : Z := 24.
Definition ESTALE_ : Z := 116.

(** Whether the listing goes on without an entry it failed to describe. *)
Definition entry_failure (e : Z) : result Z () :=
  if (e =? ENOENT) || (e =? ESTALE_) then Ok ()
  else if e =? EXDEV then Ok ()
  else if (e =? EMFILE) || (e =? ENFILE) || (e =? ENOMEM) then Err e
  else Ok ().

(** [wire.rs]: [usize::next_multiple_of(8)] and the wire size of an entry. *)
Definition next_multiple_of8 (n : Z) : Z := (n + 7) / 8 * 8.
Definition ENTRY_ATTR_BYTES : Z := 128.
Definition dir_entry_bytes (name_len : Z) (attr : option Attr) : Z :=
  let attr := match attr with
              | None => 0
              | Some attr =>
                  let names := match a_xattr_names attr with
                               | None => 0
                               | Some names =>
                                   foldl (λ acc n, acc + (8 + next_multiple_of8 (Z.of_nat (length n))))
                                     0 names
                               end in
                  ENTRY_ATTR_BYTES
                  + next_multiple_of8 (Z.of_nat (length (handle (a_identity attr)))) + names
              end in
  32 + next_multiple_of8 name_len + attr.

Record Listing := MkListing { ls_entries : list DirEntry; ls_end : bool }.

Section read_dir.
Context (attr_entry : Name → result Z Attr).

(** What one record becomes: an entry, nothing, or the end of the listing. *)
Definition describe (raw : RawDirent) : result Z (option DirEntry) :=
  let name := rd_name raw in
  if bool_decide (name = [dot]) || bool_decide (name = [dot; dot]) then
    Ok (Some (MkDirEntry (rd_off raw) name None))
  else match Name_new name with
       | Err _ => Ok None
       | Ok component =>
           match attr_entry component with
           | Ok attr => Ok (Some (MkDirEntry (rd_off raw) name (Some attr)))
           | Err e => _ ← entry_failure e; Ok None
           end
       end.

(** One buffer's records: the entries, the budget used, and whether it is spent. *)
Fixpoint take_records (max_bytes used : Z) (entries : list DirEntry) (raws : list RawDirent)
  : result Z (list DirEntry * Z * bool) :=
  match raws with
  | [] => Ok (entries, used, false)
  | raw :: raws =>
      entry ← describe raw;
      match entry with
      | None => take_records max_bytes used entries raws
      | Some entry =>
          let used := used + dir_entry_bytes (Z.of_nat (length (de_name entry))) (de_attr entry) in
          let entries := entries ++ [entry] in
          if max_bytes <=? used then Ok (entries, used, true)
          else take_records max_bytes used entries raws
      end
  end.

(** The calls of [getdents64]; [None] if they end before the listing does. *)
Fixpoint read_calls (max_bytes used : Z) (entries : list DirEntry)
    (calls : list (result Z (list byte))) : option (result Z Listing) :=
  match calls with
  | [] => None
  | Err e :: _ => Some (Err e)
  | Ok [] :: _ => Some (Ok (MkListing entries true))
  | Ok buf :: calls =>
      match take_records max_bytes used entries (parse buf) with
      | Err e => Some (Err e)
      | Ok (entries, used, true) => Some (Ok (MkListing entries false))
      | Ok (entries, used, false) => read_calls max_bytes used entries calls
      end
  end.

(** [lseek] is what the seek to the cookie came to. *)
Definition read_dir (lseek : result Z ()) (max_bytes : Z) (calls : list (result Z (list byte)))
  : option (result Z Listing) :=
  match lseek with
  | Err e => Some (Err e)
  | Ok _ => read_calls max_bytes 0 [] calls
  end.
End read_dir.

(** ** The kernel's records *)

(** A [linux_dirent64] as the kernel writes it: inode number, cookie, record length,
    type, and the name with its NUL, padded. *)
Definition encode_dirent (ino typ : Z) (pad : list byte) (d : RawDirent) : list byte :=
  let reclen := (HEADER_LEN + length (rd_name d) + 1 + length pad)%nat in
  le_bytes 8 ino ++ le_bytes 8 (rd_off d) ++ le_bytes 2 (Z.of_nat reclen) ++ le_bytes 1 typ
  ++ rd_name d ++ x00 :: pad.

Definition dirent_ok (pad : list byte) (d : RawDirent) : Prop :=
  is_u64 (rd_off d) ∧ x00 ∉ rd_name d
  ∧ Z.of_nat (HEADER_LEN + length (rd_name d) + 1 + length pad) < 2 ^ 16.

Lemma until_nul_name name rest : x00 ∉ name → until_nul (name ++ x00 :: rest) = name.
Proof.
  induction name as [|b name IH]; intros Hn; simpl; [done|].
  rewrite not_elem_of_cons in Hn. destruct Hn as [Hb Hn].
  rewrite bool_decide_eq_false_2 by done. by rewrite IH.
Qed.

Lemma parse_fuel fuel rec : (length rec ≤ fuel)%nat → ∀ fuel', (length rec ≤ fuel')%nat →
  parse_from fuel rec = parse_from fuel' rec.
Proof.
  revert rec. induction fuel as [|fuel IH]; intros rec Hf fuel' Hf'.
  - destruct rec; [|simpl in Hf; lia]. by destruct fuel'.
  - destruct fuel' as [|fuel']; [destruct rec; [done|simpl in Hf'; lia]|]. cbn [parse_from].
    destruct (Nat.leb_spec HEADER_LEN (length rec)); [|done].
    destruct (_ || _) eqn:Hr; [done|]. f_equal.
    apply orb_false_iff in Hr as [Hr%Nat.ltb_ge _]. unfold HEADER_LEN in *.
    apply IH; rewrite length_drop; lia.
Qed.

Lemma length_encode_dirent ino typ pad d :
  length (encode_dirent ino typ pad d) = (HEADER_LEN + length (rd_name d) + 1 + length pad)%nat.
Proof.
  unfold encode_dirent. rewrite !length_app, !length_le_bytes. simpl. unfold HEADER_LEN. lia.
Qed.

(** Parsing takes the first record off. *)
Lemma parse_encode ino typ pad d buf :
  dirent_ok pad d → parse (encode_dirent ino typ pad d ++ buf) = d :: parse buf.
Proof.
  intros (Hoff & Hname & Hlen). set (reclen := (HEADER_LEN + length (rd_name d) + 1 + length pad)%nat) in *.
  pose proof (length_encode_dirent ino typ pad d) as Hel. fold reclen in Hel.
  unfold parse. rewrite length_app, Hel.
  destruct (reclen + length buf)%nat as [|fuel] eqn:Hfuel; [unfold reclen, HEADER_LEN in Hfuel; lia|].
  cbn [parse_from]. rewrite length_app, Hel.
  assert (HEADER_LEN ≤ reclen)%nat as Hge by (unfold reclen; lia).
  rewrite (proj2 (Nat.leb_le _ _)) by lia.
  assert (drop 8 (encode_dirent ino typ pad d ++ buf)
          = le_bytes 8 (rd_off d) ++ le_bytes 2 (Z.of_nat reclen) ++ le_bytes 1 typ
            ++ rd_name d ++ x00 :: pad ++ buf) as H8.
  { unfold encode_dirent. rewrite <- !app_assoc.
    rewrite drop_app_length' by by rewrite length_le_bytes. done. }
  assert (drop 16 (encode_dirent ino typ pad d ++ buf)
          = le_bytes 2 (Z.of_nat reclen) ++ le_bytes 1 typ ++ rd_name d ++ x00 :: pad ++ buf) as H16.
  { replace 16%nat with (8 + 8)%nat by done. rewrite <- drop_drop, H8.
    apply drop_app_length'. by rewrite length_le_bytes. }
  assert (drop HEADER_LEN (encode_dirent ino typ pad d ++ buf) = rd_name d ++ x00 :: pad ++ buf) as H19.
  { replace HEADER_LEN with (16 + 3)%nat by done. rewrite <- drop_drop, H16. rewrite app_assoc.
    apply drop_app_length'. by rewrite length_app, !length_le_bytes. }
  rewrite H8, H16, H19. rewrite !take_app_length' by by rewrite length_le_bytes.
  rewrite (of_le_bytes_le 8) by (change (256 ^ Z.of_nat 8) with (2 ^ 64); exact Hoff). 
  rewrite (of_le_bytes_le 2) by (change (256 ^ Z.of_nat 2) with (2 ^ 16); lia).
  rewrite Nat2Z.id.
  replace ((reclen <? HEADER_LEN)%nat || (reclen + length buf <? reclen)%nat) with false.
  2:{ symmetry. apply orb_false_iff. split; apply Nat.ltb_ge; lia. }
  rewrite app_comm_cons, app_assoc, take_app_length' by
    (rewrite length_app; unfold reclen; simpl; lia).
  rewrite until_nul_name by done. rewrite drop_app_length' by done.
  destruct d as [off name]; simpl. f_equal. apply parse_fuel; [lia|done].
Qed.

(** ** A page of a directory *)

(** A record with what the server does not use of it. *)
Record KernelDirent := MkKD { kd_ino : Z; kd_typ : Z; kd_pad : list byte; kd_raw : RawDirent }.
Definition kd_encode (d : KernelDirent) : list byte :=
  encode_dirent (kd_ino d) (kd_typ d) (kd_pad d) (kd_raw d).
Definition kd_ok (d : KernelDirent) : Prop := dirent_ok (kd_pad d) (kd_raw d).

(** A directory as the kernel hands it out: a buffer per call, then nothing. *)
Definition calls_of (pages : list (list KernelDirent)) : list (result Z (list byte)) :=
  ((λ ds, Ok (concat (kd_encode <$> ds))) <$> pages) ++ [Ok []].

Lemma parse_encode_all ds :
  Forall kd_ok ds → parse (concat (kd_encode <$> ds)) = kd_raw <$> ds.
Proof.
  induction 1 as [|d ds Hd _ IH]; [done|]. rewrite !fmap_cons. cbn [concat].
  unfold kd_encode at 1. by rewrite parse_encode, IH.
Qed.

Lemma calls_of_cons ds pages :
  calls_of (ds :: pages) = Ok (concat (kd_encode <$> ds)) :: calls_of pages.
Proof. done. Qed.

Lemma encode_nonempty ds : ds ≠ [] → concat (kd_encode <$> ds) ≠ [].
Proof.
  destruct ds as [|d ds]; [done|]. intros _ Heq%(f_equal length).
  rewrite fmap_cons in Heq. cbn [concat] in Heq. rewrite length_app in Heq.
  unfold kd_encode in Heq at 1. rewrite length_encode_dirent in Heq. simpl in Heq. lia.
Qed.

Section page.
Context (attr_entry : Name → result Z Attr) (max_bytes : Z).

(** A name a request can carry, the dots aside. *)
Definition carriable (name : list byte) : Prop :=
  name ≠ [] ∧ (length name ≤ 255)%nat ∧ slash ∉ name ∧ x00 ∉ name ∧ name ≠ [dot] ∧ name ≠ [dot; dot].

(** What a page lists for a record, and the failure of one that ends it: out of memory
    (12), or of file descriptors in the process (24) or on the host (23). *)
Definition of_a_resource (e : Z) : Prop := e = 12 ∨ e = 23 ∨ e = 24.
Inductive listed (raw : RawDirent) : list DirEntry → Prop :=
| li_dot : rd_name raw = [dot] ∨ rd_name raw = [dot; dot] → listed raw [MkDirEntry (rd_off raw) (rd_name raw) None]
| li_described attr : carriable (rd_name raw) → attr_entry (MkName (rd_name raw)) = Ok attr →
    listed raw [MkDirEntry (rd_off raw) (rd_name raw) (Some attr)]
| li_skipped e : carriable (rd_name raw) → attr_entry (MkName (rd_name raw)) = Err e → ¬ of_a_resource e → listed raw []
| li_uncarried : rd_name raw ≠ [dot] → rd_name raw ≠ [dot; dot] → ¬ carriable (rd_name raw) → listed raw [].
Definition exhausted (raw : RawDirent) (e : Z) : Prop :=
  carriable (rd_name raw) ∧ attr_entry (MkName (rd_name raw)) = Err e ∧ of_a_resource e.

Lemma Name_new_carriable name :
  match Name_new name with Ok n => n = MkName name ∧ carriable name | Err _ => ¬ carriable name end.
Proof.
  destruct (Name_new name) as [n|] eqn:E.
  - apply Name_new_spec in E as [-> Hv]. by split.
  - intros Hc. assert (Name_new name = Ok (MkName name)) as H; [|congruence]. by apply Name_new_spec.
Qed.

Lemma describe_listed raw :
  match describe attr_entry raw with
  | Ok (Some e) => listed raw [e]
  | Ok None => listed raw []
  | Err e => exhausted raw e
  end.
Proof.
  unfold describe. destruct (decide (rd_name raw = [dot])) as [Hd|Hd].
  { rewrite bool_decide_eq_true_2 by done. cbn. apply li_dot. by left. }
  destruct (decide (rd_name raw = [dot; dot])) as [Hdd|Hdd].
  { rewrite orb_comm, bool_decide_eq_true_2 by done. cbn. apply li_dot. by right. }
  rewrite !bool_decide_eq_false_2 by done. cbn [orb]. pose proof (Name_new_carriable (rd_name raw)) as Hn.
  destruct (Name_new (rd_name raw)) as [n|]; [|by apply li_uncarried]. destruct Hn as [-> Hc].
  destruct (attr_entry _) as [attr|e] eqn:Ha; [by apply li_described|]. unfold entry_failure.
  assert (of_a_resource e ↔ (e =? EMFILE) || (e =? ENFILE) || (e =? ENOMEM) = true) as Hres.
  { unfold of_a_resource, EMFILE, ENFILE, ENOMEM. rewrite !orb_true_iff, !Z.eqb_eq. tauto. }
  destruct ((e =? ENOENT) || (e =? ESTALE_)) eqn:E1; cbn [mbind result_bind].
  { apply (li_skipped _ e); [done..|]. rewrite orb_true_iff, !Z.eqb_eq in E1. unfold of_a_resource, ENOENT, ESTALE_ in *. lia. }
  destruct (Z.eqb_spec e EXDEV) as [->|].
  { apply (li_skipped _ EXDEV); [done..|]. unfold of_a_resource, EXDEV. lia. }
  destruct (_ || _ || _); cbn [mbind result_bind].
  - split; [done|]. split; [done|]. by apply Hres.
  - apply (li_skipped _ e); [done..|]. by rewrite Hres.
Qed.

(** The bytes an entry takes in a reply: a struct and its texts, each in whole words of
    eight bytes. *)
Definition words8 {A} (l : list A) : Z := len_z l + (- len_z l) mod 8.
Definition entry_bytes (e : DirEntry) : Z :=
  32 + words8 (de_name e)
  + match de_attr e with
    | None => 0
    | Some attr => 128 + words8 (handle (a_identity attr))
                   + match a_xattr_names attr with
                     | None => 0
                     | Some names => sum_z (λ n, 8 + words8 n) names
                     end
    end.
Definition bytes_of (es : list DirEntry) : Z := sum_z entry_bytes es.

Lemma words8_multiple {A} (l : list A) : next_multiple_of8 (len_z l) = words8 l.
Proof. unfold next_multiple_of8, words8. Z.div_mod_to_equations. lia. Qed.
Lemma dir_entry_bytes_spec e : dir_entry_bytes (len_z (de_name e)) (de_attr e) = entry_bytes e.
Proof.
  unfold dir_entry_bytes, entry_bytes, ENTRY_ATTR_BYTES. rewrite words8_multiple. f_equal.
  destruct (de_attr e) as [attr|]; [|done]. rewrite <- (words8_multiple (handle _)). f_equal.
  destruct (a_xattr_names attr) as [names|]; [|done].
  assert (∀ acc, foldl (λ acc n, acc + (8 + next_multiple_of8 (Z.of_nat (length n)))) acc names
                 = acc + sum_z (λ n, 8 + words8 n) names) as H; [|by rewrite H].
  induction names as [|n names IH]; intros acc; [rewrite sum_z_nil; cbn; lia|].
  cbn [foldl]. rewrite IH, sum_z_cons. pose proof (words8_multiple n) as Hw. unfold len_z in Hw. lia.
Qed.

(** The page so far has not spent its budget, and so goes on; or its last entry spent it. *)
Definition in_budget (es : list DirEntry) : Prop := es = [] ∨ bytes_of es < max_bytes.
Definition page_filled (es : list DirEntry) : Prop :=
  ∃ before e, es = before ++ [e] ∧ in_budget before ∧ max_bytes ≤ bytes_of es.

Lemma take_records_spec raws : ∀ used es,
  used = bytes_of es → in_budget es →
  match take_records attr_entry max_bytes used es raws with
  | Err e => ∃ n raw ess, raws !! n = Some raw ∧ exhausted raw e ∧ Forall2 listed (take n raws) ess ∧ in_budget (es ++ mjoin ess)
  | Ok (es', used', spent) =>
      used' = bytes_of es' ∧ ∃ n ess, Forall2 listed (take n raws) ess ∧ es' = es ++ mjoin ess ∧ (n <= length raws)%nat
        ∧ if spent then page_filled es' else n = length raws ∧ in_budget es'
  end.
Proof.
  induction raws as [|raw raws IH]; intros used es Hu Hb; cbn [take_records].
  { split; [done|]. exists 0%nat, []. cbn. rewrite app_nil_r. by split_and!. }
  pose proof (describe_listed raw) as Hd. destruct (describe attr_entry raw) as [[e|]|err]; cbn [mbind result_bind].
  - assert (used + dir_entry_bytes (Z.of_nat (length (de_name e))) (de_attr e) = bytes_of (es ++ [e])) as ->.
    { pose proof (dir_entry_bytes_spec e) as H. unfold len_z in H. rewrite H, Hu. unfold bytes_of.
      rewrite sum_z_app, sum_z_cons, sum_z_nil. lia. }
    destruct (Z.leb_spec max_bytes (bytes_of (es ++ [e]))) as [Hm|Hm].
    + split; [done|]. exists 1%nat, [[e]]. cbn. split; [by repeat constructor|]. split; [done|]. split; [lia|]. by exists es, e.
    + specialize (IH _ (es ++ [e]) eq_refl (or_intror Hm)).
      destruct (take_records _ _ _ _ _) as [[[es' u'] spent]|err].
      * destruct IH as (-> & n & ess & Hl & -> & Hn & Hspent). split; [done|]. exists (S n), ([e] :: ess).
        cbn [take mjoin list_join app length]. rewrite <- (assoc_L (++)) in *. split; [by constructor|]. split; [done|].
        split; [lia|]. destruct spent; [done|]. destruct Hspent. split; [lia|done].
      * destruct IH as (n & raw' & ess & Hn & He & Hl & Hbb). exists (S n), raw', ([e] :: ess).
        rewrite <- (assoc_L (++)) in Hbb. split_and!; [done|done|by constructor|exact Hbb].
  - specialize (IH used es Hu Hb). destruct (take_records _ _ _ _ _) as [[[es' u'] spent]|err].
    + destruct IH as (-> & n & ess & Hl & -> & Hn & Hspent). split; [done|]. exists (S n), ([] :: ess).
      split; [by constructor|]. split; [done|]. cbn [length]. split; [lia|]. destruct spent; [done|]. destruct Hspent. split; [lia|done].
    + destruct IH as (n & raw' & ess & Hn & He & Hl & Hbb). exists (S n), raw', ([] :: ess).
      split_and!; [done|done|by constructor|exact Hbb].
  - exists 0%nat, raw, []. cbn. rewrite app_nil_r. by split_and!.
Qed.

(** What a call of the whole comes to, and a listing of some first records and then more. *)
Definition page_of (raws : list RawDirent) (es : list DirEntry) (r : result Z Listing) : Prop :=
  match r with
  | Err e => ∃ n raw ess, raws !! n = Some raw ∧ exhausted raw e ∧ Forall2 listed (take n raws) ess ∧ in_budget (es ++ mjoin ess)
  | Ok l => ∃ n ess, Forall2 listed (take n raws) ess ∧ ls_entries l = es ++ mjoin ess ∧ (n <= length raws)%nat
              ∧ if ls_end l then n = length raws ∧ in_budget (ls_entries l) else page_filled (ls_entries l)
  end.

Lemma page_of_app raws ess raws' es r : Forall2 listed raws ess →
  page_of raws' (es ++ mjoin ess) r → page_of (raws ++ raws') es r.
Proof.
  intros Hl. assert (∀ n, take (length raws + n) (raws ++ raws') = raws ++ take n raws') as Htake.
  { intros n. rewrite take_app_ge by lia. do 2 f_equal. lia. }
  destruct r as [l|e]; cbn [page_of].
  - intros (n & ess' & Hl' & -> & Hn & Hend). exists (length raws + n)%nat, (ess ++ ess').
    rewrite Htake, join_app, (assoc_L (++)), length_app. split; [by apply Forall2_app|]. split; [done|]. split; [lia|].
    destruct (ls_end l); [|done]. destruct Hend as [-> Hbud]. by split.
  - intros (n & raw & ess' & Hn & He & Hl' & Hbud). exists (length raws + n)%nat, raw, (ess ++ ess').
    rewrite Htake, join_app, (assoc_L (++)). split; [rewrite lookup_app_r by lia; by replace (_ + n - _)%nat with n by lia|].
    split; [done|]. split; [by apply Forall2_app|done].
Qed.

Lemma read_calls_spec pages : ∀ used es,
  Forall (λ ds, ds ≠ [] ∧ Forall kd_ok ds) pages → used = bytes_of es → in_budget es →
  ∃ r, read_calls attr_entry max_bytes used es (calls_of pages) = Some r ∧ page_of (kd_raw <$> concat pages) es r.
Proof.
  induction pages as [|ds pages IH]; intros used es Hall Hu Hb.
  { eexists. split; [reflexivity|]. exists 0%nat, []. cbn. rewrite app_nil_r. by split_and!. }
  apply Forall_cons in Hall as [[Hne Hds] Hall]. rewrite calls_of_cons. cbn [read_calls].
  pose proof (encode_nonempty ds Hne) as Hen.
  destruct (concat (kd_encode <$> ds)) as [|b buf] eqn:Hbuf; [done|].
  rewrite <- Hbuf, parse_encode_all by done. cbn [concat]. rewrite fmap_app.
  pose proof (take_records_spec (kd_raw <$> ds) used es Hu Hb) as Ht.
  destruct (take_records _ _ _ _ _) as [[[es' u'] []]|e].
  - destruct Ht as (-> & n & ess & Hl & -> & Hn & Hfull). eexists. split; [reflexivity|]. exists n, ess.
    cbn [ls_entries ls_end]. rewrite take_app_le by done. rewrite length_app. split_and!; [done|done|lia|done].
  - destruct Ht as (-> & n & ess & Hl & -> & _ & -> & Hbud). rewrite take_ge in Hl by done.
    destruct (IH _ (es ++ mjoin ess) Hall eq_refl Hbud) as (r & -> & Hr). exists r. split; [done|].
    by apply (page_of_app _ ess).
  - eexists. split; [reflexivity|]. destruct Ht as (n & raw & ess & Hn & He & Hl & Hbud). exists n, raw, ess.
    split; [by apply lookup_app_l_Some|]. split; [done|]. split; [|done].
    rewrite take_app_le; [done|]. apply lookup_lt_Some in Hn. lia.
Qed.
End page.

(** ** Properties *)

(** C39: a page of a listing is the directory, exactly.  However the kernel's records
    are spread over its buffers, and whatever inode numbers, types and padding they
    carry, reading a page ends.  Its entries are those of the records from the start, in
    order and each with its own cookie: the dots without attributes, and every name a
    request can carry with the file's attributes; only a name that cannot be carried and
    an entry whose attributes cannot be had are left out.  It says the directory
    ended exactly when every record was read with the budget unspent; otherwise the
    budget is spent, and was not before the last entry.  It fails only where, with the
    budget unspent, the server runs out of a resource describing the next entry, with
    that errno. *)
Theorem listing_page_exact attr_entry max_bytes pages :
  Forall (λ ds, ds ≠ [] ∧ Forall kd_ok ds) pages →
  let raws := kd_raw <$> concat pages in
  ∃ r, read_dir attr_entry (Ok ()) max_bytes (calls_of pages) = Some r
    ∧ match r with
      | Err e => ∃ n raw ess, raws !! n = Some raw ∧ exhausted attr_entry raw e
                   ∧ Forall2 (listed attr_entry) (take n raws) ess ∧ in_budget max_bytes (mjoin ess)
      | Ok l => ∃ n ess, Forall2 (listed attr_entry) (take n raws) ess ∧ ls_entries l = mjoin ess ∧ (n <= length raws)%nat
                  ∧ if ls_end l then n = length raws ∧ in_budget max_bytes (ls_entries l)
                    else page_filled max_bytes (ls_entries l)
      end.
Proof.
  intros Hall raws. destruct (read_calls_spec attr_entry max_bytes pages 0 [] Hall) as (r & Hr & Hspec); [done|by left|].
  exists r. split; [exact Hr|]. destruct r; exact Hspec.
Qed.

Definition demo_page : list KernelDirent :=
  [MkKD 2 4 [] (MkRaw 1 [dot]); MkKD 9 8 [x00; x00] (MkRaw 2 [x61; x62]); MkKD 3 4 [] (MkRaw 5 [dot; dot])].

(** Within its budget, a page of the dots about an entry that has vanished; and one that
    the first entry fills. *)
Lemma listing_page_exact_witness :
  read_dir (λ _, Err ENOENT) (Ok ()) 4096 (calls_of [demo_page])
  = Some (Ok (MkListing [MkDirEntry 1 [dot] None; MkDirEntry 5 [dot; dot] None] true))
  ∧ ∃ l, read_dir (λ _, Err ENOENT) (Ok ()) 40 (calls_of [demo_page]) = Some (Ok l)
      ∧ ls_entries l = [MkDirEntry 1 [dot] None] ∧ page_filled 40 (ls_entries l).
Proof.
  assert (Forall (λ ds, ds ≠ [] ∧ Forall kd_ok ds) [demo_page]) as Hall.
  { repeat constructor; try discriminate; try (simpl; set_solver). }
  split; [vm_compute; reflexivity|].
  destruct (listing_page_exact (λ _, Err ENOENT) 40 [demo_page] Hall) as (r & Hr & Hspec).
  assert (r = Ok (MkListing [MkDirEntry 1 [dot] None] false)) as -> by (vm_compute in Hr; by injection Hr).
  eexists. split; [exact Hr|]. split; [reflexivity|]. destruct Hspec as (n & ess & _ & _ & _ & H). exact H.
Defined.
