(* ===== verification/Sys.v ===== *)
(** * Requests as programs over effects

    A request's function ([crates/server/src/ops.rs], [export.rs]) runs to its end on a
    thread of its own, making system calls and touching what its session shares.  It is
    a finite tree here ([Prog]): at each [Do] an effect [e] is asked for and the rest
    depends on its answer, of type [Answer e].  What the kernel and the other threads
    do is in the answers, so a statement about every trace ([steps]) holds under every
    interleaving.  Rust's [Result] with its [?] is the monad [M].

    A loop that a system call can keep going ([EINTR], a directory without an end) has
    as many turns as the definition is given; [Stuck] is the want of one more.  It is
    in no trace shorter than the turns given ([stuck_is_long]).

    [triple] is a program logic over these trees: a monitor's state follows the effects,
    each must be one the monitor accepts in its state, and what the kernel documents
    of its answers ([contract]) may be used. *)

From S2P Require Import Prelude Types Msg ServerHandles Watch.

(** ** Flags and errno values, as on x86-64 *)

Definition EPERM : Z := 1.
Definition ENOENT : Z := 2.
Definition EINTR : Z := 4.
Definition EIO : Z := 5.
Definition EXDEV : Z := 18.
Definition EINVAL : Z := 22.
Definition ENFILE : Z := 23.
Definition EMFILE : Z := 24.
Definition ERANGE : Z := 34.
Definition ENAMETOOLONG : Z := 36.
Definition EOPNOTSUPP : Z := 95.

Definition O_RDONLY : Z := 0.
Definition O_WRONLY : Z := 1.
Definition O_ACCMODE : Z := 3.
Definition O_CREAT : Z := 0x40.
Definition O_EXCL : Z := 0x80.
Definition O_NOCTTY : Z := 0x100.
Definition O_TRUNC : Z := 0x200.
Definition O_APPEND : Z := 0x400.
Definition O_NONBLOCK : Z := 0x800.
Definition O_DSYNC : Z := 0x1000.
Definition O_LARGEFILE : Z := 0.
Definition O_DIRECTORY : Z := 0x10000.
Definition O_NOFOLLOW : Z := 0x20000.
Definition O_NOATIME : Z := 0x40000.
Definition O_CLOEXEC : Z := 0x80000.
Definition O_SYNC : Z := 0x101000.
Definition O_PATH : Z := 0x200000.

Definition AT_SYMLINK_NOFOLLOW : Z := 0x100.
Definition AT_EACCESS : Z := 0x200.
Definition AT_EMPTY_PATH : Z := 0x1000.

Definition S_IFMT : Z := 0xf000.
Definition S_IFIFO : Z := 0x1000.
Definition S_IFCHR : Z := 0x2000.
Definition S_IFDIR : Z := 0x4000.
Definition S_IFBLK : Z := 0x6000.
Definition S_IFREG : Z := 0x8000.
Definition S_IFLNK : Z := 0xa000.
Definition S_IFSOCK : Z := 0xc000.
Definition PERM_BITS : Z := 0xfff.

Definition has_flag (flags bit : Z) : bool := Z.land flags bit =? bit.

Lemma has_flag_bit f n : 0 <= n → has_flag f (2 ^ n) = Z.testbit f n.
Proof. exact (land_eqb_bit f n). Qed.

(** [as i64] of a [u64], and [i64::try_from]. *)
Definition to_i64 (z : Z) : Z := if z <? 2 ^ 63 then z else z - 2 ^ 64.
Definition i64_try_from (z : Z) : result Z Z := if z <? 2 ^ 63 then Ok z else Err EINVAL.

(** ** Effects *)

Definition Fd := Z.

(** What [statx] fills of its struct. *)
Record Statx := MkStatx {
  stx_mask : Z; stx_blksize : Z; stx_attributes : Z; stx_attributes_mask : Z; stx_nlink : Z; stx_uid : Z; stx_gid : Z;
  stx_mode : Z; stx_ino : Z; stx_size : Z; stx_blocks : Z;
  stx_atime : TimeSpec; stx_ctime : TimeSpec; stx_mtime : TimeSpec;
  stx_rdev_major : Z; stx_rdev_minor : Z; stx_dev_major : Z; stx_dev_minor : Z; stx_subvol : Z }.

(** [/proc/self/fd/N], or an entry below it. *)
Inductive ProcPath := Proc_fd (fd : Fd) | Proc_entry (dir : Fd) (name : list byte).

(** What [fstatfs64] fills of its struct. *)
Record RawStatfs := MkStatfs {
  f_bsize : Z; f_blocks : Z; f_bfree : Z; f_bavail : Z; f_files : Z; f_ffree : Z;
  f_namelen : Z; f_frsize : Z }.

(** A time to set. *)
Inductive SetTime := UTIME_OMIT | UTIME_NOW | Time_of (t : TimeSpec).

(** Where [lseek] counts from. *)
Inductive SeekWhence := Seek_Set | Seek_Data | Seek_Hole.

Inductive Eff :=
(* Opening and looking. *)
| E_open (path : list byte) (flags : Z)
| E_openat2 (dir : Fd) (path : list byte) (flags mode resolve : Z)
| E_statx (dir : Fd) (path : list byte) (flags : Z)
| E_fstat_mode (fd : Fd)
| E_name_to_handle_at (dir : Fd) (path : list byte) (flags : Z)
| E_listxattr (path : ProcPath) (follow : bool) (room : Z)
| E_getxattr (path : ProcPath) (name : list byte) (room : Z)
| E_readlinkat (fd : Fd)
| E_faccessat (path : ProcPath) (mode flags : Z)
| E_fstatfs (fd : Fd)
| E_getdents (fd : Fd) (room : Z)
| E_dup (fd : Fd)
(* Names. *)
| E_mknodat (dir : Fd) (name : list byte) (kind perm rdev : Z)
| E_mkdirat (dir : Fd) (name : list byte) (perm : Z)
| E_unlinkat (dir : Fd) (name : list byte) (remove_dir : bool)
| E_symlinkat (target : list byte) (dir : Fd) (name : list byte)
| E_renameat2 (old : Fd) (name : list byte) (new : Fd) (newname : list byte) (flags : Z)
| E_linkat (old : Fd) (name : list byte) (new : Fd) (newname : list byte)
(* Contents and attributes. *)
| E_pread (fd : Fd) (len offset : Z)
| E_pwrite (fd : Fd) (data : list byte) (offset : Z)
| E_copy_file_range (src : Fd) (offset_in : Z) (dst : Fd) (offset_out len : Z)
| E_fallocate (fd : Fd) (mode offset len : Z)
| E_lseek (fd : Fd) (offset : Z) (whence : SeekWhence)
| E_sync (fd : Fd) (datasync : bool)
| E_setxattr (path : ProcPath) (name value : list byte) (flags : Z)
| E_removexattr (path : ProcPath) (name : list byte)
| E_fchown (fd : Fd) (uid gid : option Z)
| E_fchownat (node : Fd) (uid gid : option Z)
| E_fchmod (fd : Fd) (perm : Z)
| E_chmod (path : ProcPath) (perm : Z)
| E_ftruncate (fd : Fd) (size : Z)
| E_futimens (fd : Fd) (atime mtime : SetTime)
| E_utimensat (dir : Fd) (name : list byte) (atime mtime : SetTime)
(* What the session and the server share. *)
| E_get (fh : Z)
| E_file_and_path (fh : Z)
| E_dir (fh : Z)
| E_remove (fh : Z)
| E_insert (s : Slot) (h : Handle)
| E_drop_slot (s : Slot)
| E_record (path : Path)
| E_record_entry (dir : Path) (name : Name)
| E_hold (dir : Path)
| E_refused (from_os : option Z).

(** A system call answers a value or an errno. *)
Definition Answer (e : Eff) : Type :=
  match e with
  | E_open _ _ | E_openat2 _ _ _ _ _ | E_dup _ => result Z Fd
  | E_statx _ _ _ => result Z Statx
  | E_fstat_mode _ => result Z Z
  | E_name_to_handle_at _ _ _ => result Z Identity
  | E_readlinkat _ | E_getdents _ _ | E_pread _ _ _ => result Z (list byte)
  | E_listxattr _ _ _ | E_getxattr _ _ _ => result Z (Z * list byte)
  | E_fstatfs _ => result Z RawStatfs
  | E_pwrite _ _ _ | E_copy_file_range _ _ _ _ _ | E_lseek _ _ _ => result Z Z
  | E_get _ => result Z Handle
  | E_file_and_path _ => result Z (Z * Path)
  | E_dir _ => result Z Z
  | E_remove _ => option Handle
  | E_insert _ _ => result ErrorReserve (option Z)
  | E_drop_slot _ | E_record _ | E_record_entry _ _ | E_refused _ => ()
  | E_hold _ => option Z
  | _ => result Z ()
  end.

(** ** Programs *)

Inductive Prog (A : Type) : Type :=
| Ret (a : A)
| Do (e : Eff) (k : Answer e → Prog A)
| Stuck
| Panicked.
Arguments Ret {A} a.
Arguments Do {A} e k.
Arguments Stuck {A}.
Arguments Panicked {A}.

Fixpoint bind {A B} (p : Prog A) (f : A → Prog B) : Prog B :=
  match p with
  | Ret a => f a
  | Do e k => Do e (λ a, bind (k a) f)
  | Stuck => Stuck
  | Panicked => Panicked
  end.

(** A fallible computation. *)
Definition M (E A : Type) : Type := Prog (result E A).

#[export] Instance M_ret E : MRet (M E) := λ A a, Ret (Ok a).
#[export] Instance M_bind E : MBind (M E) := λ A B f p,
  bind p (λ r, match r with Ok a => f a | Err e => Ret (Err e) end).
#[export] Instance M_fmap E : FMap (M E) := λ A B f p, bind p (λ r, Ret (f <$> r)).

Definition ok {E A} (a : A) : M E A := Ret (Ok a).
Definition throw {E A} (e : E) : M E A := Ret (Err e).

(** [r?] of a value, and with a conversion of its error. *)
Definition of_result {E A} (r : result E A) : M E A := Ret r.
Definition map_error {E E' A} (f : E → E') (p : M E A) : M E' A := bind p (λ r, Ret (map_err f r)).

(** A system call, and an effect that cannot fail. *)
Notation call e := (Do e Ret) (only parsing).
Definition act {E} (e : Eff) : M E (Answer e) := Do e (λ a, Ret (Ok a)).

(** [loop { match call { Err(EINTR) => continue, done => break done } }]. *)
Fixpoint retry {A} (turns : nat) (p : M Z A) : M Z A :=
  match turns with
  | O => Stuck
  | S turns => bind p (λ r, match r with
                            | Err e => if e =? EINTR then retry turns p else Ret (Err e)
                            | Ok a => Ret (Ok a)
                            end)
  end.

(** ** Traces *)

Record Event := Ev { ev_eff : Eff; ev_ans : Answer ev_eff }.

(** [tr] takes [p] to [p']. *)
Fixpoint steps {A} (p : Prog A) (tr : list Event) (p' : Prog A) {struct tr} : Prop :=
  match tr, p with
  | [], _ => p' = p
  | ev :: tr, Do e k => ∃ a, ev = Ev e a ∧ steps (k a) tr p'
  | _ :: _, _ => False
  end.

(** A run against an environment with a state of its own. *)
Fixpoint exec {K A} (env : K → ∀ e, Answer e * K) (k : K) (p : Prog A) : list Event * Prog A * K :=
  match p with
  | Do e rest => let '(a, k) := env k e in
                 let '(tr, p, k) := exec env k (rest a) in (Ev e a :: tr, p, k)
  | p => ([], p, k)
  end.

Lemma exec_steps {K A} (env : K → ∀ e, Answer e * K) (p : Prog A) : ∀ k,
  steps p (exec env k p).1.1 (exec env k p).1.2.
Proof.
  induction p as [a|e rest IH| |]; intros k; cbn; try done.
  destruct (env k e) as [a k']. specialize (IH a k').
  destruct (exec env k' (rest a)) as [[tr p] k'']. by exists a.
Qed.

Lemma steps_bind {A B} (f : A → Prog B) q : ∀ tr (p : Prog A),
  steps (bind p f) tr q →
  (∃ p', steps p tr p' ∧ q = bind p' f) ∨
  (∃ a tr1 tr2, tr = tr1 ++ tr2 ∧ steps p tr1 (Ret a) ∧ steps (f a) tr2 q).
Proof.
  induction tr as [|ev tr IH]; intros p H; [left; by exists p|].
  destruct p as [a|e k| |]; cbn in H; try done.
  - right. by exists a, [], (ev :: tr).
  - destruct H as (a & -> & H). apply IH in H as [(p' & Hp & ->)|(x & tr1 & tr2 & -> & H1 & H2)].
    + left. exists p'. split; [by exists a|done].
    + right. exists x, (Ev e a :: tr1), tr2. split_and!; [done|by exists a|done].
Qed.

(** ** A program logic *)

(** A monitor: whether it lets a panic pass, what it accepts in a state, and how an
    answered effect moves it. *)
Record Monitor := MkMonitor {
  mon_panics : bool;
  mon_state : Type;
  mon_ok : mon_state → Eff → Prop;
  mon_next : mon_state → ∀ e, Answer e → mon_state }.

Section triples.
Context (m : Monitor) (contract : mon_state m → ∀ e, Answer e → Prop).

(** From [g], every effect is accepted, a panic only if the monitor lets it pass, and the
    program ends with [Q]. *)
Fixpoint triple {A} (g : mon_state m) (p : Prog A) (Q : mon_state m → A → Prop) : Prop :=
  match p with
  | Ret a => Q g a
  | Do e k => mon_ok m g e ∧ ∀ a, contract g e a → triple (mon_next m g e a) (k a) Q
  | Stuck => True
  | Panicked => mon_panics m = true
  end.

Lemma triple_mono {A} (p : Prog A) (Q Q' : mon_state m → A → Prop) : ∀ g,
  triple g p Q → (∀ g a, Q g a → Q' g a) → triple g p Q'.
Proof.
  induction p as [a|e k IH| |]; cbn; intros g H HQ; try done.
  - by apply HQ.
  - destruct H as [Ho H]. split; [done|]. intros a Ha. apply (IH a); [by apply H|done].
Qed.

Lemma triple_bind {A B} (p : Prog A) (f : A → Prog B) Q : ∀ g,
  triple g p (λ g a, triple g (f a) Q) → triple g (bind p f) Q.
Proof.
  induction p as [a|e k IH| |]; cbn; intros g H; try done.
  destruct H as [Ho H]. split; [done|]. intros a Ha. by apply IH, H.
Qed.

Lemma triple_act {E} e (Q : mon_state m → result E (Answer e) → Prop) g :
  mon_ok m g e → (∀ a, contract g e a → Q (mon_next m g e a) (Ok a)) → triple g (act e) Q.
Proof. intros He HQ. split; [done|]. exact HQ. Qed.

Lemma triple_call e (Q : mon_state m → Answer e → Prop) g :
  mon_ok m g e → (∀ a, contract g e a → Q (mon_next m g e a) a) → triple g (call e) Q.
Proof. intros He HQ. split; [done|]. exact HQ. Qed.

(** The monad's own binds: on an error the rest is not run. *)
Lemma triple_mbind {E A B} (p : M E A) (f : A → M E B) Q g :
  triple g p (λ g r, match r with Ok a => triple g (f a) Q | Err e => Q g (Err e) end) →
  triple g (p ≫= f) Q.
Proof. intros H. apply triple_bind. eapply triple_mono; [exact H|]. by intros g' [a|e]. Qed.

(** A step that keeps an invariant of the state. *)
Lemma triple_keep {E A B} (I : mon_state m → Prop) (p : M E A) (k : A → M E B) Q g :
  I g → (∀ g, I g → triple g p (λ g' _, I g')) → (∀ g e, I g → Q g (Err e)) →
  (∀ g a, I g → triple g (k a) Q) → triple g (p ≫= k) Q.
Proof.
  intros HI Hp He Hk. apply triple_mbind. eapply triple_mono; [by apply Hp|].
  intros g' [a|e] HI'; [by apply Hk|by apply He].
Qed.

Lemma triple_fmap {E A B} (p : M E A) (f : A → B) Q g :
  triple g p (λ g r, Q g (f <$> r)) → triple g (f <$> p) Q.
Proof. intros H. apply triple_bind. eapply triple_mono; [exact H|]. done. Qed.

Lemma triple_map_error {E E' A} (f : E → E') (p : M E A) Q g :
  triple g p (λ g r, Q g (map_err f r)) → triple g (map_error f p) Q.
Proof. intros H. apply triple_bind. eapply triple_mono; [exact H|]. done. Qed.

Lemma triple_retry {A} turns (p : M Z A) (I : mon_state m → Prop) (Q : mon_state m → result Z A → Prop) :
  ∀ g, I g →
  (∀ g, I g → triple g p (λ g r, match r with
                                 | Err e => if e =? EINTR then I g else Q g (Err e)
                                 | Ok a => Q g (Ok a)
                                 end)) →
  triple g (retry turns p) Q.
Proof.
  induction turns as [|turns IH]; intros g HI Hp; cbn [retry]; [done|].
  apply triple_bind. eapply triple_mono; [by apply Hp|]. intros g' [a|e]; [done|].
  destruct (e =? EINTR); [|done]. intros HI'. by apply IH.
Qed.

(** A trace as the monitor follows it. *)
Fixpoint followed (g : mon_state m) (tr : list Event) : mon_state m :=
  match tr with
  | [] => g
  | Ev e a :: tr => followed (mon_next m g e a) tr
  end.

Lemma followed_app g tr1 tr2 : followed g (tr1 ++ tr2) = followed (followed g tr1) tr2.
Proof. revert g. induction tr1 as [|[e a] tr1 IH]; intros g; cbn; [done|apply IH]. Qed.

(** Every answer of a trace keeps the contract where it is given. *)
Fixpoint kept (g : mon_state m) (tr : list Event) : Prop :=
  match tr with
  | [] => True
  | Ev e a :: tr => contract g e a ∧ kept (mon_next m g e a) tr
  end.

(** Along every trace whose answers keep the contract, each effect is accepted in the
    state its predecessors lead to, and the end is as the triple says. *)
Lemma triple_steps {A} (p p' : Prog A) Q g tr :
  triple g p Q → steps p tr p' → kept g tr → triple (followed g tr) p' Q.
Proof.
  revert g p. induction tr as [|ev tr IH]; intros g p H Hs Hc; [cbn in Hs; by subst|].
  destruct p as [a|e k| |]; cbn in Hs; try done. destruct Hs as (a & -> & Hs).
  destruct Hc as [Ha Hc]. destruct H as [_ H]. cbn. by apply IH with (k a); [apply H|..].
Qed.

Lemma triple_accepts {A} (p p' : Prog A) Q g tr1 ev tr2 :
  triple g p Q → steps p (tr1 ++ ev :: tr2) p' → kept g tr1 →
  mon_ok m (followed g tr1) (ev_eff ev).
Proof.
  revert g p. induction tr1 as [|ev' tr1 IH]; intros g p H Hs Hc;
    (destruct p as [a|e k| |]; cbn in Hs; try done); destruct Hs as (a & -> & Hs).
  - by destruct H.
  - destruct Hc as [Ha Hc]. destruct H as [_ H]. cbn.
    apply IH with (k a); [by apply H|done|done].
Qed.

Lemma kept_prefix g tr1 tr2 : kept g (tr1 ++ tr2) → kept g tr1.
Proof. revert g. induction tr1 as [|[e a] tr1 IH]; intros g; cbn; [done|]. intros [? ?]. by split; [|apply IH]. Qed.

Lemma triple_accepts_at {A} (p p' : Prog A) Q g tr n ev :
  triple g p Q → steps p tr p' → kept g tr → tr !! n = Some ev →
  mon_ok m (followed g (take n tr)) (ev_eff ev).
Proof.
  intros Ht Hs Hk Hn. pose proof Hn as Hsplit%take_drop_middle. rewrite <-Hsplit in Hs, Hk.
  eapply triple_accepts; [exact Ht|exact Hs|by eapply kept_prefix].
Qed.
End triples.

(** A monitor whose acceptance does not depend on what came before. *)
Definition each_monitor (P : Eff → Prop) : Monitor := MkMonitor true () (λ _ e, P e) (λ _ _ _, tt).
Definition no_contract {S} (_ : S) (e : Eff) (_ : Answer e) : Prop := True.

Lemma kept_no_contract m g tr : kept m no_contract g tr.
Proof. revert g. induction tr as [|[e a] tr IH]; intros g; cbn; [done|]. by split; [|apply IH]. Qed.

(** ** Running out of turns *)

(** What makes a loop go round again ([rounds]) is in the answers; those [known] are the
    ones a kernel gives. *)
Section turns.
Context (known : ∀ e, Answer e → Prop) (rounds : ∀ e, Answer e → nat).

(** A run the answers of which cost [n] rounds at most does not stop for want of turns. *)
Fixpoint lasts {A} (n : nat) (p : Prog A) {struct p} : Prop :=
  match p with
  | Ret _ | Panicked => True
  | Stuck => False
  | Do e k => ∀ a, known e a → (rounds e a <= n)%nat → lasts (n - rounds e a) (k a)
  end.

Lemma lasts_le {A} (p : Prog A) : ∀ n n', (n' <= n)%nat → lasts n p → lasts n' p.
Proof.
  induction p as [a|e k IH| |]; intros n n' Hle H; cbn in *; try done.
  intros a Ha Hr. apply (IH a (n - rounds e a)%nat); [lia|]. apply H; [done|lia].
Qed.

Lemma lasts_bind {A B} (p : Prog A) (f : A → Prog B) : ∀ n,
  lasts n p → (∀ a, lasts n (f a)) → lasts n (bind p f).
Proof.
  induction p as [a|e k IH| |]; intros n Hp Hf; cbn in *; try done.
  intros a Ha Hr. apply IH; [by apply Hp|]. intros b. apply (lasts_le _ n); [lia|apply Hf].
Qed.

Lemma lasts_ret {A} n (a : A) : lasts n (Ret a).
Proof. done. Qed.
Lemma lasts_do {A} n e (k : Answer e → Prog A) : (∀ a, lasts n (k a)) → lasts n (Do e k).
Proof. intros Hk a _ _. apply (lasts_le _ n); [lia|apply Hk]. Qed.
Lemma lasts_mbind {E A B} (p : M E A) (f : A → M E B) n :
  lasts n p → (∀ a, lasts n (f a)) → lasts n (p ≫= f).
Proof. intros Hp Hf. apply lasts_bind; [done|]. by intros [a|e]. Qed.
Lemma lasts_fmap {E A B} n (f : A → B) (p : M E A) : lasts n p → lasts n (f <$> p).
Proof. intros Hp. by apply lasts_bind. Qed.
Lemma lasts_map_error {E E' A} n (f : E → E') (p : M E A) : lasts n p → lasts n (map_error f p).
Proof. intros Hp. by apply lasts_bind. Qed.

(** The rounds of a whole trace. *)
Definition rounds_of (tr : list Event) : nat := sum_list (map (λ ev, rounds (ev_eff ev) (ev_ans ev)) tr).

Lemma lasts_steps {A} tr : ∀ (p p' : Prog A) n, lasts n p → steps p tr p' →
  Forall (λ ev, known (ev_eff ev) (ev_ans ev)) tr → (rounds_of tr <= n)%nat → lasts (n - rounds_of tr) p'.
Proof.
  induction tr as [|ev tr IH]; intros p p' n Hl Hs Hk Hr; [cbn in Hs; subst; by apply (lasts_le _ n); [lia|]|].
  destruct p as [a|e k| |]; try done. destruct Hs as (a & -> & Hs).
  apply Forall_cons_iff in Hk as [Ha Hk]. unfold rounds_of in *. cbn in Ha, Hr |- *.
  rewrite Nat.sub_add_distr. apply (IH (k a)); [apply Hl; [done|lia]|done|done|lia].
Qed.
End turns.

(** A run against an environment ends: its program is a well-founded tree. *)
Lemma exec_ends {K A} (env : K → ∀ e, Answer e * K) (p : Prog A) : ∀ k e f, (exec env k p).1.2 ≠ Do e f.
Proof.
  induction p as [a|e rest IH| |]; intros k e' f; try done. cbn.
  destruct (env k e) as [a k']. specialize (IH a k' e' f). by destruct (exec env k' (rest a)) as [[tr p] k''].
Qed.
