(* ===== verification/Export.v ===== *)
(** * The exported directory ([crates/server/src/export.rs])

    The only way a client's path becomes a descriptor: every resolution is an
    [openat2] beneath the root with [RESOLVE].  What the server reports of a file is
    put together from [statx], [name_to_handle_at] and the attribute names.

    [libc]'s [makedev] is a parameter.  Opening the export at start-up ([Export::open])
    is a program too; its message texts are left out. *)

From S2P Require Import Prelude Types Msg ServerHandles Sys.

(** Functions of [libc] the source uses. *)
Class Libc := { makedev : Z → Z → Z }.

Definition AT_HANDLE_FID : Z := 0x200.
Definition STATX_SUBVOL : Z := 0x8000.
Definition STATX_ATTR_MOUNT_ROOT : Z := 0x2000.

Definition RESOLVE_NO_XDEV : Z := 0x01.
Definition RESOLVE_NO_MAGICLINKS : Z := 0x02.
Definition RESOLVE_NO_SYMLINKS : Z := 0x04.
Definition RESOLVE_BENEATH : Z := 0x08.
Definition RESOLVE : Z :=
  Z.lor (Z.lor (Z.lor RESOLVE_BENEATH RESOLVE_NO_SYMLINKS) RESOLVE_NO_MAGICLINKS) RESOLVE_NO_XDEV.

Inductive Subvol := Subvol_Id (id : Z) | Subvol_Dev (major minor : Z).
#[export] Instance Subvol_eq_dec : EqDecision Subvol.
Proof. solve_decision. Defined.

Definition subvol_of (st : Statx) : Subvol :=
  if Z.land (stx_mask st) STATX_SUBVOL =? 0
  then Subvol_Dev (stx_dev_major st) (stx_dev_minor st)
  else Subvol_Id (stx_subvol st).

Record Export := MkExport {
  ex_root : Fd; ex_root_ino : Z; ex_root_identity : Identity; ex_root_subvol : Subvol;
  ex_handle_flags : Z }.

Definition root_key (x : Export) : Z * Identity := (ex_root_ino x, ex_root_identity x).

Definition dot_path : list byte := [dot].

(** ** What is reported *)

Definition XATTR_NAMES_MAX : Z := 1024.

(** [split(|b| b == 0)], without the empty pieces. *)
Fixpoint split_nul (piece : list byte) (l : list byte) : list (list byte) :=
  let piece_ := match piece with [] => [] | _ => [piece] end in
  match l with
  | [] => piece_
  | b :: l => if bool_decide (b = Byte.x00) then piece_ ++ split_nul [] l
              else split_nul (piece ++ [b]) l
  end.

(** The names as the attributes carry them, or [None] for the client to ask. *)
Definition xattr_names_by_path {E} (path : ProcPath) (follow : bool)
  : M E (option (list (list byte))) :=
  Do (E_listxattr path follow XATTR_NAMES_MAX) (λ got,
    Ret (Ok (match got with
             | Ok (n, buf) => Some (split_nul [] (take (Z.to_nat n) buf))
             | Err _ => None
             end))).

Definition xattr_names {E} (fd : Fd) : M E (option (list (list byte))) :=
  xattr_names_by_path (Proc_fd fd) true.
Definition xattr_names_at {E} (dir : Fd) (name : Name) : M E (option (list (list byte))) :=
  xattr_names_by_path (Proc_entry dir (as_bytes name)) false.

Definition kind_from_mode (mode : Z) : option FileKind :=
  let fmt := Z.land mode S_IFMT in
  if fmt =? S_IFREG then Some Regular
  else if fmt =? S_IFDIR then Some Directory
  else if fmt =? S_IFLNK then Some Symlink
  else if fmt =? S_IFIFO then Some Fifo
  else if fmt =? S_IFSOCK then Some Socket
  else if fmt =? S_IFCHR then Some CharDevice
  else if fmt =? S_IFBLK then Some BlockDevice
  else None.

Definition statx (dir : Fd) (path : list byte) (flags : Z) : M Z Statx := call (E_statx dir path flags).
Definition file_handle (dir : Fd) (path : list byte) (flags : Z) : M Z Identity :=
  call (E_name_to_handle_at dir path flags).

Section export.
Context `{!Libc} (x : Export).

Definition attr_from_statx (st : Statx) (identity : Identity) (names : option (list (list byte)))
  : result Z Attr :=
  match kind_from_mode (stx_mode st) with
  | None => Err EIO
  | Some kind =>
      Ok {| a_ino := stx_ino st; a_size := stx_size st; a_blocks := stx_blocks st;
            a_atime := stx_atime st; a_mtime := stx_mtime st; a_ctime := stx_ctime st;
            a_kind := kind; a_perm := Z.land (stx_mode st) PERM_BITS; a_nlink := stx_nlink st;
            a_uid := stx_uid st; a_gid := stx_gid st;
            a_rdev := makedev (stx_rdev_major st) (stx_rdev_minor st);
            a_blksize := stx_blksize st; a_xattr_names := names; a_identity := identity;
            a_foreign := bool_decide (subvol_of st ≠ ex_root_subvol x) |}
  end.

Definition attr_of (fd : Fd) : M Z Attr :=
  st ← statx fd [] (Z.lor AT_EMPTY_PATH AT_SYMLINK_NOFOLLOW);
  identity ← file_handle fd [] (Z.lor (ex_handle_flags x) AT_EMPTY_PATH);
  names ← xattr_names fd;
  of_result (attr_from_statx st identity names).

(** ** Resolution *)

Definition openat2_root (path : Path) (flags mode : Z) : M Z Fd :=
  let joined := to_os_string path in
  let rel := match joined with [] => dot_path | _ => joined end in
  call (E_openat2 (ex_root x) rel (Z.lor flags O_CLOEXEC) mode RESOLVE).

Definition resolve (path : Path) : M Z Fd := openat2_root path (Z.lor O_PATH O_NOFOLLOW) 0.

Definition resolve_dir (path : Path) : M Z Fd :=
  openat2_root path (Z.lor (Z.lor O_PATH O_DIRECTORY) O_NOFOLLOW) 0.

Definition resolve_dir_in (parent : Fd) (name : Name) : M Z Fd :=
  call (E_openat2 parent (as_bytes name)
          (Z.lor (Z.lor (Z.lor O_PATH O_DIRECTORY) O_NOFOLLOW) O_CLOEXEC) 0 RESOLVE).

Definition resolve_parent (path : Path) : M Z (Fd * Name) :=
  '(parent, name) ← of_result (ok_or (Path_split_last path) EPERM);
  dir ← resolve_dir parent;
  ok (dir, name).

Definition open_node (path : Path) (flags : Z) : M Z Fd :=
  openat2_root path (Z.lor (Z.lor flags O_NOFOLLOW) O_NONBLOCK) 0.

Definition open_in (parent : Path) (name : Name) (flags mode : Z) : M Z Fd :=
  dir ← resolve_dir parent;
  call (E_openat2 dir (as_bytes name)
          (Z.lor (Z.lor (Z.lor flags O_NOFOLLOW) O_NONBLOCK) O_CLOEXEC) mode RESOLVE).

Definition attr_in (dir : Fd) (name : Name) : M Z Attr :=
  node ← call (E_openat2 dir (as_bytes name) (Z.lor (Z.lor O_PATH O_NOFOLLOW) O_CLOEXEC) 0 RESOLVE);
  attr_of node.

(** An entry of a listing, described without being opened. *)
Definition attr_entry (dir : Fd) (name : Name) : M Z Attr :=
  identity ← file_handle dir (as_bytes name) (ex_handle_flags x);
  st ← statx dir (as_bytes name) AT_SYMLINK_NOFOLLOW;
  if negb (Z.land (stx_attributes st) STATX_ATTR_MOUNT_ROOT =? 0) then throw EXDEV
  else
    again ← file_handle dir (as_bytes name) (ex_handle_flags x);
    if bool_decide (again = identity) then
      names ← xattr_names_at dir name;
      of_result (attr_from_statx st identity names)
    else throw ENOENT.

End export.

(** ** Opening the export *)

Inductive ErrorOpen :=
| EO_Root (errno : Z)
| EO_Statx (errno : Z)
| EO_MountRoots
| EO_HandlesOldKernel (errno : Z)
| EO_Handles (errno : Z)
| EO_Openat2 (errno : Z).

Definition Export_open (dir : list byte) : M ErrorOpen Export :=
  root ← map_error EO_Root (call (E_open dir (Z.lor (Z.lor O_PATH O_DIRECTORY) O_CLOEXEC)));
  st ← map_error EO_Statx (statx root [] AT_EMPTY_PATH);
  if Z.land (stx_attributes_mask st) STATX_ATTR_MOUNT_ROOT =? 0 then throw EO_MountRoots
  else
    Do (E_name_to_handle_at root [] (Z.lor AT_HANDLE_FID AT_EMPTY_PATH)) (λ first,
      '(handle_flags, root_identity) ←
         match first with
         | Ok identity => ok (AT_HANDLE_FID, identity)
         | Err e =>
             if e =? EINVAL
             then identity ← map_error EO_HandlesOldKernel (file_handle root [] AT_EMPTY_PATH);
                  ok (0, identity)
             else throw (EO_Handles e)
         end;
      let export := MkExport root (stx_ino st) root_identity (subvol_of st) handle_flags in
      _ ← map_error EO_Openat2 (resolve export Path_root);
      ok export).
