(* ===== verification/Ops.v ===== *)
(** * What the server does for a request ([crates/server/src/ops.rs])

    [dispatch] runs one request, with what [Ops::reserve] took for it as it began.  A
    function of the source is a program of [Sys.v]; what the session and the server
    share (handles, the change log, the watches) are effects among the system calls,
    as every request runs on a thread of its own.

    A slot of the handle pool is dropped where Rust drops it: on every return before it
    is used, and with a reservation nobody looks at.  Descriptors are closed by their
    scope in the source and have no effect here.  [turns] bounds the loops a system
    call can keep going.  Log lines and events are left out, but for the count of
    opens refused. *)

From S2P Require Import Prelude Types Msg Codec Owners ServerHandles Dirents Sys Export.

Definition MAX_COPY : Z := Z.shiftl 64 20.

Definition lor_all (l : list Z) : Z := foldr Z.lor 0 l.

Definition OPEN_FLAGS_ALLOWED : Z :=
  lor_all [O_ACCMODE; O_APPEND; O_TRUNC; O_SYNC; O_DSYNC; O_NOATIME; O_NONBLOCK; O_NOFOLLOW;
           O_CLOEXEC; O_DIRECTORY; O_LARGEFILE; O_NOCTTY].
Definition CREATE_FLAGS_ALLOWED : Z := lor_all [OPEN_FLAGS_ALLOWED; O_CREAT; O_EXCL].

(** [FALLOC_FL_KEEP_SIZE], [FALLOC_FL_PUNCH_HOLE], [FALLOC_FL_ZERO_RANGE]. *)
Definition FALLOCATE_MODES_ALLOWED : Z := lor_all [1; 2; 0x10].

(** The bits [nix] knows of each, and [RENAME_WHITEOUT]. *)
Definition RENAME_FLAGS : Z := 7.
Definition RENAME_WHITEOUT : Z := 4.
Definition ACCESS_FLAGS : Z := 7.

(** [from_bits]: no bit outside the known ones. *)
Definition from_bits (known bits : Z) : option Z :=
  if Z.land bits (Z.lnot known) =? 0 then Some bits else None.

Definition open_flags (flags : Z) (creating : bool) : Z :=
  Z.land flags (if creating then CREATE_FLAGS_ALLOWED else OPEN_FLAGS_ALLOWED).

(** ** Failures *)

Inductive Failure := F_Errno (errno : Z) | F_PoolFull.

Definition Failure_from_reserve (e : ErrorReserve) : Failure :=
  match e with PoolFull => F_PoolFull | Duplicate => F_Errno EBADF end.

(** [?] on a function that fails with an errno. *)
Definition up {A} (p : M Z A) : M Failure A := map_error F_Errno p.

(** ** Refused opens *)

Definition REFUSALS_LOGGED_EVERY : Z := 10 * 10 ^ 9.

Record Refusals := MkRefusals { rf_logged_at : option Z; rf_since : Z; rf_since_at : option Z }.
Definition Refusals_default : Refusals := MkRefusals None 0 None.

Definition refused (r : Refusals) (now : Z) : option (Z * Z) * Refusals :=
  let since := rf_since r + 1 in
  let first := default now (rf_since_at r) in
  if match rf_logged_at r with Some at_ => now - at_ <? REFUSALS_LOGGED_EVERY | None => false end
  then (None, MkRefusals (rf_logged_at r) since (Some first))
  else (Some (since, first), MkRefusals (Some now) 0 None).

Definition pending (r : Refusals) : option (Z * Z) * Refusals :=
  match rf_since_at r with
  | None => (None, r)
  | Some first => (Some (rf_since r, first), MkRefusals (rf_logged_at r) 0 None)
  end.

(** ** Helpers *)

Definition servable (kind : FileKind) : result Z () :=
  match kind with Regular | Directory => Ok () | _ => Err EOPNOTSUPP end.

Inductive Target := Target_Fd (fd : Fd) | Target_Node (node : Fd).

(** A string the kernel takes ends at its first NUL, so one with a NUL inside is refused. *)
Definition cstring (bytes : list byte) : result Z (list byte) :=
  if bool_decide (Byte.x00 ∈ bytes) then Err EINVAL else Ok bytes.

Definition timespec (t : option TimeOrNow) : SetTime :=
  match t with
  | None => UTIME_OMIT
  | Some TimeOrNow_Now => UTIME_NOW
  | Some (TimeOrNow_Time t) => Time_of t
  end.

(** A query for the length, then the value, again while it grows between the two. *)
Fixpoint xattr_read (attempts : nat) (query : Z → M Z (Z * list byte)) : M Z (list byte) :=
  match attempts with
  | O => throw ERANGE
  | S attempts =>
      '(needed, _) ← query 0;
      bind (query needed) (λ r,
        match r with
        | Ok (got, buf) => ok (take (Z.to_nat got) buf)
        | Err e => if e =? ERANGE then xattr_read attempts query else throw e
        end)
  end.

Definition statfs (fd : Fd) : M Z StatfsData :=
  st ← (call (E_fstatfs fd) : M Z RawStatfs);
  ok {| sf_blocks := f_blocks st; sf_bfree := f_bfree st; sf_bavail := f_bavail st;
          sf_files := f_files st; sf_ffree := f_ffree st; sf_bsize := as_u32 (f_bsize st);
          sf_namelen := Z.min (as_u32 (f_namelen st)) (Z.of_nat NAME_MAX);
          sf_frsize := as_u32 (f_frsize st) |}.

(** [read_at] until the buffer is full or the file ends. *)
Fixpoint read_fill (turns : nat) (fd : Fd) (size offset : Z) (filled : list byte) : M Z (list byte) :=
  if len_z filled <? size then
    match turns with
    | O => Stuck
    | S turns =>
        if 2 ^ 64 <=? offset + len_z filled then Panicked
        else Do (E_pread fd (size - len_z filled) (offset + len_z filled)) (λ r,
          match r with
          | Ok [] => Ret (Ok filled)
          | Ok bytes => read_fill turns fd size offset (filled ++ bytes)
          | Err e => if e =? EINTR then read_fill turns fd size offset filled else throw e
          end)
    end
  else Ret (Ok filled).

(** The standard library's [write_all_at]; a write of nothing is an error without an
    errno. *)
Fixpoint write_all_at (turns : nat) (fd : Fd) (data : list byte) (offset : Z) : M Z () :=
  match data with
  | [] => Ret (Ok ())
  | _ =>
      match turns with
      | O => Stuck
      | S turns =>
          Do (E_pwrite fd data offset) (λ r,
            match r with
            | Ok n => if n =? 0 then throw EIO
                      else write_all_at turns fd (drop (Z.to_nat n) data) (offset + n)
            | Err e => if e =? EINTR then write_all_at turns fd data offset else throw e
            end)
      end
  end.

Section ops.
Context `{!Libc} (x : Export) (turns : nat).

(** ** Listings ([dirents.rs]) *)

(** One buffer's records: the entries, the budget used, and whether it is spent. *)
Fixpoint list_records (dir : Fd) (max_bytes used : Z) (entries : list DirEntry)
    (raws : list RawDirent) : M Z (list DirEntry * Z * bool) :=
  match raws with
  | [] => ok (entries, used, false)
  | raw :: raws =>
      let name := rd_name raw in
      let add attr :=
        let used := used + dir_entry_bytes (len_z name) attr in
        let entries := entries ++ [MkDirEntry (rd_off raw) name attr] in
        if max_bytes <=? used then ok (entries, used, true)
        else list_records dir max_bytes used entries raws in
      if bool_decide (name = [dot]) || bool_decide (name = [dot; dot]) then add None
      else match Name_new name with
           | Err _ => list_records dir max_bytes used entries raws
           | Ok component =>
               bind (attr_entry x dir component) (λ r,
                 match r with
                 | Ok attr => add (Some attr)
                 | Err e =>
                     _ ← of_result (entry_failure e);
                     list_records dir max_bytes used entries raws
                 end)
           end
  end.

Fixpoint list_calls (n : nat) (dir : Fd) (max_bytes used : Z) (entries : list DirEntry)
  : M Z Listing :=
  match n with
  | O => Stuck
  | S n =>
      buf ← (call (E_getdents dir 65536) : M Z (list byte));
      match buf with
      | [] => ok (MkListing entries true)
      | _ =>
          '(entries, used, full) ← list_records dir max_bytes used entries (parse buf);
          if full : bool then ok (MkListing entries false)
          else list_calls n dir max_bytes used entries
      end
  end.

Definition read_dir_fd (dir : Fd) (offset max_bytes : Z) : M Z Listing :=
  _ ← (call (E_lseek dir (to_i64 offset) Seek_Set) : M Z Z);
  list_calls turns dir max_bytes 0 [].

(** ** Attributes *)

Definition get (fh : Z) : M Z Handle := call (E_get fh).
Definition get_opt (fh : option Z) : M Z (option Handle) :=
  match fh with None => ok None | Some fh => h ← get fh; ok (Some h) end.

Definition fd_of (h : Handle) : Fd :=
  match h with Handle_File file _ _ => file | Handle_Dir dir _ => dir end.

Definition some_path (path : option Path) : M Z Path := of_result (ok_or path EINVAL).

Definition change_owner (target : Target) (uid gid : option Z) : M Z () :=
  match target with
  | Target_Fd fd => call (E_fchown fd uid gid)
  | Target_Node node => call (E_fchownat node uid gid)
  end.

Definition change_mode (target : Target) (mode : Z) : M Z () :=
  let mode := Z.land mode PERM_BITS in
  match target with
  | Target_Fd fd => call (E_fchmod fd mode)
  | Target_Node node =>
      st_mode ← (call (E_fstat_mode node) : M Z Z);
      if bool_decide (kind_from_mode st_mode = Some Symlink) then throw EOPNOTSUPP
      else call (E_chmod (Proc_fd node) mode)
  end.

Definition change_size (target : Target) (path : option Path) (size : Z) : M Z () :=
  match target with
  | Target_Fd fd => call (E_ftruncate fd (to_i64 size))
  | Target_Node node =>
      st_mode ← (call (E_fstat_mode node) : M Z Z);
      kind ← of_result (ok_or (kind_from_mode st_mode) EIO);
      _ ← of_result (servable kind);
      path ← some_path path;
      file ← open_node x path O_WRONLY;
      call (E_ftruncate file (to_i64 size))
  end.

Definition change_times (target : Target) (path : option Path) (atime mtime : option TimeOrNow)
  : M Z () :=
  let atime := timespec atime in
  let mtime := timespec mtime in
  match target with
  | Target_Fd fd => call (E_futimens fd atime mtime)
  | Target_Node _ =>
      path ← some_path path;
      match Path_split_last path with
      | Some (parent, name) =>
          dir ← resolve_dir x parent;
          call (E_utimensat dir (as_bytes name) atime mtime)
      | None => call (E_utimensat (ex_root x) dot_path atime mtime)
      end
  end.

(** [if cond { p? }] *)
Definition when {E} (cond : bool) (p : M E ()) : M E () := if cond then p else ok ().
Definition is_some {A} (o : option A) : bool := match o with Some _ => true | None => false end.

Definition target_fd (t : Target) : Fd := match t with Target_Fd fd => fd | Target_Node node => node end.

(** The changes, in an order that leaves the mode as asked for: a change of owner clears
    bits of it. *)
Definition set_target (target : Target) (path : option Path) (set : SetAttr) : M Z Response :=
  _ ← when (is_some (s_uid set) || is_some (s_gid set)) (change_owner target (s_uid set) (s_gid set));
  _ ← match s_mode set with Some mode => change_mode target mode | None => ok () end;
  _ ← match s_size set with Some size => change_size target path size | None => ok () end;
  _ ← when (is_some (s_atime set) || is_some (s_mtime set))
        (change_times target path (s_atime set) (s_mtime set));
  attr ← attr_of x (target_fd target);
  ok (Resp_Attr attr).

Definition setattr (path : option Path) (fh : option Z) (set : SetAttr) : M Z Response :=
  handle ← get_opt fh;
  let origin := match handle with Some (Handle_File _ path _) => Some path | _ => path end in
  _ ← match origin with Some origin => act (E_record origin) | None => ok () end;
  target ← match handle with
           | Some h => Target_Fd <$> (call (E_dup (fd_of h)) : M Z Fd)
           | None => path ← some_path path; Target_Node <$> resolve x path
           end;
  set_target target path set.

(** ** Opens *)

Definition opened_already (h : Handle) : M Failure Response :=
  attr ← up (attr_of x (fd_of h));
  ok (Resp_Opened attr).

(** The requests that reserve as they begin, and under which id. *)
Definition reserves (req : Request) : option Z :=
  match req with
  | Req_Open fh _ _ | Req_Create fh _ _ _ _ | Req_Opendir fh _ => Some fh
  | _ => None
  end.

Definition Reservation : Type := result ErrorReserve (option Reserved).

Definition Ops_reserve (hs : Handles) (p : HandlePool) (req : Request) : Reservation * HandlePool :=
  match reserves req with
  | Some fh => let '(r, p) := reserve hs p fh in (Some <$> r, p)
  | None => (Ok None, p)
  end.

Definition drop_reserved {A} (reserved : Reservation) (p : Prog A) : Prog A :=
  match reserved with
  | Ok (Some (Reserved_Slot s)) => Do (E_drop_slot s) (λ _, p)
  | _ => p
  end.

(** What an open makes of its reservation: [opening] ends with the handle to keep and
    its attributes; the slot goes back if it fails. *)
Definition open_with (reserved : Reservation) (opening : M Failure (Handle * Attr)) : M Failure Response :=
  match reserved with
  | Err e => throw (Failure_from_reserve e)
  | Ok None => Panicked
  | Ok (Some (Reserved_Held h)) => opened_already h
  | Ok (Some (Reserved_Slot s)) =>
      bind opening (λ r,
        match r with
        | Err e => Do (E_drop_slot s) (λ _, throw e)
        | Ok (h, attr) =>
            Do (E_insert s h) (λ kept,
              match kept with
              | Ok _ => ok (Resp_Opened attr)
              | Err e => throw (Failure_from_reserve e)
              end)
        end)
  end.

(** [Watch::parent_of]. *)
Definition parent_dir (p : Path) : Path := default Path_root (fst <$> Path_split_last p).

Definition opening_file (path : Path) (flags : Z) : M Failure (Handle * Attr) :=
  let flags := open_flags flags false in
  _ ← when (has_flag flags O_TRUNC) (act (E_record path));
  fd ← up (open_node x path flags);
  attr ← up (attr_of x fd);
  _ ← up (of_result (servable (a_kind attr)));
  watch ← act (E_hold (parent_dir path));
  ok (Handle_File fd path watch, attr).

Definition opening_new (parent : Path) (name : Name) (mode flags : Z) : M Failure (Handle * Attr) :=
  _ ← act (E_record_entry parent name);
  fd ← up (open_in x parent name (Z.lor (open_flags flags true) O_CREAT) (Z.land mode PERM_BITS));
  attr ← up (attr_of x fd);
  _ ← up (of_result (servable (a_kind attr)));
  watch ← act (E_hold parent);
  path ← up (of_result (map_err (λ _, ENAMETOOLONG) (Path_join parent name)));
  ok (Handle_File fd path watch, attr).

Definition opening_dir (path : Path) : M Failure (Handle * Attr) :=
  fd ← up (open_node x path (Z.lor O_RDONLY O_DIRECTORY));
  attr ← up (attr_of x fd);
  _ ← up (of_result (servable (a_kind attr)));
  watch ← act (E_hold path);
  ok (Handle_Dir fd watch, attr).

(** ** Requests *)

(** A request that makes [name] in [parent]. *)
Definition entry_made (parent : Path) (name : Name) (make : Fd → M Z ()) : M Failure Response :=
  dir ← up (resolve_dir x parent);
  _ ← act (E_record_entry parent name);
  _ ← up (make dir);
  attr ← up (attr_in x dir name);
  ok (Resp_Entry attr).

Definition entry_removed (parent : Path) (name : Name) (remove_dir : bool) : M Failure Response :=
  dir ← up (resolve_dir x parent);
  _ ← act (E_record_entry parent name);
  _ ← up (call (E_unlinkat dir (as_bytes name) remove_dir));
  ok Resp_Ok.

(** The handle of a file, with the path it was opened at. *)
Definition file_and_path (fh : Z) : M Failure (Fd * Path) :=
  up (call (E_file_and_path fh) : M Z (Z * Path)).

Definition copy_range (fh_in offset_in fh_out offset_out len : Z) : M Failure Response :=
  '(src, _) ← file_and_path fh_in;
  '(dst, path) ← file_and_path fh_out;
  offset_in ← up (of_result (i64_try_from offset_in));
  offset_out ← up (of_result (i64_try_from offset_out));
  _ ← act (E_record path);
  copied ← up (retry turns (call (E_copy_file_range src offset_in dst offset_out (Z.min len MAX_COPY))));
  if (0 <=? copied) && (copied <? 2 ^ 32) then ok (Resp_Copied copied) else Panicked.

Definition allocate (fh offset len mode : Z) : M Failure Response :=
  if MAX_FALLOCATE <? len then throw (F_Errno EINVAL)
  else
    mode ← up (of_result (ok_or (from_bits FALLOCATE_MODES_ALLOWED mode) EOPNOTSUPP));
    '(file, path) ← file_and_path fh;
    offset ← up (of_result (i64_try_from offset));
    len ← up (of_result (i64_try_from len));
    _ ← act (E_record path);
    _ ← up (retry turns (call (E_fallocate file mode offset len)));
    ok Resp_Ok.

Definition run_write (fh offset : Z) (data : list byte) : M Failure Response :=
  if MAX_IO <? len_z data then throw (F_Errno EINVAL)
  else
    '(file, path) ← file_and_path fh;
    _ ← act (E_record path);
    _ ← up (write_all_at turns file data offset);
    ok (Resp_Written (as_u32 (len_z data))).

Definition run_lseek (fh offset : Z) (whence : Whence) : M Failure Response :=
  '(file, _) ← file_and_path fh;
  offset ← up (of_result (i64_try_from offset));
  found ← up (call (E_lseek file offset
                      (match whence with Whence_Data => Seek_Data | Whence_Hole => Seek_Hole end)) : M Z Z);
  if found <? 0 then Panicked else ok (Resp_Seeked found).

Definition run_release (fh : Z) : M Failure Response := _ ← act (E_remove fh); ok Resp_Ok.

Definition run_fsync (fh : Z) (datasync : bool) : M Failure Response :=
  h ← up (get fh);
  _ ← up (call (E_sync (fd_of h) datasync));
  ok Resp_Ok.

Definition run_readdir (fh offset max_bytes : Z) : M Failure Response :=
  dir ← up (call (E_dir fh) : M Z Z);
  listing ← up (read_dir_fd dir offset (Z.min max_bytes MAX_IO));
  ok (Resp_Readdir (ls_entries listing) (ls_end listing)).

Definition run_statfs (path : Path) : M Failure Response :=
  fd ← up (resolve x path);
  s ← up (statfs fd);
  ok (Resp_Statfs s).

Definition run_setxattr (path : Path) (name value : list byte) (flags : Z) : M Failure Response :=
  _ ← act (E_record path);
  fd ← up (resolve x path);
  cname ← up (of_result (cstring name));
  _ ← up (call (E_setxattr (Proc_fd fd) cname value flags));
  ok Resp_Ok.

Definition run_getxattr (path : Path) (name : list byte) : M Failure Response :=
  fd ← up (resolve x path);
  cname ← up (of_result (cstring name));
  value ← up (xattr_read 4 (λ room, call (E_getxattr (Proc_fd fd) cname room)));
  ok (Resp_Xattr value).

Definition run_listxattr (path : Path) : M Failure Response :=
  fd ← up (resolve x path);
  list ← up (xattr_read 4 (λ room, call (E_listxattr (Proc_fd fd) true room)));
  ok (Resp_Xattr list).

Definition run_removexattr (path : Path) (name : list byte) : M Failure Response :=
  _ ← act (E_record path);
  fd ← up (resolve x path);
  cname ← up (of_result (cstring name));
  _ ← up (call (E_removexattr (Proc_fd fd) cname));
  ok Resp_Ok.

Definition run_access (path : Path) (mask : Z) : M Failure Response :=
  fd ← up (resolve x path);
  mode ← up (of_result (ok_or (from_bits ACCESS_FLAGS mask) EINVAL));
  _ ← up (call (E_faccessat (Proc_fd fd) mode AT_EACCESS));
  ok Resp_Ok.

Definition run (req : Request) (reserved : Reservation) : M Failure Response :=
  match req with
  | Req_Lookup parent name =>
      dir ← up (resolve_dir x parent);
      attr ← up (attr_in x dir name);
      ok (Resp_Entry attr)
  | Req_Getattr path fh =>
      handle ← up (get_opt fh);
      attr ← up (match handle with
                 | Some h => attr_of x (fd_of h)
                 | None => path ← some_path path; fd ← resolve x path; attr_of x fd
                 end);
      ok (Resp_Attr attr)
  | Req_Setattr path fh set => up (setattr path fh set)
  | Req_Readlink path =>
      fd ← up (resolve x path);
      target ← up (call (E_readlinkat fd) : M Z (list byte));
      ok (Resp_Readlink target)
  | Req_Mknod parent name mode rdev =>
      let fmt := Z.land mode S_IFMT in
      if negb ((fmt =? S_IFREG) || (fmt =? S_IFIFO) || (fmt =? S_IFSOCK)) then throw (F_Errno EPERM)
      else entry_made parent name (λ dir,
             call (E_mknodat dir (as_bytes name) fmt (Z.land mode PERM_BITS) rdev))
  | Req_Mkdir parent name mode =>
      entry_made parent name (λ dir, call (E_mkdirat dir (as_bytes name) (Z.land mode PERM_BITS)))
  | Req_Unlink parent name => entry_removed parent name false
  | Req_Rmdir parent name => entry_removed parent name true
  | Req_Symlink parent name target =>
      entry_made parent name (λ dir, call (E_symlinkat target dir (as_bytes name)))
  | Req_Rename parent name newparent newname flags =>
      flags ← up (of_result (ok_or (from_bits RENAME_FLAGS flags) EINVAL));
      if has_flag flags RENAME_WHITEOUT then throw (F_Errno EINVAL)
      else
        old_dir ← up (resolve_dir x parent);
        new_dir ← up (resolve_dir x newparent);
        _ ← act (E_record_entry parent name);
        _ ← act (E_record_entry newparent newname);
        _ ← up (call (E_renameat2 old_dir (as_bytes name) new_dir (as_bytes newname) flags));
        ok Resp_Ok
  | Req_Link path newparent newname =>
      '(old_dir, old_name) ← up (resolve_parent x path);
      new_dir ← up (resolve_dir x newparent);
      _ ← act (E_record_entry newparent newname);
      _ ← up (call (E_linkat old_dir (as_bytes old_name) new_dir (as_bytes newname)));
      attr ← up (attr_in x new_dir newname);
      ok (Resp_Entry attr)
  | Req_Open _ path flags => open_with reserved (opening_file path flags)
  | Req_Create _ parent name mode flags => open_with reserved (opening_new parent name mode flags)
  | Req_Read fh offset size =>
      '(file, _) ← file_and_path fh;
      data ← up (read_fill turns file (Z.min size MAX_IO) offset []);
      ok (Resp_Read data)
  | Req_Write fh offset data => run_write fh offset data
  | Req_CopyFileRange fh_in offset_in fh_out offset_out len =>
      copy_range fh_in offset_in fh_out offset_out len
  | Req_Fallocate fh offset len mode => allocate fh offset len mode
  | Req_Lseek fh offset whence => run_lseek fh offset whence
  | Req_Release fh _ | Req_Releasedir fh _ => run_release fh
  | Req_Fsync fh datasync => run_fsync fh datasync
  | Req_Opendir _ path => open_with reserved (opening_dir path)
  | Req_Readdir fh offset max_bytes => run_readdir fh offset max_bytes
  | Req_Statfs path => run_statfs path
  | Req_Setxattr path name value flags => run_setxattr path name value flags
  | Req_Getxattr path name => run_getxattr path name
  | Req_Listxattr path => run_listxattr path
  | Req_Removexattr path name => run_removexattr path name
  | Req_Access path mask => run_access path mask
  end.

Definition dispatch (ids : ServerIds.IdMap) (req : Request) (reserved : Reservation) : Prog Response :=
  match ServerIds.IdMap_admit ids req with
  | Err errno => drop_reserved reserved (Ret (Resp_Err errno))
  | Ok _ =>
      bind (run req reserved) (λ r,
        match r with
        | Ok resp => Ret (ServerIds.reply ids (reads_posix_acl req) resp)
        | Err F_PoolFull => Do (E_refused None) (λ _, Ret (Resp_Err EMFILE))
        | Err (F_Errno e) =>
            if (e =? EMFILE) || (e =? ENFILE)
            then Do (E_refused (Some e)) (λ _, Ret (Resp_Err e))
            else Ret (Resp_Err e)
        end)
  end.

End ops.

(** The requests [run] has a definition of its own for. *)
Ltac run_arms :=
  try unfold run_write;
  try unfold run_lseek;
  try unfold run_release;
  try unfold run_fsync;
  try unfold run_readdir;
  try unfold run_statfs;
  try unfold run_setxattr;
  try unfold run_getxattr;
  try unfold run_listxattr;
  try unfold run_removexattr;
  try unfold run_access.
