(* ===== verification/OpsLogic.v ===== *)
(** * Proving things of a request's program

    The tactic that walks a program of [Ops.v], what keeps an invariant through a
    [Setattr], and the programs that only look at the export, for any monitor that is
    indifferent to looking. *)

From S2P Require Import Prelude Types Msg Wire Owners ServerHandles Dirents Sys Export Ops.

Lemma path_parts p parent name :
  path_valid p → Path_split_last p = Some (parent, name) → path_valid parent ∧ name_valid name.
Proof.
  intros [Hv Hlen] Hs%Path_split_last_Some. rewrite Hs, Forall_app in Hv. destruct Hv as [Hpar Hn].
  split; [split; [done|]|by inversion Hn].
  etrans; [|exact Hlen]. destruct p as [ns]. cbn in *. subst ns. apply byte_len_prefix.
Qed.

(** Steps through a program: binds are taken apart, an effect leaves its acceptance and
    what follows its answer. *)
Ltac prog_step :=
  cbv beta iota delta [map_err];
  lazymatch goal with
  | |- triple _ _ _ (_ ≫= _) _ => apply triple_mbind
  | |- triple _ _ _ (_ <$> _) _ => apply triple_fmap
  | |- triple _ _ _ (map_error _ _) _ => apply triple_map_error
  | |- triple _ _ _ (up _) _ => apply triple_map_error
  | |- triple _ _ _ (bind _ _) _ => apply triple_bind
  | |- triple _ _ _ (act _) _ => apply triple_act
  | |- triple _ _ _ (of_result ?r) _ => destruct r; cbn [of_result triple]
  | |- triple _ _ _ (Ret _) _ => cbn [triple]
  | |- triple _ _ _ (ok _) _ => cbn [ok triple]
  | |- triple _ _ _ (throw _) _ => cbn [throw triple]
  | |- triple _ _ _ Stuck _ => exact I
  | |- triple _ _ _ Panicked _ => reflexivity
  | |- triple _ _ _ (let '(_, _) := ?p in _) _ => destruct p
  | |- triple _ _ _ (if ?b then _ else _) _ => destruct b
  end.

#[global] Arguments attr_of : simpl never.
#[global] Arguments openat2_root : simpl never.
#[global] Arguments attr_in : simpl never.
#[global] Arguments attr_entry : simpl never.
#[global] Arguments xattr_read : simpl never.
#[global] Arguments retry : simpl never.
#[global] Arguments read_fill : simpl never.
#[global] Arguments write_all_at : simpl never.

(** What every change keeps, [set_target] keeps. *)
Lemma triple_set_target `{!Libc} x m contract (I : mon_state m → Prop) target path set Q g :
  I g →
  (∀ g uid gid, I g → triple m contract g (change_owner target uid gid) (λ g' _, I g')) →
  (∀ g mode, I g → triple m contract g (change_mode target mode) (λ g' _, I g')) →
  (∀ g size, I g → triple m contract g (change_size x target path size) (λ g' _, I g')) →
  (∀ g atime mtime, I g → triple m contract g (change_times x target path atime mtime) (λ g' _, I g')) →
  (∀ g, I g → triple m contract g (attr_of x (target_fd target)) (λ g' _, I g')) →
  (∀ g r, I g → Q g r) → triple m contract g (set_target x target path set) Q.
Proof.
  intros HI Ho Hm Hs Ht Ha HQ. unfold set_target.
  assert (∀ g (p : M Z ()), (∀ g, I g → triple m contract g p (λ g' _, I g')) → I g →
    ∀ b, triple m contract g (when b p) (λ g' _, I g')) as Hwhen.
  { intros g' p Hp HI' [|]; [by apply Hp|done]. }
  apply (triple_keep m contract I); [done| |by auto|intros g1 [] H1].
  { intros. apply Hwhen; auto. }
  apply (triple_keep m contract I); [done| |by auto|intros g2 [] H2].
  { intros. destruct (s_mode set); [by apply Hm|done]. }
  apply (triple_keep m contract I); [done| |by auto|intros g3 [] H3].
  { intros. destruct (s_size set); [by apply Hs|done]. }
  apply (triple_keep m contract I); [done| |by auto|intros g4 [] H4].
  { intros. apply Hwhen; auto. }
  apply (triple_keep m contract I); [done|done|by auto|intros; by apply HQ].
Qed.

(** ** Classes of effects *)

(** A discipline for a whole program: whether it may panic, the effects it may have, and
    what is known of their answers. *)
Record Discipline := MkDiscipline {
  dc_panics : bool;
  dc_may : Eff → bool;
  dc_known : ∀ e, Answer e → Prop }.

Definition disciplined {A} (D : Discipline) (p : Prog A) : Prop :=
  triple (MkMonitor (dc_panics D) () (λ _ e, dc_may D e = true) (λ _ _ _, tt)) (λ _, dc_known D)
    tt p (λ _ _, True).

(** Every effect of the program is of class [P]. *)
Definition only (P : Eff → bool) : Discipline := MkDiscipline true P (λ _ _, True).
Notation each P := (disciplined (only P)).

Lemma triple_each {A} (P : Eff → bool) m contract (I : mon_state m → Prop) (p : Prog A) Q :
  mon_panics m = true →
  (∀ g e, I g → P e = true → mon_ok m g e ∧ ∀ a, contract g e a → I (mon_next m g e a)) →
  each P p → (∀ g r, I g → Q g r) → ∀ g, I g → triple m contract g p Q.
Proof.
  intros Hpanic HP Hp HQ. unfold disciplined in Hp. induction p as [a|e k IH| |]; intros g Hg; cbn; auto.
  destruct Hp as [He Hk]. destruct (HP g e Hg He) as [Hok Hnext]. split; [done|].
  intros a Ha. apply IH; [by apply Hk|by apply Hnext].
Qed.

Lemma each_mono {A} (P P' : Eff → bool) (p : Prog A) :
  (∀ e, P e = true → P' e = true) → each P p → each P' p.
Proof.
  intros HP Hp. apply (triple_each P _ _ (λ _, True)); try done. intros g e _ He. split; [by apply HP|done].
Qed.

Lemma each_steps {A} P (p p' : Prog A) tr : each P p → steps p tr p' → Forall (λ ev, P (ev_eff ev) = true) tr.
Proof.
  unfold disciplined. revert p. induction tr as [|[e a] tr IH]; intros [|e' k| |] Hp Hs; try done; try constructor.
  all: cbn in Hs; destruct Hs as (a' & [= <- _] & Hs), Hp as [He Hk].
  - done.
  - by apply IH with (k a'); [apply Hk|].
Qed.

Lemma disciplined_steps {A} D (p p' : Prog A) tr : disciplined D p → steps p tr p' →
  Forall (λ ev, dc_known D (ev_eff ev) (ev_ans ev)) tr → disciplined D p'.
Proof.
  unfold disciplined. revert p. induction tr as [|[e a] tr IH]; intros p Hp Hs Hk; [by rewrite Hs|].
  destruct p as [|e' k| |]; try done. destruct Hs as (a' & Heq & Hs), Hp as [_ Hp].
  apply Forall_cons_iff in Hk as [Ha Hk]. rewrite Heq in Ha. by apply IH with (k a'); [apply Hp|..].
Qed.

(** Looking: nothing is opened, changed or shared. *)
Definition looks (e : Eff) : bool :=
  match e with
  | E_statx _ _ _ | E_fstat_mode _ | E_name_to_handle_at _ _ _ | E_listxattr _ _ _ | E_getxattr _ _ _
  | E_readlinkat _ | E_faccessat _ _ _ | E_fstatfs _ | E_getdents _ _ | E_pread _ _ _ | E_lseek _ _ _
  | E_sync _ _ => true
  | _ => false
  end.

(** Changing the exported filesystem. *)
Definition mutates (e : Eff) : bool :=
  match e with
  | E_openat2 _ _ flags _ _ => has_flag flags O_CREAT || has_flag flags O_TRUNC
  | E_mknodat _ _ _ _ _ | E_mkdirat _ _ _ | E_unlinkat _ _ _ | E_symlinkat _ _ _
  | E_renameat2 _ _ _ _ _ | E_linkat _ _ _ _ | E_pwrite _ _ _ | E_copy_file_range _ _ _ _ _
  | E_fallocate _ _ _ _ | E_setxattr _ _ _ _ | E_removexattr _ _ | E_fchown _ _ _
  | E_fchownat _ _ _ | E_fchmod _ _ | E_chmod _ _ | E_ftruncate _ _ | E_futimens _ _ _
  | E_utimensat _ _ _ _ => true
  | _ => false
  end.

(** Opening what is there, to look at it. *)
Definition visits (e : Eff) : bool :=
  looks e || match e with E_openat2 _ _ _ _ _ => negb (mutates e) | _ => false end.

(** By the shape of the program. *)
Section disciplined.
Context (D : Discipline).

Lemma each_ret {A} (a : A) : disciplined D (Ret a).
Proof. done. Qed.
Lemma each_do {A} e (k : Answer e → Prog A) : dc_may D e = true →
  (∀ a, dc_known D e a → disciplined D (k a)) → disciplined D (Do e k).
Proof. by split. Qed.
Lemma each_act {E} e : dc_may D e = true → disciplined D (act e : M E _).
Proof. intros He. by apply each_do. Qed.
Lemma each_bind {A B} (p : Prog A) (f : A → Prog B) :
  disciplined D p → (∀ a, disciplined D (f a)) → disciplined D (bind p f).
Proof. intros Hp Hf. apply triple_bind. eapply triple_mono; [exact Hp|]. intros [] a _. apply Hf. Qed.
Lemma each_mbind {E A B} (p : M E A) (f : A → M E B) :
  disciplined D p → (∀ a, disciplined D (f a)) → disciplined D (p ≫= f).
Proof. intros Hp Hf. apply each_bind; [done|]. by intros [a|e]. Qed.
Lemma each_fmap {E A B} (f : A → B) (p : M E A) : disciplined D p → disciplined D (f <$> p).
Proof. intros Hp. by apply each_bind. Qed.
Lemma each_map_error {E E' A} (f : E → E') (p : M E A) : disciplined D p → disciplined D (map_error f p).
Proof. intros Hp. by apply each_bind. Qed.
Lemma each_retry {A} n (p : M Z A) : disciplined D p → disciplined D (retry n p).
Proof.
  intros Hp. induction n as [|n IH]; [done|]. apply each_bind; [done|].
  intros [a|e]; [done|]. by destruct (e =? EINTR).
Qed.
End disciplined.

(** Takes a program apart down to its effects, which [by] or a lemma of [each_db] settles. *)
Create HintDb each_db discriminated.
Ltac each_walk :=
  repeat first
    [ progress intros
    | assumption
    | lazymatch goal with
      | |- disciplined _ (Ret _) => apply each_ret
      | |- disciplined _ (ok _) => apply each_ret
      | |- disciplined _ (throw _) => apply each_ret
      | |- disciplined _ (of_result _) => apply each_ret
      | |- disciplined _ Stuck => exact I
      | |- disciplined _ Panicked => reflexivity
      end
    | solve [eauto 4 with each_db nocore]
    | lazymatch goal with
      | |- disciplined _ (_ ≫= _) => apply each_mbind
      | |- disciplined _ (_ <$> _) => apply each_fmap
      | |- disciplined _ (up _) => apply each_map_error
      | |- disciplined _ (map_error _ _) => apply each_map_error
      | |- disciplined _ (bind _ _) => apply each_bind
      | |- disciplined _ (act _) => apply each_act
      | |- disciplined _ (Do _ _) => apply each_do
      | |- disciplined _ (retry _ _) => apply each_retry
      | |- disciplined _ (when ?b _) => destruct b; cbn [when]
      | |- disciplined _ (let '(_, _) := ?p in _) => destruct p
      | |- disciplined _ (match ?x with _ => _ end) => destruct x
      | |- _ = true => reflexivity
      end ].

Section looking.
Context `{!Libc} (x : Export) (turns : nat).

Lemma looks_attr_of fd : each looks (attr_of x fd).
Proof. unfold attr_of, statx, file_handle, xattr_names, xattr_names_by_path. each_walk. Qed.

Lemma looks_attr_entry dir name : each looks (attr_entry x dir name).
Proof. unfold attr_entry, statx, file_handle, xattr_names_at, xattr_names_by_path. each_walk. Qed.

Lemma looks_list_records dir max_bytes raws : ∀ used entries,
  each looks (list_records x dir max_bytes used entries raws).
Proof.
  induction raws as [|raw raws IH]; intros used entries; [done|]. cbn [list_records].
  pose proof looks_attr_entry. each_walk; apply IH.
Qed.

Lemma looks_list_calls dir max_bytes n : ∀ used entries,
  each looks (list_calls x n dir max_bytes used entries).
Proof.
  induction n as [|n IH]; intros used entries; [done|]. cbn [list_calls].
  each_walk. apply looks_list_records.
Qed.

Lemma looks_xattr_read query n : (∀ room, each looks (query room)) → each looks (xattr_read n query).
Proof. intros Hq. induction n; unfold xattr_read; fold xattr_read; each_walk; apply Hq. Qed.

Lemma looks_read_fill fd size offset n : ∀ filled, each looks (read_fill n fd size offset filled).
Proof. induction n; intros filled; unfold read_fill; fold read_fill; each_walk; auto. Qed.

Lemma looks_visits {A} (p : Prog A) : each looks p → each visits p.
Proof. apply each_mono. intros e He. unfold visits. by rewrite He. Qed.

Lemma visits_openat2_root path flags mode :
  has_flag (Z.lor flags O_CLOEXEC) O_CREAT = false → has_flag (Z.lor flags O_CLOEXEC) O_TRUNC = false →
  each visits (openat2_root x path flags mode).
Proof.
  intros Hc Ht. apply each_do; [|done]. unfold only, dc_may, visits, mutates. by rewrite Hc, Ht.
Qed.

Lemma visits_resolve path : each visits (resolve x path).
Proof. by apply visits_openat2_root. Qed.
Lemma visits_resolve_dir path : each visits (resolve_dir x path).
Proof. by apply visits_openat2_root. Qed.
Lemma visits_resolve_parent path : each visits (resolve_parent x path).
Proof. unfold resolve_parent. each_walk. apply visits_resolve_dir. Qed.
Lemma visits_attr_in dir name : each visits (attr_in x dir name).
Proof. unfold attr_in. each_walk. apply looks_visits, looks_attr_of. Qed.
End looking.

#[export] Hint Resolve looks_attr_of looks_visits visits_resolve visits_resolve_dir : each_db.
#[export] Hint Resolve visits_resolve_parent visits_attr_in looks_list_calls looks_read_fill : each_db.

(** ** A file's bytes *)

(** What a read of [len] bytes from [offset] finds. *)
Definition sliced (content : list byte) (offset len : Z) : list byte :=
  take (Z.to_nat len) (drop (Z.to_nat offset) content).

(** What a write of [data] leaves: a hole before it reads as zeros. *)
Definition spliced (old data : list byte) (offset : Z) : list byte :=
  match data with
  | [] => old
  | _ => take (Z.to_nat offset) (old ++ replicate (Z.to_nat offset - length old) Byte.x00)
         ++ data ++ drop (Z.to_nat offset + length data) old
  end.

(** ** A small export *)

(** An environment that says yes: descriptors count up, a file holds [content], a read
    gives one byte at most and a write takes two. *)
Module Demo.

#[export] Instance libc : Libc := {| makedev := λ major minor, major * 256 + minor |}.

Definition identity : Identity := MkIdentity 1 [Byte.x07].
Definition export : Export := MkExport 3 2 identity (Subvol_Dev 8 1) AT_HANDLE_FID.
Definition time : TimeSpec := {| ts_sec := 5; ts_nsec := 0 |}.
Definition statx_of_file : Statx :=
  MkStatx 0 4096 0 STATX_ATTR_MOUNT_ROOT 1 1000 1000 (Z.lor S_IFREG 420) 77 3 8 time time time 0 0 8 1 0.

Record State := MkState { next_fd : Z; content : list byte }.
Definition start : State := MkState 10 [Byte.x61; Byte.x62; Byte.x63].

Definition path_b : Path := MkPath [MkName [Byte.x62]].

Definition answers (st : State) (e : Eff) : Answer e * State :=
  match e return Answer e * State with
  | E_open _ _ | E_openat2 _ _ _ _ _ | E_dup _ => (Ok (next_fd st), MkState (next_fd st + 1) (content st))
  | E_statx _ _ _ => (Ok statx_of_file, st)
  | E_fstat_mode _ => (Ok (Z.lor S_IFREG 420), st)
  | E_name_to_handle_at _ _ _ => (Ok identity, st)
  | E_readlinkat _ | E_getdents _ _ => (Ok [], st)
  | E_pread _ len offset => (Ok (take 1 (drop (Z.to_nat offset) (content st))), st)
  | E_listxattr _ _ _ | E_getxattr _ _ _ => (Ok (0, []), st)
  | E_fstatfs _ => (Ok (MkStatfs 4096 0 0 0 0 0 255 4096), st)
  | E_pwrite _ data offset =>
      (Ok (Z.of_nat (length (take 2 data))),
       MkState (next_fd st) (spliced (content st) (take 2 data) offset))
  | E_copy_file_range _ _ _ _ _ | E_lseek _ _ _ => (Ok 0, st)
  | E_get _ => (Ok (Handle_File 4 path_b None), st)
  | E_file_and_path _ => (Ok (4, path_b), st)
  | E_dir _ => (Ok 4, st)
  | E_remove _ => (None, st)
  | E_insert _ _ => (Ok None, st)
  | E_drop_slot _ | E_record _ | E_record_entry _ _ | E_refused _ => ((), st)
  | E_hold _ => (Some 1, st)
  | E_faccessat _ _ _ | E_mknodat _ _ _ _ _ | E_mkdirat _ _ _ | E_unlinkat _ _ _ | E_symlinkat _ _ _
  | E_renameat2 _ _ _ _ _ | E_linkat _ _ _ _ | E_fallocate _ _ _ _ | E_sync _ _ | E_setxattr _ _ _ _
  | E_removexattr _ _ | E_fchown _ _ _ | E_fchownat _ _ _ | E_fchmod _ _ | E_chmod _ _ | E_ftruncate _ _
  | E_futimens _ _ _ | E_utimensat _ _ _ _ => (Ok (), st)
  end.

Definition name_b : Name := MkName [Byte.x62].
Definition create_b : Request := Req_Create 9 Path_root name_b 420 O_WRONLY.
Definition slot_9 : Reservation := Ok (Some (Reserved_Slot (MkSlot 9 true))).
Definition read_b : Request := Req_Read 9 1 8.
Definition write_b : Request := Req_Write 9 2 [Byte.x78; Byte.x79; Byte.x7a].

Lemma name_b_valid : name_valid name_b.
Proof. unfold name_valid. cbn. split_and!; try done; [unfold NAME_MAX; lia|set_solver..]. Qed.

Lemma create_b_wf : request_wf create_b.
Proof.
  split; cbn [create_b req_paths req_names]; apply Forall_singleton; [|apply name_b_valid].
  split; [by apply Forall_nil|apply Nat.le_0_l].
Qed.

Definition ids : ServerIds.IdMap := ServerIds.MkIdMap ServerIds.Direct 0 0.

(** The trace of a request here, and how it ends. *)
Definition ran (req : Request) (reserved : Reservation) : list Event :=
  (exec answers start (dispatch export 8 ids req reserved)).1.1.
Definition ended (req : Request) (reserved : Reservation) : Prog Response :=
  (exec answers start (dispatch export 8 ids req reserved)).1.2.

Lemma ran_steps req reserved : steps (dispatch export 8 ids req reserved) (ran req reserved) (ended req reserved).
Proof. apply exec_steps. Qed.

Lemma ran_read_b : ran read_b (Ok None) =
  [Ev (E_file_and_path 9) (Ok (4, path_b)); Ev (E_pread 4 8 1) (Ok [Byte.x62]);
   Ev (E_pread 4 7 2) (Ok [Byte.x63]); Ev (E_pread 4 6 3) (Ok [])].
Proof. vm_compute. reflexivity. Qed.

End Demo.
