(* ===== verification/OpsSafe.v ===== *)
(** * What requests do to the export ([crates/server/src/ops.rs], [export.rs])

    The safety of [Ops.dispatch], as monitors over its traces: where it can reach, what
    it may change and under whose name, and what becomes of an open's slot. *)

From S2P Require Import Prelude Types Msg Wire Owners ServerHandles Dirents Sys Export Ops OpsLogic.

(** ** Reach *)

(** A single component, as the [*at] calls take. *)
Definition component (path : list byte) : Prop := ∃ name, name_valid name ∧ path = as_bytes name.

Definition proc_path_ok (pinned : gset Fd) (path : ProcPath) : Prop :=
  match path with
  | Proc_fd fd => fd ∈ pinned
  | Proc_entry dir name => dir ∈ pinned ∧ component name
  end.

(** How the kernel is told to resolve a path, bit by bit of [open_how.resolve] and of the
    open flags as its interface numbers them: on the same mount ([RESOLVE_NO_XDEV]),
    through no magic link and no symbolic link, and never above where it began
    ([RESOLVE_BENEATH]); nothing followed at the last component ([O_NOFOLLOW]), the
    descriptor closed on exec, and opened for its name alone ([O_PATH]) or without
    waiting ([O_NONBLOCK]). *)
Definition confined (resolve : Z) : Prop :=
  Z.testbit resolve 0 = true ∧ Z.testbit resolve 1 = true
  ∧ Z.testbit resolve 2 = true ∧ Z.testbit resolve 3 = true.
Definition opened_safely (flags : Z) : Prop :=
  Z.testbit flags 17 = true ∧ Z.testbit flags 19 = true
  ∧ (Z.testbit flags 21 = true ∨ Z.testbit flags 11 = true).

(** What a request may ask of the kernel, [pinned] being the descriptors it has: a path
    of more than one component only in an [openat2] beneath the root that follows
    nothing; anything else by a descriptor, or by one component below one, whose link
    [statx] does not follow ([AT_SYMLINK_NOFOLLOW], bit 8). *)
Definition beneath (x : Export) (pinned : gset Fd) (e : Eff) : Prop :=
  match e with
  | E_open _ _ => False
  | E_openat2 dir path flags mode resolve =>
      confined resolve ∧ opened_safely flags
      ∧ (dir = ex_root x ∧ (path = dot_path ∨ ∃ p, path_valid p ∧ path = to_os_string p)
         ∨ dir ∈ pinned ∧ component path)
  | E_statx dir path flags =>
      dir ∈ pinned ∧ Z.testbit flags 8 = true
      ∧ (path = [] ∧ has_flag flags AT_EMPTY_PATH = true ∨ component path)
  | E_name_to_handle_at dir path flags =>
      dir ∈ pinned ∧ (path = [] ∧ has_flag flags AT_EMPTY_PATH = true ∨ component path)
  | E_listxattr path follow _ =>
      proc_path_ok pinned path ∧ (follow = false ∨ ∃ fd, path = Proc_fd fd)
  | E_getxattr path _ _ | E_faccessat path _ _ | E_setxattr path _ _ _ | E_removexattr path _
  | E_chmod path _ => proc_path_ok pinned path ∧ ∃ fd, path = Proc_fd fd
  | E_mknodat dir name _ _ _ | E_mkdirat dir name _ | E_unlinkat dir name _
  | E_symlinkat _ dir name => dir ∈ pinned ∧ component name
  | E_renameat2 old name new newname _ | E_linkat old name new newname =>
      old ∈ pinned ∧ component name ∧ new ∈ pinned ∧ component newname
  | E_utimensat dir name _ _ => dir ∈ pinned ∧ component name ∨ dir = ex_root x ∧ name = dot_path
  | E_fstat_mode fd | E_readlinkat fd | E_fstatfs fd | E_getdents fd _ | E_dup fd
  | E_pread fd _ _ | E_pwrite fd _ _ | E_fallocate fd _ _ _ | E_lseek fd _ _ | E_sync fd _
  | E_fchown fd _ _ | E_fchownat fd _ _ | E_fchmod fd _ | E_ftruncate fd _ | E_futimens fd _ _ =>
      fd ∈ pinned
  | E_copy_file_range src _ dst _ _ => src ∈ pinned ∧ dst ∈ pinned
  | E_insert _ h => fd_of h ∈ pinned
  | E_get _ | E_file_and_path _ | E_dir _ | E_remove _ | E_drop_slot _ | E_record _
  | E_record_entry _ _ | E_hold _ | E_refused _ => True
  end.

(** A descriptor is pinned by the [openat2] that gave it, or as an open handle's. *)
Definition pin (pinned : gset Fd) (e : Eff) : Answer e → gset Fd :=
  match e with
  | E_openat2 _ _ _ _ _ | E_dup _ | E_dir _ =>
      λ a, match a with Ok fd => {[fd]} ∪ pinned | Err _ => pinned end
  | E_get _ => λ a, match a with Ok h => {[fd_of h]} ∪ pinned | Err _ => pinned end
  | E_file_and_path _ => λ a, match a with Ok (fd, _) => {[fd]} ∪ pinned | Err _ => pinned end
  | _ => λ _, pinned
  end.

Definition reach (x : Export) : Monitor := MkMonitor true (gset Fd) (beneath x) pin.

Lemma component_name n : name_valid n → component (as_bytes n).
Proof. intros H. by exists n. Qed.

Lemma has_flag_lor_l a b bit : has_flag a bit = true → has_flag (Z.lor a b) bit = true.
Proof.
  unfold has_flag. rewrite !Z.eqb_eq. intros H. rewrite Z.land_lor_distr_l, H.
  apply Z.bits_inj'. intros n _. rewrite Z.lor_spec, Z.land_spec.
  destruct (Z.testbit bit n), (Z.testbit b n); done.
Qed.

Lemma has_flag_lor_r a b bit : has_flag b bit = true → has_flag (Z.lor a b) bit = true.
Proof. rewrite Z.lor_comm. apply has_flag_lor_l. Qed.

Lemma has_flag_self bit : has_flag bit bit = true.
Proof. unfold has_flag. by rewrite Z.land_diag, Z.eqb_refl. Qed.

Ltac flag := repeat first [apply has_flag_self | apply has_flag_lor_r; apply has_flag_self | apply has_flag_lor_l].

Section reach.
Context `{!Libc} (x : Export) (turns : nat).
Notation triple_r := (triple (reach x) no_contract).
Implicit Types (g : gset Fd).

Lemma reach_attr_of g fd Q : fd ∈ g → (∀ r, Q g r) → triple_r g (attr_of x fd) Q.
Proof.
  intros Hfd HQ. unfold attr_of, statx, file_handle, xattr_names, xattr_names_by_path.
  cbn. split; [split_and!; [done|done|by left]|].
  intros [st|] _; cbn; [|done]. split; [split; [done|left; split; [done|flag]]|].
  intros [i|] _; cbn; [|done]. split; [split; [done|right; by exists fd]|]. done.
Qed.

Lemma reach_openat2 g dir path flags mode Q :
  has_flag flags O_NOFOLLOW = true → has_flag flags O_CLOEXEC = true →
  (has_flag flags O_PATH = true ∨ has_flag flags O_NONBLOCK = true) →
  (dir = ex_root x ∧ (path = dot_path ∨ ∃ p, path_valid p ∧ path = to_os_string p)
   ∨ dir ∈ g ∧ component path) →
  (∀ e, Q g (Err e)) → (∀ fd, Q ({[fd]} ∪ g) (Ok fd)) →
  triple_r g (call (E_openat2 dir path flags mode RESOLVE) : M Z Fd) Q.
Proof.
  change O_NOFOLLOW with (2 ^ 17). change O_CLOEXEC with (2 ^ 19).
  change O_PATH with (2 ^ 21). change O_NONBLOCK with (2 ^ 11). rewrite !has_flag_bit by done.
  intros ????? HQ. cbn. split; [|by intros [fd|e] _].
  split; [by repeat split|]. by repeat split.
Qed.

Lemma reach_openat2_root g path flags mode Q :
  path_valid path → has_flag flags O_NOFOLLOW = true →
  (has_flag flags O_PATH = true ∨ has_flag flags O_NONBLOCK = true) →
  (∀ e, Q g (Err e)) → (∀ fd, Q ({[fd]} ∪ g) (Ok fd)) →
  triple_r g (openat2_root x path flags mode) Q.
Proof.
  intros Hp Hf Hn HQ HQ'. unfold openat2_root. apply reach_openat2; try done.
  - by apply has_flag_lor_l.
  - flag.
  - destruct Hn; [left|right]; by apply has_flag_lor_l.
  - left. split; [done|]. destruct (to_os_string path) eqn:Ht; [by left|right]. by exists path.
Qed.

Lemma reach_resolve g path Q : path_valid path →
  (∀ e, Q g (Err e)) → (∀ fd, Q ({[fd]} ∪ g) (Ok fd)) → triple_r g (resolve x path) Q.
Proof. intros. apply reach_openat2_root; try done. by left. Qed.

Lemma reach_resolve_dir g path Q : path_valid path →
  (∀ e, Q g (Err e)) → (∀ fd, Q ({[fd]} ∪ g) (Ok fd)) → triple_r g (resolve_dir x path) Q.
Proof. intros. apply reach_openat2_root; try done. by left. Qed.

Lemma reach_resolve_parent g path Q : path_valid path → (∀ e, Q g (Err e)) →
  (∀ dir name, name_valid name → Q ({[dir]} ∪ g) (Ok (dir, name))) →
  triple_r g (resolve_parent x path) Q.
Proof.
  intros Hp HQ HQ'. unfold resolve_parent.
  destruct (Path_split_last path) as [[parent name]|] eqn:Hs; [|apply HQ].
  apply path_parts in Hs as [Hd Hn]; [|done]. prog_step. cbn [of_result ok_or triple]. prog_step.
  apply reach_resolve_dir; [done|done|]. intros dir. by apply HQ'.
Qed.

Lemma reach_open_node g path flags Q : path_valid path →
  (∀ e, Q g (Err e)) → (∀ fd, Q ({[fd]} ∪ g) (Ok fd)) → triple_r g (open_node x path flags) Q.
Proof. intros. apply reach_openat2_root; try done; [|right]; flag. Qed.

Lemma reach_attr_in g dir name Q : dir ∈ g → name_valid name →
  (∀ g' r, Q g' r) → triple_r g (attr_in x dir name) Q.
Proof.
  intros Hd Hn HQ. unfold attr_in. prog_step. apply reach_openat2; try done.
  - by left.
  - right. split; [done|by apply component_name].
  - intros fd. apply reach_attr_of; [set_solver|done].
Qed.

Lemma reach_attr_entry g dir name Q : dir ∈ g → name_valid name →
  (∀ r, Q g r) → triple_r g (attr_entry x dir name) Q.
Proof.
  intros Hd Hn HQ. unfold attr_entry, statx, file_handle, xattr_names_at, xattr_names_by_path.
  pose proof (component_name name Hn) as Hc.
  cbn. split; [by split; [|right]|]. intros [i|] _; cbn; [|done].
  split; [by split_and!; [| |right]|]. intros [st|] _; cbn; [|done].
  case_match; cbn; [done|]. split; [by split; [|right]|]. intros [i'|] _; cbn; [|done].
  case_bool_decide; cbn; [|done]. split; [by split; [|left]|]. done.
Qed.

Lemma reach_list_records g dir max_bytes raws Q : dir ∈ g → (∀ r, Q g r) → ∀ used entries,
  triple_r g (list_records x dir max_bytes used entries raws) Q.
Proof.
  intros Hd HQ. induction raws as [|raw raws IH]; intros used entries; [apply HQ|]. cbn [list_records].
  case_match.
  - case_match; [apply HQ|apply IH].
  - destruct (Name_new (rd_name raw)) as [name|] eqn:Hn; [|apply IH].
    apply Name_new_spec in Hn as [-> Hn]. prog_step. apply reach_attr_entry; [done|done|].
    intros [attr|e]; [case_match; [apply HQ|apply IH]|].
    prog_step. prog_step; [apply IH|apply HQ].
Qed.

Lemma reach_list_calls g dir max_bytes Q n : dir ∈ g → (∀ r, Q g r) → ∀ used entries,
  triple_r g (list_calls x n dir max_bytes used entries) Q.
Proof.
  intros Hd HQ. induction n as [|n IH]; intros used entries; [done|]. cbn [list_calls].
  prog_step. split; [done|]. intros [buf|e] _; cbn; [|apply HQ]. destruct buf as [|b buf]; [apply HQ|].
  prog_step. apply reach_list_records; [done|]. intros [[[entries' used'] full]|e]; cbn; [|apply HQ].
  destruct full; [apply HQ|apply IH].
Qed.

Lemma reach_xattr_read g query Q : (∀ room Q, (∀ r, Q g r) → triple_r g (query room) Q) →
  (∀ r, Q g r) → ∀ attempts, triple_r g (xattr_read attempts query) Q.
Proof.
  intros Hq HQ. induction attempts as [|n IH]; [apply HQ|].
  unfold xattr_read; fold xattr_read. prog_step.
  apply Hq. intros [[needed buf]|e]; cbn; [|apply HQ]. prog_step. apply Hq.
  intros [[got buf']|e]; [apply HQ|]. destruct (e =? ERANGE); [apply IH|apply HQ].
Qed.

Lemma reach_call g e (Q : gset Fd → Answer e → Prop) : beneath x g e → (∀ a, Q (pin g e a) a) →
  triple_r g (call e) Q.
Proof. intros He HQ. split; [done|]. intros a _. apply HQ. Qed.

Lemma reach_retry {A} g (p : M Z A) Q : (∀ Q, (∀ r, Q g r) → triple_r g p Q) → (∀ r, Q g r) →
  ∀ n, triple_r g (retry n p) Q.
Proof.
  intros Hp HQ n. apply (triple_retry (reach x) no_contract n p (λ g' : gset Fd, g' = g)); [done|]. intros g' ->.
  apply Hp. intros [a|e]; [done|]. by destruct (e =? EINTR).
Qed.

Lemma reach_read_fill g fd size offset Q : fd ∈ g → (∀ r, Q g r) → ∀ n filled,
  triple_r g (read_fill n fd size offset filled) Q.
Proof.
  intros Hfd HQ. induction n as [|n IH]; intros filled; unfold read_fill; fold read_fill;
    (destruct (_ <? _); [|apply HQ]); [done|]. destruct (_ <=? _); [done|]. split; [done|].
  intros [bytes|e] _; cbn; [destruct bytes; [apply HQ|apply IH]|].
  destruct (e =? EINTR); [apply IH|apply HQ].
Qed.

Lemma reach_write_all g fd Q : fd ∈ g → (∀ r, Q g r) → ∀ n data offset,
  triple_r g (write_all_at n fd data offset) Q.
Proof.
  intros Hfd HQ. induction n as [|n IH]; intros [|b data] offset; unfold write_all_at; fold write_all_at;
    try apply HQ; [done|]. split; [done|].
  intros [k|e] _; cbn; [destruct (k =? 0); [apply HQ|apply IH]|].
  destruct (e =? EINTR); [apply IH|apply HQ].
Qed.

(** ** Attributes set *)

Lemma reach_change_owner g t uid gid Q : target_fd t ∈ g → (∀ r, Q g r) →
  triple_r g (change_owner t uid gid) Q.
Proof. intros. destruct t; by apply reach_call. Qed.

Lemma reach_change_mode g t mode Q : target_fd t ∈ g → (∀ r, Q g r) →
  triple_r g (change_mode t mode) Q.
Proof.
  intros Ht HQ. destruct t as [fd|node]; [by apply reach_call|]. unfold change_mode. prog_step.
  apply reach_call; [done|]. intros [st_mode|e]; cbn; [|apply HQ].
  case_bool_decide; [apply HQ|]. apply reach_call; [|done]. split; [done|by eexists].
Qed.

Lemma reach_change_size g t path size Q : target_fd t ∈ g → Forall path_valid (opt_list path) →
  (∀ g' r, g ⊆ g' → Q g' r) → triple_r g (change_size x t path size) Q.
Proof.
  intros Ht Hp HQ. destruct t as [fd|node]; [apply reach_call; [done|intros; by apply HQ]|].
  unfold change_size. prog_step. apply reach_call; [done|]. intros [st_mode|e]; cbn; [|by apply HQ].
  destruct (ok_or (kind_from_mode st_mode) EIO) as [kind|]; [|by apply HQ].
  destruct (servable kind); [|by apply HQ]. destruct path as [p|]; cbn; [|by apply HQ].
  apply Forall_cons_iff in Hp as [Hv _].
  prog_step. apply reach_open_node; [done|intros; by apply HQ|]. intros fd.
  apply reach_call; [cbn; set_solver|]. intros r. apply HQ. cbn. set_solver.
Qed.

Lemma reach_change_times g t path atime mtime Q : target_fd t ∈ g → Forall path_valid (opt_list path) →
  (∀ g' r, g ⊆ g' → Q g' r) → triple_r g (change_times x t path atime mtime) Q.
Proof.
  intros Ht Hp HQ. destruct t as [fd|node]; [apply reach_call; [done|intros; by apply HQ]|].
  unfold change_times. destruct path as [p|]; cbn; [|by apply HQ].
  apply Forall_cons_iff in Hp as [Hv _]. destruct (Path_split_last p) as [[parent name]|] eqn:Hs.
  - apply path_parts in Hs as [Hpar Hname]; [|done]. prog_step.
    apply reach_resolve_dir; [done|intros; by apply HQ|]. intros fd.
    apply reach_call; [left; split; [set_solver|by apply component_name]|].
    intros r. apply HQ. cbn. set_solver.
  - apply reach_call; [by right|]. intros. by apply HQ.
Qed.

Lemma reach_get_opt g fh Q : (∀ e, Q g (Err e)) → Q g (Ok None) →
  (∀ h, Q ({[fd_of h]} ∪ g) (Ok (Some h))) → triple_r g (get_opt fh) Q.
Proof.
  intros He Hn Hh. destruct fh as [fh|]; [|done]. unfold get_opt. prog_step. split; [done|].
  intros [h|e] _; cbn; [apply Hh|apply He].
Qed.

Lemma reach_setattr g path fh set Q : Forall path_valid (opt_list path) →
  (∀ g' r, Q g' r) → triple_r g (setattr x path fh set) Q.
Proof.
  intros Hp HQ.
  assert (∀ g target, target_fd target ∈ g → triple_r g (set_target x target path set) Q) as Hset.
  { clear g. intros g target Ht.
    apply (triple_set_target x (reach x) no_contract (λ g : gset Fd, target_fd target ∈ g)); try done.
    - intros. by apply reach_change_owner.
    - intros. by apply reach_change_mode.
    - intros. apply reach_change_size; [done|done|]. intros. set_solver.
    - intros. apply reach_change_times; [done|done|]. intros. set_solver.
    - intros. by apply reach_attr_of. }
  unfold setattr. prog_step. apply reach_get_opt; [done| |].
  - apply (triple_keep (reach x) no_contract (λ _, True)); [done| |done|].
    { intros. destruct path; cbn; [by split|done]. }
    intros g' _ _. destruct path as [p|]; cbn; [|apply HQ]. apply Forall_cons_iff in Hp as [Hv _].
    prog_step. prog_step. apply reach_resolve; [done|intros; apply HQ|].
    intros fd. apply Hset. cbn. set_solver.
  - intros h. apply (triple_keep (reach x) no_contract (λ g : gset Fd, fd_of h ∈ g)); [set_solver| |done|].
    { intros. case_match; cbn; [by split|done]. }
    intros g' _ Hh. cbn. split; [done|]. intros [fd|e] _; cbn; [|done]. apply Hset. cbn. set_solver.
Qed.

(** ** Opens *)

Definition reserved_fds (reserved : Reservation) : gset Fd :=
  match reserved with Ok (Some (Reserved_Held h)) => {[fd_of h]} | _ => ∅ end.

(** What is opened is pinned when it is kept. *)
Lemma reach_open_with g reserved opening Q :
  reserved_fds reserved ⊆ g →
  triple_r g opening (λ g' r, match r with Ok (h, _) => fd_of h ∈ g' | Err _ => True end) →
  (∀ g' r, Q g' r) → triple_r g (open_with x reserved opening) Q.
Proof.
  intros Hr Ho HQ. destruct reserved as [[[s|h]|]|e]; unfold open_with, opened_already.
  - prog_step. eapply triple_mono; [exact Ho|]. intros g' [[h attr]|e] Hh; cbn; [|by split].
    split; [done|]. intros [kept|e] _; cbn; apply HQ.
  - prog_step. prog_step. apply reach_attr_of; [set_solver|]. intros [a|e]; apply HQ.
  - done.
  - apply HQ.
Qed.

Lemma reach_opening (Q : gset Fd → result Failure (Handle * Attr) → Prop) g fd (k : Attr → M Failure (Handle * Attr)) :
  fd ∈ g → (∀ e, Q g (Err e)) → (∀ attr, triple_r g (k attr) Q) →
  triple_r g (attr ← up (attr_of x fd); _ ← up (of_result (servable (a_kind attr))); k attr) Q.
Proof.
  intros Hfd He Hk. prog_step. prog_step. apply reach_attr_of; [done|]. intros [attr|e]; cbn; [|done].
  destruct (servable (a_kind attr)); cbn; [apply Hk|done].
Qed.

Lemma reach_opening_file g path flags : path_valid path →
  triple_r g (opening_file x path flags)
    (λ g' r, match r with Ok (h, _) => fd_of h ∈ g' | Err _ => True end).
Proof.
  intros Hp. unfold opening_file.
  apply (triple_keep (reach x) no_contract (λ _, True)); [done| |done|].
  { intros. unfold when. by destruct (has_flag _ _). }
  intros g' _ _. prog_step. prog_step. apply reach_open_node; [done|done|]. intros fd.
  apply reach_opening; [set_solver|done|]. intros attr. cbn. split; [done|]. set_solver.
Qed.

Lemma reach_opening_new g parent name mode flags : path_valid parent → name_valid name →
  triple_r g (opening_new x parent name mode flags)
    (λ g' r, match r with Ok (h, _) => fd_of h ∈ g' | Err _ => True end).
Proof.
  intros Hp Hn. unfold opening_new. prog_step. prog_step; [done|]. intros ? _. cbn [mon_next reach pin]. prog_step. prog_step. unfold open_in. prog_step.
  apply reach_resolve_dir; [done|done|]. intros dir. apply reach_openat2; try done.
  - flag.
  - flag.
  - right. flag.
  - right. split; [set_solver|by apply component_name].
  - intros fd. apply reach_opening; [set_solver|done|]. intros attr. cbn. split; [done|].
    intros watch _. destruct (Path_join parent name); cbn; set_solver.
Qed.

Lemma reach_opening_dir g path : path_valid path →
  triple_r g (opening_dir x path)
    (λ g' r, match r with Ok (h, _) => fd_of h ∈ g' | Err _ => True end).
Proof.
  intros Hp. unfold opening_dir. prog_step. prog_step. apply reach_open_node; [done|done|].
  intros fd. apply reach_opening; [set_solver|done|]. intros attr. cbn. split; [done|]. set_solver.
Qed.

(** ** Requests *)

Lemma reach_entry_made g parent name make Q : path_valid parent → name_valid name →
  (∀ g dir Q, dir ∈ g → (∀ r, Q g r) → triple_r g (make dir) Q) →
  (∀ g' r, Q g' r) → triple_r g (entry_made x parent name make) Q.
Proof.
  intros Hp Hn Hm HQ. unfold entry_made. prog_step. prog_step.
  apply reach_resolve_dir; [done|intros; apply HQ|]. intros dir.
  prog_step. prog_step; [done|]. intros ? _. cbn [mon_next reach pin].
  prog_step. prog_step. apply Hm; [set_solver|]. intros [[]|e]; [|apply HQ].
  prog_step. prog_step. apply reach_attr_in; [set_solver|done|]. intros g' [?|?]; apply HQ.
Qed.

Lemma reach_entry_removed g parent name remove_dir Q : path_valid parent → name_valid name →
  (∀ g' r, Q g' r) → triple_r g (entry_removed x parent name remove_dir) Q.
Proof.
  intros Hp Hn HQ. unfold entry_removed. prog_step. prog_step.
  apply reach_resolve_dir; [done|intros; apply HQ|]. intros dir. cbn. split; [done|]. intros ? _.
  split; [split; [set_solver|by apply component_name]|]. intros [[]|e] _; apply HQ.
Qed.

Lemma reach_file_and_path g fh Q : (∀ e, Q g (Err e)) →
  (∀ fd path, Q ({[fd]} ∪ g) (Ok (fd, path))) → triple_r g (file_and_path fh) Q.
Proof. intros He Hok. split; [done|]. intros [[fd path]|e] _; [apply Hok|apply He]. Qed.

(** A node resolved, and one thing done with it. *)
Lemma reach_resolved {B} g path (k : Fd → M Failure B) Q : path_valid path →
  (∀ g e, Q g (Err e)) → (∀ fd, triple_r ({[fd]} ∪ g) (k fd) Q) →
  triple_r g (fd ← up (resolve x path); k fd) Q.
Proof. intros Hp He Hk. prog_step. prog_step. apply reach_resolve; [done|intros; apply He|done]. Qed.

Lemma reach_run g req reserved Q : request_wf req → reserved_fds reserved ⊆ g →
  (∀ g' r, Q g' r) → triple_r g (run x turns req reserved) Q.
Proof.
  intros [Hp Hn] Hr HQ.
  destruct req; cbn [run]; run_arms; cbn [req_paths req_names] in Hp, Hn; try rewrite !Forall_cons_iff in Hp; try rewrite !Forall_cons_iff in Hn;
    repeat match goal with H : _ ∧ Forall _ _ |- _ => destruct H | H : _ ∧ _ ∧ Forall _ _ |- _ => destruct H end.
  - prog_step. prog_step. apply reach_resolve_dir; [done|intros; apply HQ|]. intros dir.
    prog_step. prog_step. apply reach_attr_in; [set_solver|done|]. intros g' [?|?]; apply HQ.
  - prog_step. prog_step. apply reach_get_opt; [intros; apply HQ| |].
    + destruct path as [p|]; cbn; [|apply HQ]. apply Forall_cons_iff in Hp as [Hv _].
      prog_step. prog_step. prog_step. apply reach_resolve; [done|intros; apply HQ|]. intros fd.
      apply reach_attr_of; [set_solver|]. intros [a|e]; apply HQ.
    + intros h. prog_step. prog_step. apply reach_attr_of; [set_solver|]. intros [a|e]; apply HQ.
  - apply triple_map_error. apply reach_setattr; [done|]. intros. apply HQ.
  - apply reach_resolved; [done|intros; apply HQ|]. intros fd. cbn. split; [set_solver|].
    intros [t|e] _; apply HQ.
  - destruct (negb _); [apply HQ|]. apply reach_entry_made; [done|done| |done].
    intros g1 dir Q1 Hd HQ1. apply reach_call; [|done]. split; [done|by apply component_name].
  - apply reach_entry_made; [done|done| |done].
    intros g1 dir Q1 Hd HQ1. apply reach_call; [|done]. split; [done|by apply component_name].
  - by apply reach_entry_removed.
  - by apply reach_entry_removed.
  - apply reach_entry_made; [done|done| |done].
    intros g1 dir Q1 Hd HQ1. apply reach_call; [|done]. split; [done|by apply component_name].
  - prog_step. prog_step. prog_step; [|apply HQ]. prog_step; [apply HQ|].
    prog_step. prog_step. apply reach_resolve_dir; [done|intros; apply HQ|]. intros old.
    prog_step. prog_step. apply reach_resolve_dir; [done|intros; apply HQ|]. intros new.
    prog_step. prog_step; [done|]. intros ? _. prog_step. prog_step; [done|]. intros ? _.
    prog_step. prog_step. cbn [mon_next reach pin].
    apply reach_call; [split_and!; [set_solver|by apply component_name|set_solver|by apply component_name]|].
    intros [[]|e]; apply HQ.
  - prog_step. prog_step. apply reach_resolve_parent; [done|intros; apply HQ|]. intros old last Hl.
    prog_step. prog_step. apply reach_resolve_dir; [done|intros; apply HQ|]. intros new.
    prog_step. prog_step; [done|]. intros ? _. prog_step. prog_step. cbn [mon_next reach pin].
    apply reach_call; [split_and!; [set_solver|by apply component_name|set_solver|by apply component_name]|].
    intros [[]|e]; [|apply HQ]. prog_step. prog_step. apply reach_attr_in; [set_solver|done|].
    intros g' [?|?]; apply HQ.
  - apply reach_open_with; [done|by apply reach_opening_file|done].
  - apply reach_open_with; [done|by apply reach_opening_new|done].
  - prog_step. apply reach_file_and_path; [intros; apply HQ|]. intros fd path.
    prog_step. prog_step. apply reach_read_fill; [set_solver|]. intros [?|?]; apply HQ.
  - prog_step; [apply HQ|]. prog_step. apply reach_file_and_path; [intros; apply HQ|]. intros fd path.
    prog_step. prog_step; [done|]. intros ? _. prog_step. prog_step.
    apply reach_write_all; [cbn; set_solver|]. intros [?|?]; apply HQ.
  - prog_step. prog_step; [done|]. intros ? _. apply HQ.
  - prog_step. prog_step. apply reach_call; [done|]. intros [h|e]; [|apply HQ].
    prog_step. prog_step. apply reach_call; [cbn; set_solver|]. intros [?|?]; apply HQ.
  - apply reach_open_with; [done|by apply reach_opening_dir|done].
  - prog_step. prog_step. apply reach_call; [done|]. intros [dir|e]; [|apply HQ].
    prog_step. prog_step. unfold read_dir_fd. prog_step. apply reach_call; [cbn; set_solver|].
    intros [?|?]; [|apply HQ]. apply reach_list_calls; [cbn; set_solver|]. intros [?|?]; apply HQ.
  - prog_step. prog_step; [done|]. intros ? _. apply HQ.
  - apply reach_resolved; [done|intros; apply HQ|]. intros fd. prog_step. prog_step. unfold statfs. prog_step.
    apply reach_call; [cbn; set_solver|]. intros [?|?]; apply HQ.
  - prog_step. prog_step; [done|]. intros ? _. apply reach_resolved; [done|intros; apply HQ|]. intros fd.
    prog_step. prog_step. prog_step; [|apply HQ]. prog_step. prog_step.
    apply reach_call; [split; [cbn; set_solver|by eexists]|]. intros [?|?]; apply HQ.
  - apply reach_resolved; [done|intros; apply HQ|]. intros fd.
    prog_step. prog_step. prog_step; [|apply HQ]. prog_step. prog_step. apply reach_xattr_read; [|intros [?|?]; apply HQ].
    intros room Q' HQ'. apply reach_call; [split; [cbn; set_solver|by eexists]|done].
  - apply reach_resolved; [done|intros; apply HQ|]. intros fd.
    prog_step. prog_step. apply reach_xattr_read; [|intros [?|?]; apply HQ].
    intros room Q' HQ'. apply reach_call; [split; [cbn; set_solver|right; by eexists]|done].
  - prog_step. prog_step; [done|]. intros ? _. apply reach_resolved; [done|intros; apply HQ|]. intros fd.
    prog_step. prog_step. prog_step; [|apply HQ]. prog_step. prog_step.
    apply reach_call; [split; [cbn; set_solver|by eexists]|]. intros [?|?]; apply HQ.
  - apply reach_resolved; [done|intros; apply HQ|]. intros fd.
    prog_step. prog_step. prog_step; [|apply HQ]. prog_step. prog_step.
    apply reach_call; [split; [cbn; set_solver|by eexists]|]. intros [?|?]; apply HQ.
  - unfold copy_range. prog_step. apply reach_file_and_path; [intros; apply HQ|]. intros src p1.
    prog_step. apply reach_file_and_path; [intros; apply HQ|]. intros dst p2.
    prog_step. prog_step. prog_step; [|apply HQ]. prog_step. prog_step. prog_step; [|apply HQ].
    prog_step. prog_step; [done|]. intros ? _. prog_step. prog_step.
    apply reach_retry; [|intros [?|?]; [cbn; case_match; [apply HQ|done]|apply HQ]].
    intros Q' HQ'. apply reach_call; [cbn; set_solver|done].
  - unfold allocate. prog_step; [apply HQ|]. prog_step. prog_step. prog_step; [|apply HQ].
    prog_step. apply reach_file_and_path; [intros; apply HQ|]. intros fd p.
    prog_step. prog_step. prog_step; [|apply HQ]. prog_step. prog_step. prog_step; [|apply HQ].
    prog_step. prog_step; [done|]. intros ? _. prog_step. prog_step.
    apply reach_retry; [|intros [?|?]; apply HQ].
    intros Q' HQ'. apply reach_call; [cbn; set_solver|done].
  - prog_step. apply reach_file_and_path; [intros; apply HQ|]. intros fd p.
    prog_step. prog_step. prog_step; [|apply HQ]. prog_step. prog_step.
    apply reach_call; [cbn; set_solver|]. intros [?|?]; [|apply HQ]. cbn. case_match; [done|apply HQ].
Qed.

Lemma reach_dispatch g ids req reserved : request_wf req → reserved_fds reserved ⊆ g →
  triple_r g (dispatch x turns ids req reserved) (λ _ _, True).
Proof.
  intros Hw Hr. unfold dispatch. destruct (ServerIds.IdMap_admit ids req).
  - apply triple_bind. apply reach_run; [done|done|].
    intros g' [?|[e|]]; cbn; [done| |by split]. case_match; [by split|done].
  - unfold drop_reserved. destruct reserved as [[[s|h]|]|?]; cbn; by try split.
Qed.
End reach.


