(* ===== verification/OpsAttr.v ===== *)
(** * What a request changes, and under whose name ([crates/server/src/ops.rs])

    A request outside the session's ordering changes nothing.  One that changes the
    export has first recorded, in the change log, the path it changes: the events the
    change raises are then attributed to the session that made it.  The code records
    nothing for a [Setattr] through a directory's handle that names no path, nor for a
    path longer than [PATH_MAX]; [attributed] exempts these two. *)

From S2P Require Import Prelude Types Msg Wire Owners ServerHandles Watch Dirents Sys Export Ops.
From S2P Require Import OpsLogic.

(** ** Requests outside the ordering *)

(** An effect that changes the export, or what its sessions see of it: a handle kept, a
    change recorded, a directory watched for an open. *)
Definition alters (e : Eff) : bool :=
  mutates e || match e with
               | E_insert _ _ | E_record _ | E_record_entry _ _ | E_hold _ => true
               | _ => false
               end.

Lemma visits_unaltering {A} (p : Prog A) : each visits p → each (λ e, negb (alters e)) p.
Proof.
  apply each_mono. intros e He. unfold alters. destruct e; try done; cbn [visits looks mutates negb orb] in *.
  by rewrite orb_false_r in *.
Qed.

#[local] Hint Resolve visits_unaltering : each_db.

Section unordered.
Context `{!Libc} (x : Export) (turns : nat).
Notation unaltering := (each (λ e, negb (alters e))).

Lemma unaltering_run req reserved : changes req = false → unaltering (run x turns req reserved).
Proof.
  intros Hc. destruct req; cbn [changes] in Hc; try done; cbn [run]; run_arms.
  all: unfold get_opt, get, some_path, file_and_path, read_dir_fd, statfs.
  all: each_walk.
  all: apply visits_unaltering, looks_visits, looks_xattr_read; each_walk.
Qed.

Lemma unaltering_dispatch ids req reserved : changes req = false →
  unaltering (dispatch x turns ids req reserved).
Proof.
  intros Hc. unfold dispatch, drop_reserved. destruct (ServerIds.IdMap_admit ids req); [|each_walk].
  apply each_bind; [by apply unaltering_run|]. each_walk.
Qed.
End unordered.

(** A request that takes no part in the session's ordering ([Request::changes])
    changes nothing the ordering is there for: no call of its run changes the export,
    and it keeps no handle, records no change and has no directory watched. *)
Theorem unordered_requests_change_nothing `{!Libc} x turns ids req reserved tr p :
  changes req = false → steps (dispatch x turns ids req reserved) tr p →
  Forall (λ ev, alters (ev_eff ev) = false) tr.
Proof.
  intros Hc Hs. eapply Forall_impl; [by eapply each_steps, Hs; apply unaltering_dispatch|].
  cbn. intros ev. by destruct (alters _).
Qed.

Lemma unordered_requests_change_nothing_witness :
  Forall (λ ev, alters (ev_eff ev) = false) (Demo.ran Demo.read_b (Ok None)) ∧ Demo.ran Demo.read_b (Ok None) ≠ [].
Proof.
  split; [|discriminate].
  exact (unordered_requests_change_nothing Demo.export 8 Demo.ids Demo.read_b (Ok None) _ _ eq_refl (Demo.ran_steps _ _)).
Defined.

(** ** Attribution *)

(** What a descriptor was opened as, and what has been recorded: paths as text.  A
    directory's handle keeps no path: its key is the one the request names. *)
Record Named := MkNamed {
  nm_fds : gmap Fd (option (list byte));
  nm_recorded : gset (list byte) }.

(** An entry's path: the directory's own for the empty component. *)
Definition at_key (dir name : list byte) : list byte :=
  if bool_decide (name = dot_path) then dir
  else match dir with [] => name | _ => dir ++ slash :: name end.

(** The path a [Setattr] names, if the request is one. *)
Definition setattr_path (req : Request) : option (option Path) :=
  match req with Req_Setattr path _ _ => Some path | _ => None end.

(** A change to [key] is attributed, or its path is longer than any the protocol
    carries ([PATH_MAX]): such a path is no [Path], so no event can name it either. *)
Definition known (st : Named) (key : list byte) : Prop :=
  key ∈ nm_recorded st ∨ (PATH_MAX < length key)%nat.

Section attribution.
Context `{!Libc} (x : Export) (turns : nat) (setting : option (option Path)).
Implicit Types st : Named.

(** A change through a directory's handle is a [Setattr]'s, and only one that names no
    path goes unrecorded. *)
Definition own_known (st : Named) (fd : Fd) : Prop :=
  match nm_fds st !! fd with
  | Some (Some key) => known st key
  | Some None => setting = Some None
  | None => False
  end.
Definition entry_known (st : Named) (dir : Fd) (name : list byte) : Prop :=
  match nm_fds st !! dir with Some (Some key) => known st (at_key key name) | _ => False end.

(** What an effect changes has been recorded. *)
Definition attributed (st : Named) (e : Eff) : Prop :=
  match e with
  | E_openat2 dir path flags _ _ =>
      if has_flag flags O_CREAT || has_flag flags O_TRUNC then entry_known st dir path else True
  | E_mknodat dir name _ _ _ | E_mkdirat dir name _ | E_unlinkat dir name _ | E_symlinkat _ dir name
  | E_utimensat dir name _ _ => entry_known st dir name
  | E_renameat2 old name new newname _ => entry_known st old name ∧ entry_known st new newname
  | E_linkat _ _ new newname => entry_known st new newname
  | E_pwrite fd _ _ | E_copy_file_range _ _ fd _ _ | E_fallocate fd _ _ _ | E_fchown fd _ _
  | E_fchownat fd _ _ | E_fchmod fd _ | E_ftruncate fd _ | E_futimens fd _ _ => own_known st fd
  | E_setxattr path _ _ _ | E_removexattr path _ | E_chmod path _ =>
      match path with Proc_fd fd => own_known st fd | Proc_entry dir name => entry_known st dir name end
  | _ => True
  end.

Definition name_fd (st : Named) (fd : Fd) (key : option (list byte)) : Named :=
  MkNamed (<[fd := key]> (nm_fds st)) (nm_recorded st).
Definition note_path (st : Named) (path : Path) : Named :=
  MkNamed (nm_fds st) ({[to_os_string path]} ∪ nm_recorded st).

Definition handle_key (h : Handle) : option (list byte) :=
  match h with
  | Handle_File _ path _ => Some (to_os_string path)
  | Handle_Dir _ _ => path ← setting; to_os_string <$> path
  end.

Definition named_next (st : Named) (e : Eff) : Answer e → Named :=
  match e with
  | E_openat2 dir path _ _ _ => λ a,
      match a with
      | Ok fd => match nm_fds st !! dir with
                 | Some (Some key) => name_fd st fd (Some (at_key key path))
                 | _ => st
                 end
      | Err _ => st
      end
  | E_dup fd => λ a,
      match a with
      | Ok fd' => match nm_fds st !! fd with Some key => name_fd st fd' key | None => st end
      | Err _ => st
      end
  | E_get _ => λ a, match a with Ok h => name_fd st (fd_of h) (handle_key h) | Err _ => st end
  | E_file_and_path _ => λ a,
      match a with Ok (fd, path) => name_fd st fd (Some (to_os_string path)) | Err _ => st end
  | E_dir _ => λ a, match a with Ok fd => name_fd st fd None | Err _ => st end
  | E_record path => λ _, note_path st path
  | E_record_entry dir name => λ _,
      match Path_join dir name with Ok path => note_path st path | Err _ => st end
  | _ => λ _, st
  end.

(** A descriptor the kernel opens is one that is not open. *)
Definition opens_fresh (st : Named) (e : Eff) : Answer e → Prop :=
  match e with
  | E_openat2 _ _ _ _ _ => λ a, match a with Ok fd => nm_fds st !! fd = None | Err _ => True end
  | _ => λ _, True
  end.

Definition attributing : Monitor := MkMonitor true Named attributed named_next.

(** The run begins with the export's root open. *)
Definition named_start (x : Export) : Named := MkNamed {[ex_root x := Some []]} ∅.

Lemma to_os_string_not_dot p : path_valid p → to_os_string p ≠ dot_path.
Proof.
  intros [Hv _]. unfold to_os_string. destruct (names p) as [|n [|n' ns]]; [done| |];
    apply Forall_cons_iff in Hv as [(Hne & _ & _ & _ & Hdot & _) _]; [done|].
  cbn. intros Heq%(f_equal length). rewrite length_app in Heq. cbn in Heq.
  destruct (as_bytes n); [done|cbn in Heq; lia].
Qed.

Lemma at_key_root p : path_valid p →
  at_key [] (match to_os_string p with [] => dot_path | _ => to_os_string p end) = to_os_string p.
Proof.
  intros Hp. pose proof (to_os_string_not_dot p Hp). destruct (to_os_string p) eqn:Heq; [done|].
  unfold at_key. by rewrite bool_decide_false.
Qed.

Lemma join_names_snoc ns n : Forall name_valid ns →
  join_names (ns ++ [n]) = match join_names ns with [] => as_bytes n | k => k ++ slash :: as_bytes n end.
Proof.
  induction ns as [|m [|m' ns] IH]; intros Hv; [done| |].
  - cbn. apply Forall_cons_iff in Hv as [(Hne & _) _]. by destruct (as_bytes m).
  - apply Forall_cons_iff in Hv as [(Hne & _) Hv]. specialize (IH Hv).
    change (join_names ((m :: m' :: ns) ++ [n])) with (as_bytes m ++ slash :: join_names ((m' :: ns) ++ [n])).
    change (join_names (m :: m' :: ns)) with (as_bytes m ++ slash :: join_names (m' :: ns)). rewrite IH.
    destruct (join_names (m' :: ns)) eqn:Hj; [by apply join_names_nil in Hj|].
    destruct (as_bytes m); [done|]. cbn. by rewrite <-app_assoc.
Qed.

(** The path of an entry, as the log has it and as the calls spell it. *)
Lemma at_key_entry p n : path_valid p → name_valid n →
  at_key (to_os_string p) (as_bytes n) = to_os_string (MkPath (names p ++ [n])).
Proof.
  intros [Hp _] (_ & _ & _ & _ & Hdot & _). unfold at_key. rewrite bool_decide_false by done.
  unfold to_os_string. cbn [names]. rewrite join_names_snoc by done. by destruct (join_names (names p)).
Qed.

Lemma known_mono st st' key : nm_recorded st ⊆ nm_recorded st' → known st key → known st' key.
Proof. intros Hsub [?|?]; [left; set_solver|by right]. Qed.

Lemma known_noted st path : known (note_path st path) (to_os_string path).
Proof. left. cbn. set_solver. Qed.

Lemma known_entry st p n : path_valid p → name_valid n →
  known (named_next st (E_record_entry p n) ()) (at_key (to_os_string p) (as_bytes n)).
Proof.
  intros Hp Hn. rewrite at_key_entry by done. cbn. unfold Path_join, Path_from_names.
  destruct (Nat.ltb_spec PATH_MAX (byte_len (MkPath (names p ++ [n])))) as [Hl|Hl].
  - right. by rewrite <-length_join_names in Hl.
  - apply known_noted.
Qed.

Notation triple_a := (triple attributing opens_fresh).

Definition has_root st : Prop := nm_fds st !! ex_root x = Some (Some []).

(** What follows a change only looks. *)
Lemma attr_visits {A} st (p : Prog A) Q : each visits p → (∀ st r, Q st r) → triple_a st p Q.
Proof.
  intros Hp HQ. apply (triple_each visits _ _ (λ _, True)); try done.
  intros g e _ He. split; [|done]. destruct e; try done. cbn in *.
  by destruct (has_flag flags O_CREAT || has_flag flags O_TRUNC).
Qed.

Lemma attr_looks {A} st (p : Prog A) Q : each looks p → (∀ r, Q st r) → triple_a st p Q.
Proof.
  intros Hp HQ. apply (triple_each looks attributing opens_fresh (λ st' : Named, st' = st)); try done; [|by intros ? ? ->].
  intros g e -> He. by destruct e.
Qed.

Lemma attr_openat2 st dir key path flags mode Q :
  nm_fds st !! dir = Some (Some key) →
  (has_flag flags O_CREAT || has_flag flags O_TRUNC = true → known st (at_key key path)) →
  (∀ e, Q st (Err e)) →
  (∀ fd, nm_fds st !! fd = None → Q (name_fd st fd (Some (at_key key path))) (Ok fd)) →
  triple_a st (call (E_openat2 dir path flags mode RESOLVE) : M Z Fd) Q.
Proof.
  intros Hd Hk He HQ. split.
  - cbn. unfold entry_known. rewrite Hd. by destruct (_ || _); [apply Hk|].
  - intros [fd|e]; cbn; [rewrite Hd; apply HQ|by intros _].
Qed.

Lemma attr_openat2_root st path flags mode Q : path_valid path → has_root st →
  (has_flag (Z.lor flags O_CLOEXEC) O_CREAT || has_flag (Z.lor flags O_CLOEXEC) O_TRUNC = true →
   known st (to_os_string path)) →
  (∀ e, Q st (Err e)) →
  (∀ fd, nm_fds st !! fd = None → Q (name_fd st fd (Some (to_os_string path))) (Ok fd)) →
  triple_a st (openat2_root x path flags mode) Q.
Proof.
  intros Hp Hr Hk He HQ. rewrite <-(at_key_root path Hp) in Hk, HQ. by apply (attr_openat2 _ _ []).
Qed.

Lemma attr_resolve st path Q : path_valid path → has_root st → (∀ e, Q st (Err e)) →
  (∀ fd, nm_fds st !! fd = None → Q (name_fd st fd (Some (to_os_string path))) (Ok fd)) →
  triple_a st (resolve x path) Q.
Proof. intros. by apply attr_openat2_root. Qed.

Lemma attr_resolve_dir st path Q : path_valid path → has_root st → (∀ e, Q st (Err e)) →
  (∀ fd, nm_fds st !! fd = None → Q (name_fd st fd (Some (to_os_string path))) (Ok fd)) →
  triple_a st (resolve_dir x path) Q.
Proof. intros. by apply attr_openat2_root. Qed.

Lemma attr_call st e (Q : Named → Answer e → Prop) : attributed st e →
  (∀ a, opens_fresh st e a → Q (named_next st e a) a) → triple_a st (call e) Q.
Proof. intros He HQ. by split. Qed.

Lemma has_root_fresh st fd key : has_root st → nm_fds st !! fd = None → has_root (name_fd st fd key).
Proof. unfold has_root. cbn. intros Hr Hf. rewrite lookup_insert_ne; [done|]. intros ->. congruence. Qed.

Lemma nm_fds_entry st p n : nm_fds (named_next st (E_record_entry p n) ()) = nm_fds st.
Proof. cbn. by destruct (Path_join p n). Qed.

Lemma nm_recorded_entry st p n : nm_recorded st ⊆ nm_recorded (named_next st (E_record_entry p n) ()).
Proof. cbn. destruct (Path_join p n); cbn; set_solver. Qed.

(** An entry recorded in a directory resolved. *)
Lemma entry_known_noted st dir p n : path_valid p → name_valid n →
  nm_fds st !! dir = Some (Some (to_os_string p)) →
  entry_known (named_next st (E_record_entry p n) ()) dir (as_bytes n).
Proof. intros Hp Hn Hd. unfold entry_known. rewrite nm_fds_entry, Hd. by apply known_entry. Qed.

Lemma entry_known_mono st p n dir name : entry_known st dir name →
  entry_known (named_next st (E_record_entry p n) ()) dir name.
Proof.
  unfold entry_known. rewrite nm_fds_entry. destruct (nm_fds st !! dir) as [[key|]|]; try done.
  apply known_mono, nm_recorded_entry.
Qed.

(** ** Requests *)

Lemma attr_entry_made st parent name make Q : path_valid parent → name_valid name → has_root st →
  (∀ st dir Q, entry_known st dir (as_bytes name) → (∀ st r, Q st r) → triple_a st (make dir) Q) →
  (∀ st r, Q st r) → triple_a st (entry_made x parent name make) Q.
Proof.
  intros Hp Hn Hr Hm HQ. unfold entry_made. prog_step. prog_step.
  apply attr_resolve_dir; [done|done|intros; apply HQ|]. intros dir Hd.
  prog_step. prog_step; [done|]. intros [] _. prog_step. prog_step. apply Hm.
  - apply entry_known_noted; [done|done|]. apply lookup_insert_eq.
  - intros st' [[]|e]; [|apply HQ]. apply attr_visits; [each_walk|done].
Qed.

Lemma attr_entry_removed st parent name remove_dir Q : path_valid parent → name_valid name →
  has_root st → (∀ st r, Q st r) → triple_a st (entry_removed x parent name remove_dir) Q.
Proof.
  intros Hp Hn Hr HQ. unfold entry_removed. prog_step. prog_step.
  apply attr_resolve_dir; [done|done|intros; apply HQ|]. intros dir Hd.
  prog_step. prog_step; [done|]. intros [] _. prog_step. prog_step. apply attr_call.
  - apply entry_known_noted; [done|done|]. apply lookup_insert_eq.
  - intros [[]|e] _; apply HQ.
Qed.

(** A node recorded, resolved and changed through [/proc]. *)
Lemma attr_noted_change {B} st path (k : Fd → M Failure B) Q : path_valid path → has_root st →
  (∀ st r, Q st r) →
  (∀ st fd, own_known st fd → triple_a st (k fd) Q) →
  triple_a st (_ ← act (E_record path); fd ← up (resolve x path); k fd) Q.
Proof.
  intros Hp Hr HQ Hk. prog_step. prog_step; [done|]. intros [] _. prog_step. prog_step.
  apply attr_resolve; [done|done|intros; apply HQ|]. intros fd Hf. apply Hk.
  unfold own_known. cbn. rewrite lookup_insert_eq. apply known_noted.
Qed.

(** A file's handle, its path recorded, changed. *)
Lemma attr_file_and_path st fh Q : (∀ e, Q st (Err e)) →
  (∀ fd path, Q (name_fd st fd (Some (to_os_string path))) (Ok (fd, path))) →
  triple_a st (file_and_path fh) Q.
Proof. intros He HQ. split; [done|]. intros [[fd path]|e] _; [apply HQ|apply He]. Qed.

Lemma own_known_noted st fd path :
  own_known (note_path (name_fd st fd (Some (to_os_string path))) path) fd.
Proof. unfold own_known. cbn. rewrite lookup_insert_eq. apply known_noted. Qed.

Lemma attr_retry {A} st (p : M Z A) Q : (∀ Q, (∀ r, Q st r) → triple_a st p Q) → (∀ r, Q st r) →
  ∀ n, triple_a st (retry n p) Q.
Proof.
  intros Hp HQ n. apply (triple_retry attributing opens_fresh n p (λ st' : Named, st' = st)); [done|]. intros g' ->.
  apply Hp. intros [a|e]; [done|]. by destruct (e =? EINTR).
Qed.

Lemma attr_write_all st fd Q : own_known st fd → (∀ r, Q st r) → ∀ n data offset,
  triple_a st (write_all_at n fd data offset) Q.
Proof.
  intros Hfd HQ. induction n as [|n IH]; intros [|b data] offset; unfold write_all_at; fold write_all_at;
    try apply HQ; [done|]. split; [done|].
  intros [k|e] _; cbn; [destruct (k =? 0); [apply HQ|apply IH]|].
  destruct (e =? EINTR); [apply IH|apply HQ].
Qed.

(** ** Attributes set *)

(** A target that may be changed: a handle's file, or a node at a path recorded. *)
Definition target_known (t : Target) (path : option Path) st : Prop :=
  match t with
  | Target_Fd fd => own_known st fd
  | Target_Node node =>
      has_root st ∧ ∃ p, path = Some p ∧ path_valid p ∧ nm_fds st !! node = Some (Some (to_os_string p))
                         ∧ known st (to_os_string p)
  end.

Lemma target_known_own t path st : target_known t path st → own_known st (target_fd t).
Proof. destruct t; [done|]. intros (_ & p & _ & _ & Hn & Hk). unfold own_known. cbn. by rewrite Hn. Qed.

Lemma target_known_fresh t path st fd key : target_known t path st → nm_fds st !! fd = None →
  target_known t path (name_fd st fd key).
Proof.
  intros Ht Hf. destruct t as [fd'|node]; cbn in *.
  - unfold own_known in *. cbn. rewrite lookup_insert_ne; [done|]. intros ->. by rewrite Hf in Ht.
  - destruct Ht as (Hr & p & -> & Hp & Hn & Hk). split; [by apply has_root_fresh|].
    exists p. split_and!; [done|done| |done]. rewrite lookup_insert_ne; [done|]. intros ->. by rewrite Hf in Hn.
Qed.

Lemma attr_change_owner st t path uid gid : target_known t path st →
  triple_a st (change_owner t uid gid) (λ st' _, target_known t path st').
Proof. intros Ht. apply target_known_own in Ht as Ho. by destruct t; apply attr_call. Qed.

Lemma attr_change_mode st t path mode : target_known t path st →
  triple_a st (change_mode t mode) (λ st' _, target_known t path st').
Proof.
  intros Ht. apply target_known_own in Ht as Ho. destruct t as [fd|node]; [by apply attr_call|].
  unfold change_mode. prog_step. apply attr_call; [done|]. intros [st_mode|e] _; [|done].
  case_bool_decide; [done|]. by apply attr_call.
Qed.

Lemma attr_change_size st t path size : target_known t path st →
  triple_a st (change_size x t path size) (λ st' _, target_known t path st').
Proof.
  intros Ht. destruct t as [fd|node]; [by apply attr_call|].
  unfold change_size. prog_step. apply attr_call; [done|]. intros [st_mode|e] _; cbn; [|done].
  destruct (ok_or (kind_from_mode st_mode) EIO) as [kind|]; [|done].
  destruct (servable kind); [|done]. pose proof Ht as (Hr & p & -> & Hp & Hn & Hk). cbn. prog_step.
  apply attr_openat2_root; [done|done|done|done|]. intros fd Hf.
  pose proof (target_known_fresh _ _ _ fd (Some (to_os_string p)) Ht Hf).
  apply attr_call; [|by intros ? _]. unfold attributed, own_known. cbn. by rewrite lookup_insert_eq.
Qed.

Lemma attr_change_times st t path atime mtime : target_known t path st →
  triple_a st (change_times x t path atime mtime) (λ st' _, target_known t path st').
Proof.
  intros Ht. destruct t as [fd|node]; [by apply attr_call|].
  pose proof Ht as (Hr & p & -> & Hp & Hn & Hk). unfold change_times. cbn.
  destruct (Path_split_last p) as [[parent name]|] eqn:Hs.
  - pose proof (path_parts _ _ _ Hp Hs) as [Hpv Hname]. apply Path_split_last_Some in Hs.
    prog_step. apply attr_resolve_dir; [done|done|done|]. intros fd Hf.
    pose proof (target_known_fresh _ _ _ fd (Some (to_os_string parent)) Ht Hf).
    apply attr_call; [|by intros ? _]. unfold attributed, entry_known. cbn. rewrite lookup_insert_eq.
    rewrite at_key_entry, <-Hs by done. by destruct p.
  - apply attr_call; [|by intros ? _]. unfold attributed, entry_known. rewrite Hr.
    unfold at_key. rewrite bool_decide_true by done.
    assert (names p = []) as Hnil. { unfold Path_split_last in Hs. destruct (reverse (names p)) eqn:Hrev; [|done].
      apply (f_equal reverse) in Hrev. by rewrite reverse_involutive in Hrev. }
    unfold to_os_string in Hk. by rewrite Hnil in Hk.
Qed.

(** A copy of a descriptor is known as the descriptor is. *)
Lemma own_known_dup st fd fd' : own_known st fd → own_known (named_next st (E_dup fd) (Ok fd')) fd'.
Proof.
  unfold own_known. cbn. destruct (nm_fds st !! fd) as [key|]; [|done]. cbn. by rewrite lookup_insert_eq.
Qed.

Lemma attr_setattr st path fh set Q : setting = Some path → Forall path_valid (opt_list path) → has_root st →
  (∀ st r, Q st r) → triple_a st (setattr x path fh set) Q.
Proof.
  intros Hset_path Hp Hr HQ.
  assert (∀ st target, target_known target path st → triple_a st (set_target x target path set) Q) as Hset.
  { clear st Hr. intros st target Ht.
    apply (triple_set_target x attributing opens_fresh (target_known target path)); try done.
    - intros. by apply attr_change_owner.
    - intros. by apply attr_change_mode.
    - intros. by apply attr_change_size.
    - intros. by apply attr_change_times.
    - intros. apply attr_looks; [each_walk|done]. }
  unfold setattr. prog_step. destruct fh as [fh|]; cbn [get_opt].
  - prog_step. apply attr_call; [done|]. intros [h|e] _; [|apply HQ].
    cbn [named_next ok triple].
    assert (∀ st, own_known st (fd_of h) → triple_a st ((Target_Fd <$> (call (E_dup (fd_of h)) : M Z Fd))
      ≫= λ target, set_target x target path set) Q) as Hdup.
    { intros st' Ho. prog_step. prog_step. apply attr_call; [done|]. intros [fd|e] _; [|apply HQ].
      apply Hset. by apply own_known_dup. }
    prog_step. destruct h as [file hp w|dir w]; [|destruct path as [p|]].
    + prog_step; [done|]. intros [] _. apply Hdup, own_known_noted.
    + prog_step; [done|]. intros [] _. apply Hdup. unfold own_known. cbn.
      rewrite lookup_insert_eq, Hset_path. apply known_noted.
    + apply Hdup. unfold own_known. cbn. by rewrite lookup_insert_eq, Hset_path.
  - cbn [ok triple]. destruct path as [p|]; [|apply HQ]. apply Forall_cons_iff in Hp as [Hv _].
    prog_step. prog_step; [done|]. intros [] _. prog_step. prog_step. cbn [some_path of_result ok_or triple]. prog_step.
    apply attr_resolve; [done|done|intros; apply HQ|]. intros fd Hf. apply Hset.
    split; [by apply has_root_fresh|]. exists p. split_and!; [done|done|apply lookup_insert_eq|apply known_noted].
Qed.

(** ** Opens *)

(** What an open of a file may change is its length, if it asks to. *)
Lemma open_flags_truncates flags :
  let fl := Z.lor (Z.lor (Z.lor (open_flags flags false) O_NOFOLLOW) O_NONBLOCK) O_CLOEXEC in
  has_flag fl O_CREAT || has_flag fl O_TRUNC = true → has_flag (open_flags flags false) O_TRUNC = true.
Proof.
  cbv zeta. change O_CREAT with (2 ^ 6). change O_TRUNC with (2 ^ 9). rewrite !has_flag_bit by done.
  unfold open_flags. rewrite !Z.lor_spec, !Z.land_spec.
  change (Z.testbit OPEN_FLAGS_ALLOWED 6) with false. change (Z.testbit OPEN_FLAGS_ALLOWED 9) with true.
  change (Z.testbit O_NOFOLLOW _) with false. change (Z.testbit O_NONBLOCK _) with false.
  change (Z.testbit O_CLOEXEC _) with false. rewrite !andb_false_r, !orb_false_r. done.
Qed.

Lemma attr_open_with st reserved opening Q : triple_a st opening (λ _ _, True) →
  (∀ st r, Q st r) → triple_a st (open_with x reserved opening) Q.
Proof.
  intros Ho HQ. destruct reserved as [[[s|h]|]|e]; unfold open_with, opened_already.
  - prog_step. eapply triple_mono; [exact Ho|]. intros st' [[h attr]|e] _; cbn; [|by split].
    split; [done|]. intros [kept|e] _; cbn; apply HQ.
  - apply attr_visits; [each_walk|done].
  - done.
  - apply HQ.
Qed.

(** What is done once the file is open. *)
Lemma attr_opening {B} st fd (k : Attr → M Failure B) : (∀ st attr, triple_a st (k attr) (λ _ _, True)) →
  triple_a st (attr ← up (attr_of x fd); _ ← up (of_result (servable (a_kind attr))); k attr) (λ _ _, True).
Proof.
  intros Hk. prog_step. prog_step. apply attr_visits; [each_walk|].
  intros st' [attr|e]; [|done]. prog_step. prog_step. by prog_step; [apply Hk|].
Qed.

Lemma attr_opening_file st path flags : path_valid path → has_root st →
  triple_a st (opening_file x path flags) (λ _ _, True).
Proof.
  intros Hp Hr. unfold opening_file. set (fl := open_flags flags false).
  assert (∀ st, has_root st → (has_flag fl O_TRUNC = true → known st (to_os_string path)) →
    triple_a st (fd ← up (open_node x path fl); attr ← up (attr_of x fd);
      _ ← up (of_result (servable (a_kind attr))); watch ← act (E_hold (parent_dir path));
      ok (Handle_File fd path watch, attr)) (λ _ _, True)) as Hopen.
  { clear st Hr. intros st Hr Hk. prog_step. prog_step. apply attr_openat2_root; [done|done| |done|].
    - intros Hm. apply Hk. revert Hm. apply open_flags_truncates.
    - intros fd Hf. apply attr_opening. intros st' attr. by prog_step; prog_step. }
  prog_step. unfold when. destruct (has_flag fl O_TRUNC) eqn:Ht.
  - prog_step; [done|]. intros [] _. apply Hopen; [done|]. intros _. apply known_noted.
  - apply Hopen; [done|]. congruence.
Qed.

Lemma attr_opening_new st parent name mode flags : path_valid parent → name_valid name → has_root st →
  triple_a st (opening_new x parent name mode flags) (λ _ _, True).
Proof.
  intros Hp Hn Hr. unfold opening_new. prog_step. prog_step; [done|]. intros [] _.
  prog_step. prog_step. unfold open_in. prog_step. apply attr_resolve_dir; [done| |done|].
  { unfold has_root. cbn [mon_next attributing]. by rewrite nm_fds_entry. }
  intros dir Hd. apply (attr_openat2 _ _ (to_os_string parent)); [apply lookup_insert_eq| |done|].
  - intros _. eapply known_mono; [|by apply (known_entry st)]. done.
  - intros fd Hf. apply attr_opening. intros st' attr. prog_step. prog_step; [done|].
    intros watch _. prog_step. prog_step. by prog_step.
Qed.

Lemma attr_copy_range st fh_in offset_in fh_out offset_out len Q : (∀ st r, Q st r) →
  triple_a st (copy_range turns fh_in offset_in fh_out offset_out len) Q.
Proof.
  intros HQ. unfold copy_range. prog_step. apply attr_file_and_path; [intros; apply HQ|]. intros src p1.
  prog_step. apply attr_file_and_path; [intros; apply HQ|]. intros dst p2.
  prog_step. prog_step. prog_step; [|apply HQ]. prog_step. prog_step. prog_step; [|apply HQ].
  prog_step. prog_step; [done|]. intros [] _. prog_step. prog_step.
  apply attr_retry; [|intros [?|?]; [cbn; case_match; [apply HQ|done]|apply HQ]].
  intros Q' HQ'. apply attr_call; [apply own_known_noted|done].
Qed.

Lemma attr_allocate st fh offset len mode Q : (∀ st r, Q st r) →
  triple_a st (allocate turns fh offset len mode) Q.
Proof.
  intros HQ. unfold allocate. prog_step; [apply HQ|]. prog_step. prog_step. prog_step; [|apply HQ].
  prog_step. apply attr_file_and_path; [intros; apply HQ|]. intros fd p.
  prog_step. prog_step. prog_step; [|apply HQ]. prog_step. prog_step. prog_step; [|apply HQ].
  prog_step. prog_step; [done|]. intros [] _. prog_step. prog_step.
  apply attr_retry; [|intros [?|?]; apply HQ].
  intros Q' HQ'. apply attr_call; [apply own_known_noted|done].
Qed.

Lemma attr_run st req reserved Q : setting = setattr_path req → request_wf req → has_root st → changes req = true →
  (∀ st r, Q st r) → triple_a st (run x turns req reserved) Q.
Proof.
  intros Hset [Hp Hn] Hr Hc HQ.
  destruct req; cbn [changes] in Hc; try done; cbn [run]; run_arms; cbn [req_paths req_names] in Hp, Hn;
    try rewrite !Forall_cons_iff in Hp; try rewrite !Forall_cons_iff in Hn;
    repeat match goal with H : _ ∧ Forall _ _ |- _ => destruct H | H : _ ∧ _ ∧ Forall _ _ |- _ => destruct H end.
  - (* Setattr *) apply triple_map_error. apply attr_setattr; [done..|]. intros. apply HQ.
  - (* Mknod *) destruct (negb _); [apply HQ|]. apply attr_entry_made; [done..| |done].
    intros st' dir Q' He HQ'. by apply attr_call.
  - (* Mkdir *) apply attr_entry_made; [done..| |done]. intros st' dir Q' He HQ'. by apply attr_call.
  - (* Unlink *) by apply attr_entry_removed.
  - (* Rmdir *) by apply attr_entry_removed.
  - (* Symlink *) apply attr_entry_made; [done..| |done]. intros st' dir Q' He HQ'. by apply attr_call.
  - (* Rename *)
    prog_step. prog_step. prog_step; [|apply HQ]. prog_step; [apply HQ|].
    prog_step. prog_step. apply attr_resolve_dir; [done|done|intros; apply HQ|]. intros old Hold.
    prog_step. prog_step. apply attr_resolve_dir; [done|by apply has_root_fresh|intros; apply HQ|]. intros new Hnew.
    prog_step. prog_step; [done|]. intros [] _. prog_step. prog_step; [done|]. intros [] _.
    prog_step. prog_step. apply attr_call; [split|intros [[]|e] _; apply HQ].
    + apply entry_known_mono, entry_known_noted; [done|done|]. cbn in Hnew |- *.
      rewrite lookup_insert_ne; [apply lookup_insert_eq|]. intros ->. by rewrite lookup_insert_eq in Hnew.
    + apply entry_known_noted; [done|done|]. cbn [mon_next attributing]. rewrite nm_fds_entry. apply lookup_insert_eq.
  - (* Link *)
    prog_step. prog_step. unfold resolve_parent. destruct (Path_split_last path) as [[parent last]|] eqn:Hs; [|apply HQ].
    prog_step. cbn [of_result ok_or triple]. prog_step.
    apply path_parts in Hs as [Hpar _]; [|done].
    apply attr_resolve_dir; [done|done|intros; apply HQ|]. intros old Hold. cbn [ok triple].
    prog_step. prog_step. apply attr_resolve_dir; [done|by apply has_root_fresh|intros; apply HQ|]. intros new Hnew.
    prog_step. prog_step; [done|]. intros [] _. prog_step. prog_step.
    apply attr_call; [apply entry_known_noted; [done|done|apply lookup_insert_eq]|].
    intros [[]|e] _; [|apply HQ]. apply attr_visits; [each_walk|done].
  - (* Open *) by apply attr_open_with; [apply attr_opening_file|].
  - (* Create *) by apply attr_open_with; [apply attr_opening_new|].
  - (* Write *) prog_step; [apply HQ|]. prog_step. apply attr_file_and_path; [intros; apply HQ|]. intros fd path.
    prog_step. prog_step; [done|]. intros [] _. prog_step. prog_step.
    apply attr_write_all; [apply own_known_noted|]. intros [?|?]; apply HQ.
  - (* Release *) prog_step. prog_step; [done|]. intros ? _. apply HQ.
  - (* Opendir *) apply attr_open_with; [|done]. unfold opening_dir. prog_step. prog_step.
    apply attr_openat2_root; [done|done|done|done|]. intros fd Hf. apply attr_opening. intros st' attr. by prog_step; prog_step.
  - (* Releasedir *) prog_step. prog_step; [done|]. intros ? _. apply HQ.
  - (* Setxattr *) apply attr_noted_change; [done..|]. intros st' fd Ho. prog_step. prog_step. prog_step; [|apply HQ].
    prog_step. prog_step. apply attr_call; [done|]. intros [[]|e] _; apply HQ.
  - (* Removexattr *) apply attr_noted_change; [done..|]. intros st' fd Ho. prog_step. prog_step. prog_step; [|apply HQ].
    prog_step. prog_step. apply attr_call; [done|]. intros [[]|e] _; apply HQ.
  - (* CopyFileRange *) by apply attr_copy_range.
  - (* Fallocate *) by apply attr_allocate.
Qed.

Lemma attr_dispatch st ids req reserved : setting = setattr_path req → request_wf req → has_root st →
  triple_a st (dispatch x turns ids req reserved) (λ _ _, True).
Proof.
  intros Hset Hw Hr. destruct (changes req) eqn:Hc.
  - unfold dispatch. destruct (ServerIds.IdMap_admit ids req).
    + apply triple_bind. apply attr_run; [done..|]. intros st' [?|[e|]]; cbn; [done| |by split].
      case_match; [by split|done].
    + unfold drop_reserved. destruct reserved as [[[s|h]|]|?]; cbn; by try split.
  - apply (triple_each (λ e, negb (alters e)) _ _ (λ _, True)); try done; [|by apply unaltering_dispatch].
    intros st' e _ He. split; [|done]. destruct e; try done. cbn [mon_ok attributing attributed].
    unfold alters, mutates in He. by destruct (has_flag flags O_CREAT || has_flag flags O_TRUNC).
Qed.
End attribution.

(** C7: A change has its author on record.  Whatever a request changes of the export,
    by a name below a directory or through a descriptor, the path of what it changes is
    in the change log by then under this session, so that the change's events find it
    there: the path of the entry named, the path an open file's handle was opened at, or,
    for a [Setattr] through a directory's handle, the path the request names.  Two
    changes have none: a [Setattr] through a directory's handle that names no path, and
    the change of an entry whose path is longer than [PATH_MAX], which no event can name. *)
Theorem changes_are_attributed `{!Libc} x turns ids req reserved tr p n ev :
  let monitor := attributing (setattr_path req) in
  request_wf req → steps (dispatch x turns ids req reserved) tr p →
  kept monitor opens_fresh (named_start x) tr → tr !! n = Some ev →
  attributed (setattr_path req) (followed monitor (named_start x) (take n tr)) (ev_eff ev).
Proof.
  intros monitor Hw Hs Hk Hn. eapply (triple_accepts_at monitor opens_fresh); [|done..].
  apply attr_dispatch; [done..|]. apply lookup_singleton_eq.
Qed.

(** The third step of a [Create] makes the file, recorded by the first. *)
Lemma changes_are_attributed_witness :
  ∃ ev,
    Demo.ran Demo.create_b Demo.slot_9 !! 2%nat = Some ev ∧ mutates (ev_eff ev) = true
    ∧ attributed None (followed (attributing None) (named_start Demo.export)
                         (take 2 (Demo.ran Demo.create_b Demo.slot_9))) (ev_eff ev).
Proof.
  eexists. split; [reflexivity|]. split; [reflexivity|].
  refine (changes_are_attributed Demo.export 8 Demo.ids Demo.create_b Demo.slot_9 _ _ 2 _
            Demo.create_b_wf (Demo.ran_steps _ _) _ _); [|reflexivity].
  repeat split; vm_compute; reflexivity.
Defined.
