(* ===== verification/OpsOpen.v ===== *)
(** * What becomes of an open's slot ([crates/server/src/ops.rs])

    [Ops::reserve] takes a slot of the pool before an open begins.  The open uses it
    once: it keeps its handle in it, or gives it back. *)

From S2P Require Import Prelude Types Msg Wire Owners ServerHandles Dirents Sys Export Ops OpsLogic.

(** The effects that use no slot. *)
Definition slotless (e : Eff) : bool :=
  match e with E_insert _ _ | E_drop_slot _ => false | _ => true end.

Definition slot_events (tr : list Event) : list Event :=
  filter (λ ev, slotless (ev_eff ev) = false) tr.

Definition is_opened (resp : Response) : bool := match resp with Resp_Opened _ => true | _ => false end.

(** What a run that has ended has done with its reservation. *)
Definition slot_spec (reserved : Reservation) (evs : list Event) (resp : Response) : Prop :=
  match reserved with
  | Ok (Some (Reserved_Slot s)) =>
      (∃ h r, evs = [Ev (E_insert s h) r] ∧ is_opened resp = is_ok r)
      ∨ evs = [Ev (E_drop_slot s) ()] ∧ is_opened resp = false
  | Ok (Some (Reserved_Held _)) | Ok None => evs = []
  | Err _ => evs = [] ∧ ∃ errno, resp = Resp_Err errno
  end.

Definition slots : Monitor := MkMonitor true (list Event) (λ _ _, True)
  (λ used e a, if slotless e then used else used ++ [Ev e a]).

Lemma followed_slots g tr : followed slots g tr = g ++ slot_events tr.
Proof.
  revert g. induction tr as [|[e a] tr IH]; intros g; [cbn; by rewrite app_nil_r|].
  cbn [followed mon_next slots]. rewrite IH. unfold slot_events. rewrite filter_cons. cbn [ev_eff].
  destruct (slotless e); [done|]. rewrite decide_True by done. by rewrite <-app_assoc.
Qed.

Lemma looks_slotless {A} (p : Prog A) : each looks p → each slotless p.
Proof. apply each_mono. by intros []. Qed.
Lemma visits_slotless {A} (p : Prog A) : each visits p → each slotless p.
Proof. apply each_mono. by intros []. Qed.
#[local] Hint Resolve looks_slotless visits_slotless : each_db.

Lemma reply_opened ids acl resp : is_opened (ServerIds.reply ids acl resp) = is_opened resp.
Proof. unfold ServerIds.reply. destruct (ServerIds.mode ids); [done|]. by destruct resp, acl. Qed.

Section slots.
Context `{!Libc} (x : Export) (turns : nat).

Lemma slotless_openat2_root path flags mode : each slotless (openat2_root x path flags mode).
Proof. by apply each_do. Qed.

Lemma slotless_write_all fd n : ∀ data offset, each slotless (write_all_at n fd data offset).
Proof. induction n; intros [|b data] offset; unfold write_all_at; fold write_all_at; each_walk. Qed.

Lemma slotless_set_target t path set : each slotless (set_target x t path set).
Proof.
  unfold set_target, change_owner, change_mode, change_size, change_times, some_path, open_node.
  each_walk; apply slotless_openat2_root.
Qed.
#[local] Hint Resolve slotless_openat2_root slotless_write_all slotless_set_target : each_db.

Lemma slotless_opening_file path flags : each slotless (opening_file x path flags).
Proof. unfold opening_file, open_node. each_walk. Qed.
Lemma slotless_opening_new parent name mode flags : each slotless (opening_new x parent name mode flags).
Proof. unfold opening_new, open_in. each_walk. Qed.
Lemma slotless_opening_dir path : each slotless (opening_dir x path).
Proof. unfold opening_dir, open_node. each_walk. Qed.

(** Any other request uses no slot. *)
Lemma slotless_run req reserved : reserves req = None → each slotless (run x turns req reserved).
Proof.
  intros Hr. destruct req; cbn [reserves] in Hr; try done; cbn [run]; run_arms.
  all: unfold setattr, get_opt, get, some_path, read_dir_fd, statfs, entry_made, entry_removed,
    copy_range, allocate, resolve, file_and_path.
  all: each_walk; apply looks_slotless, looks_xattr_read; each_walk.
Qed.

Lemma slots_each {A} g (p : Prog A) Q : each slotless p → (∀ r, Q g r) → triple slots no_contract g p Q.
Proof.
  intros Hp HQ. apply (triple_each slotless slots no_contract (λ g' : list Event, g' = g)); try done.
  - intros g' e -> He. split; [done|]. intros a _. cbn. by rewrite He.
  - by intros g' r ->.
Qed.

(** As [run] leaves its slot; the failure is not yet a reply. *)
Definition ran_slot (reserved : Reservation) (used : list Event) (r : result Failure Response) : Prop :=
  match reserved with
  | Ok (Some (Reserved_Slot s)) =>
      (∃ h kept, used = [Ev (E_insert s h) kept]
                 ∧ match r with Ok resp => is_opened resp = true ∧ is_ok kept = true | Err _ => is_ok kept = false end)
      ∨ used = [Ev (E_drop_slot s) ()] ∧ is_ok r = false
  | Ok (Some (Reserved_Held _)) | Ok None => used = []
  | Err _ => used = [] ∧ is_ok r = false
  end.

Lemma slots_open_with reserved opening : reserved ≠ Ok None → each slotless opening →
  triple slots no_contract [] (open_with x reserved opening) (ran_slot reserved).
Proof.
  intros Hr Ho. destruct reserved as [[[s|h]|]|e]; unfold open_with, opened_already; try done.
  - prog_step. apply slots_each; [done|]. intros [[h attr]|e]; cbn.
    + split; [done|]. intros [kept|e] _; cbn; left; by exists h; eexists.
    + split; [done|]. intros [] _. right. done.
  - apply slots_each; [each_walk|done].
Qed.

Lemma slots_run req reserved : (reserves req = None → reserved = Ok None) →
  (is_Some (reserves req) → reserved ≠ Ok None) →
  triple slots no_contract [] (run x turns req reserved) (ran_slot reserved).
Proof.
  intros Hnone Hsome. destruct (reserves req) as [fh|] eqn:Hreq.
  - specialize (Hsome (mk_is_Some _ _ eq_refl)).
    destruct req; try done; cbn [run]; run_arms; apply slots_open_with; try done.
    + apply slotless_opening_file.
    + apply slotless_opening_new.
    + apply slotless_opening_dir.
  - specialize (Hnone eq_refl) as ->. apply slots_each; [by apply slotless_run|done].
Qed.

Lemma slots_dispatch ids req reserved : (reserves req = None → reserved = Ok None) →
  (is_Some (reserves req) → reserved ≠ Ok None) →
  triple slots no_contract [] (dispatch x turns ids req reserved) (slot_spec reserved).
Proof.
  intros Hnone Hsome. unfold dispatch. destruct (ServerIds.IdMap_admit ids req).
  - apply triple_bind. eapply triple_mono; [by apply slots_run|]. intros used [resp|f] Hu; cbn.
    + destruct reserved as [[[s|h]|]|e]; cbn in *; [|done|done|by destruct Hu].
      destruct Hu as [(h & kept & -> & Ho & Hk)|[_ Hf]]; [|done]. left. exists h, kept.
      by rewrite reply_opened, Ho, Hk.
    + assert (∀ errno, slot_spec reserved used (Resp_Err errno)) as Herr.
      { intros errno. destruct reserved as [[[s|h]|]|e]; cbn in *; [|done|done|destruct Hu; split; [done|by eexists]].
        destruct Hu as [(h & kept & -> & Hk)|[-> _]]; [left; by exists h, kept|by right]. }
      destruct f as [e|]; cbn; [|by split]. destruct (_ || _); cbn; [by split|done].
  - destruct reserved as [[[s|h]|]|e']; cbn; try done; [|by split; [|eexists]].
    split; [done|]. intros [] _. by right.
Qed.
End slots.

(** C17: An open uses the slot its reservation took, exactly once: it inserts its handle
    there, and is answered [Opened] if and only if the handle is kept, or it gives the
    slot back with an error.  A resend that finds its handle held, and every other
    request, touch no slot; an open that got none fails. *)
Theorem open_uses_its_slot_once `{!Libc} x turns ids hs pool req reserved pool' tr resp :
  Ops_reserve hs pool req = (reserved, pool') →
  steps (dispatch x turns ids req reserved) tr (Ret resp) →
  slot_spec reserved (slot_events tr) resp.
Proof.
  intros Hr Hs. rewrite <-(app_nil_l (slot_events tr)), <-followed_slots.
  refine (triple_steps slots no_contract _ _ _ [] tr _ Hs (kept_no_contract _ _ _)).
  unfold Ops_reserve in Hr. apply slots_dispatch.
  - intros Hn. rewrite Hn in Hr. by simplify_eq.
  - intros [fh Hfh]. rewrite Hfh in Hr. destruct (reserve hs pool fh) as [[r|e] p]; by simplify_eq/=.
Qed.

Lemma open_uses_its_slot_once_witness :
  slot_spec Demo.slot_9 (slot_events (Demo.ran Demo.create_b Demo.slot_9))
    (match Demo.ended Demo.create_b Demo.slot_9 with Ret resp => resp | _ => Resp_Ok end)
  ∧ Ops_reserve (Handles_new 4) (HandlePool_new 4) Demo.create_b = (Demo.slot_9, MkPool 4 1).
Proof.
  split; [|reflexivity].
  exact (open_uses_its_slot_once Demo.export 8 Demo.ids (Handles_new 4) (HandlePool_new 4) Demo.create_b
           Demo.slot_9 (MkPool 4 1) _ _ eq_refl (Demo.ran_steps Demo.create_b Demo.slot_9)).
Defined.
