(* ===== verification/OpsIO.v ===== *)
(** * Reads and writes, and that a request gets somewhere ([crates/server/src/ops.rs])

    A kernel may read or write less than it is asked for, and be interrupted; and a write
    through a descriptor opened with [O_APPEND] goes to the file's end, whatever offset it
    is given ([file_next], [file_io] are of either kind of descriptor).  A
    [Read] still answers all there is of what was asked, a [Write] all or an error;
    and under what the kernel documents no request panics, or stops short of its reply. *)

From S2P Require Import Prelude Types Msg Codec Wire Owners ServerHandles Dirents Sys Export Ops OpsLogic.

(** ** Slices *)

(** The bytes before [offset], as far as a write there makes the file reach. *)
Definition padded (old : list byte) (offset : Z) : list byte :=
  take (Z.to_nat offset) (old ++ replicate (Z.to_nat offset - length old) Byte.x00).

Lemma length_padded old offset : length (padded old offset) = Z.to_nat offset.
Proof. unfold padded. rewrite length_take, length_app, length_replicate. lia. Qed.

Lemma spliced_some old data offset : data ≠ [] →
  spliced old data offset = padded old offset ++ data ++ drop (Z.to_nat offset + length data) old.
Proof. by destruct data. Qed.

Lemma spliced_app old d1 d2 offset : 0 <= offset →
  spliced (spliced old d1 offset) d2 (offset + Z.of_nat (length d1)) = spliced old (d1 ++ d2) offset.
Proof.
  intros Ho. destruct (decide (d1 = [])) as [->|H1]; [cbn; by rewrite Z.add_0_r|].
  destruct (decide (d2 = [])) as [->|H2]; [by rewrite app_nil_r|].
  rewrite !(spliced_some old) by (try done; by intros [? ?]%app_nil).
  rewrite spliced_some by done. set (head := padded old offset). unfold padded.
  assert (length head = Z.to_nat offset) as Hh by apply length_padded.
  rewrite Z2Nat.inj_add, Nat2Z.id by lia. rewrite !app_assoc, <-(app_assoc _ (drop _ old)).
  rewrite take_app_le by (rewrite length_app; lia). rewrite take_ge by (rewrite length_app; lia).
  rewrite <-!app_assoc. do 3 f_equal. rewrite !length_app, !drop_app_ge by lia. rewrite drop_drop. f_equal. lia.
Qed.

Lemma sliced_more content offset len n : 0 <= offset → 0 <= n → n <= len →
  sliced content offset n ++ sliced content (offset + n) (len - n) = sliced content offset len.
Proof.
  intros Ho Hn Hl. unfold sliced. rewrite Z2Nat.inj_add by done. rewrite <-drop_drop.
  rewrite take_take_drop. f_equal. lia.
Qed.

(** What a write leaves: a descriptor opened with [O_APPEND] writes at the end of the file,
    whatever offset it is given; any other at the offset. *)
Definition wrote (append : bool) (old data : list byte) (offset : Z) : list byte :=
  if append then old ++ data else spliced old data offset.

Lemma wrote_nil append old offset : wrote append old [] offset = old.
Proof. destruct append; [apply app_nil_r|done]. Qed.

Lemma wrote_app append old d1 d2 offset : 0 <= offset →
  wrote append (wrote append old d1 offset) d2 (offset + Z.of_nat (length d1))
  = wrote append old (d1 ++ d2) offset.
Proof. intros Ho. destruct append; [symmetry; apply app_assoc|by apply spliced_app]. Qed.

(** ** One file *)

(** The bytes of the file [fd] has open, as this run's writes leave them; [append] is
    whether it was opened with [O_APPEND]. *)
Definition file_next (fd : Fd) (append : bool) (content : list byte) (e : Eff) : Answer e → list byte :=
  match e with
  | E_pwrite fd' data offset => λ a,
      match a with
      | Ok n => if bool_decide (fd' = fd) then wrote append content (take (Z.to_nat n) data) offset else content
      | Err _ => content
      end
  | _ => λ _, content
  end.

(** [pread] of a regular file gives bytes of it from the offset on, none only at its end,
    no offset past [i64::MAX]; [pwrite] takes as much of the data as it says.  The handle
    is [fd]'s. *)
Definition file_contract (fd : Fd) (content : list byte) (e : Eff) : Answer e → Prop :=
  match e with
  | E_pread fd' len offset => λ a,
      match a with
      | Ok bytes => fd' = fd → offset + len_z bytes < 2 ^ 63
                    ∧ (∃ n, n <= len ∧ bytes = sliced content offset n)
                    ∧ (bytes = [] → sliced content offset len = [])
      | Err _ => True
      end
  | E_pwrite _ data _ => λ a, match a with Ok n => 0 <= n <= len_z data | Err _ => True end
  | E_file_and_path _ => λ a, match a with Ok (fd', _) => fd' = fd | Err _ => True end
  | _ => λ _, True
  end.

Definition file_io (fd : Fd) (append : bool) : Monitor :=
  MkMonitor false (list byte) (λ _ _, True) (file_next fd append).

Lemma sliced_length content offset n : sliced content offset (len_z (sliced content offset n)) = sliced content offset n.
Proof.
  unfold sliced, len_z. rewrite Nat2Z.id. set (l := drop _ content).
  rewrite length_take. destruct (decide (Z.to_nat n <= length l)%nat).
  - by rewrite Nat.min_l.
  - rewrite Nat.min_r, !take_ge by lia. done.
Qed.

Section io.
Context (fd : Fd) (append : bool).
Notation triple_f := (triple (file_io fd append) (file_contract fd)).

(** However short the reads, what has been read is the file from [offset] on. *)
Lemma file_read_fill content size offset n : 0 <= offset → 0 <= size → ∀ filled,
  filled = sliced content offset (len_z filled) → len_z filled <= size → offset + len_z filled < 2 ^ 64 →
  triple_f content (read_fill n fd size offset filled)
    (λ content' r, content' = content ∧ match r with Ok d => d = sliced content offset size | Err _ => True end).
Proof.
  intros Ho Hs. induction n as [|n IH]; intros filled Hf Hl Hb; unfold read_fill; fold read_fill;
    destruct (Z.ltb_spec (len_z filled) size); try done.
  1,3: split; [done|]; rewrite Hf; f_equal; lia.
  destruct (Z.leb_spec (2 ^ 64) (offset + len_z filled)); [lia|]. split; [done|].
  intros [bytes|e]; cbn.
  - intros Hc. destruct (Hc eq_refl) as (Hb' & (k & Hk & Hbytes) & Hend). destruct bytes as [|b bytes].
    + split; [done|]. rewrite <-(sliced_more content offset size (len_z filled)) by (unfold len_z in *; lia).
      by rewrite <-Hf, (Hend eq_refl), app_nil_r.
    + set (bs := b :: bytes) in *.
      assert (len_z bs <= size - len_z filled).
      { rewrite Hbytes. unfold sliced, len_z in *. rewrite length_take. lia. }
      assert (len_z (filled ++ bs) = len_z filled + len_z bs) as Hlen by (unfold len_z; rewrite length_app; lia).
      apply IH; [|lia|lia]. rewrite Hlen.
      rewrite <-(sliced_more content offset (len_z filled + len_z bs) (len_z filled)) by (unfold len_z; lia).
      rewrite <-Hf. f_equal. rewrite Z.add_simpl_l, Hbytes. by rewrite sliced_length.
  - intros _. destruct (e =? EINTR); [by apply IH|done].
Qed.

(** However short the writes, what has been written is the beginning of the data. *)
Lemma file_write_all n : ∀ content data offset, 0 <= offset →
  triple_f content (write_all_at n fd data offset)
    (λ content' r, ∃ k, (k <= length data)%nat ∧ content' = wrote append content (take k data) offset
                        ∧ match r with Ok () => k = length data | Err _ => True end).
Proof.
  induction n as [|n IH]; intros content data offset Ho; unfold write_all_at; fold write_all_at;
    (destruct data as [|b data]; [by exists 0%nat; rewrite wrote_nil|]); [done|].
  split; [done|]. change (S (length data)) with (length (b :: data)).
  generalize (b :: data). clear b data. intros d [k|e]; cbn [file_contract mon_next file_io file_next].
  - intros [Hk0 Hk]. rewrite bool_decide_true by done. unfold len_z in Hk.
    destruct (Z.eqb_spec k 0) as [->|Hne]; [exists 0%nat; split_and!; [lia|cbn; by rewrite !wrote_nil|done]|].
    eapply triple_mono; [by apply IH; lia|]. intros content' r (j & Hj & -> & Hr).
    rewrite length_drop in Hj. exists (Z.to_nat k + j)%nat. split_and!; [lia| |].
    + replace (offset + k) with (offset + Z.of_nat (length (take (Z.to_nat k) d)))
        by (rewrite length_take; lia).
      rewrite wrote_app, take_take_drop by done. done.
    + destruct r as [[]|]; [|done]. rewrite Hr, length_drop. lia.
  - intros _. destruct (e =? EINTR); [by apply IH|exists 0%nat; split_and!; [lia|by rewrite wrote_nil|done]].
Qed.

Context `{!Libc} (x : Export) (turns : nat).

(** The errors of [run] become replies. *)
Lemma file_dispatch content ids req reserved (Q : list byte → Response → Prop) :
  reserved = Ok None →
  triple_f content (run x turns req reserved) (λ c r,
    match r with Ok resp => Q c (ServerIds.reply ids (reads_posix_acl req) resp) | Err _ => ∀ e, Q c (Resp_Err e) end) →
  (∀ e, Q content (Resp_Err e)) → triple_f content (dispatch x turns ids req reserved) Q.
Proof.
  intros -> Hr He. unfold dispatch. destruct (ServerIds.IdMap_admit ids req); [|apply He].
  apply triple_bind. eapply triple_mono; [exact Hr|]. intros c [resp|[e|]] HQ; cbn; [done| |by split].
  destruct (_ || _); cbn; [by split|done].
Qed.

Lemma file_dispatch_read content ids fh offset size : 0 <= offset < 2 ^ 64 → 0 <= size →
  triple_f content (dispatch x turns ids (Req_Read fh offset size) (Ok None))
    (λ _ resp, match resp with
               | Resp_Read d => d = sliced content offset (Z.min size MAX_IO)
               | Resp_Err _ => True
               | _ => False
               end).
Proof.
  intros Ho Hs. apply file_dispatch; [done| |done]. cbn [run]; run_arms. prog_step. split; [done|].
  intros [[fd' path]|e]; cbn; [|done]. intros ->. prog_step. prog_step.
  eapply triple_mono; [apply (file_read_fill content); unfold len_z, MAX_IO; cbn [length]; try lia|].
  - unfold sliced. cbn. by destruct (drop _ _).
  - intros c [d|e] [-> Hd]; cbn; [|done]. unfold ServerIds.reply. by destruct (ServerIds.mode ids).
Qed.

Lemma file_dispatch_write content ids fh offset data : 0 <= offset →
  triple_f content (dispatch x turns ids (Req_Write fh offset data) (Ok None))
    (λ content' resp, match resp with
                      | Resp_Written n => n = len_z data ∧ content' = wrote append content data offset
                      | Resp_Err _ => ∃ k, content' = wrote append content (take k data) offset
                      | _ => False
                      end).
Proof.
  intros Ho. apply file_dispatch; [done| |by exists 0%nat; rewrite wrote_nil]. cbn [run]; run_arms.
  destruct (Z.ltb_spec MAX_IO (len_z data)) as [|Hl]; [by exists 0%nat; rewrite wrote_nil|]. prog_step. split; [done|].
  intros [[fd' path]|e]; cbn; [|by exists 0%nat; rewrite wrote_nil]. intros ->. split; [done|]. intros [] _.
  prog_step. prog_step. eapply triple_mono; [by apply file_write_all|].
  intros c [[]|e] (k & Hk & -> & Hr); cbn; [|by exists k]. subst k. rewrite firstn_all.
  assert (as_u32 (len_z data) = len_z data) as ->.
  { unfold MAX_IO in Hl. unfold as_u32. apply Z.mod_small. unfold len_z in *. lia. }
  unfold ServerIds.reply. by destruct (ServerIds.mode ids).
Qed.
End io.

(** C18: A [Read] answers exactly the bytes of the file from its offset on, as many as it
    asked for (at most [MAX_IO]) or up to the file's end, however little each call of
    the kernel reads and however often it is interrupted. *)
Theorem read_answers_the_slice `{!Libc} x turns ids fh offset size fd append content tr resp :
  0 <= offset < 2 ^ 64 → 0 <= size →
  steps (dispatch x turns ids (Req_Read fh offset size) (Ok None)) tr (Ret resp) →
  kept (file_io fd append) (file_contract fd) content tr →
  resp = Resp_Read (sliced content offset (Z.min size MAX_IO)) ∨ ∃ errno, resp = Resp_Err errno.
Proof.
  intros Ho Hs Hst Hk.
  pose proof (triple_steps _ _ _ _ _ _ _
    (file_dispatch_read fd append x turns content ids fh offset size Ho Hs) Hst Hk) as Hr.
  cbn in Hr. destruct resp; try done; [right; by eexists|left; by rewrite Hr].
Qed.

(** Asked for eight bytes from the second on, of a file of three. *)
Lemma read_answers_the_slice_witness :
  Demo.ended Demo.read_b (Ok None) = Ret (Resp_Read [Byte.x62; Byte.x63])
  ∧ (Resp_Read [Byte.x62; Byte.x63] = Resp_Read (sliced (Demo.content Demo.start) 1 (Z.min 8 MAX_IO))
     ∨ ∃ errno, Resp_Read [Byte.x62; Byte.x63] = Resp_Err errno).
Proof.
  split; [reflexivity|].
  refine (read_answers_the_slice Demo.export 8 Demo.ids 9 1 8 4 false (Demo.content Demo.start) _ _ _ _
            (Demo.ran_steps Demo.read_b (Ok None)) _); [lia|lia|].
  vm_compute. split; [reflexivity|]. split; [|split; [|split; [|exact I]]]; intros _; (split; [reflexivity|split]).
  - exists 1. split; [discriminate|reflexivity].
  - discriminate.
  - exists 1. split; [discriminate|reflexivity].
  - discriminate.
  - exists 0. split; [discriminate|reflexivity].
  - reflexivity.
Defined.

(** C19: A [Write] is answered [Written], with its length, only when all its data is in the
    file and nothing else of the file has changed: at its offset, or at the end of the
    file for a handle opened with [O_APPEND], where the kernel ignores the offset of each
    of its calls.  One that fails has put there no more than a beginning of its data. *)
Theorem write_is_whole `{!Libc} x turns ids fh offset data fd append content tr resp :
  0 <= offset →
  steps (dispatch x turns ids (Req_Write fh offset data) (Ok None)) tr (Ret resp) →
  kept (file_io fd append) (file_contract fd) content tr →
  let content' := followed (file_io fd append) content tr in
  let left_by written := if append then content ++ written else spliced content written offset in
  resp = Resp_Written (len_z data) ∧ content' = left_by data
  ∨ (∃ errno, resp = Resp_Err errno) ∧ ∃ k, content' = left_by (take k data).
Proof.
  intros Ho Hst Hk. cbv zeta.
  pose proof (triple_steps _ _ _ _ _ _ _
    (file_dispatch_write fd append x turns content ids fh offset data Ho) Hst Hk) as Hr.
  cbn in Hr. destruct resp; try done; [right; split; [by eexists|done]|left; by destruct Hr as [-> ->]].
Qed.

(** Three bytes written from the third on of a file of three, two at a time; and the same
    through a handle that appends. *)
Lemma write_is_whole_witness :
  let data := [Byte.x78; Byte.x79; Byte.x7a] in
  let content := Demo.content Demo.start in
  let content' append := followed (file_io 4 append) content (Demo.ran Demo.write_b (Ok None)) in
  Demo.ended Demo.write_b (Ok None) = Ret (Resp_Written 3)
  ∧ (Resp_Written 3 = Resp_Written 3 ∧ content' false = spliced content data 2
     ∨ (∃ errno, Resp_Written 3 = Resp_Err errno) ∧ ∃ k, content' false = spliced content (take k data) 2)
  ∧ (Resp_Written 3 = Resp_Written 3 ∧ content' true = content ++ data
     ∨ (∃ errno, Resp_Written 3 = Resp_Err errno) ∧ ∃ k, content' true = content ++ take k data).
Proof.
  intros data content content'.
  assert (∀ append, kept (file_io 4 append) (file_contract 4) content (Demo.ran Demo.write_b (Ok None))) as Hk
    by (intros []; vm_compute; split_and!; first [reflexivity|exact I|discriminate]).
  split; [reflexivity|]. split.
  - exact (write_is_whole Demo.export 8 Demo.ids 9 2 data 4 false content _ _ ltac:(lia)
             (Demo.ran_steps Demo.write_b (Ok None)) (Hk false)).
  - exact (write_is_whole Demo.export 8 Demo.ids 9 2 data 4 true content _ _ ltac:(lia)
             (Demo.ran_steps Demo.write_b (Ok None)) (Hk true)).
Defined.

(** ** Getting somewhere *)

(** What the kernel documents of its answers: an offset is no more than [i64::MAX], a
    count is not negative, and a copy no more than was asked. *)
Definition kernel (e : Eff) : Answer e → Prop :=
  match e with
  | E_pread _ _ offset => λ a, match a with Ok bytes => offset + len_z bytes < 2 ^ 63 | Err _ => True end
  | E_pwrite _ _ _ => λ a, match a with Ok n => 0 <= n | Err _ => True end
  | E_copy_file_range _ _ _ _ len => λ a, match a with Ok n => 0 <= n <= len | Err _ => True end
  | E_lseek _ _ _ => λ a, match a with Ok n => 0 <= n | Err _ => True end
  | _ => λ _, True
  end.

Definition calm : Discipline := MkDiscipline false (λ _, true) kernel.

Section calm.
Context `{!Libc} (x : Export) (turns : nat).

Lemma calm_attr_of fd : disciplined calm (attr_of x fd).
Proof. unfold attr_of, statx, file_handle, xattr_names, xattr_names_by_path. each_walk. Qed.
Lemma calm_attr_entry dir name : disciplined calm (attr_entry x dir name).
Proof. unfold attr_entry, statx, file_handle, xattr_names_at, xattr_names_by_path. each_walk. Qed.
Lemma calm_openat2_root path flags mode : disciplined calm (openat2_root x path flags mode).
Proof. by apply each_do. Qed.
#[local] Hint Resolve calm_attr_of calm_attr_entry calm_openat2_root : each_db.

Lemma calm_list_records dir max_bytes raws : ∀ used entries,
  disciplined calm (list_records x dir max_bytes used entries raws).
Proof.
  induction raws as [|raw raws IH]; intros used entries; [done|]. cbn [list_records]. each_walk; apply IH.
Qed.
#[local] Hint Resolve calm_list_records : each_db.
Lemma calm_list_calls dir max_bytes n : ∀ used entries,
  disciplined calm (list_calls x n dir max_bytes used entries).
Proof. induction n as [|n IH]; intros used entries; [done|]. cbn [list_calls]. each_walk. Qed.
Lemma calm_xattr_read query n : (∀ room, disciplined calm (query room)) → disciplined calm (xattr_read n query).
Proof. intros Hq. induction n; unfold xattr_read; fold xattr_read; each_walk; apply Hq. Qed.
Lemma calm_write_all fd n : ∀ data offset, disciplined calm (write_all_at n fd data offset).
Proof. induction n; intros [|b data] offset; unfold write_all_at; fold write_all_at; each_walk. Qed.

(** The sum cannot overflow: what has been read ends below [i64::MAX]. *)
Lemma calm_read_fill fd size offset n : ∀ filled, offset + len_z filled < 2 ^ 64 →
  disciplined calm (read_fill n fd size offset filled).
Proof.
  induction n as [|n IH]; intros filled Hb; unfold read_fill; fold read_fill; (destruct (_ <? _); [|done]); [done|].
  destruct (Z.leb_spec (2 ^ 64) (offset + len_z filled)); [lia|]. apply each_do; [done|]. intros [bytes|e]; cbn.
  - intros Hk. destruct bytes as [|b bytes]; [done|]. apply IH. unfold len_z in *. rewrite length_app. lia.
  - intros _. destruct (e =? EINTR); [by apply IH|done].
Qed.

Lemma calm_set_target t path set : disciplined calm (set_target x t path set).
Proof. unfold set_target, change_owner, change_mode, change_size, change_times, some_path, open_node. each_walk. Qed.
#[local] Hint Resolve calm_list_calls calm_write_all calm_set_target : each_db.

Lemma calm_open_with reserved opening : reserved ≠ Ok None → disciplined calm opening →
  disciplined calm (open_with x reserved opening).
Proof. intros Hr Ho. unfold open_with, opened_already. each_walk. done. Qed.

(** Interrupted or not, a copy is of no more than was asked. *)
Lemma calm_copied src offset_in dst offset_out len n (k : Z → M Failure Response) :
  (∀ copied, 0 <= copied <= len → disciplined calm (k copied)) →
  disciplined calm (copied ← up (retry n (call (E_copy_file_range src offset_in dst offset_out len))); k copied).
Proof.
  intros Hk. apply triple_mbind, triple_map_error.
  apply (triple_retry _ _ n _ (λ _, True)); [done|]. intros [] _. split; [done|].
  intros [copied|e]; cbn; [apply Hk|]. intros _. by destruct (e =? EINTR).
Qed.

Lemma calm_copy_range fh_in offset_in fh_out offset_out len :
  disciplined calm (copy_range turns fh_in offset_in fh_out offset_out len).
Proof.
  unfold copy_range, file_and_path. apply each_mbind; [each_walk|]. intros [src p1].
  apply each_mbind; [each_walk|]. intros [dst p2]. do 3 (apply each_mbind; [each_walk|intros ?]).
  apply calm_copied. intros copied Hc. unfold MAX_COPY in Hc. change (Z.shiftl 64 20) with 67108864 in Hc.
  assert ((0 <=? copied) && (copied <? 2 ^ 32) = true) as ->; [lia|done].
Qed.

Lemma calm_lseek fh offset whence : disciplined calm (run x turns (Req_Lseek fh offset whence) (Ok None)).
Proof.
  cbn [run]; run_arms. unfold file_and_path. apply each_mbind; [each_walk|]. intros [file p].
  apply each_mbind; [each_walk|]. intros a. apply triple_mbind, triple_map_error. split; [done|].
  intros [found|e]; cbn; [|done]. intros Hf. destruct (Z.ltb_spec found 0); [lia|done].
Qed.

Lemma calm_run req reserved : (is_Some (reserves req) → reserved ≠ Ok None) →
  (∀ fh offset size, req = Req_Read fh offset size → offset < 2 ^ 64) →
  disciplined calm (run x turns req reserved).
Proof.
  intros Hr Ho. destruct req; try exact (calm_lseek _ _ _); try exact (calm_copy_range _ _ _ _ _); cbn [run]; run_arms.
  all: unfold setattr, get_opt, get, some_path, read_dir_fd, statfs, entry_made, entry_removed, resolve_parent,
    resolve, resolve_dir, attr_in, allocate, file_and_path.
  all: try (apply calm_open_with; [by apply Hr; eexists|unfold opening_file, opening_new, opening_dir, open_in, open_node, resolve_dir]).
  all: each_walk.
  - apply calm_read_fill. unfold len_z. cbn [length]. specialize (Ho _ _ _ eq_refl). lia.
  - apply calm_xattr_read. each_walk.
  - apply calm_xattr_read. each_walk.
Qed.

Lemma calm_dispatch ids req reserved : (is_Some (reserves req) → reserved ≠ Ok None) →
  (∀ fh offset size, req = Req_Read fh offset size → offset < 2 ^ 64) →
  disciplined calm (dispatch x turns ids req reserved).
Proof.
  intros Hr Ho. unfold dispatch, drop_reserved. destruct (ServerIds.IdMap_admit ids req); [|each_walk].
  apply each_bind; [by apply calm_run|]. each_walk.
Qed.
End calm.

(** ** Turns *)

(** What sends a loop round again without its getting on: an interruption, and a buffer
    of a directory's records. *)
Definition rounds (e : Eff) : Answer e → nat :=
  let interrupted (err : Z) := if err =? EINTR then 1%nat else O in
  match e with
  | E_pread _ _ _ => λ a, match a with Err err => interrupted err | Ok _ => O end
  | E_pwrite _ _ _ => λ a, match a with Err err => interrupted err | Ok _ => O end
  | E_copy_file_range _ _ _ _ _ => λ a, match a with Err err => interrupted err | Ok _ => O end
  | E_fallocate _ _ _ _ => λ a, match a with Err err => interrupted err | Ok _ => O end
  | E_getdents _ _ => λ a, match a with Ok (_ :: _) => 1%nat | _ => O end
  | _ => λ _, O
  end.

(** The rounds a loop gets on with: a byte each at the least. *)
Definition work (req : Request) : nat :=
  match req with
  | Req_Read _ _ size => Z.to_nat (Z.min size MAX_IO)
  | Req_Write _ _ data => length data
  | _ => O
  end.

Notation lasts_k := (lasts kernel rounds).

Create HintDb lasts_db discriminated.
Ltac lasts_walk :=
  repeat first
    [ progress intros
    | assumption
    | lazymatch goal with
      | |- lasts _ _ _ (Ret _) => apply lasts_ret
      | |- lasts _ _ _ (ok _) => apply lasts_ret
      | |- lasts _ _ _ (throw _) => apply lasts_ret
      | |- lasts _ _ _ (of_result _) => apply lasts_ret
      | |- lasts _ _ _ Panicked => exact I
      end
    | solve [eauto 4 with lasts_db nocore]
    | lazymatch goal with
      | |- lasts _ _ _ (_ ≫= _) => apply lasts_mbind
      | |- lasts _ _ _ (_ <$> _) => apply lasts_fmap
      | |- lasts _ _ _ (up _) => apply lasts_map_error
      | |- lasts _ _ _ (map_error _ _) => apply lasts_map_error
      | |- lasts _ _ _ (bind _ _) => apply lasts_bind
      | |- lasts _ _ _ (act _) => apply lasts_do
      | |- lasts _ _ _ (Do _ _) => apply lasts_do
      | |- lasts _ _ _ (when ?b _) => destruct b; cbn [when]
      | |- lasts _ _ _ (let '(_, _) := ?p in _) => destruct p
      | |- lasts _ _ _ (match ?x with _ => _ end) => destruct x
      end ].

Section turns.
Context `{!Libc} (x : Export) (turns : nat).

Lemma lasts_retry_copy src offset_in dst offset_out len t : ∀ n, (n < t)%nat →
  lasts_k n (retry t (call (E_copy_file_range src offset_in dst offset_out len))).
Proof.
  induction t as [|t IH]; intros n Hn; [lia|]. intros [a|e]; [done|]. cbn. intros _ Hr.
  destruct (e =? EINTR); [apply IH; lia|done].
Qed.
Lemma lasts_retry_fallocate fd mode offset len t : ∀ n, (n < t)%nat →
  lasts_k n (retry t (call (E_fallocate fd mode offset len))).
Proof.
  induction t as [|t IH]; intros n Hn; [lia|]. intros [a|e]; [done|]. cbn. intros _ Hr.
  destruct (e =? EINTR); [apply IH; lia|done].
Qed.

(** Each turn reads a byte or is interrupted. *)
Lemma lasts_read_fill fd size offset t : ∀ n filled, (Z.to_nat size + n < t + length filled)%nat →
  lasts_k n (read_fill t fd size offset filled).
Proof.
  induction t as [|t IH]; intros n filled Hn; unfold read_fill; fold read_fill;
    (destruct (Z.ltb_spec (len_z filled) size) as [Hl|]; [|done]); unfold len_z in Hl; [lia|].
  destruct (_ <=? _); [done|]. intros [[|b bytes]|e] _ Hr; [done| |]; cbn in Hr |- *.
  - apply IH. rewrite length_app. cbn. lia.
  - destruct (e =? EINTR); [apply IH; lia|done].
Qed.
Lemma lasts_write_all fd t : ∀ n data offset, (length data + n < t)%nat →
  lasts_k n (write_all_at t fd data offset).
Proof.
  induction t as [|t IH]; intros n data offset Hn; [lia|].
  destruct data as [|b data]; [done|]. unfold write_all_at; fold write_all_at.
  intros [k|e] Hk Hr; cbn [kernel rounds] in Hk, Hr |- *.
  - destruct (Z.eqb_spec k 0); [done|]. apply IH. rewrite length_drop. cbn in Hn |- *. lia.
  - destruct (e =? EINTR); [apply IH; lia|done].
Qed.

Lemma lasts_attr_of n fd : lasts_k n (attr_of x fd).
Proof. unfold attr_of, statx, file_handle, xattr_names, xattr_names_by_path. lasts_walk. Qed.
Lemma lasts_attr_entry n dir name : lasts_k n (attr_entry x dir name).
Proof. unfold attr_entry, statx, file_handle, xattr_names_at, xattr_names_by_path. lasts_walk. Qed.
Lemma lasts_openat2_root n path flags mode : lasts_k n (openat2_root x path flags mode).
Proof. by apply lasts_do. Qed.
Lemma lasts_xattr_read k query t : (∀ room, lasts_k k (query room)) → lasts_k k (xattr_read t query).
Proof. intros Hq. induction t; unfold xattr_read; fold xattr_read; lasts_walk; apply Hq. Qed.
#[local] Hint Resolve lasts_retry_copy lasts_retry_fallocate : lasts_db.
#[local] Hint Resolve lasts_attr_of lasts_attr_entry lasts_openat2_root : lasts_db.

Lemma lasts_list_records n dir max_bytes raws : ∀ used entries,
  lasts_k n (list_records x dir max_bytes used entries raws).
Proof. induction raws as [|raw raws IH]; intros used entries; [done|]. cbn [list_records]. lasts_walk; apply IH. Qed.
Lemma lasts_list_calls dir max_bytes t : ∀ n used entries, (n < t)%nat →
  lasts_k n (list_calls x t dir max_bytes used entries).
Proof.
  induction t as [|t IH]; intros n used entries Hn; [lia|]. cbn [list_calls].
  intros [[|b buf]|e] _ Hr; [done| |done]. cbn in Hr.
  apply lasts_mbind; [apply lasts_list_records|]. intros [[entries' used'] []]; [done|]. apply IH. cbn. lia.
Qed.
#[local] Hint Resolve lasts_list_calls : lasts_db.

Lemma lasts_run req reserved n : (work req + n < turns)%nat → lasts_k n (run x turns req reserved).
Proof.
  intros Hn. assert (n < turns)%nat as Hn' by lia. destruct req; cbn [run work] in Hn |- *; run_arms.
  all: unfold setattr, set_target, change_owner, change_mode, change_size, change_times, get_opt, get,
    some_path, read_dir_fd, statfs, entry_made, entry_removed, resolve_parent, resolve, resolve_dir, attr_in,
    copy_range, allocate, file_and_path, open_with, opened_already, opening_file, opening_new, opening_dir,
    open_in, open_node, resolve_dir.
  all: lasts_walk.
  - apply lasts_read_fill. cbn. lia.
  - by apply lasts_write_all.
  - apply lasts_xattr_read. lasts_walk.
  - apply lasts_xattr_read. lasts_walk.
Qed.

Lemma lasts_dispatch ids req reserved n : (work req + n < turns)%nat →
  lasts_k n (dispatch x turns ids req reserved).
Proof. intros Hn. pose proof (lasts_run req reserved n Hn). unfold dispatch, drop_reserved. lasts_walk. Qed.
End turns.

(** C20: Every request gets to its reply.  Under what the kernel documents of its answers,
    whatever they are, the run of a request ends with its response: it neither panics
    nor goes on for ever.  The turns a model's loops are given are enough when they
    are more than the bytes the request reads or writes and the rounds the kernel
    makes it go, by interruptions and by the buffers of a directory. *)
Theorem requests_reach_a_reply `{!Libc} {K} x turns ids hs pool req reserved pool' (env : K → ∀ e, Answer e * K) k :
  Ops_reserve hs pool req = (reserved, pool') →
  (∀ fh offset size, req = Req_Read fh offset size → offset < 2 ^ 64) →
  let ran := exec env k (dispatch x turns ids req reserved) in
  Forall (λ ev, kernel (ev_eff ev) (ev_ans ev)) ran.1.1 → (work req + rounds_of rounds ran.1.1 < turns)%nat →
  ∃ resp, ran.1.2 = Ret resp.
Proof.
  intros Hr Ho ran Hk Hl. pose proof (exec_steps env (dispatch x turns ids req reserved) k) as Hs.
  pose proof (exec_ends env (dispatch x turns ids req reserved) k) as He.
  fold ran in Hs, He. destruct (ran.1.2) as [resp|e f| |]; [by eexists|by destruct (He e f)| |]; exfalso.
  - by pose proof (lasts_steps _ _ _ _ _ _ (lasts_dispatch x turns ids req reserved _ Hl) Hs Hk (le_n _)).
  - assert (disciplined calm (dispatch x turns ids req reserved)) as Hd.
    { apply calm_dispatch; [|done]. intros [fh Hfh]. unfold Ops_reserve in Hr. rewrite Hfh in Hr.
      destruct (reserve hs pool fh) as [[r|e] p]; by simplify_eq/=. }
    by pose proof (disciplined_steps _ _ _ _ Hd Hs Hk).
Qed.

(** Eight bytes asked for, one read at a time. *)
#[local] Existing Instance Demo.libc.
Lemma requests_reach_a_reply_witness :
  ∃ resp, (exec Demo.answers Demo.start (dispatch Demo.export 9 Demo.ids Demo.read_b (Ok None))).1.2 = Ret resp.
Proof.
  assert ((exec Demo.answers Demo.start (dispatch Demo.export 9 Demo.ids Demo.read_b (Ok None))).1.1
          = Demo.ran Demo.read_b (Ok None)) as Hran by (vm_compute; reflexivity).
  refine (requests_reach_a_reply Demo.export 9 Demo.ids (Handles_new 4) (HandlePool_new 4) Demo.read_b (Ok None) _
            Demo.answers Demo.start eq_refl _ _ _).
  - intros fh offset size [= _ <- _]. reflexivity.
  - rewrite Hran, Demo.ran_read_b. repeat (apply Forall_cons_2; [first [exact I|reflexivity]|]). apply Forall_nil_2.
  - rewrite Hran, Demo.ran_read_b. cbn. lia.
Defined.
