(* ===== verification/Serve.v ===== *)
(** * Serving one request ([crates/server/src/session.rs], [handle_request])

    The task of a request stream and the closure it spawns, from the request decoded to
    its answer: the fence, the client's cancel, the run of [Ops.dispatch] call by call,
    and what is sent.  A step is taken in whatever state the session is in, as the
    session's other requests move it ([serves]).

    [serve_step] is checked against the session machine of [Session.v]: each step is
    one of its steps ([handler_refines_session]), so what that machine guarantees
    holds of the handlers.  Sampling, events, phases and the statistics they go to
    are left out, as is the stage before the request is decoded, which sends nothing;
    [encode]'s failure is one of the ways a reply is not written. *)

From S2P Require Import Prelude Types Msg Wire Owners ServerHandles Session Revision.
From S2P Require Import Dirents Sys Export Ops OpsLogic.

(** What is sent on the stream and its connection. *)
Inductive Out :=
| Out_Reply (resp : Response)
| Out_Reset (code : Z)
| Out_Close (code : Z).
#[export] Instance Out_eq_dec : EqDecision Out.
Proof. solve_decision. Defined.

(** The server's [close_code::SUPERSEDED]. *)
Definition CLOSE_SUPERSEDED : Z := 3.

(** What a joined closure came to: [Ok(Some(Ran))], [Ok(None)], a panic. *)
Inductive Joined := J_Ran (resp : Response) | J_Unrun | J_Panicked.

(** The closure on its blocking thread. *)
Inductive Closure :=
| C_none
| C_spawned
| C_running (p : Prog Response)
| C_returned (j : Joined).

(** Where the task awaits: [At_hold] the [select!] around [drain]; [At_select] the one
    around the closure; [At_await] the closure alone, once the client gave up;
    [At_send] the write of its reply. *)
Inductive Where := At_hold | At_select | At_await (fenced : bool) | At_send (resp : Response) | At_done.

(** [hd_calls]: the effects its run had, a ghost.  [hd_out]: what was sent. *)
Record Handler := MkHandler {
  hd_req : Request;
  hd_epoch : Z;
  hd_x : Exchange;
  hd_where : Where;
  hd_closure : Closure;
  hd_calls : list Sys.Event;
  hd_out : list Out }.

Definition task_moves (h : Handler) (x : Exchange) (w : Where) (c : Closure) (out : list Out) : Handler :=
  MkHandler (hd_req h) (hd_epoch h) x w c (hd_calls h) (hd_out h ++ out).
Definition closure_moves (h : Handler) (x : Exchange) (c : Closure) (calls : list Sys.Event) : Handler :=
  MkHandler (hd_req h) (hd_epoch h) x (hd_where h) c (hd_calls h ++ calls) (hd_out h).

(** A request just decoded. *)
Definition handler_new (st : SessionState) (e : Z) (req : Request) : Handler :=
  let '(x, fence) := fencing st e (Exchange_new (changes req)) in
  if 0 <? fence then MkHandler req e x At_hold C_none [] []
  else MkHandler req e x At_select C_spawned [] [].

(** What is answered to a request dropped for its session's newer connection. *)
Definition superseded_out : list Out := [Out_Reset RESET_SUPERSEDED; Out_Close CLOSE_SUPERSEDED].

(** Where a change that was given up on goes, by what became of it. *)
Definition after_verdict (v : Verdict) : Where * list Out :=
  match v with
  | V_Unrun => (At_done, [Out_Reset RESET_UNRUN])
  | V_Fenced => (At_await true, [Out_Reset RESET_FENCED])
  | V_Finished | V_Superseded => (At_await false, [])
  end.

(** Where a joined request goes: a fenced one has been answered. *)
Definition after_join (fenced : bool) (j : Joined) : Where * list Out :=
  match j with
  | J_Unrun => (At_done, superseded_out)
  | J_Ran resp => (if fenced then At_done else At_send resp, [])
  | J_Panicked => (if fenced then At_done else At_send (Resp_Err EIO), [])
  end.

(** The write of the reply: it is written, it fails (or the reply has no encoding), or
    the client does not read it in time. *)
Inductive Sent := Sent_Written | Sent_Failed | Sent_Stalled.
Definition sent_out (resp : Response) (s : Sent) : list Out :=
  match s with
  | Sent_Written => [Out_Reply resp]
  | Sent_Failed => []
  | Sent_Stalled => [Out_Reset RESET_STALLED]
  end.

(** ** The phases of an exchange *)

Lemma drained_phase st e x st' x' r : drained st e x = Some (st', x', r) →
  x_phase x = Held
  ∧ x_phase x' = match r with None => Held | Some true => Ready | Some false => Superseded end.
Proof.
  unfold drained. destruct (x_phase x) eqn:Hp; try done. destruct (negb _); [intros; by simplify_eq/=|].
  destruct (_ =? 0); intros; simplify_eq/=; by rewrite ?Hp.
Qed.

Lemma abandon_phase st e x st' x' v : abandon st e x = Some (st', x', v) →
  x_ordered x = true ∧
  match v with
  | V_Unrun => (x_phase x = Held ∨ x_phase x = Ready) ∧ x_phase x' = Cancelled
  | V_Fenced => x_phase x = Running ∧ x_phase x' = Abandoned
  | V_Finished => x_phase x = Finished ∧ x' = x
  | V_Superseded => x_phase x = Superseded ∧ x' = x
  end.
Proof.
  unfold abandon. destruct (x_ordered x); [|done]. cbn. destruct (x_phase x) eqn:Hp; try done;
    intros; simplify_eq/=; split; auto.
Qed.

Lemma begin_phase st e x st' x' guarded : begin_ st e x = Some (st', x', guarded) →
  if guarded : bool then x_phase x = Ready ∧ x_phase x' = Running
  else x_phase x = Ready ∧ x_phase x' = Superseded ∨ x_phase x = Cancelled ∧ x' = x.
Proof.
  unfold begin_. destruct (negb (x_ordered x)); destruct (x_phase x) eqn:Hp; try done;
    intros; simplify_eq/=; try done; [|by right]. destruct (negb _); simplify_eq/=; [by left|done].
Qed.

Lemma guard_dropped st e x st' x' wakes : guard_drop st e x = (st', x', wakes) → x_phase x' = Finished.
Proof.
  intros Heq. change x' with (st', x', wakes).1.2. rewrite <-Heq. unfold guard_drop.
  by destruct (negb (x_ordered x)), (epoch (s_att st) =? e).
Qed.

Section serve.
Context `{!Libc} (export : Export) (turns : nat) (ids : ServerIds.IdMap).

Inductive serve_step (st : SessionState) (h : Handler) : SessionState → Handler → Prop :=
(** [drain] looks. *)
| sv_wait st' x :
    hd_where h = At_hold → drained st (hd_epoch h) (hd_x h) = Some (st', x, None) →
    serve_step st h st' (task_moves h x At_hold C_none [])
| sv_spawn st' x :
    hd_where h = At_hold → drained st (hd_epoch h) (hd_x h) = Some (st', x, Some true) →
    serve_step st h st' (task_moves h x At_select C_spawned [])
| sv_superseded st' x :
    hd_where h = At_hold → drained st (hd_epoch h) (hd_x h) = Some (st', x, Some false) →
    serve_step st h st' (task_moves h x At_done C_none superseded_out)
(** The client gives up on it while it is held. *)
| sv_hold_cancel st' x v :
    hd_where h = At_hold → abandon st (hd_epoch h) (hd_x h) = Some (st', x, v) →
    serve_step st h st' (task_moves h x At_done C_none [Out_Reset RESET_UNRUN])
(** Its stream is stopped, or ends with its connection. *)
| sv_stopped st' x :
    hd_where h = At_hold → stopped st (hd_x h) = Some (st', x) →
    serve_step st h st' (task_moves h x At_done C_none [])
(** The closure begins: it reserves, and goes on to [dispatch]. *)
| sv_begin st' x hs pool reserved pool' :
    hd_closure h = C_spawned → begin_ st (hd_epoch h) (hd_x h) = Some (st', x, true) →
    Ops_reserve hs pool (hd_req h) = (reserved, pool') →
    serve_step st h st'
      (closure_moves h x (C_running (dispatch export turns ids (hd_req h) reserved)) [])
| sv_refused st' x :
    hd_closure h = C_spawned → begin_ st (hd_epoch h) (hd_x h) = Some (st', x, false) →
    serve_step st h st' (closure_moves h x (C_returned J_Unrun) [])
(** A call of its run. *)
| sv_call e k a :
    hd_closure h = C_running (Do e k) →
    serve_step st h st (closure_moves h (hd_x h) (C_running (k a)) [Ev e a])
(** Its guard is dropped with its response, or by its panic. *)
| sv_ran resp st' x wakes :
    hd_closure h = C_running (Ret resp) → guard_drop st (hd_epoch h) (hd_x h) = (st', x, wakes) →
    serve_step st h st' (closure_moves h x (C_returned (J_Ran resp)) [])
| sv_panicked st' x wakes :
    hd_closure h = C_running Panicked → guard_drop st (hd_epoch h) (hd_x h) = (st', x, wakes) →
    serve_step st h st' (closure_moves h x (C_returned J_Panicked) [])
(** The client gives up on a change whose closure is spawned. *)
| sv_cancel st' x v :
    hd_where h = At_select → x_ordered (hd_x h) = true →
    abandon st (hd_epoch h) (hd_x h) = Some (st', x, v) →
    serve_step st h st' (task_moves h x (after_verdict v).1 (hd_closure h) (after_verdict v).2)
(** The closure is joined. *)
| sv_join fenced j :
    hd_where h = At_select ∧ fenced = false ∨ hd_where h = At_await fenced →
    hd_closure h = C_returned j →
    serve_step st h st
      (task_moves h (hd_x h) (after_join fenced j).1 (hd_closure h) (after_join fenced j).2)
(** The reply is written, or not. *)
| sv_sent resp s :
    hd_where h = At_send resp →
    serve_step st h st (task_moves h (hd_x h) At_done (hd_closure h) (sent_out resp s)).

(** A step of the handler in whatever state its session has come to. *)
Definition serves (h h' : Handler) : Prop := ∃ st st', serve_step st h st' h'.

(** Every handler there can be: a request decoded, then served. *)
Definition handler_reached (h : Handler) : Prop :=
  ∃ st e req, rtc serves (handler_new st e req) h.

(** ** What a handler knows *)

Definition ran_as (h : Handler) (p : Prog Response) : Prop :=
  ∃ hs pool reserved pool', Ops_reserve hs pool (hd_req h) = (reserved, pool')
    ∧ steps (dispatch export turns ids (hd_req h) reserved) (hd_calls h) p.

(** What the closure has done, by the exchange's phase. *)
Definition closure_ok (h : Handler) : Prop :=
  let phase := x_phase (hd_x h) in
  match hd_closure h with
  | C_none => hd_calls h = [] ∧ (phase = Held ∨ phase = Cancelled ∨ phase = Superseded ∨ phase = Dropped)
  | C_spawned => hd_calls h = [] ∧ (phase = Ready ∨ phase = Cancelled)
  | C_running p => ran_as h p ∧ (phase = Running ∨ phase = Abandoned)
  | C_returned (J_Ran resp) => ran_as h (Ret resp) ∧ phase = Finished
  | C_returned J_Panicked => ran_as h Panicked ∧ phase = Finished
  | C_returned J_Unrun => hd_calls h = [] ∧ (phase = Cancelled ∨ phase = Superseded)
  end.

(** The reply a joined closure is given. *)
Definition replied (c : Closure) (resp : Response) : Prop :=
  c = C_returned (J_Ran resp) ∨ c = C_returned J_Panicked ∧ resp = Resp_Err EIO.

(** What has been sent, by where the task is. *)
Definition task_ok (h : Handler) : Prop :=
  let phase := x_phase (hd_x h) in
  match hd_where h with
  | At_hold => hd_closure h = C_none ∧ phase = Held ∧ hd_out h = []
  | At_select => hd_closure h ≠ C_none ∧ phase ≠ Cancelled ∧ phase ≠ Abandoned ∧ hd_out h = []
  | At_await true => (phase = Abandoned ∨ phase = Finished) ∧ hd_out h = [Out_Reset RESET_FENCED]
  | At_await false => (phase = Finished ∨ phase = Superseded) ∧ hd_closure h ≠ C_none ∧ hd_out h = []
  | At_send resp => replied (hd_closure h) resp ∧ hd_out h = []
  | At_done =>
      phase = Cancelled ∧ hd_out h = [Out_Reset RESET_UNRUN]
      ∨ phase = Superseded ∧ hd_out h = superseded_out
      ∨ phase = Dropped ∧ hd_out h = []
      ∨ phase = Finished ∧ hd_out h = [Out_Reset RESET_FENCED]
      ∨ ∃ resp s, replied (hd_closure h) resp ∧ hd_out h = sent_out resp s
  end.

Definition handler_ok (h : Handler) : Prop := closure_ok h ∧ task_ok h.

Lemma steps_snoc {A} (p : Prog A) tr e k a : steps p tr (Do e k) → steps p (tr ++ [Ev e a]) (k a).
Proof.
  revert p. induction tr as [|ev tr IH]; intros p Hs; cbn in *.
  - subst p. cbn. by exists a.
  - destruct p; try done. destruct Hs as (a' & -> & Hs). exists a'. split; [done|by apply IH].
Qed.

Lemma handler_new_ok st e req : handler_ok (handler_new st e req).
Proof.
  unfold handler_new, fencing. destruct (negb (x_ordered (Exchange_new (changes req)))) eqn:Ho; cbn.
  - split; cbn; [split; [done|auto]|done].
  - destruct (0 <? _) eqn:Hf; (split; cbn; [split; [done|auto]|done]).
Qed.

(** While the closure runs, the task waits for it, and has answered a cancel at most. *)
Lemma running_task h p : hd_closure h = C_running p → handler_ok h →
  hd_where h = At_select ∧ x_phase (hd_x h) = Running ∧ hd_out h = []
  ∨ hd_where h = At_await true ∧ hd_out h = [Out_Reset RESET_FENCED].
Proof.
  intros Hc [Hk Ht]. unfold closure_ok, task_ok, replied in *. rewrite Hc in *. destruct Hk as [_ Hp].
  destruct (hd_where h) as [| |[]|resp|].
  - by destruct Ht.
  - destruct Ht as (_ & _ & Hx & Ho). left. by destruct Hp.
  - right. by destruct Ht.
  - destruct Ht as ([Hx|Hx] & _); rewrite Hx in Hp; by destruct Hp.
  - by destruct Ht as [[?|[? _]] _].
  - destruct Ht as [[Hx _]|[[Hx _]|[[Hx _]|[[Hx _]|(r & s & [Hr|[Hr _]] & _)]]]]; try done;
      rewrite Hx in Hp; by destruct Hp.
Qed.

Lemma cancel_ok st h st' x v : hd_where h = At_select →
  abandon st (hd_epoch h) (hd_x h) = Some (st', x, v) → handler_ok h →
  handler_ok (task_moves h x (after_verdict v).1 (hd_closure h) (after_verdict v).2).
Proof.
  intros Hw [_ Ha]%abandon_phase [Hc Ht]. unfold handler_ok, closure_ok, task_ok, ran_as in *.
  destruct h as [req e x' w c calls out]. cbn in *. subst w. destruct Ht as (Hn & Hp1 & Hp2 & ->).
  destruct v; destruct Ha as [Hp Hp']; cbn; destruct c as [| |p|[resp| |]]; try done;
    destruct Hc as [Hk Hx]; try (exfalso; destruct_or?; congruence); subst.
  - split; [by split; auto|by left].
  - split; [by split; auto|]. split; [by left|done].
  - split; [by split|]. by split; [left|].
  - split; [by split|]. by split; [left|].
  - split; [by split|]. by split; [right|].
Qed.

(** A closure that did not run was superseded, unless its cancel has been answered. *)
Lemma join_ok h fenced j : hd_where h = At_select ∧ fenced = false ∨ hd_where h = At_await fenced →
  hd_closure h = C_returned j → handler_ok h →
  handler_ok (task_moves h (hd_x h) (after_join fenced j).1 (hd_closure h) (after_join fenced j).2).
Proof.
  intros Hw Hcl [Hc Ht]. unfold handler_ok, closure_ok, task_ok, ran_as in *.
  destruct h as [req e x w c calls out]. cbn in *. subst c. split; [by destruct j|].
  assert (fenced = false ∧ out = [] ∧ (j = J_Unrun → x_phase x = Superseded)
          ∨ fenced = true ∧ x_phase x = Finished ∧ out = [Out_Reset RESET_FENCED] ∧ j ≠ J_Unrun) as Hout.
  { destruct Hw as [[-> ->] | ->].
    - left. destruct Ht as (_ & Hp & _ & ->). split_and!; [done|done|]. intros ->. by destruct Hc as [_ [?|?]].
    - destruct fenced; [right|left].
      + destruct Ht as [Hx ->]. destruct j; destruct Hc as [_ Hp]; destruct_or?; try congruence; done.
      + destruct Ht as (Hx & _ & ->). split_and!; [done|done|]. intros ->. destruct Hc as [_ Hp].
        destruct_or?; congruence. }
  clear Hw Ht. destruct Hout as [(-> & -> & Hu)|(-> & Hf & -> & Hu)]; destruct j; cbn; try done.
  - split; [by left|done].
  - right. left. split; [by apply Hu|done].
  - split; [by right|done].
  - do 3 right. by left.
  - do 3 right. by left.
Qed.

Lemma serve_step_ok st h st' h' : serve_step st h st' h' → handler_ok h → handler_ok h'.
Proof.
  intros Hs Hok. pose proof Hok as [Hc Ht]. destruct h as [req e x w c calls out].
  unfold closure_ok, task_ok, ran_as in Hc, Ht. unfold handler_ok, closure_ok, task_ok, ran_as.
  destruct Hs as [st' x' Hw Hd|st' x' Hw Hd|st' x' Hw Hd|st' x' v Hw Ha|st' x' Hw Hst|st' x' hs pool reserved pool' Hcl Hb Hr
    |st' x' Hcl Hb|eff k a Hcl|resp st' x' wakes Hcl Hg|st' x' wakes Hcl Hg|st' x' v Hw Ho Ha|fenced j Hw Hcl|resp s Hw];
    cbn in *; try subst w; try subst c.
  - apply drained_phase in Hd as [Hp Hp']. rewrite Hp'. destruct Ht as (-> & _ & ->), Hc as [-> _]. split_and!; [done|auto|done..].
  - apply drained_phase in Hd as [Hp Hp']. rewrite Hp'. destruct Ht as (-> & _ & ->), Hc as [-> _]. split_and!; [done|auto|done..].
  - apply drained_phase in Hd as [Hp Hp']. rewrite Hp'. destruct Ht as (-> & _ & ->), Hc as [-> _].
    split_and!; [done|auto|by right; left].
  - apply abandon_phase in Ha as [_ Ha]. destruct Ht as (-> & Hp & ->), Hc as [-> _]. rewrite Hp in Ha.
    destruct v; destruct Ha as [? Hx]; try done. rewrite Hx. split_and!; [done|auto|by left].
  - unfold stopped in Hst. destruct Ht as (-> & Hp & ->), Hc as [-> _]. rewrite Hp in Hst.
    unfold Exchange_end in Hst. simplify_eq/=.
    split_and!; [done|auto|by right; right; left].
  - apply begin_phase in Hb as [Hp Hp']. rewrite Hp'. destruct Hc as [-> _]. split.
    + split; [|auto]. by exists hs, pool, reserved, pool'.
    + rewrite Hp in Ht. unfold replied in *. destruct w as [| |[]| |]; naive_solver.
  - apply begin_phase in Hb. destruct Hc as [-> _]. rewrite app_nil_r. unfold replied in *.
    destruct Hb as [[Hp Hp']|[Hp ->]]; rewrite ?Hp', ?Hp in *;
      (split; [split; [done|auto]|]); destruct w as [| |[]| |]; naive_solver.
  - pose proof (running_task (MkHandler req e x w (C_running (Do eff k)) calls out) (Do eff k) eq_refl (conj Hc Ht)) as Hrun. cbn in Hrun.
    destruct Hc as [(hs & pool & reserved & pool' & Hr & Hst) Hp]. split.
    + split; [|done]. exists hs, pool, reserved, pool'. split; [done|by apply steps_snoc].
    + destruct Hrun as [(-> & Hx & ->)|(-> & ->)]; [by rewrite Hx|split; [|done]; naive_solver].
  - pose proof (running_task (MkHandler req e x w (C_running (Ret resp)) calls out) (Ret resp) eq_refl (conj Hc Ht)) as Hrun. cbn in Hrun.
    rewrite app_nil_r, (guard_dropped _ _ _ _ _ _ Hg). split; [by destruct Hc|].
    destruct Hrun as [(-> & _ & ->)|(-> & ->)]; auto.
  - pose proof (running_task (MkHandler req e x w (C_running Panicked) calls out) Panicked eq_refl (conj Hc Ht)) as Hrun. cbn in Hrun.
    rewrite app_nil_r, (guard_dropped _ _ _ _ _ _ Hg). split; [by destruct Hc|].
    destruct Hrun as [(-> & _ & ->)|(-> & ->)]; auto.
  - exact (cancel_ok st (MkHandler req e x At_select c calls out) st' x' v eq_refl Ha Hok).
  - exact (join_ok (MkHandler req e x w (C_returned j) calls out) fenced j Hw eq_refl Hok).
  - split; [done|]. destruct Ht as [Hr ->]. do 4 right. by exists resp, s.
Qed.

Lemma handler_reached_ok h : handler_reached h → handler_ok h.
Proof.
  intros (st & e & req & Hr). pose proof (handler_new_ok st e req) as Hok. induction Hr as [|h1 h2 h3 (s1 & s2 & Hs) _ IH]; [done|].
  by eapply IH, serve_step_ok.
Qed.

(** What there can be to have been sent. *)
Lemma handler_sent h : handler_ok h →
  hd_out h = []
  ∨ (hd_out h = [Out_Reset RESET_UNRUN] ∨ hd_out h = superseded_out) ∧ hd_calls h = []
  ∨ hd_out h = [Out_Reset RESET_FENCED] ∧ (∃ p, ran_as h p)
  ∨ ∃ resp s, hd_out h = sent_out resp s ∧ (ran_as h (Ret resp) ∨ ran_as h Panicked ∧ resp = Resp_Err EIO).
Proof.
  intros [Hc Ht]. unfold closure_ok, task_ok in *.
  assert (x_phase (hd_x h) = Cancelled ∨ x_phase (hd_x h) = Superseded → hd_calls h = []) as Hunrun.
  { intros Hx. destruct (hd_closure h) as [| |p|[]]; try (by destruct Hc); destruct Hc as [_ Hp]; destruct_or?; congruence. }
  assert (x_phase (hd_x h) = Abandoned ∨ x_phase (hd_x h) = Finished → ∃ p, ran_as h p) as Hran.
  { intros Hx. destruct (hd_closure h) as [| |p|[]]; destruct Hc as [Hk Hp]; eauto; destruct_or?; congruence. }
  destruct (hd_where h) as [| |[]|resp|]; try (left; naive_solver).
  - right; right; left. destruct Ht as [Hx ->]. auto.
  - destruct Ht as [[Hx ->]|[[Hx ->]|[[Hx ->]|[[Hx ->]|(resp & s & Hr & ->)]]]]; [auto 10..|].
    do 3 right. exists resp, s. split; [done|]. destruct Hr as [Hr|[Hr ->]]; rewrite Hr in Hc; destruct Hc; auto.
Qed.
End serve.

Definition is_answer (o : Out) : bool := match o with Out_Close _ => false | _ => true end.

(** C5: What a request is answered is what became of it, whatever the session's other
    requests and connections do meanwhile.  A request answered unrun or superseded has
    made no call, then or ever after; one answered fenced had begun; a reply is what
    the run of [dispatch] under this request's own reservation came to (an I/O error if
    it panicked); and no request is answered twice. *)
Theorem answers_are_true `{!Libc} export turns ids h :
  handler_reached export turns ids h →
  (Out_Reset RESET_UNRUN ∈ hd_out h ∨ Out_Reset RESET_SUPERSEDED ∈ hd_out h → hd_calls h = [])
  ∧ (Out_Reset RESET_FENCED ∈ hd_out h → ∃ p, ran_as export turns ids h p)
  ∧ (∀ resp, Out_Reply resp ∈ hd_out h →
       ran_as export turns ids h (Ret resp) ∨ ran_as export turns ids h Panicked ∧ resp = Resp_Err EIO)
  ∧ (length (filter (λ o, is_answer o = true) (hd_out h)) <= 1)%nat.
Proof.
  intros Hout%handler_reached_ok%handler_sent.
  destruct Hout as [->|[[[->| ->] ->]|[[-> Hp]|(resp & s & -> & Hr)]]].
  - split_and!; [set_solver..|by apply Nat.leb_le].
  - split_and!; [done|set_solver|set_solver|by apply Nat.leb_le].
  - split_and!; [done|set_solver|set_solver|by apply Nat.leb_le].
  - split_and!; [|done|set_solver|by apply Nat.leb_le]. intros [Hu|Hu]; apply list_elem_of_singleton in Hu; done.
  - destruct s; split_and!; try by apply Nat.leb_le.
    all: cbn [sent_out]; try set_solver.
Qed.

(** ** The session machine *)

(** The task of [Session.v] a handler is. *)
Definition task_of (h : Handler) : Task :=
  match hd_where h, hd_closure h with
  | At_hold, _ => InHeld
  | _, C_none => Gone
  | _, C_spawned => Queued
  | _, C_running _ => Guarded
  | (At_select | At_await _), C_returned _ => Returned
  | _, C_returned _ => Gone
  end.

(** The handler is the flight: its connection, its exchange, its task; its cancel has not
    been acted on while the task still listens for one. *)
Definition flies (h : Handler) (f : Flight) : Prop :=
  f_epoch f = hd_epoch h ∧ f_x f = hd_x h ∧ f_task f = task_of h
  ∧ (hd_where h = At_hold ∨ hd_where h = At_select → f_cancel f = false).

Section refinement.
Context `{!Libc} (export : Export) (turns : nat) (ids : ServerIds.IdMap).

Definition carried (w : World) (k : Z) (st' : SessionState) (h' : Handler) : Prop :=
  ∃ w' f', rtc step w w' ∧ w_st w' = st' ∧ w_flights w' !! k = Some f' ∧ flies h' f'.

Lemma carried_step w k f b st x t c h' :
  session_step w b (set_flight w k st f x t c) →
  flies h' (MkFlight (f_epoch f) x t c (f_behind f)) → carried w k st h'.
Proof.
  intros Hs Hf. eexists _, _. split; [apply rtc_once; by eexists|]. split; [done|]. split; [|exact Hf].
  apply lookup_insert_eq.
Qed.

(** The steps of a held change. *)
Lemma held_session w k f h st' h' : w_flights w !! k = Some f → flies h f →
  hd_where h = At_hold → handler_ok export turns ids h → serve_step export turns ids (w_st w) h st' h' →
  carried w k st' h'.
Proof.
  intros Hk (He & Hx & Ht & Hcan) Hw [Hc Htk] Hs. unfold task_of in Ht. rewrite Hw in Ht.
  unfold task_ok in Htk. rewrite Hw in Htk. destruct Htk as (Hn & _ & _). specialize (Hcan (or_introl Hw)).
  destruct Hs as [st' x' _ Hd|st' x' _ Hd|st' x' _ Hd|st' x' v _ Ha|st' x' _ Hst|? ? ? ? ? ? ?|? ? ?|? ? ? ?|? ? ? ? ?|? ? ? ?|? ? ? ?|? ? [[? ?]|?] ?|? ? ?];
    try congruence; rewrite <-?He, <-?Hx in *.
  - eapply carried_step; [by eapply (ss_drain _ k f)|]. by repeat split.
  - eapply carried_step; [by eapply (ss_drain _ k f)|]. by repeat split.
  - eapply carried_step; [by eapply (ss_drain _ k f)|]. by repeat split.
  - eapply carried_step; [by eapply (ss_cancel_held _ k f)|]. repeat split; try done. by intros [?|?].
  - eapply carried_step; [by eapply (ss_stopped _ k f)|]. by repeat split.
Qed.

(** The closure returns: joined by nobody if its task is done. *)
Lemma returned_session w k f h st' x b :
  session_step w b (set_flight w k st' f x Returned (f_cancel f)) → flies h f →
  hd_where h = At_select ∨ hd_where h = At_await true ∨ hd_where h = At_done →
  ∀ j, carried w k st' (closure_moves h x (C_returned j) []).
Proof.
  intros Hs (He & Hx & Ht & Hcan) Hw j. destruct Hw as [Hw|[Hw|Hw]].
  1,2: eapply carried_step; [exact Hs|]; repeat split; try done; unfold task_of; cbn; by rewrite Hw.
  eexists _, (MkFlight (f_epoch f) x Gone (f_cancel f) (f_behind f)). split.
  - eapply rtc_l; [by eexists|]. apply rtc_once. eexists.
    apply (ss_join _ k (MkFlight (f_epoch f) x Returned (f_cancel f) (f_behind f))); [apply lookup_insert_eq|done].
  - split; [done|]. split; [apply lookup_insert_eq|]. repeat split; try done; unfold task_of; cbn; by rewrite Hw.
Qed.

Lemma spawned_task h : hd_closure h = C_spawned → handler_ok export turns ids h →
  hd_where h = At_select ∨ hd_where h = At_done.
Proof.
  intros Hcl [Hc Ht]. unfold closure_ok, task_ok, replied in *. rewrite Hcl in *. destruct Hc as [_ Hp].
  destruct (hd_where h) as [| |[]|resp|]; auto; exfalso; destruct Ht as [Ht Ht']; try done;
    destruct_or?; destruct_and?; congruence.
Qed.

(** A change given up on has begun, or has a closure that will not run it. *)
Lemma cancel_session w k f h st' x v : w_flights w !! k = Some f → flies h f →
  handler_ok export turns ids h → hd_where h = At_select → x_ordered (hd_x h) = true →
  abandon (w_st w) (hd_epoch h) (hd_x h) = Some (st', x, v) →
  carried w k st' (task_moves h x (after_verdict v).1 (hd_closure h) (after_verdict v).2).
Proof.
  intros Hk (He & Hx & Ht & Hcan) [Hc Htk] Hw Ho Ha. pose proof (abandon_phase _ _ _ _ _ _ Ha) as [_ Hp].
  unfold closure_ok, task_ok in *. rewrite Hw in Htk. destruct Htk as (Hn & _ & _ & _).
  assert (f_task f = task_of (task_moves h x (after_verdict v).1 (hd_closure h) (after_verdict v).2)) as Hsame.
  { rewrite Ht. unfold task_of; cbn. rewrite Hw. destruct (hd_closure h) as [| |p|[]]; try done; try (by destruct v);
      destruct v; try done; destruct Hp as [Hp _], Hc as [_ Hc]; destruct_or?; congruence. }
  rewrite <-He, <-Hx in Ha. eapply (carried_step _ _ f); [eapply (ss_cancel _ k f)|].
  - done.
  - by rewrite Hx.
  - apply Hcan. by right.
  - rewrite Ht. unfold task_of. rewrite Hw. destruct (hd_closure h); auto. done.
  - exact Ha.
  - repeat split; try done. by destruct v; intros [?|?].
Qed.

(** Each step of a handler is a step of its flight, or none. *)
Lemma serve_step_session w k f h st' h' : w_flights w !! k = Some f → flies h f →
  handler_ok export turns ids h → serve_step export turns ids (w_st w) h st' h' → carried w k st' h'.
Proof.
  intros Hk Hf Hok Hs. pose proof Hf as (He & Hx & Ht & Hcan).
  assert (hd_where h = At_hold → carried w k st' h') as Hheld by (intros; by eapply held_session).
  destruct Hs as [? ? Hw ?|? ? Hw ?|? ? Hw ?|? ? ? Hw ?|? ? Hw ?|st' x' hs pool reserved pool' Hcl Hb Hr
    |st' x' Hcl Hb|eff kk a Hcl|resp st' x' wakes Hcl Hg|st' x' wakes Hcl Hg|st' x' v Hw Ho Ha|fenced j Hw Hcl|resp s Hw];
    try (by apply Hheld); clear Hheld; unfold task_of in Ht.
  - (* begun *) pose proof (spawned_task h Hcl Hok) as Hw. rewrite Hcl in Ht. rewrite <-He, <-Hx in Hb.
    eapply (carried_step _ _ f); [eapply (ss_begin _ k f); [done| |exact Hb]|]; [by destruct Hw as [Hw|Hw]; rewrite Hw in Ht|].
    repeat split; try done. unfold task_of; cbn. by destruct Hw as [-> | ->].
  - (* refused *) pose proof (spawned_task h Hcl Hok) as Hw. rewrite Hcl in Ht. rewrite <-He, <-Hx in Hb.
    eapply (returned_session w k f); [eapply (ss_begin _ k f _ _ false); [done| |exact Hb]|done|tauto].
    by destruct Hw as [Hw|Hw]; rewrite Hw in Ht.
  - (* a call *) pose proof (running_task _ _ _ h (Do eff kk) Hcl Hok) as Hrun.
    exists w, f. split; [done|]. split; [done|]. split; [done|]. repeat split; try done. unfold task_of; cbn.
    rewrite Hcl in Ht. rewrite Ht. by destruct Hrun as [[-> _]|[-> _]].
  - (* ran *) pose proof (running_task _ _ _ h _ Hcl Hok) as Hrun. rewrite Hcl in Ht. rewrite <-He, <-Hx in Hg.
    eapply (returned_session w k f); [eapply (ss_finish _ k f); [done| |exact Hg]|done|tauto].
    by destruct Hrun as [[Hw _]|[Hw _]]; rewrite Hw in Ht.
  - (* panicked *) pose proof (running_task _ _ _ h _ Hcl Hok) as Hrun. rewrite Hcl in Ht. rewrite <-He, <-Hx in Hg.
    eapply (returned_session w k f); [eapply (ss_finish _ k f); [done| |exact Hg]|done|tauto].
    by destruct Hrun as [[Hw _]|[Hw _]]; rewrite Hw in Ht.
  - (* given up on *) by eapply cancel_session.
  - (* joined *) rewrite Hcl in Ht. eapply (carried_step _ _ f); [apply (ss_join _ k f); [done|]|].
    + by destruct Hw as [[Hw _]|Hw]; rewrite Hw in Ht.
    + repeat split; try done.
      * rewrite Hcl. by destruct j, fenced.
      * by destruct j, fenced; intros [?|?].
  - (* sent *) exists w, f. split; [done|]. split; [done|]. split; [done|]. repeat split; try done.
    + rewrite Ht, Hw. by destruct (hd_closure h).
    + by intros [?|?].
Qed.
End refinement.

(** A request decoded is the flight the machine decodes. *)
Lemma handler_new_flies w k e req : 0 < w_undecoded w → w_flights w !! k = None →
  1 ≤ e ≤ epoch (s_att (w_st w)) →
  ∃ w' f, step w w' ∧ w_st w' = w_st w ∧ w_flights w' !! k = Some f ∧ flies (handler_new (w_st w) e req) f.
Proof.
  intros Hu Hk He. destruct (fencing (w_st w) e (Exchange_new (changes req))) as [x fence] eqn:Hf.
  eexists _, _. split; [eexists; by eapply (ss_decode w k e (changes req))|]. split; [done|].
  split; [apply lookup_insert_eq|]. unfold handler_new. rewrite Hf. by destruct (0 <? fence).
Qed.

(** C6: [handle_request] is the task the session machine has it be.  A request decoded
    is the flight the machine decodes; and whenever a handler is a flight of a session,
    in any state the session can reach, a step of the handler leaves the session as
    some steps of the machine do, and is that flight again.  So everything proved of
    the session's steps (one connection's changes at a time, fences kept, nothing
    refused ever run, no wake-up lost) is proved of its handlers. *)
Theorem handler_refines_session `{!Libc} export turns ids w k :
  reachable w →
  (∀ e req, 0 < w_undecoded w → w_flights w !! k = None → 1 ≤ e ≤ epoch (s_att (w_st w)) →
    ∃ w' f, reachable w' ∧ step w w' ∧ w_flights w' !! k = Some f ∧ flies (handler_new (w_st w) e req) f)
  ∧ ∀ f h st' h', w_flights w !! k = Some f → flies h f → handler_reached export turns ids h →
    serve_step export turns ids (w_st w) h st' h' →
    ∃ w' f', reachable w' ∧ rtc step w w' ∧ w_st w' = st' ∧ w_flights w' !! k = Some f' ∧ flies h' f'.
Proof.
  intros (id & token & share & Hr). split.
  - intros e req Hu Hk He. destruct (handler_new_flies w k e req Hu Hk He) as (w' & f & Hw & _ & ?).
    exists w', f. split; [|done]. exists id, token, share. by eapply rtc_r.
  - intros f h st' h' Hk Hf Hh%handler_reached_ok Hs.
    destruct (serve_step_session export turns ids w k f h st' h' Hk Hf Hh Hs) as (w' & f' & Hw & ?).
    exists w', f'. split; [|done]. exists id, token, share. by etrans.
Qed.

(** ** A request served *)

Lemma serves_run `{!Libc} export turns ids tr : ∀ h p p', hd_closure h = C_running p → steps p tr p' →
  rtc (serves export turns ids) h (closure_moves h (hd_x h) (C_running p') tr).
Proof.
  induction tr as [|ev tr IH]; intros h p p' Hc Hs.
  - cbn in Hs. subst p'. destruct h. cbn in *. subst. unfold closure_moves. cbn. rewrite app_nil_r. apply rtc_refl.
  - destruct p as [|e k| |]; try done. destruct Hs as (a & -> & Hs).
    eapply rtc_l; [eexists (session_new 0 [] 0), _; by eapply sv_call|].
    specialize (IH (closure_moves h (hd_x h) (C_running (k a)) [Ev e a]) (k a) p' eq_refl Hs).
    unfold closure_moves in *. cbn in *. by rewrite <-app_assoc in IH.
Qed.

#[local] Existing Instance Demo.libc.

Definition demo_session : SessionState := session_new 7 [] 4.
Definition demo_served : Handler :=
  MkHandler Demo.read_b 1 (MkExchange false Finished false) At_done
    (C_returned (J_Ran (Resp_Read [Byte.x62; Byte.x63]))) (Demo.ran Demo.read_b (Ok None))
    [Out_Reply (Resp_Read [Byte.x62; Byte.x63])].

Lemma demo_served_reached : handler_reached Demo.export 8 Demo.ids demo_served.
Proof.
  exists demo_session, 1, Demo.read_b. set (x := MkExchange false Running true).
  set (run := dispatch Demo.export 8 Demo.ids Demo.read_b (Ok None)).
  set (h1 := MkHandler Demo.read_b 1 x At_select (C_running run) [] []).
  eapply (rtc_l _ _ h1).
  { exists demo_session, demo_session.
    by refine (sv_begin _ _ _ _ (handler_new demo_session 1 Demo.read_b) _ x (Handles_new 4) (HandlePool_new 4) (Ok None) _ _ _ _). }
  etrans; [eapply (serves_run _ _ _ _ h1 run); [done|apply Demo.ran_steps]|].
  change (Demo.ended Demo.read_b (Ok None)) with (Ret (Resp_Read [Byte.x62; Byte.x63])).
  eapply rtc_l; [eexists demo_session, _; by eapply sv_ran|].
  eapply rtc_l; [eexists demo_session, _; eapply sv_join; [by left|done]|].
  eapply rtc_l; [eexists demo_session, _; by apply (sv_sent _ _ _ _ _ (Resp_Read [Byte.x62; Byte.x63]) Sent_Written)|].
  unfold task_moves, closure_moves. cbn. rewrite app_nil_r. apply rtc_refl.
Qed.

Lemma answers_are_true_witness :
  ran_as Demo.export 8 Demo.ids demo_served (Ret (Resp_Read [Byte.x62; Byte.x63]))
  ∨ ran_as Demo.export 8 Demo.ids demo_served Panicked ∧ Resp_Read [Byte.x62; Byte.x63] = Resp_Err EIO.
Proof.
  pose proof (answers_are_true Demo.export 8 Demo.ids demo_served demo_served_reached) as (_ & _ & Hr & _).
  apply Hr. apply list_elem_of_singleton. reflexivity.
Defined.

Lemma handler_refines_session_witness : ∃ w' f,
  step (MkWorld (hold (session_new 7 [] 4)) ∅ 1 ∅) w' ∧ w_flights w' !! 3 = Some f
  ∧ flies (handler_new (hold (session_new 7 [] 4)) 1 Demo.read_b) f.
Proof.
  assert (reachable (MkWorld (hold (session_new 7 [] 4)) ∅ 1 ∅)) as Hr.
  { exists 7, [], 4. apply rtc_once. exists false. apply (ss_accept (world_new 7 [] 4)). }
  destruct (proj1 (handler_refines_session Demo.export 8 Demo.ids _ 3 Hr) 1 Demo.read_b) as (w' & f & _ & Hw);
    [reflexivity|reflexivity|split; discriminate|]. exists w', f. exact Hw.
Defined.
