(* ===== verification/Conn.v ===== *)
(** * The connection manager ([crates/client/src/conn.rs])

    [connect_any] tries the server's addresses; [run] keeps one connection up,
    reconnecting with backoff and reopening the handles on a new session; a task per
    connection sends the releases owed; [read_events] feeds the server's events to the
    invalidator.

    [run] is a step relation, [manager_step]: an [await] is a place other tasks take
    steps at, and what the network and the clock do is in the steps.  The calls of the
    mount, which open and release handles and give up on changes, take steps of their
    own between ([ms_call], [ms_cancels]).  Log lines are left out, as are the sockets
    ([bind_candidates]) and the report of the handles ([lines_handles]). *)

From S2P Require Import Prelude Types Msg ClientTypes Owners ClientHandles Machine Caller.

(** ** Connecting *)

Inductive ErrorConnectKind :=
| EK_Connect | EK_Connection | EK_Codec
| EK_Rejected (reason : string)
| EK_Revision (client server : Z)
| EK_Timeout.

Section connect.
Context {Addr : Type}.

Record ErrorConnect := MkEC { ec_addr : Addr; ec_kind : ErrorConnectKind }.

Record Handshaken := MkHandshaken {
  hs_addr : Addr;
  hs_session_id : Z;
  hs_resume_token : list byte;
  hs_resumed : bool;
  hs_root : KeyRoot;
  hs_ids : ClientIds.IdMap }.

(** [connect_once] from the server's reply on; an earlier failure is its kind. *)
Definition connect_once (ids : Z → Z → ClientIds.IdMap) (revision : Z) (addr : Addr)
    (reply : result ErrorConnectKind HelloReply) : result ErrorConnectKind Handshaken :=
  match reply with
  | Err kind => Err kind
  | Ok (Ack session_id token resumed root_ino root_identity uid gid) =>
      Ok (MkHandshaken addr session_id token resumed (MkKeyRoot root_ino root_identity) (ids uid gid))
  | Ok (Reject reason) => Err (EK_Rejected reason)
  | Ok (RevisionMismatch server) => Err (EK_Revision revision server)
  end.

Definition is_refusal (k : ErrorConnectKind) : bool :=
  match k with EK_Rejected _ | EK_Revision _ _ => true | _ => false end.
Definition is_timeout (k : ErrorConnectKind) : bool :=
  match k with EK_Timeout => true | _ => false end.

(** [timeout(connect_timeout, attempt)]. *)
Definition timed {A} (attempt : option (result ErrorConnectKind A)) : result ErrorConnectKind A :=
  match attempt with Some r => r | None => Err EK_Timeout end.

(** The sweep, on what the attempts to the candidates left come to ([None]: the
    deadline).  [None] is the [expect] on an empty list. *)
Fixpoint sweep (i : nat) (worst : option ErrorConnect)
    (candidates : list (Addr * option (result ErrorConnectKind Handshaken)))
  : option (result ErrorConnect (nat * Handshaken)) :=
  match candidates with
  | [] => Err <$> worst
  | (addr, attempt) :: rest =>
      match timed attempt with
      | Ok handshaken => Some (Ok (i, handshaken))
      | Err kind =>
          if is_refusal kind then Some (Err (MkEC addr kind))
          else
            let worst := if negb (is_timeout kind) then Some (MkEC addr kind)
                         else match worst with None => Some (MkEC addr kind) | _ => worst end in
            sweep (S i) worst rest
      end
  end.

Definition connect_any (candidates : list (Addr * option (result ErrorConnectKind Handshaken)))
  : option (result ErrorConnect (nat * Handshaken)) := sweep 0 None candidates.

(** [slice::rotate_left]. *)
Definition rotate_left {A} (k : nat) (l : list A) : list A := drop k l ++ take k l.

End connect.
Arguments ErrorConnect : clear implicits.
Arguments Handshaken : clear implicits.

(** ** The manager *)

Definition BACKOFF_MIN : Z := 100 * 10 ^ 6.
Definition BACKOFF_MAX : Z := 5 * 10 ^ 9.

(** Where [run] awaits.  [At_restore]: a new connection's reopens are under way (no round
    if the session was resumed).  [At_up]: the connection is published, and the
    releases of [sends] are under way on it.  [At_ending]: it is over, and the release
    task is awaited, to stop or to connect again. *)
Inductive At :=
| At_top
| At_connect
| At_backoff
| At_restore (conn : Attached) (round : option ReopenRound)
| At_up (conn : Attached) (sends : gset Z)
| At_ending (conn : Attached) (sends : gset Z) (stop : bool)
| At_stopped.

Record Manager {Addr : Type} := MkManager {
  mg_at : At;
  mg_candidates : list Addr;
  mg_resume : option Resume;
  mg_generation : Z;
  mg_root : option KeyRoot;
  mg_backoff : Z;
  mg_failures : Z;
  mg_offline_since : Z;
  mg_first : option bool;
  mg_state : ConnState;
  mg_table : HandleTable }.
Arguments Manager : clear implicits.
#[export] Instance KeyRoot_eq_dec : EqDecision KeyRoot.
Proof. solve_decision. Defined.

Section manager.
Context {Addr : Type}.
Notation manager := (Manager Addr).
Implicit Types m : manager.

Definition moved m (at_ : At) (st : ConnState) (t : HandleTable) : manager :=
  MkManager _ at_ (mg_candidates m) (mg_resume m) (mg_generation m) (mg_root m) (mg_backoff m)
    (mg_failures m) (mg_offline_since m) (mg_first m) st t.

Definition manager_new (addrs : list Addr) (now : Z) (t : HandleTable) : manager :=
  MkManager _ At_top addrs None 0 None BACKOFF_MIN 0 now None (Conn_Connecting now) t.

(** The loop is left: the state is [Closed] from then on. *)
Definition stopping m : manager := moved m At_stopped Conn_Closed (mg_table m).

(** A failed attempt: the first ends the manager. *)
Definition failed_attempt m : manager :=
  match mg_first m with
  | None =>
      MkManager _ At_stopped (mg_candidates m) (mg_resume m) (mg_generation m) (mg_root m)
        (mg_backoff m) (mg_failures m) (mg_offline_since m) (Some false) Conn_Closed (mg_table m)
  | Some _ =>
      MkManager _ At_backoff (mg_candidates m) (mg_resume m) (mg_generation m) (mg_root m)
        (mg_backoff m) (mg_failures m + 1) (mg_offline_since m) (mg_first m) (mg_state m) (mg_table m)
  end.

Definition slept m : manager :=
  MkManager _ At_top (mg_candidates m) (mg_resume m) (mg_generation m) (mg_root m)
    (Z.min (mg_backoff m * 2) BACKOFF_MAX) (mg_failures m) (mg_offline_since m) (mg_first m)
    (mg_state m) (mg_table m).

(** Whether the server now serves another directory than the one mounted. *)
Definition root_changed m (root : KeyRoot) : bool :=
  match mg_root m with Some mounted => negb (bool_decide (mounted = root)) | None => false end.

(** A connection made, up to the first of its reopens; [None] as [kill_all] panics. *)
Definition connected m (winner : nat) (hs : Handshaken Addr) : option manager :=
  t ← (if root_changed m (hs_root hs) then kill_all (mg_table m) else Some (mg_table m));
  let generation := mg_generation m + 1 in
  let t := if hs_resumed hs then t else owed_moot t in
  let round := if hs_resumed hs then None else Some (ReopenRound_new t) in
  Some (MkManager _
          (At_restore (MkAtt (AttachedState_new generation) (hs_root hs) (hs_ids hs)) round)
          (rotate_left winner (mg_candidates m))
          (Some (MkResume (hs_session_id hs) (hs_resume_token hs)))
          generation (Some (hs_root hs)) BACKOFF_MIN 0 (mg_offline_since m) (mg_first m)
          (mg_state m) t).

Definition with_state (c : Attached) (a : AttachedState) : Attached :=
  MkAtt a (att_root c) (att_ids c).

(** The connection is published; the first tells whoever started the manager. *)
Definition published m (c : Attached) : manager :=
  let c := with_state c (publish (att_state c)) in
  MkManager _ (At_up c ∅) (mg_candidates m) (mg_resume m) (mg_generation m) (mg_root m)
    (mg_backoff m) (mg_failures m) (mg_offline_since m) (Some (default true (mg_first m)))
    (Conn_Connected c) (mg_table m).

(** One turn of the release task's sends; [None] is [owed_send]'s panic. *)
Fixpoint send_owed (t : HandleTable) (generation : Z) (fhs : list Z) : option HandleTable :=
  match fhs with
  | [] => Some t
  | fh :: fhs => '(_, t) ← owed_send t fh generation; send_owed t generation fhs
  end.

(** [settle]: a release answered is no longer owed; one that failed stays so. *)
Definition settle_release (t : HandleTable) (fh generation : Z) (delivered : bool) : HandleTable :=
  if delivered then owed_delivered t fh generation else t.

Definition generation_of (c : Attached) : Z := at_generation (att_state c).

(** The operations of the table that are the calls'. *)
Definition calls_op (op : HandleOp) : bool :=
  match op with
  | Op_alloc | Op_insert _ _ _ _ _ _ _ | Op_remove _ | Op_owe_release _ => true
  | _ => false
  end.

(** A turn of [reopen_handles]: the reopen of a handle is sent, or one has ended; the
    round's loop goes on until it is publishable. *)
Inductive reopen_step (rr : ReopenRound) (t : HandleTable) : ReopenRound → HandleTable → Prop :=
| rs_send fh req rr' :
    ReopenRound_send rr t fh = Some (req, rr') → reopen_step rr t rr' t
| rs_ended fh outcome rr' t' :
    ReopenRound_ended rr t fh outcome = Some (rr', t') → reopen_step rr t rr' t'.

(** A turn of the release task of [c], with its sends: while the connection is up, what is
    owed and may be sent is; a send settles, also once the connection is over. *)
Inductive release_step (c : Attached) (up : bool) (sends : gset Z) (t : HandleTable)
  : gset Z → HandleTable → Prop :=
| rl_send t' :
    up = true →
    let fhs := owed_sendable t (att_state c) (at_cancels (att_state c)) in
    send_owed t (generation_of c) fhs = Some t' →
    release_step c up sends t (list_to_set fhs ∪ sends) t'
| rl_settle fh delivered :
    fh ∈ sends →
    release_step c up sends t (sends ∖ {[fh]}) (settle_release t fh (generation_of c) delivered).

Inductive manager_step m : manager → Prop :=
(** The mount is stopped: looked at as the loop turns, and while it awaits. *)
| ms_stop :
    mg_at m = At_top ∨ mg_at m = At_connect ∨ mg_at m = At_backoff →
    manager_step m (stopping m)
| ms_try :
    mg_at m = At_top →
    manager_step m (moved m At_connect (Conn_Connecting (mg_offline_since m)) (mg_table m))
| ms_failed attempts e :
    mg_at m = At_connect → attempts.*1 = mg_candidates m →
    connect_any attempts = Some (Err e) →
    manager_step m (failed_attempt m)
| ms_slept :
    mg_at m = At_backoff → manager_step m (slept m)
| ms_connected attempts winner hs m' :
    mg_at m = At_connect → attempts.*1 = mg_candidates m →
    connect_any attempts = Some (Ok (winner, hs)) → connected m winner hs = Some m' →
    manager_step m m'
| ms_reopen c rr rr' t :
    mg_at m = At_restore c (Some rr) → reopen_step rr (mg_table m) rr' t →
    manager_step m (moved m (At_restore c (Some rr')) (mg_state m) t)
| ms_stop_restore c round :
    mg_at m = At_restore c round → manager_step m (stopping m)
| ms_publish c round :
    mg_at m = At_restore c round →
    match round with Some rr => publishable rr = true | None => True end →
    manager_step m (published m c)
| ms_release c sends sends' t :
    mg_at m = At_up c sends → release_step c true sends (mg_table m) sends' t →
    manager_step m (moved m (At_up c sends') (mg_state m) t)
| ms_release_late c sends stop sends' t :
    mg_at m = At_ending c sends stop → release_step c false sends (mg_table m) sends' t →
    manager_step m (moved m (At_ending c sends' stop) (mg_state m) t)
(** The connection is lost, or closed to stop. *)
| ms_lost c sends now :
    mg_at m = At_up c sends →
    manager_step m
      (MkManager _ (At_ending c sends false) (mg_candidates m) (mg_resume m) (mg_generation m)
         (mg_root m) (mg_backoff m) (mg_failures m) now (mg_first m) (mg_state m) (mg_table m))
| ms_close c sends :
    mg_at m = At_up c sends →
    manager_step m (moved m (At_ending c sends true) (mg_state m) (mg_table m))
(** The release task ends: what it could not deliver is owed to the next connection. *)
| ms_ended c stop :
    mg_at m = At_ending c ∅ stop →
    let t := owed_connection_ended (mg_table m) (generation_of c) in
    manager_step m (if stop : bool then moved m At_stopped Conn_Closed t else moved m At_top (mg_state m) t)
(** A call gives up on a change, or its answer comes. *)
| ms_cancels c sends pending :
    mg_at m = At_up c sends →
    let c' := with_state c (MkAttached (generation_of c) pending (at_published (att_state c))) in
    manager_step m (moved m (At_up c' sends) (Conn_Connected c') (mg_table m))
(** A reopen given up on counts there too. *)
| ms_cancels_restore c round pending :
    mg_at m = At_restore c round →
    let c' := with_state c (MkAttached (generation_of c) pending (at_published (att_state c))) in
    manager_step m (moved m (At_restore c' round) (mg_state m) (mg_table m))
(** A call opens or releases. *)
| ms_call op t :
    calls_op op = true → run_op (mg_table m) op = Some t →
    manager_step m (moved m (mg_at m) (mg_state m) t).

Definition manager_reachable m : Prop :=
  ∃ addrs now t, table_reachable t ∧ ht_owed t = ∅ ∧ rtc manager_step (manager_new addrs now t) m.
End manager.

(** ** Attempts *)

(** The attempts to these candidates all failed, none by a refusal. *)
Definition unanswered {Addr} (l : list (Addr * option (result ErrorConnectKind (Handshaken Addr)))) : Prop :=
  Forall (λ a, ∃ kind, timed a.2 = Err kind ∧ is_refusal kind = false) l.

Lemma sweep_cases {Addr} (l : list (Addr * option (result ErrorConnectKind (Handshaken Addr)))) : ∀ i worst,
  (∃ j addr attempt hs, l !! j = Some (addr, attempt) ∧ timed attempt = Ok hs ∧ unanswered (take j l)
     ∧ sweep i worst l = Some (Ok ((i + j)%nat, hs)))
  ∨ (∃ j addr attempt kind, l !! j = Some (addr, attempt) ∧ timed attempt = Err kind ∧ is_refusal kind = true
     ∧ unanswered (take j l) ∧ sweep i worst l = Some (Err (MkEC addr kind)))
  ∨ unanswered l ∧ ∃ worst', sweep i worst l = Err <$> worst'
     ∧ ((Forall (λ a, timed a.2 = Err EK_Timeout) l ∧ (worst' = worst ∨ worst = None ∧ ∃ addr attempt rest,
            l = (addr, attempt) :: rest ∧ worst' = Some (MkEC addr EK_Timeout)))
        ∨ ∃ addr attempt kind, (addr, attempt) ∈ l ∧ timed attempt = Err kind ∧ is_timeout kind = false
            ∧ worst' = Some (MkEC addr kind)).
Proof.
  induction l as [|[addr attempt] l IH]; intros i worst; cbn [sweep].
  - right; right. split; [by constructor|]. exists worst. split; [done|]. left. split; [by constructor|by left].
  - destruct (timed attempt) as [hs|kind] eqn:Ht.
    + left. exists 0%nat, addr, attempt, hs. split_and!; [done|done|by constructor|by rewrite Nat.add_0_r].
    + destruct (is_refusal kind) eqn:Hr.
      { right; left. exists 0%nat, addr, attempt, kind. split_and!; [done..|by constructor|done]. }
      set (w := if negb (is_timeout kind) then _ else _).
      destruct (IH (S i) w) as [(j & addr' & at' & hs & Hj & Hok & Hu & Hs)|[(j & addr' & at' & k & Hj & Hk & Hrf & Hu & Hs)|(Hu & w' & Hs & Hw)]].
      * left. exists (S j), addr', at', hs. split_and!; [done|done| |by rewrite Hs, Nat.add_succ_r].
        cbn. constructor; [by eexists|done].
      * right; left. exists (S j), addr', at', k. split_and!; [done|done|done| |done]. cbn. constructor; [by eexists|done].
      * right; right. split; [constructor; [by eexists|done]|]. exists w'. split; [done|].
        destruct Hw as [[Hall Hw]|(addr' & at' & k & Hin & Hk & Hkt & ->)];
          [|right; exists addr', at', k; split_and!; [by constructor|done..]].
        destruct (is_timeout kind) eqn:Hkt; subst w; cbn in Hw.
        -- destruct kind; try done. left. split; [by constructor|]. destruct worst as [e|]; [left|right]; naive_solver.
        -- right. exists addr, attempt, kind. split_and!; [by constructor|done|done|naive_solver].
Qed.

Lemma sweep_some {Addr} (l : list (Addr * option (result ErrorConnectKind (Handshaken Addr)))) : ∀ i e,
  sweep i (Some e) l ≠ None.
Proof.
  induction l as [|[addr attempt] l IH]; intros i e; cbn; [done|].
  destruct (timed attempt); [done|]. destruct (is_refusal _); [done|]. destruct (negb _); apply IH.
Qed.

(** An attempt to connect ends as its candidates decide.  The first, in the order
    tried, that completes the handshake is taken; one that refuses ends the sweep with
    its refusal before any later address is tried; if none answers so, the error is an
    attempt's own, and a timeout only when every attempt timed out.  A list that is
    not empty always gives one or the other. *)
Theorem connect_any_spec {Addr} (l : list (Addr * option (result ErrorConnectKind (Handshaken Addr)))) :
  l ≠ [] →
  (∃ j addr attempt hs, l !! j = Some (addr, attempt) ∧ timed attempt = Ok hs ∧ unanswered (take j l)
     ∧ connect_any l = Some (Ok (j, hs)))
  ∨ (∃ j addr attempt kind, l !! j = Some (addr, attempt) ∧ timed attempt = Err kind ∧ is_refusal kind = true
     ∧ unanswered (take j l) ∧ connect_any l = Some (Err (MkEC addr kind)))
  ∨ unanswered l ∧ ∃ addr attempt kind, (addr, attempt) ∈ l ∧ timed attempt = Err kind
     ∧ connect_any l = Some (Err (MkEC addr kind))
     ∧ (is_timeout kind = true → Forall (λ a, timed a.2 = Err EK_Timeout) l).
Proof.
  intros Hne. destruct (sweep_cases l 0 None) as [Hok|[Href|(Hu & w & Hs & Hw)]]; [by left|by right; left|].
  right; right. split; [done|]. unfold connect_any. rewrite Hs.
  destruct Hw as [[Hall [-> | (_ & addr & attempt & rest & -> & ->)]]|(addr & attempt & kind & Hin & Hk & Ht & ->)].
  - destruct l as [|[addr attempt] l]; [done|]. exfalso. clear Hne Hu.
    revert Hs. unfold connect_any. cbn. apply Forall_cons_iff in Hall as [Hhead Hall]. cbn in Hhead. rewrite Hhead. cbn.
    intros Hs. by apply (sweep_some l 1 (MkEC addr EK_Timeout)) in Hs.
  - exists addr, attempt, EK_Timeout. split_and!; [by constructor|by apply Forall_cons_iff in Hall as [? _]|done|done].
  - exists addr, attempt, kind. split_and!; [done|done|done|congruence].
Qed.

(** ** What the manager keeps *)

(** The connections the owed releases are marked as being sent on. *)
Definition marks (t : HandleTable) (P : Z → Prop) : Prop :=
  ∀ fh o g, ht_owed t !! fh = Some o → ow_sending_on o = Some g → P g.

Lemma marks_same t t' P : ht_owed t' = ht_owed t → marks t P → marks t' P.
Proof. intros Heq Hm fh o g. rewrite Heq. apply Hm. Qed.

Lemma marks_owe_release t req t' P : owe_release t req = Some t' → marks t P → marks t' P.
Proof.
  intros Ho Hm fh o g Hl Hg. unfold owe_release in Ho.
  destruct req; simplify_eq/=;
    (destruct (ht_owed t !! fh0) eqn:Hold; simplify_eq/=; [by eapply Hm|]);
    (destruct (decide (fh = fh0)) as [->|Hne]; [rewrite lookup_insert_eq in Hl|rewrite lookup_insert_ne in Hl by done]);
    first [by simplify_eq/=|by eapply Hm].
Qed.

Lemma owe_all_none (l : list (Z * HandleKind)) :
  foldl (λ t fk, t ← t; owe_release t (release_request fk.2 fk.1)) None l = None.
Proof. induction l; [done|]. cbn. apply IHl. Qed.

Lemma marks_owe_all (l : list (Z * HandleKind)) P : ∀ t t',
  foldl (λ t fk, t ← t; owe_release t (release_request fk.2 fk.1)) (Some t) l = Some t' → marks t P → marks t' P.
Proof.
  induction l as [|fk l IH]; intros t t' Hf Hm; cbn in Hf; [by simplify_eq|].
  destruct (owe_release t (release_request fk.2 fk.1)) as [t1|] eqn:Ho; [|cbn in Hf; by rewrite owe_all_none in Hf].
  eapply IH; [exact Hf|]. by eapply marks_owe_release.
Qed.

(** No operation but a send marks a release. *)
Lemma marks_op t op t' P : (∀ fh g, op ≠ Op_owed_send fh g) → run_op t op = Some t' → marks t P → marks t' P.
Proof.
  intros Hop Hr Hm. destruct op; cbn [run_op] in Hr.
  - by injection Hr as <-.
  - destruct (ht_insert t fh nodeid key path flags kind opener) as [a t1] eqn:Hi. injection Hr as <-.
    apply ht_insert_fields in Hi as (_ & _ & _ & Ho & _). by eapply marks_same.
  - injection Hr as <-. eapply marks_same; [|exact Hm]. apply ht_remove_parts.
  - by eapply marks_owe_release.
  - by destruct (Hop fh generation).
  - injection Hr as <-. unfold owed_delivered. destruct (ht_owed t !! fh) as [o|]; [|done].
    case_bool_decide; [|done]. intros fh' o' g Hl Hg. cbn in Hl.
    apply lookup_delete_Some in Hl as [_ Hl]. by eapply Hm.
  - injection Hr as <-. intros fh o g Hl Hg. cbn in Hl. rewrite lookup_fmap in Hl.
    destruct (ht_owed t !! fh) as [o'|] eqn:Ho; [|done]. injection Hl as <-.
    destruct (bool_decide _); [done|]. by eapply Hm.
  - injection Hr as <-. intros fh o g Hl _. cbn in Hl. by rewrite lookup_empty in Hl.
  - unfold kill_all in Hr. eapply marks_owe_all; [exact Hr|]. eapply marks_same; [|exact Hm].
    by rewrite kill_live_owed.
  - injection Hr as <-. eapply marks_same; [|exact Hm]. unfold apply_reopen.
    destruct (deref t a); [|done]. by destruct (same_file _ _).
Qed.

Lemma marks_impl t (P Q : Z → Prop) : (∀ g, P g → Q g) → marks t P → marks t Q.
Proof. intros HPQ Hm fh o g Hl Hg. apply HPQ. by eapply Hm. Qed.

Lemma send_owed_run fhs g : ∀ t t', send_owed t g fhs = Some t' →
  (∀ P : Z → Prop, P g → marks t P → marks t' P) ∧ (table_ok t → table_ok t').
Proof.
  induction fhs as [|fh fhs IH]; intros t t' Hs; cbn in Hs; [by simplify_eq|].
  destruct (owed_send t fh g) as [[req t1]|] eqn:Ho; [|done]. cbn in Hs.
  destruct (IH _ _ Hs) as [HP Hok]. split.
  - intros P Hg Hm. apply HP; [done|]. unfold owed_send in Ho.
    destruct (ht_owed t !! fh) as [o|] eqn:Hl; [|done]. simplify_eq/=. intros fh' o' g' Hl' Hg'. cbn in Hl'.
    destruct (decide (fh' = fh)) as [->|Hne]; [rewrite lookup_insert_eq in Hl'|rewrite lookup_insert_ne in Hl' by done].
    + by simplify_eq/=.
    + by eapply Hm.
  - intros Ht. apply Hok. apply (run_op_ok t (Op_owed_send fh g)); [done|]. cbn. by rewrite Ho.
Qed.

Lemma connection_ended_unmarks t g : marks t (λ g', g' = g) → marks (owed_connection_ended t g) (λ _, False).
Proof.
  intros Hm fh o g' Hl Hg. cbn in Hl. rewrite lookup_fmap in Hl.
  destruct (ht_owed t !! fh) as [o'|] eqn:Ho; [|done]. injection Hl as <-.
  case_bool_decide as Hb; [done|]. apply Hb. by rewrite Hg, (Hm fh o' g' Ho Hg).
Qed.

(** The end of a reopen, as operations of the table. *)
Lemma ReopenRound_ended_run rr t fh outcome rr' t' : ReopenRound_ended rr t fh outcome = Some (rr', t') →
  ∃ a, t' = apply_reopen t a outcome ∨ ∃ req, owe_release (apply_reopen t a outcome) req = Some t'.
Proof.
  intros (a & rec & _ & _ & _ & [(_ & _ & Ho)|(_ & _ & ->)])%ReopenRound_ended_inv; exists a; eauto.
Qed.

Section invariant.
Context {Addr : Type}.
Notation manager := (Manager Addr).
Implicit Types m : manager.

Definition unconnected (st : ConnState) : Prop := match st with Conn_Connected _ => False | _ => True end.

(** What holds where [run] awaits.  A connection is unpublished while its reopens run,
    and the state says so; only a connection that is up, or whose release task has not
    ended, has releases marked as being sent, and on itself. *)
Definition at_ok m : Prop :=
  match mg_at m with
  | At_top =>
      marks (mg_table m) (λ _, False)
      ∧ match mg_state m with
        | Conn_Connected c => generation_of c = mg_generation m ∧ at_published (att_state c) = true
        | _ => True
        end
  | At_connect | At_backoff => marks (mg_table m) (λ _, False) ∧ unconnected (mg_state m)
  | At_restore c _ =>
      marks (mg_table m) (λ _, False) ∧ unconnected (mg_state m)
      ∧ generation_of c = mg_generation m ∧ at_published (att_state c) = false
  | At_up c _ | At_ending c _ _ =>
      marks (mg_table m) (λ g, g = mg_generation m) ∧ mg_state m = Conn_Connected c
      ∧ generation_of c = mg_generation m ∧ at_published (att_state c) = true
  | At_stopped => marks (mg_table m) (λ _, False) ∧ mg_state m = Conn_Closed
  end.

Definition backoff_ok (backoff : Z) : Prop := BACKOFF_MIN <= backoff <= BACKOFF_MAX.

Definition manager_ok m : Prop := table_ok (mg_table m) ∧ backoff_ok (mg_backoff m) ∧ at_ok m.

(** What the table's own operations keep. *)
Lemma at_ok_table m t : (∀ P, marks (mg_table m) P → marks t P) → at_ok m → at_ok (moved m (mg_at m) (mg_state m) t).
Proof.
  intros Hm Hok. unfold at_ok, moved in *. cbn.
  destruct (mg_at m); destruct Hok; auto.
Qed.

Lemma connected_ok m winner hs m' : table_ok (mg_table m) → marks (mg_table m) (λ _, False) →
  unconnected (mg_state m) → connected m winner hs = Some m' →
  manager_ok m' ∧ mg_generation m' = mg_generation m + 1.
Proof.
  intros Ht Hm Hu Hc. unfold connected in Hc.
  assert (∃ t, (if root_changed m (hs_root hs) then kill_all (mg_table m) else Some (mg_table m)) = Some t
    ∧ table_ok t ∧ marks t (λ _, False)) as (t & Hk & Htk & Hmk).
  { destruct (root_changed m (hs_root hs)); [|by eexists].
    destruct (kill_all_effect _ Ht) as (t & Hk & _). exists t. split_and!; [done| |].
    - by apply (run_op_ok (mg_table m) Op_kill_all).
    - by eapply (marks_op (mg_table m) Op_kill_all). }
  rewrite Hk in Hc. cbn in Hc. injection Hc as <-. split; [|done]. split_and!; cbn.
  - destruct (hs_resumed hs); [done|]. by apply (run_op_ok t Op_owed_moot).
  - unfold backoff_ok, BACKOFF_MIN, BACKOFF_MAX. lia.
  - unfold at_ok. cbn [mg_at mg_table mg_state]. split; [|done]. destruct (hs_resumed hs); [done|].
    by eapply (marks_op t Op_owed_moot).
Qed.

Lemma reopen_step_ok rr t rr' t' : reopen_step rr t rr' t' → table_ok t → marks t (λ _, False) →
  table_ok t' ∧ marks t' (λ _, False).
Proof.
  intros [fh req rr1 _|fh outcome rr1 t1 Hr] Ht Hm; [done|]. apply ReopenRound_ended_run in Hr as [a Hr].
  pose proof (run_op_ok _ (Op_apply_reopen a outcome) _ Ht eq_refl) as Hok1.
  assert (marks (apply_reopen t a outcome) (λ _, False)) as Hm1
    by (by eapply (marks_op t (Op_apply_reopen a outcome))).
  destruct Hr as [-> | [req Hreq]]; split; try done.
  - by apply (run_op_ok (apply_reopen t a outcome) (Op_owe_release req)).
  - by eapply marks_owe_release.
Qed.

Lemma release_step_ok c up sends t sends' t' : release_step c up sends t sends' t' →
  table_ok t → marks t (λ g, g = generation_of c) → table_ok t' ∧ marks t' (λ g, g = generation_of c).
Proof.
  intros [t1 _ fhs Hr|fh delivered _] Ht Hm.
  - destruct (send_owed_run _ _ _ _ Hr) as [HP Hok]. split; [by apply Hok|by apply HP].
  - destruct delivered; cbn; [|done]. split.
    + by apply (run_op_ok t (Op_owed_delivered fh (generation_of c))).
    + by eapply (marks_op t (Op_owed_delivered fh (generation_of c))).
Qed.

Lemma manager_ok_same m m' : manager_ok m → mg_table m' = mg_table m → mg_backoff m' = mg_backoff m →
  at_ok m' → manager_ok m'.
Proof. intros (Ht & Hb & _) Ht' Hb' Ha. unfold manager_ok. by rewrite Ht', Hb'. Qed.

(** Every step but a connection made keeps the generation. *)
Lemma manager_step_ok m m' : manager_step m m' → manager_ok m →
  manager_ok m' ∧ (mg_generation m' = mg_generation m
    ∨ mg_generation m' = mg_generation m + 1 ∧ ∃ c round, mg_at m' = At_restore c round).
Proof.
  intros Hs Hok. pose proof Hok as (Ht & Hb & Hat). unfold at_ok in Hat.
  destruct Hs as [Hw|Hw|attempts e Hw Hl Hc|Hw|attempts winner hs m' Hw Hl Hc Hm|c rr rr' t Hw Hr
    |c round Hw|c round Hw Hp|c sends sends' t Hw Hr|c sends stop sends' t Hw Hr
    |c sends now Hw|c sends Hw|c stop Hw t|c sends pending Hw c'|c round pending Hw c'|op t Hop Hr].
  5: { rewrite Hw in Hat. destruct Hat as [Hmk Hu].
       destruct (connected_ok m winner hs m' Ht Hmk Hu Hm) as [Hok' Hg]. split; [done|]. right. split; [done|].
       unfold connected in Hm. destruct (if root_changed _ _ then _ else _); [|done]. cbn in Hm.
       injection Hm as <-. by eexists _, _. }
  12: { destruct stop; (split; [|by left]); rewrite Hw in Hat; destruct Hat as (Hmk & Hst & Hg & Hp);
        (split; [by apply (run_op_ok (mg_table m) (Op_owed_connection_ended (generation_of c)))|split; [done|]]);
        (split; [apply connection_ended_unmarks; by rewrite Hg|]); [done|]. cbn. by rewrite Hst. }
  all: try (rewrite Hw in Hat).
  all: split; [|try (by left)].
  all: try (destruct Hat as (Hmk & Hat)).
  - apply (manager_ok_same m); [done..|]. destruct Hw as [Hw|[Hw|Hw]]; rewrite Hw in Hat; by destruct Hat.
  - by apply (manager_ok_same m).
  - unfold failed_attempt. destruct (mg_first m); by apply (manager_ok_same m).
  - unfold failed_attempt. destruct (mg_first m); by left.
  - split; [done|split; [|split; [done|]]]; cbn; [|by destruct (mg_state m)].
    unfold backoff_ok, BACKOFF_MIN, BACKOFF_MAX in *. lia.
  - destruct (reopen_step_ok _ _ _ _ Hr Ht Hmk). split; [done|split; [done|by split]].
  - by apply (manager_ok_same m).
  - destruct Hat as (_ & Hg & _). apply (manager_ok_same m); [done..|]. split; [|done].
    by eapply marks_impl; [|exact Hmk].
  - destruct Hat as (Hst & Hg & Hp). rewrite <-Hg in Hmk. destruct (release_step_ok _ _ _ _ _ _ Hr Ht Hmk) as [? Hm'].
    rewrite Hg in Hm'. split; [done|split; [done|by split]].
  - destruct Hat as (Hst & Hg & Hp). rewrite <-Hg in Hmk. destruct (release_step_ok _ _ _ _ _ _ Hr Ht Hmk) as [? Hm'].
    rewrite Hg in Hm'. split; [done|split; [done|by split]].
  - by apply (manager_ok_same m).
  - by apply (manager_ok_same m).
  - destruct Hat as (Hst & Hg & Hp). by apply (manager_ok_same m).
  - destruct Hat as (Hu & Hg & Hp). by apply (manager_ok_same m).
  - split; [by apply (run_op_ok (mg_table m) op)|split; [done|]].
    apply at_ok_table; [|done]. intros P. eapply marks_op; [|done]. by destruct op.
Qed.
End invariant.

Lemma manager_reachable_ok {Addr} (m : Manager Addr) : manager_reachable m → manager_ok m.
Proof.
  intros (addrs & now & t & Ht & Ho & Hr).
  assert (manager_ok (manager_new addrs now t)) as Hok.
  { split; [by apply table_reachable_ok|]. split; [cbn [manager_new mg_backoff]; unfold backoff_ok, BACKOFF_MIN, BACKOFF_MAX; lia|].
    split; [|done]. intros fh o g Hl. cbn in Hl. by rewrite Ho, lookup_empty in Hl. }
  induction Hr as [|m1 m2 m3 Hs _ IH]; [done|]. apply IH. by eapply manager_step_ok.
Qed.

(** C21: The mount has one connection at a time, and a later one is of a later generation.
    In every state the manager can be in: the connection a call can find is the latest,
    and published; while a new connection's handles are being reopened a call finds
    none; a release owed is marked as being sent only on the latest connection, while
    its release task lasts, so each new connection finds every release that is still
    owed unsent; each step keeps the generation, or makes the next by connecting; and
    the wait between attempts stays between its bounds. *)
Theorem one_connection_at_a_time {Addr} (m : Manager Addr) :
  manager_reachable m →
  (∀ c, mg_state m = Conn_Connected c →
     generation_of c = mg_generation m ∧ at_published (att_state c) = true)
  ∧ (∀ c round, mg_at m = At_restore c round → unconnected (mg_state m))
  ∧ (∀ fh o g, ht_owed (mg_table m) !! fh = Some o → ow_sending_on o = Some g →
       g = mg_generation m
       ∧ ∃ c sends, mg_at m = At_up c sends ∨ ∃ stop, mg_at m = At_ending c sends stop)
  ∧ (∀ m', manager_step m m' →
       mg_generation m' = mg_generation m
       ∨ mg_generation m' = mg_generation m + 1 ∧ ∃ c round, mg_at m' = At_restore c round)
  ∧ BACKOFF_MIN <= mg_backoff m <= BACKOFF_MAX.
Proof.
  intros Hok%manager_reachable_ok. pose proof Hok as (Ht & Hb & Ha). unfold at_ok in Ha.
  split; [|split; [|split; [|split; [|exact Hb]]]].
  - intros c Hc. rewrite Hc in Ha. destruct (mg_at m); try (by destruct Ha); destruct Ha as (_ & Heq & Hg & Hp).
    + done.
    + by injection Heq as ->.
    + by injection Heq as ->.
  - intros c round Hr. rewrite Hr in Ha. by destruct Ha as (_ & Hu & _).
  - intros fh o g Hl Hg.
    destruct (mg_at m) as [| | |c r|c sends|c sends stop|]; destruct Ha as [Hm _]; try by destruct (Hm fh o g Hl Hg).
    + split; [by eapply Hm|]. exists c, sends. by left.
    + split; [by eapply Hm|]. exists c, sends. right. by exists stop.
  - intros m' Hs. by apply manager_step_ok.
Qed.

Lemma connected_changed_root {Addr} (m : Manager Addr) winner hs : table_ok (mg_table m) →
  root_changed m (hs_root hs) = true →
  ∃ m', connected m winner hs = Some m' ∧ live (mg_table m') = []
    ∧ ∀ c rr, mg_at m' = At_restore c (Some rr) → rr = ReopenRound_new (mg_table m').
Proof.
  intros Ht Hr. destruct (kill_all_effect _ Ht) as (t & Hk & _ & Hd & _).
  assert (live t = []) as Hl.
  { apply elem_of_nil_inv. intros [fh a] (r & Ha & Hr' & Hlive)%elem_of_live. specialize (Hd fh a r Ha Hr'). congruence. }
  unfold connected. rewrite Hr, Hk. cbn. eexists. split; [done|]. cbn. split.
  - by destruct (hs_resumed hs).
  - intros c rr Hat. by destruct (hs_resumed hs); simplify_eq.
Qed.

(** A mount is of one directory.  If the server comes back serving another at its
    root, the connection is made all the same, every handle is dead by then, and not
    one is reopened by its path: the connection is at once ready to be published. *)
Theorem changed_root_reopens_nothing {Addr} (m : Manager Addr) winner hs :
  manager_reachable m → root_changed m (hs_root hs) = true →
  ∃ m', connected m winner hs = Some m' ∧ live (mg_table m') = []
    ∧ ∀ c rr, mg_at m' = At_restore c (Some rr) →
        publishable rr = true ∧ ∀ fh, ReopenRound_send rr (mg_table m') fh = None.
Proof.
  intros (Ht & _)%manager_reachable_ok Hr.
  destruct (connected_changed_root m winner hs Ht Hr) as (m' & Hc & Hl & Hrr).
  exists m'. split; [done|]. split; [done|]. intros c rr Hat. apply Hrr in Hat as ->.
  unfold ReopenRound_new. rewrite Hl. split; [done|]. done.
Qed.

(** ** A manager at work *)

Definition demo_root (ino : Z) : KeyRoot := MkKeyRoot ino (MkIdentity 1 [Byte.x01]).
Definition demo_handshake (ino : Z) : Handshaken Z :=
  MkHandshaken 2 7 [] false (demo_root ino) ClientIds.IdMap_Direct.
Definition demo_attempts : list (Z * option (result ErrorConnectKind (Handshaken Z))) :=
  [(1, None); (2, Some (Ok (demo_handshake 5)))].
Definition demo_start : Manager Z := manager_new [1; 2] 0 demo_table.
Definition demo_trying : Manager Z := moved demo_start At_connect (Conn_Connecting 0) demo_table.
Definition demo_connected : Manager Z := default demo_start (connected demo_trying 1 (demo_handshake 5)).

Lemma demo_connected_reachable : manager_reachable demo_connected.
Proof.
  exists [1; 2], 0, demo_table. split; [apply demo_table_reachable|]. split; [reflexivity|].
  eapply rtc_l; [by apply ms_try|]. apply rtc_once.
  by eapply (ms_connected _ demo_attempts 1 (demo_handshake 5)).
Qed.

Lemma one_connection_at_a_time_witness : mg_generation demo_connected = 1 ∧ unconnected (mg_state demo_connected).
Proof.
  split; [reflexivity|].
  refine (proj1 (proj2 (one_connection_at_a_time demo_connected demo_connected_reachable)) _ _ _). reflexivity.
Defined.

Lemma changed_root_reopens_nothing_witness : ∃ m',
  connected demo_connected 0 (demo_handshake 6) = Some m' ∧ live (mg_table m') = [].
Proof.
  destruct (changed_root_reopens_nothing demo_connected 0 (demo_handshake 6) demo_connected_reachable) as (m' & Hc & Hl & _);
    [reflexivity|]. exists m'. split; [exact Hc|exact Hl].
Defined.

Lemma connect_any_spec_witness : demo_attempts ≠ [] ∧ connect_any demo_attempts = Some (Ok (1%nat, demo_handshake 5)).
Proof.
  assert (demo_attempts ≠ []) as Hne by discriminate. split; [exact Hne|].
  destruct (connect_any_spec demo_attempts Hne) as [(j & addr & attempt & hs & _ & _ & _ & Hc)|[(j & addr & attempt & kind & _ & _ & _ & _ & Hc)|(_ & addr & attempt & kind & _ & _ & Hc & _)]].
  - rewrite Hc. vm_compute in Hc. injection Hc as <- <-. reflexivity.
  - vm_compute in Hc. discriminate.
  - vm_compute in Hc. discriminate.
Defined.
