(* ===== verification/Events.v ===== *)
(** * The event stream ([crates/server/src/session.rs], [crates/client/src/conn.rs])

    The server writes a session's events to one stream of its connection
    ([forward_events]); the client reads them into a bounded queue for the invalidator
    ([read_events]).  Either end may fall behind; a change lost that way is always
    followed by an [Overflow], on which the client distrusts all it caches.

    The broadcast channel, the watch channel and the bounded queue are the runtime's:
    a turn of the server's loop says what its channels gave, and whether the write that
    follows was done in time; the queue holds [EVENT_QUEUE] events and refuses one more. *)

From S2P Require Import Prelude Types Msg Watch.

(** ** The server's end *)

(** What [broadcast::Receiver::recv] gives. *)
Inductive Received := Rcv_Batch (b : EventBatch) | Rcv_Lagged (n : Z) | Rcv_Closed.

(** One [select!]: a batch, a change of the notice, or the end of the notices. *)
Inductive Turn := Turn_Recv (r : Received) | Turn_Changed (ok : bool).

(** [StreamEvents::send]: written; refused as too large or by the stream; not drained in
    time, which closes the connection. *)
Inductive WriteEvent := WE_Written | WE_Failed | WE_Stalled.

(** [fw_notice]: the session's pending notice, which its opens set.  [fw_over]: the loop
    is left. *)
Record Forward := MkForward {
  fw_noticing : bool;
  fw_notice : option NoticeHandles;
  fw_seq : Z;
  fw_written : list Event;
  fw_closed_conn : bool;
  fw_over : bool }.

Definition overflow_event : Event := MkEvent [Ev_Overflow] None.
Definition notice_event (n : NoticeHandles) : Event := MkEvent [] (Some n).

Definition delivered (pending : option NoticeHandles) (sent : NoticeHandles) : option NoticeHandles :=
  if bool_decide (pending = Some sent) then None else pending.

(** The write, and the notice it delivered. *)
Definition send_event (f : Forward) (ev : Event) (w : WriteEvent) : Forward :=
  match w with
  | WE_Written =>
      MkForward (fw_noticing f)
        (match ev_handles ev with Some sent => delivered (fw_notice f) sent | None => fw_notice f end)
        (fw_seq f + 1) (fw_written f ++ [ev]) (fw_closed_conn f) (fw_over f)
  | WE_Failed => MkForward (fw_noticing f) (fw_notice f) (fw_seq f) (fw_written f) (fw_closed_conn f) true
  | WE_Stalled => MkForward (fw_noticing f) (fw_notice f) (fw_seq f) (fw_written f) true true
  end.

Definition forward_start (notice : option NoticeHandles) (w : WriteEvent) : Forward :=
  let f := MkForward true notice 0 [] false false in
  match notice with
  | Some pending => send_event f (notice_event pending) w
  | None => f
  end.

(** The event of a batch, or of what was missed. *)
Definition due (session_id : Z) (r : Received) : option Event :=
  match r with
  | Rcv_Batch b => for_session b session_id
  | Rcv_Lagged _ => Some overflow_event
  | Rcv_Closed => None
  end.

(** One turn of the loop, [notice] being the one pending as it looks. *)
Definition forward_turn (session_id : Z) (f : Forward) (t : Turn) (notice : option NoticeHandles)
    (w : WriteEvent) : Forward :=
  let f := MkForward (fw_noticing f) notice (fw_seq f) (fw_written f) (fw_closed_conn f) (fw_over f) in
  if fw_over f then f
  else
    let sent ev := match ev with Some ev => send_event f ev w | None => f end in
    match t with
    | Turn_Recv Rcv_Closed => MkForward (fw_noticing f) notice (fw_seq f) (fw_written f) (fw_closed_conn f) true
    | Turn_Recv r => sent (due session_id r)
    | Turn_Changed ok =>
        if negb (fw_noticing f) then f
        else if ok then sent (notice_event <$> notice)
        else MkForward false notice (fw_seq f) (fw_written f) (fw_closed_conn f) (fw_over f)
    end.

Definition forward (session_id : Z) (f : Forward) (turns : list (Turn * option NoticeHandles * WriteEvent)) : Forward :=
  foldl (λ f twn, forward_turn session_id f twn.1.1 twn.1.2 twn.2) f turns.

(** ** The client's end *)

Definition EVENT_QUEUE : nat := 256.

Record Reader := MkReader { rd_overflow_pending : bool; rd_queue : list Event }.

Definition reader_new : Reader := MkReader false [].

Definition try_send (queue : list Event) (ev : Event) : option (list Event) :=
  if (length queue <? EVENT_QUEUE)%nat then Some (queue ++ [ev]) else None.

Definition send_or_collapse (r : Reader) (ev : Event) : Reader :=
  match try_send (rd_queue r) ev with
  | Some q => MkReader (rd_overflow_pending r) q
  | None => MkReader true (rd_queue r)
  end.

(** One event read; a notice of the handles is reported, and goes no further. *)
Definition read_event (r : Reader) (ev : Event) : Reader :=
  let ev' := MkEvent (ev_items ev) None in
  if bool_decide (ev_handles ev ≠ None) && bool_decide (ev_items ev = []) then r
  else if rd_overflow_pending r then
    match try_send (rd_queue r) overflow_event with
    | None => r
    | Some q => send_or_collapse (MkReader false q) ev'
    end
  else send_or_collapse r ev'.

(** The invalidator takes one. *)
Definition take_event (r : Reader) : Reader := MkReader (rd_overflow_pending r) (drop 1 (rd_queue r)).

Inductive ReaderStep := RS_Read (ev : Event) | RS_Take.
Definition reader_step (r : Reader) (s : ReaderStep) : Reader :=
  match s with RS_Read ev => read_event r ev | RS_Take => take_event r end.
Definition read_all (r : Reader) (steps : list ReaderStep) : Reader := foldl reader_step r steps.

(** ** What is not lost *)

(** The events the invalidator is owed of those read: a notice alone is not one. *)
Definition relevant (ev : Event) : option Event :=
  if bool_decide (ev_handles ev ≠ None) && bool_decide (ev_items ev = []) then None
  else Some (MkEvent (ev_items ev) None).

(** The frames read, and what the invalidator is owed of them. *)
Definition frames_read (steps : list ReaderStep) : list Event :=
  omap (λ s, match s with RS_Read ev => Some ev | RS_Take => None end) steps.
Definition events_read (steps : list ReaderStep) : list Event := omap relevant (frames_read steps).

(** What the invalidator took from the queue, in order. *)
Fixpoint taken (r : Reader) (steps : list ReaderStep) : list Event :=
  match steps with
  | [] => []
  | RS_Take :: steps => take 1 (rd_queue r) ++ taken (take_event r) steps
  | RS_Read ev :: steps => taken (read_event r ev) steps
  end.

(** Everything that reached the queue: what was taken from it and what is in it. *)
Definition handed_over (steps : list ReaderStep) : list Event :=
  taken reader_new steps ++ rd_queue (read_all reader_new steps).

(** [told due passed owed]: [passed] is [due] but for losses, each followed by an
    overflow before anything else passes; [owed] when the last one is not yet. *)
Inductive told : list Event → list Event → bool → Prop :=
| told_nothing : told [] [] false
| told_passed due passed ev : told due passed false → told (due ++ [ev]) (passed ++ [ev]) false
| told_lost due passed owed ev : told due passed owed → told (due ++ [ev]) passed true
| told_overflow due passed : told due passed true → told due (passed ++ [MkEvent [Ev_Overflow] None]) false.

(** Every event read found room in the queue. *)
Definition never_full (steps : list ReaderStep) : Prop :=
  ∀ before ev after, steps = before ++ RS_Read ev :: after →
  (length (rd_queue (read_all reader_new before)) < 256)%nat.

Lemma try_send_room q ev : (length q < 256)%nat → try_send q ev = Some (q ++ [ev]).
Proof. intros Hq. unfold try_send, EVENT_QUEUE. by rewrite (proj2 (Nat.ltb_lt _ _)). Qed.

Lemma try_send_Some q ev q' : try_send q ev = Some q' → q' = q ++ [ev] ∧ (length q' <= 256)%nat.
Proof.
  unfold try_send, EVENT_QUEUE. destruct (Nat.ltb_spec (length q) 256); [|done]. intros [= <-].
  split; [done|]. rewrite length_app. cbn. lia.
Qed.

Lemma taken_snoc steps s : ∀ r,
  taken r (steps ++ [s]) = taken r steps
    ++ match s with RS_Take => take 1 (rd_queue (read_all r steps)) | RS_Read _ => [] end.
Proof.
  induction steps as [|[ev|] steps IH]; intros r; cbn [app taken].
  - destruct s; [done|]. by rewrite app_nil_r.
  - apply IH.
  - by rewrite IH, app_assoc.
Qed.

Lemma read_all_snoc steps s r : read_all r (steps ++ [s]) = reader_step (read_all r steps) s.
Proof. unfold read_all. by rewrite foldl_app. Qed.

Lemma events_read_snoc steps s :
  events_read (steps ++ [s])
  = events_read steps ++ match s with RS_Read ev => option_list (relevant ev) | RS_Take => [] end.
Proof.
  unfold events_read, frames_read. rewrite !omap_app. f_equal. destruct s as [ev|]; [|done].
  cbn. by destruct (relevant ev).
Qed.

(** The invariant, with what has passed so far. *)
Definition reader_ok (due passed : list Event) (r : Reader) : Prop :=
  told due (passed ++ rd_queue r) (rd_overflow_pending r) ∧ (length (rd_queue r) <= 256)%nat.

Lemma send_or_collapse_ok due passed r ev : reader_ok due passed r → rd_overflow_pending r = false →
  reader_ok (due ++ [ev]) passed (send_or_collapse r ev).
Proof.
  intros [Ht Hq] Hn. rewrite Hn in Ht. unfold send_or_collapse.
  destruct (try_send (rd_queue r) ev) as [q|] eqn:Hs; unfold reader_ok; cbn [rd_queue rd_overflow_pending].
  - apply try_send_Some in Hs as [-> Hl]. rewrite Hn, app_assoc. split; [by apply told_passed|done].
  - split; [by eapply told_lost|done].
Qed.

Lemma read_event_ok due passed r ev : reader_ok due passed r →
  reader_ok (due ++ option_list (relevant ev)) passed (read_event r ev).
Proof.
  intros Hok. unfold read_event, relevant.
  destruct (bool_decide _ && bool_decide _); [by rewrite app_nil_r|]. cbn [option_list].
  destruct (rd_overflow_pending r) eqn:Hp; [|by apply send_or_collapse_ok].
  destruct Hok as [Ht Hq]. rewrite Hp in Ht.
  destruct (try_send (rd_queue r) overflow_event) as [q|] eqn:Hs.
  - apply try_send_Some in Hs as [-> Hl]. apply send_or_collapse_ok; [|done].
    split; [|done]. cbn [rd_queue rd_overflow_pending]. rewrite app_assoc. by apply told_overflow.
  - split; [|done]. rewrite Hp. by eapply told_lost.
Qed.

Lemma read_all_ok steps :
  reader_ok (events_read steps) (taken reader_new steps) (read_all reader_new steps).
Proof.
  induction steps as [|s steps IH] using rev_ind; [split; [apply told_nothing|apply Nat.le_0_l]|].
  rewrite events_read_snoc, taken_snoc, read_all_snoc. destruct s as [ev|]; cbn [reader_step].
  - rewrite app_nil_r. by apply read_event_ok.
  - destruct IH as [Ht Hq]. rewrite app_nil_r. split.
    + cbn [take_event rd_queue rd_overflow_pending]. by rewrite <-app_assoc, take_drop.
    + cbn. rewrite length_drop. lia.
Qed.

(** With room, what is read is queued, after the overflow owed. *)
Lemma send_with_room r ev : (length (rd_queue r) < 256)%nat →
  send_or_collapse r ev = MkReader (rd_overflow_pending r) (rd_queue r ++ [ev]).
Proof. intros Hq. unfold send_or_collapse. by rewrite try_send_room. Qed.

Lemma overflow_queued r ev : rd_overflow_pending r = true → (length (rd_queue r) < 256)%nat →
  relevant ev ≠ None → ∃ more, rd_queue (read_event r ev) = rd_queue r ++ overflow_event :: more.
Proof.
  intros Hp Hq Hev. unfold read_event, relevant in *.
  destruct (bool_decide _ && bool_decide _); [done|]. rewrite Hp, try_send_room by done.
  unfold send_or_collapse. cbn [rd_queue].
  destruct (try_send _ _) as [q|] eqn:Hs; [|by exists []].
  apply try_send_Some in Hs as [-> _]. cbn [rd_queue]. rewrite <-app_assoc. by eexists.
Qed.

Lemma never_full_passes steps : never_full steps →
  handed_over steps = events_read steps ∧ rd_overflow_pending (read_all reader_new steps) = false.
Proof.
  induction steps as [|s steps IH] using rev_ind; intros Hn; [done|].
  assert (never_full steps) as Hn'.
  { intros before ev after ->. eapply Hn. by rewrite <-app_assoc, <-app_comm_cons. }
  destruct (IH Hn') as [Hh Hp]. unfold handed_over in *.
  rewrite events_read_snoc, taken_snoc, read_all_snoc, <-Hh. destruct s as [ev|]; cbn [reader_step].
  - pose proof (Hn steps ev [] eq_refl) as Hroom. unfold read_event, relevant.
    destruct (bool_decide _ && bool_decide _); [by rewrite !app_nil_r|].
    rewrite Hp, send_with_room by done. cbn [rd_queue rd_overflow_pending option_list].
    by rewrite app_nil_r, app_assoc.
  - cbn [take_event rd_queue rd_overflow_pending]. by rewrite <-app_assoc, take_drop, app_nil_r.
Qed.

(** ** What the server writes *)

(** What a session is due of a turn: a batch's items that another made, in order, if
    there are any; an overflow for what the channel dropped. *)
Definition due_turn (session_id : Z) (t : Turn) : option Event :=
  match t with
  | Turn_Recv (Rcv_Batch b) =>
      let others := omap (λ io : EventItem * option Z,
        if bool_decide (io.2 = Some session_id) then None else Some io.1) (eb_items b) in
      if bool_decide (others = []) then None else Some (MkEvent others None)
  | Turn_Recv (Rcv_Lagged _) => Some (MkEvent [Ev_Overflow] None)
  | _ => None
  end.

Lemma others_filter session_id (l : list (EventItem * option Z)) :
  (filter (λ io : EventItem * option Z, io.2 ≠ Some session_id) l).*1
  = omap (λ io, if bool_decide (io.2 = Some session_id) then None else Some io.1) l.
Proof.
  induction l as [|[i o] l IH]; [done|]. rewrite filter_cons. cbn [omap list_omap snd fst].
  destruct (decide (o = Some session_id)) as [->|Ho].
  - rewrite decide_False, bool_decide_true by (cbn; auto). done.
  - rewrite decide_True, bool_decide_false by done. cbn. by rewrite IH.
Qed.

Lemma due_is_due session_id r : due session_id r = due_turn session_id (Turn_Recv r).
Proof.
  destruct r as [b|n|]; [|done..]. cbn [due due_turn]. unfold for_session.
  rewrite others_filter. by destruct (omap _ _).
Qed.

Lemma due_relevant session_id r ev : due session_id r = Some ev → relevant ev = Some ev.
Proof.
  unfold due, for_session, relevant. destruct r as [b|n|]; [|by intros [= <-]|done].
  destruct (filter _ _).*1; [done|]. by intros [= <-].
Qed.

(** The loop writes what is due, a turn at a time, until a write fails. *)
Lemma forward_turn_writes session_id f t notice w : fw_over f = false →
  let f' := forward_turn session_id f t notice w in
  omap relevant (fw_written f') = omap relevant (fw_written f) ++ option_list (due_turn session_id t)
  ∨ fw_over f' = true ∧ omap relevant (fw_written f') = omap relevant (fw_written f).
Proof.
  intros Ho. unfold forward_turn. cbn [fw_over]. rewrite Ho. destruct t as [r|ok].
  - rewrite <-due_is_due. destruct (due session_id r) as [ev|] eqn:Hd.
    + assert (r ≠ Rcv_Closed) as Hr by (by intros ->).
      destruct r; [| |done]; unfold send_event; destruct w; cbn [fw_written fw_over]; try (by right);
        left; rewrite omap_app; cbn; by rewrite (due_relevant _ _ _ Hd).
    + destruct r; [left|done|by right]; cbn; by rewrite app_nil_r.
  - cbn [fw_noticing due_turn]. destruct (negb (fw_noticing f)); [left; cbn; by rewrite app_nil_r|].
    destruct ok; [|left; cbn; by rewrite app_nil_r]. destruct notice as [n|]; [|left; cbn; by rewrite app_nil_r].
    cbn [fmap option_fmap option_map]. unfold send_event. destruct w; cbn [fw_written fw_over]; try (by right).
    left. rewrite omap_app. cbn. by rewrite !app_nil_r.
Qed.

Lemma forward_over session_id turns : ∀ f, fw_over f = true →
  fw_written (forward session_id f turns) = fw_written f.
Proof.
  induction turns as [|[[t n] w] turns IH]; intros f Ho; [done|]. cbn. fold (forward session_id).
  assert (forward_turn session_id f t n w = MkForward (fw_noticing f) n (fw_seq f) (fw_written f) (fw_closed_conn f) true) as ->.
  { unfold forward_turn. cbn. by rewrite Ho. }
  unfold forward in IH. by rewrite IH.
Qed.

Lemma forward_writes session_id turns : ∀ f, fw_over f = false →
  ∃ k, omap relevant (fw_written (forward session_id f turns))
       = omap relevant (fw_written f) ++ take k (omap (λ twn, due_turn session_id twn.1.1) turns).
Proof.
  induction turns as [|[[t n] w] turns IH]; intros f Ho; [exists 0%nat; by rewrite app_nil_r|].
  change (forward session_id f ((t, n, w) :: turns)) with (forward session_id (forward_turn session_id f t n w) turns).
  destruct (forward_turn_writes session_id f t n w Ho) as [Hw|[Hov Hw]].
  - destruct (fw_over (forward_turn session_id f t n w)) eqn:Hov.
    + exists (length (option_list (due_turn session_id t))). rewrite forward_over, Hw by done. f_equal.
      cbn. by destruct (due_turn session_id t).
    + destruct (IH _ Hov) as [k Hk]. exists (length (option_list (due_turn session_id t)) + k)%nat.
      rewrite Hk, Hw, <-app_assoc. f_equal. cbn. by destruct (due_turn session_id t).
  - exists 0%nat. by rewrite forward_over, Hw, app_nil_r by done.
Qed.

(** A turn whose write is done and that is not the channel's end leaves the loop going. *)
Definition goes_on (twn : Turn * option NoticeHandles * WriteEvent) : Prop :=
  twn.2 = WE_Written ∧ twn.1.1 ≠ Turn_Recv Rcv_Closed.

Lemma forward_turn_goes_on session_id f twn : fw_over f = false → goes_on twn →
  fw_over (forward_turn session_id f twn.1.1 twn.1.2 twn.2) = false.
Proof.
  intros Ho [Hw Hc]. destruct twn as [[t n] w]. cbn in *. subst w. unfold forward_turn. cbn. rewrite Ho.
  destruct t as [[b| |]|ok]; cbn; [by destruct (for_session _ _)|done|done|].
  destruct (negb _); [done|]. destruct ok; [|done]. by destruct n.
Qed.

Lemma forward_writes_all session_id turns : ∀ f, fw_over f = false → Forall goes_on turns →
  omap relevant (fw_written (forward session_id f turns))
  = omap relevant (fw_written f) ++ omap (λ twn, due_turn session_id twn.1.1) turns.
Proof.
  induction turns as [|twn turns IH]; intros f Ho Hg; [by rewrite app_nil_r|].
  apply Forall_cons in Hg as [Hg Hgs]. pose proof (forward_turn_goes_on session_id f twn Ho Hg) as Ho'.
  change (forward session_id f (twn :: turns))
    with (forward session_id (forward_turn session_id f twn.1.1 twn.1.2 twn.2) turns).
  rewrite IH by done. destruct (forward_turn_writes session_id f twn.1.1 twn.1.2 twn.2 Ho) as [->|[? _]]; [|congruence].
  rewrite <-app_assoc. f_equal. cbn. by destruct (due_turn session_id twn.1.1).
Qed.

Lemma forward_start_nothing notice w : omap relevant (fw_written (forward_start notice w)) = [].
Proof. unfold forward_start. destruct notice as [n|]; [|done]. by destruct w. Qed.

(** What the loop has written of what is due: all of it up to a write that failed, and
    all of it when none did. *)
Lemma forward_writes_due session_id notice w turns :
  let written := fw_written (forward session_id (forward_start notice w) turns) in
  let dues := omap (λ twn, due_turn session_id twn.1.1) turns in
  (∃ k, omap relevant written = take k dues)
  ∧ (w = WE_Written → Forall goes_on turns → omap relevant written = dues).
Proof.
  intros written dues. subst written dues. split.
  - destruct (fw_over (forward_start notice w)) eqn:Ho.
    + exists 0%nat. by rewrite forward_over, forward_start_nothing.
    + destruct (forward_writes session_id turns _ Ho) as [k Hk]. rewrite forward_start_nothing in Hk. by exists k.
  - intros -> Hg. rewrite forward_writes_all, forward_start_nothing; [done| |done].
    unfold forward_start. by destruct notice.
Qed.


(** A lag and a batch, read into a queue that is taken from. *)
Definition demo_batch : EventBatch := MkBatch [(Ev_Data Path_root, Some 9); (Ev_Unwatched Path_root, Some 7)].
Definition demo_turns : list (Turn * option NoticeHandles * WriteEvent) :=
  [(Turn_Recv (Rcv_Lagged 3), None, WE_Written); (Turn_Recv (Rcv_Batch demo_batch), None, WE_Written)].

(** With the queue full, an event is lost, an overflow is owed, and it comes first once
    the invalidator has taken one. *)
Example full_queue_told :
  let ev := MkEvent [Ev_Data Path_root] None in
  let full := read_all reader_new (replicate 257 (RS_Read ev)) in
  length (rd_queue full) = 256%nat ∧ rd_overflow_pending full = true
  ∧ drop 255 (rd_queue (read_all full [RS_Take; RS_Read ev])) = [overflow_event].
Proof. vm_compute. done. Qed.
