(* ===== verification/Pair.v ===== *)
(** * A client and its session

    The changes a client sends, on one connection after another, and the session of the
    server that runs them ([Session.v]): what the two ends' rules come to together.
    The client's side is that of [client.rs] and [machine.rs]: a change is sent when
    [sendable] (or, of a release owed, [owed_sendable]) says so, a change given up on
    is counted on its connection until its stream has ended, and a lost connection is
    followed by one that resumes the session at a later epoch ([conn.rs]).

    The network may delay and lose: the server decodes a stream any time after it was
    written, also once its connection is lost, and an answer comes late or not at all.
    Requests that are not changes take part only on the server. *)

From S2P Require Import Prelude Types Msg Perf ServerHandles Session SessionInv.
From S2P Require Import ClientTypes ClientHandles Machine.
From S2P Require Import Wire Owners Dirents Sys Export Ops OpsLogic Serve.

(** ** The two ends *)

(** The call waits for its reply, has given up on it, or has it, or its stream's end. *)
Inductive StatusSent := Sn_Waiting | Sn_GivenUp | Sn_Over.

(** A change written whole: the epoch of its connection, whether its stream ended at the
    server undecoded, and, a ghost, the changes that had ended for the client by then:
    answered, failed, or given up on. *)
Record SentChange := MkSent {
  sn_epoch : Z;
  sn_status : StatusSent;
  sn_gone : bool;
  sn_before : gset Z }.

(** [pr_conn]: the connection, if there is one, and [pr_epoch] the epoch it, or the last
    one, attached to the session at. *)
Record Pair := MkPair {
  pr_world : World;
  pr_sent : gmap Z SentChange;
  pr_conn : option AttachedState;
  pr_epoch : Z }.

Definition server_epoch (p : Pair) : Z := epoch (s_att (w_st (pr_world p))).

Definition is_waiting (c : SentChange) : bool := match sn_status c with Sn_Waiting => true | _ => false end.
Definition is_given_up (c : SentChange) : bool := match sn_status c with Sn_GivenUp => true | _ => false end.

(** The stream of a change has ended at the server, for good: what the server's handler
    does of it from here on, if anything, is finish a run. *)
Definition ended (w : World) (k : Z) (c : SentChange) : Prop :=
  match w_flights w !! k with
  | None => sn_gone c = true
  | Some f => is_terminal (x_phase (f_x f)) = true ∨ x_phase (f_x f) = Abandoned
  end.

(** The stream has ended for the client: it ended at the server, or its connection is
    lost. *)
Definition over_for_client (p : Pair) (k : Z) (c : SentChange) : Prop :=
  ended (pr_world p) k c ∨ sn_epoch c < pr_epoch p ∨ pr_conn p = None.

(** The client's rule for sending a change: of a call, or of a release owed. *)
Definition may_send (a : AttachedState) : Prop :=
  (∃ c, c_changes c = true ∧ sendable c a (at_cancels a) = Send_Now)
  ∨ (∃ t fh, fh ∈ owed_sendable t a (at_cancels a)).

Definition with_world (p : Pair) (w : World) : Pair := MkPair w (pr_sent p) (pr_conn p) (pr_epoch p).
Definition with_conn (p : Pair) (a : option AttachedState) : Pair := MkPair (pr_world p) (pr_sent p) a (pr_epoch p).
Definition with_sent (p : Pair) (k : Z) (c : SentChange) : Pair :=
  MkPair (pr_world p) (<[k := c]> (pr_sent p)) (pr_conn p) (pr_epoch p).
Definition sent_status (c : SentChange) (s : StatusSent) : SentChange :=
  MkSent (sn_epoch c) s (sn_gone c) (sn_before c).

(** The connection's pending cancels, moved by a change of that connection. *)
Definition recount (p : Pair) (c : SentChange) (f : AttachedState → AttachedState) : option AttachedState :=
  if sn_epoch c =? pr_epoch p then f <$> pr_conn p else pr_conn p.

(** The server decodes only what was sent: a change of a connection of its session. *)
Definition decodes_sent (p : Pair) (w' : World) : Prop :=
  ∀ k f, w_flights (pr_world p) !! k = None → w_flights w' !! k = Some f →
    if x_ordered (f_x f)
    then ∃ c, pr_sent p !! k = Some c ∧ sn_epoch c = f_epoch f ∧ sn_gone c = false
    else pr_sent p !! k = None.

Inductive pair_step (p : Pair) : Pair → Prop :=
| ps_server b w' :
    session_step (pr_world p) b w' → decodes_sent p w' → pair_step p (with_world p w')
(** A stream ends at the server before it is decoded. *)
| ps_undecoded k c :
    pr_sent p !! k = Some c → w_flights (pr_world p) !! k = None →
    pair_step p (with_sent p k (MkSent (sn_epoch c) (sn_status c) true (sn_before c)))
(** The client connects: the session has been resumed for it. *)
| ps_connect e generation :
    pr_conn p = None → pr_epoch p < e ≤ server_epoch p →
    pair_step p (MkPair (pr_world p) (pr_sent p) (Some (AttachedState_new generation)) e)
| ps_publish a :
    pr_conn p = Some a → pair_step p (with_conn p (Some (publish a)))
| ps_lost :
    pair_step p (with_conn p None)
(** A change is sent; and a reopen, before the connection is published, which is of no
    order with others. *)
| ps_send k a :
    pr_conn p = Some a → may_send a →
    pr_sent p !! k = None → w_flights (pr_world p) !! k = None →
    pair_step p (with_sent p k
      (MkSent (pr_epoch p) Sn_Waiting false (dom (filter (λ kc, is_waiting kc.2 = false) (pr_sent p)))))
| ps_reopen k a :
    pr_conn p = Some a → at_published a = false →
    pr_sent p !! k = None → w_flights (pr_world p) !! k = None →
    pair_step p (with_sent p k (MkSent (pr_epoch p) Sn_Waiting false ∅))
(** The client gives up on a change it has written: [gave_up] counts it. *)
| ps_give_up k c call :
    pr_sent p !! k = Some c → sn_status c = Sn_Waiting →
    c_changes call = true → in_flight call = true →
    pair_step p (MkPair (pr_world p) (<[k := sent_status c Sn_GivenUp]> (pr_sent p))
      (if (gave_up call true).2 then recount p c CancelPending_count else pr_conn p) (pr_epoch p))
(** What became of it arrives. *)
| ps_settled k c :
    pr_sent p !! k = Some c → sn_status c = Sn_GivenUp → over_for_client p k c →
    pair_step p (MkPair (pr_world p) (<[k := sent_status c Sn_Over]> (pr_sent p))
      (recount p c CancelPending_drop) (pr_epoch p))
(** A call's reply, or its stream's end, arrives. *)
| ps_over k c :
    pr_sent p !! k = Some c → sn_status c = Sn_Waiting → over_for_client p k c →
    pair_step p (with_sent p k (sent_status c Sn_Over)).

(** A session just made, and the client connected to it. *)
Definition pair_new (id : Z) (token : list byte) (share generation : Z) : Pair :=
  MkPair (world_new id token share) ∅ (Some (AttachedState_new generation)) 1.

Definition pair_reachable (p : Pair) : Prop :=
  ∃ id token share generation, rtc pair_step (pair_new id token share generation) p.

(** ** What a handler tells is what has ended *)

(** A handler that has answered its stream is of a change that has ended so. *)
Lemma answered_ended `{!Libc} export turns ids h f w k c :
  handler_reached export turns ids h → flies h f → w_flights w !! k = Some f →
  Exists (λ o, is_answer o = true) (hd_out h) → ended w k c.
Proof.
  intros Hr (_ & Hx & _) Hf Ho. apply handler_reached_ok in Hr as [Hc Ht]. unfold ended. rewrite Hf, Hx.
  unfold closure_ok, task_ok, replied in *. destruct (hd_where h) as [| |[]|resp|].
  - destruct Ht as (_ & _ & Hn). rewrite Hn in Ho. by apply Exists_nil in Ho.
  - destruct Ht as (_ & _ & _ & Hn). rewrite Hn in Ho. by apply Exists_nil in Ho.
  - destruct Ht as [[-> | ->] _]; auto.
  - destruct Ht as (_ & _ & Hn). rewrite Hn in Ho. by apply Exists_nil in Ho.
  - destruct Ht as [_ Hn]. rewrite Hn in Ho. by apply Exists_nil in Ho.
  - destruct Ht as [[-> _]|[[-> _]|[[-> _]|[[-> _]|(resp & s & Hr & _)]]]]; auto.
    destruct Hr as [Hr|[Hr _]]; rewrite Hr in Hc; destruct Hc as [_ ->]; auto.
Qed.

(** ** The invariant *)

(** Begun: it runs, or has run. *)
Definition begun (f : Flight) : bool :=
  is_active (x_phase (f_x f)) || bool_decide (x_phase (f_x f) = Finished).

(** A change that ended for the client is one the session is past, for a change of epoch
    [e]. *)
Definition settled_for (w : World) (j : Z) (d : SentChange) (e : Z) : Prop :=
  sn_epoch d < e ∨ sn_epoch d = e ∧ ended w j d.

(** The change [k] waits for those of [before] that still run, or is of a connection the
    session has left and has not begun. *)
Definition waits_its_turn (w : World) (f : Flight) (j : Z) : Prop :=
  j ∈ f_behind f ∨ f_epoch f < epoch (s_att (w_st w)) ∧ begun f = false.

Record pair_ok (p : Pair) : Prop := {
  po_world : reachable (pr_world p);
  po_epoch : pr_epoch p ≤ server_epoch p;
  po_sent : ∀ k c, pr_sent p !! k = Some c → sn_epoch c ≤ pr_epoch p;
  po_flight : ∀ k c f, pr_sent p !! k = Some c → w_flights (pr_world p) !! k = Some f →
    x_ordered (f_x f) = true ∧ f_epoch f = sn_epoch c;
  po_cancels : ∀ a, pr_conn p = Some a →
    at_cancels a = map_count (λ c, is_given_up c && (sn_epoch c =? pr_epoch p)) (pr_sent p);
  po_over : ∀ k c, pr_sent p !! k = Some c → sn_status c = Sn_Over → over_for_client p k c;
  po_before : ∀ k c j, pr_sent p !! k = Some c → j ∈ sn_before c →
    ∃ d, pr_sent p !! j = Some d ∧ settled_for (pr_world p) j d (sn_epoch c);
  po_turn : ∀ k c f j g, pr_sent p !! k = Some c → w_flights (pr_world p) !! k = Some f →
    j ∈ sn_before c → w_flights (pr_world p) !! j = Some g → runs g = true →
    waits_its_turn (pr_world p) f j }.

(** *** Steps of the server *)

Lemma phase_ended a e o p p' : phase_move a e o p p' →
  is_terminal p = true ∨ p = Abandoned → is_terminal p' = true ∨ p' = Abandoned.
Proof. destruct 1 as [| |? ?| |? ?| |]; intros [?|?]; simplify_eq/=; auto. Qed.

Lemma phase_begun a e o p p' : phase_move a e o p p' → (o = true → epoch a ≠ e) → o = true →
  is_active p' || bool_decide (p' = Finished) = true → is_active p || bool_decide (p = Finished) = true.
Proof.
  intros Hm Hne Ho Hb. destruct Hm as [| |q Hq|Hc|q Hq| |q Hq]; try done.
  - by destruct Hq as [-> | [-> | ->]].
  - by destruct (Hne Ho (Hc Ho)).
  - by destruct Hq as [-> | ->].
  - by rewrite Hq.
Qed.

(** Everything a step of the session does to one request. *)
Lemma step_flight w b w' k f' : reachable w → session_step w b w' → w_flights w' !! k = Some f' →
  epoch (s_att (w_st w)) ≤ epoch (s_att (w_st w')) ∧
  ((w_flights w !! k = None ∧ begun f' = false ∧ 1 ≤ f_epoch f' ≤ epoch (s_att (w_st w))
    ∧ f_behind f' = fence_set w (f_epoch f') (x_ordered (f_x f')))
   ∨ ∃ f, w_flights w !! k = Some f ∧ f_epoch f' = f_epoch f ∧ f_behind f' = f_behind f
       ∧ x_ordered (f_x f') = x_ordered (f_x f)
       ∧ phase_move (s_att (w_st w)) (f_epoch f) (x_ordered (f_x f)) (x_phase (f_x f)) (x_phase (f_x f'))).
Proof.
  intros Hr Hs Hk. destruct (reachable_effect w b w' Hr Hs) as
    [st u c He _ _ _ _|j f o fe Hj Hf Hok Hb|j f st g Hm|_]; simpl in *.
  - split; [lia|]. right. exists f'. repeat split; try done. apply pm_stay.
  - split; [lia|]. split_lookups.
    + left. pose proof (fenced_inactive _ _ _ _ _ Hf) as Ha. apply fencing_new in Hf as (Ho & _ & Hp & _).
      destruct Hok as [He _]. split; [done|]. split; [|split; [done|]].
      * unfold begun. rewrite Ha, Hp. by destruct (0 <? fe).
      * by rewrite Ho.
    + right. exists f'. repeat split; try done. apply pm_stay.
  - rewrite (mv_epoch _ _ _ _ _ _ Hm). split; [lia|]. right. split_lookups.
    + exists f. destruct Hm. by repeat split.
    + exists f'. repeat split; try done. apply pm_stay.
  - split; [lia|]. right. exists f'. repeat split; try done. apply pm_stay.
Qed.

Lemma step_keeps w b w' k f : reachable w → session_step w b w' → w_flights w !! k = Some f →
  is_Some (w_flights w' !! k).
Proof.
  intros Hr Hs Hk. destruct (reachable_effect w b w' Hr Hs) as
    [st u c He _ _ _ _|j g o fe Hj Hf Hok Hb|j g st g' Hm|_]; simpl in *; [by eexists| | |by eexists].
  all: destruct (decide (j = k)) as [->|]; [rewrite lookup_insert_eq; by eexists|].
  all: rewrite lookup_insert_ne by done; by eexists.
Qed.

Lemma step_epoch w b w' : reachable w → session_step w b w' →
  epoch (s_att (w_st w)) ≤ epoch (s_att (w_st w')).
Proof.
  intros Hr Hs. destruct (reachable_effect w b w' Hr Hs) as
    [st u c He _ _ _ _|j g o fe Hj Hf Hok Hb|j g st g' Hm|_]; simpl in *; try lia.
  rewrite (mv_epoch _ _ _ _ _ _ Hm). lia.
Qed.

Lemma ended_step p b w' k c : reachable (pr_world p) → session_step (pr_world p) b w' → decodes_sent p w' →
  pr_sent p !! k = Some c → ended (pr_world p) k c → ended w' k c.
Proof.
  intros Hr Hs Hd Hc. unfold ended. destruct (w_flights w' !! k) as [f'|] eqn:Hk.
  - destruct (step_flight _ _ _ _ _ Hr Hs Hk) as [_ [(Hn & _)|(f & Hf & _ & _ & _ & Hm)]].
    + rewrite Hn. intros Hg. specialize (Hd k f' Hn Hk). destruct (x_ordered (f_x f')); [|congruence].
      destruct Hd as (c' & Hc' & _ & Hg'). congruence.
    + rewrite Hf. by apply (phase_ended _ _ _ _ _ Hm).
  - destruct (w_flights (pr_world p) !! k) as [f|] eqn:Hf; [|done].
    destruct (step_keeps _ _ _ _ _ Hr Hs Hf). congruence.
Qed.

(** A change the session is past does not begin. *)
Lemma settled_never_begins p j d g e : pair_ok p → pr_sent p !! j = Some d →
  w_flights (pr_world p) !! j = Some g → settled_for (pr_world p) j d e → e ≤ server_epoch p →
  x_phase (f_x g) = Ready → server_epoch p ≠ f_epoch g.
Proof.
  intros Hp Hd Hg Hs He Hr. destruct (po_flight p Hp j d g Hd Hg) as [_ ->].
  destruct Hs as [Hs|[_ Hs]]; [lia|]. unfold ended in Hs. rewrite Hg, Hr in Hs. by destruct Hs.
Qed.

(** One that runs is among those a change decoded now is fenced behind. *)
Lemma settled_fenced p j d g e : pair_ok p → pr_sent p !! j = Some d →
  w_flights (pr_world p) !! j = Some g → settled_for (pr_world p) j d e → e = server_epoch p →
  runs g = true → j ∈ fence_set (pr_world p) e true.
Proof.
  intros Hp Hd Hg Hs -> Hr. destruct (po_flight p Hp j d g Hd Hg) as [Ho He].
  unfold fence_set. fold (server_epoch p). rewrite Z.eqb_refl. cbn [andb]. apply elem_of_dom. exists g.
  apply map_lookup_filter_Some. split; [done|]. cbn. unfold runs in Hr. unfold waits_for. rewrite Hr. cbn.
  rewrite He. destruct Hs as [Hs|[_ Hs]]; [apply orb_true_iff; left; lia|].
  unfold ended in Hs. rewrite Hg in Hs. unfold runs in Hr. apply andb_true_iff in Hr as [_ Ha].
  destruct Hs as [Hs|Hs]; [|by rewrite Hs, bool_decide_true, orb_true_r].
  by destruct (x_phase (f_x g)).
Qed.

Lemma server_turn p b w' k c f' j g' : pair_ok p → session_step (pr_world p) b w' → decodes_sent p w' →
  pr_sent p !! k = Some c → w_flights w' !! k = Some f' → j ∈ sn_before c →
  w_flights w' !! j = Some g' → runs g' = true → waits_its_turn w' f' j.
Proof.
  intros Hp Hs Hd Hc Hf' Hj Hg' Hrun. pose proof (po_world p Hp) as Hr.
  destruct (po_before p Hp k c j Hc Hj) as (d & Hsd & Hset).
  destruct (step_flight _ _ _ _ _ Hr Hs Hg') as [_ [(_ & Hb & _)|(g & Hg & _ & _ & Hog & Hmg)]].
  { unfold begun, runs in *. apply orb_false_iff in Hb as [Hb _]. by rewrite Hb, andb_false_r in Hrun. }
  destruct (po_flight p Hp j d g Hsd Hg) as [Ho Heg]. unfold runs in Hrun. rewrite Hog, Ho in Hrun. cbn in Hrun.
  assert (runs g = true ∨ x_phase (f_x g) = Ready ∧ server_epoch p = f_epoch g) as Hact.
  { unfold runs. rewrite Ho. destruct (phase_move_to_active _ _ _ _ _ Hmg Hrun) as [Ha|[Ha Hce]]; [by left|right].
    split; [done|]. by apply Hce. }
  destruct (step_flight _ _ _ _ _ Hr Hs Hf') as [Hep [(Hn & Hb & He & Hbh)|(f & Hf & Hef & Hbh & Hof & Hmf)]].
  - specialize (Hd k f' Hn Hf'). destruct (x_ordered (f_x f')); [|congruence].
    destruct Hd as (c' & Hc' & Hce & _). rewrite Hc in Hc'. injection Hc' as <-. rewrite Hce in Hset.
    destruct Hact as [Hact|[Hrd Hge]]; [|by destruct (settled_never_begins p j d g _ Hp Hsd Hg Hset (proj2 He) Hrd)].
    destruct (decide (f_epoch f' = server_epoch p)) as [Heq|Hne].
    + left. rewrite Hbh. by eapply settled_fenced.
    + right. unfold server_epoch in Hne. split; [lia|done].
  - destruct (po_flight p Hp k c f Hc Hf) as [Hok Hek].
    destruct (proj2 (reachable_ok _ Hr) k f Hf) as [[_ Hle] _]. rewrite <-Hek in Hset.
    destruct Hact as [Hact|[Hrd Hge]]; [|by destruct (settled_never_begins p j d g _ Hp Hsd Hg Hset Hle Hrd)].
    destruct (po_turn p Hp k c f j g Hc Hf Hj Hg Hact) as [Hin|[Hlt Hnb]]; [left; by rewrite Hbh|right].
    rewrite Hef. split; [lia|]. destruct (begun f') eqn:Hbf; [|done]. unfold begun in *.
    by rewrite (phase_begun _ _ _ _ _ Hmf ltac:(lia) Hok Hbf) in Hnb.
Qed.

Lemma server_ok p b w' : pair_ok p → session_step (pr_world p) b w' → decodes_sent p w' →
  pair_ok (with_world p w').
Proof.
  intros Hp Hs Hd. pose proof (po_world p Hp) as Hr. pose proof (step_epoch _ _ _ Hr Hs) as He.
  constructor; cbn; try apply Hp.
  - by eapply reachable_step.
  - pose proof (po_epoch p Hp). unfold server_epoch in *. cbn. lia.
  - intros k c f Hc Hf. destruct (step_flight _ _ _ _ _ Hr Hs Hf) as [_ [(Hn & _)|(g & Hg & -> & _ & -> & _)]].
    + specialize (Hd k f Hn Hf). destruct (x_ordered (f_x f)); [|congruence].
      destruct Hd as (c' & Hc' & He' & _). split; [done|congruence].
    + by apply (po_flight p Hp k c).
  - intros k c Hc Ho. destruct (po_over p Hp k c Hc Ho) as [?|?]; [left; by eapply ended_step|by right].
  - intros k c j Hc Hj. destruct (po_before p Hp k c j Hc Hj) as (d & Hsd & Hset). exists d. split; [done|].
    destruct Hset as [?|[? ?]]; [by left|right]. split; [done|]. by eapply ended_step.
  - intros. by eapply server_turn.
Qed.

(** *** Steps of the client *)

Lemma ended_gone w k c c' : (sn_gone c = true → sn_gone c' = true) → ended w k c → ended w k c'.
Proof. unfold ended. by destruct (w_flights w !! k). Qed.

(** A change moves on, of the same epoch and order. *)
Lemma moved_ok p k c c' conn' : pair_ok p → pr_sent p !! k = Some c →
  sn_epoch c' = sn_epoch c → sn_before c' = sn_before c → (sn_gone c = true → sn_gone c' = true) →
  (pr_conn p = None → conn' = None) →
  (∀ a, conn' = Some a → at_cancels a
     = map_count (λ c, is_given_up c && (sn_epoch c =? pr_epoch p)) (<[k := c']> (pr_sent p))) →
  (sn_status c' = Sn_Over → sn_status c = Sn_Over ∨ over_for_client p k c) →
  pair_ok (MkPair (pr_world p) (<[k := c']> (pr_sent p)) conn' (pr_epoch p)).
Proof.
  intros Hp Hc He Hb Hg Hn Hk Ho.
  assert (∀ j d, <[k := c']> (pr_sent p) !! j = Some d → ∃ d0, pr_sent p !! j = Some d0
            ∧ sn_epoch d = sn_epoch d0 ∧ sn_before d = sn_before d0 ∧ (sn_gone d0 = true → sn_gone d = true)
            ∧ (sn_status d = Sn_Over → over_for_client p j d0)) as Hold.
  { intros j d Hj. apply lookup_insert_Some in Hj as [[<- <-]|[_ Hj]].
    - exists c. split_and!; try done. intros Hov. destruct (Ho Hov); [|done]. by apply (po_over p Hp).
    - exists d. split_and!; try done. by apply (po_over p Hp). }
  constructor; cbn; try apply Hp; try done.
  - intros j d Hj. destruct (Hold j d Hj) as (d0 & H0 & -> & _). by apply (po_sent p Hp j).
  - intros j d f Hj. destruct (Hold j d Hj) as (d0 & H0 & -> & _). by apply (po_flight p Hp).
  - intros j d Hj Hov. destruct (Hold j d Hj) as (d0 & H0 & He0 & _ & Hg0 & Ho0).
    destruct (Ho0 Hov) as [Hend|[Hlt|Hno]].
    + left. by eapply ended_gone.
    + right; left. cbn. lia.
    + right; right. by apply Hn.
  - intros j d i Hj Hi. destruct (Hold j d Hj) as (d0 & H0 & -> & Hb0 & _). rewrite Hb0 in Hi.
    destruct (po_before p Hp j d0 i H0 Hi) as (d1 & H1 & Hset).
    destruct (decide (i = k)) as [->|Hne]; [|exists d1; by rewrite lookup_insert_ne].
    exists c'. rewrite lookup_insert_eq. split; [done|]. rewrite Hc in H1. injection H1 as <-.
    unfold settled_for in *. rewrite He. destruct Hset as [?|[? ?]]; [by left|right]. split; [done|].
    by eapply ended_gone.
  - intros j d f i g Hj Hf Hi. destruct (Hold j d Hj) as (d0 & H0 & _ & Hb0 & _). rewrite Hb0 in Hi.
    by apply (po_turn p Hp j d0 f i g H0 Hf Hi).
Qed.

(** A change is written. *)
Lemma sent_ok p k a before : pair_ok p → pr_conn p = Some a →
  pr_sent p !! k = None → w_flights (pr_world p) !! k = None →
  (∀ j, j ∈ before → ∃ d, pr_sent p !! j = Some d ∧ settled_for (pr_world p) j d (pr_epoch p)) →
  pair_ok (with_sent p k (MkSent (pr_epoch p) Sn_Waiting false before)).
Proof.
  intros Hp Ha Hk Hf Hb.
  assert (∀ j d, pr_sent p !! j = Some d → j ≠ k) as Hne by congruence.
  constructor; cbn; try apply Hp.
  - intros j d Hj. apply lookup_insert_Some in Hj as [[<- <-]|[_ Hj]]; [done|]. by apply (po_sent p Hp j).
  - intros j d f Hj Hfj. apply lookup_insert_Some in Hj as [[<- <-]|[_ Hj]]; [congruence|]. by apply (po_flight p Hp j).
  - intros a' Ha'. rewrite map_count_insert_None by done. rewrite (po_cancels p Hp a' Ha'). unfold is_given_up. cbn. lia.
  - intros j d Hj Ho. apply lookup_insert_Some in Hj as [[<- <-]|[_ Hj]]; [done|]. by apply (po_over p Hp).
  - intros j d i Hj Hi. assert (∃ d', pr_sent p !! i = Some d' ∧ settled_for (pr_world p) i d' (sn_epoch d)) as (d' & Hd' & Hs).
    { apply lookup_insert_Some in Hj as [[<- <-]|[_ Hj]]; [by apply Hb|]. by apply (po_before p Hp j). }
    exists d'. split; [|done]. rewrite lookup_insert_ne; [done|]. intros ->. by destruct (Hne _ _ Hd').
  - intros j d f i g Hj Hfj. apply lookup_insert_Some in Hj as [[<- <-]|[_ Hj]]; [congruence|]. by apply (po_turn p Hp j d).
Qed.

Lemma may_send_clear a : may_send a → at_cancels a = 0.
Proof.
  intros [(c & Hc & Hs)|(t & fh & Hs)].
  - unfold sendable in Hs. destruct (takes c a); [|done]. rewrite Hc in Hs. cbn in Hs.
    destruct (Z.eqb_spec (at_cancels a) 0); [done|done].
  - unfold owed_sendable in Hs. destruct (at_published a); [|by apply elem_of_nil in Hs].
    destruct (Z.eqb_spec (at_cancels a) 0); [done|]. by apply elem_of_nil in Hs.
Qed.

(** With no cancel pending, what has ended for the client is settled. *)
Lemma clear_settles p a j d : pair_ok p → pr_conn p = Some a → at_cancels a = 0 →
  pr_sent p !! j = Some d → is_waiting d = false → settled_for (pr_world p) j d (pr_epoch p).
Proof.
  intros Hp Ha H0 Hd Hw. pose proof (po_sent p Hp j d Hd) as Hle.
  destruct (decide (sn_epoch d = pr_epoch p)) as [He|]; [|left; lia].
  destruct (sn_status d) eqn:Hs; [unfold is_waiting in Hw; by rewrite Hs in Hw| |].
  - rewrite (po_cancels p Hp a Ha) in H0. apply (map_count_zero_inv _ _ j d) in H0; [|done].
    unfold is_given_up in H0. rewrite Hs in H0. cbn in H0. lia.
  - right. split; [done|]. destruct (po_over p Hp j d Hd Hs) as [?|[?|?]]; [done|lia|congruence].
Qed.

Lemma connect_ok p e generation : pair_ok p → pr_conn p = None → pr_epoch p < e ≤ server_epoch p →
  pair_ok (MkPair (pr_world p) (pr_sent p) (Some (AttachedState_new generation)) e).
Proof.
  intros Hp Hn He. constructor; cbn; try apply Hp; try done.
  - unfold server_epoch in *. cbn. lia.
  - intros k c Hc. pose proof (po_sent p Hp k c Hc). lia.
  - intros a [= <-]. cbn. symmetry. unfold map_count. apply map_sum_zero. intros k c Hc.
    pose proof (po_sent p Hp k c Hc). replace (sn_epoch c =? e) with false by lia. by rewrite andb_false_r.
  - intros k c Hc Ho. right; left. cbn. pose proof (po_sent p Hp k c Hc). lia.
Qed.

(** Only the connection changes, with its pending cancels. *)
Lemma conn_ok p conn' : pair_ok p → (pr_conn p = None → conn' = None) →
  (∀ a', conn' = Some a' → ∃ a, pr_conn p = Some a ∧ at_cancels a' = at_cancels a) → pair_ok (with_conn p conn').
Proof.
  intros Hp Hn Hc. constructor; cbn; try apply Hp.
  - intros a' Ha'. destruct (Hc a' Ha') as (a & Ha & ->). by apply (po_cancels p Hp).
  - intros k c Hk Ho. destruct (po_over p Hp k c Hk Ho) as [?|[?|?]]; [by left|by right; left|right; right; by apply Hn].
Qed.

(** The pending cancels after a change of status. *)
Lemma recount_ok p k c s f n a : pair_ok p → pr_sent p !! k = Some c → recount p c f = Some a →
  (∀ a, at_cancels (f a) = at_cancels a + n) →
  b2z (is_given_up (sent_status c s)) = b2z (is_given_up c) + n →
  at_cancels a = map_count (λ c, is_given_up c && (sn_epoch c =? pr_epoch p)) (<[k := sent_status c s]> (pr_sent p)).
Proof.
  intros Hp Hc Hr Hf Hn. rewrite (map_count_insert_Some _ _ _ _ _ Hc). cbn. unfold recount in Hr.
  destruct (Z.eqb_spec (sn_epoch c) (pr_epoch p)).
  - apply fmap_Some in Hr as (a0 & Ha0 & ->). rewrite Hf, (po_cancels p Hp a0 Ha0), !andb_true_r. lia.
  - rewrite !andb_false_r. cbn. rewrite (po_cancels p Hp a Hr). lia.
Qed.

Lemma recount_none p c f : pr_conn p = None → recount p c f = None.
Proof. intros Hn. unfold recount. rewrite Hn. by destruct (_ =? _). Qed.

Lemma pair_step_ok p p' : pair_step p p' → pair_ok p → pair_ok p'.
Proof.
  intros Hs Hp. destruct Hs as [b w' Hs Hd|k c Hc Hf|e g Hn He|a Ha| |k a Ha Hm Hk Hf|k a Ha Hu Hk Hf
    |k c call Hc Hst Hch Hin|k c Hc Hst Hov|k c Hc Hst Hov].
  - by eapply server_ok.
  - apply (moved_ok p k c); try done; [|by left]. intros a Ha. rewrite (map_count_insert_Some _ _ _ _ _ Hc).
    rewrite (po_cancels p Hp a Ha). unfold is_given_up. cbn. lia.
  - by apply connect_ok.
  - apply conn_ok; [done|congruence|]. intros a' [= <-]. by exists a.
  - by apply conn_ok.
  - apply (sent_ok p k a); [done..|]. intros j [d Hj]%elem_of_dom. apply map_lookup_filter_Some in Hj as [Hj Hw].
    exists d. split; [done|]. eapply clear_settles; [done|done|by apply may_send_clear|done|done].
  - apply (sent_ok p k a); [done..|]. intros j Hj. set_solver.
  - assert ((gave_up call true).2 = true) as ->.
    { unfold gave_up, counts_give_up. cbn. by rewrite Hin, Hch. }
    apply (moved_ok p k c); try done; [by apply recount_none|].
    intros a Ha. eapply (recount_ok p k c Sn_GivenUp CancelPending_count 1); try done.
    unfold is_given_up. by rewrite Hst.
  - apply (moved_ok p k c); try done; [by apply recount_none| |by right].
    intros a Ha. eapply (recount_ok p k c Sn_Over CancelPending_drop (-1)); try done.
    unfold is_given_up. by rewrite Hst.
  - apply (moved_ok p k c); try done; [|by right].
    intros a Ha. rewrite (map_count_insert_Some _ _ _ _ _ Hc), (po_cancels p Hp a Ha). unfold is_given_up.
    rewrite Hst. cbn. lia.
Qed.

Lemma pair_reachable_ok p : pair_reachable p → pair_ok p.
Proof.
  intros (id & token & share & g & Hr). assert (pair_ok (pair_new id token share g)) as H0.
  { constructor; cbn; try done; try (intros *; by rewrite lookup_empty).
    - apply reachable_new.
    - by intros a [= <-]. }
  induction Hr as [|p1 p2 p3 Hs _ IH]; [done|]. apply IH. by eapply pair_step_ok.
Qed.

(** *** Order *)

Lemma pair_keeps p p' k c f : pair_ok p → rtc pair_step p p' → pr_sent p !! k = Some c →
  w_flights (pr_world p) !! k = Some f → begun f = true →
  ∃ c' f', pr_sent p' !! k = Some c' ∧ sn_before c' = sn_before c
    ∧ w_flights (pr_world p') !! k = Some f' ∧ begun f' = true.
Proof.
  intros Hp Hr. revert c f Hp. induction Hr as [p|p p1 p' Hs _ IH]; intros c f Hp Hc Hf Hb; [by exists c, f|].
  assert (∃ c1 f1, pr_sent p1 !! k = Some c1 ∧ sn_before c1 = sn_before c
            ∧ w_flights (pr_world p1) !! k = Some f1 ∧ begun f1 = true) as (c1 & f1 & Hc1 & <- & Hf1 & Hb1);
    [|apply (IH c1 f1); [by eapply pair_step_ok|done..]].
  destruct Hs as [b w' Hs Hd|j d Hj Hn|e g Hn He|a Ha| |j a Ha Hm Hj Hn|j a Ha Hu Hj Hn
    |j d call Hj Hst Hch Hin|j d Hj Hst Hov|j d Hj Hst Hov]; cbn.
  1: { destruct (step_keeps _ _ _ _ _ (po_world p Hp) Hs Hf) as [f1 Hf1]. exists c, f1. split_and!; try done.
       destruct (step_flight _ _ _ _ _ (po_world p Hp) Hs Hf1) as [_ [(Hn & _)|(f0 & Hf0 & _ & _ & _ & Hm)]]; [congruence|].
       rewrite Hf in Hf0. injection Hf0 as <-. unfold begun in *.
       destruct Hm as [| |? ?| |? ?| |]; simplify_eq/=; try done. }
  all: try (by exists c, f).
  all: destruct (decide (j = k)) as [->|]; [rewrite lookup_insert_eq|rewrite lookup_insert_ne by done; by exists c, f].
  all: rewrite ?Hc in Hj; simplify_eq; try (eexists _, f; by split_and!).
Qed.

(** C1: The order a client's program sees is the order its changes are run in, across
    give-ups and lost connections.  When a change is sent after another had ended for
    the client (answered, failed, or given up on without an answer), then once it has
    begun the other does not run, and never will again: it has finished, or it never
    begins.  This is of every schedule of the two ends, with answers and streams
    delayed as long as may be, and connections lost and resumed at any point. *)
Theorem changes_keep_their_order p p' k c f j g :
  pair_reachable p → rtc pair_step p p' → pr_sent p !! k = Some c → j ∈ sn_before c →
  w_flights (pr_world p) !! k = Some f → begun f = true →
  w_flights (pr_world p') !! j = Some g → runs g = false.
Proof.
  intros Hr Hs Hc Hj Hf Hb Hg. apply pair_reachable_ok in Hr as Hp.
  destruct (pair_keeps p p' k c f Hp Hs Hc Hf Hb) as (c' & f' & Hc' & Hbef & Hf' & Hb'). rewrite <-Hbef in Hj.
  assert (pair_ok p') as Hp'. { clear - Hp Hs. induction Hs; [done|]. by eauto using pair_step_ok. }
  destruct (runs g) eqn:Hrun; [|done]. exfalso.
  destruct (po_turn p' Hp' k c' f' j g Hc' Hf' Hj Hg Hrun) as [Hin|[_ Hn]]; [|congruence].
  destruct (po_flight p' Hp' k c' f' Hc' Hf') as [Ho _].
  destruct (reachable_behind _ (po_world p' Hp') k f' Hf' Ho) as [Hpast _].
  destruct Hpast with j as (g' & Hg' & Hfin); [|done|].
  - unfold begun in Hb'. by destruct (x_phase (f_x f')).
  - rewrite Hg in Hg'. injection Hg' as <-. unfold runs in Hrun. by rewrite Hfin, andb_false_r in Hrun.
Qed.

(** *** A run

    The first change is given up on while it runs; the second, sent when the server has
    answered that, is held until the first has finished, and begins. *)

Lemma decodes_none p w' : w_flights w' = w_flights (pr_world p) → decodes_sent p w'.
Proof. intros Hw k f' Hn Hf. rewrite Hw in Hf. congruence. Qed.

Lemma decodes_move p w' j f g : w_flights w' = <[j := g]> (w_flights (pr_world p)) →
  w_flights (pr_world p) !! j = Some f → decodes_sent p w'.
Proof. intros Hw Hj k f' Hn Hf. rewrite Hw in Hf. apply lookup_insert_Some in Hf as [[<- _]|[_ Hf]]; congruence. Qed.

Lemma decodes_change p w' j f c : w_flights w' = <[j := f]> (w_flights (pr_world p)) →
  x_ordered (f_x f) = true → pr_sent p !! j = Some c → sn_epoch c = f_epoch f → sn_gone c = false →
  decodes_sent p w'.
Proof.
  intros Hw Ho Hc He Hg k f' Hn Hf. rewrite Hw in Hf. apply lookup_insert_Some in Hf as [[<- <-]|[_ Hf]]; [|congruence].
  rewrite Ho. by exists c.
Qed.

Definition demo_flight (p : PhaseExchange) (held : bool) (t : Task) (cancel : bool) (behind : gset Z) : Flight :=
  MkFlight 1 (MkExchange true p held) t cancel behind.
Definition demo_ordered : Pair :=
  MkPair
    (MkWorld (MkSession 7 [] (Handles_new 4) (MkAtt 1 None None 1 0 0) 1)
       {[ 1 := demo_flight Finished false Returned true ∅; 2 := demo_flight Running true Guarded false {[1]} ]} 0 ∅)
    {[ 1 := MkSent 1 Sn_Over false ∅; 2 := MkSent 1 Sn_Waiting false {[1]} ]}
    (Some (MkAttached 1 0 true)) 1.

Definition demo_call : CallState := MkCall true false false 0 1 (Call_InFlight 1).

Lemma demo_may_send : may_send (MkAttached 1 0 true).
Proof. left. by exists (CallState_new true false). Qed.

(** A step to a state that is evaluated before the next. *)
Lemma step_to (p q q' r : Pair) : pair_step p q → q = q' → rtc pair_step q' r → rtc pair_step p r.
Proof. intros Hs <- Hr. by eapply rtc_l. Qed.

Ltac goes tac := eapply step_to; [tac|vm_compute; reflexivity|].
Ltac accepts := goes ltac:(eapply ps_server; [eapply ss_accept|by apply decodes_none]).
Ltac serves tac := goes ltac:(eapply ps_server;
  [tac; vm_compute; reflexivity|eapply decodes_move; [reflexivity|vm_compute; reflexivity]]).
Ltac decodes k := goes ltac:(eapply ps_server;
  [eapply (ss_decode _ k 1 true); vm_compute; first [reflexivity|split; discriminate]
  |eapply (decodes_change _ _ k); [reflexivity|vm_compute; reflexivity..]]).
Ltac sends k := goes ltac:(eapply (ps_send _ k); [reflexivity|apply demo_may_send|reflexivity..]).

Lemma demo_ordered_reachable : pair_reachable demo_ordered.
Proof.
  exists 7, [], 4, 1. goes ltac:(by eapply ps_publish).
  sends 1. accepts. decodes 1. serves ltac:(eapply (ss_begin _ 1)).
  goes ltac:(eapply (ps_give_up _ 1 _ demo_call); reflexivity).
  serves ltac:(eapply (ss_cancel _ 1); [| | |right; left|]).
  goes ltac:(eapply (ps_settled _ 1); [reflexivity..|left; right; reflexivity]).
  sends 2. accepts. decodes 2. serves ltac:(eapply (ss_finish _ 1)).
  serves ltac:(eapply (ss_drain _ 2)). serves ltac:(eapply (ss_begin _ 2)). apply rtc_refl.
Qed.

Lemma changes_keep_their_order_witness : runs (demo_flight Finished false Returned true ∅) = false.
Proof.
  eapply (changes_keep_their_order demo_ordered demo_ordered 2 _ _ 1 (demo_flight Finished false Returned true ∅)
           demo_ordered_reachable (rtc_refl _ _)); reflexivity.
Defined.
