(* ===== verification/Control.v ===== *)
(** * The control protocol ([crates/proto/src/control.rs])

    What [jackalopefs-ctl] asks a process over its local socket, and what comes back:
    the messages, what a selection selects, and their conversions to and from the
    schema ([crates/proto/schema/control.capnp]), in the manner of [Wire.v].  A text is
    the string of its bytes. *)

From S2P Require Import Prelude Types Msg Wire.
From Stdlib Require Import Strings.Byte.

(** ** Messages *)

Inductive Names := Names_None | Names_All | Names_Some (names : list string).

Definition Names_has (ns : Names) (name : string) : bool :=
  match ns with
  | Names_None => false
  | Names_All => true
  | Names_Some names => existsb (String.eqb name) names
  end.
Definition Names_is_none (ns : Names) : bool := match ns with Names_None => true | _ => false end.

Record Selection := MkSelection {
  sel_events : Names;
  sel_ops : Names;
  sel_frames : bool;
  sel_every : Z;
  sel_payloads : bool }.

Inductive Ask := Ask_Counters | Ask_Subscribe (selection : Selection) | Ask_Census | Ask_Handles.

Record ControlRequest := MkControlRequest { cr_revision : Z; cr_ask : Ask }.

Record Bucket := MkBucket { bk_upper : Z; bk_count : Z }.

Record TotalOp := MkTotalOp {
  to_level : string; to_op : string; to_count : Z; to_bytes : Z; to_items : Z; to_errors : Z;
  to_total_ns : Z; to_latency : list Bucket; to_sizes : list Bucket }.

Record Resources := MkResources {
  rs_user_ns : Z; rs_sys_ns : Z; rs_voluntary : Z; rs_involuntary : Z; rs_workers : Z;
  rs_busy_ns : Z; rs_parks : Z }.

Record HandlesTotals := MkHandlesTotals { htt_files : Z; htt_dirs : Z }.

Record Counters := MkCounters {
  cn_side : string; cn_pid : Z; cn_describe : string; cn_uptime_ns : Z; cn_inflight : Z;
  cn_events : list (string * Z); cn_ops : list TotalOp; cn_resources : Resources;
  cn_handles : HandlesTotals }.

Record HandlesProcess := MkHandlesProcess {
  hp_pid : Z; hp_name : string; hp_files : Z; hp_dirs : Z; hp_within : string }.

Inductive StateSession := SS_Attached | SS_Detached | SS_Dropped.

Record HandlesSession := MkHandlesSession {
  hse_session : Z; hse_remote : string; hse_state : StateSession; hse_files : Z; hse_dirs : Z }.

Definition HANDLES_ROWS_MAX : nat := 256.

Inductive Handles := Handles_Processes (rows : list HandlesProcess) | Handles_Sessions (rows : list HandlesSession).

Record Ids := MkIds {
  id_session : option Z; id_conn : option Z; id_stream : option Z; id_unique : option Z;
  id_op : option string }.

Record Summary := MkSummary {
  su_level : string; su_ids : Ids; su_fh : option Z; su_offset : option Z; su_size : option Z;
  su_ino : option Z; su_pid : option Z; su_bytes : Z; su_items : Z; su_errno : Z;
  su_phases : list (string * Z); su_total_ns : Z }.

Record Exchange := MkExchange {
  xc_side : string; xc_ids : Ids; xc_every : Z; xc_request : list byte; xc_request_elided : Z;
  xc_reply : list byte; xc_reply_elided : Z; xc_outcome : string; xc_elapsed_ns : Z }.

Record CensusOp := MkCensusOp { co_op : string; co_seen : Z; co_sampled : Z; co_dropped : Z }.

Record Header := MkHeader {
  hd_proto_revision : Z; hd_control_revision : Z; hd_side : string; hd_pid : Z;
  hd_describe : string; hd_selection : Selection }.

Inductive Happened :=
| Hap_Event (name : string) (ids : Ids) (detail : string)
| Hap_Request (summary : Summary)
| Hap_Dropped (n : Z)
| Hap_Exchange (x : Exchange)
| Hap_Undecodable (side : string) (ids : Ids) (error : string) (body : list byte)
| Hap_EventFrame (side : string) (ids : Ids) (every seq : Z) (body : list byte)
| Hap_Header (h : Header)
| Hap_Census (ops : list CensusOp) (dropped : Z).

Record Record_ := MkRecord { rc_at_ns : Z; rc_what : Happened }.

Inductive ControlReply :=
| CR_Counters (c : Counters)
| CR_Record (r : Record_)
| CR_Refused (why : string)
| CR_Handles (h : Handles).

(** Bits of a [present] field, for optional numbers. *)
Fixpoint present_from (i : Z) (values : list (option Z)) : Z :=
  match values with
  | [] => 0
  | v :: rest => Z.lor (match v with Some _ => Z.shiftl 1 i | None => 0 end) (present_from (i + 1) rest)
  end.
Definition present (values : list (option Z)) : Z := present_from 0 values.
Definition optional (p bit value : Z) : option Z :=
  if negb (Z.land p (Z.shiftl 1 bit) =? 0) then Some value else None.

(** ** The schema *)

Section schema.
Context {CE : Type}.

Inductive names_W := WN_None | WN_All | WN_Some (names : ptr CE (data_list CE)).
Definition names_R : Type := which names_W.

Record selection_R := MkSelection_R {
  ws_events : ptr CE names_R; ws_ops : ptr CE names_R; ws_frames : bool; ws_every : Z; ws_payloads : bool }.

Record ids_R := MkIds_R {
  wi_present : Z; wi_session : Z; wi_conn : Z; wi_stream : Z; wi_unique : Z; wi_op : ptr CE data }.

Inductive ask_W := WA_Counters | WA_Subscribe (s : ptr CE selection_R) | WA_Census | WA_Handles.
Record control_request_R := MkControlRequest_R { wc_revision : Z; wc_ask : which ask_W }.

(** [Count] and [Phase]: a name and a number. *)
Record named_R := MkNamed_R { wn_name : ptr CE data; wn_value : Z }.
Record census_op_R := MkCensusOp_R { wo_op : ptr CE data; wo_seen : Z; wo_sampled : Z; wo_dropped : Z }.

Record summary_R := MkSummary_R {
  wq_level : ptr CE data; wq_ids : ptr CE ids_R; wq_present : Z; wq_fh : Z; wq_offset : Z; wq_size : Z;
  wq_ino : Z; wq_pid : Z; wq_bytes : Z; wq_items : Z; wq_errno : Z;
  wq_phases : ptr CE (list named_R); wq_total_ns : Z }.
Record exchange_R := MkExchange_R {
  wx_side : ptr CE data; wx_ids : ptr CE ids_R; wx_every : Z; wx_request : ptr CE data;
  wx_request_elided : Z; wx_reply : ptr CE data; wx_reply_elided : Z; wx_outcome : ptr CE data;
  wx_elapsed_ns : Z }.
Record header_R := MkHeader_R {
  wh_proto_revision : Z; wh_control_revision : Z; wh_side : ptr CE data; wh_pid : Z;
  wh_describe : ptr CE data; wh_selection : ptr CE selection_R }.

Inductive happened_W :=
| WH_Event (name : ptr CE data) (ids : ptr CE ids_R) (detail : ptr CE data)
| WH_Request (q : summary_R)
| WH_Dropped (n : Z)
| WH_Exchange (x : exchange_R)
| WH_Undecodable (side : ptr CE data) (ids : ptr CE ids_R) (error body : ptr CE data)
| WH_EventFrame (side : ptr CE data) (ids : ptr CE ids_R) (every seq : Z) (body : ptr CE data)
| WH_Header (h : header_R)
| WH_Census (ops : ptr CE (list census_op_R)) (dropped : Z).
Record record_R := MkRecord_R { wr_at_ns : Z; wr_what : which happened_W }.

Record bucket_R := MkBucket_R { wb_upper : Z; wb_count : Z }.
Record total_op_R := MkTotalOp_R {
  wt_level : ptr CE data; wt_op : ptr CE data; wt_count : Z; wt_bytes : Z; wt_items : Z; wt_errors : Z;
  wt_total_ns : Z; wt_latency : ptr CE (list bucket_R); wt_sizes : ptr CE (list bucket_R) }.
Record resources_R := MkResources_R {
  wrs_user_ns : Z; wrs_sys_ns : Z; wrs_voluntary : Z; wrs_involuntary : Z; wrs_workers : Z;
  wrs_busy_ns : Z; wrs_parks : Z }.
Record totals_R := MkTotals_R { wtt_files : Z; wtt_dirs : Z }.
Record counters_R := MkCounters_R {
  wcn_side : ptr CE data; wcn_pid : Z; wcn_describe : ptr CE data; wcn_uptime_ns : Z; wcn_inflight : Z;
  wcn_events : ptr CE (list named_R); wcn_ops : ptr CE (list total_op_R);
  wcn_resources : ptr CE resources_R; wcn_handles : ptr CE totals_R }.

Record handles_process_R := MkHandlesProcess_R {
  whp_pid : Z; whp_name : ptr CE data; whp_files : Z; whp_dirs : Z; whp_within : ptr CE data }.
Inductive state_session_W := WS_Attached | WS_Detached | WS_Dropped.
Record handles_session_R := MkHandlesSession_R {
  whs_session : Z; whs_remote : ptr CE data; whs_state : which state_session_W; whs_files : Z; whs_dirs : Z }.
Inductive handles_W :=
| WHa_Processes (rows : ptr CE (list handles_process_R))
| WHa_Sessions (rows : ptr CE (list handles_session_R)).
Definition handles_R : Type := which handles_W.

Inductive control_reply_W :=
| WR_Counters (c : ptr CE counters_R)
| WR_Record (r : ptr CE record_R)
| WR_Refused (why : ptr CE data)
| WR_Handles (h : ptr CE handles_R).
Definition control_reply_R : Type := which control_reply_W.

End schema.

#[global] Arguments names_R CE : clear implicits.
#[global] Arguments selection_R CE : clear implicits.
#[global] Arguments ids_R CE : clear implicits.
#[global] Arguments control_request_R CE : clear implicits.
#[global] Arguments named_R CE : clear implicits.
#[global] Arguments census_op_R CE : clear implicits.
#[global] Arguments summary_R CE : clear implicits.
#[global] Arguments exchange_R CE : clear implicits.
#[global] Arguments header_R CE : clear implicits.
#[global] Arguments record_R CE : clear implicits.
#[global] Arguments total_op_R CE : clear implicits.
#[global] Arguments counters_R CE : clear implicits.
#[global] Arguments handles_process_R CE : clear implicits.
#[global] Arguments handles_session_R CE : clear implicits.
#[global] Arguments handles_R CE : clear implicits.
#[global] Arguments control_reply_R CE : clear implicits.
#[global] Arguments control_reply_W CE : clear implicits.
#[global] Arguments happened_W CE : clear implicits.

(** ** Conversions *)

Section convert.
Context {CE : Type}.
Notation res := (result (ErrorDecode CE)).

Definition text (p : ptr CE data) : res string :=
  b ← got p;
  if utf8_valid b then Ok (String.string_of_list_byte b) else Err (ED_Invalid Inv_NotUtf8).
(** A builder's text, and its bytes. *)
Definition set_text (s : string) : ptr CE data := Ok (String.list_byte_of_string s).
Definition set_data (b : list byte) : ptr CE data := Ok b.

(** A list of structs read element by element. *)
Definition each {A B} (f : A → res B) (p : ptr CE (list A)) : res (list B) := l ← got p; mapM f l.

Definition build_names (ns : Names) : names_R CE :=
  Ok match ns with
     | Names_None => WN_None
     | Names_All => WN_All
     | Names_Some l => WN_Some (Ok (set_text <$> l))
     end.
Definition parse_names (r : names_R CE) : res Names :=
  w ← known r;
  match w with
  | WN_None => Ok Names_None
  | WN_All => Ok Names_All
  | WN_Some l => l ← got l; l ← mapM text l; Ok (Names_Some l)
  end.

Definition build_selection (s : Selection) : selection_R CE :=
  MkSelection_R (Ok (build_names (sel_events s))) (Ok (build_names (sel_ops s)))
    (sel_frames s) (sel_every s) (sel_payloads s).
Definition parse_selection (r : selection_R CE) : res Selection :=
  e ← got (ws_events r); events ← parse_names e;
  o ← got (ws_ops r); ops ← parse_names o;
  Ok (MkSelection events ops (ws_frames r) (ws_every r) (ws_payloads r)).

Definition build_ids (i : Ids) : ids_R CE :=
  MkIds_R (present [id_session i; id_conn i; id_stream i; id_unique i])
    (default 0 (id_session i)) (default 0 (id_conn i)) (default 0 (id_stream i)) (default 0 (id_unique i))
    (set_text (default EmptyString (id_op i))).
Definition parse_ids (r : ids_R CE) : res Ids :=
  op ← text (wi_op r);
  Ok (MkIds (optional (wi_present r) 0 (wi_session r)) (optional (wi_present r) 1 (wi_conn r))
        (optional (wi_present r) 2 (wi_stream r)) (optional (wi_present r) 3 (wi_unique r))
        (if bool_decide (op = EmptyString) then None else Some op)).

Definition ControlRequest_build (r : ControlRequest) : control_request_R CE :=
  MkControlRequest_R (cr_revision r)
    (Ok match cr_ask r with
        | Ask_Counters => WA_Counters
        | Ask_Subscribe s => WA_Subscribe (Ok (build_selection s))
        | Ask_Census => WA_Census
        | Ask_Handles => WA_Handles
        end).
Definition ControlRequest_parse (message_words : Z) (root : ptr CE (control_request_R CE)) : res ControlRequest :=
  r ← got root;
  w ← known (wc_ask r);
  ask ← match w with
        | WA_Counters => Ok Ask_Counters
        | WA_Subscribe s => s ← got s; s ← parse_selection s; Ok (Ask_Subscribe s)
        | WA_Census => Ok Ask_Census
        | WA_Handles => Ok Ask_Handles
        end;
  Ok (MkControlRequest (wc_revision r) ask).
Definition ControlRequest_size_hint (r : ControlRequest) : Z := 64.

Definition build_named (nv : string * Z) : named_R CE := MkNamed_R (set_text nv.1) nv.2.
Definition parse_named (r : named_R CE) : res (string * Z) := name ← text (wn_name r); Ok (name, wn_value r).

Definition build_census_op (o : CensusOp) : census_op_R CE :=
  MkCensusOp_R (set_text (co_op o)) (co_seen o) (co_sampled o) (co_dropped o).
Definition parse_census_op (r : census_op_R CE) : res CensusOp :=
  op ← text (wo_op r); Ok (MkCensusOp op (wo_seen r) (wo_sampled r) (wo_dropped r)).

Definition build_summary (s : Summary) : summary_R CE :=
  MkSummary_R (set_text (su_level s)) (Ok (build_ids (su_ids s)))
    (present [su_fh s; su_offset s; su_size s; su_ino s; su_pid s])
    (default 0 (su_fh s)) (default 0 (su_offset s)) (default 0 (su_size s)) (default 0 (su_ino s))
    (default 0 (su_pid s)) (su_bytes s) (su_items s) (su_errno s)
    (Ok (build_named <$> su_phases s)) (su_total_ns s).
Definition parse_summary (q : summary_R CE) : res Summary :=
  level ← text (wq_level q);
  i ← got (wq_ids q); ids ← parse_ids i;
  phases ← each parse_named (wq_phases q);
  Ok (MkSummary level ids (optional (wq_present q) 0 (wq_fh q)) (optional (wq_present q) 1 (wq_offset q))
        (optional (wq_present q) 2 (wq_size q)) (optional (wq_present q) 3 (wq_ino q))
        (as_u32 <$> optional (wq_present q) 4 (wq_pid q)) (wq_bytes q) (wq_items q) (wq_errno q)
        phases (wq_total_ns q)).

Definition build_exchange (x : Exchange) : exchange_R CE :=
  MkExchange_R (set_text (xc_side x)) (Ok (build_ids (xc_ids x))) (xc_every x) (set_data (xc_request x))
    (xc_request_elided x) (set_data (xc_reply x)) (xc_reply_elided x) (set_text (xc_outcome x)) (xc_elapsed_ns x).
Definition parse_exchange (e : exchange_R CE) : res Exchange :=
  side ← text (wx_side e);
  i ← got (wx_ids e); ids ← parse_ids i;
  request ← got (wx_request e);
  reply ← got (wx_reply e);
  outcome ← text (wx_outcome e);
  Ok (MkExchange side ids (wx_every e) request (wx_request_elided e) reply (wx_reply_elided e) outcome
        (wx_elapsed_ns e)).

Definition build_header (h : Header) : header_R CE :=
  MkHeader_R (hd_proto_revision h) (hd_control_revision h) (set_text (hd_side h)) (hd_pid h)
    (set_text (hd_describe h)) (Ok (build_selection (hd_selection h))).
Definition parse_header (h : header_R CE) : res Header :=
  side ← text (wh_side h);
  describe ← text (wh_describe h);
  s ← got (wh_selection h); selection ← parse_selection s;
  Ok (MkHeader (wh_proto_revision h) (wh_control_revision h) side (wh_pid h) describe selection).

Definition build_record (r : Record_) : record_R CE :=
  MkRecord_R (rc_at_ns r)
    (Ok match rc_what r with
        | Hap_Event name ids detail => WH_Event (set_text name) (Ok (build_ids ids)) (set_text detail)
        | Hap_Request s => WH_Request (build_summary s)
        | Hap_Dropped n => WH_Dropped n
        | Hap_Exchange x => WH_Exchange (build_exchange x)
        | Hap_Undecodable side ids error body =>
            WH_Undecodable (set_text side) (Ok (build_ids ids)) (set_text error) (set_data body)
        | Hap_EventFrame side ids every seq body =>
            WH_EventFrame (set_text side) (Ok (build_ids ids)) every seq (set_data body)
        | Hap_Header h => WH_Header (build_header h)
        | Hap_Census ops dropped => WH_Census (Ok (build_census_op <$> ops)) dropped
        end).
Definition parse_record (r : record_R CE) : res Record_ :=
  w ← known (wr_what r);
  what ← match w with
         | WH_Event name ids detail =>
             name ← text name; i ← got ids; ids ← parse_ids i; detail ← text detail;
             Ok (Hap_Event name ids detail)
         | WH_Request q => s ← parse_summary q; Ok (Hap_Request s)
         | WH_Dropped n => Ok (Hap_Dropped n)
         | WH_Exchange e => x ← parse_exchange e; Ok (Hap_Exchange x)
         | WH_Undecodable side ids error body =>
             side ← text side; i ← got ids; ids ← parse_ids i; error ← text error; body ← got body;
             Ok (Hap_Undecodable side ids error body)
         | WH_EventFrame side ids every seq body =>
             side ← text side; i ← got ids; ids ← parse_ids i; body ← got body;
             Ok (Hap_EventFrame side ids every seq body)
         | WH_Header h => h ← parse_header h; Ok (Hap_Header h)
         | WH_Census ops dropped => ops ← each parse_census_op ops; Ok (Hap_Census ops dropped)
         end;
  Ok (MkRecord (wr_at_ns r) what).

Definition build_buckets (bs : list Bucket) : list bucket_R := (λ b, MkBucket_R (bk_upper b) (bk_count b)) <$> bs.
Definition parse_buckets (l : list bucket_R) : list Bucket := (λ b, MkBucket (wb_upper b) (wb_count b)) <$> l.

Definition build_total (t : TotalOp) : total_op_R CE :=
  MkTotalOp_R (set_text (to_level t)) (set_text (to_op t)) (to_count t) (to_bytes t) (to_items t) (to_errors t)
    (to_total_ns t) (Ok (build_buckets (to_latency t))) (Ok (build_buckets (to_sizes t))).
Definition parse_total (o : total_op_R CE) : res TotalOp :=
  level ← text (wt_level o);
  op ← text (wt_op o);
  latency ← got (wt_latency o);
  sizes ← got (wt_sizes o);
  Ok (MkTotalOp level op (wt_count o) (wt_bytes o) (wt_items o) (wt_errors o) (wt_total_ns o)
        (parse_buckets latency) (parse_buckets sizes)).

Definition build_resources (r : Resources) : resources_R :=
  MkResources_R (rs_user_ns r) (rs_sys_ns r) (rs_voluntary r) (rs_involuntary r) (rs_workers r)
    (rs_busy_ns r) (rs_parks r).
Definition parse_resources (r : resources_R) : Resources :=
  MkResources (wrs_user_ns r) (wrs_sys_ns r) (wrs_voluntary r) (wrs_involuntary r) (wrs_workers r)
    (wrs_busy_ns r) (wrs_parks r).

Definition build_counters (c : Counters) : counters_R CE :=
  MkCounters_R (set_text (cn_side c)) (cn_pid c) (set_text (cn_describe c)) (cn_uptime_ns c) (cn_inflight c)
    (Ok (build_named <$> cn_events c)) (Ok (build_total <$> cn_ops c)) (Ok (build_resources (cn_resources c)))
    (Ok (MkTotals_R (htt_files (cn_handles c)) (htt_dirs (cn_handles c)))).
Definition parse_counters (c : counters_R CE) : res Counters :=
  side ← text (wcn_side c);
  describe ← text (wcn_describe c);
  events ← each parse_named (wcn_events c);
  ops ← each parse_total (wcn_ops c);
  r ← got (wcn_resources c);
  h ← got (wcn_handles c);
  Ok (MkCounters side (wcn_pid c) describe (wcn_uptime_ns c) (wcn_inflight c) events ops
        (parse_resources r) (MkHandlesTotals (wtt_files h) (wtt_dirs h))).

Definition build_process (r : HandlesProcess) : handles_process_R CE :=
  MkHandlesProcess_R (hp_pid r) (set_text (hp_name r)) (hp_files r) (hp_dirs r) (set_text (hp_within r)).
Definition parse_process (r : handles_process_R CE) : res HandlesProcess :=
  name ← text (whp_name r);
  within ← text (whp_within r);
  Ok (MkHandlesProcess (whp_pid r) name (whp_files r) (whp_dirs r) within).

Definition state_to_wire (s : StateSession) : state_session_W :=
  match s with SS_Attached => WS_Attached | SS_Detached => WS_Detached | SS_Dropped => WS_Dropped end.
Definition state_from_wire (s : state_session_W) : StateSession :=
  match s with WS_Attached => SS_Attached | WS_Detached => SS_Detached | WS_Dropped => SS_Dropped end.

Definition build_session (r : HandlesSession) : handles_session_R CE :=
  MkHandlesSession_R (hse_session r) (set_text (hse_remote r)) (Ok (state_to_wire (hse_state r)))
    (hse_files r) (hse_dirs r).
Definition parse_session (r : handles_session_R CE) : res HandlesSession :=
  remote ← text (whs_remote r);
  state ← known (whs_state r);
  Ok (MkHandlesSession (whs_session r) remote (state_from_wire state) (whs_files r) (whs_dirs r)).

Definition build_handles (h : Handles) : handles_R CE :=
  Ok match h with
     | Handles_Processes rows => WHa_Processes (Ok (build_process <$> rows))
     | Handles_Sessions rows => WHa_Sessions (Ok (build_session <$> rows))
     end.
Definition parse_handles (r : handles_R CE) : res Handles :=
  w ← known r;
  match w with
  | WHa_Processes rows => rows ← each parse_process rows; Ok (Handles_Processes rows)
  | WHa_Sessions rows => rows ← each parse_session rows; Ok (Handles_Sessions rows)
  end.

Definition ControlReply_build (r : ControlReply) : control_reply_R CE :=
  Ok match r with
     | CR_Counters c => WR_Counters (Ok (build_counters c))
     | CR_Record r => WR_Record (Ok (build_record r))
     | CR_Refused why => WR_Refused (set_text why)
     | CR_Handles h => WR_Handles (Ok (build_handles h))
     end.
Definition ControlReply_parse (message_words : Z) (root : ptr CE (control_reply_R CE)) : res ControlReply :=
  r ← got root;
  w ← known r;
  match w with
  | WR_Counters c => c ← got c; c ← parse_counters c; Ok (CR_Counters c)
  | WR_Record r => r ← got r; r ← parse_record r; Ok (CR_Record r)
  | WR_Refused why => why ← text why; Ok (CR_Refused why)
  | WR_Handles h => h ← got h; h ← parse_handles h; Ok (CR_Handles h)
  end.

Definition len_s (s : string) : Z := len_z (String.list_byte_of_string s).

Definition ControlReply_size_hint (r : ControlReply) : Z :=
  match r with
  | CR_Counters c =>
      48 + 8 * as_u32 (len_z (cn_events c)
                       + sum_z (λ t, 6 + 2 * (len_z (to_latency t) + len_z (to_sizes t))) (cn_ops c))
  | CR_Record (MkRecord _ (Hap_Event _ _ detail)) => 32 + as_u32 (len_s detail / 8)
  | CR_Record (MkRecord _ (Hap_Exchange x)) => 48 + as_u32 ((len_z (xc_request x) + len_z (xc_reply x)) / 8)
  | CR_Record (MkRecord _ (Hap_Undecodable _ _ _ body)) | CR_Record (MkRecord _ (Hap_EventFrame _ _ _ _ body)) =>
      32 + as_u32 (len_z body / 8)
  | CR_Handles (Handles_Processes rows) =>
      16 + sum_z (λ r, 8 + as_u32 (len_s (hp_name r) + len_s (hp_within r)) / 8) rows
  | CR_Handles (Handles_Sessions rows) => 16 + sum_z (λ r, 8 + as_u32 (len_s (hse_remote r)) / 8) rows
  | _ => 64
  end.

#[export] Instance ControlRequest_Message : Message CE ControlRequest (control_request_R CE) :=
  {| build := ControlRequest_build; parse := ControlRequest_parse; size_hint := ControlRequest_size_hint |}.
#[export] Instance ControlReply_Message : Message CE ControlReply (control_reply_R CE) :=
  {| build := ControlReply_build; parse := ControlReply_parse; size_hint := ControlReply_size_hint |}.
End convert.

(** ** What is well formed

    A Rust [String] is UTF-8.  An operation's name is not empty: an empty one stands for
    none on the wire. *)

Definition text_wf (s : string) : Prop := utf8_valid (String.list_byte_of_string s) = true.
Definition names_wf (ns : Names) : Prop := match ns with Names_Some l => Forall text_wf l | _ => True end.
Definition selection_wf (s : Selection) : Prop := names_wf (sel_events s) ∧ names_wf (sel_ops s).
Definition ids_wf (i : Ids) : Prop := ∀ op, id_op i = Some op → text_wf op ∧ op ≠ EmptyString.
Definition named_wf (nv : string * Z) : Prop := text_wf nv.1.
Definition request_ask_wf (r : ControlRequest) : Prop :=
  match cr_ask r with Ask_Subscribe s => selection_wf s | _ => True end.
Definition summary_wf (s : Summary) : Prop :=
  text_wf (su_level s) ∧ ids_wf (su_ids s) ∧ (∀ pid, su_pid s = Some pid → 0 <= pid < 2 ^ 32)
  ∧ Forall named_wf (su_phases s).
Definition happened_wf (w : Happened) : Prop :=
  match w with
  | Hap_Event name ids detail => text_wf name ∧ ids_wf ids ∧ text_wf detail
  | Hap_Request s => summary_wf s
  | Hap_Dropped _ => True
  | Hap_Exchange x => text_wf (xc_side x) ∧ ids_wf (xc_ids x) ∧ text_wf (xc_outcome x)
  | Hap_Undecodable side ids error _ => text_wf side ∧ ids_wf ids ∧ text_wf error
  | Hap_EventFrame side ids _ _ _ => text_wf side ∧ ids_wf ids
  | Hap_Header h => text_wf (hd_side h) ∧ text_wf (hd_describe h) ∧ selection_wf (hd_selection h)
  | Hap_Census ops _ => Forall (λ o, text_wf (co_op o)) ops
  end.
Definition total_wf (t : TotalOp) : Prop := text_wf (to_level t) ∧ text_wf (to_op t).
Definition counters_wf (c : Counters) : Prop :=
  text_wf (cn_side c) ∧ text_wf (cn_describe c) ∧ Forall named_wf (cn_events c) ∧ Forall total_wf (cn_ops c).
Definition process_wf (r : HandlesProcess) : Prop := text_wf (hp_name r) ∧ text_wf (hp_within r).
Definition handles_wf (h : Handles) : Prop :=
  match h with
  | Handles_Processes rows => Forall process_wf rows
  | Handles_Sessions rows => Forall (λ r, text_wf (hse_remote r)) rows
  end.
Definition reply_wf (r : ControlReply) : Prop :=
  match r with
  | CR_Counters c => counters_wf c
  | CR_Record r => happened_wf (rc_what r)
  | CR_Refused why => text_wf why
  | CR_Handles h => handles_wf h
  end.

(** ** Laws *)

Section laws.
Context {CE : Type}.

Lemma text_set s : text_wf s → text (CE:=CE) (set_text s) = Ok s.
Proof. intros Hs. unfold text, set_text. cbn. by rewrite Hs, String.string_of_list_byte_of_string. Qed.
Lemma text_parsed p s : text (CE:=CE) p = Ok s → text_wf s.
Proof.
  unfold text, text_wf. intros H. binds. destruct (utf8_valid _) eqn:Hu; [|done]. binds.
  by rewrite String.list_byte_of_string_of_list_byte.
Qed.

Lemma each_build {A B} (f : A → result (ErrorDecode CE) B) g (wf : B → Prop) l :
  (∀ b, wf b → f (g b) = Ok b) → Forall wf l → each f (Ok (g <$> l)) = Ok l.
Proof. intros Hf Hl. apply mapM_Ok. intros b Hb. apply Hf. rewrite Forall_forall in Hl. by apply Hl. Qed.
Lemma each_parsed {A B} (f : A → result (ErrorDecode CE) B) (wf : B → Prop) p l :
  (∀ a b, f a = Ok b → wf b) → each f p = Ok l → Forall wf l.
Proof. intros Hf H. unfold each in H. binds. by eapply mapM_Forall. Qed.

(** A bit of [present] tells whether the number is there. *)
Lemma optional_present4 a b c d :
  let p := present [a; b; c; d] in
  optional p 0 (default 0 a) = a ∧ optional p 1 (default 0 b) = b ∧ optional p 2 (default 0 c) = c
  ∧ optional p 3 (default 0 d) = d.
Proof. by destruct a, b, c, d. Qed.
Lemma optional_present5 a b c d e :
  let p := present [a; b; c; d; e] in
  optional p 0 (default 0 a) = a ∧ optional p 1 (default 0 b) = b ∧ optional p 2 (default 0 c) = c
  ∧ optional p 3 (default 0 d) = d ∧ optional p 4 (default 0 e) = e.
Proof. by destruct a, b, c, d, e. Qed.

Lemma names_build ns : names_wf ns → parse_names (CE:=CE) (build_names ns) = Ok ns.
Proof.
  destruct ns as [| |l]; cbn; try done. intros Hl. rewrite (mapM_Ok text set_text); [done|].
  intros s Hs. apply text_set. rewrite Forall_forall in Hl. by apply Hl.
Qed.
Lemma names_parsed r ns : parse_names (CE:=CE) r = Ok ns → names_wf ns.
Proof.
  unfold parse_names. intros H. binds. case_match; binds; try done. cbn.
  eapply mapM_Forall; [|eassumption]. apply text_parsed.
Qed.

Lemma selection_build s : selection_wf s → parse_selection (CE:=CE) (build_selection s) = Ok s.
Proof.
  intros [He Ho]. unfold parse_selection, build_selection. cbn -[parse_names build_names].
  rewrite !names_build by done. by destruct s.
Qed.
Lemma selection_parsed r s : parse_selection (CE:=CE) r = Ok s → selection_wf s.
Proof. unfold parse_selection. intros H. binds. split; cbn; by eapply names_parsed. Qed.

Lemma ids_build i : ids_wf i → parse_ids (CE:=CE) (build_ids i) = Ok i.
Proof.
  intros Hi. unfold parse_ids, build_ids. cbn -[present text set_text].
  destruct (optional_present4 (id_session i) (id_conn i) (id_stream i) (id_unique i)) as (-> & -> & -> & ->).
  destruct i as [s c st u [op|]]; cbn -[text set_text].
  - destruct (Hi op eq_refl) as [Ht Hn]. rewrite text_set by done. cbn. by rewrite bool_decide_false.
  - done.
Qed.
Lemma ids_parsed r i : parse_ids (CE:=CE) r = Ok i → ids_wf i.
Proof.
  unfold parse_ids. intros H. binds. intros op Hop. cbn in Hop. case_bool_decide; [done|]. simplify_eq.
  split; [by eapply text_parsed|done].
Qed.

Lemma named_build nv : named_wf nv → parse_named (CE:=CE) (build_named nv) = Ok nv.
Proof. intros H. unfold parse_named, build_named. cbn -[text set_text]. rewrite text_set by done. by destruct nv. Qed.
Lemma named_parsed r nv : parse_named (CE:=CE) r = Ok nv → named_wf nv.
Proof. unfold parse_named. intros H. binds. by eapply text_parsed. Qed.

Lemma summary_build s : summary_wf s → parse_summary (CE:=CE) (build_summary s) = Ok s.
Proof.
  intros (Hl & Hi & Hp & Hph). unfold parse_summary, build_summary.
  cbn -[present text set_text parse_ids build_ids each].
  rewrite text_set, ids_build by done. cbn -[present text set_text parse_ids build_ids each].
  rewrite (each_build _ _ named_wf) by (done || apply named_build). cbn -[present].
  destruct (optional_present5 (su_fh s) (su_offset s) (su_size s) (su_ino s) (su_pid s)) as (-> & -> & -> & -> & ->).
  destruct s as [l i f o sz ino [pid|] b it er ph t]; cbn in *; [|done].
  unfold as_u32. rewrite Z.mod_small by (by apply Hp). done.
Qed.
Lemma summary_parsed r s : parse_summary (CE:=CE) r = Ok s → summary_wf s.
Proof.
  unfold parse_summary. intros H. binds. split; [by eapply text_parsed|split; [by eapply ids_parsed|split]]; cbn.
  - intros pid Hpid. apply fmap_Some in Hpid as (z & _ & ->). unfold as_u32. apply Z.mod_pos_bound. done.
  - eapply each_parsed; [|eassumption]. apply named_parsed.
Qed.

Lemma census_build o : text_wf (co_op o) → parse_census_op (CE:=CE) (build_census_op o) = Ok o.
Proof.
  intros H. unfold parse_census_op, build_census_op. cbn -[text set_text]. rewrite text_set by done. by destruct o.
Qed.
Lemma census_parsed r o : parse_census_op (CE:=CE) r = Ok o → text_wf (co_op o).
Proof. unfold parse_census_op. intros H. binds. by eapply text_parsed. Qed.

Lemma buckets_build bs : parse_buckets (build_buckets bs) = bs.
Proof. induction bs as [|[u c] bs IH]; [done|]. cbn. by rewrite <-IH at 2. Qed.

Lemma total_build t : total_wf t → parse_total (CE:=CE) (build_total t) = Ok t.
Proof.
  intros [Hl Ho]. unfold parse_total, build_total. cbn -[text set_text].
  rewrite !text_set by done. cbn. rewrite !buckets_build. by destruct t.
Qed.
Lemma total_parsed r t : parse_total (CE:=CE) r = Ok t → total_wf t.
Proof. unfold parse_total. intros H. binds. split; by eapply text_parsed. Qed.

Lemma counters_build c : counters_wf c → parse_counters (CE:=CE) (build_counters c) = Ok c.
Proof.
  intros (Hs & Hd & He & Ho). unfold parse_counters, build_counters. cbn -[text set_text each].
  rewrite !text_set by done. cbn -[text set_text each].
  rewrite (each_build _ _ named_wf) by (done || apply named_build). cbn -[each].
  rewrite (each_build _ _ total_wf) by (done || apply total_build). cbn.
  by destruct c as [? ? ? ? ? ? ? [] []].
Qed.
Lemma counters_parsed r c : parse_counters (CE:=CE) r = Ok c → counters_wf c.
Proof.
  unfold parse_counters. intros H. binds.
  split; [by eapply text_parsed|split; [by eapply text_parsed|split]]; cbn; (eapply each_parsed; [|eassumption]).
  - apply named_parsed.
  - apply total_parsed.
Qed.

Lemma process_build r : process_wf r → parse_process (CE:=CE) (build_process r) = Ok r.
Proof.
  intros [Hn Hw]. unfold parse_process, build_process. cbn -[text set_text]. rewrite !text_set by done. by destruct r.
Qed.
Lemma process_parsed r p : parse_process (CE:=CE) r = Ok p → process_wf p.
Proof. unfold parse_process. intros H. binds. split; by eapply text_parsed. Qed.

Lemma session_build r : text_wf (hse_remote r) → parse_session (CE:=CE) (build_session r) = Ok r.
Proof.
  intros H. unfold parse_session, build_session. cbn -[text set_text]. rewrite text_set by done.
  by destruct r as [? ? [] ? ?].
Qed.
Lemma session_parsed r s : parse_session (CE:=CE) r = Ok s → text_wf (hse_remote s).
Proof. unfold parse_session. intros H. binds. by eapply text_parsed. Qed.

Lemma handles_build h : handles_wf h → parse_handles (CE:=CE) (build_handles h) = Ok h.
Proof.
  destruct h as [rows|rows]; intros H; unfold parse_handles, build_handles; cbn -[each].
  - rewrite (each_build _ _ process_wf) by (done || apply process_build). done.
  - rewrite (each_build _ _ (λ r, text_wf (hse_remote r))) by (done || apply session_build). done.
Qed.
Lemma handles_parsed r h : parse_handles (CE:=CE) r = Ok h → handles_wf h.
Proof.
  unfold parse_handles. intros H. binds. case_match; binds; cbn; (eapply each_parsed; [|eassumption]).
  - apply process_parsed.
  - apply session_parsed.
Qed.

Ltac built := repeat first [rewrite text_set by done | rewrite ids_build by done | progress cbn -[text set_text parse_ids build_ids each parse_summary build_summary parse_header parse_exchange]].

Lemma record_build r : happened_wf (rc_what r) → parse_record (CE:=CE) (build_record r) = Ok r.
Proof.
  destruct r as [t w]. unfold parse_record, build_record. intros H. cbn in H.
  destruct w as [name ids detail|s|n|x|side ids error body|side ids every seq body|h|ops dropped]; cbn in H;
    cbn -[text set_text parse_ids build_ids each parse_summary build_summary parse_header build_header parse_exchange build_exchange].
  - destruct H as (? & ? & ?). by built.
  - by rewrite summary_build.
  - done.
  - destruct H as (? & ? & ?). unfold parse_exchange, build_exchange. built. by destruct x.
  - destruct H as (? & ? & ?). by built.
  - destruct H as (? & ?). by built.
  - destruct H as (? & ? & ?). unfold parse_header, build_header.
    cbn -[text set_text parse_selection build_selection]. rewrite !text_set by done.
    cbn -[text set_text parse_selection build_selection]. rewrite selection_build by done. by destruct h.
  - rewrite (each_build _ _ (λ o, text_wf (co_op o))) by (done || apply census_build). done.
Qed.

Lemma record_parsed r rec : parse_record (CE:=CE) r = Ok rec → happened_wf (rc_what rec).
Proof.
  unfold parse_record. intros H. binds. cbn.
  match goal with w : happened_W CE |- _ => destruct w end; binds; cbn [happened_wf rc_what];
    try (by eapply summary_parsed); try done.
  all: unfold parse_exchange, parse_header in *; binds; cbn [xc_side xc_ids xc_outcome hd_side hd_describe hd_selection].
  all: try (split_and!; by eauto using text_parsed, ids_parsed, selection_parsed).
  eapply each_parsed; [|eassumption]. apply census_parsed.
Qed.

Lemma ControlRequest_parse_wf words root r :
  ControlRequest_parse (CE:=CE) words root = Ok r → request_ask_wf r.
Proof.
  unfold ControlRequest_parse, request_ask_wf. intros H. binds. cbn.
  match goal with w : ask_W |- _ => destruct w end; binds; try done. by eapply selection_parsed.
Qed.
Lemma ControlRequest_parse_build words r : request_ask_wf r →
  ControlRequest_parse (CE:=CE) words (Ok (ControlRequest_build r)) = Ok r.
Proof.
  destruct r as [rev [|s| |]]; intros H; try done. unfold ControlRequest_parse, ControlRequest_build.
  cbn -[parse_selection build_selection]. by rewrite selection_build.
Qed.

Lemma ControlReply_parse_wf words root r : ControlReply_parse (CE:=CE) words root = Ok r → reply_wf r.
Proof.
  unfold ControlReply_parse. intros H. binds.
  match goal with w : control_reply_W CE |- _ => destruct w end; binds; cbn;
    eauto using counters_parsed, record_parsed, text_parsed, handles_parsed.
Qed.
Lemma ControlReply_parse_build words r : reply_wf r →
  ControlReply_parse (CE:=CE) words (Ok (ControlReply_build r)) = Ok r.
Proof.
  destruct r as [c|r|why|h]; intros H; cbn in H; unfold ControlReply_parse, ControlReply_build;
    cbn -[parse_counters build_counters parse_record build_record text set_text parse_handles build_handles].
  - by rewrite counters_build.
  - by rewrite record_build.
  - by rewrite text_set.
  - by rewrite handles_build.
Qed.

#[export] Instance ControlRequest_laws : MessageLaws CE ControlRequest (control_request_R CE) :=
  {| wf := request_ask_wf; elements := λ _, 0; parse_wf := ControlRequest_parse_wf;
     parse_build := λ words m Hm _, ControlRequest_parse_build words m Hm |}.
#[export] Instance ControlReply_laws : MessageLaws CE ControlReply (control_reply_R CE) :=
  {| wf := reply_wf; elements := λ _, 0; parse_wf := ControlReply_parse_wf;
     parse_build := λ words m Hm _, ControlReply_parse_build words m Hm |}.
End laws.

(** ** Properties *)

(** The control protocol's messages round-trip.  A request to a process, and a reply of
    it (counters, handles, a refusal, or a record of any kind), is read back from the
    schema as it was built, optional numbers, lists and all, when its texts are texts
    and its operation's name is not empty; and nothing else is ever read: whatever
    parses is such a message. *)
Theorem control_messages_round_trip {CE} words :
  (∀ r, request_ask_wf r → ControlRequest_parse (CE:=CE) words (Ok (ControlRequest_build r)) = Ok r)
  ∧ (∀ r, reply_wf r → ControlReply_parse (CE:=CE) words (Ok (ControlReply_build r)) = Ok r)
  ∧ (∀ root r, ControlRequest_parse (CE:=CE) words root = Ok r → request_ask_wf r)
  ∧ (∀ root r, ControlReply_parse (CE:=CE) words root = Ok r → reply_wf r).
Proof.
  split_and!.
  - intros r. apply ControlRequest_parse_build.
  - intros r. apply ControlReply_parse_build.
  - intros root r. apply ControlRequest_parse_wf.
  - intros root r. apply ControlReply_parse_wf.
Qed.

Definition demo_ids : Ids := MkIds (Some 7) None (Some 4) None (Some "read"%string).
Definition demo_reply : ControlReply :=
  CR_Record (MkRecord 5 (Hap_Request
    (MkSummary "request" demo_ids (Some 9) (Some 0) None None (Some 1234) 3 0 0 [("op"%string, 250)] 300))).

Lemma control_messages_round_trip_witness :
  ControlReply_parse (CE:=unit) 100 (Ok (ControlReply_build demo_reply)) = Ok demo_reply.
Proof.
  apply (proj1 (proj2 (control_messages_round_trip (CE:=unit) 100))).
  cbn. split; [reflexivity|split; [|split]].
  - intros op [= <-]. split; [reflexivity|discriminate].
  - intros pid [= <-]. cbn. lia.
  - apply Forall_cons_2; [reflexivity|apply Forall_nil_2].
Defined.
