(* ===== verification/Text.v ===== *)
(** * Texts

    What the program uses of the standard library's [str] when it reads the texts the
    kernel gives it ([/proc], [/sys]): a text is its UTF-8 bytes.  [trim] and
    [split_whitespace] go by Unicode's white space, so a space of two or three bytes is
    one too. *)

From S2P Require Import Prelude Revision.

Definition text : Type := list byte.
Definition lit (s : string) : text := String.list_byte_of_string s.

Definition newline : byte := Byte.x0a.
Definition return_ : byte := Byte.x0d.

(** ** Lines *)

(** [str::lines]: a line ends with a newline, or with a return and a newline; the last
    may have none, and is then kept as it is. *)
Definition strip_return (line_rev : text) : text :=
  match line_rev with
  | b :: l => rev (if bool_decide (b = return_) then l else line_rev)
  | [] => []
  end.
Fixpoint lines_from (line_rev : text) (t : text) : list text :=
  match t with
  | [] => match line_rev with [] => [] | _ => [rev line_rev] end
  | b :: t => if bool_decide (b = newline) then strip_return line_rev :: lines_from [] t else lines_from (b :: line_rev) t
  end.
Definition lines (t : text) : list text := lines_from [] t.

(** [Iterator::find_map]. *)
Fixpoint find_map {A B} (f : A → option B) (l : list A) : option B :=
  match l with [] => None | a :: l => match f a with Some b => Some b | None => find_map f l end end.

(** ** White space *)

Definition ws1 (a : byte) : bool := let a := byte_z a in (9 <=? a) && (a <=? 13) || (a =? 32).
Definition ws2 (a b : byte) : bool := (byte_z a =? 0xc2) && ((byte_z b =? 0x85) || (byte_z b =? 0xa0)).
Definition ws3 (a b c : byte) : bool :=
  let '(a, b, c) := (byte_z a, byte_z b, byte_z c) in
  (a =? 0xe1) && (b =? 0x9a) && (c =? 0x80)
  || (a =? 0xe2) && (b =? 0x80) && ((0x80 <=? c) && (c <=? 0x8a) || (c =? 0xa8) || (c =? 0xa9) || (c =? 0xaf))
  || (a =? 0xe2) && (b =? 0x81) && (c =? 0x9f)
  || (a =? 0xe3) && (b =? 0x80) && (c =? 0x80).

Fixpoint trim_start (t : text) : text :=
  match t with
  | a :: ((b :: ((c :: t3) as t2)) as t1) =>
      if ws1 a then trim_start t1 else if ws2 a b then trim_start t2 else if ws3 a b c then trim_start t3 else t
  | a :: ((b :: t2) as t1) => if ws1 a then trim_start t1 else if ws2 a b then trim_start t2 else t
  | a :: t1 => if ws1 a then trim_start t1 else t
  | [] => []
  end.
(** From the end: the text backwards. *)
Fixpoint trim_rev (t : text) : text :=
  match t with
  | a :: ((b :: ((c :: t3) as t2)) as t1) =>
      if ws1 a then trim_rev t1 else if ws2 b a then trim_rev t2 else if ws3 c b a then trim_rev t3 else t
  | a :: ((b :: t2) as t1) => if ws1 a then trim_rev t1 else if ws2 b a then trim_rev t2 else t
  | a :: t1 => if ws1 a then trim_rev t1 else t
  | [] => []
  end.
Definition trim (t : text) : text := rev (trim_rev (rev (trim_start t))).
(** [trim_end_matches('\n')]. *)
Definition trim_newlines (t : text) : text :=
  rev ((fix go l := match l with b :: l' => if bool_decide (b = newline) then go l' else l | [] => [] end) (rev t)).

(** [str::split_whitespace]. *)
Definition word (rev_word : text) : list text := match rev_word with [] => [] | _ => [rev rev_word] end.
Fixpoint words_from (w : text) (t : text) : list text :=
  match t with
  | a :: ((b :: ((c :: t3) as t2)) as t1) =>
      if ws1 a then word w ++ words_from [] t1 else if ws2 a b then word w ++ words_from [] t2
      else if ws3 a b c then word w ++ words_from [] t3 else words_from (a :: w) t1
  | a :: ((b :: t2) as t1) =>
      if ws1 a then word w ++ words_from [] t1 else if ws2 a b then word w ++ words_from [] t2 else words_from (a :: w) t1
  | a :: t1 => if ws1 a then word w ++ words_from [] t1 else words_from (a :: w) t1
  | [] => word w
  end.
Definition split_whitespace (t : text) : list text := words_from [] t.

(** [str::split_once] and [str::rsplit_once] of one character. *)
Fixpoint split_once (c : byte) (t : text) : option (text * text) :=
  match t with
  | [] => None
  | b :: t => if bool_decide (b = c) then Some ([], t)
              else match split_once c t with Some (l, r) => Some (b :: l, r) | None => None end
  end.
Definition rsplit_once (c : byte) (t : text) : option (text * text) :=
  match split_once c (rev t) with Some (r, l) => Some (rev l, rev r) | None => None end.

(** ** Numbers *)

Definition digit_of (radix : Z) (b : byte) : option Z :=
  match to_digit16 b with Some d => if d <? radix then Some d else None | None => None end.

Fixpoint digits (radix max acc : Z) (t : text) : option Z :=
  match t with
  | [] => Some acc
  | b :: t => match digit_of radix b with
              | Some d => let acc := acc * radix + d in if acc <=? max then digits radix max acc t else None
              | None => None
              end
  end.
(** [from_str_radix] of an unsigned type whose largest value is [max]; a plus sign is
    taken, a sign alone is not a number. *)
Definition from_str_radix (radix max : Z) (t : text) : option Z :=
  match t with
  | [] => None
  | [b] => digits radix max 0 [b]
  | b :: t' => if bool_decide (b = plus) then digits radix max 0 t' else digits radix max 0 t
  end.
Definition u128_max : Z := 2 ^ 128 - 1.
Definition parse_u32 (t : text) : option Z := from_str_radix 10 u32_max t.
Definition parse_u64 (t : text) : option Z := from_str_radix 10 u64_max t.

(** ** What reads back *)

Fixpoint hex_text (width : nat) (n : Z) : text :=
  match width with O => [] | S w => hex_text w (n / 16) ++ [hex_digit (n mod 16)] end.

Definition hex_digit_ok (d : Z) : bool :=
  bool_decide (digit_of 16 (hex_digit d) = Some d) && (33 <=? byte_z (hex_digit d)) && (byte_z (hex_digit d) <=? 126)
  && negb (bool_decide (hex_digit d = plus)).
Lemma hex_digit_fine d : 0 <= d < 16 → hex_digit_ok d = true.
Proof.
  intros Hd. assert (forallb hex_digit_ok (seqZ 0 16) = true) as Hall by (vm_compute; reflexivity).
  rewrite forallb_forall in Hall. apply Hall. apply list_elem_of_In, elem_of_seqZ. lia.
Qed.
Lemma hex_digit_reads d : 0 <= d < 16 → digit_of 16 (hex_digit d) = Some d.
Proof.
  intros Hd%hex_digit_fine. unfold hex_digit_ok in Hd. rewrite !andb_true_iff in Hd.
  destruct Hd as [[[Hd _] _] _]. by apply bool_decide_eq_true in Hd.
Qed.

Lemma digits_app radix max t1 t2 : ∀ acc,
  digits radix max acc (t1 ++ t2)
  = match digits radix max acc t1 with Some acc => digits radix max acc t2 | None => None end.
Proof. induction t1 as [|b t1 IH]; intros acc; cbn; [done|]. destruct (digit_of radix b); [|done]. by case_match. Qed.

Lemma digits_hex max w : ∀ n acc, 0 <= n < 16 ^ Z.of_nat w → 0 <= acc → acc * 16 ^ Z.of_nat w + n <= max →
  digits 16 max acc (hex_text w n) = Some (acc * 16 ^ Z.of_nat w + n).
Proof.
  induction w as [|w IH]; intros n acc Hn Hacc Hmax.
  { cbn in *. f_equal. lia. }
  rewrite Nat2Z.inj_succ, Z.pow_succ_r in * by lia. cbn [hex_text].
  pose proof (Z.div_mod n 16) as Hdm. pose proof (Z.mod_pos_bound n 16) as Hmb.
  rewrite digits_app, IH; [|split; [apply Z.div_pos; lia|apply Z.div_lt_upper_bound; lia]|lia|lia].
  cbn [digits]. rewrite hex_digit_reads by lia.
  replace ((acc * 16 ^ Z.of_nat w + n / 16) * 16 + n mod 16) with (acc * (16 * 16 ^ Z.of_nat w) + n) by lia.
  by replace (_ <=? max) with true by lia.
Qed.

Lemma hex_text_length w : ∀ n, length (hex_text w n) = w.
Proof. induction w as [|w IH]; intros n; cbn; [done|]. rewrite length_app, IH. cbn. lia. Qed.

(** A printing character of ASCII other than the space. *)
Definition graphic (b : byte) : bool := (33 <=? byte_z b) && (byte_z b <=? 126).

Lemma hex_digit_graphic d : 0 <= d < 16 → graphic (hex_digit d) = true ∧ hex_digit d ≠ plus.
Proof.
  intros Hd%hex_digit_fine. unfold hex_digit_ok, graphic in *. rewrite !andb_true_iff, negb_true_iff in *.
  destruct Hd as [[[_ H1] H2] H3]. by apply bool_decide_eq_false in H3.
Qed.
Lemma hex_text_all w (P : byte → Prop) : (∀ d, 0 <= d < 16 → P (hex_digit d)) → ∀ n, Forall P (hex_text w n).
Proof.
  intros HP. induction w as [|w IH]; intros n; cbn; [constructor|].
  apply Forall_app. split; [apply IH|]. constructor; [|constructor]. apply HP, Z.mod_pos_bound. lia.
Qed.

Lemma from_str_radix_hex max w n : (0 < w)%nat → 0 <= n < 16 ^ Z.of_nat w → n <= max →
  from_str_radix 16 max (hex_text w n) = Some n.
Proof.
  intros Hw Hn Hmax.
  assert (digits 16 max 0 (hex_text w n) = Some n) as Hd by (rewrite digits_hex by lia; f_equal; lia).
  pose proof (hex_text_length w n) as Hl.
  pose proof (hex_text_all w (λ b, b ≠ plus) (λ d Hd, proj2 (hex_digit_graphic d Hd)) n) as Hp.
  unfold from_str_radix. destruct (hex_text w n) as [|b [|b' t]]; [cbn in Hl; lia|done|].
  apply Forall_cons in Hp as [Hb _]. by rewrite bool_decide_eq_false_2.
Qed.

Lemma graphic_not_ws a b c : graphic a = true → ws1 a = false ∧ ws2 a b = false ∧ ws3 a b c = false.
Proof.
  unfold graphic, ws1, ws2, ws3. generalize (byte_z a) (byte_z b) (byte_z c). clear. intros a b c.
  intros [H1 H2]%andb_true_iff. apply Z.leb_le in H1, H2.
  assert ((a =? 0xe1) = false ∧ (a =? 0xe2) = false ∧ (a =? 0xe3) = false ∧ (a =? 0xc2) = false)
    as (-> & -> & -> & ->) by lia.
  cbn. split; [|done]. lia.
Qed.
Lemma graphic_last_not_ws a b c : graphic a = true → ws1 a = false ∧ ws2 b a = false ∧ ws3 c b a = false.
Proof.
  unfold graphic, ws1, ws2, ws3. generalize (byte_z a) (byte_z b) (byte_z c). clear. intros a b c.
  intros [H1 H2]%andb_true_iff. apply Z.leb_le in H1, H2.
  assert (∀ z, 127 <= z → (a =? z) = false) as Hn by lia.
  rewrite (Hn 0x85), (Hn 0xa0), (Hn 0x80), (Hn 0xa8), (Hn 0xa9), (Hn 0xaf), (Hn 0x9f) by lia. assert ((0x80 <=? a) = false) as -> by lia.
  cbn. rewrite !andb_false_r. cbn. split; [|done]. lia.
Qed.

Lemma trim_start_stays a t : graphic a = true → trim_start (a :: t) = a :: t.
Proof.
  intros Ha. destruct t as [|b [|c t]]; cbn [trim_start].
  all: by repeat (first [rewrite (proj1 (graphic_not_ws a a a Ha)) | rewrite (proj1 (proj2 (graphic_not_ws a b a Ha)))
    | rewrite (proj2 (proj2 (graphic_not_ws a b c Ha)))]).
Qed.
Lemma trim_rev_stays a t : graphic a = true → trim_rev (a :: t) = a :: t.
Proof.
  intros Ha. destruct t as [|b [|c t]]; cbn [trim_rev].
  all: by repeat (first [rewrite (proj1 (graphic_last_not_ws a a a Ha)) | rewrite (proj1 (proj2 (graphic_last_not_ws a b a Ha)))
    | rewrite (proj2 (proj2 (graphic_last_not_ws a b c Ha)))]).
Qed.
Lemma trim_start_skips a t : ws1 a = true → trim_start (a :: t) = trim_start t.
Proof. intros Ha. destruct t as [|b [|c t]]; cbn [trim_start]; by rewrite Ha. Qed.

Lemma trim_after_tab t : t ≠ [] → Forall (λ b, graphic b = true) t → trim (Byte.x09 :: t) = t.
Proof.
  intros Hne Hg. unfold trim. rewrite trim_start_skips by done.
  destruct t as [|a t]; [done|]. rewrite trim_start_stays by by apply Forall_cons in Hg as [? _].
  apply Forall_rev in Hg. destruct (rev (a :: t)) as [|b r] eqn:Hr.
  { apply (f_equal length) in Hr. rewrite length_rev in Hr. done. }
  rewrite trim_rev_stays by by apply Forall_cons in Hg as [? _]. by rewrite <- Hr, rev_involutive.
Qed.

Lemma lines_from_line l t : ∀ r, newline ∉ l → last (rev r ++ l) ≠ Some return_ →
  lines_from r (l ++ newline :: t) = (rev r ++ l) :: lines t.
Proof.
  induction l as [|b l IH]; intros r Hn Hl; cbn [app lines_from].
  - rewrite bool_decide_eq_true_2 by done. rewrite app_nil_r in *. f_equal. destruct r as [|c r]; [done|].
    cbn [strip_return rev]. rewrite bool_decide_eq_false_2; [done|]. intros ->. apply Hl. cbn [rev]. by rewrite last_snoc.
  - rewrite bool_decide_eq_false_2 by set_solver. rewrite IH; cbn [rev]; rewrite <- ?(assoc_L (++)); [done|set_solver|done].
Qed.
Lemma lines_of ls : Forall (λ l, newline ∉ l ∧ last l ≠ Some return_) ls →
  lines (mjoin ((λ l, l ++ [newline]) <$> ls)) = ls.
Proof.
  induction 1 as [|l ls [Hn Hr] _ IH]; [done|]. cbn. rewrite <- (assoc_L (++)). cbn.
  refine (eq_trans (lines_from_line l _ [] Hn Hr) _). f_equal. exact IH.
Qed.
