(* ===== verification/Proc.v ===== *)
(** * What the kernel says of a caller ([crates/client/src/signals.rs], [procs.rs])

    An interrupt the kernel sends for a request is judged by the state of the thread
    blocked in it: [pending_in] reads the thread's pending and blocked signals,
    [io_worker_in] whether it is a worker of io_uring, and [verdict] honours what cannot
    be judged.  [Openers] remembers the processes behind the threads that open handles.

    Reading a file of [/proc] is the environment's: a definition takes what it gave. *)

From S2P Require Import Prelude Revision Text ClientHandles.

(** What went wrong with a read: no text, or a text without what was looked for. *)
Inductive IoError := Io_Failed | Io_InvalidData.
Definition ReadText : Type := result IoError text.

(** ** Signals *)

Definition mask_of (status : text) (field : string) : option Z :=
  match find_map (λ line, match strip_prefix (lit field) line with
                          | Some rest => strip_prefix [colon] rest
                          | None => None
                          end) (lines status) with
  | Some hex => from_str_radix 16 u128_max (trim hex)
  | None => None
  end.

Definition pending_in (status : text) : option bool :=
  pnd ← mask_of status "SigPnd"; shd ← mask_of status "ShdPnd"; blk ← mask_of status "SigBlk";
  Some (negb (Z.land (Z.lor pnd shd) (u128_max - blk) =? 0)).

Definition PF_IO_WORKER : Z := 0x10.
Definition close_paren : byte := Byte.x29.
Definition io_worker_in (stat : text) : option bool :=
  '(_, rest) ← rsplit_once close_paren stat;
  field ← split_whitespace rest !! 6%nat;
  flags ← parse_u32 field;
  Some (negb (Z.land flags PF_IO_WORKER =? 0)).

Definition ok_or_invalid (read : ReadText) (f : text → option bool) : result IoError bool :=
  match read with
  | Err e => Err e
  | Ok t => match f t with Some b => Ok b | None => Err Io_InvalidData end
  end.
Definition unblocked_signal_pending (status : ReadText) : result IoError bool := ok_or_invalid status pending_in.
Definition is_io_worker (stat : ReadText) : result IoError bool := ok_or_invalid stat io_worker_in.

(** ** The judge of interrupts *)

Record Judge := MkJudge { jd_enabled : bool; jd_unjudged : Z }.

(** [Judge::for_this_process], given [proc_is_ours]. *)
Definition for_this_process (proc_is_ours : result IoError bool) : Judge :=
  MkJudge (match proc_is_ours with Ok b => b | Err _ => false end) 0.

(** [judged]: what the blocking task came to, if it came to its end. *)
Definition verdict (j : Judge) (tid : Z) (judged : option (result IoError bool)) : bool * Judge :=
  if negb (jd_enabled j) then (true, j)
  else
    match (if tid =? 0 then Err Io_Failed else match judged with Some v => v | None => Err Io_Failed end) with
    | Ok b => (b, j)
    | Err _ => (true, MkJudge (jd_enabled j) (wrap64 (jd_unjudged j + 1)))
    end.

(** What the thread's two files said; [None]: the blocking task died. *)
Definition stands (j : Judge) (tid : Z) (read : option (ReadText * ReadText)) : bool * Judge :=
  verdict j tid
    (match read with
     | Some (status, stat) =>
         Some (match unblocked_signal_pending status with
               | Ok true => Ok true
               | Ok false => is_io_worker stat
               | Err e => Err e
               end)
     | None => None
     end).
Definition signal_came (j : Judge) (tid : Z) (read : option ReadText) : bool * Judge :=
  verdict j tid (unblocked_signal_pending <$> read).

(** ** Processes *)

Record ThreadStatus := MkThreadStatus { ts_name : option text; ts_state : option text; ts_tgid : option Z }.

Definition field_of (status : text) (name : string) : option text :=
  trim <$> find_map (strip_prefix (lit name)) (lines status).
Definition parse_status (status : text) : ThreadStatus :=
  MkThreadStatus (field_of status "Name:") (field_of status "State:") (field_of status "Tgid:" ≫= parse_u32).

Definition status_of (read : ReadText) : result IoError ThreadStatus :=
  match read with Ok t => Ok (parse_status t) | Err e => Err e end.
Definition comm_of (read : ReadText) : result IoError text :=
  match read with Ok t => Ok (trim_newlines t) | Err e => Err e end.

(** [comm]: what reading a process's name gives. *)
Definition opener_of (tid : Z) (status : ReadText) (comm : Z → ReadText) : result IoError Opener :=
  match status_of status with
  | Err e => Err e
  | Ok st =>
      match ts_tgid st with
      | None => Err Io_InvalidData
      | Some pid =>
          let named name := Ok (MkOpener pid (String.string_of_list_byte name)) in
          match ts_name st with
          | Some name => if pid =? tid then named name
                         else match comm_of (comm pid) with Ok name => named name | Err e => Err e end
          | None => match comm_of (comm pid) with Ok name => named name | Err e => Err e end
          end
      end
  end.

Definition OPENER_FRESH : Z := 100 * 1000000.
Definition OPENERS_KEPT : nat := 64.

Record Openers := MkOpeners { ops_proc_ours : bool; ops_recent : gmap Z (Z * option Opener) }.
Definition Openers_new (proc_ours : bool) : Openers := MkOpeners proc_ours ∅.

Definition age_of (now at_ : Z) : Z := Z.max 0 (now - at_).
Definition fresh (o : Openers) (tid now : Z) : option (option Opener) :=
  match ops_recent o !! tid with
  | Some (at_, opener) => if age_of now at_ <? OPENER_FRESH then Some opener else None
  | None => None
  end.
Definition remember (o : Openers) (tid : Z) (opener : option Opener) (now : Z) : Openers :=
  let recent := ops_recent o in
  let recent :=
    if (OPENERS_KEPT <=? size recent)%nat then
      let recent := filter (λ x, age_of now x.2.1 < OPENER_FRESH) recent in
      if (OPENERS_KEPT <=? size recent)%nat then ∅ else recent
    else recent in
  MkOpeners (ops_proc_ours o) (<[tid := (now, opener)]> recent).

(** [Openers::of]: [found] is what the look-up on the blocking pool came to, and [then_]
    when it did. *)
Definition opener (o : Openers) (tid now : Z) (found : option (result IoError Opener)) (then_ : Z) : option Opener * Openers :=
  if (tid =? 0) || negb (ops_proc_ours o) then (None, o)
  else match fresh o tid now with
       | Some opener => (opener, o)
       | None =>
           let opener := match found with Some (Ok opener) => Some opener | _ => None end in
           (opener, remember o tid opener then_)
       end.

(** ** The masks are read as the kernel writes them *)

(** A line of [/proc/<tid>/status]. *)
Definition status_line (row : text * text) : text := row.1 ++ colon :: Byte.x09 :: row.2.
Definition render (rows : list (text * text)) : text := mjoin ((λ l, l ++ [newline]) <$> (status_line <$> rows)).

(** The value of the first row of that name. *)
Definition value_of (rows : list (text * text)) (field : text) : option text :=
  find_map (λ row : text * text, if bool_decide (row.1 = field) then Some row.2 else None) rows.

(** A row's name has no colon, and its line is one line. *)
Definition row_ok (row : text * text) : Prop :=
  colon ∉ row.1 ∧ newline ∉ row.1 ++ row.2 ∧ last row.2 ≠ Some return_.

Lemma find_map_fmap {A B C} (f : B → option C) (g : A → B) l : find_map f (g <$> l) = find_map (f ∘ g) l.
Proof. induction l as [|a l IH]; cbn; [done|]. by rewrite IH. Qed.
Lemma find_map_agree {A B} (f g : A → option B) l : (∀ a, a ∈ l → f a = g a) → find_map f l = find_map g l.
Proof.
  induction l as [|a l IH]; intros Hf; cbn; [done|]. rewrite (Hf a) by (left; done).
  rewrite IH; [done|]. intros b Hb. apply Hf. by right.
Qed.

Lemma strip_prefix_row field name rest : colon ∉ name → colon ∉ field →
  match strip_prefix field (name ++ colon :: rest) with Some t => strip_prefix [colon] t | None => None end
  = if bool_decide (name = field) then Some rest else None.
Proof.
  revert name. induction field as [|c field IH]; intros name Hn Hf; cbn [strip_prefix].
  - destruct name as [|b name]; cbn.
    + by destruct rest.
    + rewrite bool_decide_eq_false_2; [done|]. set_solver.
  - destruct name as [|b name]; cbn.
    + rewrite !bool_decide_eq_false_2; [done|done|]. intros ->. set_solver.
    + destruct (decide (c = b)) as [->|Hne].
      * rewrite bool_decide_eq_true_2 by done. rewrite IH by set_solver.
        destruct (decide (name = field)) as [->|Hn']; [by rewrite !bool_decide_eq_true_2|].
        rewrite !bool_decide_eq_false_2; [done| |done]. by intros [= ->].
      * rewrite !bool_decide_eq_false_2; [done| |done]. by intros [= ->].
Qed.

Lemma lines_render rows : Forall row_ok rows → lines (render rows) = status_line <$> rows.
Proof.
  intros Hr. apply lines_of. apply Forall_fmap. eapply Forall_impl; [done|]. intros [name v] (Hc & Hn & Hl). cbn in *.
  unfold status_line. cbn. split; [apply not_elem_of_app in Hn as [? ?]; intros [?|[?|[?|?]%elem_of_cons]%elem_of_cons]%elem_of_app; done|].
  rewrite last_app_cons, last_cons. destruct v as [|b v]; [done|]. rewrite last_cons in *.
  rewrite last_cons. by destruct (last v).
Qed.

Lemma mask_of_render rows field : Forall row_ok rows → colon ∉ lit field →
  mask_of (render rows) field
  = match value_of rows (lit field) with Some v => from_str_radix 16 u128_max (trim (Byte.x09 :: v)) | None => None end.
Proof.
  intros Hr Hf. unfold mask_of, value_of. rewrite lines_render, find_map_fmap by done.
  rewrite (find_map_agree _ (λ row : text * text, if bool_decide (row.1 = lit field) then Some (Byte.x09 :: row.2) else None)).
  - clear Hr Hf. induction rows as [|row rows IH]; cbn; [done|]. by case_bool_decide.
  - intros [name v] Hin. rewrite Forall_forall in Hr. destruct (Hr _ Hin) as (Hc & _ & _). cbn in *.
    unfold status_line. cbn. by rewrite strip_prefix_row.
Qed.

Lemma hex_value_reads w n : (0 < w)%nat → 0 <= n < 16 ^ Z.of_nat w → n < 2 ^ 128 →
  from_str_radix 16 u128_max (trim (Byte.x09 :: hex_text w n)) = Some n.
Proof.
  intros Hw Hn Hm. rewrite trim_after_tab.
  - apply from_str_radix_hex; [done|done|]. unfold u128_max. lia.
  - intros He. apply (f_equal length) in He. rewrite hex_text_length in He. cbn in He. lia.
  - apply hex_text_all. intros d Hd. by apply hex_digit_graphic.
Qed.

Lemma mask_bits a b : 0 <= b < 2 ^ 128 → 0 <= a →
  negb (Z.land a (u128_max - b) =? 0) = true ↔ ∃ i, 0 <= i < 128 ∧ Z.testbit a i = true ∧ Z.testbit b i = false.
Proof.
  intros Hb Ha.
  assert (∀ i, 0 <= i → Z.testbit (u128_max - b) i = (i <? 128) && negb (Z.testbit b i)) as Hbit.
  { intros i Hi. replace (u128_max - b) with (Z.lnot b mod 2 ^ 128).
    - destruct (Z.ltb_spec i 128); [rewrite Z.mod_pow2_bits_low, Z.lnot_spec by lia; done|].
      by rewrite Z.mod_pow2_bits_high by lia.
    - unfold Z.lnot, u128_max. symmetry. apply (Z.mod_unique_pos _ _ (-1)); lia. }
  rewrite negb_true_iff, Z.eqb_neq. split.
  - intros Hne. assert (0 < Z.land a (u128_max - b)) as Hpos.
    { pose proof (proj2 (Z.land_nonneg a (u128_max - b)) (or_introl Ha)). lia. }
    exists (Z.log2 (Z.land a (u128_max - b))). pose proof (Z.bit_log2 _ Hpos) as Hl.
    rewrite Z.land_spec, Hbit, !andb_true_iff, negb_true_iff in Hl by apply Z.log2_nonneg.
    destruct Hl as (H1 & H2 & H3). pose proof (Z.log2_nonneg (Z.land a (u128_max - b))). split; [lia|done].
  - intros (i & Hi & H1 & H2) H0. assert (Z.testbit (Z.land a (u128_max - b)) i = true) as Ht.
    { rewrite Z.land_spec, Hbit, H1, H2 by lia. by replace (i <? 128) with true by lia. }
    by rewrite H0, Z.testbit_0_l in Ht.
Qed.

(** From a status file as the kernel writes it, whatever other lines it has and
    whatever width its masks are written in, up to 128 bits, the judge sees a signal
    exactly when one is pending, for the thread or its process, that the thread has not
    blocked. *)
Theorem pending_in_exact (rows : list (text * text)) (w : nat) (pnd shd blk : Z)
    (Hrows : Forall row_ok rows) (Hw : (0 < w)%nat)
    (Hpnd : value_of rows (lit "SigPnd") = Some (hex_text w pnd))
    (Hshd : value_of rows (lit "ShdPnd") = Some (hex_text w shd))
    (Hblk : value_of rows (lit "SigBlk") = Some (hex_text w blk))
    (Hmasks : Forall (λ m, 0 <= m < 16 ^ Z.of_nat w ∧ m < 2 ^ 128) [pnd; shd; blk]) :
  ∃ b, pending_in (render rows) = Some b ∧
    (b = true ↔ ∃ i, 0 <= i < 128 ∧ (Z.testbit pnd i = true ∨ Z.testbit shd i = true) ∧ Z.testbit blk i = false).
Proof.
  apply Forall_cons in Hmasks as [[H1 H1'] Hmasks]. apply Forall_cons in Hmasks as [[H2 H2'] Hmasks].
  apply Forall_cons in Hmasks as [[H3 H3'] _].
  assert (∀ f, existsb (λ b, bool_decide (b = colon)) (lit f) = false → colon ∉ lit f) as Hcol.
  { intros f Hf Hin. apply not_true_iff_false in Hf. apply Hf, existsb_exists.
    exists colon. rewrite <- list_elem_of_In. by rewrite bool_decide_eq_true. }
  unfold pending_in. rewrite !mask_of_render by (done || (apply Hcol; vm_compute; reflexivity)).
  rewrite Hpnd, Hshd, Hblk, !hex_value_reads by done. cbn. eexists. split; [done|].
  rewrite mask_bits by (try apply Z.lor_nonneg; lia).
  split; intros (i & Hi & Hp & Hb); exists i; (split; [done|]); (split; [|done]).
  - by rewrite Z.lor_spec, orb_true_iff in Hp.
  - by rewrite Z.lor_spec, orb_true_iff.
Qed.

Definition demo_rows : list (text * text) :=
  [(lit "Name", lit "a:b SigPnd:ff"); (lit "SigPnd", hex_text 16 0); (lit "ShdPnd", hex_text 16 0x800);
   (lit "SigBlk", hex_text 16 0x400)].
Lemma pending_in_exact_witness :
  pending_in (render demo_rows) = Some true ∧
  ∃ b, pending_in (render demo_rows) = Some b ∧
    (b = true ↔ ∃ i, 0 <= i < 128 ∧ (Z.testbit 0 i = true ∨ Z.testbit 0x800 i = true) ∧ Z.testbit 0x400 i = false).
Proof.
  split; [vm_compute; reflexivity|]. apply (pending_in_exact demo_rows 16).
  - repeat (constructor; [split; [by apply (bool_decide_unpack _); vm_compute|split; [by apply (bool_decide_unpack _); vm_compute|by vm_compute]]|]).
    constructor.
  - lia.
  - vm_compute; reflexivity.
  - vm_compute; reflexivity.
  - vm_compute; reflexivity.
  - repeat (constructor; [lia|]). constructor.
Defined.

(** ** Openers remembered *)

Lemma remember_bounded o tid opener now :
  (size (ops_recent o) <= OPENERS_KEPT)%nat → (size (ops_recent (remember o tid opener now)) <= OPENERS_KEPT)%nat.
Proof.
  intros Ho.
  assert (∀ m : gmap Z (Z * option Opener), (size m < OPENERS_KEPT)%nat → (size (<[tid := (now, opener)]> m) <= OPENERS_KEPT)%nat) as Hi.
  { intros m Hm. rewrite map_size_insert. case_match; cbn; lia. }
  unfold remember. cbn [ops_recent]. apply Hi.
  destruct (Nat.leb_spec OPENERS_KEPT (size (ops_recent o))); [|done].
  case_match eqn:Hl; [|by apply Nat.leb_gt in Hl]. rewrite map_size_empty. unfold OPENERS_KEPT. lia.
Qed.

(** What is remembered is what the last look-up of that thread found, and no older than it may be. *)
Lemma fresh_remember_eq o tid opener now now' :
  fresh (remember o tid opener now) tid now' = if age_of now' now <? OPENER_FRESH then Some opener else None.
Proof. unfold fresh, remember. cbn. by rewrite lookup_insert_eq. Qed.
Lemma fresh_remember_ne o tid opener now tid' now' : tid' ≠ tid →
  fresh (remember o tid opener now) tid' now' = fresh o tid' now' ∨ fresh (remember o tid opener now) tid' now' = None.
Proof.
  intros Hne.
  assert (∀ m, m ⊆ ops_recent o → fresh (MkOpeners (ops_proc_ours o) (<[tid := (now, opener)]> m)) tid' now' = fresh o tid' now'
    ∨ fresh (MkOpeners (ops_proc_ours o) (<[tid := (now, opener)]> m)) tid' now' = None) as Hm.
  { intros m Hm. unfold fresh. cbn. rewrite lookup_insert_ne by done. destruct (m !! tid') as [x|] eqn:Hx; [|by right].
    left. by rewrite (lookup_weaken _ _ _ _ Hx Hm). }
  unfold remember. apply Hm. case_match; [|done]. case_match; [apply map_empty_subseteq|apply map_filter_subseteq].
Qed.
