(* ===== verification/Inflight.v ===== *)
(** * Kernel requests in flight ([crates/client/src/fuse.rs], [client.rs])

    Every kernel request is answered by a task of its own ([Backend::spawn]) and is in a
    table until that task ends ([Registered]).  The table is where an interrupt finds the
    request, and where the stall watchdog looks.  An interrupt is judged by a task too
    ([Filesystem::interrupt]): one that stands for a signal is latched in the request
    ([RequestKernel]), whose calls then end; one that does not is watched until a signal
    comes or the request is answered.

    A request is shared by the table, by the task answering it and, only weakly, by the
    judges: it lives in a store, and [held] says whether anything but a judge's weak
    reference keeps it. *)

From stdpp Require Import sorting.
From S2P Require Import Prelude Types Msg Perf ClientTypes Text Proc.

(** ** A request and its call *)

Inductive PhaseCall := Phase_Wait | Phase_Cancel | Phase_Open | Phase_Send | Phase_Reply.

Record CallNow := MkCallNow {
  cn_req : Request; cn_phase : PhaseCall; cn_since : Z; cn_generation : option Z; cn_conn : option Z;
  cn_stream : option Z; cn_retries : Z }.

Record RequestKernel := MkRequestKernel {
  rk_unique : Z; rk_interrupt : bool; rk_started : bool; rk_call : option CallNow }.
Definition RequestKernel_new (unique : Z) : RequestKernel := MkRequestKernel unique false false None.

Definition with_call (k : RequestKernel) (c : option CallNow) : RequestKernel :=
  MkRequestKernel (rk_unique k) (rk_interrupt k) (rk_started k) c.
(** [RequestKernel::scope], as its work begins. *)
Definition scope (k : RequestKernel) : RequestKernel := MkRequestKernel (rk_unique k) (rk_interrupt k) true (rk_call k).
Definition interrupt (k : RequestKernel) : RequestKernel := MkRequestKernel (rk_unique k) true (rk_started k) (rk_call k).

(** [None]: the assertion that a request makes one call at a time fails. *)
Definition call_begin (k : RequestKernel) (req : Request) (now : Z) : option RequestKernel :=
  match rk_call k with
  | Some _ => None
  | None => Some (with_call k (Some (MkCallNow req Phase_Wait now None None None 0)))
  end.
(** [attached]: the generation and the key of the connection the phase starts on. *)
Definition call_phase (k : RequestKernel) (phase : PhaseCall) (attached : option (Z * option Z)) (stream : option Z) (now : Z)
  : RequestKernel :=
  with_call k ((λ c, MkCallNow (cn_req c) phase now
    (match attached with Some (generation, _) => Some generation | None => cn_generation c end)
    (match attached with Some (_, conn) => conn | None => cn_conn c end) stream (cn_retries c)) <$> rk_call k).
Definition call_retried (k : RequestKernel) (retries : Z) : RequestKernel :=
  with_call k ((λ c, MkCallNow (cn_req c) (cn_phase c) (cn_since c) None None (cn_stream c) retries) <$> rk_call k).
(** [CallTracked::drop]. *)
Definition call_over (k : RequestKernel) : RequestKernel := with_call k None.

(** What a call comes to once polled, [f] being what it was waiting for; [None]: it waits
    on. *)
Definition interruptible {T} (req : option RequestKernel) (f : option (result Error T)) : option (result Error T) :=
  match req with
  | Some k => if rk_interrupt k then Some (Err Error_Interrupted) else f
  | None => f
  end.
Definition gives_out (kernel : option RequestKernel) (limit : option Z) (waited : Z) : option Error :=
  if match kernel with Some k => rk_interrupt k | None => false end then Some Error_Interrupted
  else match limit with
       | Some limit => if limit <=? waited then Some Error_Timeout else None
       | None => None
       end.

(** ** The table *)

Record KeyPerf := MkKeyPerf {
  kp_op : string; kp_unique : Z; kp_pid : Z; kp_ino : Z; kp_fh : option Z; kp_offset : option Z; kp_size : option Z }.
Definition KeyPerf_of (op : string) (unique pid ino : Z) : KeyPerf := MkKeyPerf op unique pid ino None None None.

(** [an_request]: where in the store. *)
Record Answering := MkAnswering { an_request : Z; an_key : KeyPerf; an_arrived : Z; an_reported : Z }.

Record Pending := MkPending {
  pn_key : KeyPerf; pn_age : Z; pn_started : bool; pn_call : result () (option CallNow) }.
Record ScanPending := MkScanPending { sp_count : nat; sp_found : list Pending }.

Definition age_le (a b : Pending) : Prop := pn_age b <= pn_age a.
#[export] Instance age_le_dec : RelDecision age_le. Proof. intros a b. unfold age_le. apply _. Defined.
#[export] Instance age_le_trans : Transitive age_le. Proof. intros a b c. unfold age_le. lia. Qed.
#[export] Instance age_le_total : Total age_le. Proof. intros a b. unfold age_le. lia. Qed.

Section scan.
(** [held]: the calls whose lock is held past the watchdog's patience. *)
Context (requests : gmap Z RequestKernel) (call_held : Z → bool) (now : Z) (mode : ModeScan).

Definition age (a : Answering) : Z := Z.max 0 (now - an_arrived a).
Definition scanned (a : Answering) : Answering :=
  MkAnswering (an_request a) (an_key a) (an_arrived a) (selects mode (age a) (an_reported a)).2.
Definition selected (a : Answering) : bool := (selects mode (age a) (an_reported a)).1.
Definition pending_of (a : Answering) : Pending :=
  let k := default (RequestKernel_new (an_request a)) (requests !! an_request a) in
  MkPending (an_key a) (age a) (rk_started k) (if call_held (an_request a) then Err () else Ok (rk_call k)).

(** [None]: the table's own lock was not to be had. *)
Definition scan_pending (table : option (gmap Z Answering)) : option (ScanPending * gmap Z Answering) :=
  match table with
  | None => None
  | Some inflight =>
      let found := pending_of <$> filter (λ a, selected a = true) (snd <$> map_to_list inflight) in
      Some (MkScanPending (size inflight) (merge_sort age_le found), scanned <$> inflight)
  end.
End scan.

(** ** The tasks *)

(** A judge of one interrupt. *)
Inductive JudgeAt := J_judging | J_sleeping | J_looking | J_over.
Record JudgeTask := MkJudgeTask { jt_request : Z; jt_tid : Z; jt_at : JudgeAt }.

(** [w_answering]: the tasks that have not ended, and whether each has run.  Ghosts: what
    each request was, whether the kernel interrupted it, and what a judge had read of its
    caller when it interrupted it. *)
Inductive Evidence := Ev_Stands (j : Judge) (read : option (ReadText * ReadText)) | Ev_Came (j : Judge) (read : option ReadText).
Record World := MkWorld {
  w_table : gmap Z Answering;
  w_requests : gmap Z RequestKernel;
  w_answering : gmap Z bool;
  w_judge : Judge;
  w_judges : gmap Z JudgeTask;
  w_keys : gmap Z KeyPerf;
  w_asked : gset Z;
  w_evidence : gmap Z Evidence }.

Definition world_new (j : Judge) : World := MkWorld ∅ ∅ ∅ j ∅ ∅ ∅ ∅.

(** [Weak::upgrade]: the table, the task or a judge that is looking holds the request. *)
Definition held (w : World) (u : Z) : Prop :=
  is_Some (w_table w !! u) ∨ is_Some (w_answering w !! u)
  ∨ ∃ j tid, w_judges w !! j = Some (MkJudgeTask u tid J_looking).

(** [Backend::spawn], on the session thread. *)
Definition spawn (w : World) (key : KeyPerf) (now : Z) : World :=
  let u := kp_unique key in
  MkWorld (<[u := MkAnswering u key now 0]> (w_table w)) (<[u := RequestKernel_new u]> (w_requests w))
    (<[u := false]> (w_answering w)) (w_judge w) (w_judges w) (<[u := key]> (w_keys w)) (w_asked w) (w_evidence w).
Definition with_requests (w : World) (r : gmap Z RequestKernel) : World :=
  MkWorld (w_table w) r (w_answering w) (w_judge w) (w_judges w) (w_keys w) (w_asked w) (w_evidence w).
Definition task_runs (w : World) (u : Z) : World :=
  MkWorld (w_table w) (alter scope u (w_requests w)) (<[u := true]> (w_answering w)) (w_judge w) (w_judges w) (w_keys w)
    (w_asked w) (w_evidence w).
(** [Registered::finish], or its drop, and the task's end. *)
Definition task_ends (w : World) (u : Z) : World :=
  MkWorld (delete u (w_table w)) (w_requests w) (delete u (w_answering w)) (w_judge w) (w_judges w) (w_keys w)
    (w_asked w) (w_evidence w).

(** [Filesystem::interrupt], as far as it runs on the session thread. *)
Definition interrupt_asked (w : World) (u j : Z) : World :=
  match w_table w !! u with
  | Some a => MkWorld (w_table w) (w_requests w) (w_answering w) (w_judge w)
                (<[j := MkJudgeTask (an_request a) (kp_pid (an_key a)) J_judging]> (w_judges w)) (w_keys w)
                ({[u]} ∪ w_asked w) (w_evidence w)
  | None => w
  end.

(** A judge goes to [at_]. *)
Definition judge_to (w : World) (judge : Judge) (j : Z) (t : JudgeTask) (at_ : JudgeAt) : World :=
  MkWorld (w_table w) (w_requests w) (w_answering w) judge (<[j := MkJudgeTask (jt_request t) (jt_tid t) at_]> (w_judges w))
    (w_keys w) (w_asked w) (w_evidence w).
Definition judge_interrupts (w : World) (judge : Judge) (j : Z) (t : JudgeTask) (ev : Evidence) : World :=
  MkWorld (w_table w) (alter interrupt (jt_request t) (w_requests w)) (w_answering w) judge
    (<[j := MkJudgeTask (jt_request t) (jt_tid t) J_over]> (w_judges w)) (w_keys w) (w_asked w)
    (<[jt_request t := ev]> (w_evidence w)).

(** The kernel numbers its requests so that none in flight, nor one before it, has the same. *)
Inductive world_step (w : World) : World → Prop :=
| ws_spawn key now : w_keys w !! kp_unique key = None → world_step w (spawn w key now)
| ws_runs u : w_answering w !! u = Some false → world_step w (task_runs w u)
| ws_call_begin u k k' req now :
    w_answering w !! u = Some true → w_requests w !! u = Some k → call_begin k req now = Some k' →
    world_step w (with_requests w (<[u := k']> (w_requests w)))
| ws_call_phase u phase attached stream now :
    w_answering w !! u = Some true →
    world_step w (with_requests w (alter (λ k, call_phase k phase attached stream now) u (w_requests w)))
| ws_call_retried u retries :
    w_answering w !! u = Some true → world_step w (with_requests w (alter (λ k, call_retried k retries) u (w_requests w)))
| ws_call_over u :
    w_answering w !! u = Some true → world_step w (with_requests w (alter call_over u (w_requests w)))
| ws_ends u : is_Some (w_answering w !! u) → world_step w (task_ends w u)
| ws_interrupt u j : w_judges w !! j = None → world_step w (interrupt_asked w u j)
| ws_judged j t read b judge :
    w_judges w !! j = Some t → jt_at t = J_judging → stands (w_judge w) (jt_tid t) read = (b, judge) →
    held w (jt_request t) →
    world_step w (if b then judge_interrupts w judge j t (Ev_Stands (w_judge w) read) else judge_to w judge j t J_sleeping)
| ws_rechecks j t :
    w_judges w !! j = Some t → jt_at t = J_sleeping → held w (jt_request t) → world_step w (judge_to w (w_judge w) j t J_looking)
| ws_looked j t read b judge :
    w_judges w !! j = Some t → jt_at t = J_looking → signal_came (w_judge w) (jt_tid t) read = (b, judge) →
    world_step w (if b then judge_interrupts w judge j t (Ev_Came (w_judge w) read) else judge_to w judge j t J_sleeping)
(** The request is gone when the judge wants it. *)
| ws_gone j t judge :
    w_judges w !! j = Some t → jt_at t = J_judging ∨ jt_at t = J_sleeping → ¬ held w (jt_request t) →
    jd_enabled judge = jd_enabled (w_judge w) →
    world_step w (judge_to w judge j t J_over)
| ws_scan call_held now mode sp table :
    scan_pending (w_requests w) call_held now mode (Some (w_table w)) = Some (sp, table) →
    world_step w (MkWorld table (w_requests w) (w_answering w) (w_judge w) (w_judges w) (w_keys w) (w_asked w) (w_evidence w)).

Definition reachable (w : World) : Prop := ∃ proc_is_ours, rtc world_step (world_new (for_this_process proc_is_ours)) w.

(** What an interrupt that is honoured had going for it. *)
Definition honoured (tid : Z) (ev : Evidence) : Prop :=
  match ev with
  | Ev_Stands j read => (stands j tid read).1 = true
  | Ev_Came j read => (signal_came j tid read).1 = true
  end.

(** ** What holds of the table, the requests and the judges *)

Record world_ok (w : World) : Prop := {
  wo_table : ∀ u, is_Some (w_table w !! u) ↔ is_Some (w_answering w !! u);
  wo_entry : ∀ u a, w_table w !! u = Some a → an_request a = u ∧ w_keys w !! u = Some (an_key a);
  wo_answering : ∀ u b, w_answering w !! u = Some b →
    is_Some (w_keys w !! u) ∧ ∃ k, w_requests w !! u = Some k ∧ rk_unique k = u ∧ rk_started k = b;
  wo_keys : ∀ u, is_Some (w_requests w !! u) → is_Some (w_keys w !! u);
  wo_asked : ∀ u, u ∈ w_asked w → is_Some (w_keys w !! u);
  wo_judges : ∀ j t, w_judges w !! j = Some t → jt_request t ∈ w_asked w
    ∧ ∃ key, w_keys w !! jt_request t = Some key ∧ jt_tid t = kp_pid key;
  wo_interrupted : ∀ u k, w_requests w !! u = Some k → rk_interrupt k = true → u ∈ w_asked w
    ∧ ∃ key ev, w_keys w !! u = Some key ∧ w_evidence w !! u = Some ev ∧ honoured (kp_pid key) ev;
  wo_watched : ∀ u, u ∈ w_asked w → is_Some (w_answering w !! u) →
    (∃ k, w_requests w !! u = Some k ∧ rk_interrupt k = true)
    ∨ ∃ j t, w_judges w !! j = Some t ∧ jt_request t = u ∧ jt_at t ≠ J_over }.

(** A step on a request's own state that leaves its interrupt and its start alone. *)
Definition same_latch (k k' : RequestKernel) : Prop :=
  rk_unique k' = rk_unique k ∧ rk_interrupt k' = rk_interrupt k ∧ rk_started k' = rk_started k.

Lemma with_requests_ok w r :
  (∀ u, w_requests w !! u = None → r !! u = None) →
  (∀ u k, w_requests w !! u = Some k → ∃ k', r !! u = Some k' ∧ same_latch k k') →
  world_ok w → world_ok (with_requests w r).
Proof.
  intros Hn Hs [H1 H2 H3 H4 H5 H6 H7 H8].
  assert (∀ u k', r !! u = Some k' → ∃ k, w_requests w !! u = Some k ∧ same_latch k k') as Hb.
  { intros u k' Hr. destruct (w_requests w !! u) as [k|] eqn:Hk; [|by rewrite Hn in Hr].
    destruct (Hs u k Hk) as (k2 & Hk2 & Hl). exists k. split; [done|]. by simplify_eq. }
  constructor; cbn; try done.
  - intros u b Hu. destruct (H3 u b Hu) as (Hkey & k & Hk & Hq & Hst). split; [done|].
    destruct (Hs u k Hk) as (k' & Hk' & Hq' & _ & Hst'). exists k'. by rewrite Hq', Hst'.
  - intros u [k' Hr]. destruct (Hb u k' Hr) as (k & Hk & _). apply H4. by eexists.
  - intros u k' Hr Hi. destruct (Hb u k' Hr) as (k & Hk & _ & Heq & _). apply (H7 u k Hk). by rewrite <- Heq.
  - intros u Ha Ht. destruct (H8 u Ha Ht) as [(k & Hk & Hi)|?]; [left|by right].
    destruct (Hs u k Hk) as (k' & Hk' & _ & Heq & _). exists k'. by rewrite Heq.
Qed.
Lemma alter_latch (w : World) f u : (∀ k, same_latch k (f k)) →
  (∀ u', w_requests w !! u' = None → alter f u (w_requests w) !! u' = None) ∧
  (∀ u' k, w_requests w !! u' = Some k → ∃ k', alter f u (w_requests w) !! u' = Some k' ∧ same_latch k k').
Proof.
  intros Hf. split; intros u'; [intros Hn|intros k Hk]; rewrite lookup_alter; case_decide; subst.
  - by rewrite Hn.
  - done.
  - rewrite Hk. eexists. split; [done|apply Hf].
  - exists k. by split.
Qed.
Lemma alter_ok w f u : (∀ k, same_latch k (f k)) → world_ok w → world_ok (with_requests w (alter f u (w_requests w))).
Proof. intros Hf. destruct (alter_latch w f u Hf). by apply with_requests_ok. Qed.

Lemma spawn_ok w key now : w_keys w !! kp_unique key = None → world_ok w → world_ok (spawn w key now).
Proof.
  intros Hk [H1 H2 H3 H4 H5 H6 H7 H8]. set (u0 := kp_unique key) in *.
  assert (∀ u, is_Some (w_keys w !! u) → u ≠ u0) as Hne by (intros u [x Hx] ->; congruence).
  assert (w_answering w !! u0 = None) as Ha0.
  { destruct (w_answering w !! u0) as [b|] eqn:Hb; [|done]. by destruct (Hne u0 (proj1 (H3 u0 b Hb))). }
  constructor; cbn; fold u0.
  - intros u. rewrite !lookup_insert. case_decide; [split; intros _; by eexists|apply H1].
  - intros u a. rewrite !lookup_insert. case_decide; [intros [= <-]; by subst|apply H2].
  - intros u b. rewrite !lookup_insert. case_decide as Hd.
    + intros [= <-]. split; [by eexists|]. eexists. split; [done|]. by subst.
    + apply H3.
  - intros u. rewrite !lookup_insert. case_decide; [by eexists|apply H4].
  - intros u Hu. rewrite lookup_insert. case_decide; [by eexists|by apply H5].
  - intros j t Hj. destruct (H6 j t Hj) as (Hin & k & Hkk & Ht). split; [done|]. exists k.
    rewrite lookup_insert_ne; [done|]. intros He. apply (Hne (jt_request t)); [by eexists|done].
  - intros u k. rewrite !lookup_insert. case_decide; [intros [= <-]; done|apply H7].
  - intros u Hu. pose proof (Hne u (H5 u Hu)) as Hn. rewrite !lookup_insert_ne by done. by apply H8.
Qed.

Lemma task_runs_ok w u : w_answering w !! u = Some false → world_ok w → world_ok (task_runs w u).
Proof.
  intros Hu [H1 H2 H3 H4 H5 H6 H7 H8].
  assert (∀ u' k, alter scope u (w_requests w) !! u' = Some k → ∃ k0, w_requests w !! u' = Some k0 ∧ rk_interrupt k = rk_interrupt k0) as Hb.
  { intros u' k. rewrite lookup_alter. case_decide; [|eauto]. subst.
    intros (k0 & Hk & ->)%fmap_Some. by exists k0. }
  constructor; cbn; try done.
  - intros u'. rewrite lookup_insert. case_decide; [subst; rewrite H1, Hu; split; by eexists|apply H1].
  - intros u' b. rewrite lookup_insert, lookup_alter. case_decide; [subst|apply H3]. intros [= <-].
    destruct (H3 u' false Hu) as (Hkey & k & Hk & Hq & _). split; [done|]. exists (scope k). by rewrite Hk.
  - intros u' [k Hk]. destruct (Hb u' k Hk) as (k0 & Hk0 & _). apply H4. by eexists.
  - intros u' k Hk Hi. destruct (Hb u' k Hk) as (k0 & Hk0 & He). apply (H7 u' k0 Hk0). by rewrite <- He.
  - intros u' Ha Hs. assert (is_Some (w_answering w !! u')) as Hs'.
    { revert Hs. rewrite lookup_insert. case_decide; [subst; by rewrite Hu|done]. }
    destruct (H8 u' Ha Hs') as [(k & Hk & Hi)|?]; [left|by right]. rewrite lookup_alter.
    case_decide; [subst; rewrite Hk; by exists (scope k)|by exists k].
Qed.

Lemma task_ends_ok w u : world_ok w → world_ok (task_ends w u).
Proof.
  intros [H1 H2 H3 H4 H5 H6 H7 H8]. constructor; cbn; try done.
  - intros u'. rewrite !lookup_delete. by case_decide.
  - intros u' a. rewrite lookup_delete. case_decide; [done|apply H2].
  - intros u' b. rewrite lookup_delete. case_decide; [done|apply H3].
  - intros u' Ha. rewrite lookup_delete. case_decide; [by intros [? ?]|by apply H8].
Qed.

Lemma interrupt_asked_ok w u j : w_judges w !! j = None → world_ok w → world_ok (interrupt_asked w u j).
Proof.
  intros Hj Hw. unfold interrupt_asked. destruct (w_table w !! u) as [a|] eqn:Ha; [|done].
  destruct Hw as [H1 H2 H3 H4 H5 H6 H7 H8]. destruct (H2 u a Ha) as [Hr Hk].
  constructor; cbn; try done.
  - intros u' [->%elem_of_singleton|Hu]%elem_of_union; [by eexists|by apply H5].
  - intros j' t. rewrite lookup_insert. case_decide.
    + intros [= <-]. cbn. rewrite Hr. split; [set_solver|by exists (an_key a)].
    + intros Ht. destruct (H6 j' t Ht). split; [set_solver|done].
  - intros u' k Hu Hi. destruct (H7 u' k Hu Hi). split; [set_solver|done].
  - intros u' [->%elem_of_singleton|Hu]%elem_of_union Hs.
    + right. exists j, (MkJudgeTask (an_request a) (kp_pid (an_key a)) J_judging). by rewrite lookup_insert_eq.
    + destruct (H8 u' Hu Hs) as [?|(j' & t & Ht & He & Ho)]; [by left|right]. exists j', t.
      rewrite lookup_insert_ne; [done|]. intros ->. congruence.
Qed.

Lemma judge_to_ok w judge j t at_ :
  w_judges w !! j = Some t → (at_ = J_over → w_answering w !! jt_request t = None) → world_ok w →
  world_ok (judge_to w judge j t at_).
Proof.
  intros Hj Ho [H1 H2 H3 H4 H5 H6 H7 H8]. constructor; cbn; try done.
  - intros j' t'. rewrite lookup_insert. case_decide; [intros [= <-]; cbn; by apply (H6 j)|apply H6].
  - intros u Ha Hs. destruct (H8 u Ha Hs) as [?|(j' & t' & Hj' & Hr & Hn)]; [by left|right].
    destruct (decide (j' = j)) as [->|Hne].
    + assert (t' = t) as -> by congruence. subst u. exists j, (MkJudgeTask (jt_request t) (jt_tid t) at_). rewrite lookup_insert_eq. split; [done|].
      split; [done|]. cbn. intros ->. rewrite (Ho eq_refl) in Hs. by destruct Hs.
    + exists j', t'. by rewrite lookup_insert_ne.
Qed.

Lemma judge_interrupts_ok w judge j t ev :
  w_judges w !! j = Some t → honoured (jt_tid t) ev → world_ok w → world_ok (judge_interrupts w judge j t ev).
Proof.
  intros Hj Hev [H1 H2 H3 H4 H5 H6 H7 H8]. destruct (H6 j t Hj) as (Hin & key & Hkey & Htid).
  constructor; cbn; try done.
  - intros u b Hu. destruct (H3 u b Hu) as (Hk & k & Hr & Hq & Hs). split; [done|]. rewrite lookup_alter.
    case_decide as Hd; [destruct Hd; exists (interrupt k); by rewrite Hr|by exists k].
  - intros u. rewrite lookup_alter. case_decide; [subst; rewrite fmap_is_Some|]; apply H4.
  - intros j' t'. rewrite lookup_insert. case_decide; [intros [= <-]; cbn; by split; [|exists key]|apply H6].
  - intros u k. rewrite lookup_alter, lookup_insert. case_decide as Hd.
    + subst u. intros _ _. split; [done|]. exists key, ev. by rewrite <- Htid.
    + apply H7.
  - intros u Ha Hs. rewrite lookup_alter. case_decide as Hd.
    + left. subst u. apply H1 in Hs as Hs'. destruct Hs as [b Hb]. destruct (H3 _ b Hb) as (_ & k & Hk & _).
      exists (interrupt k). by rewrite Hk.
    + destruct (H8 u Ha Hs) as [?|(j' & t' & Hj' & Hr & Hn)]; [by left|right]. exists j', t'.
      rewrite lookup_insert_ne; [done|]. intros <-. assert (t' = t) as -> by congruence. done.
Qed.

Lemma scan_ok w call_held now mode sp table :
  scan_pending (w_requests w) call_held now mode (Some (w_table w)) = Some (sp, table) → world_ok w →
  world_ok (MkWorld table (w_requests w) (w_answering w) (w_judge w) (w_judges w) (w_keys w) (w_asked w) (w_evidence w)).
Proof.
  intros [= _ <-] [H1 H2 H3 H4 H5 H6 H7 H8]. constructor; cbn; try done.
  - intros u. rewrite lookup_fmap, fmap_is_Some. apply H1.
  - intros u a. rewrite lookup_fmap. intros (a0 & Ha & ->)%fmap_Some. cbn. by apply H2.
Qed.

Lemma world_step_ok w w' : world_step w w' → world_ok w → world_ok w'.
Proof.
  intros Hs Hw. destruct Hs as [key now Hk|u Hu|u k k' req now Hu Hk Hc|u phase attached stream now Hu|u retries Hu|u Hu|u Hu
    |u j Hj|j t read b judge Hj Ht Hv Hh|j t Hj Ht Hh|j t read b judge Hj Ht Hv|j t judge Hj Ht Hh He|call_held now mode sp table Hs].
  - by apply spawn_ok.
  - by apply task_runs_ok.
  - assert (with_requests w (<[u := k']> (w_requests w)) = with_requests w (alter (λ _, k') u (w_requests w))) as ->.
    { f_equal. apply map_eq. intros i. rewrite lookup_insert, lookup_alter. case_decide; [subst; by rewrite Hk|done]. }
    assert (same_latch k k') as Hl.
    { unfold call_begin in Hc. destruct (rk_call k); [done|]. injection Hc as <-. by split. }
    apply with_requests_ok; [| |done]; intros u'; rewrite lookup_alter; case_decide; subst.
    + congruence.
    + done.
    + intros k0 Hk0. simplify_eq. rewrite Hk. by exists k'.
    + intros k0 Hk0. exists k0. by split.
  - apply alter_ok; [|done]. by intros k.
  - apply alter_ok; [|done]. by intros k.
  - apply alter_ok; [|done]. by intros k.
  - by apply task_ends_ok.
  - by apply interrupt_asked_ok.
  - destruct b; [apply judge_interrupts_ok|apply judge_to_ok]; try done. unfold honoured. by rewrite Hv.
  - by apply judge_to_ok.
  - destruct b; [apply judge_interrupts_ok|apply judge_to_ok]; try done. unfold honoured. by rewrite Hv.
  - apply judge_to_ok; [done| |done]. intros _. destruct (w_answering w !! jt_request t) eqn:Ha; [|done].
    destruct Hh. right. left. by eexists.
  - by eapply scan_ok.
Qed.

Lemma world_reachable_ok w : reachable w → world_ok w.
Proof.
  intros [p Hr]. revert w Hr. apply rtc_ind_r; [|intros y z _ Hs Hy; by eapply world_step_ok].
  constructor; cbn; try done; try set_solver; try (intros u; split; by intros [? ?]); by intros u [? ?].
Qed.

(** *** What honouring means *)

Lemma verdict_readable j tid b : jd_enabled j = true → tid ≠ 0 → (verdict j tid (Some (Ok b))).1 = b.
Proof. intros Hj Ht. unfold verdict. rewrite Hj. cbn. by rewrite (proj2 (Z.eqb_neq tid 0) Ht). Qed.

Lemma stands_readable j tid status stat p i :
  jd_enabled j = true → tid ≠ 0 → pending_in status = Some p → io_worker_in stat = Some i →
  (stands j tid (Some (Ok status, Ok stat))).1 = p || i.
Proof.
  intros Hj Ht Hp Hi. unfold stands, unblocked_signal_pending, is_io_worker, ok_or_invalid. rewrite Hp, Hi.
  destruct p; by rewrite verdict_readable.
Qed.
Lemma signal_came_readable j tid status p :
  jd_enabled j = true → tid ≠ 0 → pending_in status = Some p → (signal_came j tid (Some (Ok status))).1 = p.
Proof.
  intros Hj Ht Hp. unfold signal_came, unblocked_signal_pending, ok_or_invalid. cbn. rewrite Hp. by rewrite verdict_readable.
Qed.

(** A signal, or an io_uring worker, wherever the thread's files could be read. *)
Definition stood_for_a_signal (tid : Z) (ev : Evidence) : Prop :=
  match ev with
  | Ev_Stands j read =>
      ∀ status stat p i, read = Some (Ok status, Ok stat) → jd_enabled j = true → tid ≠ 0 →
        pending_in status = Some p → io_worker_in stat = Some i → p || i = true
  | Ev_Came j read =>
      ∀ status p, read = Some (Ok status) → jd_enabled j = true → tid ≠ 0 → pending_in status = Some p → p = true
  end.
Lemma honoured_means tid ev : honoured tid ev → stood_for_a_signal tid ev.
Proof.
  destruct ev as [j read|j read]; cbn.
  - intros Hh status stat p i -> Hj Ht Hp Hi. by rewrite (stands_readable j tid status stat p i) in Hh.
  - intros Hh status p -> Hj Ht Hp. by rewrite (signal_came_readable j tid status p) in Hh.
Qed.

(** C26: However the kernel's requests and interrupts, the tasks that answer and the
    judges interleave, the table is exactly the requests being answered, so an interrupt
    or the watchdog finds each of them and none that is done.  A request is interrupted
    only when the kernel asked for it and the thread blocked in it had, by its files, a
    signal it had not blocked or was an io_uring worker, or could not be judged.  And no
    interrupt is lost: one asked of a request still being answered has interrupted it, or
    a judge is still at it and will look again. *)
Theorem interrupts_stand (w : World) (Hw : reachable w) :
  (∀ u, is_Some (w_table w !! u) ↔ is_Some (w_answering w !! u)) ∧
  (∀ u k, w_requests w !! u = Some k → rk_interrupt k = true → u ∈ w_asked w ∧
    ∃ key ev, w_keys w !! u = Some key ∧ w_evidence w !! u = Some ev ∧ honoured (kp_pid key) ev
      ∧ stood_for_a_signal (kp_pid key) ev) ∧
  (∀ u, u ∈ w_asked w → is_Some (w_table w !! u) →
    (∃ k, w_requests w !! u = Some k ∧ rk_interrupt k = true)
    ∨ ∃ j t, w_judges w !! j = Some t ∧ jt_request t = u ∧ jt_at t ≠ J_over).
Proof.
  apply world_reachable_ok in Hw. destruct Hw as [H1 H2 H3 H4 H5 H6 H7 H8]. split; [done|]. split.
  - intros u k Hu Hi. destruct (H7 u k Hu Hi) as (Ha & key & ev & Hk & He & Hh). split; [done|].
    exists key, ev. split_and!; try done. by apply honoured_means.
  - intros u Ha Ht. apply H8; [done|]. by apply H1.
Qed.

(** A caller woken by io_uring, and then sent a signal. *)
Definition demo_key : KeyPerf := KeyPerf_of "read" 5 70 9.
Definition demo_status (shd : Z) : text :=
  render [(lit "SigPnd", hex_text 16 0); (lit "ShdPnd", hex_text 16 shd); (lit "SigBlk", hex_text 16 0)].
Definition demo_stat : text := lit "70 (cat) S 1 1 1 0 -1 4194304 0".
Definition demo_judge : Judge := MkJudge true 0.
Definition demo_world : World :=
  let t := MkJudgeTask 5 70 J_judging in
  let w := interrupt_asked (task_runs (spawn (world_new demo_judge) demo_key 0) 5) 5 1 in
  let w := judge_to w demo_judge 1 t J_sleeping in
  let w := judge_to w demo_judge 1 (MkJudgeTask 5 70 J_sleeping) J_looking in
  judge_interrupts w demo_judge 1 (MkJudgeTask 5 70 J_looking) (Ev_Came demo_judge (Some (Ok (demo_status 0x800)))).

Lemma world_step_to (w w' : World) : world_step w w' → ∀ w'', w' = w'' → ∀ z, rtc world_step w'' z → rtc world_step w z.
Proof. intros Hs w'' <- z Hr. by eapply rtc_l. Qed.

Lemma demo_reachable : reachable demo_world.
Proof.
  exists (Ok true). change (for_this_process (Ok true)) with demo_judge.
  eapply world_step_to; [apply (ws_spawn _ demo_key 0); done|reflexivity|].
  eapply world_step_to; [apply (ws_runs _ 5); vm_compute; reflexivity|reflexivity|].
  eapply world_step_to; [apply (ws_interrupt _ 5 1); vm_compute; reflexivity|reflexivity|].
  eapply world_step_to.
  { apply (ws_judged _ 1 (MkJudgeTask 5 70 J_judging) (Some (Ok (demo_status 0), Ok demo_stat)) false demo_judge).
    - vm_compute; reflexivity.
    - done.
    - vm_compute; reflexivity.
    - left. vm_compute. by eexists. }
  { reflexivity. }
  eapply world_step_to; [apply (ws_rechecks _ 1 (MkJudgeTask 5 70 J_sleeping));
    [vm_compute; reflexivity|done|left; vm_compute; by eexists]|reflexivity|].
  eapply world_step_to.
  { apply (ws_looked _ 1 (MkJudgeTask 5 70 J_looking) (Some (Ok (demo_status 0x800))) true demo_judge).
    - vm_compute; reflexivity.
    - done.
    - vm_compute; reflexivity. }
  { reflexivity. }
  apply rtc_refl.
Qed.

Lemma interrupts_stand_witness :
  rk_interrupt <$> w_requests demo_world !! 5 = Some true ∧
  ∀ u k, w_requests demo_world !! u = Some k → rk_interrupt k = true → u ∈ w_asked demo_world ∧
    ∃ key ev, w_keys demo_world !! u = Some key ∧ w_evidence demo_world !! u = Some ev ∧ honoured (kp_pid key) ev
      ∧ stood_for_a_signal (kp_pid key) ev.
Proof.
  split; [vm_compute; reflexivity|]. exact (proj1 (proj2 (interrupts_stand demo_world demo_reachable))).
Defined.

(** A scan counts the whole table, and gives what it selects once each, oldest first. *)
Lemma scan_oldest_first requests call_held now mode inflight sp table :
  scan_pending requests call_held now mode (Some inflight) = Some (sp, table) →
  sp_count sp = size inflight ∧ StronglySorted age_le (sp_found sp) ∧
  sp_found sp ≡ₚ pending_of requests call_held now <$> filter (λ a, selected now mode a = true) (snd <$> map_to_list inflight).
Proof.
  intros [= <- _]. cbn. split; [done|]. split; [apply (StronglySorted_merge_sort _)|apply merge_sort_Permutation].
Qed.
