(* ===== verification/Holders.v ===== *)
(** * Who holds handles ([crates/client/src/handles.rs], [conn.rs])

    A report of the handles open, by the process that opened them: how many each holds,
    and the deepest directory that at least half of them are in ([processes]).  The
    client logs it when the server says the mount is past its share ([report_handles]). *)

From stdpp Require Import sorting pretty.
From S2P Require Import Prelude Types Msg Wire ClientHandles Control.

(** ** Orders *)

(** Lexicographic, as slices compare. *)
Fixpoint lex_cmp {A} (cmp : A → A → comparison) (l1 l2 : list A) : comparison :=
  match l1, l2 with
  | [], [] => Eq
  | [], _ :: _ => Lt
  | _ :: _, [] => Gt
  | a :: l1, b :: l2 => match cmp a b with Eq => lex_cmp cmp l1 l2 | c => c end
  end.
Definition byte_cmp (a b : byte) : comparison := Z.compare (byte_z a) (byte_z b).
Definition name_cmp (a b : Name) : comparison := lex_cmp byte_cmp (as_bytes a) (as_bytes b).
Definition then_cmp (c d : comparison) : comparison := match c with Eq => d | _ => c end.

(** [Iterator::max_by]: the last of the greatest. *)
Definition max_by {A} (cmp : A → A → comparison) (l : list A) : option A :=
  match l with
  | [] => None
  | a :: l => Some (foldl (λ x y, match cmp x y with Gt => x | _ => y end) a l)
  end.

(** ** [String::from_utf8_lossy] *)

Definition replacement : list byte := [Byte.xef; Byte.xbf; Byte.xbd].
(** The bytes of the first character, and whether it is one: otherwise, those of the
    longest beginning of a character. *)
Definition lead (a : byte) : option (Z * Z * nat) :=
  if in_range 194 223 a then Some (128, 191, 0%nat)
  else if byte_z a =? 224 then Some (160, 191, 1%nat)
  else if byte_z a =? 237 then Some (128, 159, 1%nat)
  else if in_range 225 239 a then Some (128, 191, 1%nat)
  else if byte_z a =? 240 then Some (144, 191, 2%nat)
  else if in_range 241 243 a then Some (128, 191, 2%nat)
  else if byte_z a =? 244 then Some (128, 143, 2%nat)
  else None.
Fixpoint continued (n : nat) (bs : list byte) : bool * nat :=
  match n, bs with
  | O, _ => (true, O)
  | S n, b :: bs => if continues b then let '(ok, k) := continued n bs in (ok, S k) else (false, O)
  | S _, [] => (false, O)
  end.
Definition first_char (a : byte) (rest : list byte) : bool * nat :=
  if in_range 0 127 a then (true, 1%nat)
  else match lead a, rest with
       | Some (lo, hi, more), b :: rest =>
           if in_range lo hi b then let '(ok, k) := continued more rest in (ok, S (S k)) else (false, 1%nat)
       | _, _ => (false, 1%nat)
       end.
Fixpoint from_utf8_lossy_from (fuel : nat) (bs : list byte) : list byte :=
  match fuel, bs with
  | S fuel, a :: rest =>
      let '(ok, k) := first_char a rest in
      (if ok then take k bs else replacement) ++ from_utf8_lossy_from fuel (drop k bs)
  | _, _ => []
  end.
Definition from_utf8_lossy (bs : list byte) : string := String.string_of_list_byte (from_utf8_lossy_from (length bs) bs).

(** ** The report *)

#[export] Instance Opener_eq_dec : EqDecision Opener. Proof. solve_decision. Defined.
#[export] Program Instance Opener_countable : Countable Opener :=
  inj_countable' (λ o, (o_pid o, o_name o)) (λ p, MkOpener p.1 p.2) _.
Next Obligation. by intros []. Qed.

(** A handle open: its opener, whether it is a directory, and its path. *)
Definition Held : Type := option Opener * bool * Path.

Record Row := MkRow { rw_files : Z; rw_dirs : Z; rw_under : gmap (list Name) Z }.
Definition Row_default : Row := MkRow 0 0 ∅.

Definition parent_names (p : Path) : list Name := take (length (names p) - 1) (names p).
Definition incr (u : gmap (list Name) Z) (d : list Name) : gmap (list Name) Z := <[d := default 0 (u !! d) + 1]> u.
Definition Row_add (r : Row) (dir : bool) (path : Path) : Row :=
  let parent := parent_names path in
  MkRow (if dir then rw_files r else rw_files r + 1) (if dir then rw_dirs r + 1 else rw_dirs r)
    (foldl (λ u depth, incr u (take depth parent)) (rw_under r) (seq 0 (S (length parent)))).

Definition rows_of (handles : list Held) : gmap (option Opener) Row :=
  foldl (λ rows h, <[h.1.1 := Row_add (default Row_default (rows !! h.1.1)) h.1.2 h.2]> rows) ∅ handles.

Definition total (r : Row) : Z := rw_files r + rw_dirs r.
Definition dir_cmp (a b : list Name) : comparison :=
  then_cmp (Nat.compare (length a) (length b)) (lex_cmp name_cmp b a).
Definition within (r : Row) : list Name :=
  default [] (max_by dir_cmp (fst <$> filter (λ x, total r <= 2 * x.2) (map_to_list (rw_under r)))).

Definition fmt_within (ns : list Name) : string :=
  let out := foldl (λ out n, out +:+ "/" +:+ from_utf8_lossy (as_bytes n)) EmptyString ns in
  if String.eqb out "" then "/" else out.

Definition process_of (opener : option Opener) (r : Row) : HandlesProcess :=
  MkHandlesProcess (match opener with Some o => o_pid o | None => 0 end)
    (match opener with Some o => o_name o | None => EmptyString end) (rw_files r) (rw_dirs r) (fmt_within (within r)).

Definition held_by (r : HandlesProcess) : Z := hp_files r + hp_dirs r.
Definition largest_first (a b : HandlesProcess) : Prop :=
  held_by b < held_by a ∨ held_by b = held_by a ∧ hp_pid a <= hp_pid b.
#[export] Instance largest_first_dec : RelDecision largest_first.
Proof. intros a b. unfold largest_first. apply _. Defined.

Definition processes (handles : list Held) : list HandlesProcess :=
  merge_sort largest_first ((λ x, process_of x.1 x.2) <$> map_to_list (rows_of handles)).

(** [HandleTable::processes]: the walk is outside the table's lock. *)
Definition held_of (r : HandleRec) : Held := (hr_opener r, bool_decide (hr_kind r = HK_Dir), hr_path r).

(** ** Its lines *)

Definition REPORT_PROCESSES : nat := 10.
Definition who (r : HandlesProcess) : string :=
  if hp_pid r =? 0 then "(unattributed)" else hp_name r +:+ "[" +:+ pretty (hp_pid r) +:+ "]".
Definition line_process (r : HandlesProcess) : string :=
  "  " +:+ who r +:+ " " +:+ pretty (hp_files r) +:+ " files, " +:+ pretty (hp_dirs r) +:+ " dirs, within " +:+ hp_within r.
Definition lines_handles (notice : NoticeHandles) (totals : HandlesTotals) (rows : list HandlesProcess) : list string :=
  let rest := drop REPORT_PROCESSES rows in
  [("the server reports this mount holds " +:+ pretty (n_held notice) +:+ " handles, past its share of "
    +:+ pretty (n_share notice) +:+ "; this client holds " +:+ pretty (htt_files totals + htt_dirs totals) +:+ " ("
    +:+ pretty (htt_files totals) +:+ " files, " +:+ pretty (htt_dirs totals) +:+ " dirs), by the process that opened them:")%string]
  ++ (line_process <$> take REPORT_PROCESSES rows)
  ++ (if (REPORT_PROCESSES <? length rows)%nat
      then [("  and " +:+ pretty (len_z rest) +:+ " more processes holding " +:+ pretty (sum_z held_by rest))%string]
      else []).

(** ** Orders that decide *)

Record good_cmp {A} (cmp : A → A → comparison) : Prop := {
  gc_eq : ∀ a b, cmp a b = Eq → a = b;
  gc_refl : ∀ a, cmp a a = Eq;
  gc_anti : ∀ a b, cmp b a = CompOpp (cmp a b);
  gc_trans : ∀ a b c, cmp a b = Lt → cmp b c = Lt → cmp a c = Lt }.

Lemma good_Z {A} (f : A → Z) : (∀ a b, f a = f b → a = b) → good_cmp (λ a b, Z.compare (f a) (f b)).
Proof.
  intros Hf. split.
  - intros a b Hab. by apply Hf, Z.compare_eq.
  - intros a. apply Z.compare_refl.
  - intros a b. apply Z.compare_antisym.
  - intros a b c Hab Hbc. exact (Z.lt_trans (f a) (f b) (f c) Hab Hbc).
Qed.

Lemma good_lex {A} (cmp : A → A → comparison) : good_cmp cmp → good_cmp (lex_cmp cmp).
Proof.
  intros [He Hr Ha Ht]. split.
  - induction a as [|a l1 IH]; intros [|b l2]; cbn; try done. destruct (cmp a b) eqn:Hc; try done.
    intros H%IH. apply He in Hc. congruence.
  - induction a as [|a l IH]; cbn; [done|]. by rewrite Hr.
  - induction a as [|a l1 IH]; intros [|b l2]; cbn; try done. rewrite (Ha a b), IH. by destruct (cmp a b).
  - induction a as [|a l1 IH]; intros [|b l2] [|c l3]; cbn; try done.
    destruct (cmp a b) eqn:Hab, (cmp b c) eqn:Hbc; try done; intros H1 H2.
    + apply He in Hab, Hbc. subst. rewrite Hr. by eapply IH.
    + apply He in Hab. subst. by rewrite Hbc.
    + apply He in Hbc. subst. by rewrite Hab.
    + by rewrite (Ht a b c).
Qed.

Lemma good_name : good_cmp name_cmp.
Proof.
  assert (good_cmp byte_cmp) as Hb.
  { apply good_Z. apply byte_z_inj. }
  destruct (good_lex byte_cmp Hb) as [He Hr Ha Ht]. split; intros; unfold name_cmp in *; eauto.
  apply He in H. destruct a, b. cbn in H. by subst.
Qed.

Lemma good_dir : good_cmp dir_cmp.
Proof.
  destruct (good_lex name_cmp good_name) as [He Hr Ha Ht]. unfold dir_cmp, then_cmp.
  split.
  - intros a b. destruct (Nat.compare (length a) (length b)); try done. intros H%He. done.
  - intros a. by rewrite Nat.compare_refl.
  - intros a b. rewrite Nat.compare_antisym, (Ha b a). by destruct (Nat.compare (length a) (length b)).
  - intros a b c.
    destruct (Nat.compare_spec (length a) (length b)), (Nat.compare_spec (length b) (length c)); intros H1 H2; try done.
    + replace (Nat.compare (length a) (length c)) with Eq by (symmetry; apply Nat.compare_eq_iff; lia). by eapply Ht.
    + replace (Nat.compare (length a) (length c)) with Lt by (symmetry; apply Nat.compare_lt_iff; lia). done.
    + replace (Nat.compare (length a) (length c)) with Lt by (symmetry; apply Nat.compare_lt_iff; lia). done.
    + replace (Nat.compare (length a) (length c)) with Lt by (symmetry; apply Nat.compare_lt_iff; lia). done.
Qed.

Definition at_most {A} (cmp : A → A → comparison) (a b : A) : Prop := cmp a b ≠ Gt.
Lemma at_most_trans {A} (cmp : A → A → comparison) a b c : good_cmp cmp → at_most cmp a b → at_most cmp b c → at_most cmp a c.
Proof.
  intros [He Hr Ha Ht] H1 H2. unfold at_most in *.
  destruct (cmp a b) eqn:Hab; [apply He in Hab; by subst| |done].
  destruct (cmp b c) eqn:Hbc; [apply He in Hbc; subst; by rewrite Hab| |done]. by rewrite (Ht a b c).
Qed.
Lemma max_by_greatest {A} (cmp : A → A → comparison) l a : good_cmp cmp → max_by cmp l = Some a →
  a ∈ l ∧ ∀ b, b ∈ l → at_most cmp b a.
Proof.
  intros Hg. destruct l as [|x l]; [done|]. cbn. intros [= <-]. revert x.
  induction l as [|y l IH]; intros x; cbn.
  - split; [by left|]. intros b ->%list_elem_of_singleton. unfold at_most. by rewrite (gc_refl _ Hg).
  - assert (∀ z, (z = x ∧ at_most cmp y x ∨ z = y ∧ at_most cmp x y) →
      foldl (λ x y, match cmp x y with Gt => x | _ => y end) z l ∈ x :: y :: l ∧
      ∀ b, b ∈ x :: y :: l → at_most cmp b (foldl (λ x y, match cmp x y with Gt => x | _ => y end) z l)) as Hz.
    { intros z Hz. destruct (IH z) as [Hin Hle]. split.
      - apply elem_of_cons in Hin as [Heq|Hin]; [|by do 2 right]. rewrite Heq.
        destruct Hz as [[-> _]|[-> _]]; [by left|right; by left].
      - pose proof (Hle z ltac:(by left)) as Hzz.
        intros b Hb. apply elem_of_cons in Hb as [->|Hb]; [|apply elem_of_cons in Hb as [->|Hb]; [|apply Hle; by right]].
        + destruct Hz as [[-> _]|[-> Hxy]]; [done|]. by eapply at_most_trans.
        + destruct Hz as [[-> Hyx]|[-> _]]; [|done]. by eapply at_most_trans. }
    apply Hz. unfold at_most. rewrite (gc_anti _ Hg x y). destruct (cmp x y); [right|right|left]; done.
Qed.

(** ** The rows count what they say *)

(** The handles of one opener, each as whether it is a directory and its path. *)
Definition of_opener (opener : option Opener) (handles : list Held) : list (bool * Path) :=
  (λ h : Held, (h.1.2, h.2)) <$> filter (λ h : Held, h.1.1 = opener) handles.
Definition row_of (l : list (bool * Path)) : Row := foldl (λ r h, Row_add r h.1 h.2) Row_default l.

Definition files_in (l : list (bool * Path)) : Z := len_z (filter (λ h, h.1 = false) l).
Definition dirs_in (l : list (bool * Path)) : Z := len_z (filter (λ h, h.1 = true) l).
(** How many are in a directory, at any depth; all are in the root. *)
Definition beneath (d : list Name) (p : Path) : Prop := d = [] ∨ d `prefix_of` names p ∧ d ≠ names p.
#[export] Instance beneath_dec d p : Decision (beneath d p). Proof. unfold beneath. apply _. Defined.
Definition in_dir (d : list Name) (l : list (bool * Path)) : Z := len_z (filter (λ h, beneath d h.2) l).

Lemma beneath_parent d p : beneath d p ↔ d `prefix_of` parent_names p.
Proof.
  unfold beneath, parent_names. destruct p as [ns]. cbn [names]. destruct ns as [|n ns _] using rev_ind.
  - cbn. split; [|intros ->%prefix_nil_inv; by left]. intros [->|[->%prefix_nil_inv ?]]; [done|done].
  - rewrite length_app. cbn [length]. replace (length ns + 1 - 1)%nat with (length ns) by lia. rewrite take_app_length.
    split.
    + intros [->|[[rest Hp] Hne]]; [apply prefix_nil|]. destruct rest as [|m rest _] using rev_ind.
      { rewrite app_nil_r in Hp. by subst. }
      rewrite (assoc_L (++)) in Hp. apply app_inj_tail in Hp as [-> _]. by exists rest.
    + intros [rest ->]. right. split; [exists (rest ++ [n]); by rewrite (assoc_L (++))|].
      intros H%(f_equal length). rewrite !length_app in H. cbn in H. lia.
Qed.

Lemma rows_of_lookup handles opener :
  rows_of handles !! opener
  = match of_opener opener handles with [] => None | l => Some (row_of l) end.
Proof.
  unfold rows_of, of_opener. induction handles as [|h handles IH] using rev_ind; [done|].
  rewrite foldl_app, filter_app, fmap_app. cbn [foldl]. rewrite lookup_insert. case_decide as Hd.
  - rewrite filter_cons_True, filter_nil by done. rewrite Hd, IH. clear IH.
    generalize ((λ h0 : Held, (h0.1.2, h0.2)) <$> filter (λ h0 : Held, h0.1.1 = opener) handles) as l. intros l.
    cbn [fmap list_fmap]. unfold row_of.
    assert (∀ x, match l ++ [x] with [] => None | p :: l0 => Some (foldl (λ r h, Row_add r h.1 h.2) Row_default (p :: l0)) end
                 = Some (foldl (λ r h, Row_add r h.1 h.2) Row_default (l ++ [x]))) as -> by (by destruct l).
    rewrite foldl_app. by destruct l.
  - rewrite filter_cons_False, filter_nil by done. by rewrite app_nil_r, IH.
Qed.

Lemma prefixes_NoDup (l : list Name) : NoDup ((λ k, take k l) <$> seq 0 (S (length l))).
Proof.
  apply NoDup_fmap_2_strong; [|apply NoDup_seq]. intros i j Hi%elem_of_seq Hj%elem_of_seq Heq.
  apply (f_equal length) in Heq. rewrite !length_take in Heq. lia.
Qed.
Lemma prefixes_elem (l d : list Name) : d ∈ (λ k, take k l) <$> seq 0 (S (length l)) ↔ d `prefix_of` l.
Proof.
  rewrite list_elem_of_fmap. split.
  - intros (k & -> & _). exists (drop k l). by rewrite take_drop.
  - intros [l' ->]. exists (length d). rewrite take_app_length. split; [done|]. apply elem_of_seq. rewrite length_app. lia.
Qed.
Lemma incr_all (ds : list (list Name)) (u : gmap (list Name) Z) (d : list Name) : NoDup ds →
  foldl incr u ds !! d = if decide (d ∈ ds) then Some (default 0 (u !! d) + 1) else u !! d.
Proof.
  revert u. induction ds as [|d' ds IH]; intros u Hnd; [by rewrite decide_False by set_solver|].
  apply NoDup_cons in Hnd as [Hn Hnd]. cbn. rewrite IH by done. unfold incr.
  destruct (decide (d' = d)) as [->|Hne].
  - rewrite decide_False by done. rewrite decide_True by by left. by rewrite lookup_insert_eq.
  - rewrite lookup_insert_ne by done. destruct (decide (d ∈ ds)); [by rewrite decide_True by by right|].
    rewrite decide_False; [done|]. intros [?|?]%elem_of_cons; congruence.
Qed.

Lemma row_of_snoc l h : row_of (l ++ [h]) = Row_add (row_of l) h.1 h.2.
Proof. unfold row_of. by rewrite foldl_app. Qed.
Lemma len_filter_snoc {A} (P : A → Prop) `{∀ a, Decision (P a)} l a :
  len_z (filter P (l ++ [a])) = len_z (filter P l) + (if decide (P a) then 1 else 0).
Proof.
  unfold len_z. rewrite filter_app, length_app. case_decide.
  - rewrite filter_cons_True, filter_nil by done. cbn. lia.
  - rewrite filter_cons_False, filter_nil by done. cbn. lia.
Qed.

Lemma row_of_counts l :
  rw_files (row_of l) = files_in l ∧ rw_dirs (row_of l) = dirs_in l ∧
  ∀ d, rw_under (row_of l) !! d = if decide (in_dir d l = 0) then None else Some (in_dir d l).
Proof.
  induction l as [|h l (Hf & Hd & Hu)] using rev_ind; [by split_and!|].
  unfold files_in, dirs_in, in_dir in *. rewrite row_of_snoc, !len_filter_snoc. unfold Row_add. cbn [rw_files rw_dirs rw_under].
  rewrite Hf, Hd. split; [|split].
  - destruct h as [[] p]; cbn; [by rewrite decide_False, Z.add_0_r|by rewrite decide_True].
  - destruct h as [[] p]; cbn; [by rewrite decide_True|by rewrite decide_False, Z.add_0_r].
  - intros d. rewrite len_filter_snoc.
    rewrite <- (foldl_fmap incr _ _ (λ k, take k (parent_names h.2))).
    rewrite incr_all by apply prefixes_NoDup. rewrite Hu.
    assert (0 <= len_z (filter (λ h : bool * Path, beneath d h.2) l)) by (unfold len_z; lia).
    destruct (decide (beneath d h.2)) as [Hp|Hp]; rewrite beneath_parent in Hp.
    + rewrite decide_True by by apply prefixes_elem. rewrite (decide_False (P := _ + 1 = 0)) by lia.
      case_decide as Hz; cbn; [by rewrite Hz|done].
    + rewrite decide_False by by rewrite prefixes_elem. by rewrite Z.add_0_r.
Qed.

Lemma row_total l : total (row_of l) = len_z l.
Proof.
  destruct (row_of_counts l) as (Hf & Hd & _). unfold total. rewrite Hf, Hd. unfold files_in, dirs_in. clear.
  induction l as [|h l IH] using rev_ind; [done|]. rewrite !len_filter_snoc. unfold len_z in *. rewrite length_app. cbn.
  destruct h as [[] p]; cbn; [rewrite decide_False, decide_True by done|rewrite decide_True, decide_False by done]; lia.
Qed.

(** The directory reported is the deepest that half of the handles are in; of several as
    deep, the first in order. *)
Lemma within_deepest l : l ≠ [] →
  total (row_of l) <= 2 * in_dir (within (row_of l)) l ∧
  ∀ d, total (row_of l) <= 2 * in_dir d l → at_most dir_cmp d (within (row_of l)).
Proof.
  intros Hne. destruct (row_of_counts l) as (_ & _ & Hu). pose proof (row_total l) as Htot.
  assert (0 < len_z l) as Hpos by (unfold len_z; destruct l; [done|cbn; lia]).
  set (ds := fst <$> filter (λ x : list Name * Z, total (row_of l) <= 2 * x.2) (map_to_list (rw_under (row_of l)))).
  assert (∀ d, d ∈ ds ↔ total (row_of l) <= 2 * in_dir d l) as Hds.
  { intros d. unfold ds. rewrite list_elem_of_fmap. split.
    - intros ([d' n] & -> & [Hn Hin]%list_elem_of_filter). apply elem_of_map_to_list in Hin. rewrite Hu in Hin.
      case_decide; [done|]. cbn in *. by injection Hin as ->.
    - intros Hd. exists (d, in_dir d l). split; [done|]. apply list_elem_of_filter. split; [done|].
      apply elem_of_map_to_list. rewrite Hu, decide_False; [done|]. lia. }
  assert ([] ∈ ds) as Hroot.
  { apply Hds. rewrite Htot. unfold in_dir. assert (filter (λ h : bool * Path, beneath [] h.2) l = l) as ->; [|lia].
    clear. induction l as [|h l IH]; [done|]. rewrite filter_cons_True by by left. by rewrite IH. }
  unfold within. fold ds. destruct (max_by dir_cmp ds) as [d|] eqn:Hmax; cbn.
  - apply (max_by_greatest _ _ _ good_dir) in Hmax as [Hin Hle]. split; [by apply Hds|]. intros d' Hd'. apply Hle. by apply Hds.
  - destruct ds; [set_solver|done].
Qed.

#[export] Instance largest_first_trans : Transitive largest_first.
Proof. intros a b c. unfold largest_first. lia. Qed.
#[export] Instance largest_first_total : Total largest_first.
Proof. intros a b. unfold largest_first. lia. Qed.

(** What a row says of a holder: who it is, how many files and directories it has open,
    and a directory that half of them at least are in; no deeper one has as many, and of
    several as deep it is the first in order. *)
Definition path_text (d : list Name) : string :=
  match d with [] => "/" | _ => String.concat "" ((λ n, "/" +:+ from_utf8_lossy (as_bytes n)) <$> d) end.
Definition reports (o : option Opener) (l : list (bool * Path)) (p : HandlesProcess) : Prop :=
  (hp_pid p, hp_name p) = match o with Some o => (o_pid o, o_name o) | None => (0, "") end
  ∧ hp_files p = files_in l ∧ hp_dirs p = dirs_in l
  ∧ ∃ d, hp_within p = path_text d ∧ len_z l <= 2 * in_dir d l
      ∧ ∀ d', len_z l <= 2 * in_dir d' l →
          (length d' < length d)%nat ∨ length d' = length d ∧ lex_cmp name_cmp d d' ≠ Gt.

Lemma fmt_within_text d : fmt_within d = path_text d.
Proof.
  unfold fmt_within, path_text.
  assert (∀ out, foldl (λ out n, out +:+ "/" +:+ from_utf8_lossy (as_bytes n)) out d
                 = out +:+ String.concat "" ((λ n, "/" +:+ from_utf8_lossy (as_bytes n)) <$> d)) as H.
  { induction d as [|n d IH]; intros out; [by rewrite append_nil_r|].
    cbn [foldl]. rewrite IH, append_assoc. f_equal. destruct d; [apply append_nil_r|done]. }
  rewrite H. destruct d as [|n d]; [done|]. by destruct d.
Qed.

Lemma process_reports o l : l ≠ [] → reports o l (process_of o (row_of l)).
Proof.
  intros Hne. destruct (row_of_counts l) as (Hf & Hd & _). destruct (within_deepest l Hne) as [Hin Hdeep].
  rewrite row_total in *. split; [by destruct o|]. split; [done|]. split; [done|].
  exists (within (row_of l)). split; [apply fmt_within_text|]. split; [done|]. intros d Hd'%Hdeep.
  unfold at_most, dir_cmp, then_cmp in Hd'. destruct (Nat.compare_spec (length d) (length (within (row_of l)))); [right|left|]; done.
Qed.

(** C40: The report has one row for each process that holds handles, and one for those it
    cannot name, the largest first; each names that process, counts its files and
    directories exactly, whatever order the table is walked in, and names the deepest
    directory that at least half of them are in. *)
Theorem processes_exact (handles : list Held) :
  ∃ openers rows, NoDup openers ∧ (∀ o, o ∈ openers ↔ ∃ h, h ∈ handles ∧ h.1.1 = o)
    ∧ Forall2 (λ o row, reports o (of_opener o handles) row) openers rows
    ∧ processes handles ≡ₚ rows
    ∧ StronglySorted (λ a b, hp_files b + hp_dirs b < hp_files a + hp_dirs a
        ∨ hp_files b + hp_dirs b = hp_files a + hp_dirs a ∧ hp_pid a <= hp_pid b) (processes handles).
Proof.
  assert (∀ o, of_opener o handles ≠ [] ↔ ∃ h, h ∈ handles ∧ h.1.1 = o) as Hof.
  { intros o. unfold of_opener. split.
    - intros Hne. destruct (filter (λ h : Held, h.1.1 = o) handles) as [|h l] eqn:Hl; [done|]. exists h.
      assert (h ∈ filter (λ h : Held, h.1.1 = o) handles) as Hh by (rewrite Hl; by left).
      by apply list_elem_of_filter in Hh as [? ?].
    - intros (h & Hin & Ho) Hnil%fmap_nil_inv. assert (h ∈ filter (λ h : Held, h.1.1 = o) handles) as Hh
        by by apply list_elem_of_filter. rewrite Hnil in Hh. by apply elem_of_nil in Hh. }
  assert (∀ o r, rows_of handles !! o = Some r ↔ of_opener o handles ≠ [] ∧ r = row_of (of_opener o handles)) as Hrows.
  { intros o r. rewrite rows_of_lookup. destruct (of_opener o handles); [split; [done|by intros [? _]]|].
    split; [intros [= <-]; done|by intros [_ ->]]. }
  eexists ((map_to_list (rows_of handles)).*1), _. split; [apply NoDup_fst_map_to_list|]. split; [|split; [|split]].
  - intros o. rewrite <- Hof, list_elem_of_fmap. split.
    + intros ([o' r] & -> & Hin%elem_of_map_to_list). by apply Hrows in Hin as [? _].
    + intros Hne. exists (o, row_of (of_opener o handles)). split; [done|]. apply elem_of_map_to_list. by apply Hrows.
  - instantiate (1 := (λ x, process_of x.1 x.2) <$> map_to_list (rows_of handles)).
    rewrite Forall2_fmap. apply Forall_Forall2_diag, Forall_forall. intros [o r] Hin%elem_of_map_to_list.
    apply Hrows in Hin as [Hne ->]. by apply process_reports.
  - apply merge_sort_Permutation.
  - apply (StronglySorted_merge_sort largest_first).
Qed.

Definition demo_path (l : list string) : Path := MkPath ((λ s, MkName (String.list_byte_of_string s)) <$> l).
Definition demo_held : list Held :=
  let find := Some (MkOpener 7 "find") in
  [(find, true, demo_path ["a"; "b"; "x"]); (None, false, demo_path ["z"]);
   (find, true, demo_path ["a"; "b"; "y"]); (find, false, demo_path ["a"; "c"])]%string.

(** Of three handles two are in [/a/b]. *)
Lemma processes_exact_witness :
  processes demo_held = [MkHandlesProcess 7 "find" 1 2 "/a/b"; MkHandlesProcess 0 "" 1 0 "/"]
  ∧ ∃ row, row ∈ processes demo_held ∧ reports (Some (MkOpener 7 "find")) (of_opener (Some (MkOpener 7 "find")) demo_held) row.
Proof.
  split; [vm_compute; reflexivity|]. destruct (processes_exact demo_held) as (openers & rows & _ & Ho & Hr & Hp & _).
  assert (Some (MkOpener 7 "find") ∈ openers) as Hin.
  { apply Ho. exists (Some (MkOpener 7 "find"), true, demo_path ["a"; "b"; "x"]%string). split; [by left|done]. }
  apply list_elem_of_lookup in Hin as [i Hi]. destruct (Forall2_lookup_l _ _ _ _ _ Hr Hi) as (row & Hrow & H).
  exists row. split; [rewrite Hp; by eapply list_elem_of_lookup_2|exact H].
Defined.
