(* ===== verification/Meters.v ===== *)
(** * What the performance reports measure ([crates/perf/src/lib.rs])

    The texts of durations and sizes; the operations' totals; a connection's statistics,
    the host's physical ports and its UDP drops, each over the window since a baseline;
    the process's resource use; and the verdict that names a link that is full.

    A connection's statistics are the QUIC library's, the counters of ports and sockets
    the kernel's, as files under [/sys] and [/proc]: a reading gives their texts.  Times
    and durations are nanoseconds, and a duration between two instants is zero when the
    later one comes first.  Counters of requests and of bytes are unbounded. *)

From stdpp Require Import sorting pretty.
From S2P Require Import Prelude Perf Float Revision Types Wire Control Text Holders.

Definition MIN_WINDOW : Z := 1000000000.
(** 0.8, 0.5 and 1.1. *)
Definition UTILIZATION_FULL : f64 := tenths 8.
Definition SHARE_OURS : f64 := tenths 5.
Definition SHARE_IMPOSSIBLE : f64 := tenths 11.

Definition since (now then_ : Z) : Z := Z.max 0 (now - then_).

(** ** Texts *)

Definition fmt_duration (d : Z) : string :=
  let us := d / 1000 in
  (if (us <? 1000)%Z then pretty us +:+ "us"
   else if (us <? 1000000)%Z then fmt_fixed 2 (f64_div (f64_of us) (f64_of 1000)) +:+ "ms"
   else fmt_fixed 2 (f64_div (f64_of us) (f64_of 1000000)) +:+ "s")%string.

(** The loop over the units: at most as many divisions as there are units left. *)
Fixpoint scale_units (units : list string) (value : f64) : f64 * string :=
  match units with
  | [] => (value, ""%string)
  | [u] => (value, u)
  | u :: units => if f64_leb (f64_of 1024) value then scale_units units (f64_div value (f64_of 1024)) else (value, u)
  end.
Definition UNITS : list string := ["B"; "KiB"; "MiB"; "GiB"]%string.
Definition fmt_bytes (n : Z) : string :=
  let '(value, unit) := scale_units UNITS (f64_of n) in
  (if bool_decide (unit = "B"%string) then pretty n +:+ "B" else fmt_fixed 1 value +:+ unit)%string.
Definition fmt_rate (bytes_per_second : f64) : string := (fmt_bytes (as_u64 bytes_per_second) +:+ "/s")%string.

Definition fmt_count (n : f64) : string :=
  (if f64_leb (f64_of 1000000) n then fmt_fixed 1 (f64_div n (f64_of 1000000)) +:+ "M"
   else if f64_leb (f64_of 1000) n then fmt_fixed 1 (f64_div n (f64_of 1000)) +:+ "k"
   else fmt_fixed 1 n)%string.

(** ** The totals of operations *)

Record TotalsOp := MkTotalsOp {
  tt_count : Z; tt_bytes : Z; tt_items : Z; tt_errors : Z; tt_total_ns : Z;
  tt_latency : list Z; tt_sizes : list Z }.
Definition TotalsOp_default : TotalsOp := MkTotalsOp 0 0 0 0 0 Histogram_default Histogram_default.

(** By level and operation. *)
Definition Totals : Type := gmap (string * string) TotalsOp.

Definition TotalsOp_add (t : TotalsOp) (bytes items errno took : Z) : TotalsOp :=
  let ns := wrap64 took in
  MkTotalsOp (tt_count t + 1) (tt_bytes t + bytes) (tt_items t + items)
    (tt_errors t + (if errno =? 0 then 0 else 1)) (tt_total_ns t + ns)
    (Histogram_record (tt_latency t) ns)
    (if 0 <? bytes then Histogram_record (tt_sizes t) bytes else tt_sizes t).
Definition Totals_add (t : Totals) (level op : string) (bytes items errno took : Z) : Totals :=
  <[(level, op) := TotalsOp_add (default TotalsOp_default (t !! (level, op))) bytes items errno took]> t.

(** The requests and bytes of every operation at a level. *)
Definition Totals_at (t : Totals) (level : string) : Z * Z :=
  map_fold (λ k o acc, if bool_decide (k.1 = level) then (acc.1 + tt_count o, acc.2 + tt_bytes o) else acc) (0, 0) t.

Definition key_le (a b : string * string) : Prop :=
  match String.compare a.1 b.1 with Lt => True | Eq => String.leb a.2 b.2 = true | Gt => False end.
#[export] Instance key_le_dec a b : Decision (key_le a b).
Proof. unfold key_le. destruct (String.compare a.1 b.1); apply _. Defined.

Definition bucket_of (ub : Z * Z) : Bucket := MkBucket ub.1 ub.2.
Definition total_op (k : string * string) (o : TotalsOp) : TotalOp :=
  MkTotalOp k.1 k.2 (tt_count o) (tt_bytes o) (tt_items o) (tt_errors o) (tt_total_ns o)
    (bucket_of <$> Histogram_buckets (tt_latency o)) (bucket_of <$> Histogram_buckets (tt_sizes o)).
(** In the order of the map's keys. *)
Definition Totals_list (t : Totals) : list TotalOp :=
  (λ ko, total_op ko.1 ko.2)
    <$> merge_sort (λ a b : (string * string) * TotalsOp, key_le a.1 b.1) (map_to_list t).

(** ** A connection *)

(** What is read of [quinn::ConnectionStats]. *)
Record StatsQuic := MkStatsQuic {
  sq_rtt : Z; sq_cwnd : Z; sq_mtu : Z; sq_lost : Z; sq_sent : Z; sq_congestion : Z; sq_black_holes : Z;
  sq_tx_bytes : Z; sq_tx_datagrams : Z; sq_rx_bytes : Z; sq_rx_datagrams : Z }.

Record DeltaQuic := MkDeltaQuic {
  dq_window : Z; dq_rx_bytes : Z; dq_tx_bytes : Z; dq_lost_packets : Z; dq_sent_packets : Z }.
Definition rx_rate (d : DeltaQuic) : f64 := f64_div (f64_of (dq_rx_bytes d)) (as_secs_f64 (dq_window d)).
Definition tx_rate (d : DeltaQuic) : f64 := f64_div (f64_of (dq_tx_bytes d)) (as_secs_f64 (dq_window d)).

Record SampleQuic := MkSampleQuic { sm_stats : StatsQuic; sm_delta : option DeltaQuic }.

(** The baseline sample and its time. *)
Definition TrackerQuic : Type := option (Z * StatsQuic).

Definition delta_quic (now then_ : Z) (stats last : StatsQuic) : DeltaQuic :=
  MkDeltaQuic (since now then_) (sat_sub64 (sq_rx_bytes stats) (sq_rx_bytes last))
    (sat_sub64 (sq_tx_bytes stats) (sq_tx_bytes last)) (sat_sub64 (sq_lost stats) (sq_lost last))
    (sat_sub64 (sq_sent stats) (sq_sent last)).
Definition TrackerQuic_sample_at (t : TrackerQuic) (now : Z) (stats : StatsQuic) : SampleQuic * TrackerQuic :=
  let delta := match t with
               | Some (then_, last) => if MIN_WINDOW <=? since now then_ then Some (delta_quic now then_ stats last) else None
               | None => None
               end in
  (MkSampleQuic stats delta,
   match delta, t with None, Some _ => t | _, _ => Some (now, stats) end).

Definition line_quic (head : string) (s : SampleQuic) : string :=
  let st := sm_stats s in
  ("perf quic " +:+ head +:+ " rtt=" +:+ fmt_duration (sq_rtt st) +:+ " cwnd=" +:+ fmt_bytes (sq_cwnd st)
   +:+ " mtu=" +:+ pretty (sq_mtu st) +:+ " since connect: lost_packets=" +:+ pretty (sq_lost st)
   +:+ " congestion_events=" +:+ pretty (sq_congestion st) +:+ " black_holes=" +:+ pretty (sq_black_holes st)
   +:+ " tx=" +:+ fmt_bytes (sq_tx_bytes st) +:+ "/" +:+ pretty (sq_tx_datagrams st) +:+ " datagrams rx="
   +:+ fmt_bytes (sq_rx_bytes st) +:+ "/" +:+ pretty (sq_rx_datagrams st) +:+ " datagrams"
   +:+ match sm_delta s with
       | Some d => " window=" +:+ fmt_duration (dq_window d) +:+ ": tx=" +:+ fmt_rate (tx_rate d) +:+ " rx="
           +:+ fmt_rate (rx_rate d) +:+ " lost=+" +:+ pretty (dq_lost_packets d) +:+ " of +"
           +:+ pretty (dq_sent_packets d) +:+ " sent"
       | None => ""
       end)%string.

(** ** The host's ports *)

Record CountersLink := MkCountersLink {
  cl_rx_bytes : Z; cl_tx_bytes : Z; cl_rx_dropped : Z; cl_rx_missed : Z; cl_rx_fifo : Z; cl_rx_errors : Z;
  cl_tx_dropped : Z; cl_tx_errors : Z }.
Definition COUNTERS_LINK : list string :=
  ["rx_bytes"; "tx_bytes"; "rx_dropped"; "rx_missed_errors"; "rx_fifo_errors"; "rx_errors"; "tx_dropped"; "tx_errors"]%string.

(** A directory under the root: whether it has the entries looked for, and its files'
    texts, or [None] where one cannot be read. *)
Record PortDir := MkPortDir {
  pd_name : string; pd_device : bool; pd_wireless : bool; pd_phy80211 : bool;
  pd_statistics : string → option text; pd_speed : option text }.

Definition read_number (t : option text) : option Z := t ← t; parse_u64 (trim t).
Definition CountersLink_read (dir : PortDir) : option CountersLink :=
  values ← mapM (λ name, read_number (pd_statistics dir name)) COUNTERS_LINK;
  match values with
  | [rx; tx; rd; rm; rf; re; td; te] => Some (MkCountersLink rx tx rd rm rf re td te)
  | _ => None
  end.

(** [parse::<i64>]: a sign of either kind, then digits. *)
Definition minus : byte := Byte.x2d.
Definition parse_i64 (t : text) : option Z :=
  match t with
  | b :: (_ :: _) as d => if bool_decide (b = minus) then Z.opp <$> digits 10 (2 ^ 63) 0 (tail d) else from_str_radix 10 (2 ^ 63 - 1) t
  | _ => from_str_radix 10 (2 ^ 63 - 1) t
  end.
Definition read_speed (dir : PortDir) : option Z :=
  t ← pd_speed dir;
  match parse_i64 (trim t) with Some speed => if 0 <? speed then Some speed else None | None => None end.

Record DropsLink := MkDropsLink {
  dl_rx_dropped : Z; dl_rx_missed : Z; dl_rx_fifo : Z; dl_rx_errors : Z; dl_tx_dropped : Z; dl_tx_errors : Z }.
Definition DropsLink_default : DropsLink := MkDropsLink 0 0 0 0 0 0.
Record RatesLink := MkRatesLink { rl_window : Z; rl_rx : f64; rl_tx : f64 }.
Record SampleLink := MkSampleLink {
  sl_name : string; sl_wireless : bool; sl_speed_mbps : option Z; sl_rates : option RatesLink; sl_drops : DropsLink }.

Definition utilization (s : SampleLink) : option (f64 * f64) :=
  if sl_wireless s then None
  else rates ← sl_rates s; speed ← sl_speed_mbps s;
       let capacity := f64_div (f64_mul (f64_of speed) (f64_of 1000000)) (f64_of 8) in
       Some (f64_div (rl_rx rates) capacity, f64_div (rl_tx rates) capacity).

Record BaselineLink := MkBaselineLink {
  bl_drops : CountersLink; bl_rates_since : Z; bl_rx_bytes : Z; bl_tx_bytes : Z }.
Definition MeterLink : Type := gmap string BaselineLink.

(** The entries of the root, or [None] where it cannot be read; an entry that cannot is
    [None] too. *)
Definition name_le (a b : string * PortDir * CountersLink) : Prop := String.leb a.1.1 b.1.1 = true.
#[export] Instance name_le_dec a b : Decision (name_le a b).
Proof. unfold name_le. apply _. Defined.
Definition ports (entries : option (list (option PortDir))) : list (string * PortDir * CountersLink) :=
  match entries with
  | None => []
  | Some entries =>
      merge_sort name_le
        (omap (λ entry, dir ← entry;
                 if pd_device dir then counters ← CountersLink_read dir; Some (pd_name dir, dir, counters) else None)
              entries)
  end.

Definition drops_since (c before : CountersLink) : DropsLink :=
  MkDropsLink (sat_sub64 (cl_rx_dropped c) (cl_rx_dropped before)) (sat_sub64 (cl_rx_missed c) (cl_rx_missed before))
    (sat_sub64 (cl_rx_fifo c) (cl_rx_fifo before)) (sat_sub64 (cl_rx_errors c) (cl_rx_errors before))
    (sat_sub64 (cl_tx_dropped c) (cl_tx_dropped before)) (sat_sub64 (cl_tx_errors c) (cl_tx_errors before)).

(** One port's part of [sample_at]: what it reports, and its next baseline. *)
Definition sample_port (now : Z) (before : option BaselineLink) (c : CountersLink)
    : DropsLink * option RatesLink * BaselineLink :=
  match before with
  | Some b =>
      let window := since now (bl_rates_since b) in
      let drops := drops_since c (bl_drops b) in
      if MIN_WINDOW <=? window then
        (drops,
         Some (MkRatesLink window (f64_div (f64_of (sat_sub64 (cl_rx_bytes c) (bl_rx_bytes b))) (as_secs_f64 window))
                 (f64_div (f64_of (sat_sub64 (cl_tx_bytes c) (bl_tx_bytes b))) (as_secs_f64 window))),
         MkBaselineLink c now (cl_rx_bytes c) (cl_tx_bytes c))
      else (drops, None, MkBaselineLink c (bl_rates_since b) (bl_rx_bytes b) (bl_tx_bytes b))
  | None => (DropsLink_default, None, MkBaselineLink c now (cl_rx_bytes c) (cl_tx_bytes c))
  end.

(** One port of the loop: the samples, the baselines left of before, and the new ones. *)
Definition meter_port (now : Z) (st : list SampleLink * MeterLink * MeterLink) (port : string * PortDir * CountersLink)
    : list SampleLink * MeterLink * MeterLink :=
  let '(samples, old, new) := st in
  let '(name, dir, c) := port in
  let '(drops, rates, baseline) := sample_port now (old !! name) c in
  (samples ++ [MkSampleLink name (pd_wireless dir || pd_phy80211 dir) (read_speed dir) rates drops],
   delete name old, <[name := baseline]> new).
Definition MeterLink_sample_at (m : MeterLink) (now : Z) (entries : option (list (option PortDir)))
    : list SampleLink * MeterLink :=
  let '(samples, _, new) := foldl (meter_port now) ([], m, ∅) (ports entries) in (samples, new).

Definition line_link (s : SampleLink) : string :=
  let d := sl_drops s in
  ("perf link " +:+ sl_name s
   +:+ match sl_rates s with
       | Some r => " window=" +:+ fmt_duration (rl_window r) +:+ " rx=" +:+ fmt_rate (rl_rx r) +:+ " tx=" +:+ fmt_rate (rl_tx r)
       | None => " (rates need a longer window)"
       end
   +:+ match sl_speed_mbps s with Some speed => " speed=" +:+ pretty speed +:+ "Mb/s" | None => " speed=unknown" end
   +:+ (if sl_wireless s then " wireless" else "")
   +:+ match utilization s with
       | Some (rx, tx) => " utilization=rx " +:+ fmt_fixed 0 (f64_mul rx (f64_of 100)) +:+ "% tx "
           +:+ fmt_fixed 0 (f64_mul tx (f64_of 100)) +:+ "%"
       | None => ""
       end
   +:+ " drops: rx_dropped=+" +:+ pretty (dl_rx_dropped d) +:+ " rx_missed=+" +:+ pretty (dl_rx_missed d)
   +:+ " rx_fifo=+" +:+ pretty (dl_rx_fifo d) +:+ " rx_errors=+" +:+ pretty (dl_rx_errors d)
   +:+ " tx_dropped=+" +:+ pretty (dl_tx_dropped d) +:+ " tx_errors=+" +:+ pretty (dl_tx_errors d))%string.
Definition lines_link (samples : list SampleLink) : list string :=
  match samples with [] => ["perf link: no physical ports"%string] | _ => line_link <$> samples end.

(** ** The host's UDP drops *)

Record CountersUdp := MkCountersUdp { cu_in_errors : Z; cu_rcvbuf_errors : Z; cu_sndbuf_errors : Z }.

Fixpoint position (name : text) (names : list text) : option nat :=
  match names with
  | [] => None
  | n :: names => if bool_decide (n = name) then Some O else S <$> position name names
  end.
Definition column (names values : list text) (name : string) : option Z :=
  i ← position (lit name) names; v ← values !! i; parse_u64 v.

Definition parse_udp (snmp : text) : option CountersUdp :=
  match omap (λ line, strip_prefix (lit "Udp:") line) (lines snmp) with
  | names :: values :: _ =>
      let names := split_whitespace names in
      let values := split_whitespace values in
      in_errors ← column names values "InErrors";
      rcvbuf_errors ← column names values "RcvbufErrors";
      sndbuf_errors ← column names values "SndbufErrors";
      Some (MkCountersUdp in_errors rcvbuf_errors sndbuf_errors)
  | _ => None
  end.

Record SampleUdp := MkSampleUdp { su_window : Z; su_delta : CountersUdp }.
Definition MeterUdp : Type := option (Z * CountersUdp).

Definition delta_udp (c last : CountersUdp) : CountersUdp :=
  MkCountersUdp (sat_sub64 (cu_in_errors c) (cu_in_errors last)) (sat_sub64 (cu_rcvbuf_errors c) (cu_rcvbuf_errors last))
    (sat_sub64 (cu_sndbuf_errors c) (cu_sndbuf_errors last)).
(** [snmp]: the file's text, if it can be read. *)
Definition MeterUdp_sample_at (m : MeterUdp) (now : Z) (snmp : option text) : option SampleUdp * MeterUdp :=
  match t ← snmp; parse_udp t with
  | None => (None, m)
  | Some c => ((λ tl : Z * CountersUdp, MkSampleUdp (since now tl.1) (delta_udp c tl.2)) <$> m, Some (now, c))
  end.
Definition MeterUdp_new (now : Z) (snmp : option text) : MeterUdp := (MeterUdp_sample_at None now snmp).2.

Definition line_udp (s : SampleUdp) : string :=
  ("perf udp window=" +:+ fmt_duration (su_window s) +:+ " host-wide: rcvbuf_errors=+" +:+ pretty (cu_rcvbuf_errors (su_delta s))
   +:+ " sndbuf_errors=+" +:+ pretty (cu_sndbuf_errors (su_delta s)) +:+ " in_errors=+" +:+ pretty (cu_in_errors (su_delta s)))%string.

(** ** The process *)

Record RateResources := MkRateResources {
  rr_seconds : f64; rr_user_cores : f64; rr_sys_cores : f64; rr_switches_per_second : f64; rr_workers : Z;
  rr_busy_cores : f64; rr_parks_per_second : f64; rr_requests_per_second : f64;
  rr_cpu_ns_per_request : option f64; rr_switches_per_request : option f64; rr_cpu_ns_per_mib : option f64 }.

Definition E9 : f64 := f64_of 1000000000.
Definition per (amount : f64) (count : Z) : option f64 := if 0 <? count then Some (f64_div amount (f64_of count)) else None.
Definition between (before now : Resources) (seconds : f64) (requests bytes : Z) : option RateResources :=
  if f64_leb seconds (f64_of 0) then None
  else
    let user := f64_of (sat_sub64 (rs_user_ns now) (rs_user_ns before)) in
    let sys := f64_of (sat_sub64 (rs_sys_ns now) (rs_sys_ns before)) in
    let switches := f64_of (sat_sub64 (wrap64 (rs_voluntary now + rs_involuntary now))
                              (wrap64 (rs_voluntary before + rs_involuntary before))) in
    Some (MkRateResources seconds (f64_div (f64_div user E9) seconds) (f64_div (f64_div sys E9) seconds)
      (f64_div switches seconds) (rs_workers now)
      (f64_div (f64_div (f64_of (sat_sub64 (rs_busy_ns now) (rs_busy_ns before))) E9) seconds)
      (f64_div (f64_of (sat_sub64 (rs_parks now) (rs_parks before))) seconds) (f64_div (f64_of requests) seconds)
      (per (f64_add user sys) requests) (per switches requests)
      (if 0 <? bytes
       then Some (f64_div (f64_add user sys) (f64_div (f64_of bytes) (f64_of (Z.shiftl 1 20)))) else None)).

Definition level_outermost (side : string) : string := if bool_decide (side = "client"%string) then "fuse" else "request".

Definition totals_at (ops : list TotalOp) (level : string) : Z * Z :=
  foldl (λ nb t, (nb.1 + to_count t, nb.2 + to_bytes t)) (0, 0)
    (filter (λ t, to_level t = level) ops).

(** The last reading: when, and the resources, requests and bytes then. *)
Definition MeterProcess : Type := Z * Resources * Z * Z.
Definition MeterProcess_sample (m : MeterProcess) (now : Z) (r : Resources) (requests bytes : Z)
    : option RateResources * MeterProcess :=
  let '(then_, before, requests_before, bytes_before) := m in
  (between before r (as_secs_f64 (since now then_)) (sat_sub64 requests requests_before) (sat_sub64 bytes bytes_before),
   (now, r, requests, bytes)).

Definition line_process (r : RateResources) : string :=
  let ns (n : option f64) := match n with Some n => fmt_duration (as_u64 n) | None => "-"%string end in
  ("perf process window=" +:+ fmt_duration (from_secs_f64 (rr_seconds r))
   +:+ " cpu=" +:+ fmt_fixed 2 (f64_add (rr_user_cores r) (rr_sys_cores r)) +:+ " user=" +:+ fmt_fixed 2 (rr_user_cores r)
   +:+ " sys=" +:+ fmt_fixed 2 (rr_sys_cores r) +:+ " switches=" +:+ fmt_count (rr_switches_per_second r)
   +:+ "/s workers=" +:+ pretty (rr_workers r) +:+ " busy=" +:+ fmt_fixed 2 (rr_busy_cores r)
   +:+ " parks=" +:+ fmt_count (rr_parks_per_second r) +:+ "/s requests=" +:+ fmt_count (rr_requests_per_second r)
   +:+ "/s per_request: cpu=" +:+ ns (rr_cpu_ns_per_request r)
   +:+ " switches=" +:+ match rr_switches_per_request r with Some n => fmt_fixed 1 n | None => "-" end
   +:+ " per_mib: cpu=" +:+ ns (rr_cpu_ns_per_mib r))%string.

(** ** The verdict *)

Inductive Direction := Dir_Rx | Dir_Tx.
Definition Direction_name (d : Direction) : string := match d with Dir_Rx => "rx" | Dir_Tx => "tx" end.
Inductive Filling := Fill_Others | Fill_Ours.
Record Verdict := MkVerdict {
  vd_port : string; vd_direction : Direction; vd_utilization : f64; vd_share : f64; vd_filling : Filling }.

Definition describe (v : Verdict) : string :=
  ("perf verdict: " +:+ vd_port v +:+ " " +:+ Direction_name (vd_direction v) +:+ " is at "
   +:+ fmt_fixed 0 (f64_mul (vd_utilization v) (f64_of 100)) +:+ "% of its speed and this connection is "
   +:+ fmt_fixed 0 (f64_mul (vd_share v) (f64_of 100)) +:+ "% of that: "
   +:+ match vd_filling v with
       | Fill_Others => "bandwidth-starved by other traffic on the link"
       | Fill_Ours => "the link is full with this connection's own traffic"
       end)%string.

(** A port's busier direction: its utilization, the port's rate that way and the
    connection's. *)
Definition busier (delta : DeltaQuic) (port : SampleLink) : option (SampleLink * Direction * f64 * f64 * f64) :=
  '(rx, tx) ← utilization port;
  rates ← sl_rates port;
  Some (if f64_leb tx rx then (port, Dir_Rx, rx, rl_rx rates, rx_rate delta)
        else (port, Dir_Tx, tx, rl_tx rates, tx_rate delta)).
Definition busiest (delta : DeltaQuic) (ports : list SampleLink) : option (SampleLink * Direction * f64 * f64 * f64) :=
  max_by (λ a b, total_cmp a.1.1.2 b.1.1.2) (omap (busier delta) ports).

Definition verdict (ports : list SampleLink) (this : SampleQuic) : option Verdict :=
  delta ← sm_delta this;
  '(port, direction, utilization, port_rate, ours) ← busiest delta ports;
  if f64_ltb utilization UTILIZATION_FULL then None
  else
    let share := f64_div ours port_rate in
    if f64_ltb SHARE_IMPOSSIBLE share then None
    else Some (MkVerdict (sl_name port) direction utilization (f64_min share (f64_of 1))
                 (if f64_ltb share SHARE_OURS then Fill_Others else Fill_Ours)).

(** ** Windows add up *)

(** What a sequence of readings reports, window by window. *)
Fixpoint quic_run (t : TrackerQuic) (readings : list (Z * StatsQuic)) : list DeltaQuic * TrackerQuic :=
  match readings with
  | [] => ([], t)
  | (now, stats) :: readings =>
      let '(sample, t) := TrackerQuic_sample_at t now stats in
      let '(deltas, t) := quic_run t readings in
      (match sm_delta sample with Some d => d :: deltas | None => deltas end, t)
  end.
Fixpoint udp_run (m : MeterUdp) (readings : list (Z * option text)) : list SampleUdp * MeterUdp :=
  match readings with
  | [] => ([], m)
  | (now, snmp) :: readings =>
      let '(sample, m) := MeterUdp_sample_at m now snmp in
      let '(samples, m) := udp_run m readings in
      (match sample with Some s => s :: samples | None => samples end, m)
  end.
Fixpoint port_run (b : BaselineLink) (readings : list (Z * CountersLink)) : list (DropsLink * option RatesLink) * BaselineLink :=
  match readings with
  | [] => ([], b)
  | (now, c) :: readings =>
      let '(drops, rates, b) := sample_port now (Some b) c in
      let '(rest, b) := port_run b readings in
      ((drops, rates) :: rest, b)
  end.

(** Counters that only grow, read one after another. *)
Definition quic_le (a b : Z * StatsQuic) : Prop :=
  a.1 ≤ b.1 ∧ sq_rx_bytes a.2 ≤ sq_rx_bytes b.2 ∧ sq_tx_bytes a.2 ≤ sq_tx_bytes b.2 ∧ sq_lost a.2 ≤ sq_lost b.2
  ∧ sq_sent a.2 ≤ sq_sent b.2.
Definition udp_le (a b : CountersUdp) : Prop :=
  cu_in_errors a ≤ cu_in_errors b ∧ cu_rcvbuf_errors a ≤ cu_rcvbuf_errors b ∧ cu_sndbuf_errors a ≤ cu_sndbuf_errors b.
Definition link_le (a b : Z * CountersLink) : Prop :=
  a.1 ≤ b.1 ∧ cl_rx_bytes a.2 ≤ cl_rx_bytes b.2 ∧ cl_tx_bytes a.2 ≤ cl_tx_bytes b.2 ∧ cl_rx_dropped a.2 ≤ cl_rx_dropped b.2 ∧ cl_rx_missed a.2 ≤ cl_rx_missed b.2 ∧ cl_rx_fifo a.2 ≤ cl_rx_fifo b.2
  ∧ cl_rx_errors a.2 ≤ cl_rx_errors b.2 ∧ cl_tx_dropped a.2 ≤ cl_tx_dropped b.2 ∧ cl_tx_errors a.2 ≤ cl_tx_errors b.2.

#[local] Arguments sum_z : simpl never.

(** The latest of some readings after [prev]. *)
Definition latest {A} (prev : A) (readings : list A) : A := default prev (last readings).
Lemma latest_cons {A} (prev a : A) l : latest prev (a :: l) = latest a l.
Proof. unfold latest. rewrite last_cons. by destruct (last l). Qed.

(** From a baseline no later than the readings: the windows so far lead from it to the
    next, and the one still open is too short to report. *)
Lemma quic_windows readings : ∀ base prev,
  quic_le base prev → prev.1 - base.1 < MIN_WINDOW → Sorted quic_le (prev :: readings) →
  let '(deltas, t) := quic_run (Some base) readings in
  ∃ base', t = Some base' ∧ (latest prev readings).1 - base'.1 < MIN_WINDOW
    ∧ Forall (λ d, MIN_WINDOW ≤ dq_window d) deltas
    ∧ sum_z dq_window deltas = base'.1 - base.1
    ∧ sum_z dq_rx_bytes deltas = sq_rx_bytes base'.2 - sq_rx_bytes base.2
    ∧ sum_z dq_tx_bytes deltas = sq_tx_bytes base'.2 - sq_tx_bytes base.2
    ∧ sum_z dq_lost_packets deltas = sq_lost base'.2 - sq_lost base.2
    ∧ sum_z dq_sent_packets deltas = sq_sent base'.2 - sq_sent base.2
    ∧ base' ∈ base :: readings.
Proof.
  induction readings as [|[now stats] rs IH]; intros [b0 bs] prev Hle Hwin Hs.
  { cbn. exists (b0, bs). rewrite !sum_z_nil. cbn. split_and!; try done; try lia. set_solver. }
  inversion Hs as [|? ? Hs' Hhd]; subst. inversion Hhd as [|? ? Hnext]; subst.
  unfold quic_le in *. cbn [fst snd] in *. cbn [quic_run]. unfold TrackerQuic_sample_at.
  destruct (Z.leb_spec MIN_WINDOW (since now b0)) as [Hw|Hw]; cbn [sm_delta].
  - specialize (IH (now, stats) (now, stats)). cbn [fst snd] in IH.
    destruct (quic_run (Some (now, stats)) rs) as [deltas t].
    destruct IH as (base' & -> & Hl & Hf & H1 & H2 & H3 & H4 & H5 & H6); [lia|unfold MIN_WINDOW; lia|done|].
    exists base'. rewrite latest_cons. cbn [sm_delta]. unfold delta_quic, since, sat_sub64, MIN_WINDOW in *.
    rewrite !sum_z_cons. cbn [dq_window dq_rx_bytes dq_tx_bytes dq_lost_packets dq_sent_packets].
    split_and!; try done; try lia; [|set_solver]. constructor; [cbn; lia|done].
  - specialize (IH (b0, bs) (now, stats)). cbn [fst snd] in IH.
    destruct (quic_run (Some (b0, bs)) rs) as [deltas t].
    destruct IH as (base' & -> & Hl & Hf & H1 & H2 & H3 & H4 & H5 & H6); [lia|unfold since in Hw; lia|done|].
    exists base'. rewrite latest_cons. split_and!; try done. set_solver.
Qed.

(** The readings that could be made. *)
Definition udp_read (readings : list (Z * option text)) : list (Z * CountersUdp) :=
  omap (λ r : Z * option text, c ← (t ← r.2; parse_udp t); Some (r.1, c)) readings.

Lemma udp_windows readings : ∀ base,
  Sorted (λ a b : Z * CountersUdp, a.1 ≤ b.1 ∧ udp_le a.2 b.2) (base :: udp_read readings) →
  let '(samples, m) := udp_run (Some base) readings in let last := latest base (udp_read readings) in
  m = Some last ∧ sum_z su_window samples = last.1 - base.1
  ∧ sum_z (λ s, cu_in_errors (su_delta s)) samples = cu_in_errors last.2 - cu_in_errors base.2
  ∧ sum_z (λ s, cu_rcvbuf_errors (su_delta s)) samples = cu_rcvbuf_errors last.2 - cu_rcvbuf_errors base.2
  ∧ sum_z (λ s, cu_sndbuf_errors (su_delta s)) samples = cu_sndbuf_errors last.2 - cu_sndbuf_errors base.2.
Proof.
  induction readings as [|[now snmp] rs IH]; intros [t0 c0] Hs.
  { cbn. rewrite !sum_z_nil. split_and!; try done; lia. }
  cbn [udp_run udp_read omap list_omap fst snd] in *. unfold MeterUdp_sample_at.
  destruct (t ← snmp; parse_udp t) as [c|]; cbn [mbind option_bind] in *.
  - inversion Hs as [|? ? Hs' Hhd]; subst. inversion Hhd as [|? ? [Hnext Hle]]; subst.
    fold (udp_read rs) in *. specialize (IH (now, c) Hs'). cbn [fmap option_fmap option_map].
    destruct (udp_run (Some (now, c)) rs) as [samples m]. rewrite latest_cons.
    destruct IH as (-> & H1 & H2 & H3 & H4). unfold udp_le, delta_udp, since, sat_sub64 in *. cbn [fst snd] in *.
    rewrite !sum_z_cons. cbn [su_window su_delta cu_in_errors cu_rcvbuf_errors cu_sndbuf_errors].
    split_and!; try done; lia.
  - fold (udp_read rs) in *. specialize (IH (t0, c0) Hs). by destruct (udp_run (Some (t0, c0)) rs).
Qed.

Definition port_drops (f : DropsLink → Z) (reports : list (DropsLink * option RatesLink)) : Z := sum_z (λ r, f r.1) reports.
Definition port_window (r : DropsLink * option RatesLink) : Z := match r.2 with Some rates => rl_window rates | None => 0 end.

(** A rate is of so many bytes, received and sent, over its window. *)
Definition rate_of (r : RatesLink) (bytes : Z * Z) : Prop :=
  rl_rx r = f64_div (f64_of bytes.1) (as_secs_f64 (rl_window r))
  ∧ rl_tx r = f64_div (f64_of bytes.2) (as_secs_f64 (rl_window r)).
(** Where a port's rates are counted from: when, and its bytes then. *)
Definition rates_from (b : BaselineLink) : Z * (Z * Z) := (bl_rates_since b, (bl_rx_bytes b, bl_tx_bytes b)).
Definition rates_at (r : Z * CountersLink) : Z * (Z * Z) := (r.1, (cl_rx_bytes r.2, cl_tx_bytes r.2)).

(** All a port's drops are reported, each once. *)
Definition drops_told (reports : list (DropsLink * option RatesLink)) (first last : CountersLink) : Prop :=
  port_drops dl_rx_dropped reports = cl_rx_dropped last - cl_rx_dropped first
  ∧ port_drops dl_rx_missed reports = cl_rx_missed last - cl_rx_missed first
  ∧ port_drops dl_rx_fifo reports = cl_rx_fifo last - cl_rx_fifo first
  ∧ port_drops dl_rx_errors reports = cl_rx_errors last - cl_rx_errors first
  ∧ port_drops dl_tx_dropped reports = cl_tx_dropped last - cl_tx_dropped first
  ∧ port_drops dl_tx_errors reports = cl_tx_errors last - cl_tx_errors first.

(** A port that stays: its drops since the first reading, each once. *)
Lemma port_drops_told readings : ∀ prev since_ rx tx,
  Sorted link_le (prev :: readings) →
  let '(reports, b) := port_run (MkBaselineLink prev.2 since_ rx tx) readings in
  bl_drops b = (latest prev readings).2 ∧ drops_told reports prev.2 (latest prev readings).2.
Proof.
  unfold drops_told, port_drops. induction readings as [|[now c] rs IH]; intros [t0 c0] since_ rx tx Hs.
  { cbn. rewrite !sum_z_nil. split_and!; try done; lia. }
  inversion Hs as [|? ? Hs' Hhd]; subst. inversion Hhd as [|? ? Hnext]; subst.
  unfold link_le in Hnext. cbn [fst snd] in *. cbn [port_run]. unfold sample_port.
  cbn [bl_rates_since bl_drops bl_rx_bytes bl_tx_bytes]. rewrite latest_cons.
  destruct (MIN_WINDOW <=? since now since_).
  1: specialize (IH (now, c) now (cl_rx_bytes c) (cl_tx_bytes c) Hs').
  2: specialize (IH (now, c) since_ rx tx Hs').
  all: cbn [fst snd] in IH; destruct (port_run _ rs) as [reports b]; destruct IH as (-> & H1 & H2 & H3 & H4 & H5 & H6);
    rewrite !sum_z_cons; unfold drops_since, sat_sub64;
    cbn [fst snd dl_rx_dropped dl_rx_missed dl_rx_fifo dl_rx_errors dl_tx_dropped dl_tx_errors];
    split_and!; try done; lia.
Qed.

(** Its windows, and the bytes its rates are of. *)
Lemma port_windows readings : ∀ prev since_ rx tx,
  since_ ≤ prev.1 → prev.1 - since_ < MIN_WINDOW → rx ≤ cl_rx_bytes prev.2 → tx ≤ cl_tx_bytes prev.2 →
  Sorted link_le (prev :: readings) →
  let '(reports, b) := port_run (MkBaselineLink prev.2 since_ rx tx) readings in
  (latest prev readings).1 - bl_rates_since b < MIN_WINDOW
  ∧ sum_z port_window reports = bl_rates_since b - since_
  ∧ Forall (λ r, r.2 = None ∨ MIN_WINDOW ≤ port_window r) reports
  ∧ rates_from b ∈ (since_, (rx, tx)) :: (rates_at <$> readings)
  ∧ ∃ bytes, Forall2 rate_of (omap snd reports) bytes
    ∧ sum_z fst bytes = bl_rx_bytes b - rx ∧ sum_z snd bytes = bl_tx_bytes b - tx.
Proof.
  induction readings as [|[now c] rs IH]; intros [t0 c0] since_ rx tx Hle Hwin Hrx Htx Hs.
  { cbn in *. rewrite !sum_z_nil. split_and!; [done|lia|done|set_solver|]. exists []. rewrite !sum_z_nil. split_and!; [done|lia..]. }
  inversion Hs as [|? ? Hs' Hhd]; subst. inversion Hhd as [|? ? Hnext]; subst.
  unfold link_le in Hnext. cbn [fst snd] in *. cbn [port_run]. unfold sample_port.
  cbn [bl_rates_since bl_drops bl_rx_bytes bl_tx_bytes]. rewrite latest_cons.
  destruct (Z.leb_spec MIN_WINDOW (since now since_)) as [Hw|Hw].
  - specialize (IH (now, c) now (cl_rx_bytes c) (cl_tx_bytes c)). cbn [fst snd] in IH.
    destruct (port_run _ rs) as [reports b].
    destruct IH as (Hl & H0 & Hf & Hin & bytes & Hb & H1 & H2); [lia|unfold MIN_WINDOW; lia|lia|lia|done|].
    rewrite sum_z_cons. cbn [port_window snd rl_window]. split; [done|].
    split; [rewrite H0; unfold since, MIN_WINDOW in *; lia|].
    split; [constructor; [by right|done]|]. split; [cbn; set_solver|].
    exists ((cl_rx_bytes c - rx, cl_tx_bytes c - tx) :: bytes). rewrite !sum_z_cons. cbn [omap list_omap snd fst].
    split; [|lia]. constructor; [|done]. unfold rate_of, sat_sub64. cbn [rl_rx rl_tx rl_window fst snd].
    by rewrite !Z.max_r by lia.
  - specialize (IH (now, c) since_ rx tx). cbn [fst snd] in IH. unfold since in Hw.
    destruct (port_run _ rs) as [reports b].
    destruct IH as (Hl & H0 & Hf & Hin & bytes & Hb & H1 & H2); [lia|lia|lia|lia|done|].
    rewrite sum_z_cons. cbn [port_window snd]. split; [done|]. split; [lia|].
    split; [constructor; [by left|done]|]. split; [cbn; set_solver|]. by exists bytes.
Qed.

(** What a sample of the meter says of one port is what the port's own baseline and
    counters say. *)
Definition port_sample (now : Z) (m : MeterLink) (port : string * PortDir * CountersLink) : SampleLink :=
  let '(name, dir, c) := port in
  let r := sample_port now (m !! name) c in
  MkSampleLink name (pd_wireless dir || pd_phy80211 dir) (read_speed dir) r.1.2 r.1.1.

Lemma meter_ports now l : ∀ samples old new,
  NoDup (l.*1).*1 →
  let '(samples', _, new') := foldl (meter_port now) (samples, old, new) l in
  samples' = samples ++ (port_sample now old <$> l)
  ∧ ∀ name, new' !! name = match list_find (λ p : string * PortDir * CountersLink, p.1.1 = name) l with
                           | Some (_, p) => Some (sample_port now (old !! name) p.2).2
                           | None => new !! name
                           end.
Proof.
  induction l as [|[[name dir] c] l IH]; intros samples old new Hnd.
  { cbn. rewrite app_nil_r. done. }
  cbn [foldl fmap list_fmap fst snd] in *. apply NoDup_cons in Hnd as [Hni Hnd].
  cbn [meter_port]. destruct (sample_port now (old !! name) c) as [[drops rates] baseline] eqn:Hp.
  specialize (IH (samples ++ [MkSampleLink name (pd_wireless dir || pd_phy80211 dir) (read_speed dir) rates drops])
                (delete name old) (<[name := baseline]> new) Hnd).
  destruct (foldl _ _ l) as [[samples' old'] new']. destruct IH as [-> Hn]. split.
  - rewrite <- (assoc_L (++)). f_equal. cbn [app port_sample]. rewrite Hp. cbn [fst snd]. f_equal.
    apply list_fmap_ext. intros i [[name' dir'] c'] Hi. unfold port_sample.
    assert ((delete name old : MeterLink) !! name' = old !! name') as ->; [|done]. apply lookup_delete_ne. intros <-. apply Hni. apply list_elem_of_fmap. exists (name, dir'). split; [done|].
    apply list_elem_of_fmap. exists (name, dir', c'). split; [done|]. by eapply list_elem_of_lookup_2.
  - intros name'. rewrite Hn. cbn [list_find fst snd]. destruct (decide (name = name')) as [<-|Hne].
    + assert (list_find (λ p : string * PortDir * CountersLink, p.1.1 = name) l = None) as ->.
      { apply list_find_None. apply Forall_forall. intros p Hin Heq. apply Hni. subst name.
        apply list_elem_of_fmap. exists p.1. split; [done|]. apply list_elem_of_fmap. by exists p. }
      assert ((<[name := baseline]> new : MeterLink) !! name = Some baseline) as -> by apply lookup_insert_eq.
      cbn. by rewrite Hp.
    + destruct (list_find _ l) as [[i p]|]; cbn.
      * assert ((delete name old : MeterLink) !! name' = old !! name') as -> by by apply lookup_delete_ne. done.
      * by apply lookup_insert_ne.
Qed.

(** The ports among a directory's entries: those with a device behind them whose counters
    can all be read. *)
Definition counted (dir : PortDir) (c : CountersLink) : Prop :=
  Forall2 (λ file n, read_number (pd_statistics dir file) = Some n)
    ["rx_bytes"; "tx_bytes"; "rx_dropped"; "rx_missed_errors"; "rx_fifo_errors"; "rx_errors"; "tx_dropped"; "tx_errors"]%string
    [cl_rx_bytes c; cl_tx_bytes c; cl_rx_dropped c; cl_rx_missed c; cl_rx_fifo c; cl_rx_errors c; cl_tx_dropped c; cl_tx_errors c].
Definition found (entries : option (list (option PortDir))) (dir : PortDir) (c : CountersLink) : Prop :=
  ∃ es, entries = Some es ∧ Some dir ∈ es ∧ pd_device dir = true ∧ counted dir c.

Lemma CountersLink_read_spec dir c : CountersLink_read dir = Some c ↔ counted dir c.
Proof.
  unfold CountersLink_read, counted, COUNTERS_LINK. split.
  - intros (values & Hv & H)%bind_Some. apply mapM_Some in Hv. pose proof (Forall2_length _ _ _ Hv) as Hl.
    do 8 (destruct values as [|? values]; [done|]). destruct values; [|done]. injection H as <-. exact Hv.
  - intros H%mapM_Some. rewrite H. by destruct c.
Qed.

Lemma ports_spec entries name dir c :
  (name, dir, c) ∈ ports entries ↔ name = pd_name dir ∧ found entries dir c.
Proof.
  unfold ports, found. destruct entries as [es|]; [|set_solver]. rewrite merge_sort_Permutation, list_elem_of_omap. split.
  - intros (entry & Hin & (d & -> & H)%bind_Some). destruct (pd_device d) eqn:Hd; [|done].
    apply bind_Some in H as (c' & Hc & [= <- <- <-]).
    split; [done|]. exists es. by rewrite <- CountersLink_read_spec.
  - intros (-> & es' & [= <-] & Hin & Hd & Hc%CountersLink_read_spec). exists (Some dir). split; [done|].
    apply bind_Some. exists dir. rewrite Hd, bind_Some. eauto.
Qed.

Lemma ports_names es : NoDup (pd_name <$> omap id es) → NoDup ((ports (Some es)).*1).*1.
Proof.
  unfold ports. rewrite merge_sort_Permutation. set (f := λ entry : option PortDir, _).
  assert (∀ e p, f e = Some p → ∃ dir, e = Some dir ∧ p.1.1 = pd_name dir) as Hf.
  { intros e p (dir & -> & H)%bind_Some. exists dir. split; [done|]. destruct (pd_device dir); [|done].
    by apply bind_Some in H as (c & _ & [= <-]). }
  clearbody f. induction es as [|e es IH]; [intros _; constructor|]. cbn [omap list_omap].
  destruct (f e) as [p|] eqn:E.
  - destruct (Hf _ _ E) as (dir & -> & Hp). cbn [id fmap list_fmap]. rewrite !NoDup_cons. intros [Hni Hnd].
    split; [|by apply IH]. rewrite Hp. intros (q & Hq & Hin)%list_elem_of_fmap. apply Hni.
    apply list_elem_of_fmap in Hin as (r & -> & Hin). apply list_elem_of_omap in Hin as (e' & Hin & Hr).
    destruct (Hf _ _ Hr) as (dir' & -> & Hr'). apply list_elem_of_fmap. exists dir'.
    split; [by rewrite <- Hr'|]. apply list_elem_of_omap. by exists (Some dir').
  - destruct e as [dir|]; cbn [id]; [|exact IH]. cbn [fmap list_fmap]. rewrite NoDup_cons. intros [_ Hnd]. by apply IH.
Qed.

Lemma port_stays first readings : Sorted link_le (first :: readings) →
  let '(drops, rates, b0) := sample_port first.1 None first.2 in
  let '(reports, b) := port_run b0 readings in let last := latest first readings in
  drops_told ((drops, rates) :: reports) first.2 last.2
  ∧ sum_z port_window ((drops, rates) :: reports) = bl_rates_since b - first.1
  ∧ last.1 - bl_rates_since b < MIN_WINDOW
  ∧ Forall (λ r, r.2 = None ∨ MIN_WINDOW ≤ port_window r) ((drops, rates) :: reports)
  ∧ rates_from b ∈ rates_at <$> first :: readings
  ∧ ∃ bytes, Forall2 rate_of (omap snd ((drops, rates) :: reports)) bytes
    ∧ sum_z fst bytes = bl_rx_bytes b - cl_rx_bytes first.2 ∧ sum_z snd bytes = bl_tx_bytes b - cl_tx_bytes first.2.
Proof.
  destruct first as [t0 c0]. intros Hs. cbn [sample_port fst snd].
  pose proof (port_windows readings (t0, c0) t0 (cl_rx_bytes c0) (cl_tx_bytes c0)) as H.
  pose proof (port_drops_told readings (t0, c0) t0 (cl_rx_bytes c0) (cl_tx_bytes c0) Hs) as Hd. cbn [fst snd] in H, Hd.
  destruct (port_run _ readings) as [reports b]. destruct Hd as [_ Hd].
  destruct H as (H1 & H2 & H3 & H4 & H5); [lia|unfold MIN_WINDOW; lia|lia|lia|done|].
  split. { unfold drops_told, port_drops in *. rewrite !sum_z_cons. exact Hd. }
  split; [by rewrite sum_z_cons|]. split; [done|]. split; [constructor; [by left|done]|]. by split.
Qed.

Lemma ports_sampled m now entries : (∀ es, entries = Some es → NoDup (pd_name <$> omap id es)) →
  let '(samples, m') := MeterLink_sample_at m now entries in
  (∀ s, s ∈ samples ↔ ∃ dir c, found entries dir c ∧
     let '(drops, rates, _) := sample_port now (m !! pd_name dir) c in
     s = MkSampleLink (pd_name dir) (pd_wireless dir || pd_phy80211 dir) (read_speed dir) rates drops)
  ∧ ∀ name b, m' !! name = Some b ↔ ∃ dir c, found entries dir c ∧ pd_name dir = name
     ∧ b = (sample_port now (m !! name) c).2.
Proof.
  intros Hnd. assert (NoDup ((ports entries).*1).*1) as Hn.
  { destruct entries as [es|]; [by apply ports_names, Hnd|cbn; constructor]. }
  unfold MeterLink_sample_at. pose proof (meter_ports now (ports entries) [] m ∅ Hn) as H.
  destruct (foldl _ _ _) as [[samples old] new]. destruct H as [-> Hnew]. split.
  - intros s. cbn [app]. rewrite list_elem_of_fmap. split.
    + intros ([[name dir] c] & -> & [-> Hf]%ports_spec). exists dir, c. split; [done|]. unfold port_sample.
      by destruct (sample_port _ _ _) as [[drops rates] b].
    + intros (dir & c & Hf & Hs). exists (pd_name dir, dir, c). rewrite ports_spec. split; [|done]. unfold port_sample.
      by destruct (sample_port _ _ _) as [[drops rates] b].
  - intros name b. rewrite Hnew. destruct (list_find _ _) as [[i [[name' dir] c]]|] eqn:E.
    + apply list_find_Some in E as (Hi & Hname & _). cbn [fst snd] in *. subst name'.
      pose proof (list_elem_of_lookup_2 _ _ _ Hi) as [-> Hf]%ports_spec. split.
      * intros [= <-]. eauto.
      * intros (dir' & c' & Hf' & Hname & ->). assert ((pd_name dir', dir', c') ∈ ports entries) as Hin by (by apply ports_spec).
        apply list_elem_of_lookup in Hin as [j Hj]. assert (i = j) as <-; [|by simplify_eq].
        eapply NoDup_lookup; [exact Hn| |]; rewrite !list_lookup_fmap; [rewrite Hi|rewrite Hj]; cbn; [done|by rewrite Hname].
    + assert ((∅ : MeterLink) !! name = None) as -> by apply lookup_empty. apply list_find_None in E. split; [done|]. intros (dir & c & Hf & <- & _). rewrite Forall_forall in E.
      exfalso. apply (E (pd_name dir, dir, c)); [by apply ports_spec|done].
Qed.

(** ** Properties *)

(** C38: what the reports' windows say adds up.  Of counters that only grow, read at times
    that do: a connection's windows follow one another without gap or overlap from its
    first sample to its baseline, one of those read, each at least a second, with the
    bytes, losses and packets of that whole time between them, and the time since is too
    short for one; the host's UDP drops of each kind, of all samples, are those since the
    first, whatever readings failed; and a port that stays is reported each of its drops,
    of every kind, once, and its rates over windows that follow one another, each of the
    bytes of its window, whichever other ports come and go: a sample is of the ports that
    can be read then, each from its own baseline. *)
Theorem windows_add_up :
  (∀ first readings, Sorted quic_le (first :: readings) →
     let '(deltas, t) := quic_run None (first :: readings) in
     ∃ base, t = Some base ∧ (latest first readings).1 - base.1 < 1000000000
       ∧ Forall (λ d, 1000000000 ≤ dq_window d) deltas
       ∧ sum_z dq_window deltas = base.1 - first.1
       ∧ sum_z dq_rx_bytes deltas = sq_rx_bytes base.2 - sq_rx_bytes first.2
       ∧ sum_z dq_tx_bytes deltas = sq_tx_bytes base.2 - sq_tx_bytes first.2
       ∧ sum_z dq_lost_packets deltas = sq_lost base.2 - sq_lost first.2
       ∧ sum_z dq_sent_packets deltas = sq_sent base.2 - sq_sent first.2
       ∧ base ∈ first :: readings)
  ∧ (∀ base readings, Sorted (λ a b : Z * CountersUdp, a.1 ≤ b.1 ∧ udp_le a.2 b.2) (base :: udp_read readings) →
     let '(samples, m) := udp_run (Some base) readings in let last := latest base (udp_read readings) in
     m = Some last ∧ sum_z su_window samples = last.1 - base.1
     ∧ sum_z (λ s, cu_in_errors (su_delta s)) samples = cu_in_errors last.2 - cu_in_errors base.2
     ∧ sum_z (λ s, cu_rcvbuf_errors (su_delta s)) samples = cu_rcvbuf_errors last.2 - cu_rcvbuf_errors base.2
     ∧ sum_z (λ s, cu_sndbuf_errors (su_delta s)) samples = cu_sndbuf_errors last.2 - cu_sndbuf_errors base.2)
  ∧ (∀ first readings, Sorted link_le (first :: readings) →
     let '(drops, rates, b0) := sample_port first.1 None first.2 in
     let '(reports, b) := port_run b0 readings in let last := latest first readings in
     drops_told ((drops, rates) :: reports) first.2 last.2
     ∧ sum_z port_window ((drops, rates) :: reports) = bl_rates_since b - first.1
     ∧ last.1 - bl_rates_since b < 1000000000
     ∧ Forall (λ r, r.2 = None ∨ 1000000000 ≤ port_window r) ((drops, rates) :: reports)
     ∧ rates_from b ∈ rates_at <$> first :: readings
     ∧ ∃ bytes, Forall2 rate_of (omap snd ((drops, rates) :: reports)) bytes
       ∧ sum_z fst bytes = bl_rx_bytes b - cl_rx_bytes first.2 ∧ sum_z snd bytes = bl_tx_bytes b - cl_tx_bytes first.2)
  ∧ (∀ m now entries, (∀ es, entries = Some es → NoDup (pd_name <$> omap id es)) →
     let '(samples, m') := MeterLink_sample_at m now entries in
     (∀ s, s ∈ samples ↔ ∃ dir c, found entries dir c ∧
        let '(drops, rates, _) := sample_port now (m !! pd_name dir) c in
        s = MkSampleLink (pd_name dir) (pd_wireless dir || pd_phy80211 dir) (read_speed dir) rates drops)
     ∧ ∀ name b, m' !! name = Some b ↔ ∃ dir c, found entries dir c ∧ pd_name dir = name
        ∧ b = (sample_port now (m !! name) c).2).
Proof.
  split; [|split; [|split]].
  - intros [t0 s0] rs Hs. cbn [quic_run TrackerQuic_sample_at sm_delta].
    pose proof (quic_windows rs (t0, s0) (t0, s0)) as H. destruct (quic_run (Some (t0, s0)) rs) as [deltas t].
    apply H; [unfold quic_le; lia|unfold MIN_WINDOW; lia|done].
  - intros base rs Hs. exact (udp_windows rs base Hs).
  - intros [t0 c0] rs Hs. exact (port_stays (t0, c0) rs Hs).
  - intros m now entries Hnd. exact (ports_sampled m now entries Hnd).
Qed.

Definition demo_stats (rx : Z) : StatsQuic := MkStatsQuic 0 0 0 0 0 0 0 0 0 rx 0.
Definition demo_readings : list (Z * StatsQuic) :=
  [(500000000, demo_stats 20); (1200000000, demo_stats 60); (1300000000, demo_stats 70); (4000000000, demo_stats 100)].

Definition demo_snmp (values : string) : text :=
  lit ("Udp: InDatagrams InErrors RcvbufErrors SndbufErrors
Udp: " +:+ values)%string.
Definition demo_udp : list (Z * option text) := [(5, None); (9, Some (demo_snmp "8 4 6 9")); (12, Some (demo_snmp "9 5 6 9"))].
Definition demo_link (rx drops : Z) : CountersLink := MkCountersLink rx 0 drops drops drops drops drops drops.
Definition demo_links : list (Z * CountersLink) := [(1500000000, demo_link 30 2); (1600000000, demo_link 90 7)].

(** A connection's windows of 1.2 and 2.8 seconds, of 50 and 40 bytes; UDP drops across a
    reading that failed; and a port's drops, and its one window. *)
Lemma windows_add_up_witness :
  (dq_rx_bytes <$> (quic_run None ((0, demo_stats 10) :: demo_readings)).1 = [50; 40]
   ∧ sum_z dq_rx_bytes (quic_run None ((0, demo_stats 10) :: demo_readings)).1 = 90)
  ∧ (let '(samples, m) := udp_run (MeterUdp_new 0 (Some (demo_snmp "7 1 2 3"))) demo_udp in
     sum_z (λ s, cu_in_errors (su_delta s)) samples = 4 ∧ sum_z (λ s, cu_sndbuf_errors (su_delta s)) samples = 6)
  ∧ (let '(drops, rates, b0) := sample_port 0 None (demo_link 10 1) in
     let '(reports, b) := port_run b0 demo_links in
     port_drops dl_rx_missed ((drops, rates) :: reports) = 6 ∧ port_drops dl_tx_errors ((drops, rates) :: reports) = 6
     ∧ sum_z port_window ((drops, rates) :: reports) = bl_rates_since b - 0).
Proof.
  pose proof windows_add_up as (Hquic & Hudp & Hport & _). split; [split; [vm_compute; reflexivity|]|split].
  - specialize (Hquic (0, demo_stats 10) demo_readings).
    assert (Sorted quic_le ((0, demo_stats 10) :: demo_readings)) as Hs.
    { repeat constructor; vm_compute; discriminate. }
    specialize (Hquic Hs). destruct (quic_run None ((0, demo_stats 10) :: demo_readings)) as [deltas t] eqn:E.
    destruct Hquic as (base & Ht & _ & _ & _ & Hrx & _). cbn [fst] in *. rewrite Hrx.
    assert (snd <$> (quic_run None ((0, demo_stats 10) :: demo_readings)).2 = Some (demo_stats 100)) as Hb
      by (vm_compute; reflexivity).
    rewrite E, Ht in Hb. cbn in Hb. injection Hb as Hb. rewrite Hb. reflexivity.
  - specialize (Hudp (0, MkCountersUdp 1 2 3) demo_udp).
    assert (MeterUdp_new 0 (Some (demo_snmp "7 1 2 3")) = Some (0, MkCountersUdp 1 2 3)) as -> by (vm_compute; reflexivity).
    assert (udp_read demo_udp = [(9, MkCountersUdp 4 6 9); (12, MkCountersUdp 5 6 9)]) as Hr by (vm_compute; reflexivity).
    rewrite Hr in Hudp. assert (Sorted (λ a b : Z * CountersUdp, a.1 ≤ b.1 ∧ udp_le a.2 b.2)
      [(0, MkCountersUdp 1 2 3); (9, MkCountersUdp 4 6 9); (12, MkCountersUdp 5 6 9)]) as Hs.
    { repeat constructor; vm_compute; discriminate. }
    specialize (Hudp Hs). destruct (udp_run _ demo_udp) as [samples m]. destruct Hudp as (_ & _ & H1 & _ & H2). by split.
  - specialize (Hport (0, demo_link 10 1) demo_links).
    assert (Sorted link_le ((0, demo_link 10 1) :: demo_links)) as Hs by (repeat constructor; vm_compute; discriminate).
    specialize (Hport Hs). cbn [fst snd] in Hport. destruct (sample_port 0 None (demo_link 10 1)) as [[drops rates] b0].
    destruct (port_run b0 demo_links) as [reports b].
    destruct Hport as ((_ & H1 & _ & _ & _ & H2) & H3 & _). by split_and!.
Defined.
