(* ===== verification/Hub.v ===== *)
(** * Taps ([crates/perf/src/hub.rs], [events.rs], [control.rs])

    What a subscriber selected, and the records delivered to it.  A tap's queue is
    bounded in records and in bytes; what does not fit is dropped and counted, and the
    subscriber is told.  Every thread of the process offers records to it, with atomic
    operations one by one and no lock: [offer_step] is one of those.

    The hub's list of taps and the counts of who wants what change under the lock of
    its registries, and are functions.  [chosen] picks the exchanges to capture, on
    both ends alike.  The control socket ([answer]) asks for all this. *)

From stdpp Require Import sorting.
From S2P Require Import Prelude Types Msg Wire Control.

(** ** Records *)

Definition TAP_RECORDS : nat := 1024.
Definition TAP_BYTES : Z := Z.shiftl 32 20.
Definition UNDECODABLE_KEPT : nat := Z.to_nat (Z.shiftl 1 20).

Record IdsEvent := MkIdsEvent {
  ie_session : option Z; ie_conn : option Z; ie_stream : option Z; ie_unique : option Z;
  ie_op : option string }.
Definition to_ids (i : IdsEvent) : Ids :=
  MkIds (ie_session i) (ie_conn i) (ie_stream i) (ie_unique i) (ie_op i).

(** Roughly what a record holds in memory. *)
Definition size (r : Record_) : Z :=
  match rc_what r with
  | Hap_Event _ _ detail => 128 + len_s detail
  | Hap_Request s => 192 + 32 * len_z (su_phases s)
  | Hap_Exchange x => 256 + len_z (xc_request x) + len_z (xc_reply x)
  | Hap_Undecodable _ _ _ body | Hap_EventFrame _ _ _ _ body => 192 + len_z body
  | Hap_Dropped _ | Hap_Header _ | Hap_Census _ _ => 64
  end.

Inductive Side := Side_Client | Side_Server.
Definition Side_name (s : Side) : string := match s with Side_Client => "client" | Side_Server => "server" end.

(** splitmix64's finalizer, of the connection and the stream. *)
Definition mix (conn stream : Z) : Z :=
  let x := Z.lxor conn (wrap64 (stream * 0x9e3779b97f4a7c15)) in
  let x := wrap64 (Z.lxor x (Z.shiftr x 30) * 0xbf58476d1ce4e5b9) in
  let x := wrap64 (Z.lxor x (Z.shiftr x 27) * 0x94d049bb133111eb) in
  Z.lxor x (Z.shiftr x 31).
Definition chosen (conn : option Z) (stream every : Z) : bool :=
  if every <=? 1 then true else mix (default 0 conn) stream mod every =? 0.

(** ** A tap *)

(** [tp_open]: its receiver is still there. *)
Record Tap := MkTap {
  tp_selection : Selection;
  tp_queue : list Record_;
  tp_bytes : Z;
  tp_dropped : Z;
  tp_dropped_ever : Z;
  tp_census : gmap string CensusOp;
  tp_open : bool }.

Definition tap_new (s : Selection) : Tap := MkTap s [] 0 0 0 ∅ true.
Definition with_queue (t : Tap) (q : list Record_) (bytes : Z) : Tap :=
  MkTap (tp_selection t) q bytes (tp_dropped t) (tp_dropped_ever t) (tp_census t) (tp_open t).
Definition with_dropped (t : Tap) (dropped ever : Z) : Tap :=
  MkTap (tp_selection t) (tp_queue t) (tp_bytes t) dropped ever (tp_census t) (tp_open t).
Definition with_census (t : Tap) (c : gmap string CensusOp) : Tap :=
  MkTap (tp_selection t) (tp_queue t) (tp_bytes t) (tp_dropped t) (tp_dropped_ever t) c (tp_open t).

(** Where [Tap::offer] is, between two atomic operations.  [told]: the record being sent
    is the one that says how many were dropped; the offered one comes after it. *)
Inductive OfferAt :=
| Of_swap (r : Record_)
| Of_reserve (told : option Z) (r : Record_)
| Of_queue (told : option Z) (r : Record_)
| Of_unreserve (told : option Z) (r : Record_)
| Of_retell (n : Z) (r : Record_)
| Of_count (r : Record_)
| Of_count_ever (r : Record_)
| Of_done (taken : bool).

(** The record [Tap::send] is at. *)
Definition sending (told : option Z) (r : Record_) : Record_ :=
  match told with Some n => MkRecord (rc_at_ns r) (Hap_Dropped n) | None => r end.

Definition offer_step (t : Tap) (o : OfferAt) : Tap * OfferAt :=
  match o with
  | Of_swap r =>
      (with_dropped t 0 (tp_dropped_ever t),
       Of_reserve (if 0 <? tp_dropped t then Some (tp_dropped t) else None) r)
  | Of_reserve told r =>
      let total := tp_bytes t + size (sending told r) in
      (with_queue t (tp_queue t) total, if TAP_BYTES <? total then Of_unreserve told r else Of_queue told r)
  | Of_queue told r =>
      if tp_open t && (length (tp_queue t) <? TAP_RECORDS)%nat
      then (with_queue t (tp_queue t ++ [sending told r]) (tp_bytes t),
            match told with Some _ => Of_reserve None r | None => Of_done true end)
      else (t, Of_unreserve told r)
  | Of_unreserve told r =>
      (with_queue t (tp_queue t) (tp_bytes t - size (sending told r)),
       match told with Some n => Of_retell n r | None => Of_count r end)
  | Of_retell n r => (with_dropped t (tp_dropped t + n) (tp_dropped_ever t), Of_reserve None r)
  | Of_count r => (with_dropped t (tp_dropped t + 1) (tp_dropped_ever t), Of_count_ever r)
  | Of_count_ever r => (with_dropped t (tp_dropped t) (tp_dropped_ever t + 1), Of_done false)
  | Of_done taken => (t, Of_done taken)
  end.

(** [Tap::offer] with nobody else about: ten operations at most. *)
Fixpoint offer_run (n : nat) (t : Tap) (o : OfferAt) : Tap * OfferAt :=
  match n with O => (t, o) | S n => let '(t, o) := offer_step t o in offer_run n t o end.
Definition offer (t : Tap) (r : Record_) : Tap * bool :=
  let '(t, o) := offer_run 10 t (Of_swap r) in
  (t, match o with Of_done taken => taken | _ => false end).

Definition counted (t : Tap) (op : string) (change : CensusOp → CensusOp) : Tap :=
  with_census t (<[op := change (default (MkCensusOp op 0 0 0) (tp_census t !! op))]> (tp_census t)).
Definition saw (c : CensusOp) : CensusOp := MkCensusOp (co_op c) (co_seen c + 1) (co_sampled c) (co_dropped c).
Definition took (taken : bool) (c : CensusOp) : CensusOp :=
  if taken then MkCensusOp (co_op c) (co_seen c) (co_sampled c + 1) (co_dropped c)
  else MkCensusOp (co_op c) (co_seen c) (co_sampled c) (co_dropped c + 1).

(** [TapHandle::census], by name. *)
Definition census (t : Tap) : Happened :=
  Hap_Census (merge_sort (λ a b, String.leb (co_op a) (co_op b)) (snd <$> map_to_list (tp_census t))) (tp_dropped_ever t).

(** [TapReceiver::try_recv], the two operations it is. *)
Definition try_recv (t : Tap) : option (Record_ * Tap) :=
  match tp_queue t with [] => None | r :: q => Some (r, with_queue t q (tp_bytes t)) end.
Definition received (t : Tap) (r : Record_) : Tap := with_queue t (tp_queue t) (tp_bytes t - size r).

(** ** A tap among its threads *)

(** [tw_rx]: a record taken whose bytes are not given back yet.  Ghosts: what the
    subscriber has been given, and how many records were offered. *)
Record TapWorld := MkTapWorld {
  tw_tap : Tap;
  tw_offers : gmap Z OfferAt;
  tw_rx : option Record_;
  tw_got : list Record_;
  tw_offered : Z }.

Definition says_dropped (r : Record_) : bool := match rc_what r with Hap_Dropped _ => true | _ => false end.

Inductive tap_step (w : TapWorld) : TapWorld → Prop :=
| tp_offer k r :
    tw_offers w !! k = None → says_dropped r = false →
    tap_step w (MkTapWorld (tw_tap w) (<[k := Of_swap r]> (tw_offers w)) (tw_rx w) (tw_got w) (tw_offered w + 1))
| tp_atomic k o t' o' :
    tw_offers w !! k = Some o → offer_step (tw_tap w) o = (t', o') →
    tap_step w (MkTapWorld t' (<[k := o']> (tw_offers w)) (tw_rx w) (tw_got w) (tw_offered w))
| tp_recv r t' :
    tp_open (tw_tap w) = true → tw_rx w = None → try_recv (tw_tap w) = Some (r, t') →
    tap_step w (MkTapWorld t' (tw_offers w) (Some r) (tw_got w) (tw_offered w))
| tp_received r :
    tw_rx w = Some r →
    tap_step w (MkTapWorld (received (tw_tap w) r) (tw_offers w) None (tw_got w ++ [r]) (tw_offered w))
| tp_counted op change :
    tap_step w (MkTapWorld (counted (tw_tap w) op change) (tw_offers w) (tw_rx w) (tw_got w) (tw_offered w))
(** The subscriber goes. *)
| tp_close :
    let t := tw_tap w in
    tap_step w (MkTapWorld (MkTap (tp_selection t) (tp_queue t) (tp_bytes t) (tp_dropped t) (tp_dropped_ever t)
                              (tp_census t) false)
                  (tw_offers w) (tw_rx w) (tw_got w) (tw_offered w)).

Definition tap_reachable (w : TapWorld) : Prop :=
  ∃ s, rtc tap_step (MkTapWorld (tap_new s) ∅ None [] 0) w.

(** ** What a tap's counts are of *)

(** The bytes an offer has reserved, and those of a record about to be queued. *)
Definition reserves (o : OfferAt) : Z :=
  match o with Of_queue told r | Of_unreserve told r => size (sending told r) | _ => 0 end.
Definition enqueues (o : OfferAt) : Z := match o with Of_queue told r => size (sending told r) | _ => 0 end.
(** The drops an offer has taken to tell, and whether its record's fate is still open. *)
Definition tells (o : OfferAt) : Z :=
  match o with
  | Of_reserve (Some n) _ | Of_queue (Some n) _ | Of_unreserve (Some n) _ | Of_retell n _ => n
  | _ => 0
  end.
Definition pending (o : OfferAt) : Z := match o with Of_done _ => 0 | _ => 1 end.
(** A drop counted for the subscriber and not yet for good. *)
Definition lags (o : OfferAt) : Z := match o with Of_count_ever _ => 1 | _ => 0 end.

Definition told_of (r : Record_) : Z := match rc_what r with Hap_Dropped n => n | _ => 0 end.
Definition rx_size (w : TapWorld) : Z := match tw_rx w with Some r => size r | None => 0 end.
Definition rx_list (w : TapWorld) : list Record_ := match tw_rx w with Some r => [r] | None => [] end.

(** Everything the subscriber has, or will find in the queue. *)
Definition taken (w : TapWorld) : list Record_ := tw_got w ++ rx_list w ++ tp_queue (tw_tap w).

Definition sum_sizes (l : list Record_) : Z := sum_z size l.
Definition sum_told (l : list Record_) : Z := sum_z told_of l.
Definition offered_in (l : list Record_) : Z := sum_z (λ r, b2z (negb (says_dropped r))) l.

#[local] Arguments sum_z : simpl never.
#[local] Arguments sum_sizes : simpl never.
#[local] Arguments sum_told : simpl never.
#[local] Arguments offered_in : simpl never.

Lemma size_nonneg r : 0 <= size r.
Proof. unfold size, len_s, len_z. destruct (rc_what r); lia. Qed.
Lemma sum_sizes_nonneg l : 0 <= sum_sizes l.
Proof. induction l as [|r l IH]; [done|]. unfold sum_sizes in *. rewrite sum_z_cons. pose proof (size_nonneg r). lia. Qed.

(** An offer's own record says nothing of drops. *)
Definition offer_ok (o : OfferAt) : Prop :=
  match o with
  | Of_swap r | Of_reserve _ r | Of_queue _ r | Of_unreserve _ r | Of_retell _ r | Of_count r | Of_count_ever r =>
      says_dropped r = false
  | Of_done _ => True
  end ∧ 0 <= tells o.

Record tap_ok (w : TapWorld) : Prop := {
  to_offers : ∀ k o, tw_offers w !! k = Some o → offer_ok o;
  to_dropped : 0 <= tp_dropped (tw_tap w);
  to_bytes_of : tp_bytes (tw_tap w)
    = sum_sizes (tp_queue (tw_tap w)) + rx_size w + map_sum reserves (tw_offers w);
  to_room : sum_sizes (tp_queue (tw_tap w)) + rx_size w + map_sum enqueues (tw_offers w) <= TAP_BYTES;
  to_records : (length (tp_queue (tw_tap w)) <= TAP_RECORDS)%nat;
  to_told : sum_told (taken w) + tp_dropped (tw_tap w) + map_sum tells (tw_offers w)
    = tp_dropped_ever (tw_tap w) + map_sum lags (tw_offers w);
  to_all : offered_in (taken w) + tp_dropped_ever (tw_tap w) + map_sum pending (tw_offers w) = tw_offered w }.

(** What one atomic operation moves. *)
Definition queued (t t' : Tap) : list Record_ := drop (length (tp_queue t)) (tp_queue t').

Record offer_moves (t : Tap) (o : OfferAt) (t' : Tap) (o' : OfferAt) : Prop := {
  om_ok : offer_ok o';
  om_dropped : 0 <= tp_dropped t';
  om_queue : tp_queue t' = tp_queue t ++ queued t t';
  om_bytes : tp_bytes t' - tp_bytes t = sum_sizes (queued t t') + reserves o' - reserves o;
  om_room : sum_sizes (queued t t') + enqueues o' - enqueues o <= 0
            ∨ tp_queue t' = tp_queue t ∧ tp_bytes t + (enqueues o' - enqueues o) <= TAP_BYTES;
  om_records : (length (tp_queue t) <= TAP_RECORDS)%nat → (length (tp_queue t') <= TAP_RECORDS)%nat;
  om_told : sum_told (queued t t') + tp_dropped t' - tp_dropped t + tells o' - tells o
            = tp_dropped_ever t' - tp_dropped_ever t + lags o' - lags o;
  om_all : offered_in (queued t t') + tp_dropped_ever t' - tp_dropped_ever t + pending o' - pending o = 0 }.

Lemma queued_same t t' : tp_queue t' = tp_queue t → queued t t' = [].
Proof. intros Hq. unfold queued. rewrite Hq. apply drop_all. Qed.

Lemma offer_step_moves t o t' o' : offer_ok o → 0 <= tp_dropped t → offer_step t o = (t', o') → offer_moves t o t' o'.
Proof.
  intros [Hr Ht] Hd Hs. destruct o as [r|told r|told r|told r|n r|r|r|b]; cbn [offer_step] in Hs.
  3: { destruct (_ && _) eqn:Hroom; injection Hs as <- <-.
       - apply andb_true_iff in Hroom as [_ Hroom]. apply Nat.ltb_lt in Hroom.
         assert (queued t (with_queue t (tp_queue t ++ [sending told r]) (tp_bytes t)) = [sending told r]) as Hq.
         { unfold queued. cbn. by rewrite drop_app_length. }
         assert (sum_told [sending told r] = match told with Some n => n | None => 0 end
                 ∧ offered_in [sending told r] = match told with Some _ => 0 | None => 1 end) as [Hsum Hin].
         { unfold sum_told, offered_in. rewrite !sum_z_one. destruct told; cbn; [done|]. cbn in Hr.
           unfold told_of, says_dropped in *. by destruct (rc_what r). }
         constructor; rewrite ?Hq; unfold sum_sizes; rewrite ?sum_z_one, ?Hsum, ?Hin; cbn.
         1: by destruct told.
         all: try (destruct told; cbn; lia). 1: done. rewrite length_app. cbn. lia.
       - constructor; rewrite ?queued_same by done; unfold sum_sizes, sum_told, offered_in; rewrite ?sum_z_nil, ?app_nil_r; cbn;
           try done; try lia. left. pose proof (size_nonneg (sending told r)). lia. }
  all: injection Hs as <- <-.
  all: constructor; rewrite ?queued_same by done; unfold sum_sizes, sum_told, offered_in; rewrite ?sum_z_nil, ?app_nil_r; cbn;
    try done; try lia.
  all: repeat case_match; simplify_eq; cbn; try done; try lia.
  all: try (split; [done|cbn in *; lia]).
  - right. split; [done|]. apply Z.ltb_ge in H. lia.
  - cbn in Ht. lia.
Qed.

Lemma reserves_enqueues o : 0 <= enqueues o <= reserves o.
Proof. destruct o as [|told r|told r|told r| | | |]; cbn; try lia. all: pose proof (size_nonneg (sending told r)); lia. Qed.

Lemma room_below w : tap_ok w →
  sum_sizes (tp_queue (tw_tap w)) + rx_size w + map_sum enqueues (tw_offers w) <= tp_bytes (tw_tap w).
Proof.
  intros Hw. rewrite (to_bytes_of _ Hw).
  assert (∀ m : gmap Z OfferAt, map_sum enqueues m <= map_sum reserves m) as Hm; [|pose proof (Hm (tw_offers w)); lia].
  intros m. induction m as [|k o m Hk IH] using map_ind; [by rewrite !map_sum_empty|].
  rewrite !map_sum_insert_None by done. pose proof (reserves_enqueues o). lia.
Qed.

Lemma tap_ok_atomic w k o t' o' : tap_ok w → tw_offers w !! k = Some o → offer_step (tw_tap w) o = (t', o') →
  tap_ok (MkTapWorld t' (<[k := o']> (tw_offers w)) (tw_rx w) (tw_got w) (tw_offered w)).
Proof.
  intros Hw Hk Hs. pose proof (room_below w Hw) as Hroom.
  destruct (offer_step_moves _ _ _ _ (to_offers _ Hw k o Hk) (to_dropped _ Hw) Hs) as [Hok Hd Hq Hb Hr Hl Ht Ha].
  destruct Hw as [H1 H2 H3 H4 H5 H6 H7].
  assert (∀ f, map_sum f (<[k := o']> (tw_offers w)) = map_sum f (tw_offers w) - f o + f o') as Hm
    by (intros f; by apply map_sum_insert_Some).
  assert (taken (MkTapWorld t' (<[k := o']> (tw_offers w)) (tw_rx w) (tw_got w) (tw_offered w))
          = taken w ++ queued (tw_tap w) t') as Htk by (unfold taken; cbn; by rewrite Hq, !(assoc_L (++))).
  constructor; rewrite ?Htk; unfold rx_size, sum_sizes, sum_told, offered_in in *; cbn; rewrite ?Hm, ?sum_z_app; try lia.
  - intros k' x. rewrite lookup_insert. case_decide; [intros [= <-]; done|apply H1].
  - rewrite Hq, sum_z_app. lia.
  - rewrite Hq, sum_z_app. destruct Hr as [Hr|[Hqq Hr]]; [lia|].
    rewrite (queued_same _ _ Hqq), sum_z_nil. lia.
Qed.

Lemma tap_step_ok w w' : tap_ok w → tap_step w w' → tap_ok w'.
Proof.
  intros Hw Hs. destruct Hs as [k r Hk Hr|k o t' o' Hk Hs|r t' Hop Hrx Hs|r Hrx|op change|t].
  2: by eapply tap_ok_atomic.
  all: destruct Hw as [H1 H2 H3 H4 H5 H6 H7].
  - constructor; unfold rx_size, taken, rx_list in *; cbn in *; rewrite ?map_sum_insert_None by done; cbn; try done; try lia.
    intros k' x. rewrite lookup_insert. case_decide; [intros [= <-]; done|apply H1].
  - unfold try_recv in Hs. destruct (tp_queue (tw_tap w)) as [|r' q] eqn:Hq; [done|]. injection Hs as -> <-.
    unfold rx_size, taken, rx_list, sum_sizes in *. rewrite Hrx, Hq, ?sum_z_cons in *.
    constructor; unfold rx_size, taken, rx_list, sum_sizes in *; cbn in *; try done; try lia.
  - pose proof (size_nonneg r).
    constructor; unfold rx_size, taken, rx_list, received in *; cbn; rewrite Hrx in *; cbn in *;
      try rewrite <- (assoc_L (++)); cbn; try done; try lia.
  - constructor; unfold rx_size, taken, rx_list in *; cbn in *; done.
  - constructor; unfold rx_size, taken, rx_list in *; cbn in *; done.
Qed.

Lemma tap_reachable_ok w : tap_reachable w → tap_ok w.
Proof.
  intros [s Hr]. revert w Hr. apply rtc_ind_r; [|intros y z _ Hs Hy; by eapply tap_step_ok].
  constructor; unfold rx_size, taken, rx_list; cbn; rewrite ?map_sum_empty; try done. unfold TAP_RECORDS. lia.
Qed.

(** ** An offer with nobody else about *)

Definition fits (t : Tap) (r : Record_) : bool :=
  tp_open t && (length (tp_queue t) <? TAP_RECORDS)%nat && (tp_bytes t + size r <=? TAP_BYTES).

Definition send (t : Tap) (r : Record_) : Tap * bool :=
  if fits t r then (with_queue t (tp_queue t ++ [r]) (tp_bytes t + size r), true) else (t, false).

(** What was dropped and not told yet goes first, if it fits. *)
Definition tell (t : Tap) (at_ns : Z) : Tap :=
  if 0 <? tp_dropped t then
    let '(t', told) := send (with_dropped t 0 (tp_dropped_ever t)) (MkRecord at_ns (Hap_Dropped (tp_dropped t))) in
    if told then t' else t
  else t.

Definition offer_whole (t : Tap) (r : Record_) : Tap * bool :=
  let '(t, taken) := send (tell t (rc_at_ns r)) r in
  if taken then (t, true) else (with_dropped t (tp_dropped t + 1) (tp_dropped_ever t + 1), false).

Lemma offer_run_done n t b : offer_run n t (Of_done b) = (t, Of_done b).
Proof. induction n; [done|]. exact IHn. Qed.
Lemma offer_run_step n t o : offer_run (S n) t o = offer_run n (offer_step t o).1 (offer_step t o).2.
Proof. cbn [offer_run]. by destruct (offer_step t o). Qed.
Lemma with_queue_back t n : with_queue (with_queue t (tp_queue t) (tp_bytes t + n)) (tp_queue t) (tp_bytes t + n - n) = t.
Proof. destruct t. unfold with_queue. cbn. f_equal. lia. Qed.

(** [Tap::send] from its start: on to the queue, or back as it was. *)
Lemma send_run t told r :
  let '(t', taken) := send t (sending told r) in
  ∃ k, (k <= 3)%nat ∧ ∀ n, offer_run (k + n) t (Of_reserve told r) = offer_run n t' (match told, taken with
    | Some _, true => Of_reserve None r | Some n, false => Of_retell n r
    | None, true => Of_done true | None, false => Of_count r end).
Proof.
  unfold send, fits. pose proof (with_queue_back t (size (sending told r))) as Hback.
  destruct (Z.leb_spec (tp_bytes t + size (sending told r)) TAP_BYTES) as [Hb|Hb].
  - assert ((TAP_BYTES <? tp_bytes t + size (sending told r)) = false) as Hlt by lia.
    rewrite andb_true_r. destruct (_ && _) eqn:Hroom.
    + exists 2%nat. split; [lia|]. intros n. cbn [Nat.add]. rewrite !offer_run_step.
      cbn [offer_step fst snd]. rewrite Hlt. cbn [offer_step fst snd with_queue tp_open tp_queue tp_bytes]. rewrite Hroom.
      by destruct told.
    + exists 3%nat. split; [lia|]. intros n. cbn [Nat.add]. rewrite !offer_run_step.
      cbn [offer_step fst snd]. rewrite Hlt. cbn [offer_step fst snd with_queue tp_open tp_queue tp_bytes]. rewrite Hroom.
      cbn [offer_step fst snd]. cbn [tp_queue tp_bytes] in *. unfold with_queue in Hback |- *. cbn in Hback |- *.
      rewrite Hback. by destruct told.
  - assert ((TAP_BYTES <? tp_bytes t + size (sending told r)) = true) as Hlt by lia.
    rewrite andb_false_r. exists 2%nat. split; [lia|]. intros n. cbn [Nat.add]. rewrite !offer_run_step.
    cbn [offer_step fst snd]. rewrite Hlt. cbn [offer_step fst snd].
    unfold with_queue in Hback |- *. cbn in Hback |- *. rewrite Hback. by destruct told.
Qed.

(** Ten operations bring an offer to its end, as the code reads in sequence. *)
Lemma offer_is_whole t r : 0 <= tp_dropped t → offer t r = offer_whole t r.
Proof.
  intros Hd. unfold offer.
  assert (∀ t n, offer_run (5 + n) t (Of_reserve None r)
    = (let '(t', taken) := send t r in
       (if taken then t' else with_dropped t' (tp_dropped t' + 1) (tp_dropped_ever t' + 1), Of_done taken))) as Hlast.
  { intros t1 n. pose proof (send_run t1 None r) as Hrun. cbn [sending] in Hrun.
    destruct (send t1 r) as [t2 taken]. destruct Hrun as (k & Hk & Hrun).
    replace (5 + n)%nat with (k + (2 + (3 - k + n)))%nat by lia. rewrite Hrun. destruct taken; [apply offer_run_done|].
    cbn [Nat.add]. rewrite !offer_run_step. apply offer_run_done. }
  assert (∃ k, offer_run 10 t (Of_swap r) = offer_run (5 + k) (tell t (rc_at_ns r)) (Of_reserve None r)) as [k ->].
  { change 10%nat with (S 9). rewrite offer_run_step. cbn [offer_step fst snd]. unfold tell.
    destruct (Z.ltb_spec 0 (tp_dropped t)) as [Hp|Hp].
    - pose proof (send_run (with_dropped t 0 (tp_dropped_ever t)) (Some (tp_dropped t)) r) as Hrun. cbn [sending] in Hrun.
      unfold send in *. destruct (fits _ _); cbn [fst snd] in *; destruct Hrun as (k & Hk & Hrun).
      + exists (4 - k)%nat. replace 9%nat with (k + (5 + (4 - k)))%nat by lia. apply Hrun.
      + exists (3 - k)%nat. replace 9%nat with (k + S (5 + (3 - k)))%nat by lia. rewrite Hrun, offer_run_step.
        done.
    - exists 4%nat. f_equal. destruct t. unfold with_dropped. cbn in *. f_equal. lia. }
  rewrite Hlast. unfold offer_whole. by destruct (send _ r) as [t' []].
Qed.

(** ** What a subscriber can tell from its records *)

(** C30: A tap holds at most its bounds, however the threads that offer records to it and
    the subscriber that takes them interleave; the bytes it counts are those of its
    queue, of the record just taken and of the offers under way, exactly.  No record
    vanishes: each one offered is with the subscriber, in the queue, counted as dropped
    or still on its way; and every drop is either told to the subscriber, in a record
    that is in order among the others, or kept to be told by the next offer. *)
Theorem tap_accounts (w : TapWorld) (Hw : tap_reachable w) :
  ((length (tp_queue (tw_tap w)) <= TAP_RECORDS)%nat ∧ sum_sizes (tp_queue (tw_tap w)) <= TAP_BYTES) ∧
  tp_bytes (tw_tap w) = sum_sizes (tp_queue (tw_tap w)) + rx_size w + map_sum reserves (tw_offers w) ∧
  offered_in (taken w) + tp_dropped_ever (tw_tap w) + map_sum pending (tw_offers w) = tw_offered w ∧
  ((∀ k o, tw_offers w !! k = Some o → ∃ b, o = Of_done b) →
   sum_told (taken w) + tp_dropped (tw_tap w) = tp_dropped_ever (tw_tap w) ∧
   offered_in (taken w) + tp_dropped_ever (tw_tap w) = tw_offered w).
Proof.
  apply tap_reachable_ok in Hw. destruct Hw as [_ _ Hb Hroom Hn Htold Hall].
  assert (0 <= map_sum enqueues (tw_offers w)) by (apply map_sum_nonneg; intros k o _; pose proof (reserves_enqueues o); lia).
  assert (0 <= rx_size w) by (unfold rx_size; destruct (tw_rx w); [apply size_nonneg|done]).
  split; [split; [done|lia]|]. split; [done|]. split; [done|]. intros Hdone.
  assert (∀ f : OfferAt → Z, (∀ b, f (Of_done b) = 0) → map_sum f (tw_offers w) = 0) as Hz.
  { intros f Hf. apply map_sum_zero. intros k o Ho. by destruct (Hdone k o Ho) as [b ->]. }
  rewrite !Hz in * by done. lia.
Qed.

(** An offer of thread [k], alone for [n] operations. *)
Definition alone (n : nat) (k : Z) (w : TapWorld) : TapWorld :=
  match tw_offers w !! k with
  | Some o =>
      let '(t, o) := offer_run n (tw_tap w) o in
      MkTapWorld t (<[k := o]> (tw_offers w)) (tw_rx w) (tw_got w) (tw_offered w)
  | None => w
  end.
Lemma alone_reaches n k w w' : rtc tap_step (alone n k w) w' → rtc tap_step w w'.
Proof.
  intros Hr. transitivity (alone n k w); [clear Hr w'|done]. unfold alone. destruct (tw_offers w !! k) as [o|] eqn:Hk; [|done].
  revert w o Hk. induction n as [|n IH]; intros w o Hk; cbn [offer_run].
  - rewrite insert_id by done. by destruct w.
  - destruct (offer_step (tw_tap w) o) as [t o'] eqn:Hs. eapply rtc_l; [by apply (tp_atomic w k o t o')|].
    specialize (IH (MkTapWorld t (<[k := o']> (tw_offers w)) (tw_rx w) (tw_got w) (tw_offered w)) o'). cbn in IH.
    rewrite lookup_insert_eq in IH. specialize (IH eq_refl). destruct (offer_run n t o') as [t1 o1].
    by rewrite insert_insert_eq in IH.
Qed.

Definition demo_tap : Tap := tap_new (MkSelection Names_All Names_None false 0 false).
Definition demo_record (name : string) : Record_ := MkRecord 5 (Hap_Event name (MkIds None None None None None) "").
(** One record goes to the subscriber; the next finds it gone. *)
Definition demo_taps : TapWorld :=
  let w := MkTapWorld demo_tap {[1 := Of_swap (demo_record "first")]} None [] 1 in
  let w := alone 10 1 w in
  let w := MkTapWorld (with_queue (tw_tap w) [] (tp_bytes (tw_tap w))) (tw_offers w) (Some (demo_record "first")) [] 1 in
  let w := MkTapWorld (received (tw_tap w) (demo_record "first")) (tw_offers w) None [demo_record "first"] 1 in
  let t := tw_tap w in
  let w := MkTapWorld (MkTap (tp_selection t) (tp_queue t) (tp_bytes t) (tp_dropped t) (tp_dropped_ever t) (tp_census t) false)
             (<[2 := Of_swap (demo_record "second")]> (tw_offers w)) None (tw_got w) 2 in
  alone 10 2 w.

Lemma demo_taps_reachable : tap_reachable demo_taps.
Proof.
  exists (tp_selection demo_tap). change (tap_new _) with demo_tap.
  eapply rtc_l; [apply (tp_offer _ 1 (demo_record "first")); done|]. apply (alone_reaches 10 1).
  eapply rtc_l; [eapply tp_recv; vm_compute; reflexivity|].
  eapply rtc_l; [eapply tp_received; vm_compute; reflexivity|].
  eapply rtc_l; [apply tp_close|].
  eapply rtc_l; [apply (tp_offer _ 2 (demo_record "second")); vm_compute; reflexivity|]. apply (alone_reaches 10 2).
  match goal with |- rtc _ ?a ?b => replace a with b by (vm_compute; reflexivity) end. apply rtc_refl.
Qed.

Lemma tap_accounts_witness :
  tw_got demo_taps = [demo_record "first"] ∧ tp_dropped_ever (tw_tap demo_taps) = 1 ∧ tw_offered demo_taps = 2 ∧
  offered_in (taken demo_taps) + tp_dropped_ever (tw_tap demo_taps) + map_sum pending (tw_offers demo_taps)
  = tw_offered demo_taps.
Proof.
  split; [vm_compute; reflexivity|]. split; [vm_compute; reflexivity|]. split; [vm_compute; reflexivity|].
  exact (proj1 (proj2 (proj2 (tap_accounts demo_taps demo_taps_reachable)))).
Defined.
