(* ===== verification/Interest.v ===== *)
(** * Who is looking ([crates/perf/src/hub.rs], [events.rs])

    The hub's list of taps, and the counts that tell a request or an event whether
    anyone wants it: every thread reads one counter and does nothing more while it is
    zero.  The counts change only under the lock of the registries, with the list; they
    wrap at 32 bits.

    A tap that wants frames is handed whole exchanges: [sample] chooses them, [Bodies]
    is each message as each tap wants it, and [sm_deliver] gives the exchange its end.

    The hub keeps its taps by reference: [hb_store] holds every tap anyone refers to and
    [hb_taps] the subscribed ones, in order.  A set of counted events lives in
    [hb_events] as long as its owner; the registries refer to it weakly. *)

From stdpp Require Import pretty.
From S2P Require Import Prelude Types Msg Wire Codec Control Hub.

(** ** Counted events *)

Record Events := MkEvents { es_kinds : list string; es_counts : list Z; es_traced : list Z }.

(** An [AtomicU32] moved by an [i32]. *)
Definition count_by (delta n : Z) : Z :=
  if 0 <? delta then (n + delta) mod 2 ^ 32 else (n - Z.abs delta) mod 2 ^ 32.

Definition Events_new (kinds : list string) : Events :=
  MkEvents kinds (replicate (length kinds) 0) (replicate (length kinds) 0).
Definition inc (e : Events) (i : nat) : Events :=
  MkEvents (es_kinds e) (alter (λ n, wrap64 (n + 1)) i (es_counts e)) (es_traced e).
Definition traced (e : Events) (i : nat) : bool := 0 <? default 0 (es_traced e !! i).
Definition Events_count (e : Events) (i : nat) : Z := default 0 (es_counts e !! i).
Definition counts (e : Events) : list (string * Z) := zip (es_kinds e) (es_counts e).
Definition Events_adjust (selection : Selection) (delta : Z) (e : Events) : Events :=
  MkEvents (es_kinds e) (es_counts e)
    (zip_with (λ kind n, if Names_has (sel_events selection) kind then count_by delta n else n)
       (es_kinds e) (es_traced e)).

(** The counts since [last], [last] brought up to date, and the report's line. *)
Definition shown (name : string) (since now : Z) : string :=
  (name +:+ "=" +:+ pretty since +:+ "/" +:+ pretty now)%string.
Definition window (e : Events) (last : list Z) (what : string) : list Z * gmap string Z * option string :=
  let last := resize (length (es_kinds e)) 0 last in
  let rows := filter (λ row : string * Z * Z, 0 < row.1.2)
                (zip_with (λ kind_now seen, (kind_now.1, kind_now.2 - seen, kind_now.2)) (counts e) last) in
  (zip_with (λ now _, now) (es_counts e) last,
   foldl (λ w row, <[row.1.1 := row.1.2]> w) ∅ rows,
   match rows with
   | [] => None
   | _ => Some ("perf " +:+ what +:+ " (window/total): "
                +:+ String.concat " " ((λ row, shown row.1.1 row.1.2 row.2) <$> rows))%string
   end).

(** ** The hub *)

Record Hub := MkHub {
  hb_store : gmap Z Tap;
  hb_taps : list Z;
  hb_registries : list Z;
  hb_events : gmap Z Events;
  hb_requests : Z;
  hb_frames : Z }.

Definition hub_new : Hub := MkHub ∅ [] [] ∅ 0 0.
Definition with_store (h : Hub) (s : gmap Z Tap) : Hub :=
  MkHub s (hb_taps h) (hb_registries h) (hb_events h) (hb_requests h) (hb_frames h).

(** Count a tap in or out; a registry whose owner is gone goes too. *)
Definition adjust (h : Hub) (selection : Selection) (delta : Z) : Hub :=
  let live := filter (λ r, is_Some (hb_events h !! r)) (hb_registries h) in
  MkHub (hb_store h) (hb_taps h) live
    (foldl (λ evs r, alter (Events_adjust selection delta) r evs) (hb_events h) live)
    (if sel_frames selection then hb_requests h
     else if Names_is_none (sel_ops selection) then hb_requests h else count_by delta (hb_requests h))
    (if sel_frames selection then count_by delta (hb_frames h) else hb_frames h).

(** The tap is in the list before anyone's check turns true. *)
Definition subscribe (h : Hub) (k : Z) (selection : Selection) : Hub :=
  adjust (MkHub (<[k := tap_new selection]> (hb_store h)) (hb_taps h ++ [k]) (hb_registries h) (hb_events h)
            (hb_requests h) (hb_frames h)) selection 1.
(** [TapHandle::drop]. *)
Definition unsubscribe (h : Hub) (k : Z) : Hub :=
  match hb_store h !! k with
  | Some t => adjust (MkHub (hb_store h) (filter (.≠ k) (hb_taps h)) (hb_registries h) (hb_events h)
                        (hb_requests h) (hb_frames h)) (tp_selection t) (-1)
  | None => h
  end.

Definition selections (h : Hub) : list Selection := omap (λ k, tp_selection <$> hb_store h !! k) (hb_taps h).

(** [Events::new] and [Hub::register]. *)
Definition register (h : Hub) (r : Z) (kinds : list string) : Hub :=
  MkHub (hb_store h) (hb_taps h) (hb_registries h ++ [r])
    (<[r := foldl (λ e s, Events_adjust s 1 e) (Events_new kinds) (selections h)]> (hb_events h))
    (hb_requests h) (hb_frames h).

Definition wants_requests (h : Hub) : bool := 0 <? hb_requests h.
Definition wants_frames (h : Hub) : bool := 0 <? hb_frames h.

(** Each subscribed tap that [p] is true of, in turn. *)
Definition each_tap (h : Hub) (p : Selection → bool) (f : Tap → Tap) : Hub :=
  with_store h (foldl (λ s k, match s !! k with
                              | Some t => if p (tp_selection t) then <[k := f t]> s else s
                              | None => s
                              end) (hb_store h) (hb_taps h)).

Definition deliver_event (h : Hub) (name : string) (ids : IdsEvent) (detail : string) (at_ns : Z) : Hub :=
  each_tap h (λ s, Names_has (sel_events s) name)
    (λ t, (offer t (MkRecord at_ns (Hap_Event name (to_ids ids) detail))).1).
(** [Events::deliver]. *)
Definition Events_deliver (h : Hub) (e : Events) (i : nat) (ids : IdsEvent) (detail : string) (at_ns : Z) : Hub :=
  match es_kinds e !! i with
  | Some kind => if traced e i then deliver_event h kind ids detail at_ns else h
  | None => h
  end.
Definition deliver_request (h : Hub) (op : string) (summary : Summary) (at_ns : Z) : Hub :=
  each_tap h (λ s, negb (sel_frames s) && Names_has (sel_ops s) op)
    (λ t, (offer t (MkRecord at_ns (Hap_Request summary))).1).

(** ** Frames *)

Definition kept (body : list byte) : list byte := take (Nat.min (length body) UNDECODABLE_KEPT) body.

Definition undecodable (h : Hub) (side : Side) (ids : IdsEvent) (error : string) (body : list byte) (at_ns : Z) : Hub :=
  each_tap h sel_frames
    (λ t, (offer t (MkRecord at_ns (Hap_Undecodable (Side_name side) (to_ids ids)
             (error +:+ " (" +:+ pretty (len_z body) +:+ " bytes)")%string (kept body)))).1).

(** The body of a message with its data cut out, without the frame's length. *)
Definition elided `{Capnp CE R, !Message CE T R} (cut : option (T * Z)) : option (list byte * Z) :=
  match cut with
  | Some (message, taken) => match encode message with Ok frame => Some (drop 4 frame, taken) | Err _ => None end
  | None => None
  end.

Record Bodies := MkBodies { bd_whole : option (list byte); bd_cut : option (list byte * Z) }.

(** [payloads]: whether each tap wants them. *)
Definition Bodies_new (payloads : list bool) (body : list byte) (elide : option (list byte * Z)) : Bodies :=
  let any_cut := existsb negb payloads in
  let any_whole := existsb id payloads in
  let cut := if any_cut then elide else None in
  MkBodies (if any_whole || bool_decide (cut = None) then Some body else None) cut.
Definition for_tap (b : Bodies) (payloads : bool) : list byte * Z :=
  match bd_cut b, payloads with
  | Some (cut, n), false => (cut, n)
  | _, _ => (default [] (bd_whole b), 0)
  end.

Record Sampled := MkSampled {
  sm_taps : list Z; sm_side : Side; sm_ids : IdsEvent; sm_request : option Bodies; sm_outcome : string }.

Definition op_of (ids : IdsEvent) : string := default "?"%string (ie_op ids).
Definition takes_frames (op : string) (s : Selection) : bool :=
  sel_frames s && (Names_is_none (sel_ops s) || Names_has (sel_ops s) op).

(** Every frame tap of the operation counts it as seen; those it is chosen for capture it. *)
Definition sample (h : Hub) (side : Side) (ids : IdsEvent) : Hub * option Sampled :=
  match ie_stream ids with
  | None => (h, None)
  | Some stream =>
      let op := op_of ids in
      let captures k := match hb_store h !! k with
        | Some t => takes_frames op (tp_selection t) && chosen (ie_conn ids) stream (sel_every (tp_selection t))
        | None => false
        end in
      let taps := filter captures (hb_taps h) in
      (each_tap h (takes_frames op) (λ t, counted t op saw),
       match taps with [] => None | _ => Some (MkSampled taps side ids None "abandoned") end)
  end.

Definition payloads_of (h : Hub) (taps : list Z) : list bool :=
  omap (λ k, sel_payloads ∘ tp_selection <$> hb_store h !! k) taps.

Definition sm_request_read (h : Hub) (s : Sampled) (body : list byte) (elide : option (list byte * Z)) : Sampled :=
  MkSampled (sm_taps s) (sm_side s) (sm_ids s) (Some (Bodies_new (payloads_of h (sm_taps s)) body elide)) (sm_outcome s).
Definition sm_outcome_is (s : Sampled) (why : string) : Sampled :=
  MkSampled (sm_taps s) (sm_side s) (sm_ids s) (sm_request s) why.

Definition body_for (b : option Bodies) (payloads : bool) : list byte * Z :=
  match b with Some b => for_tap b payloads | None => ([], 0) end.

Definition exchange_for (s : Sampled) (reply : option Bodies) (sel : Selection) (elapsed_ns : Z) : Exchange :=
  let '(request, request_elided) := body_for (sm_request s) (sel_payloads sel) in
  let '(reply, reply_elided) := body_for reply (sel_payloads sel) in
  MkExchange (Side_name (sm_side s)) (to_ids (sm_ids s)) (Z.max (sel_every sel) 1) request request_elided
    reply reply_elided (sm_outcome s) elapsed_ns.

(** A capture, and its count in the tap's census. *)
Definition capture (op : string) (t : Tap) (r : Record_) : Tap :=
  let '(t, taken) := offer t r in counted t op (took taken).

Definition sm_deliver (h : Hub) (s : Sampled) (reply : option Bodies) (at_ns elapsed_ns : Z) : Hub :=
  with_store h (foldl (λ st k, alter (λ t,
      capture (op_of (sm_ids s)) t (MkRecord at_ns (Hap_Exchange (exchange_for s reply (tp_selection t) elapsed_ns)))) k st)
    (hb_store h) (sm_taps s)).
Definition sm_reply (h : Hub) (s : Sampled) (body : list byte) (elide : option (list byte * Z)) (at_ns elapsed_ns : Z) : Hub :=
  sm_deliver h (sm_outcome_is s "replied") (Some (Bodies_new (payloads_of h (sm_taps s)) body elide)) at_ns elapsed_ns.
Definition sm_undecodable (h : Hub) (s : Sampled) (body : list byte) (at_ns elapsed_ns : Z) : Hub :=
  sm_deliver h (sm_outcome_is s "undecodable") (Some (MkBodies (Some (kept body)) None)) at_ns elapsed_ns.
(** A [Sampled] that goes away with no reply. *)
Definition sm_drop (h : Hub) (s : Sampled) (at_ns elapsed_ns : Z) : Hub := sm_deliver h s None at_ns elapsed_ns.

(** A stream's [seq]th batch of change events; [body] is made only if a tap takes it. *)
Definition event_frame (h : Hub) (side : Side) (ids : IdsEvent) (seq : Z) (body : option (list byte)) (at_ns : Z) : Hub :=
  let takes s := takes_frames "event" s && (seq mod Z.max (sel_every s) 1 =? 0) in
  let h1 := each_tap h (takes_frames "event") (λ t, counted t "event" saw) in
  match body with
  | Some body =>
      each_tap h1 takes (λ t, capture "event" t (MkRecord at_ns (Hap_EventFrame (Side_name side) (to_ids ids)
        (Z.max (sel_every (tp_selection t)) 1) seq body)))
  | None => h1
  end.

(** ** The counts are of the taps *)

Definition wanting (p : Selection → bool) (h : Hub) : Z := sum_z (λ s, b2z (p s)) (selections h).
#[local] Arguments sum_z : simpl never.
#[local] Arguments wanting : simpl never.
Definition wants_summaries (s : Selection) : bool := negb (sel_frames s) && negb (Names_is_none (sel_ops s)).

(** What one thread does to the hub while it holds the lock it needs. *)
Inductive hub_step (h : Hub) : Hub → Prop :=
| hs_subscribe k s : hb_store h !! k = None → hub_step h (subscribe h k s)
| hs_unsubscribe k : k ∈ hb_taps h → hub_step h (unsubscribe h k)
| hs_register r kinds : r ∉ hb_registries h → hub_step h (register h r kinds)
(** The owner of a set of events goes. *)
| hs_gone r : hub_step h (MkHub (hb_store h) (hb_taps h) (hb_registries h) (delete r (hb_events h)) (hb_requests h) (hb_frames h))
| hs_inc r e i : hb_events h !! r = Some e →
    hub_step h (MkHub (hb_store h) (hb_taps h) (hb_registries h) (<[r := inc e i]> (hb_events h)) (hb_requests h) (hb_frames h))
| hs_event r e i ids detail at_ns : hb_events h !! r = Some e → hub_step h (Events_deliver h e i ids detail at_ns)
| hs_request op summary at_ns : hub_step h (deliver_request h op summary at_ns)
| hs_sample side ids : hub_step h (sample h side ids).1
| hs_deliver s reply at_ns elapsed_ns : hub_step h (sm_deliver h s reply at_ns elapsed_ns)
| hs_undecodable side ids error body at_ns : hub_step h (undecodable h side ids error body at_ns)
| hs_event_frame side ids seq body at_ns : hub_step h (event_frame h side ids seq body at_ns)
(** Another thread's part of an offer, or the subscriber's of a receive. *)
| hs_tap k t t' : hb_store h !! k = Some t → tp_selection t' = tp_selection t →
    hub_step h (with_store h (<[k := t']> (hb_store h))).

Definition hub_reachable (h : Hub) : Prop := rtc hub_step hub_new h.

Record hub_ok (h : Hub) : Prop := {
  ho_taps : NoDup (hb_taps h);
  ho_stored : ∀ k, k ∈ hb_taps h → is_Some (hb_store h !! k);
  ho_requests : hb_requests h = wanting wants_summaries h mod 2 ^ 32;
  ho_frames : hb_frames h = wanting sel_frames h mod 2 ^ 32;
  ho_registries : NoDup (hb_registries h);
  ho_events : ∀ r e, hb_events h !! r = Some e → r ∈ hb_registries h
    ∧ es_traced e = (λ kind, wanting (λ s, Names_has (sel_events s) kind) h mod 2 ^ 32) <$> es_kinds e }.

(** *** What a delivery leaves alone *)

Definition same_selections (s s' : gmap Z Tap) : Prop := ∀ k, tp_selection <$> s' !! k = tp_selection <$> s !! k.

Lemma same_insert (s : gmap Z Tap) k t t' : s !! k = Some t → tp_selection t' = tp_selection t → same_selections s (<[k := t']> s).
Proof. intros Hk Ht k'. rewrite lookup_insert. case_decide as H; [subst; rewrite Hk; cbn; by rewrite Ht|done]. Qed.
Lemma same_foldl {A} (f : gmap Z Tap → A → gmap Z Tap) l s :
  (∀ s a, same_selections s (f s a)) → same_selections s (foldl f s l).
Proof.
  intros Hf. revert s. induction l as [|a l IH]; intros s; [done|]. cbn. intros k. by rewrite (IH (f s a) k), (Hf s a k).
Qed.

Lemma offer_step_selection t o : tp_selection (offer_step t o).1 = tp_selection t.
Proof. destruct o; cbn; repeat case_match; done. Qed.
Lemma offer_selection t r : tp_selection (offer t r).1 = tp_selection t.
Proof.
  unfold offer. assert (∀ n o t, tp_selection (offer_run n t o).1 = tp_selection t) as Hrun.
  { induction n as [|n IH]; intros o t'; [done|]. by rewrite offer_run_step, IH, offer_step_selection. }
  specialize (Hrun 10%nat (Of_swap r) t). by destruct (offer_run 10 t (Of_swap r)).
Qed.
Lemma capture_selection op t r : tp_selection (capture op t r) = tp_selection t.
Proof. unfold capture. pose proof (offer_selection t r). by destruct (offer t r). Qed.

Lemma each_tap_same h p f : (∀ t, tp_selection (f t) = tp_selection t) →
  ∃ s, each_tap h p f = with_store h s ∧ same_selections (hb_store h) s.
Proof.
  intros Hf. eexists. split; [done|]. apply same_foldl. intros s k.
  destruct (s !! k) as [t|] eqn:Hk; [|done]. destruct (p _); [|done]. by eapply same_insert.
Qed.

Lemma wanting_same p h h' : hb_taps h' = hb_taps h → same_selections (hb_store h) (hb_store h') → wanting p h' = wanting p h.
Proof.
  intros Ht Hs. unfold wanting, selections. rewrite Ht. f_equal. clear Ht. induction (hb_taps h) as [|k l IH]; [done|]. cbn.
  rewrite (Hs k). destruct (_ <$> _); [by f_equal|done].
Qed.
Lemma stored_same (s s' : gmap Z Tap) k : same_selections s s' → is_Some (s !! k) → is_Some (s' !! k).
Proof. intros Hs [t Hk]. pose proof (Hs k) as H. rewrite Hk in H. apply fmap_Some in H as (t' & -> & _). by eexists. Qed.

Lemma with_store_ok h s : same_selections (hb_store h) s → hub_ok h → hub_ok (with_store h s).
Proof.
  intros Hs [H1 H2 H3 H4 H5 H6].
  assert (∀ p, wanting p (with_store h s) = wanting p h) as Hw by (intros p; by apply wanting_same).
  constructor; cbn; rewrite ?Hw; try done.
  - intros k Hk. eapply stored_same; [done|]. by apply H2.
  - intros r e He. destruct (H6 r e He) as [Hr ->]. split; [done|]. apply list_fmap_ext. intros _ kind _. by rewrite Hw.
Qed.

(** *** Counting in and out *)

Lemma count_by_ok delta w : delta = 1 ∨ delta = -1 → count_by delta (w mod 2 ^ 32) = (w + delta) mod 2 ^ 32.
Proof.
  intros [-> | ->]; unfold count_by; cbn [Z.ltb Z.compare Z.abs]; [by rewrite Zplus_mod_idemp_l|].
  by rewrite Zminus_mod_idemp_l.
Qed.
Lemma counted_if delta w (b : bool) : delta = 1 ∨ delta = -1 →
  (if b then count_by delta (w mod 2 ^ 32) else w mod 2 ^ 32) = (w + delta * b2z b) mod 2 ^ 32.
Proof. intros Hd. destruct b; cbn [b2z]; [rewrite count_by_ok by done; f_equal; lia|f_equal; lia]. Qed.

Lemma foldl_alter {A} (f : A → A) l (m : gmap Z A) r : NoDup l →
  foldl (λ m r, alter f r m) m l !! r = if decide (r ∈ l) then f <$> m !! r else m !! r.
Proof.
  revert m. induction l as [|r' l IH]; intros m Hnd; [by rewrite decide_False by set_solver|].
  apply NoDup_cons in Hnd as [Hn Hnd]. cbn. rewrite IH by done. rewrite lookup_alter.
  destruct (decide (r' = r)) as [->|Hne].
  - rewrite decide_False by done. by rewrite decide_True by set_solver.
  - destruct (decide (r ∈ l)); [by rewrite decide_True by set_solver|by rewrite decide_False by set_solver].
Qed.

Lemma Events_adjust_ok e selection delta (W : string → Z) : delta = 1 ∨ delta = -1 →
  es_traced e = (λ kind, W kind mod 2 ^ 32) <$> es_kinds e →
  es_traced (Events_adjust selection delta e)
  = (λ kind, (W kind + delta * b2z (Names_has (sel_events selection) kind)) mod 2 ^ 32) <$> es_kinds e.
Proof.
  intros Hd Ht. cbn. rewrite Ht. clear Ht. induction (es_kinds e) as [|kind l IH]; [done|]. cbn. rewrite IH. f_equal. by apply counted_if.
Qed.

(** The list changed by one tap; its counts follow. *)
Lemma adjust_ok h h1 selection delta :
  hub_ok h → delta = 1 ∨ delta = -1 →
  (hb_registries h1, hb_events h1, hb_requests h1, hb_frames h1) = (hb_registries h, hb_events h, hb_requests h, hb_frames h) →
  NoDup (hb_taps h1) → (∀ k, k ∈ hb_taps h1 → is_Some (hb_store h1 !! k)) →
  (∀ p, wanting p h1 = wanting p h + delta * b2z (p selection)) → hub_ok (adjust h1 selection delta).
Proof.
  intros [_ _ H3 H4 H5 H6] Hd Heq Hnd Hst Hw. injection Heq as Hr He Hq Hf.
  assert (∀ p, wanting p (adjust h1 selection delta) = wanting p h + delta * b2z (p selection)) as Hw' by apply Hw.
  constructor; rewrite ?Hw'; cbn; try done.
  - rewrite Hq, H3, <- counted_if by done. unfold wants_summaries.
    destruct (sel_frames selection); [done|]. by destruct (Names_is_none _).
  - rewrite Hf, H4. by apply counted_if.
  - apply NoDup_filter. by rewrite Hr.
  - intros r e Hl. rewrite foldl_alter in Hl by (apply NoDup_filter; by rewrite Hr). rewrite He, Hr in *.
    destruct (hb_events h !! r) as [e0|] eqn:He0; [|by destruct (decide _)].
    destruct (H6 r e0 He0) as [Hin Htr].
    assert (r ∈ filter (λ r, is_Some (hb_events h !! r)) (hb_registries h)) as Hlive.
    { apply list_elem_of_filter. rewrite He0. split; [by eexists|done]. }
    rewrite decide_True in Hl by done. injection Hl as <-. split; [done|].
    rewrite (Events_adjust_ok _ _ _ _ Hd Htr). apply list_fmap_ext. intros _ kind _. by rewrite Hw'.
Qed.

Lemma selections_app (h : Hub) st l1 l2 :
  selections (MkHub st (l1 ++ l2) (hb_registries h) (hb_events h) (hb_requests h) (hb_frames h))
  = omap (λ k, tp_selection <$> st !! k) l1 ++ omap (λ k, tp_selection <$> st !! k) l2.
Proof. apply omap_app. Qed.

Lemma subscribe_ok h k selection : hb_store h !! k = None → hub_ok h → hub_ok (subscribe h k selection).
Proof.
  intros Hk Hok. assert (k ∉ hb_taps h) as Hnin.
  { intros Hin. apply (ho_stored _ Hok) in Hin as [t Ht]. congruence. }
  apply (adjust_ok h); cbn; try done; [by left|..].
  - apply NoDup_app. split; [apply (ho_taps _ Hok)|]. split; [|apply NoDup_singleton]. set_solver.
  - intros k'. rewrite elem_of_app, lookup_insert. case_decide as Hd; [by eexists|].
    intros [Hin | ->%list_elem_of_singleton]; [by apply (ho_stored _ Hok)|done].
  - intros p. unfold wanting. rewrite selections_app, sum_z_app. cbn. rewrite lookup_insert_eq. cbn.
    rewrite sum_z_one. replace (omap _ (hb_taps h)) with (selections h); [lia|].
    apply list_omap_ext, Forall2_same_length_lookup. split; [done|]. intros i k1 k2 H1 H2. simplify_eq.
    rewrite lookup_insert_ne; [done|]. intros ->. by apply Hnin, (list_elem_of_lookup_2 _ i).
Qed.

Lemma unsubscribe_ok h k : k ∈ hb_taps h → hub_ok h → hub_ok (unsubscribe h k).
Proof.
  intros Hk Hok. unfold unsubscribe. destruct (ho_stored _ Hok k Hk) as [t Ht]. rewrite Ht.
  apply (adjust_ok h); cbn; try done; [by right|..].
  - apply NoDup_filter, (ho_taps _ Hok).
  - intros k' [_ Hin]%list_elem_of_filter. by apply (ho_stored _ Hok).
  - intros p. unfold wanting, selections. cbn. pose proof (ho_taps _ Hok) as Hnd.
    apply list_elem_of_split in Hk as (l1 & l2 & Hl). rewrite Hl in *.
    apply NoDup_app in Hnd as (_ & Hn1 & [Hn2 _]%NoDup_cons).
    assert (∀ l : list Z, k ∉ l → filter (λ x, x ≠ k) l = l) as Hf.
    { intros l Hl'. induction l as [|x l IH]; [done|]. rewrite filter_cons_True, IH by set_solver. done. }
    rewrite filter_app, filter_cons_False by auto. rewrite !Hf by set_solver.
    rewrite !omap_app, !sum_z_app. cbn. rewrite Ht. cbn. rewrite sum_z_cons. lia.
Qed.

Lemma register_events sels e W :
  es_traced e = (λ kind, W kind mod 2 ^ 32) <$> es_kinds e →
  es_kinds (foldl (λ e s, Events_adjust s 1 e) e sels) = es_kinds e ∧
  es_traced (foldl (λ e s, Events_adjust s 1 e) e sels)
  = (λ kind, (W kind + sum_z (λ s, b2z (Names_has (sel_events s) kind)) sels) mod 2 ^ 32) <$> es_kinds e.
Proof.
  revert e W. induction sels as [|s sels IH]; intros e W He; cbn.
  - split; [done|]. rewrite He. apply list_fmap_ext. intros _ kind _. by rewrite sum_z_nil, Z.add_0_r.
  - destruct (IH (Events_adjust s 1 e) (λ kind, W kind + 1 * b2z (Names_has (sel_events s) kind))) as [Hk Ht].
    { by rewrite (Events_adjust_ok _ _ _ W (or_introl eq_refl) He). }
    rewrite Hk, Ht. split; [done|]. apply list_fmap_ext. intros _ kind _. rewrite sum_z_cons. f_equal. lia.
Qed.

Lemma register_ok h r kinds : r ∉ hb_registries h → hub_ok h → hub_ok (register h r kinds).
Proof.
  intros Hr [H1 H2 H3 H4 H5 H6]. constructor; cbn; try done.
  - apply NoDup_app. split; [done|]. split; [set_solver|apply NoDup_singleton].
  - intros r' e. rewrite lookup_insert. case_decide as Hd.
    + intros [= <-]. subst r'. split; [set_solver|].
      destruct (register_events (selections h) (Events_new kinds) (λ _, 0)) as [Hk Ht].
      { cbn. clear. by induction kinds as [|x l IH]; [|cbn; rewrite <- IH]. }
      by rewrite Hk, Ht.
    + intros He. destruct (H6 r' e He) as [Hin Ht]. split; [set_solver|done].
Qed.

Lemma hub_step_ok h h' : hub_step h h' → hub_ok h → hub_ok h'.
Proof.
  assert (∀ h p f, (∀ t, tp_selection (f t) = tp_selection t) → hub_ok h → hub_ok (each_tap h p f)) as Heach.
  { intros h0 p f Hf Hok. destruct (each_tap_same h0 p f Hf) as (s & -> & Hs). by apply with_store_ok. }
  intros Hs Hok. destruct Hs as [k s Hk|k Hk|r kinds Hr|r|r e i He|r e i ids detail at_ns He|op summary at_ns
    |side ids|s reply at_ns elapsed_ns|side ids error body at_ns|side ids seq body at_ns|k t t' Hk Ht].
  - by apply subscribe_ok.
  - by apply unsubscribe_ok.
  - by apply register_ok.
  - destruct Hok as [H1 H2 H3 H4 H5 H6]. constructor; cbn; try done.
    intros r' e [_ He]%lookup_delete_Some. by apply H6.
  - destruct Hok as [H1 H2 H3 H4 H5 H6]. constructor; cbn; try done.
    intros r' e'. rewrite lookup_insert. case_decide as Hd; [|apply H6]. intros [= <-]. subst r'. exact (H6 r e He).
  - unfold Events_deliver. destruct (es_kinds e !! i); [|done]. destruct (traced e i); [|done].
    apply Heach; [|done]. intros t. apply offer_selection.
  - apply Heach; [|done]. intros t. apply offer_selection.
  - unfold sample. destruct (ie_stream ids); [|done]. by apply Heach.
  - apply with_store_ok; [|done]. apply same_foldl. intros st k k'. rewrite lookup_alter.
    case_decide as Hd; [subst|done]. destruct (st !! k'); [|done]. cbn. by rewrite capture_selection.
  - apply Heach; [|done]. intros t. apply offer_selection.
  - unfold event_frame. cbv zeta. destruct body; repeat (apply Heach; [intros t; first [done|apply capture_selection]|]); done.
  - apply with_store_ok; [|done]. by eapply same_insert.
Qed.

Lemma hub_reachable_ok h : hub_reachable h → hub_ok h.
Proof.
  intros Hr. revert h Hr. apply rtc_ind_r; [|intros y z _ Hs Hy; by eapply hub_step_ok].
  constructor; cbn; try done; [by apply NoDup_nil|set_solver|by apply NoDup_nil].
Qed.

Lemma wanting_pos p h : 0 < wanting p h ↔ ∃ k t, k ∈ hb_taps h ∧ hb_store h !! k = Some t ∧ p (tp_selection t) = true.
Proof.
  unfold wanting, selections. induction (hb_taps h) as [|k l IH]; cbn; [rewrite sum_z_nil; split; [lia|]; set_solver|].
  assert (0 <= sum_z (λ s, b2z (p s)) (omap (λ k, tp_selection <$> hb_store h !! k) l)) as Hnn.
  { clear IH. induction (omap _ l) as [|s ss IH]; [done|]. rewrite sum_z_cons. pose proof (b2z_range (p s)). lia. }
  destruct (hb_store h !! k) as [t|] eqn:Hk; cbn.
  - rewrite sum_z_cons. destruct (p (tp_selection t)) eqn:Hp; cbn [b2z].
    + split; [|lia]. intros _. exists k, t. split; [left|done].
    + rewrite Z.add_0_l, IH. split; intros (k' & t' & Hin & Hk' & Hp').
      * exists k', t'. split; [by right|done].
      * apply elem_of_cons in Hin as [-> | Hin]; [congruence|]. by exists k', t'.
  - rewrite IH. split; intros (k' & t' & Hin & Hk' & Hp').
    + exists k', t'. split; [by right|done].
    + apply elem_of_cons in Hin as [-> | Hin]; [congruence|]. by exists k', t'.
Qed.
Lemma wanting_few p h : wanting p h <= len_z (hb_taps h).
Proof.
  unfold wanting, selections, len_z. induction (hb_taps h) as [|k l IH]; cbn; [rewrite sum_z_nil; lia|].
  destruct (tp_selection <$> _) as [s|]; [rewrite sum_z_cons; pose proof (b2z_range (p s))|]; lia.
Qed.
Lemma counter_of p h : len_z (hb_taps h) < 2 ^ 32 →
  (0 <? wanting p h mod 2 ^ 32) = true ↔ ∃ k t, k ∈ hb_taps h ∧ hb_store h !! k = Some t ∧ p (tp_selection t) = true.
Proof.
  intros Hfew. rewrite <- wanting_pos, Z.ltb_lt. pose proof (wanting_few p h).
  assert (0 <= wanting p h) as Hnn.
  { unfold wanting. clear. induction (selections h) as [|s l IH]; [done|]. rewrite sum_z_cons.
    pose proof (b2z_range (p s)). lia. }
  rewrite Z.mod_small by lia. done.
Qed.

(** However taps come and go, sets of events are made and dropped, and records are
    offered meanwhile, the counters a thread looks at before it does any work are true to
    the list: frames, request summaries, or the detail of one kind of event are wanted
    exactly while some subscribed tap selected them, of sets of events made before the
    tap and after it alike.  So nothing is missed, and nothing costs once the last tap
    is gone. *)
Theorem interest_exact (h : Hub) (Hh : hub_reachable h) (Hfew : len_z (hb_taps h) < 2 ^ 32) :
  (wants_frames h = true ↔ ∃ k t, k ∈ hb_taps h ∧ hb_store h !! k = Some t ∧ sel_frames (tp_selection t) = true) ∧
  (wants_requests h = true ↔
    ∃ k t, k ∈ hb_taps h ∧ hb_store h !! k = Some t ∧ wants_summaries (tp_selection t) = true) ∧
  (∀ r e i kind, hb_events h !! r = Some e → es_kinds e !! i = Some kind →
    (traced e i = true ↔
     ∃ k t, k ∈ hb_taps h ∧ hb_store h !! k = Some t ∧ Names_has (sel_events (tp_selection t)) kind = true)).
Proof.
  apply hub_reachable_ok in Hh. destruct Hh as [_ _ Hq Hf _ He].
  unfold wants_frames, wants_requests. rewrite Hq, Hf, !counter_of by done. split; [done|]. split; [done|].
  intros r e i kind Hr Hi. destruct (He r e Hr) as [_ Ht]. unfold traced. rewrite Ht, list_lookup_fmap, Hi. cbn.
  by apply (counter_of (λ s, Names_has (sel_events s) kind)).
Qed.

Definition demo_frames : Selection := MkSelection Names_None Names_None true 1 false.
Definition demo_stalls : Selection := MkSelection (Names_Some ["stall"%string]) Names_None false 0 false.
Definition demo_hub : Hub :=
  unsubscribe (subscribe (subscribe (register hub_new 7 ["evict"; "stall"]%string) 1 demo_frames) 2 demo_stalls) 1.

Lemma interest_exact_witness :
  wants_frames demo_hub = false ∧ (λ e, traced e 1) <$> hb_events demo_hub !! 7 = Some true ∧
  ((wants_frames demo_hub = true ↔
    ∃ k t, k ∈ hb_taps demo_hub ∧ hb_store demo_hub !! k = Some t ∧ sel_frames (tp_selection t) = true)).
Proof.
  split; [vm_compute; reflexivity|]. split; [vm_compute; reflexivity|].
  refine (proj1 (interest_exact demo_hub _ _)); [|vm_compute; reflexivity].
  unfold hub_reachable, demo_hub. eapply rtc_l; [apply (hs_register _ 7 ["evict"; "stall"]%string); set_solver|].
  eapply rtc_l; [apply (hs_subscribe _ 1 demo_frames); vm_compute; reflexivity|].
  eapply rtc_l; [apply (hs_subscribe _ 2 demo_stalls); vm_compute; reflexivity|].
  eapply rtc_l; [apply (hs_unsubscribe _ 1); cbn; set_solver|]. apply rtc_refl.
Defined.

(** ** Bodies *)

(** A tap of those the capture is for has the whole body, or, if it wants no payloads and
    there was something to cut, the cut one. *)
Lemma for_tap_spec payloads body elide p : p ∈ payloads →
  for_tap (Bodies_new payloads body elide) p
  = match elide with Some cut => if p then (body, 0) else cut | None => (body, 0) end.
Proof.
  intros Hp. unfold for_tap, Bodies_new. cbn.
  assert (existsb negb payloads = true ∨ p = true) as Hcut.
  { destruct p; [by right|left]. apply existsb_exists. exists false. by rewrite <- list_elem_of_In. }
  assert (p = true → existsb id payloads = true) as Hwhole.
  { intros ->. apply existsb_exists. exists true. by rewrite <- list_elem_of_In. }
  destruct elide as [[cut n]|], p, (existsb negb payloads), (existsb id payloads); cbn; try done.
  all: try (by destruct Hcut). all: by specialize (Hwhole eq_refl).
Qed.
