(* ===== verification/Answer.v ===== *)
(** * The control socket's connections ([crates/perf/src/control.rs])

    Who is let in, and the task that answers one connection ([answer]): counters and
    handles as often as they are asked for, or one subscription, whose records are written
    as they come until the subscriber goes or asks for its census, a last record that says
    what the tap saw and dropped.

    The task is a step relation over the tap it subscribed to and the threads that offer
    records to it ([Hub.v]); between two steps any of them may run.  Reading a request, the
    stream's writes and what the process reports of itself are the environment's; what a
    frame takes is [Codec.v]'s, over the Cap'n Proto library. *)

From stdpp Require Import pretty.
From S2P Require Import Prelude Types Codec Wire Control Hub Text.

(** ** Who is let in *)

Definition socket_name (uid : Z) (side : string) (pid : Z) : string :=
  ("jackalopefs/" +:+ pretty uid +:+ "/" +:+ side +:+ "-" +:+ pretty pid)%string.
Definition admits (peer ours : Z) : bool := (peer =? ours) || (peer =? 0).

(** What a turn of [serve] is woken by: a connection and who made it, if that can be told;
    a failure to accept; the process stopping. *)
Inductive Accepted := Ac_Stream (peer : option Z) | Ac_Failed | Ac_Stop.
Inductive Served := Sv_Answer | Sv_Refuse | Sv_Retry (said : bool) | Sv_Over.

(** With it, whether the next failure to accept is one of a run of them. *)
Definition serve_turn (ours : Z) (failing : bool) (a : Accepted) : Served * bool :=
  match a with
  | Ac_Stream peer =>
      (match peer with
       | Some peer => if admits peer ours then Sv_Answer else Sv_Refuse
       | None => Sv_Refuse
       end, false)
  | Ac_Failed => (Sv_Retry (negb failing), true)
  | Ac_Stop => (Sv_Over, failing)
  end.

Section answer.
Context {CE : Type} `{HC : !Capnp CE (control_reply_R CE)}.
(** [CONTROL_REVISION], a hash of the schema. *)
Context (revision : Z).

(** ** Writing *)

Inductive WriteReply := WR_Ok | WR_TooLarge | WR_Failed.

(** [write_frame], [io] being whether the stream takes it. *)
Definition write_reply (io : bool) (reply : ControlReply) : WriteReply :=
  match encode (T:=ControlReply) reply with
  | Err (EC_TooLarge _) => WR_TooLarge
  | Err _ => WR_Failed
  | Ok _ => if io then WR_Ok else WR_Failed
  end.

(** ** One connection *)

(** The process as [Source] shows it at some moment. *)
Record Source := MkSource {
  so_side : string; so_pid : Z; so_describe : string; so_uptime_ns : Z; so_resources : Resources;
  so_counters : Counters; so_handles : Handles }.

Definition counters_of (s : Source) : Counters :=
  let c := so_counters s in
  MkCounters (so_side s) (so_pid s) (so_describe s) (so_uptime_ns s) (cn_inflight c) (cn_events c) (cn_ops c)
    (so_resources s) (cn_handles c).

(** What [read_frame] gives: a request, or an error, the end of the stream among them. *)
Definition Read : Type := option ControlRequest.

(** Where the task is.  [At_subscribed]: in the [select!].  [At_record]: writing one,
    [draining] since the census was asked for.  [At_draining]: about to look whether the
    queue has another.  [At_drained]: it has not, and the census is taken next. *)
Inductive AnswerAt :=
| At_asked
| At_subscribed
| At_record (r : Record_) (draining : bool)
| At_draining
| At_drained
| At_census (r : Record_)
| At_over.

(** [an_written]: the replies written, the first one first.  Ghosts: [an_asks], what was
    asked and answered before any subscription, and [an_census], the tap as the census was
    taken. *)
Record Conn := MkConn {
  an_at : AnswerAt;
  an_tap : option TapWorld;
  an_written : list ControlReply;
  an_asks : list (Ask * Source);
  an_census : option TapWorld }.

Definition conn_new : Conn := MkConn At_asked None [] [] None.

Definition at_ (a : AnswerAt) (c : Conn) : Conn :=
  MkConn a (an_tap c) (an_written c) (an_asks c) (an_census c).
Definition wrote (reply : ControlReply) (c : Conn) : Conn :=
  MkConn (an_at c) (an_tap c) (an_written c ++ [reply]) (an_asks c) (an_census c).

(** The task ends: its tap's two ends go with it. *)
Definition over (c : Conn) : Conn :=
  MkConn At_over
    ((λ w, let t := tw_tap w in
       MkTapWorld (MkTap (tp_selection t) (tp_queue t) (tp_bytes t) (tp_dropped t) (tp_dropped_ever t) (tp_census t) false)
         (tw_offers w) (tw_rx w) (tw_got w) (tw_offered w)) <$> an_tap c)
    (an_written c) (an_asks c) (an_census c).

(** A reply after which the task goes on, unless it cannot be written. *)
Definition replied (io : bool) (ask : Ask) (s : Source) (reply : ControlReply) (c : Conn) : Conn :=
  match write_reply io reply with
  | WR_Ok => MkConn At_asked (an_tap c) (an_written c ++ [reply]) (an_asks c ++ [(ask, s)]) (an_census c)
  | _ => over c
  end.
(** One after which it does not. *)
Definition refused (io : bool) (why : string) (c : Conn) : Conn :=
  over (match write_reply io (CR_Refused why) with WR_Ok => wrote (CR_Refused why) c | _ => c end).

Definition hex16 (z : Z) : string := String.string_of_list_byte (Text.hex_text 16 z).
Definition why_revision (theirs : Z) : string :=
  ("control protocol revision " +:+ hex16 theirs +:+ "; this process speaks " +:+ hex16 revision)%string.
Definition why_census : string := "a census is asked for during a subscription"%string.

(** A request read. *)
Definition answered (read : Read) (s : Source) (io : bool) (c : Conn) : Conn :=
  match read with
  | None => over c
  | Some request =>
      if negb (cr_revision request =? revision) then refused io (why_revision (cr_revision request)) c
      else
        match cr_ask request with
        | Ask_Counters => replied io Ask_Counters s (CR_Counters (counters_of s)) c
        | Ask_Handles => replied io Ask_Handles s (CR_Handles (so_handles s)) c
        | Ask_Census => refused io why_census c
        | Ask_Subscribe selection =>
            MkConn At_subscribed (Some (MkTapWorld (tap_new selection) ∅ None [] 0)) (an_written c) (an_asks c) None
        end
  end.

(** [send_record], and whether to go on. *)
Definition send_record (io : bool) (r : Record_) (c : Conn) : Conn * bool :=
  match write_reply io (CR_Record r) with
  | WR_Ok => (wrote (CR_Record r) c, true)
  | WR_TooLarge => (c, true)
  | WR_Failed => (c, false)
  end.

(** A request read during the subscription. *)
Definition asked (read : Read) (c : Conn) : Conn :=
  match read with
  | Some (MkControlRequest _ Ask_Census) => at_ At_draining c
  | _ => over c
  end.

(** [recv] and [try_recv] of the tap's receiver. *)
Definition received_by (w : TapWorld) (r : Record_) (t : Tap) : TapWorld :=
  MkTapWorld (received t r) (tw_offers w) None (tw_got w ++ [r]) (tw_offered w).

Definition with_tap (w : TapWorld) (a : AnswerAt) (c : Conn) : Conn :=
  MkConn a (Some w) (an_written c) (an_asks c) (an_census c).

(** What other threads do to the tap. *)
Inductive offer_thread (w : TapWorld) : TapWorld → Prop :=
| ot_offer k r :
    tw_offers w !! k = None → says_dropped r = false →
    offer_thread w (MkTapWorld (tw_tap w) (<[k := Of_swap r]> (tw_offers w)) (tw_rx w) (tw_got w) (tw_offered w + 1))
| ot_atomic k o t' o' :
    tw_offers w !! k = Some o → offer_step (tw_tap w) o = (t', o') →
    offer_thread w (MkTapWorld t' (<[k := o']> (tw_offers w)) (tw_rx w) (tw_got w) (tw_offered w))
| ot_counted op change :
    offer_thread w (MkTapWorld (counted (tw_tap w) op change) (tw_offers w) (tw_rx w) (tw_got w) (tw_offered w)).

Inductive answer_step (c : Conn) : Conn → Prop :=
| as_answered read s io : an_at c = At_asked → answer_step c (answered read s io c)
| as_recv w r t :
    an_at c = At_subscribed → an_tap c = Some w → try_recv (tw_tap w) = Some (r, t) →
    answer_step c (with_tap (received_by w r t) (At_record r false) c)
| as_asked read : an_at c = At_subscribed → answer_step c (asked read c)
| as_sent r draining io :
    an_at c = At_record r draining →
    answer_step c
      (let '(c, ok) := send_record io r c in
       if (ok : bool) then at_ (if draining then At_draining else At_subscribed) c else over c)
| as_next w r t :
    an_at c = At_draining → an_tap c = Some w → try_recv (tw_tap w) = Some (r, t) →
    answer_step c (with_tap (received_by w r t) (At_record r true) c)
| as_drained w :
    an_at c = At_draining → an_tap c = Some w → try_recv (tw_tap w) = None →
    answer_step c (at_ At_drained c)
| as_census w at_ns :
    an_at c = At_drained → an_tap c = Some w →
    answer_step c (MkConn (At_census (MkRecord at_ns (census (tw_tap w)))) (Some w) (an_written c) (an_asks c) (Some w))
| as_last r io : an_at c = At_census r → answer_step c (over (send_record io r c).1)
| as_thread w w' : an_tap c = Some w → offer_thread w w' → answer_step c (with_tap w' (an_at c) c).

Definition conn_reachable (c : Conn) : Prop := rtc answer_step conn_new c.

(** ** What is written *)

Definition answers (asked : Ask * Source) (reply : ControlReply) : Prop :=
  match asked with
  | (Ask_Counters, s) => reply = CR_Counters (counters_of s)
  | (Ask_Handles, s) => reply = CR_Handles (so_handles s)
  | _ => False
  end.

(** The records of a list as they are written: one too large for a frame is left out. *)
Definition fits_frame (r : Record_) : Prop := write_reply true (CR_Record r) = WR_Ok.
#[local] Instance fits_frame_dec r : Decision (fits_frame r).
Proof. unfold fits_frame. destruct (write_reply true (CR_Record r)); (left; done) || (right; done). Defined.
Definition passed (got : list Record_) : list ControlReply := CR_Record <$> filter fits_frame got.

Definition in_hand (a : AnswerAt) : list Record_ := match a with At_record r _ => [r] | _ => [] end.

(** A census of the tap as it was, with all that was taken from it written before. *)
Definition census_of (c : Conn) (got : list Record_) (r : Record_) : Prop :=
  ∃ w, an_census c = Some w ∧ tap_reachable w ∧ tw_rx w = None ∧ tw_got w = got ∧ rc_what r = census (tw_tap w).

Definition subscribed_ok (c : Conn) (w : TapWorld) (first : list ControlReply) : Prop :=
  tap_reachable w ∧ tw_rx w = None ∧ (an_at c ≠ At_over → tp_open (tw_tap w) = true)
  ∧ an_at c ≠ At_asked
  ∧ ∃ got rest last, tw_got w = got ++ rest ∧ an_written c = first ++ passed got ++ last
    ∧ (an_at c ≠ At_over → rest = in_hand (an_at c) ∧ last = [])
    ∧ (last = [] ∨ ∃ r, last = [CR_Record r] ∧ rest = [] ∧ census_of c got r)
    ∧ (∀ r, an_at c = At_census r → census_of c got r).

Definition conn_ok (c : Conn) : Prop :=
  ∃ first, Forall2 answers (an_asks c) first ∧
  match an_tap c with
  | None => ∃ last, an_written c = first ++ last
      ∧ (an_at c = At_asked ∧ last = [] ∨ an_at c = At_over ∧ (last = [] ∨ ∃ why, last = [CR_Refused why]))
  | Some w => subscribed_ok c w first
  end.

Lemma offer_step_open t o t' o' : offer_step t o = (t', o') → tp_open t' = tp_open t.
Proof. destruct o; cbn; intros Hs; repeat case_match; by simplify_eq. Qed.

Lemma offer_thread_same w w' : offer_thread w w' →
  tw_rx w' = tw_rx w ∧ tw_got w' = tw_got w ∧ tp_open (tw_tap w') = tp_open (tw_tap w).
Proof. intros Ht. destruct Ht as [| ? ? ? ? _ Ho|]; [done| |done]. split; [done|]. split; [done|]. by eapply offer_step_open. Qed.

Lemma tap_reachable_step w w' : tap_reachable w → rtc tap_step w w' → tap_reachable w'.
Proof. intros [s Hr] Hs. exists s. by etransitivity. Qed.

Lemma offer_thread_step w w' : offer_thread w w' → tap_step w w'.
Proof. intros []; by econstructor. Qed.

Lemma received_reachable w r t :
  tap_reachable w → tw_rx w = None → tp_open (tw_tap w) = true → try_recv (tw_tap w) = Some (r, t) →
  tap_reachable (received_by w r t) ∧ tp_open (tw_tap (received_by w r t)) = true.
Proof.
  intros Hr Hx Ho Ht. split.
  - eapply tap_reachable_step; [exact Hr|]. eapply rtc_l; [by eapply tp_recv|].
    apply rtc_once. by apply (tp_received (MkTapWorld t (tw_offers w) (Some r) (tw_got w) (tw_offered w)) r).
  - unfold try_recv in Ht. destruct (tp_queue (tw_tap w)); [done|]. by injection Ht as -> <-.
Qed.

Lemma passed_snoc got r :
  passed (got ++ [r]) = passed got ++ (if decide (fits_frame r) then [CR_Record r] else []).
Proof. unfold passed. rewrite filter_app, fmap_app. f_equal. cbn. by destruct (decide (fits_frame r)). Qed.

Lemma send_record_spec io r c :
  let '(c', ok) := send_record io r c in
  if (ok : bool) then c' = (if decide (fits_frame r) then wrote (CR_Record r) c else c) else c' = c.
Proof.
  unfold send_record, write_reply. destruct (decide (fits_frame r)) as [Hf|Hf]; unfold fits_frame, write_reply in Hf.
  - destruct (encode _) as [b|[]]; try done. by destruct io.
  - destruct (encode _) as [b|[]]; try done.
Qed.

(** The end of a subscription, with what was written and nothing more of the tap. *)
Lemma over_ok c w first got rest last :
  Forall2 answers (an_asks c) first → an_tap c = Some w → tap_reachable w → tw_rx w = None →
  tw_got w = got ++ rest → an_written c = first ++ passed got ++ last →
  (last = [] ∨ ∃ r, last = [CR_Record r] ∧ rest = [] ∧ census_of c got r) →
  conn_ok (over c).
Proof.
  intros Hf Hw Hr Hx Hg Hwr Hl. exists first. split; [done|]. unfold over. cbn [an_tap]. rewrite Hw. cbn.
  split; [eapply tap_reachable_step; [exact Hr|apply rtc_once, tp_close]|]. split; [done|].
  split; [done|]. split; [done|]. exists got, rest, last. split_and!; done.
Qed.

Lemma answered_ok read s io c : an_at c = At_asked → conn_ok c → conn_ok (answered read s io c).
Proof.
  intros Ha (first & Hf & Hc). destruct (an_tap c) as [w|] eqn:Hw.
  { destruct Hc as (_ & _ & _ & Hn & _). done. }
  destruct Hc as (last & Hwr & [(_ & ->)|(Hn & _)]); [|congruence]. rewrite app_nil_r in Hwr.
  assert (conn_ok (over c)) as Hover.
  { exists first. split; [done|]. cbn. rewrite Hw. cbn. exists []. rewrite app_nil_r. auto. }
  assert (∀ why, conn_ok (refused io why c)) as Hrefused.
  { intros why. unfold refused. destruct (write_reply _ _); [|exact Hover..].
    exists first. split; [done|]. cbn. rewrite Hw. cbn. exists [CR_Refused why]. rewrite Hwr. eauto 6. }
  assert (∀ ask reply, answers (ask, s) reply → conn_ok (replied io ask s reply c)) as Hreplied.
  { intros ask reply Hans. unfold replied. destruct (write_reply _ _); [|exact Hover..].
    exists (first ++ [reply]). split; [by apply Forall2_app, Forall2_cons; [|split]|]. cbn. rewrite Hw, Hwr.
    exists []. rewrite app_nil_r. auto. }
  destruct read as [req|]; cbn; [|exact Hover]. destruct (negb _); [apply Hrefused|].
  destruct (cr_ask req) as [|sel| |]; [by apply Hreplied| |apply Hrefused|by apply Hreplied].
  exists first. split; [done|]. cbn. split; [by exists sel|]. split; [done|]. split; [done|]. split; [done|].
  exists [], [], []. cbn. rewrite app_nil_r, Hwr. split_and!; auto. intros r [=].
Qed.

(** A connection past its first questions has its tap. *)
Lemma subscribed c : conn_ok c → an_at c ≠ At_asked → an_at c ≠ At_over →
  ∃ w first got, Forall2 answers (an_asks c) first ∧ an_tap c = Some w ∧ tap_reachable w ∧ tw_rx w = None
    ∧ tp_open (tw_tap w) = true ∧ tw_got w = got ++ in_hand (an_at c) ∧ an_written c = first ++ passed got
    ∧ (∀ r, an_at c = At_census r → census_of c got r).
Proof.
  intros (first & Hf & Hc) Ha Ho. destruct (an_tap c) as [w|] eqn:Hw.
  - destruct Hc as (Hr & Hx & Hop & _ & got & rest & last & Hg & Hwr & Hin & _ & Hcs).
    destruct (Hin Ho) as [-> ->]. rewrite app_nil_r in Hwr. exists w, first, got. split_and!; auto.
  - by destruct Hc as (last & _ & [[? _]|[? _]]).
Qed.

(** A step within a subscription, from what it leaves. *)
Lemma subscribed_intro c w first got :
  Forall2 answers (an_asks c) first → an_tap c = Some w → tap_reachable w → tw_rx w = None →
  tp_open (tw_tap w) = true → an_at c ≠ At_asked → an_at c ≠ At_over →
  tw_got w = got ++ in_hand (an_at c) → an_written c = first ++ passed got →
  (∀ r, an_at c = At_census r → census_of c got r) → conn_ok c.
Proof.
  intros Hf Hw Hr Hx Ho Ha Hn Hg Hwr Hcs. exists first. split; [done|]. rewrite Hw.
  split; [done|]. split; [done|]. split; [done|]. split; [done|].
  exists got, (in_hand (an_at c)), []. rewrite app_nil_r. split_and!; auto.
Qed.

Lemma recv_ok c w r t draining :
  conn_ok c → an_at c ≠ At_asked → an_at c ≠ At_over → in_hand (an_at c) = [] → an_tap c = Some w →
  try_recv (tw_tap w) = Some (r, t) → conn_ok (with_tap (received_by w r t) (At_record r draining) c).
Proof.
  intros Hok Ha Ho Hi Hw Ht. destruct (subscribed c Hok Ha Ho) as (w' & first & got & Hf & Hw' & Hr & Hx & Hop & Hg & Hwr & _).
  rewrite Hw in Hw'. injection Hw' as <-. rewrite Hi, app_nil_r in Hg.
  destruct (received_reachable w r t Hr Hx Hop Ht) as [Hr' Hop'].
  eapply (subscribed_intro _ (received_by w r t) first got); cbn; try done. by rewrite Hg.
Qed.

Lemma handed_over_ok c r draining io :
  an_at c = At_record r draining → conn_ok c →
  conn_ok (let '(c, ok) := send_record io r c in
           if (ok : bool) then at_ (if draining then At_draining else At_subscribed) c else over c).
Proof.
  intros Ha Hok. destruct (subscribed c Hok) as (w & first & got & Hf & Hw & Hr & Hx & Hop & Hg & Hwr & _);
    [congruence|congruence|]. rewrite Ha in Hg. cbn in Hg.
  pose proof (send_record_spec io r c) as Hs. destruct (send_record io r c) as [c' []]; subst c'.
  - eapply (subscribed_intro _ w first (got ++ [r])).
    + by destruct (decide _).
    + by destruct (decide _).
    + done.
    + done.
    + done.
    + by destruct draining.
    + by destruct draining.
    + destruct draining; cbn; by rewrite app_nil_r.
    + rewrite passed_snoc. destruct (decide _); cbn; rewrite Hwr; [by rewrite (assoc_L (++))|by rewrite app_nil_r].
    + destruct draining; cbn; by intros ? [=].
  - apply (over_ok c w first got [r] []); auto. by rewrite app_nil_r.
Qed.

Lemma last_ok c r io : an_at c = At_census r → conn_ok c → conn_ok (over (send_record io r c).1).
Proof.
  intros Ha Hok. destruct (subscribed c Hok) as (w & first & got & Hf & Hw & Hr & Hx & Hop & Hg & Hwr & Hcs);
    [congruence|congruence|]. rewrite Ha in Hg. cbn in Hg. specialize (Hcs r Ha).
  pose proof (send_record_spec io r c) as Hs. destruct (send_record io r c) as [c' []]; cbn [fst]; subst c'.
  - destruct (decide _).
    + apply (over_ok (wrote (CR_Record r) c) w first got [] [CR_Record r]); try done.
      * cbn. rewrite Hwr. by rewrite (assoc_L (++)).
      * right. exists r. done.
    + apply (over_ok c w first got [] []); auto. by rewrite app_nil_r.
  - apply (over_ok c w first got [] []); auto. by rewrite app_nil_r.
Qed.

Lemma thread_ok c w w' : an_tap c = Some w → offer_thread w w' → conn_ok c → conn_ok (with_tap w' (an_at c) c).
Proof.
  intros Hw Ht (first & Hf & Hc). rewrite Hw in Hc. exists first. split; [done|]. cbn [an_tap with_tap].
  destruct (offer_thread_same w w' Ht) as (Hx & Hg & Ho).
  destruct Hc as (Hr & Hrx & Hop & Ha & got & rest & last & Hgot & Hrest).
  split; [by eapply tap_reachable_step; [|apply rtc_once, offer_thread_step]|].
  split; [by rewrite Hx|]. split; [by rewrite Ho|]. split; [done|].
  exists got, rest, last. rewrite Hg. by split.
Qed.

Lemma conn_step_ok c c' : conn_ok c → answer_step c c' → conn_ok c'.
Proof.
  intros Hok Hs. destruct Hs as [read s io Ha|w r t Ha Hw Ht|read Ha|r draining io Ha|w r t Ha Hw Ht|w Ha Hw Ht|w at_ns Ha Hw|r io Ha|w w' Hw Ht].
  - by apply answered_ok.
  - apply recv_ok; rewrite ?Ha; done.
  - destruct (subscribed c Hok) as (w & first & got & Hf & Hw & Hr & Hx & Hop & Hg & Hwr & _); [congruence|congruence|].
    rewrite Ha in Hg. cbn in Hg.
    assert (conn_ok (over c)) as Hover by (apply (over_ok c w first got [] []); auto; by rewrite app_nil_r).
    destruct read as [[rev []]|]; cbn; try exact Hover.
    eapply (subscribed_intro _ w first got); cbn; try done.
  - by apply handed_over_ok.
  - apply recv_ok; rewrite ?Ha; done.
  - destruct (subscribed c Hok) as (w' & first & got & Hf & Hw' & Hr & Hx & Hop & Hg & Hwr & _); [congruence|congruence|].
    rewrite Ha in Hg. eapply (subscribed_intro _ w' first got); cbn; try done.
  - destruct (subscribed c Hok) as (w' & first & got & Hf & Hw' & Hr & Hx & Hop & Hg & Hwr & _); [congruence|congruence|].
    rewrite Hw in Hw'. injection Hw' as <-. rewrite Ha in Hg. cbn in Hg. rewrite app_nil_r in Hg.
    eapply (subscribed_intro _ w first got); cbn; try done; [by rewrite app_nil_r|].
    intros r [= <-]. exists w. done.
  - by apply last_ok.
  - by eapply thread_ok.
Qed.

Lemma conn_reachable_ok c : conn_reachable c → conn_ok c.
Proof.
  revert c. apply rtc_ind_r; [|intros c1 c2 _ Hs Hc; by eapply conn_step_ok].
  exists []. split; [constructor|]. cbn. exists []. auto.
Qed.

End answer.

(** ** Properties *)

(** C31: a subscriber is told everything, or told what it was not.  However its connection,
    its asks and the threads that offer records interleave: each ask before a
    subscription has its answer, in order; from then on what has been written is exactly
    what was taken from the tap, in order, but for records too large for a frame and the
    one in hand; and a census comes last, after everything taken, with every record
    offered by the moment it was taken accounted for: written or too large, counted in
    the census as dropped, on its way in some thread, or queued since the last look. *)
Theorem subscription_is_whole {CE} `{HC : !Capnp CE (control_reply_R CE)} revision c
    (Hc : conn_reachable revision c) :
  ∃ first, Forall2 answers (an_asks c) first ∧
  match an_tap c with
  | None => ∃ last, an_written c = first ++ last
      ∧ (last = [] ∨ an_at c = At_over ∧ ∃ why, last = [CR_Refused why])
  | Some w => ∃ got rest last, tw_got w = got ++ rest ∧ an_written c = first ++ passed got ++ last
      ∧ (an_at c ≠ At_over → rest = in_hand (an_at c) ∧ last = [])
      ∧ (last = [] ∨ ∃ r w0, last = [CR_Record r] ∧ rest = [] ∧ an_census c = Some w0
           ∧ rc_what r = census (tw_tap w0) ∧ tw_got w0 = got
           ∧ offered_in got + offered_in (tp_queue (tw_tap w0)) + tp_dropped_ever (tw_tap w0)
             + map_sum pending (tw_offers w0) = tw_offered w0)
  end.
Proof.
  apply conn_reachable_ok in Hc as (first & Hf & Hc). exists first. split; [done|].
  destruct (an_tap c) as [w|].
  - destruct Hc as (_ & _ & _ & _ & got & rest & last & Hg & Hw & Hin & Hl & _). exists got, rest, last.
    split; [done|]. split; [done|]. split; [done|].
    destruct Hl as [Hl|(r & Hl & Hr & w0 & Hc0 & Ht%tap_reachable_ok & Hx & Hgot & Hcs)]; [by left|right].
    exists r, w0. split_and!; try done. pose proof (to_all w0 Ht) as Ha. unfold taken, rx_list, offered_in in Ha.
    rewrite Hx, Hgot, !sum_z_app in Ha. unfold offered_in. rewrite sum_z_nil in Ha. lia.
  - destruct Hc as (last & Hw & Hl). exists last. split; [done|]. tauto.
Qed.

(** A library whose every message is one word. *)
#[local] Instance one_word : Capnp unit (control_reply_R unit) := {|
  Builder := unit; builder_new _ _ := tt; get_segments_for_output _ := [[]]; canonicalize _ := Err tt;
  compute_serialized_size_in_words _ := 1; write_message _ := Ok []; Reader := unit;
  read_message_from_flat_slice _ _ := Err tt; get_root _ := Err tt; size_in_words _ := 1 |}.

Definition demo_source : Source :=
  let none := MkResources 0 0 0 0 0 0 0 in
  MkSource "client" 7 "a mount" 5 none (MkCounters "" 0 "" 0 0 [] [] none (MkHandlesTotals 0 0)) (Handles_Processes []).
Definition demo_selection : Selection := MkSelection Names_All Names_None false 0 false.

(** Counters are asked for, then everything; one record comes and the census. *)
Definition demo_conn : Conn :=
  let c := answered 9 (Some (MkControlRequest 9 Ask_Counters)) demo_source true conn_new in
  let c := answered 9 (Some (MkControlRequest 9 (Ask_Subscribe demo_selection))) demo_source true c in
  let w := MkTapWorld (tap_new demo_selection) {[1 := Of_swap (demo_record "first")]} None [] 1 in
  let w := alone 3 1 w in
  let w := received_by w (demo_record "first") (with_queue (tw_tap w) [] (tp_bytes (tw_tap w))) in
  over (wrote (CR_Record (MkRecord 8 (census (tw_tap w))))
    (MkConn At_over (Some w) (an_written c ++ [CR_Record (demo_record "first")]) (an_asks c) (Some w))).

Lemma subscription_is_whole_witness :
  length (an_written demo_conn) = 3%nat ∧
  ∃ first, Forall2 answers (an_asks demo_conn) first ∧
  match an_tap demo_conn with
  | None => False
  | Some w => ∃ got rest last, tw_got w = got ++ rest ∧ an_written demo_conn = first ++ passed got ++ last
  end.
Proof.
  split; [vm_compute; reflexivity|].
  destruct (subscription_is_whole 9 demo_conn) as (first & Hf & Hw).
  - unfold conn_reachable.
    eapply rtc_l; [apply (as_answered 9 conn_new (Some (MkControlRequest 9 Ask_Counters)) demo_source true); reflexivity|].
    eapply rtc_l; [apply (as_answered 9 _ (Some (MkControlRequest 9 (Ask_Subscribe demo_selection))) demo_source true); reflexivity|].
    eapply rtc_l; [apply (as_thread 9 _ (MkTapWorld (tap_new demo_selection) ∅ None [] 0)); [reflexivity|];
      apply (ot_offer _ 1 (demo_record "first")); reflexivity|].
    eapply rtc_l; [eapply (as_thread 9); [reflexivity|]; eapply (ot_atomic _ 1); vm_compute; reflexivity|].
    eapply rtc_l; [eapply (as_thread 9); [reflexivity|]; eapply (ot_atomic _ 1); vm_compute; reflexivity|].
    eapply rtc_l; [eapply (as_thread 9); [reflexivity|]; eapply (ot_atomic _ 1); vm_compute; reflexivity|].
    eapply rtc_l; [eapply (as_recv 9); vm_compute; reflexivity|].
    eapply rtc_l; [eapply (as_sent 9 _ _ _ true); reflexivity|].
    eapply rtc_l; [apply (as_asked 9 _ (Some (MkControlRequest 9 Ask_Census))); reflexivity|].
    eapply rtc_l; [eapply (as_drained 9); vm_compute; reflexivity|].
    eapply rtc_l; [eapply (as_census 9 _ _ 8); vm_compute; reflexivity|].
    eapply rtc_l; [eapply (as_last 9 _ _ true); reflexivity|].
    match goal with |- rtc _ ?a ?b => replace a with b by (vm_compute; reflexivity) end. apply rtc_refl.
  - exists first. split; [exact Hf|]. destruct (an_tap demo_conn) as [w|] eqn:E; [|vm_compute in E; discriminate E].
    destruct Hw as (got & rest & last & Hg & Hwr & _). exists got, rest, last. split; [exact Hg|exact Hwr].
Defined.
