(* ===== verification/Stalls.v ===== *)
(** * Stalled requests ([crates/perf/src/stall.rs], [crates/server/src/perf.rs], [watchdog.rs])

    The server's account of the requests it is answering, and the watchdog that reports
    those answered too long.  A request's guard ([InFlight]) keeps an entry in the table;
    the entry is shared with the watchdog, which copies the references out of the table
    and then looks at each entry under its own lock.  [WorldServer] has the table, the
    entries, the guards being dropped and the watchdog's thread, whose steps interleave.

    Instants are nanoseconds since [ORIGIN], durations nanoseconds. *)

From stdpp Require Import sorting pretty.
From S2P Require Import Prelude Types Msg Perf Float Revision Wire Control Text Proc Hub Interest Meters.

Local Open Scope string_scope.
Local Open Scope list_scope.
Local Open Scope Z_scope.

(** ** What both watchdogs share (stall.rs) *)

Definition LOCK_PATIENCE : Z := 200 * 1000000.
Definition WATCH_PERIOD : Z := 1000000000.
Definition HEARTBEAT_LATE : Z := 2 * 1000000000.

(** A [BTreeMap]'s entries, by name. *)
Definition by_name {V} (a b : string * V) : comparison := String.compare a.1 b.1.

Definition counted_lines (counted : list (string * Z)) : list string :=
  match counted with
  | [] => []
  | _ => ["and " +:+ String.concat ", " ((λ kn : string * Z, pretty kn.2 +:+ " " +:+ kn.1) <$> counted)]
  end.
Definition lines_crowd {T} (found : list T) (key describe : T → string) : list string :=
  let '(detailed, rest) := split_oldest found STALL_DETAILED key in
  (describe <$> detailed) ++ counted_lines (sort_by by_name (map_to_list rest)).

Definition Ended_default : list string * Z := ([], 0).
(** [locked]: the lock was held past the watchdog's patience. *)
Definition Ended_lines (locked : bool) (inner : list string * Z) : list string * (list string * Z) :=
  if locked then ([], inner)
  else (inner.1 ++ (if 0 <? inner.2 then ["and " +:+ pretty inner.2 +:+ " more stalled requests ended"] else []),
        Ended_default).

(** An instant kept in an atomic, in whole microseconds. *)
Definition stamp (at_ : Z) : Z := Z.max 0 at_ / 1000 * 1000.

Record Progress := MkProgress { pg_completed : Z; pg_last : Z }.
Definition Progress_default (now : Z) : Progress := MkProgress 0 (stamp now).
Definition Progress_record (p : Progress) (now : Z) : Progress := MkProgress (wrap64 (pg_completed p + 1)) (stamp now).

(** [beat_age]: how long ago the runtime last ran a ping. *)
Definition line_progress (p : Progress) (completed_before beat_age now : Z) : string :=
  pretty (pg_completed p - completed_before) +:+ " answered since the last check, the last "
  +:+ fmt_duration (since now (pg_last p)) +:+ " ago; the runtime last ran a task " +:+ fmt_duration beat_age
  +:+ " ago (one is due every " +:+ fmt_duration WATCH_PERIOD +:+ ")".

(** A text of bytes in one of characters. *)
Definition shown_text (t : text) : string := String.string_of_list_byte t.

Section doing.
Context (show_io : IoError → string).

Definition thread_wchan (read : ReadText) : result IoError text :=
  match read with Ok wchan => Ok (if bool_decide (wchan = lit "0") then [] else wchan) | Err e => Err e end.

(** [status] and [wchan] are what reading the thread's two files gives. *)
Definition thread_doing (tid : Z) (status wchan : ReadText) : string :=
  match status with
  | Err e => "thread " +:+ pretty tid +:+ ": " +:+ show_io e
  | Ok status =>
      let state := match find_map (strip_prefix (lit "State:")) (lines status) with
                   | Some state => shown_text (trim state)
                   | None => "no State line"
                   end in
      let at_ := match thread_wchan wchan with
                 | Ok [] => "running"
                 | Ok wchan => "in " +:+ shown_text wchan
                 | Err e => "wchan unreadable (" +:+ show_io e +:+ ")"
                 end in
      "thread " +:+ pretty tid +:+ " " +:+ state +:+ " " +:+ at_
  end.
End doing.

(** ** Slow paths (server/src/perf.rs) *)

Inductive Slowpath :=
| RequestCancelled | RequestStreamFailed | RequestReadTimeout | RequestHeld | RequestAbandoned | RequestSuperseded
| ReplyUndelivered | ReplyStalled | WatchEvicted | WatchUnwatchable | WatchLimited | InotifyOverflow
| HandleShareExceeded | HandlePoolFull | HandleFdsExhausted.

Definition Slowpath_name (s : Slowpath) : string :=
  match s with
  | RequestCancelled => "request_cancelled"
  | RequestStreamFailed => "request_stream_failed"
  | RequestReadTimeout => "request_read_timeout"
  | RequestHeld => "request_held"
  | RequestAbandoned => "request_abandoned"
  | RequestSuperseded => "request_superseded"
  | ReplyUndelivered => "reply_undelivered"
  | ReplyStalled => "reply_stalled"
  | WatchEvicted => "watch_evicted"
  | WatchUnwatchable => "watch_unwatchable"
  | WatchLimited => "watch_limited"
  | InotifyOverflow => "inotify_overflow"
  | HandleShareExceeded => "handle_share_exceeded"
  | HandlePoolFull => "handle_pool_full"
  | HandleFdsExhausted => "handle_fds_exhausted"
  end.
Definition Slowpath_ALL : list Slowpath :=
  [RequestCancelled; RequestStreamFailed; RequestReadTimeout; RequestHeld; RequestAbandoned; RequestSuperseded;
   ReplyUndelivered; ReplyStalled; WatchEvicted; WatchUnwatchable; WatchLimited; InotifyOverflow;
   HandleShareExceeded; HandlePoolFull; HandleFdsExhausted].
(** The discriminant. *)
Definition Slowpath_index (s : Slowpath) : nat :=
  match s with
  | RequestCancelled => 0 | RequestStreamFailed => 1 | RequestReadTimeout => 2 | RequestHeld => 3
  | RequestAbandoned => 4 | RequestSuperseded => 5 | ReplyUndelivered => 6 | ReplyStalled => 7
  | WatchEvicted => 8 | WatchUnwatchable => 9 | WatchLimited => 10 | InotifyOverflow => 11
  | HandleShareExceeded => 12 | HandlePoolFull => 13 | HandleFdsExhausted => 14
  end%nat.
Definition Slowpath_events : Events := Events_new (Slowpath_name <$> Slowpath_ALL).

Lemma Slowpath_in_place s : Slowpath_ALL !! Slowpath_index s = Some s.
Proof. by destruct s. Qed.

(** ** The rows of a report *)

Record Outcome := MkOutcome { oc_bytes : Z; oc_items : Z; oc_errno : Z }.
Definition Outcome_default : Outcome := MkOutcome 0 0 0.
Definition Outcome_bytes (n : Z) : Outcome := MkOutcome n 0 0.
Definition Outcome_items (n : Z) : Outcome := MkOutcome 0 n 0.
Definition Outcome_errno (errno : Z) : Outcome := MkOutcome 0 0 errno.

Record Phases := MkPhases { ph_read : Z; ph_held : Z; ph_wait : Z; ph_op : Z; ph_send : Z }.
Definition Phases_default : Phases := MkPhases 0 0 0 0 0.
Definition Phases_add (a b : Phases) : Phases :=
  MkPhases (ph_read a + ph_read b) (ph_held a + ph_held b) (ph_wait a + ph_wait b) (ph_op a + ph_op b)
    (ph_send a + ph_send b).

Record RowServer := MkRowServer {
  rw_n : Z; rw_bytes : Z; rw_items : Z; rw_total : Z; rw_min : Z; rw_max : Z; rw_errnos : gmap Z Z; rw_phases : Phases }.
Definition RowServer_default : RowServer := MkRowServer 0 0 0 0 0 0 ∅ Phases_default.
Definition Row_record (r : RowServer) (outcome : Outcome) (total : Z) (phases : Phases) : RowServer :=
  MkRowServer (rw_n r + 1) (rw_bytes r + oc_bytes outcome) (rw_items r + oc_items outcome) (rw_total r + total)
    (if rw_n r + 1 =? 1 then total else Z.min (rw_min r) total) (Z.max (rw_max r) total)
    (if oc_errno outcome =? 0 then rw_errnos r
     else <[oc_errno outcome := default 0 (rw_errnos r !! oc_errno outcome) + 1]> (rw_errnos r))
    (Phases_add (rw_phases r) phases).
Definition Row_mean (r : RowServer) (sum : Z) : Z :=
  if rw_n r =? 0 then 0 else from_secs_f64 (f64_div (as_secs_f64 sum) (f64_of (rw_n r))).

(** ** Requests being answered *)

Inductive PhaseServer := PS_Read | PS_Held | PS_Wait | PS_Watch | PS_Op | PS_Send.
Definition PhaseServer_name (p : PhaseServer) : string :=
  match p with
  | PS_Read => "reading the request"
  | PS_Held => "held behind changes given up on or from the session's earlier connections"
  | PS_Wait => "waiting for a blocking thread"
  | PS_Watch => "watching its directories"
  | PS_Op => "in the filesystem"
  | PS_Send => "sending the reply"
  end.

Record PendingServer := MkPendingServer {
  pn_session : Z; pn_conn : option Z; pn_stream : Z; pn_accepted : Z; pn_op : option string; pn_subject : option string;
  pn_phase : PhaseServer; pn_since : Z; pn_tid : option Z; pn_reported : Z }.

Definition UNDECODED : string := "undecoded request".
Definition what (p : PendingServer) : string :=
  "session " +:+ pretty (pn_session p)
  +:+ match pn_conn p with Some conn => " connection " +:+ pretty conn | None => "" end
  +:+ " stream " +:+ pretty (pn_stream p) +:+ " " +:+ default UNDECODED (pn_op p)
  +:+ match pn_subject p with Some subject => " " +:+ subject | None => "" end.

(** What a guard's methods do to its entry. *)
Inductive Move := Mv_decoded (op subject : string) | Mv_held | Mv_waiting | Mv_arming (tid : Z) | Mv_running (tid : Z) | Mv_sending.
Definition with_phase (p : PendingServer) (phase : PhaseServer) (now : Z) : PendingServer :=
  MkPendingServer (pn_session p) (pn_conn p) (pn_stream p) (pn_accepted p) (pn_op p) (pn_subject p) phase now
    (pn_tid p) (pn_reported p).
Definition decoded_as (p : PendingServer) (op subject : string) : PendingServer :=
  MkPendingServer (pn_session p) (pn_conn p) (pn_stream p) (pn_accepted p) (Some op) (Some subject) (pn_phase p)
    (pn_since p) (pn_tid p) (pn_reported p).
Definition on_thread (p : PendingServer) (tid : Z) : PendingServer :=
  MkPendingServer (pn_session p) (pn_conn p) (pn_stream p) (pn_accepted p) (pn_op p) (pn_subject p) (pn_phase p)
    (pn_since p) (Some tid) (pn_reported p).
Definition reported_at (p : PendingServer) (reported : Z) : PendingServer :=
  MkPendingServer (pn_session p) (pn_conn p) (pn_stream p) (pn_accepted p) (pn_op p) (pn_subject p) (pn_phase p)
    (pn_since p) (pn_tid p) reported.
Definition moved (m : Move) (now : Z) (p : PendingServer) : PendingServer :=
  match m with
  | Mv_decoded op subject => with_phase (decoded_as p op subject) PS_Wait now
  | Mv_held => with_phase p PS_Held now
  | Mv_waiting => with_phase p PS_Wait now
  | Mv_arming tid => with_phase (on_thread p tid) PS_Watch now
  | Mv_running tid => with_phase (on_thread p tid) PS_Op now
  | Mv_sending => with_phase p PS_Send now
  end.

Definition started (session : Z) (conn : option Z) (stream now : Z) : PendingServer :=
  MkPendingServer session conn stream now None None PS_Read now None 0.

(** The line for a request reported as stalled that has ended, [elapsed] after it came. *)
Definition ended_line (p : PendingServer) (elapsed : Z) : string :=
  what p +:+ " ended after " +:+ fmt_duration elapsed +:+ ", last " +:+ PhaseServer_name (pn_phase p).

Definition describe_pending (doing : Z → string) (p : PendingServer) (age now : Z) : string :=
  what p +:+ " " +:+ PhaseServer_name (pn_phase p) +:+ " for " +:+ fmt_duration (since now (pn_since p))
  +:+ " (" +:+ fmt_duration age +:+ " in all)"
  +:+ match pn_phase p, pn_tid p with (PS_Op | PS_Watch), Some tid => "; " +:+ doing tid | _, _ => "" end.
Definition pending_key (pa : PendingServer * Z) : string :=
  default UNDECODED (pn_op pa.1) +:+ " " +:+ PhaseServer_name (pn_phase pa.1).
Definition lines_pending (doing : Z → string) (found : list (PendingServer * Z)) (now : Z) : list string :=
  lines_crowd found pending_key
    (λ pa : PendingServer * Z, describe_pending doing pa.1 pa.2 now).

(** ** The account *)

Record PerfServer := MkPerfServer {
  pf_since : Z; pf_active : gset Z; pf_next : Z; pf_peak : Z; pf_seen : list Z; pf_totals : Totals;
  pf_rows : gmap string RowServer }.
Definition PerfServer_new (now : Z) : PerfServer := MkPerfServer now ∅ 0 0 [] ∅ ∅.
Definition inflight (p : PerfServer) : Z := Z.of_nat (base.size (pf_active p)).
Definition with_active (p : PerfServer) (active : gset Z) (next peak : Z) : PerfServer :=
  MkPerfServer (pf_since p) active next peak (pf_seen p) (pf_totals p) (pf_rows p).

(** The entry's key, and the account with it. *)
Definition perf_start (p : PerfServer) : Z * PerfServer :=
  let id := pf_next p in let active := {[id]} ∪ pf_active p in
  (id, with_active p active (wrap64 (id + 1)) (Z.max (pf_peak p) (Z.of_nat (base.size active)))).
Definition perf_record (p : PerfServer) (op : string) (outcome : Outcome) (total : Z) (phases : Phases) : PerfServer :=
  MkPerfServer (pf_since p) (pf_active p) (pf_next p) (pf_peak p) (pf_seen p)
    (Totals_add (pf_totals p) "request" op (oc_bytes outcome) (oc_items outcome) (oc_errno outcome) total)
    (<[op := Row_record (default RowServer_default (pf_rows p !! op)) outcome total phases]> (pf_rows p)).
Definition perf_totals (p : PerfServer) : list TotalOp := Totals_list (pf_totals p).
Definition served (p : PerfServer) : Z * Z := Totals_at (pf_totals p) "request".

Record Snapshot := MkSnapshot {
  sp_window : Z; sp_inflight : Z; sp_peak : Z; sp_events : gmap string Z; sp_rows : gmap string RowServer }.
(** The window, the line of its events, and the account of the next. *)
Definition perf_window (p : PerfServer) (events : Events) (now : Z) : Snapshot * option string * PerfServer :=
  let '(seen, counted, line) := window events (pf_seen p) "events" in
  (MkSnapshot (since now (pf_since p)) (inflight p) (pf_peak p) counted (pf_rows p), line,
   MkPerfServer now (pf_active p) (pf_next p) (inflight p) seen (pf_totals p) ∅).

Definition row_line (window : Z) (op : string) (r : RowServer) : string :=
  let conc := if window =? 0 then f64_of 0 else f64_div (as_secs_f64 (rw_total r)) (as_secs_f64 window) in
  let errnos := String.concat "," ((λ en : Z * Z, pretty en.1 +:+ "x" +:+ pretty en.2)
                                     <$> sort_by (λ a b, Z.compare a.1 b.1) (map_to_list (rw_errnos r))) in
  "perf " +:+ op +:+ ": n=" +:+ pretty (rw_n r) +:+ " conc=" +:+ fmt_fixed 2 conc +:+ " min=" +:+ fmt_duration (rw_min r)
  +:+ " mean=" +:+ fmt_duration (Row_mean r (rw_total r)) +:+ " max=" +:+ fmt_duration (rw_max r)
  +:+ " bytes=" +:+ fmt_bytes (rw_bytes r) +:+ " items=" +:+ pretty (rw_items r)
  +:+ (if String.eqb errnos "" then "" else " errno=") +:+ errnos
  +:+ " read=" +:+ fmt_duration (Row_mean r (ph_read (rw_phases r))) +:+ " wait=" +:+ fmt_duration (Row_mean r (ph_wait (rw_phases r)))
  +:+ " op=" +:+ fmt_duration (Row_mean r (ph_op (rw_phases r))) +:+ " send=" +:+ fmt_duration (Row_mean r (ph_send (rw_phases r))).
Definition perf_report (p : PerfServer) (events : Events) (now : Z) : Snapshot * list string * PerfServer :=
  let '(snapshot, line, p) := perf_window p events now in
  (snapshot,
   ("perf window " +:+ fmt_duration (sp_window snapshot) +:+ " inflight=" +:+ pretty (sp_inflight snapshot)
    +:+ " peak=" +:+ pretty (sp_peak snapshot))
   :: match line with Some line => [line] | None => [] end
   ++ ((λ or : string * RowServer, row_line (sp_window snapshot) or.1 or.2) <$> sort_by by_name (map_to_list (sp_rows snapshot))),
   p).

(** What the control socket shows of the account. *)
Definition shown_counters (p : PerfServer) (events : Events) (handles : HandlesTotals) : Counters :=
  MkCounters "" 0 "" 0 (inflight p) (counts events) (perf_totals p) (MkResources 0 0 0 0 0 0 0) handles.
Definition shown_handles (rows : list HandlesSession) : Handles :=
  Handles_Sessions (take HANDLES_ROWS_MAX (sort_by (λ a b, Z.compare (hse_files b + hse_dirs b) (hse_files a + hse_dirs a)) rows)).

(** ** Scans *)

Record ScanPending := MkScanPending { sc_count : Z; sc_found : list (PendingServer * Z); sc_unreadable : Z }.

(** An entry looked at, its lock had in time or not. *)
Definition examine (mode : ModeScan) (now : Z) (locked : bool) (p : PendingServer) (s : ScanPending)
    : PendingServer * ScanPending :=
  if locked then (p, MkScanPending (sc_count s) (sc_found s) (sc_unreadable s + 1))
  else
    let age := since now (pn_accepted p) in
    let '(due, reported) := selects mode age (pn_reported p) in
    let p := reported_at p reported in
    (p, if due then MkScanPending (sc_count s) (sc_found s ++ [(p, age)]) (sc_unreadable s) else s).
Definition oldest_first (s : ScanPending) : list (PendingServer * Z) := sort_by (λ a b, Z.compare b.2 a.2) (sc_found s).

(** A scan for a report, given whether each entry's lock was had; it marks nothing. *)
Definition report_pending (doing : Z → string) (table_locked : bool) (entries : list (PendingServer * bool)) (now : Z)
    : list string :=
  if table_locked then
    ["the table of requests being answered was locked past " +:+ fmt_duration LOCK_PATIENCE +:+ "; no listing"]
  else
    let scan := foldl (λ s (e : PendingServer * bool), (examine Listed now e.2 e.1 s).2)
                  (MkScanPending (len_z entries) [] 0) entries in
    (λ line, "perf inflight " +:+ line) <$> lines_pending doing (oldest_first scan) now.

(** ** The account, the guards and the watchdog together *)

(** A guard being dropped: its entry is out of the table; it is counted as answered. *)
Inductive DropAt := D_removed | D_recorded.
Record Account := MkAccount {
  ac_perf : PerfServer; ac_entries : gmap Z PendingServer; ac_dropping : gmap Z DropAt; ac_progress : Progress;
  ac_ended : list string * Z }.

Definition start_request (a : Account) (session : Z) (conn : option Z) (stream now : Z) : Account :=
  let '(id, p) := perf_start (ac_perf a) in
  MkAccount p (<[id := started session conn stream now]> (ac_entries a)) (ac_dropping a) (ac_progress a) (ac_ended a).
Definition move_request (a : Account) (id : Z) (m : Move) (now : Z) : Account :=
  MkAccount (ac_perf a) (alter (moved m now) id (ac_entries a)) (ac_dropping a) (ac_progress a) (ac_ended a).
Definition remove_request (a : Account) (id : Z) : Account :=
  MkAccount (with_active (ac_perf a) (pf_active (ac_perf a) ∖ {[id]}) (pf_next (ac_perf a)) (pf_peak (ac_perf a)))
    (ac_entries a) (<[id := D_removed]> (ac_dropping a)) (ac_progress a) (ac_ended a).
Definition count_request (a : Account) (id now : Z) : Account :=
  MkAccount (ac_perf a) (ac_entries a) (<[id := D_recorded]> (ac_dropping a)) (Progress_record (ac_progress a) now) (ac_ended a).
(** The guard's last look at its entry. *)
Definition end_request (a : Account) (id now : Z) (p : PendingServer) : Account :=
  MkAccount (ac_perf a) (ac_entries a) (delete id (ac_dropping a)) (ac_progress a)
    (if pn_reported p =? 0 then ac_ended a else Ended_push (ac_ended a) (ended_line p (since now (pn_accepted p)))).

Record WatchServer := MkWatchServer { ws_completed : Z; ws_table_held : Persisting; ws_runtime_late : Persisting }.
(** Where the watchdog's thread is: at rest, about to copy the table, with these entries
    still to look at, past the table. *)
Inductive TickAt :=
| T_idle
| T_table (now : Z)
| T_scanning (now : Z) (todo : list Z) (scan : ScanPending)
| T_rest (now : Z).
Record Watching := MkWatching {
  wa_watch : WatchServer; wa_tick : TickAt; wa_beat : Z; wa_pings : nat; wa_log : list string }.
Definition at_tick (v : Watching) (t : TickAt) (log : list string) : Watching :=
  MkWatching (wa_watch v) t (wa_beat v) (wa_pings v) (wa_log v ++ log).

(** What the proofs remember: who was reported, at what age; whose end was put by to be
    told, in what words; who was first reported after its guard's last look. *)
Record Seen := MkSeen { sn_reports : list (Z * Z); sn_ends : list (Z * string); sn_late : gset Z }.
Record WorldServer := MkWorldServer { w_account : Account; w_watching : Watching; w_seen : Seen }.

Definition WorldServer_new (now : Z) : WorldServer :=
  MkWorldServer
    (MkAccount (PerfServer_new now) ∅ ∅ (Progress_default now) Ended_default)
    (MkWatching (MkWatchServer 0 Persisting_default Persisting_default) T_idle (stamp now) 0 [])
    (MkSeen [] [] ∅).

Definition alive (a : Account) (id : Z) : Prop := id ∈ pf_active (ac_perf a) ∨ is_Some (ac_dropping a !! id).
#[export] Instance alive_dec a id : Decision (alive a id) := _.

Definition with_account (w : WorldServer) (a : Account) : WorldServer := MkWorldServer a (w_watching w) (w_seen w).
Definition with_watching (w : WorldServer) (v : Watching) : WorldServer := MkWorldServer (w_account w) v (w_seen w).

Definition guard_ends (w : WorldServer) (id now : Z) (p : PendingServer) : WorldServer :=
  let s := w_seen w in
  MkWorldServer (end_request (w_account w) id now p) (w_watching w)
    (if pn_reported p =? 0 then s
     else MkSeen (sn_reports s) (sn_ends s ++ [(id, ended_line p (since now (pn_accepted p)))]) (sn_late s)).

(** A tick begins: the ends put by are told. *)
Definition tick_begins (w : WorldServer) (now : Z) (locked : bool) : WorldServer :=
  let a := w_account w in
  let '(ended, left_) := Ended_lines locked (ac_ended a) in
  MkWorldServer
    (MkAccount (ac_perf a) (ac_entries a) (ac_dropping a) (ac_progress a) left_)
    (at_tick (w_watching w) (T_table now) ((λ line, "stall ended: " +:+ line) <$> ended))
    (w_seen w).

Definition with_held (v : Watching) (held : Persisting) : Watching :=
  MkWatching (MkWatchServer (ws_completed (wa_watch v)) held (ws_runtime_late (wa_watch v))) (wa_tick v) (wa_beat v)
    (wa_pings v) (wa_log v).

(** [beat_now]: when the line reads the heartbeat. *)
Definition progress_now (w : WorldServer) (now beat_now : Z) : string :=
  line_progress (ac_progress (w_account w)) (ws_completed (wa_watch (w_watching w)))
    (since beat_now (wa_beat (w_watching w))) now.

Definition table_unavailable (w : WorldServer) (now beat_now : Z) : WorldServer :=
  let v := w_watching w in
  let '(due, held) := Persisting_check (ws_table_held (wa_watch v)) now true in
  with_watching w
    (at_tick (with_held v held) (T_rest now)
       match due with
       | Some age => ["stalled: the table of requests being answered has been locked for " +:+ fmt_duration age +:+ "; "
                      +:+ progress_now w now beat_now]
       | None => []
       end).
Definition table_copied (w : WorldServer) (now : Z) (todo : list Z) : WorldServer :=
  with_watching w (at_tick (w_watching w) (T_scanning now todo (MkScanPending (len_z todo) [] 0)) []).

(** The next entry is looked at. *)
Definition examined (w : WorldServer) (now : Z) (locked : bool) (id : Z) (p : PendingServer) (todo : list Z)
    (scan : ScanPending) : WorldServer :=
  let a := w_account w in let s := w_seen w in
  let '(p', scan') := examine Due now locked p scan in
  let age := since now (pn_accepted p) in
  MkWorldServer
    (MkAccount (ac_perf a) (<[id := p']> (ac_entries a)) (ac_dropping a) (ac_progress a) (ac_ended a))
    (at_tick (w_watching w) (T_scanning now todo scan') [])
    (if negb locked && (stall_due age (pn_reported p)).1
     then MkSeen (sn_reports s ++ [(id, age)]) (sn_ends s)
            (if decide (alive a id) then sn_late s else if pn_reported p =? 0 then {[id]} ∪ sn_late s else sn_late s)
     else s).

Definition scanned (doing : Z → string) (w : WorldServer) (now beat_now : Z) (scan : ScanPending) : WorldServer :=
  let v := w_watching w in
  let '(_, held) := Persisting_check (ws_table_held (wa_watch v)) now false in
  with_watching w
    (at_tick (with_held v held) (T_rest now)
       match sc_found scan with
       | [] => []
       | _ => ((λ line, "stalled: " +:+ line) <$> lines_pending doing (oldest_first scan) now)
              ++ ["stalled: " +:+ pretty (sc_count scan) +:+ " requests being answered"
                  +:+ (if 0 <? sc_unreadable scan then " (" +:+ pretty (sc_unreadable scan) +:+ " unexamined, their lock held)" else "")
                  +:+ "; " +:+ progress_now w now beat_now]
       end).

(** The runtime's heartbeat, read at [checked]; then the next ping. *)
Definition tick_ends (w : WorldServer) (now checked beat_now : Z) : WorldServer :=
  let v := w_watching w in
  let '(due, late) := Persisting_check (ws_runtime_late (wa_watch v)) now (HEARTBEAT_LATE <=? since checked (wa_beat v)) in
  with_watching w
    (MkWatching (MkWatchServer (pg_completed (ac_progress (w_account w))) (ws_table_held (wa_watch v)) late) T_idle
       (wa_beat v) (S (wa_pings v))
       (wa_log v ++ match due with
                    | Some age => ["stalled: the tokio runtime has run no task for " +:+ fmt_duration age
                                   +:+ ", so no new request is read; " +:+ progress_now w now beat_now]
                    | None => []
                    end)).
Definition beats (v : Watching) (now : Z) : Watching :=
  MkWatching (wa_watch v) (wa_tick v) (stamp now) (pred (wa_pings v)) (wa_log v).

Inductive server_step (doing : Z → string) (w : WorldServer) : WorldServer → Prop :=
| ss_start session conn stream now :
    pf_next (ac_perf (w_account w)) < u64_max →
    server_step doing w (with_account w (start_request (w_account w) session conn stream now))
| ss_move id m now :
    id ∈ pf_active (ac_perf (w_account w)) →
    server_step doing w (with_account w (move_request (w_account w) id m now))
| ss_remove id :
    id ∈ pf_active (ac_perf (w_account w)) →
    server_step doing w (with_account w (remove_request (w_account w) id))
| ss_count id now :
    ac_dropping (w_account w) !! id = Some D_removed →
    server_step doing w (with_account w (count_request (w_account w) id now))
| ss_end id now p :
    ac_dropping (w_account w) !! id = Some D_recorded → ac_entries (w_account w) !! id = Some p →
    server_step doing w (guard_ends w id now p)
| ss_record op outcome total phases :
    let a := w_account w in
    server_step doing w (with_account w (MkAccount (perf_record (ac_perf a) op outcome total phases) (ac_entries a)
                                           (ac_dropping a) (ac_progress a) (ac_ended a)))
| ss_window events now :
    let a := w_account w in
    server_step doing w (with_account w (MkAccount (perf_window (ac_perf a) events now).2 (ac_entries a)
                                           (ac_dropping a) (ac_progress a) (ac_ended a)))
| ss_tick now locked : wa_tick (w_watching w) = T_idle → server_step doing w (tick_begins w now locked)
| ss_unavailable now beat_now :
    wa_tick (w_watching w) = T_table now → server_step doing w (table_unavailable w now beat_now)
| ss_copied now todo :
    wa_tick (w_watching w) = T_table now → todo ≡ₚ base.elements (pf_active (ac_perf (w_account w))) →
    server_step doing w (table_copied w now todo)
| ss_examined now locked id p todo scan :
    wa_tick (w_watching w) = T_scanning now (id :: todo) scan → ac_entries (w_account w) !! id = Some p →
    server_step doing w (examined w now locked id p todo scan)
| ss_scanned now beat_now scan :
    wa_tick (w_watching w) = T_scanning now [] scan → server_step doing w (scanned doing w now beat_now scan)
| ss_rest now checked beat_now :
    wa_tick (w_watching w) = T_rest now → server_step doing w (tick_ends w now checked beat_now)
| ss_beat now :
    (0 < wa_pings (w_watching w))%nat → server_step doing w (with_watching w (beats (w_watching w) now)).

Inductive server_runs (doing : Z → string) (began : Z) : WorldServer → Prop :=
| sr_new : server_runs doing began (WorldServer_new began)
| sr_step w w' : server_runs doing began w → server_step doing w w' → server_runs doing began w'.

(** ** When a request is due *)

Definition ages (reports : list (Z * Z)) (id : Z) : list Z := (filter (λ r : Z * Z, r.1 = id) reports).*2.

(** What an entry remembers of its reports: the threshold of the last, which is a
    doubling of the first for every one there was. *)
Definition reported_ok (reported : Z) (l : list Z) : Prop :=
  (∀ (k : nat) age, l !! k = Some age → STALL_FIRST * 2 ^ Z.of_nat k ≤ age)
  ∧ match last l with
    | None => reported = 0
    | Some age => ∃ j : Z, len_z l ≤ j + 1 ∧ reported = STALL_FIRST * 2 ^ j ∧ reported ≤ age ∧ reported ≤ u64_max
    end.

Lemma stall_due_spec age reported : 0 ≤ age → 0 ≤ reported ≤ u64_max →
  match stall_due age reported with
  | (true, reported') =>
      ∃ j, 0 ≤ j ∧ reported' = STALL_FIRST * 2 ^ j ∧ reported' ≤ age ∧ reported' ≤ u64_max
           ∧ 2 * reported < 2 * reported' ∧ (age < 2 ^ 63 → age < 2 * reported')
  | (false, reported') => reported' = reported ∧ (STALL_FIRST ≤ age < 2 ^ 63 → age < 2 * reported)
  end.
Proof.
  intros Ha Hr. unfold stall_due. assert (duration_ns reported = reported) as -> by (unfold duration_ns; lia).
  change (duration_ns STALL_FIRST) with STALL_FIRST. unfold duration_ns. set (v := Z.min age u64_max).
  assert (is_u64 v) as Hv by (unfold is_u64, v, u64_max in *; lia).
  rewrite doubling_due_closed_form; [|done|unfold is_u64, STALL_FIRST; lia|unfold STALL_FIRST; lia|lia].
  destruct (_ && _) eqn:E.
  - rewrite !andb_true_iff, !Z.leb_le in E. destruct E as [[E1 E2] E3].
    destruct (log2_threshold STALL_FIRST v) as [H1 H2]; [unfold STALL_FIRST in *; lia|].
    exists (Z.log2 (v / STALL_FIRST)). split; [apply Z.log2_nonneg|]. split; [done|]. unfold v, u64_max in *. lia.
  - split; [done|]. intros Hf. rewrite !andb_false_iff, !Z.leb_gt in E. unfold v, u64_max in *. lia.
Qed.

Lemma reported_range reported l : reported_ok reported l → 0 ≤ reported ≤ u64_max.
Proof.
  intros [_ H]. destruct (last l); [|unfold u64_max; lia]. destruct H as (j & _ & -> & _ & ?). split; [|done].
  apply Z.mul_nonneg_nonneg; [unfold STALL_FIRST; lia|]. apply Z.pow_nonneg. lia.
Qed.

Lemma reported_again age reported l :
  reported_ok reported l → 0 ≤ age →
  match stall_due age reported with
  | (true, reported') => reported_ok reported' (l ++ [age])
  | (false, reported') => reported' = reported
  end.
Proof.
  intros H Ha. pose proof (stall_due_spec age reported Ha (reported_range _ _ H)) as Hs. destruct H as [Hk Hlast]. destruct (stall_due age reported) as [[] reported']; [|by destruct Hs].
  destruct Hs as (j & Hj & -> & Hle & Hmax & Hgrow & _).
  assert (len_z l ≤ j) as Hlen.
  { destruct (last l) eqn:E.
    - destruct Hlast as (i & Hi & -> & _). assert (i < j); [|lia]. apply (Z.pow_lt_mono_r_iff 2); [lia..|].
      unfold STALL_FIRST in *. lia.
    - apply last_None in E as ->. done. }
  split.
  - intros k a [[_ Hka]|[-> ->]]%lookup_snoc_Some; [by apply Hk|].
    etransitivity; [|exact Hle]. apply Z.mul_le_mono_nonneg_l; [unfold STALL_FIRST; lia|].
    apply Z.pow_le_mono_r; [lia|exact Hlen].
  - rewrite last_snoc. exists j. split; [unfold len_z in *; rewrite length_app; cbn; lia|]. done.
Qed.

(** ** What holds in every state *)

Record account_ok (a : Account) (s : Seen) : Prop := {
  so_entry id : alive a id → is_Some (ac_entries a !! id);
  so_next id : is_Some (ac_entries a !! id) → 0 ≤ id < pf_next (ac_perf a);
  so_next_range : 0 ≤ pf_next (ac_perf a) ≤ u64_max;
  so_apart id : id ∈ pf_active (ac_perf a) → ac_dropping a !! id = None;
  so_reported id p : ac_entries a !! id = Some p → reported_ok (pn_reported p) (ages (sn_reports s) id);
  so_known id : ages (sn_reports s) id ≠ [] → is_Some (ac_entries a !! id);
  so_told id : ages (sn_reports s) id ≠ [] → alive a id ∨ id ∈ (sn_ends s).*1 ∨ id ∈ sn_late s;
  so_once : NoDup (sn_ends s).*1;
  so_ended id : id ∈ (sn_ends s).*1 → ¬ alive a id ∧ ages (sn_reports s) id ≠ [];
  so_late id : id ∈ sn_late s → ¬ alive a id ∧ is_Some (ac_entries a !! id) ∧ id ∉ (sn_ends s).*1;
  so_peak : inflight (ac_perf a) ≤ pf_peak (ac_perf a) }.

(** How a line says which request it is about. *)
Definition heading (p : PendingServer) : string :=
  "session " +:+ pretty (pn_session p)
  +:+ match pn_conn p with Some conn => " connection " +:+ pretty conn | None => "" end
  +:+ " stream " +:+ pretty (pn_stream p) +:+ " ".

(** What a scan has found so far is what it reported. *)
Definition reported_as (a : Account) (r : Z * Z) (pa : PendingServer * Z) : Prop :=
  r.2 = pa.2 ∧ ∃ p, ac_entries a !! r.1 = Some p ∧ heading p = heading pa.1.
Definition found_ok (t : TickAt) (a : Account) (s : Seen) : Prop :=
  match t with
  | T_scanning _ _ scan => ∃ before new, sn_reports s = before ++ new ∧ Forall2 (reported_as a) new (sc_found scan)
  | _ => True
  end.

(** The end put by of a request is in words about it. *)
Definition ends_named (a : Account) (s : Seen) : Prop :=
  Forall (λ e : Z * string, ∃ p rest, ac_entries a !! e.1 = Some p ∧ e.2 = heading p +:+ rest) (sn_ends s).

(** What a check says of ends put by: the first eight, and how many more.  [ends_told] is
    what checks so far have said of all the ends they found. *)
Definition ends_said (batch : list string) : list string :=
  ((λ line, "stall ended: " +:+ line) <$> take 8 batch)
  ++ (if (8 <? length batch)%nat
      then ["stall ended: and " +:+ pretty (len_z batch - 8) +:+ " more stalled requests ended"] else []).
Inductive ends_told : list string → list string → Prop :=
| et_none : ends_told [] []
| et_check told log batch : ends_told told log → ends_told (told ++ batch) (log ++ ends_said batch).
Definition about_ends (log : list string) : list string := filter (λ l, String.prefix "stall ended: " l = true) log.
Definition ends_ok (ended : list string * Z) (log : list string) (s : Seen) : Prop :=
  ∃ told waiting, (sn_ends s).*2 = told ++ waiting ∧ ends_told told (about_ends log)
    ∧ ended = (take 8 waiting, Z.max 0 (len_z waiting - 8)).

Record server_ok (w : WorldServer) : Prop := {
  sv_account : account_ok (w_account w) (w_seen w);
  sv_found : found_ok (wa_tick (w_watching w)) (w_account w) (w_seen w);
  sv_named : ends_named (w_account w) (w_seen w);
  sv_ends : ends_ok (ac_ended (w_account w)) (wa_log (w_watching w)) (w_seen w) }.

Lemma ages_snoc l r id : ages (l ++ [r]) id = ages l id ++ (if decide (r.1 = id) then [r.2] else []).
Proof. unfold ages. rewrite filter_app, fmap_app, filter_cons. by case_decide. Qed.

Lemma reported_ok_zero reported l : reported_ok reported l → (reported = 0 ↔ l = []).
Proof.
  intros [_ H]. destruct (last l) eqn:E.
  - destruct H as (j & Hj & -> & _). assert (0 ≤ j) as Hj0.
    { destruct l as [|x l]; [done|]. unfold len_z in Hj. cbn [length] in Hj. lia. }
    pose proof (Z.pow_pos_nonneg 2 j). split; [unfold STALL_FIRST; lia|by intros ->].
  - by apply last_None in E as ->.
Qed.

Lemma start_ok a s session conn stream now :
  pf_next (ac_perf a) < u64_max → account_ok a s → account_ok (start_request a session conn stream now) s.
Proof.
  intros Hn H. set (id := pf_next (ac_perf a)) in *.
  assert (ac_entries a !! id = None) as Hfresh.
  { apply eq_None_not_Some. intros Hs%(so_next _ _ H). fold id in Hs. lia. }
  assert (ages (sn_reports s) id = []) as Hages.
  { destruct (ages (sn_reports s) id) eqn:E; [done|]. destruct (so_known _ _ H id) as [p Hp]; [by rewrite E|]. congruence. }
  assert (wrap64 (id + 1) = id + 1) as Hw.
  { apply wrap64_id. pose proof (so_next_range _ _ H) as Hr. fold id in Hr. unfold is_u64, u64_max in *. lia. }
  assert (∀ i, alive (start_request a session conn stream now) i ↔ i = id ∨ alive a i) as Halive.
  { intros i. unfold alive, start_request. cbn. fold id. set_solver. }
  destruct H as [H1 H2 H3 H4 H5 H6 H7 H8 H9 H10 H11]. split; try done.
  - intros i [->|Hi]%Halive; cbn; fold id; [by rewrite lookup_insert_eq|]. destruct (decide (i = id)) as [->|];
      [by rewrite lookup_insert_eq|rewrite lookup_insert_ne by done; by apply H1].
  - intros i. cbn. fold id. rewrite Hw. destruct (decide (i = id)) as [->|]; [intros _; lia|].
    rewrite lookup_insert_ne by done. intros Hi%H2. fold id in Hi. lia.
  - cbn. fold id. rewrite Hw. lia.
  - intros i. cbn. fold id. rewrite elem_of_union, elem_of_singleton. intros [->|Hi]; [|by apply H4].
    apply eq_None_not_Some. intros Hd. destruct (H1 id) as [p Hp]; [by right|]. congruence.
  - intros i p. cbn. fold id. destruct (decide (i = id)) as [->|].
    + rewrite lookup_insert_eq. intros [= <-]. rewrite Hages. split; [|done]. intros k x Hk. done.
    + rewrite lookup_insert_ne by done. apply H5.
  - intros i Hi%H6. cbn. fold id. destruct (decide (i = id)) as [->|]; [by rewrite lookup_insert_eq|].
    by rewrite lookup_insert_ne.
  - intros i Hi. rewrite Halive. destruct (H7 i Hi) as [|]; tauto.
  - intros i Hi. rewrite Halive. destruct (H9 i Hi) as [Hna Hag]. split; [|done]. intros [->|?]; [|done]. by rewrite Hages in Hag.
  - intros i Hi. rewrite Halive. destruct (H10 i Hi) as (Hna & Hs & He). assert (i ≠ id) as Hne.
    { intros ->. rewrite Hfresh in Hs. by apply is_Some_None in Hs. }
    cbn. fold id. rewrite lookup_insert_ne by done. split_and!; [tauto|done|done].
  - cbn. fold id. unfold inflight. cbn. lia.
Qed.

Lemma reported_moved m now p : pn_reported (moved m now p) = pn_reported p.
Proof. by destruct m. Qed.

Lemma move_ok a s id m now : account_ok a s → account_ok (move_request a id m now) s.
Proof.
  intros [H1 H2 H3 H4 H5 H6 H7 H8 H9 H10 H11].
  assert (∀ i, is_Some (ac_entries (move_request a id m now) !! i) ↔ is_Some (ac_entries a !! i)) as Hdom.
  { intros i. cbn. rewrite lookup_alter. destruct (decide (id = i)) as [->|]; [apply fmap_is_Some|done]. }
  split; try done.
  - intros i Hi. by apply Hdom, H1.
  - intros i Hi. by apply H2, Hdom.
  - intros i p Hp. cbn in Hp. rewrite lookup_alter in Hp. destruct (decide (id = i)) as [->|]; [|by apply H5].
    destruct (ac_entries a !! i) as [p0|] eqn:E; [|done]. injection Hp as <-. rewrite reported_moved. by apply H5.
  - intros i Hi. by apply Hdom, H6.
  - intros i Hi. destruct (H10 i Hi) as (Hna & Hs & He). split_and!; [done|by apply Hdom|done].
Qed.

Lemma remove_ok a s id : id ∈ pf_active (ac_perf a) → account_ok a s → account_ok (remove_request a id) s.
Proof.
  intros Hid [H1 H2 H3 H4 H5 H6 H7 H8 H9 H10 H11].
  assert (∀ i, alive (remove_request a id) i ↔ alive a i) as Halive.
  { intros i. unfold alive, remove_request. cbn. rewrite elem_of_difference, elem_of_singleton.
    destruct (decide (i = id)) as [->|]; [rewrite lookup_insert_eq; naive_solver|rewrite lookup_insert_ne by done; tauto]. }
  split; try done.
  - intros i. rewrite Halive. apply H1.
  - intros i. cbn. rewrite elem_of_difference, elem_of_singleton. intros [Hi Hne]. rewrite lookup_insert_ne by done. by apply H4.
  - intros i. rewrite Halive. apply H7.
  - intros i. rewrite Halive. apply H9.
  - intros i. rewrite Halive. apply H10.
  - unfold inflight in *. cbn. assert (base.size (pf_active (ac_perf a) ∖ {[id]}) <= base.size (pf_active (ac_perf a)))%nat
      by (apply subseteq_size; set_solver). lia.
Qed.

Lemma count_ok a s id now :
  ac_dropping a !! id = Some D_removed → account_ok a s → account_ok (count_request a id now) s.
Proof.
  intros Hid [H1 H2 H3 H4 H5 H6 H7 H8 H9 H10 H11].
  assert (∀ i, is_Some (ac_dropping (count_request a id now) !! i) ↔ is_Some (ac_dropping a !! i)) as Hdrop.
  { intros i. cbn. destruct (decide (i = id)) as [->|]; [rewrite lookup_insert_eq, Hid; naive_solver|by rewrite lookup_insert_ne]. }
  assert (∀ i, alive (count_request a id now) i ↔ alive a i) as Halive by (intros i; unfold alive; by rewrite Hdrop).
  split; try done.
  - intros i. rewrite Halive. apply H1.
  - intros i Hi. apply eq_None_not_Some. rewrite Hdrop. apply eq_None_not_Some. by apply H4.
  - intros i. rewrite Halive. apply H7.
  - intros i. rewrite Halive. apply H9.
  - intros i. rewrite Halive. apply H10.
Qed.

Lemma Ended_push_count inner line :
  len_z (Ended_push inner line).1 + (Ended_push inner line).2 = len_z inner.1 + inner.2 + 1.
Proof. unfold Ended_push. destruct (_ <? _)%nat; cbn; unfold len_z; [rewrite length_app; cbn|]; lia. Qed.

Lemma end_ok w id now p :
  ac_dropping (w_account w) !! id = Some D_recorded → ac_entries (w_account w) !! id = Some p →
  account_ok (w_account w) (w_seen w) → account_ok (w_account (guard_ends w id now p)) (w_seen (guard_ends w id now p)).
Proof.
  intros Hid Hp H. destruct w as [a v s]. unfold guard_ends. cbn [w_account w_seen] in *.
  assert (∀ i, alive (end_request a id now p) i ↔ i ≠ id ∧ alive a i) as Halive.
  { intros i. unfold alive, end_request. cbn. destruct (decide (i = id)) as [->|].
    - rewrite lookup_delete_eq. pose proof (so_apart _ _ H id). split; [|naive_solver].
      intros [Hi|[]%is_Some_None]. specialize (H0 Hi). congruence.
    - rewrite lookup_delete_ne by done. tauto. }
  assert (alive a id) as Hal by (right; by rewrite Hid).
  pose proof (reported_ok_zero _ _ (so_reported _ _ H id p Hp)) as Hz.
  destruct H as [H1 H2 H3 H4 H5 H6 H7 H8 H9 H10 H11].
  assert (∀ i, is_Some (ac_entries (end_request a id now p) !! i) ↔ is_Some (ac_entries a !! i)) as Hdom by done.
  destruct (Z.eqb_spec (pn_reported p) 0) as [E|E]; split; cbn [sn_reports sn_ends sn_late]; try done.
  - intros i [_ Hi]%Halive. by apply H1.
  - intros i Hi. cbn. rewrite lookup_delete_None. right. by apply H4.
  - intros i Hi. rewrite Halive. destruct (decide (i = id)) as [->|]; [by apply Hz in E|]. destruct (H7 i Hi); tauto.
  - intros i Hi. rewrite Halive. destruct (H9 i Hi). tauto.
  - intros i Hi. rewrite Halive. destruct (H10 i Hi). tauto.
  - intros i [_ Hi]%Halive. by apply H1.
  - intros i Hi. cbn. rewrite lookup_delete_None. right. by apply H4.
  - intros i Hi. rewrite Halive, fmap_app, elem_of_app. cbn. rewrite list_elem_of_singleton.
    destruct (decide (i = id)) as [->|]; [tauto|]. destruct (H7 i Hi); tauto.
  - rewrite fmap_app. apply NoDup_app. split; [done|]. split; [|apply NoDup_singleton].
    intros i Hi ->%list_elem_of_singleton. by destruct (H9 id Hi).
  - intros i. rewrite fmap_app, elem_of_app, Halive. cbn. rewrite list_elem_of_singleton.
    intros [Hi| ->]; [destruct (H9 i Hi); tauto|tauto].
  - intros i Hi. rewrite fmap_app, elem_of_app, Halive. cbn. rewrite list_elem_of_singleton.
    destruct (H10 i Hi) as (Hna & Hs & He). split_and!; [tauto|done|]. intros [?| ->]; done.
Qed.

Lemma tick_begins_ok w now locked :
  account_ok (w_account w) (w_seen w) → account_ok (w_account (tick_begins w now locked)) (w_seen (tick_begins w now locked)).
Proof.
  destruct w as [a v s]. intros [H1 H2 H3 H4 H5 H6 H7 H8 H9 H10 H11]. unfold tick_begins.
  cbn [w_account w_seen] in *. by destruct (Ended_lines locked (ac_ended a)).
Qed.

Lemma examined_ok w now locked id p todo scan :
  ac_entries (w_account w) !! id = Some p →
  account_ok (w_account w) (w_seen w) →
  account_ok (w_account (examined w now locked id p todo scan)) (w_seen (examined w now locked id p todo scan)).
Proof.
  intros Hp H. destruct w as [a v s]. cbn [w_account w_seen] in *. unfold examined, examine. cbn [w_account w_seen].
  pose proof (so_reported _ _ H id p Hp) as Hr.
  destruct locked; cbn [negb andb].
  { rewrite insert_id by done. by destruct a. }
  pose proof (reported_again (since now (pn_accepted p)) _ _ Hr) as Hagain.
  specialize (Hagain ltac:(unfold since; lia)). cbn [selects].
  destruct (stall_due (since now (pn_accepted p)) (pn_reported p)) as [[] reported] eqn:E; cbn [fst snd w_account w_seen].
  - pose proof (reported_ok_zero _ _ Hr) as Hz.
    destruct H as [H1 H2 H3 H4 H5 H6 H7 H8 H9 H10 H11].
    assert (∀ i, is_Some (<[id:=reported_at p reported]> (ac_entries a) !! i) ↔ is_Some (ac_entries a !! i)) as Hdom.
    { intros i. destruct (decide (i = id)) as [->|]; [rewrite lookup_insert_eq, Hp; naive_solver|by rewrite lookup_insert_ne]. }
    split; cbn [ac_perf ac_entries ac_dropping ac_ended sn_reports sn_ends sn_late]; try done.
    + intros i Hi. apply Hdom. by apply H1.
    + intros i Hi. by apply H2, Hdom.
    + intros i q. rewrite ages_snoc. cbn [fst snd]. destruct (decide (id = i)) as [->|].
      * rewrite lookup_insert_eq. intros [= <-]. exact Hagain.
      * rewrite lookup_insert_ne, app_nil_r by done. apply H5.
    + intros i Hi. apply Hdom. rewrite ages_snoc in Hi. cbn [fst snd] in Hi. destruct (decide (id = i)) as [->|]; [by rewrite Hp|].
      rewrite app_nil_r in Hi. by apply H6.
    + intros i Hi. rewrite ages_snoc in Hi. cbn [fst snd] in Hi. change (alive _ i) with (alive a i).
      destruct (decide (id = i)) as [->|].
      * destruct (decide (alive a i)) as [|Hna]; [by left|]. right. cbn [sn_late].
        destruct (Z.eqb_spec (pn_reported p) 0) as [E0|E0]; [right; set_solver|].
        destruct (H7 i) as [|[]]; [by intros Hn; apply Hz in Hn|done|by left|by right].
      * rewrite app_nil_r in Hi. cbn [sn_late]. destruct (H7 i Hi) as [|[]]; [by left|by right; left|right; right].
        repeat case_match; set_solver.
    + intros i Hi. change (alive _ i) with (alive a i). destruct (H9 i Hi) as [Hna Hag]. split; [done|].
      rewrite ages_snoc. intros [Hnil _]%app_nil. done.
    + intros i Hi. change (alive _ i) with (alive a i). rewrite Hdom.
      destruct (decide (alive a id)) as [|Hna]; [by apply H10|].
      destruct (Z.eqb_spec (pn_reported p) 0) as [E0|E0]; [|by apply H10].
      apply elem_of_union in Hi as [Hi|Hi]; [|by apply H10]. apply elem_of_singleton in Hi as ->.
      split_and!; [done|by rewrite Hp|]. intros [_ Hn]%H9. by apply Hn, Hz.
  - subst reported. assert (reported_at p (pn_reported p) = p) as -> by (by destruct p).
    rewrite insert_id by done. by destruct a.
Qed.

(** What was said of an entry stays so. *)
Definition kept_entries (a a' : Account) : Prop :=
  ∀ id p, ac_entries a !! id = Some p → ∃ p', ac_entries a' !! id = Some p' ∧ heading p' = heading p.
Lemma kept_same a a' : ac_entries a' = ac_entries a → kept_entries a a'.
Proof. intros E id p Hp. rewrite E. eauto. Qed.

Lemma heading_moved m now p : heading (moved m now p) = heading p.
Proof. by destruct m. Qed.
Lemma heading_examined mode now locked p s : heading (examine mode now locked p s).1 = heading p.
Proof. unfold examine. destruct locked; [done|]. by destruct (selects _ _ _). Qed.

Lemma kept_step doing w w' : account_ok (w_account w) (w_seen w) → server_step doing w w' →
  kept_entries (w_account w) (w_account w').
Proof.
  intros Ha Hs. destruct Hs; try by apply kept_same.
  - intros i p Hp. assert (i < pf_next (ac_perf (w_account w))) by (by apply (so_next _ _ Ha); rewrite Hp).
    cbn. rewrite lookup_insert_ne by lia. eauto.
  - intros i p Hp. cbn. destruct (decide (i = id)) as [->|]; [rewrite lookup_alter_eq|rewrite lookup_alter_ne by done]; rewrite Hp; cbn;
      eauto using heading_moved.
  - apply kept_same. unfold tick_begins. by destruct (Ended_lines _ _).
  - apply kept_same. unfold table_unavailable. by destruct (Persisting_check _ _ _).
  - intros i q Hq. unfold examined. pose proof (heading_examined Due now locked p scan) as Hh.
    destruct (examine Due now locked p scan) as [p' scan']. cbn [w_account ac_entries fst] in *.
    destruct (decide (i = id)) as [->|]; [rewrite lookup_insert_eq|rewrite lookup_insert_ne by done]; [|eauto].
    exists p'. split; [done|]. by assert (q = p) as -> by congruence.
  - apply kept_same. unfold tick_ends. by destruct (Persisting_check _ _ _).
Qed.

Lemma reported_kept a a' new found : kept_entries a a' → Forall2 (reported_as a) new found → Forall2 (reported_as a') new found.
Proof.
  intros Hk H. eapply Forall2_impl; [exact H|]. intros r pa (Hr & p & Hp & Hh). split; [done|].
  destruct (Hk _ _ Hp) as (p' & Hp' & Hh'). exists p'. by rewrite Hh'.
Qed.
Lemma found_kept t a a' s : kept_entries a a' → found_ok t a s → found_ok t a' s.
Proof. intros Hk. destruct t; [done..| |done]. intros (before & new & Hb & Hn). exists before, new. eauto using reported_kept. Qed.
Lemma named_kept a a' s : kept_entries a a' → ends_named a s → ends_named a' s.
Proof.
  intros Hk H. eapply Forall_impl; [exact H|]. intros e (p & rest & Hp & Hl). destruct (Hk _ _ Hp) as (p' & Hp' & Hh).
  exists p', rest. by rewrite Hh.
Qed.

(** Every text about a request starts with its heading. *)
Lemma what_heading p rest : ∃ rest', what p +:+ rest = heading p +:+ rest'.
Proof. unfold what, heading. eexists. rewrite !append_assoc. reflexivity. Qed.

Lemma examined_found w now locked id p todo scan :
  ac_entries (w_account w) !! id = Some p →
  wa_tick (w_watching w) = T_scanning now (id :: todo) scan → found_ok (wa_tick (w_watching w)) (w_account w) (w_seen w) →
  let w' := examined w now locked id p todo scan in
  kept_entries (w_account w) (w_account w') → found_ok (wa_tick (w_watching w')) (w_account w') (w_seen w').
Proof.
  intros Hp Ht H w' Hk. rewrite Ht in H. destruct H as (before & new & Hb & Hn). subst w'.
  apply (reported_kept _ _ _ _ Hk) in Hn. revert Hk Hn. unfold examined, examine.
  destruct locked; cbn [negb andb]; [by exists before, new|]. cbn [selects].
  destruct (stall_due _ _) as [[] reported]; cbn; intros Hk Hn; [|by exists before, new].
  exists before, (new ++ [(id, since now (pn_accepted p))]). rewrite Hb, <- (assoc_L (++)). split; [done|].
  apply Forall2_app; [done|]. constructor; [|done]. split; [done|]. eexists. cbn. by rewrite lookup_insert_eq.
Qed.

Lemma about_ends_app l l' : about_ends (l ++ l') = about_ends l ++ about_ends l'.
Proof. apply filter_app. Qed.
Lemma about_no_ends l : Forall (λ line, ∃ rest, line = "stalled: " +:+ rest) l → about_ends l = [].
Proof. induction 1 as [|line l [rest ->] _ IH]; [done|]. unfold about_ends in *. by rewrite filter_cons_False. Qed.
Lemma about_all_ends l : about_ends ((λ line, "stall ended: " +:+ line) <$> l) = (λ line, "stall ended: " +:+ line) <$> l.
Proof.
  induction l as [|line l IH]; [done|]. unfold about_ends in *. cbn [fmap list_fmap].
  rewrite filter_cons_True, IH; [done|]. cbn. by destruct line.
Qed.
Lemma ends_ok_log ended log more s : Forall (λ line, ∃ rest, line = "stalled: " +:+ rest) more →
  ends_ok ended log s → ends_ok ended (log ++ more) s.
Proof.
  intros Hm (told & waiting & H1 & H2 & H3). exists told, waiting. by rewrite about_ends_app, (about_no_ends more), app_nil_r.
Qed.

(** One more end put by. *)
Lemma ends_ok_push inner log s id line late reports :
  ends_ok inner log s → ends_ok (Ended_push inner line) log (MkSeen reports (sn_ends s ++ [(id, line)]) late).
Proof.
  intros (told & waiting & H1 & H2 & ->). exists told, (waiting ++ [line]). cbn [sn_ends]. rewrite fmap_app, H1, (assoc_L (++)).
  split; [done|]. split; [done|]. unfold Ended_push, STALL_DETAILED, len_z. cbn [fst snd]. rewrite length_take, length_app. cbn [length].
  destruct (Nat.ltb_spec (8 `min` length waiting) 8).
  - rewrite !take_ge by (rewrite ?length_app; cbn; lia). f_equal. lia.
  - rewrite take_app_le by lia. f_equal. lia.
Qed.

(** A check says what waits, and nothing does then. *)
Lemma ends_ok_said locked inner log s :
  ends_ok inner log s →
  ends_ok (Ended_lines locked inner).2 (log ++ ((λ line, "stall ended: " +:+ line) <$> (Ended_lines locked inner).1)) s.
Proof.
  intros (told & waiting & H1 & H2 & ->). unfold Ended_lines. destruct locked; cbn [fst snd].
  { exists told, waiting. by rewrite app_nil_r. }
  exists (told ++ waiting), []. rewrite app_nil_r. split; [done|]. split; [|done].
  rewrite about_ends_app, about_all_ends, fmap_app.
  match goal with |- ends_told _ (_ ++ ?said) => assert (said = ends_said waiting) as ->; [|by constructor] end.
  unfold ends_said. f_equal. unfold len_z. destruct (Nat.ltb_spec 8 (length waiting)), (Z.ltb_spec 0 (Z.max 0 (Z.of_nat (length waiting) - 8))); try lia; [|done].
  cbn. by rewrite Z.max_r by lia.
Qed.

Lemma crowd_stalled doing found now :
  Forall (λ line, ∃ rest, line = "stalled: " +:+ rest) ((λ line, "stalled: " +:+ line) <$> lines_pending doing found now).
Proof. apply Forall_fmap, Forall_forall. cbn. eauto. Qed.

Lemma server_ends_step doing w w' : server_step doing w w' →
  ends_ok (ac_ended (w_account w)) (wa_log (w_watching w)) (w_seen w) →
  ends_ok (ac_ended (w_account w')) (wa_log (w_watching w')) (w_seen w').
Proof.
  intros Hs H. destruct Hs; cbn [with_account with_watching w_account w_watching w_seen]; try done.
  - unfold guard_ends, end_request. cbn. destruct (pn_reported p =? 0); [done|]. by apply ends_ok_push.
  - unfold tick_begins. pose proof (ends_ok_said locked _ _ _ H) as H'.
    destruct (Ended_lines locked (ac_ended (w_account w))) as [ended left_]. exact H'.
  - unfold table_unavailable. destruct (Persisting_check _ _ _) as [due held]. cbn. apply ends_ok_log; [|done].
    destruct due; eauto.
  - unfold table_copied. cbn. by rewrite app_nil_r.
  - unfold examined. destruct (examine Due now locked p scan) as [p' scan']. cbn. rewrite app_nil_r.
    destruct (negb locked && _); [|done]. by destruct H as (told & waiting & ?); exists told, waiting.
  - unfold scanned. destruct (Persisting_check _ _ _) as [due held]. cbn [with_watching w_account w_watching w_seen at_tick wa_log with_held].
    apply ends_ok_log; [|done]. destruct (sc_found scan) eqn:E; [done|]. apply Forall_app. split; [apply crowd_stalled|eauto].
  - unfold tick_ends. destruct (Persisting_check _ _ _) as [due late]. cbn. apply ends_ok_log; [|done].
    destruct due; eauto.
Qed.

Lemma server_account_step doing w w' : server_step doing w w' → account_ok (w_account w) (w_seen w) →
  account_ok (w_account w') (w_seen w').
Proof.
  intros Hs Ha. destruct Hs; cbn [with_account with_watching w_account w_watching w_seen]; try done.
  - by apply start_ok.
  - by apply move_ok.
  - by apply remove_ok.
  - by apply count_ok.
  - by apply end_ok.
  - by destruct Ha.
  - destruct Ha as [H1 H2 H3 H4 H5 H6 H7 H8 H9 H10 H11]. subst a. unfold perf_window.
    destruct (window _ _ _) as [[seen counted] line]. by split.
  - by apply tick_begins_ok.
  - unfold table_unavailable. by destruct (Persisting_check _ _ _).
  - by apply examined_ok.
  - unfold tick_ends. by destruct (Persisting_check _ _ _).
Qed.

Lemma server_named_step doing w w' : server_step doing w w' → kept_entries (w_account w) (w_account w') →
  ends_named (w_account w) (w_seen w) → ends_named (w_account w') (w_seen w').
Proof.
  intros Hs Hk H. apply (named_kept _ _ _ Hk) in H. destruct Hs; try exact H.
  - unfold guard_ends in *. cbn [w_account w_seen] in *. destruct (pn_reported p =? 0); [exact H|].
    apply Forall_app. split; [exact H|]. constructor; [|done].
    destruct (what_heading p (" ended after " +:+ fmt_duration (since now (pn_accepted p)) +:+ ", last " +:+ PhaseServer_name (pn_phase p))) as [rest Hr].
    exists p, rest. split; [done|]. exact Hr.
  - revert H. unfold tick_begins. by destruct (Ended_lines _ _).
  - revert H. unfold table_unavailable. by destruct (Persisting_check _ _ _).
  - revert H. unfold examined. destruct (examine Due now locked p scan). cbn. by destruct (negb locked && _).
  - revert H. unfold tick_ends. by destruct (Persisting_check _ _ _).
Qed.

Lemma server_found_step doing w w' : server_step doing w w' → kept_entries (w_account w) (w_account w') →
  found_ok (wa_tick (w_watching w)) (w_account w) (w_seen w) →
  found_ok (wa_tick (w_watching w')) (w_account w') (w_seen w').
Proof.
  intros Hs Hk H. destruct Hs; cbn [with_account with_watching w_account w_watching w_seen]; try (by eapply found_kept).
  - apply (found_kept _ _ _ _ Hk) in H. unfold guard_ends in *. cbn in *. by destruct (pn_reported p =? 0).
  - unfold tick_begins. by destruct (Ended_lines _ _).
  - unfold table_unavailable. by destruct (Persisting_check _ _ _).
  - exists (sn_reports (w_seen w)), []. by rewrite app_nil_r.
  - by apply examined_found.
  - unfold tick_ends. by destruct (Persisting_check _ _ _).
Qed.

Lemma server_runs_ok doing began w : server_runs doing began w → server_ok w.
Proof.
  induction 1 as [|w w' _ [Ha Hf Hn He] Hstep].
  - split; [|done|by constructor|by exists [], []; split_and!; [|constructor|]]. split; cbn; try done; try set_solver.
    + intros id [Hi|[? Hi]]; set_solver.
    + intros id [? Hi]. by rewrite lookup_empty in Hi.
    + constructor.
  - pose proof (kept_step _ _ _ Ha Hstep).
    split; eauto using server_account_step, server_found_step, server_named_step, server_ends_step.
Qed.

(** A crowd's lines leave no one out: the first are described, the rest counted by name. *)
Lemma counted_by_key {T} (key : T → string) l : ∀ (m : gmap string Z) name,
  foldl (λ c item, partial_alter (λ n, Some (default 0 n + 1)) (key item) c) m l !! name
  = let n := len_z (filter (λ x, key x = name) l) in if n =? 0 then m !! name else Some (default 0 (m !! name) + n).
Proof.
  unfold len_z. induction l as [|x l IH]; intros m name; [done|]. cbn [foldl]. rewrite IH, filter_cons.
  destruct (decide (key x = name)) as [<-|Hne].
  - rewrite lookup_partial_alter_eq. cbn [length]. cbn zeta.
    destruct (Z.eqb_spec (Z.of_nat (length (filter (λ y, key y = key x) l))) 0);
      destruct (Z.eqb_spec (Z.of_nat (S (length (filter (λ y, key y = key x) l)))) 0); cbn; f_equal; lia.
  - by rewrite lookup_partial_alter_ne.
Qed.

Lemma crowd_lines {T} (found : list T) key describe :
  ∃ groups, lines_crowd found key describe = (describe <$> take 8 found) ++ counted_lines groups
    ∧ NoDup groups ∧ ∀ name n, (name, n) ∈ groups ↔ 0 < n ∧ n = len_z (filter (λ x, key x = name) (drop 8 found)).
Proof.
  unfold lines_crowd, split_oldest, STALL_DETAILED. set (k := (8 `min` length found)%nat).
  assert (take k found = take 8 found ∧ drop k found = drop 8 found) as [-> ->].
  { unfold k. destruct (Nat.min_spec 8 (length found)) as [[? ->]|[? ->]]; [done|].
    by rewrite !take_ge, !drop_ge by lia. }
  eexists. split; [reflexivity|]. split; [rewrite sort_by_Permutation; apply NoDup_map_to_list|].
  intros name n. rewrite sort_by_Permutation, elem_of_map_to_list, counted_by_key.
  rewrite lookup_empty. cbn. set (c := len_z _). assert (0 ≤ c) by (unfold c, len_z; lia).
  destruct (Z.eqb_spec c 0); [naive_solver lia|]. split; [intros [= <-]; lia|]. intros [_ ->]. done.
Qed.

Lemma oldest_first_sorted scan :
  oldest_first scan ≡ₚ sc_found scan ∧ StronglySorted (λ x y : PendingServer * Z, y.2 ≤ x.2) (oldest_first scan).
Proof.
  split; [apply sort_by_Permutation|].
  assert (StronglySorted (λ a b : PendingServer * Z, Z.compare b.2 a.2 ≠ Gt) (oldest_first scan)) as H.
  { apply sort_by_sorts.
    - intros a b c Hab Hbc. rewrite Z.compare_le_iff in *. lia.
    - intros a b. rewrite Z.compare_le_iff, Z.compare_gt_iff. lia. }
  induction H as [|x l _ IH Hx]; constructor; [done|]. eapply Forall_impl; [exact Hx|]. intros y. apply Z.compare_le_iff.
Qed.

(** What a check says of those it found: the eight oldest by name, the rest by how many
    of each kind, and how many there are in all. *)
Definition kind (p : PendingServer) : string :=
  default "undecoded request" (pn_op p) +:+ " " +:+ PhaseServer_name (pn_phase p).
Definition counts_said (groups : list (string * Z)) : list string :=
  match groups with
  | [] => []
  | _ => ["stalled: and " +:+ String.concat ", " ((λ g : string * Z, pretty g.2 +:+ " " +:+ g.1) <$> groups)]
  end.
Definition found_said (found : list (PendingServer * Z)) (count : Z) (said : list string) : Prop :=
  ∃ order described groups rest,
    order ≡ₚ found ∧ StronglySorted (λ x y : PendingServer * Z, y.2 ≤ x.2) order
    ∧ said = match found with
             | [] => []
             | _ => described ++ counts_said groups ++ ["stalled: " +:+ pretty count +:+ " requests being answered" +:+ rest]
             end
    ∧ Forall2 (λ (pa : PendingServer * Z) line, ∃ rest, line = "stalled: " +:+ heading pa.1 +:+ rest) (take 8 order) described
    ∧ NoDup groups
    ∧ ∀ name n, (name, n) ∈ groups ↔ 0 < n ∧ n = len_z (filter (λ pa, kind pa.1 = name) (drop 8 order)).

Lemma scanned_says doing w now beat_now scan :
  ∃ said, wa_log (w_watching (scanned doing w now beat_now scan)) = wa_log (w_watching w) ++ said
    ∧ found_said (sc_found scan) (sc_count scan) said.
Proof.
  eexists. split; [reflexivity|]. destruct (oldest_first_sorted scan) as [Hp Hs].
  destruct (crowd_lines (oldest_first scan) pending_key (λ pa, describe_pending doing pa.1 pa.2 now)) as (groups & Hl & Hn & Hg).
  eexists (oldest_first scan), _, groups, _. split; [done|]. split; [done|]. split; [|split_and!; [|done|exact Hg]].
  - destruct (sc_found scan) as [|pa found]; [done|]. unfold lines_pending. rewrite Hl, fmap_app, <- (assoc_L (++)).
    f_equal. f_equal. by destruct groups.
  - rewrite Forall2_fmap_r, Forall2_fmap_r. apply Forall_Forall2_diag, Forall_forall. intros pa _.
    unfold describe_pending. edestruct (what_heading pa.1) as [rest Hr]. exists rest.
    exact (f_equal (String.append "stalled: ") Hr).
Qed.

(** Once looked at, an entry has been reported at more than half its age. *)
Lemma examined_told w now id p todo scan :
  reported_ok (pn_reported p) (ages (sn_reports (w_seen w)) id) → STALL_FIRST ≤ since now (pn_accepted p) < 2 ^ 63 →
  ∃ age, age ∈ ages (sn_reports (w_seen (examined w now false id p todo scan))) id ∧ since now (pn_accepted p) < 2 * age.
Proof.
  intros Hr Hage. unfold examined, examine. cbn [negb andb selects].
  pose proof (reported_range _ _ Hr) as Hrange. destruct Hr as [_ Hlast].
  pose proof (stall_due_spec (since now (pn_accepted p)) (pn_reported p) ltac:(unfold since; lia) Hrange) as Hs.
  destruct (stall_due _ _) as [[] reported']; cbn [fst snd w_seen sn_reports].
  - exists (since now (pn_accepted p)). rewrite ages_snoc. cbn [fst snd]. rewrite decide_True by done.
    split; [set_solver|unfold STALL_FIRST in *; lia].
  - destruct Hs as [_ Hs]. specialize (Hs Hage). destruct (last _) as [age|] eqn:E.
    + exists age. split; [by apply last_Some_elem_of|]. destruct Hlast as (j & _ & _ & Hle & _). lia.
    + unfold STALL_FIRST in *. lia.
Qed.


(** ** Runs *)

Module Demo.
Definition doing (_ : Z) : string := "".
Definition s (n : Z) : Z := n * 1000000000.
Definition p0 : PendingServer := started 1 None 4 0.
Definition no_scan (n : Z) : ScanPending := MkScanPending n [] 0.

(** A request that a check begun at six seconds finds, before or after it has ended. *)
Definition begun : WorldServer :=
  let w := WorldServer_new 0 in with_account w (start_request (w_account w) 1 None 4 0).
Definition copied (w : WorldServer) : WorldServer := table_copied (tick_begins w (s 6) false) (s 6) [0].
Definition gone (w : WorldServer) : WorldServer :=
  let w := with_account w (remove_request (w_account w) 0) in with_account w (count_request (w_account w) 0 (s 6)).
Definition ended (w : WorldServer) : WorldServer :=
  guard_ends (gone w) 0 (s 6) (default p0 (ac_entries (w_account w) !! 0)).
Definition found (w : WorldServer) : WorldServer := examined w (s 6) false 0 p0 [] (no_scan 1).
Definition told (w : WorldServer) : WorldServer :=
  scanned doing w (s 6) (s 6) (examine Due (s 6) false p0 (no_scan 1)).2.

Definition rested (w : WorldServer) : WorldServer := tick_ends w (s 6) (s 6) (s 6).

Lemma copied_runs : server_runs doing 0 (copied begun).
Proof.
  eapply sr_step; [eapply sr_step; [eapply sr_step; [apply sr_new|]|]|].
  - by apply ss_start.
  - by apply ss_tick.
  - apply ss_copied; [reflexivity|]. cbn. by rewrite union_empty_r_L, elements_singleton.
Qed.
Lemma ended_runs w p : server_runs doing 0 w → 0 ∈ pf_active (ac_perf (w_account w)) →
  ac_entries (w_account w) !! 0 = Some p → server_runs doing 0 (ended w).
Proof.
  intros Hw Ha Hp. eapply sr_step; [eapply sr_step; [eapply sr_step; [exact Hw|by apply ss_remove]|]|].
  - apply ss_count. cbn. by rewrite lookup_insert_eq.
  - unfold ended. rewrite Hp. apply ss_end; [|done]. cbn. by rewrite lookup_insert_eq.
Qed.
Lemma told_runs w : server_runs doing 0 w → wa_tick (w_watching w) = T_scanning (s 6) [0] (no_scan 1) →
  ac_entries (w_account w) !! 0 = Some p0 → server_runs doing 0 (told (found w)).
Proof.
  intros Hw Ht Hp. eapply sr_step; [eapply sr_step; [exact Hw|by eapply ss_examined]|]. apply ss_scanned. reflexivity.
Qed.
End Demo.

(** A request that ends between the copy of the table and the look at its entry is
    reported as stalled once it has ended, and its end is never told. *)
Example ended_is_reported :
  ∃ w, server_runs Demo.doing 0 w ∧ ¬ alive (w_account w) 0 ∧ sn_ends (w_seen w) = []
    ∧ wa_log (w_watching w) =
      ["stalled: session 1 stream 4 undecoded request reading the request for 6.00s (6.00s in all)";
       "stalled: 1 requests being answered; 1 answered since the last check, the last 0us ago; the runtime last ran a task 6.00s ago (one is due every 1.00s)"].
Proof.
  exists (Demo.told (Demo.found (Demo.ended (Demo.copied Demo.begun)))). split.
  - apply Demo.told_runs; [|reflexivity..]. eapply Demo.ended_runs; [apply Demo.copied_runs| |reflexivity].
    vm_compute. set_solver.
  - split; [|split; reflexivity]. intros [H|[? H]]; vm_compute in H; done.
Qed.

