(* ===== verification/Show.v ===== *)
(** * Requests as a log shows them ([crates/proto/src/msg.rs])

    The files a request is about ([Request::subject]), for log lines and for the control
    tool: never a payload or an attribute's value. *)

From stdpp Require Import pretty.
From S2P Require Import Prelude Types Msg Holders.

Local Open Scope string_scope.
Local Open Scope Z_scope.

(** [Display] of a name, and a path from the export's root. *)
Definition show_name (n : Name) : string := from_utf8_lossy (as_bytes n).
Definition show_path (p : Path) : string := "/" +:+ from_utf8_lossy (to_os_string p).

Definition at_entry (parent : Path) (name : Name) : string :=
  show_path parent +:+ (if is_root parent then "" else "/") +:+ show_name name.
Definition show_fh (fh : Z) : string := "fh=" +:+ pretty fh.
Definition path_or_fh (path : option Path) (fh : option Z) : string :=
  match path, fh with
  | Some path, Some fh => show_path path +:+ " " +:+ show_fh fh
  | Some path, None => show_path path
  | None, Some fh => show_fh fh
  | None, None => "nothing"
  end.
Definition spans (fh offset : Z) (what : string) (size : Z) : string :=
  show_fh fh +:+ " offset=" +:+ pretty offset +:+ " " +:+ what +:+ "=" +:+ pretty size.

Definition subject (r : Request) : string :=
  match r with
  | Req_Lookup parent name | Req_Mknod parent name _ _ | Req_Mkdir parent name _ | Req_Unlink parent name
  | Req_Rmdir parent name | Req_Symlink parent name _ => at_entry parent name
  | Req_Create fh parent name _ _ => at_entry parent name +:+ " " +:+ show_fh fh
  | Req_Getattr path fh | Req_Setattr path fh _ => path_or_fh path fh
  | Req_Readlink path | Req_Statfs path | Req_Setxattr path _ _ _ | Req_Getxattr path _ | Req_Listxattr path
  | Req_Removexattr path _ | Req_Access path _ => show_path path
  | Req_Open fh path _ | Req_Opendir fh path => show_path path +:+ " " +:+ show_fh fh
  | Req_Rename parent name newparent newname _ => at_entry parent name +:+ " -> " +:+ at_entry newparent newname
  | Req_Link path newparent newname => show_path path +:+ " -> " +:+ at_entry newparent newname
  | Req_Release fh _ | Req_Releasedir fh _ | Req_Fsync fh _ => show_fh fh
  | Req_Read fh offset size => spans fh offset "size" size
  | Req_Write fh offset data => spans fh offset "size" (len_z data)
  | Req_Readdir fh offset max_bytes => spans fh offset "size" max_bytes
  | Req_Fallocate fh offset len _ => spans fh offset "len" len
  | Req_Lseek fh offset _ => show_fh fh +:+ " offset=" +:+ pretty offset
  | Req_CopyFileRange fh_in offset_in fh_out offset_out len =>
      show_fh fh_in +:+ " offset=" +:+ pretty offset_in +:+ " -> " +:+ spans fh_out offset_out "len" len
  end.

Example subject_rename :
  subject (Req_Rename (MkPath [MkName [Byte.x61]]) (MkName [Byte.x62]) Path_root (MkName [Byte.x63]) 0) = "/a/b -> /c".
Proof. reflexivity. Qed.
