(* ===== verification/Lookout.v ===== *)
(** * The client's account and watchdog ([crates/client/src/perf.rs], [watchdog.rs])

    What the client counts of the kernel's requests and of its calls, and what its
    watchdog says once a second: the requests in flight too long, a runtime that runs no
    task, a session thread that does not come back, a notifier call that does not return.

    A check is a function of what it reads ([SeenClient]): the table's scan ([Inflight]), the
    locks it has in time, the kernel's texts and the instants. *)

From stdpp Require Import sorting pretty.
From S2P Require Import Prelude Types Msg Perf Float Revision Wire ClientTypes Machine Caller Control Text Proc Hub Interest Holders Meters Show Stalls Inflight.

Local Open Scope string_scope.
Local Open Scope list_scope.
Local Open Scope Z_scope.

(** ** The account (perf.rs) *)

Inductive SlowpathClient :=
| Slow_Interrupt | Slow_InterruptIgnored | Slow_CallNotSent | Slow_CallLostRetried | Slow_AliasStale
| Slow_FileDroppedFromKernel | Slow_HandlesReported | Slow_ReadaheadLimited.
Definition SlowpathClient_name (s : SlowpathClient) : string :=
  match s with
  | Slow_Interrupt => "interrupt"
  | Slow_InterruptIgnored => "interrupt_ignored"
  | Slow_CallNotSent => "call_not_sent"
  | Slow_CallLostRetried => "call_lost_retried"
  | Slow_AliasStale => "alias_stale"
  | Slow_FileDroppedFromKernel => "file_dropped_from_kernel"
  | Slow_HandlesReported => "handles_reported"
  | Slow_ReadaheadLimited => "readahead_limited"
  end.
Definition SlowpathClient_ALL : list SlowpathClient :=
  [Slow_Interrupt; Slow_InterruptIgnored; Slow_CallNotSent; Slow_CallLostRetried; Slow_AliasStale;
   Slow_FileDroppedFromKernel; Slow_HandlesReported; Slow_ReadaheadLimited].
Definition SlowpathClient_index (s : SlowpathClient) : nat :=
  match s with
  | Slow_Interrupt => 0 | Slow_InterruptIgnored => 1 | Slow_CallNotSent => 2 | Slow_CallLostRetried => 3
  | Slow_AliasStale => 4 | Slow_FileDroppedFromKernel => 5 | Slow_HandlesReported => 6 | Slow_ReadaheadLimited => 7
  end%nat.

Record Row := MkRow {
  ro_n : Z; ro_bytes : Z; ro_items : Z; ro_total : Z; ro_min : Z; ro_max : Z; ro_errnos : gmap Z Z }.
Definition Row_default : Row := MkRow 0 0 0 0 0 0 ∅.
Definition row_record (r : Row) (outcome : Outcome) (total : Z) : Row :=
  MkRow (ro_n r + 1) (ro_bytes r + oc_bytes outcome) (ro_items r + oc_items outcome) (ro_total r + total)
    (if ro_n r + 1 =? 1 then total else Z.min (ro_min r) total) (Z.max (ro_max r) total)
    (if oc_errno outcome =? 0 then ro_errnos r
     else <[oc_errno outcome := default 0 (ro_errnos r !! oc_errno outcome) + 1]> (ro_errnos r)).
Definition mean (sum n : Z) : Z := if n =? 0 then 0 else from_secs_f64 (f64_div (as_secs_f64 sum) (f64_of n)).

Record PhasesCall := MkPhasesCall { pc_wait : Z; pc_open : Z; pc_send : Z; pc_reply : Z }.
Definition PhasesCall_default : PhasesCall := MkPhasesCall 0 0 0 0.
Definition PhasesCall_add (a b : PhasesCall) : PhasesCall :=
  MkPhasesCall (pc_wait a + pc_wait b) (pc_open a + pc_open b) (pc_send a + pc_send b) (pc_reply a + pc_reply b).
Record AccountCall := MkAccountCall {
  ca_phases : PhasesCall; ca_retries : Z; ca_session : option Z; ca_generation : option Z; ca_conn : option Z;
  ca_stream : option Z }.

Record RowCall := MkRowCall { rc_row : Row; rc_retried : Z; rc_phased : Z; rc_phases : PhasesCall }.
Definition RowCall_default : RowCall := MkRowCall Row_default 0 0 PhasesCall_default.
Definition rowcall_record (r : RowCall) (outcome : Outcome) (total : Z) (account : AccountCall) : RowCall :=
  let row := row_record (rc_row r) outcome total in
  if 0 <? ca_retries account then MkRowCall row (rc_retried r + 1) (rc_phased r) (rc_phases r)
  else MkRowCall row (rc_retried r) (rc_phased r + 1) (PhasesCall_add (rc_phases r) (ca_phases account)).
Definition phase_mean (r : RowCall) (phase : Z) : Z := mean phase (rc_phased r).

Record PerfClient := MkPerfClient {
  pe_since : Z; pe_inflight : Z; pe_peak : Z; pe_seen : list Z; pe_totals : Totals; pe_fuse : gmap string Row;
  pe_call : gmap string RowCall }.
Definition PerfClient_new (now : Z) : PerfClient := MkPerfClient now 0 0 [] ∅ ∅ ∅.
Definition with_gauge (p : PerfClient) (inflight peak : Z) : PerfClient :=
  MkPerfClient (pe_since p) inflight peak (pe_seen p) (pe_totals p) (pe_fuse p) (pe_call p).
Definition client_start (p : PerfClient) : PerfClient :=
  with_gauge p (pe_inflight p + 1) (Z.max (pe_peak p) (pe_inflight p + 1)).
Definition client_end (p : PerfClient) : PerfClient := with_gauge p (pe_inflight p - 1) (pe_peak p).
Definition record_fuse (p : PerfClient) (op : string) (outcome : Outcome) (total : Z) : PerfClient :=
  MkPerfClient (pe_since p) (pe_inflight p) (pe_peak p) (pe_seen p)
    (Totals_add (pe_totals p) "fuse" op (oc_bytes outcome) (oc_items outcome) (oc_errno outcome) total)
    (<[op := row_record (default Row_default (pe_fuse p !! op)) outcome total]> (pe_fuse p)) (pe_call p).
Definition record_call (p : PerfClient) (op : string) (outcome : Outcome) (total : Z) (account : AccountCall) : PerfClient :=
  MkPerfClient (pe_since p) (pe_inflight p) (pe_peak p) (pe_seen p)
    (Totals_add (pe_totals p) "call" op (oc_bytes outcome) (oc_items outcome) (oc_errno outcome) total)
    (pe_fuse p) (<[op := rowcall_record (default RowCall_default (pe_call p !! op)) outcome total account]> (pe_call p)).
Definition client_totals (p : PerfClient) : list TotalOp := Totals_list (pe_totals p).
Definition client_served (p : PerfClient) : Z * Z := Totals_at (pe_totals p) "fuse".

Record SnapshotClient := MkSnapshotClient {
  sn_window : Z; sn_inflight : Z; sn_peak : Z; sn_events : gmap string Z; sn_fuse : gmap string Row;
  sn_call : gmap string RowCall }.
Definition client_window (p : PerfClient) (events : Events) (now : Z) : SnapshotClient * option string * PerfClient :=
  let '(seen, counted, line) := window events (pe_seen p) "events" in
  (MkSnapshotClient (since now (pe_since p)) (pe_inflight p) (pe_peak p) counted (pe_fuse p) (pe_call p), line,
   MkPerfClient now (pe_inflight p) (pe_inflight p) seen (pe_totals p) ∅ ∅).

Definition fmt_row (r : Row) (window : Z) : string :=
  let conc := if window =? 0 then f64_of 0 else f64_div (as_secs_f64 (ro_total r)) (as_secs_f64 window) in
  "n=" +:+ pretty (ro_n r) +:+ " conc=" +:+ fmt_fixed 2 conc +:+ " min=" +:+ fmt_duration (ro_min r)
  +:+ " mean=" +:+ fmt_duration (mean (ro_total r) (ro_n r)) +:+ " max=" +:+ fmt_duration (ro_max r)
  +:+ " bytes=" +:+ fmt_bytes (ro_bytes r) +:+ " items=" +:+ pretty (ro_items r)
  +:+ match sort_by (λ a b, Z.compare a.1 b.1) (map_to_list (ro_errnos r)) with
      | [] => ""
      | errnos => " errno=" +:+ String.concat "," ((λ en : Z * Z, pretty en.1 +:+ "x" +:+ pretty en.2) <$> errnos)
      end.
Definition call_line (window : Z) (op : string) (r : RowCall) : string :=
  "perf call " +:+ op +:+ ": " +:+ fmt_row (rc_row r) window +:+ " retried=" +:+ pretty (rc_retried r)
  +:+ " wait=" +:+ fmt_duration (phase_mean r (pc_wait (rc_phases r)))
  +:+ " open=" +:+ fmt_duration (phase_mean r (pc_open (rc_phases r)))
  +:+ " send=" +:+ fmt_duration (phase_mean r (pc_send (rc_phases r)))
  +:+ " reply=" +:+ fmt_duration (phase_mean r (pc_reply (rc_phases r))).
Definition client_report (p : PerfClient) (events : Events) (now : Z) : SnapshotClient * list string * PerfClient :=
  let '(snapshot, line, p) := client_window p events now in
  let window := sn_window snapshot in
  (snapshot,
   ("perf window " +:+ fmt_duration window +:+ " inflight=" +:+ pretty (sn_inflight snapshot)
    +:+ " peak=" +:+ pretty (sn_peak snapshot))
   :: match line with Some line => [line] | None => [] end
   ++ ((λ or : string * Row, "perf fuse " +:+ or.1 +:+ ": " +:+ fmt_row or.2 window) <$> sort_by by_name (map_to_list (sn_fuse snapshot)))
   ++ ((λ or : string * RowCall, call_line window or.1 or.2) <$> sort_by by_name (map_to_list (sn_call snapshot))),
   p).

Definition client_counters (p : PerfClient) (events : Events) (handles : HandlesTotals) : Counters :=
  MkCounters "" 0 "" 0 (pe_inflight p) (counts events) (client_totals p) (MkResources 0 0 0 0 0 0 0) handles.
Definition client_handles (handles : list Held) : Handles := Handles_Processes (take HANDLES_ROWS_MAX (processes handles)).

(** ** Texts of the watchdog (watchdog.rs) *)

Definition SESSION_IDLE : text := lit "fuse_dev_do_read".

Definition phase_name (p : PhaseCall) : string :=
  match p with
  | Phase_Wait => "waiting for a connection"
  | Phase_Cancel => "waiting for the server to answer a cancel of an earlier change"
  | Phase_Open => "opening a stream"
  | Phase_Send => "sending"
  | Phase_Reply => "awaiting the reply"
  end.
Definition phase_of (p : Pending) : string :=
  if negb (pn_started p) then "not started"
  else match pn_call p with
       | Ok (Some call) => phase_name (cn_phase call)
       | Ok None => "not in a call"
       | Err _ => "call unreadable"
       end.

(** [at_]: when the line reads the call's age. *)
Definition describe_call (at_ : Z) (call : CallNow) : string :=
  let maybe what v := match v with Some v => ", " +:+ what +:+ " " +:+ pretty (v : Z) | None => "" end in
  "call " +:+ op_name (cn_req call) +:+ " " +:+ subject (cn_req call) +:+ " " +:+ phase_name (cn_phase call) +:+ " for "
  +:+ fmt_duration (since at_ (cn_since call))
  +:+ maybe "generation" (cn_generation call) +:+ maybe "connection" (cn_conn call) +:+ maybe "stream" (cn_stream call)
  +:+ (if 0 <? cn_retries call then ", attempt " +:+ pretty (cn_retries call + 1) else "").

Definition describe (at_ : Z) (p : Pending) (caller : string) : string :=
  let key := pn_key p in
  let maybe what v := match v with Some v => " " +:+ what +:+ " " +:+ pretty (v : Z) | None => "" end in
  "fuse " +:+ kp_op key +:+ " ino " +:+ pretty (kp_ino key) +:+ " for " +:+ fmt_duration (pn_age p)
  +:+ " (unique " +:+ pretty (kp_unique key) +:+ ")"
  +:+ maybe "fh" (kp_fh key) +:+ maybe "offset" (kp_offset key) +:+ maybe "size" (kp_size key)
  +:+ ", caller " +:+ caller +:+ "; "
  +:+ (if negb (pn_started p) then "its task has not run yet (the runtime is not getting to it)"
       else match pn_call p with
            | Ok (Some call) => describe_call at_ call
            | Ok None => "not in a call to the server"
            | Err _ => "its call's lock was held past " +:+ fmt_duration LOCK_PATIENCE
            end).
(** [name] gives the caller of each request described. *)
Definition lines_pending_client (at_ : Z) (found : list Pending) (name : Z → string) : list string :=
  lines_crowd found (λ p, kp_op (pn_key p) +:+ " " +:+ phase_of p) (λ p, describe at_ p (name (kp_pid (pn_key p)))).

Section proc.
Context (show_io : IoError → string) (proc_ours : bool).

(** [status], [comm]: what reading the thread's status and its process's name gives. *)
Definition caller (tid : Z) (status : ReadText) (comm : Z → ReadText) : string :=
  if tid =? 0 then "outside this pid namespace"
  else if negb proc_ours then "thread " +:+ pretty tid +:+ " (/proc is not this pid namespace's)"
  else
    match status_of status with
    | Err e => "thread " +:+ pretty tid +:+ " (" +:+ show_io e +:+ ")"
    | Ok status =>
        let named t := match t with Some t => shown_text t | None => "?" end in
        let process := match ts_tgid status with
                       | Some tgid => match comm_of (comm tgid) with
                                      | Ok comm => shown_text (trim comm) +:+ " " +:+ pretty tgid
                                      | Err e => pretty tgid +:+ " (" +:+ show_io e +:+ ")"
                                      end
                       | None => "?"
                       end in
        "thread " +:+ named (ts_name status) +:+ " " +:+ pretty tid +:+ " of " +:+ process +:+ ", " +:+ named (ts_state status)
    end.

(** The callers to name: of the requests described, each once, oldest first. *)
Definition tids_of (found : list Pending) : list Z :=
  foldl (λ tids p, let pid := kp_pid (pn_key p) in
                   if negb (pid =? 0) && bool_decide (pid ∉ tids) then tids ++ [pid] else tids)
    [] (take STALL_DETAILED found).

(** What the reading thread sends in time, in order: [took] is how long after the start a
    name was sent, [None] for a read that does not return. *)
Fixpoint names_in_time (tids : list Z) (took : Z → option Z) (patience : Z) (name : Z → string) (names : gmap Z string)
    : gmap Z string :=
  match tids with
  | [] => names
  | tid :: tids =>
      match took tid with
      | Some t => if t <=? patience then names_in_time tids took patience name (<[tid := name tid]> names) else names
      | None => names
      end
  end.
(** [spawned]: the thread could be started. *)
Definition callers_read (spawned : bool) (tids : list Z) (took : Z → option Z) (name : Z → string) : gmap Z string :=
  if spawned then names_in_time tids took LOCK_PATIENCE name ∅ else ∅.
Definition callers (spawned : bool) (found : list Pending) (took : Z → option Z) (name : Z → string) : gmap Z string :=
  let tids := tids_of found in
  match tids with [] => ∅ | _ => if proc_ours then callers_read spawned tids took name else ∅ end.
Definition caller_from (names : gmap Z string) (tid : Z) : string :=
  if (tid =? 0) || negb proc_ours then caller tid (Err Io_Failed) (λ _, Err Io_Failed)
  else match names !! tid with
       | Some name => name
       | None => "thread " +:+ pretty tid +:+ " (not named: naming the callers did not finish within "
                 +:+ fmt_duration LOCK_PATIENCE +:+ ")"
       end.
End proc.

(** ** A check *)

Record NotifierWork := MkNotifierWork { nw_kind : string; nw_ino : Z; nw_since : Z }.

Record WatchClient := MkWatchClient {
  wc_completed : Z; wc_session_ended : bool; wc_table_held : Persisting; wc_runtime_late : Persisting;
  wc_session_away : Persisting; wc_notifier_busy : Persisting; wc_notifier_since : option Z }.
Definition WatchClient_new (completed : Z) : WatchClient :=
  MkWatchClient completed false Persisting_default Persisting_default Persisting_default Persisting_default None.

(** What a look at the session thread's wait channel gives: the file is gone, or cannot be
    read otherwise, or its text. *)
Inductive Wchan := Wchan_Gone | Wchan_Unreadable | Wchan_Text (t : text).

(** What a check reads.  [se_scan]: the due requests, or the table's lock held.
    [se_completed_after]: the requests answered as the check ends.  [se_notifier]: the
    notifier's call, or its lock held.  [se_state]: the connection, and
    when its line is made. *)
Record SeenClient := MkSeenClient {
  se_now : Z;
  se_ended : list string;
  se_scan : option Inflight.ScanPending;
  se_names : gmap Z string;
  se_progress : Progress;
  se_completed_after : Z;
  se_beat_age : Z;
  se_proc_ours : bool;
  se_unmounting : bool;
  se_session_tid : Z;
  se_wchan : Wchan;
  se_notifier : option (option NotifierWork);
  se_waiting : option Z;
  se_session_doing : string;
  se_state : ConnState * Z }.

Section check.
Context (e : SeenClient).

Definition connection_now : string :=
  match (se_state e).1 with
  | Conn_Connected attached => "connected, generation " +:+ pretty (at_generation (att_state attached))
  | Conn_Connecting since_ => "no connection for " +:+ fmt_duration (since (se_state e).2 since_)
  | Conn_Closed => "connection closed for good"
  end.
Definition notifier_now : string :=
  match se_notifier e with
  | Some (Some work) => "thread in " +:+ nw_kind work +:+ " of " +:+ pretty (nw_ino work) +:+ " for "
                        +:+ fmt_duration (since (se_now e) (nw_since work))
  | Some None => "thread idle"
  | None => "thread state unavailable (lock held)"
  end.
Definition summary (w : WatchClient) : string :=
  "the kernel counts " +:+ match se_waiting e with Some n => pretty n | None => "unknown" end
  +:+ " waiting (queued for this client or being answered); "
  +:+ line_progress (se_progress e) (wc_completed w) (se_beat_age e) (se_now e)
  +:+ "; FUSE session " +:+ (if se_session_tid e =? 0 then "not started"
                             else if negb (se_proc_ours e) then "not visible (/proc is another pid namespace's)"
                             else se_session_doing e)
  +:+ "; " +:+ connection_now +:+ "; invalidation " +:+ notifier_now.

Definition check_table (w : WatchClient) : WatchClient * list string :=
  let with_held held := MkWatchClient (wc_completed w) (wc_session_ended w) held (wc_runtime_late w) (wc_session_away w)
                          (wc_notifier_busy w) (wc_notifier_since w) in
  match se_scan e with
  | Some scan =>
      let '(_, held) := Persisting_check (wc_table_held w) (se_now e) false in
      (with_held held,
       match sp_found scan with
       | [] => []
       | found => ((λ line, "stalled: " +:+ line)
                     <$> lines_pending_client (se_state e).2 found (caller_from (λ _, "") (se_proc_ours e) (se_names e)))
                  ++ ["stalled: " +:+ pretty (Z.of_nat (sp_count scan)) +:+ " kernel requests being answered; " +:+ summary w]
       end)
  | None =>
      let '(due, held) := Persisting_check (wc_table_held w) (se_now e) true in
      (with_held held,
       match due with
       | Some age => ["stalled: the in-flight table's lock has been unavailable for " +:+ fmt_duration age +:+ "; " +:+ summary w]
       | None => []
       end)
  end.

Definition check_runtime (w : WatchClient) : WatchClient * list string :=
  let '(due, late) := Persisting_check (wc_runtime_late w) (se_now e) (HEARTBEAT_LATE <=? se_beat_age e) in
  (MkWatchClient (wc_completed w) (wc_session_ended w) (wc_table_held w) late (wc_session_away w) (wc_notifier_busy w)
     (wc_notifier_since w),
   match due with
   | Some age => ["stalled: the tokio runtime has run no task for " +:+ fmt_duration age +:+ "; " +:+ summary w]
   | None => []
   end).

Definition with_session (w : WatchClient) (ended : bool) (away : Persisting) : WatchClient :=
  MkWatchClient (wc_completed w) ended (wc_table_held w) (wc_runtime_late w) away (wc_notifier_busy w) (wc_notifier_since w).
Definition session_ended_line : string :=
  "the FUSE session thread (" +:+ pretty (se_session_tid e) +:+ ") has ended without this client unmounting: the mount was unmounted from outside (fusermount -u), or the thread failed; nothing on the mount is answered any more".
Definition looks_at_session (w : WatchClient) : bool :=
  negb ((se_session_tid e =? 0) || wc_session_ended w || negb (se_proc_ours e) || se_unmounting e).
Definition session_away_now (w : WatchClient) (wchan : text) : bool :=
  negb (bool_decide (wchan = SESSION_IDLE)) && (pg_completed (se_progress e) =? wc_completed w).
Definition check_session (w : WatchClient) : WatchClient * list string :=
  if negb (looks_at_session w) then (w, [])
  else
    match se_wchan e with
    | Wchan_Text wchan =>
        let '(due, away) := Persisting_check (wc_session_away w) (se_now e) (session_away_now w wchan) in
        (with_session w (wc_session_ended w) away,
         match due with
         | Some age => ["stalled: the FUSE session thread has not come back for a request for " +:+ fmt_duration age
                        +:+ ", and nothing has been answered meanwhile; " +:+ summary w]
         | None => []
         end)
    | Wchan_Gone => (with_session w true (wc_session_away w), [session_ended_line])
    | Wchan_Unreadable => (w, [])
    end.

Definition with_notifier (w : WatchClient) (busy : Persisting) (since_ : option Z) : WatchClient :=
  MkWatchClient (wc_completed w) (wc_session_ended w) (wc_table_held w) (wc_runtime_late w) (wc_session_away w) busy since_.
Definition check_notifier (w : WatchClient) : WatchClient * list string :=
  match se_notifier e with
  | None => (w, [])
  | Some busy =>
      let since_ := nw_since <$> busy in
      let w := if bool_decide (since_ = wc_notifier_since w) then w else with_notifier w Persisting_default since_ in
      match busy with
      | None => (w, [])
      | Some work =>
          let '(due, p) := Persisting_check (wc_notifier_busy w) (se_now e) true in
          (with_notifier w p (wc_notifier_since w),
           match due with
           | Some _ => ["stalled: the invalidation thread has been in " +:+ nw_kind work +:+ " of " +:+ pretty (nw_ino work)
                        +:+ " for " +:+ fmt_duration (since (se_now e) (nw_since work))]
           | None => []
           end)
      end
  end.

(** [WatchClient::tick]: the watchdog after, and the lines it logged. *)
Definition tick (w : WatchClient) : WatchClient * list string :=
  let ended := (λ line, "stall ended: " +:+ line) <$> se_ended e in
  let '(w, table) := check_table w in
  let '(w, runtime) := check_runtime w in
  let '(w, session) := check_session w in
  let '(w, notifier) := check_notifier w in
  (MkWatchClient (se_completed_after e) (wc_session_ended w) (wc_table_held w) (wc_runtime_late w)
     (wc_session_away w) (wc_notifier_busy w) (wc_notifier_since w),
   ended ++ table ++ runtime ++ session ++ notifier).
End check.

(** The listing of a report: it reads each caller itself. *)
Definition report_pending_client (at_ : Z) (name : Z → string) (scan : option Inflight.ScanPending) : list string :=
  match scan with
  | Some scan => (λ line, "perf inflight " +:+ line) <$> lines_pending_client at_ (sp_found scan) name
  | None => ["the in-flight table's lock was held past " +:+ fmt_duration LOCK_PATIENCE +:+ "; no listing"]
  end.

(** ** Windows lose nothing *)

Inductive Counted :=
| Co_start | Co_end
| Co_fuse (op : string) (outcome : Outcome) (total : Z)
| Co_call (op : string) (outcome : Outcome) (total : Z) (account : AccountCall)
| Co_report (events : Events) (now : Z).
(** The account, and the windows reported. *)
Definition counted (st : PerfClient * list SnapshotClient) (c : Counted) : PerfClient * list SnapshotClient :=
  let '(p, l) := st in
  match c with
  | Co_start => (client_start p, l)
  | Co_end => (client_end p, l)
  | Co_fuse op outcome total => (record_fuse p op outcome total, l)
  | Co_call op outcome total account => (record_call p op outcome total account, l)
  | Co_report events now => let '(s, _, p) := client_window p events now in (p, l ++ [s])
  end.
Definition took_ok (c : Counted) : Prop :=
  match c with Co_fuse _ _ total | Co_call _ _ total _ => is_u64 total | _ => True end.

(** A figure of an operation over all windows, the one under way included. *)
Definition over_windows {R} (rows : SnapshotClient → gmap string R) (now : gmap string R) (f : R → Z) (op : string)
    (l : list SnapshotClient) : Z :=
  sum_z (λ s, from_option f 0 (rows s !! op)) l + from_option f 0 (now !! op).

Lemma totals_none k : (∅ : Totals) !! k = None.
Proof. exact (lookup_empty (M:=gmap (string * string)) k). Qed.
Lemma totals_at t level op b i e took :
  default TotalsOp_default (Totals_add t level op b i e took !! (level, op))
  = TotalsOp_add (default TotalsOp_default (t !! (level, op))) b i e took.
Proof. unfold Totals_add. by rewrite (lookup_insert_eq (M:=gmap (string * string)) t (level, op) _). Qed.
Lemma totals_elsewhere t level op b i e took k : k ≠ (level, op) → Totals_add t level op b i e took !! k = t !! k.
Proof. intros Hk. apply (lookup_insert_ne (M:=gmap (string * string)) t (level, op) k). congruence. Qed.

Section figures.
Context (f : Row → Z) (g : TotalsOp → Z) (d : Outcome → Z → Z).
Context (Hf0 : f Row_default = 0) (Hg0 : g TotalsOp_default = 0).
Context (Hf : ∀ r o t, f (row_record r o t) = f r + d o t).
Context (Hg : ∀ t o took, is_u64 took → g (TotalsOp_add t (oc_bytes o) (oc_items o) (oc_errno o) took) = g t + d o took).

Lemma from_default {R} (h : R → Z) r0 (r : option R) : h r0 = 0 → from_option h 0 r = h (default r0 r).
Proof. by destruct r; cbn. Qed.

Lemma figures_add_up cs now : Forall took_ok cs →
  let '(p, l) := foldl counted (PerfClient_new now, []) cs in
  ∀ op, over_windows sn_fuse (pe_fuse p) f op l = g (default TotalsOp_default (pe_totals p !! ("fuse", op)))
        ∧ over_windows sn_call (pe_call p) (λ r, f (rc_row r)) op l
          = g (default TotalsOp_default (pe_totals p !! ("call", op))).
Proof.
  induction cs as [|c cs IH] using rev_ind; intros Hcs.
  { cbn [foldl]. intros op. unfold over_windows, PerfClient_new. cbn [pe_fuse pe_call pe_totals].
    rewrite !lookup_empty, !totals_none. cbn [from_option]. unfold id. by rewrite Hg0, !sum_z_nil. }
  apply Forall_app in Hcs as [Hcs [Hc _]%Forall_cons]. specialize (IH Hcs). rewrite foldl_snoc.
  destruct (foldl counted (PerfClient_new now, []) cs) as [p l]. unfold over_windows in *.
  destruct c as [| |op' o t|op' o t account|events now']; cbn [counted]; try exact IH.
  - intros op. destruct (IH op) as [IHf IHc]. cbn [record_fuse pe_fuse pe_call pe_totals].
    rewrite (totals_elsewhere _ _ _ _ _ _ _ ("call", op)) by done. split; [|exact IHc].
    destruct (decide (op = op')) as [->|Hne].
    + rewrite lookup_insert_eq, totals_at. cbn [from_option]. rewrite Hf, Hg by exact Hc.
      rewrite <- IHf, (from_default f Row_default) by done.
      cbn. lia.
    + rewrite lookup_insert_ne, totals_elsewhere by congruence. exact IHf.
  - intros op. destruct (IH op) as [IHf IHc]. cbn [record_call pe_fuse pe_call pe_totals].
    rewrite (totals_elsewhere _ _ _ _ _ _ _ ("fuse", op)) by done. split; [exact IHf|].
    destruct (decide (op = op')) as [->|Hne].
    + rewrite lookup_insert_eq, totals_at. cbn [from_option]. rewrite Hg by exact Hc.
      assert (∀ r, f (rc_row (rowcall_record r o t account)) = f (rc_row r) + d o t) as Hr
        by (intros r; unfold rowcall_record; case_match; apply Hf).
      rewrite <- IHc, (from_default (λ r, f (rc_row r)) RowCall_default) by done. cbn. rewrite Hr. lia.
    + rewrite lookup_insert_ne, totals_elsewhere by congruence. exact IHc.
  - unfold client_window. destruct (window _ _ _) as [[seen w] line]. intros op. destruct (IH op) as [IHf IHc].
    rewrite !sum_z_app, !sum_z_one. cbn [pe_fuse pe_call pe_totals sn_fuse sn_call]. rewrite !lookup_empty.
    cbn [from_option]. by rewrite !Z.add_0_r.
Qed.
End figures.

(** Nothing counted is lost between the windows: an operation's requests, bytes, items,
    failures and time, over all windows, are its totals. *)
Lemma windows_lose_nothing cs now : Forall took_ok cs →
  let '(p, l) := foldl counted (PerfClient_new now, []) cs in
  ∀ op, let fuse := default TotalsOp_default (pe_totals p !! ("fuse", op)) in
        let call := default TotalsOp_default (pe_totals p !! ("call", op)) in
  Forall (λ fg : (Row → Z) * (TotalsOp → Z),
      over_windows sn_fuse (pe_fuse p) fg.1 op l = fg.2 fuse
      ∧ over_windows sn_call (pe_call p) (λ r, fg.1 (rc_row r)) op l = fg.2 call)
    [(ro_n, tt_count); (ro_bytes, tt_bytes); (ro_items, tt_items); (λ r, map_sum (λ n, n) (ro_errnos r), tt_errors);
     (ro_total, tt_total_ns)].
Proof.
  intros Hcs.
  assert (∀ o r t, map_sum (λ n, n) (ro_errnos (row_record r o t))
                   = map_sum (λ n, n) (ro_errnos r) + (if oc_errno o =? 0 then 0 else 1)) as Herr.
  { intros o r t. cbn. destruct (oc_errno o =? 0); [lia|]. destruct (ro_errnos r !! oc_errno o) as [n|] eqn:E; cbn.
    - rewrite (map_sum_insert_Some _ _ _ _ _ E). lia.
    - rewrite map_sum_insert_None by done. lia. }
  pose proof (figures_add_up ro_n tt_count (λ _ _, 1) eq_refl eq_refl ltac:(done) ltac:(done) cs now Hcs) as H1.
  pose proof (figures_add_up ro_bytes tt_bytes (λ o _, oc_bytes o) eq_refl eq_refl ltac:(done) ltac:(done) cs now Hcs) as H2.
  pose proof (figures_add_up ro_items tt_items (λ o _, oc_items o) eq_refl eq_refl ltac:(done) ltac:(done) cs now Hcs) as H3.
  pose proof (figures_add_up (λ r, map_sum (λ n, n) (ro_errnos r)) tt_errors (λ o _, if oc_errno o =? 0 then 0 else 1)
                eq_refl eq_refl ltac:(intros; apply Herr) ltac:(done) cs now Hcs) as H4.
  pose proof (figures_add_up ro_total tt_total_ns (λ _ t, t) eq_refl eq_refl ltac:(done)
                ltac:(intros t o took Ht; cbn; by rewrite wrap64_id) cs now Hcs) as H5.
  destruct (foldl counted _ cs) as [p l]. intros op. repeat constructor; apply H1 || apply H2 || apply H3 || apply H4 || apply H5.
Qed.
