(* ===== verification/Reports.v ===== *)
(** * What requests and reports say of themselves

    The measurements a request leaves at each end ([client.rs]: [Timing], [outcome_of],
    [call]; [session.rs]: [outcome_of], [handle_request]) and the reports that put the
    meters together ([session.rs]: [Server::report]; [mount.rs]: [Mount::report], and the
    mount table it reads the kernel's limits by). *)

From stdpp Require Import sorting pretty.
From S2P Require Import Prelude Types Msg Perf Float Revision Wire Codec ClientTypes Control Text Hub Interest Holders Meters Stalls Inflight Lookout.

Local Open Scope string_scope.
Local Open Scope list_scope.
Local Open Scope Z_scope.

(** ** Outcomes *)

Definition server_outcome_of (resp : Response) : Outcome :=
  match resp with
  | Resp_Err errno => Outcome_errno errno
  | Resp_Read data => Outcome_bytes (len_z data)
  | Resp_Written n => Outcome_bytes n
  | Resp_Copied n => Outcome_bytes n
  | Resp_Readdir entries _ => Outcome_items (len_z entries)
  | _ => Outcome_default
  end.
Definition client_outcome_of (r : result Error Response) : Outcome :=
  match r with
  | Ok (Resp_Read data) => Outcome_bytes (len_z data)
  | Ok (Resp_Written n) => Outcome_bytes n
  | Ok (Resp_Copied _) => Outcome_default
  | Ok (Resp_Readdir entries _) => Outcome_items (len_z entries)
  | Ok _ => Outcome_default
  | Err e => Outcome_errno (Error_errno e)
  end.

(** ** The phases of an attempt (client.rs) *)

Record Timing := MkTiming { tm_opened : option Z; tm_sent : option Z; tm_replied : option Z; tm_stream : option Z }.
Definition Timing_default : Timing := MkTiming None None None None.
Definition stamp_opened (t : Timing) (stream now : Z) : Timing := MkTiming (Some now) (tm_sent t) (tm_replied t) (Some stream).
Definition stamp_sent (t : Timing) (now : Z) : Timing := MkTiming (tm_opened t) (Some now) (tm_replied t) (tm_stream t).
Definition stamp_replied (t : Timing) (now : Z) : Timing := MkTiming (tm_opened t) (tm_sent t) (Some now) (tm_stream t).

(** A phase still in progress is charged up to [now]. *)
Definition phases (t : Timing) (began now : Z) : PhasesCall :=
  let open := default now (tm_opened t) - began in
  match tm_opened t with
  | None => MkPhasesCall 0 open 0 0
  | Some opened =>
      let send := default now (tm_sent t) - opened in
      match tm_sent t with
      | None => MkPhasesCall 0 open send 0
      | Some sent => MkPhasesCall 0 open send (default now (tm_replied t) - sent)
      end
  end.

(** An attempt's account: its phases, and where it went. *)
Definition account_attempt (a : AccountCall) (t : Timing) (began now session generation : Z) (conn : option Z) : AccountCall :=
  MkAccountCall (PhasesCall_add (ca_phases a) (phases t began now)) (ca_retries a) (Some session) (Some generation) conn (tm_stream t).

(** A step that happened is no earlier than the one before it. *)
Definition in_order (t : Timing) (began now : Z) : Prop :=
  match tm_opened t, tm_sent t, tm_replied t with
  | None, None, None => began ≤ now
  | Some opened, None, None => began ≤ opened ≤ now
  | Some opened, Some sent, None => began ≤ opened ≤ sent ∧ sent ≤ now
  | Some opened, Some sent, Some replied => began ≤ opened ≤ sent ∧ sent ≤ replied ≤ now
  | _, _, _ => False
  end.

(** The phases of an attempt are the whole of its time, to its reply or to now. *)
Lemma phases_cover t began now : in_order t began now →
  let p := phases t began now in
  pc_wait p = 0 ∧ 0 ≤ pc_open p ∧ 0 ≤ pc_send p ∧ 0 ≤ pc_reply p
  ∧ pc_open p + pc_send p + pc_reply p = default now (tm_replied t) - began.
Proof.
  unfold in_order, phases. destruct t as [[opened|] [sent|] [replied|] stream]; cbn; intros H; try done; lia.
Qed.

(** ** Summaries for the taps *)

Definition call_summary (req : Request) (unique : option Z) (account : AccountCall) (outcome : Outcome) (total : Z) : Summary :=
  let '(fh, offset, size) := perf_fields req in
  let ns d := wrap64 d in
  MkSummary "call" (MkIds (ca_session account) (ca_conn account) (ca_stream account) unique (Some (op_name req)))
    fh offset size None None (oc_bytes outcome) (oc_items outcome) (oc_errno outcome)
    [("wait", ns (pc_wait (ca_phases account))); ("open", ns (pc_open (ca_phases account)));
     ("send", ns (pc_send (ca_phases account))); ("reply", ns (pc_reply (ca_phases account)))]
    (ns total).
(** [ids]: the request's session, connection and stream. *)
Definition request_summary (req : Request) (ids : Ids) (outcome : Outcome) (phases : Phases) (total : Z) : Summary :=
  let '(fh, offset, size) := perf_fields req in
  let ns d := wrap64 d in
  MkSummary "request" (MkIds (id_session ids) (id_conn ids) (id_stream ids) (id_unique ids) (Some (op_name req)))
    fh offset size None None (oc_bytes outcome) (oc_items outcome) (oc_errno outcome)
    [("read", ns (ph_read phases)); ("held", ns (ph_held phases)); ("wait", ns (ph_wait phases));
     ("op", ns (ph_op phases)); ("send", ns (ph_send phases))]
    (ns total).

(** ** The change a call gave up on *)

(** How reading its reply ended, as far as the verdict looks at it. *)
Inductive ReadEnd := RE_Reply | RE_Undecodable | RE_Reset (code : Z) | RE_Eof | RE_Other.
Definition verdict_of (read : ReadEnd) : string :=
  match read with
  | RE_Reply => "finished"
  | RE_Undecodable => "undecodable"
  | RE_Reset code => if code =? RESET_UNRUN then "unrun" else if code =? RESET_FENCED then "fenced"
                     else if code =? RESET_SUPERSEDED then "superseded" else "lost"
  | RE_Eof => "unread"
  | RE_Other => "lost"
  end.

(** ** The server's report (session.rs) *)

(** A connection's line, and the verdict against the ports when there is one to give. *)
Definition quic_lines (head : string) (links : list SampleLink) (sample : SampleQuic) : list string :=
  line_quic head sample :: match Meters.verdict links sample with Some v => [Meters.describe v] | None => [] end.

Definition fds_line (fds : option Z) : list string :=
  match fds with Some n => ["perf fds open=" +:+ pretty (sat_sub64 n 1)] | None => [] end.
Definition state_word (s : StateSession) : string :=
  match s with SS_Attached => "attached" | SS_Detached => "detached" | SS_Dropped => "dropped" end.
Definition handle_line (row : HandlesSession) : string :=
  "perf handles session=" +:+ pretty (hse_session row) +:+ " open=" +:+ pretty (hse_files row + hse_dirs row)
  +:+ " files=" +:+ pretty (hse_files row) +:+ " dirs=" +:+ pretty (hse_dirs row) +:+ " state=" +:+ state_word (hse_state row)
  +:+ " remote=" +:+ hse_remote row.

(** The host's meters: the process, the ports, the UDP drops. *)
Record MetersHost := MkMetersHost { mh_link : MeterLink; mh_udp : MeterUdp; mh_process : MeterProcess }.
(** What a sample reads: the process's resources, the ports' entries, the drop counters. *)
Record HostRead := MkHostRead { hr_now : Z; hr_resources : Resources; hr_ports : option (list (option PortDir)); hr_snmp : option text }.
Definition host_sample (m : MetersHost) (r : HostRead) (served : Z * Z)
    : option RateResources * list SampleLink * option SampleUdp * MetersHost :=
  let '(process, mp) := MeterProcess_sample (mh_process m) (hr_now r) (hr_resources r) served.1 served.2 in
  let '(links, ml) := MeterLink_sample_at (mh_link m) (hr_now r) (hr_ports r) in
  let '(udp, mu) := MeterUdp_sample_at (mh_udp m) (hr_now r) (hr_snmp r) in
  (process, links, udp, MkMetersHost ml mu mp).
Definition host_lines (process : option RateResources) (links : list SampleLink) (udp : option SampleUdp) : list string :=
  match process with Some p => [line_process p] | None => [] end ++ lines_link links
  ++ match udp with Some u => [line_udp u] | None => [] end.

(** What else a report reads: the in-flight listing, the watches' line, the descriptors open
    (the walk's own among them), the sessions' handles and their pool, and each attached
    session's address, tracker and statistics. *)
Record ReportRead := MkReportRead {
  rr_inflight : list string; rr_watches : string; rr_fds : option Z; rr_rows : list HandlesSession; rr_pool : Z * Z;
  rr_host : HostRead; rr_connections : list (Z * string * TrackerQuic * StatsQuic) }.

Definition server_report (p : PerfServer) (events : Events) (m : MetersHost) (now : Z) (r : ReportRead)
    : list string * PerfServer * MetersHost * list TrackerQuic :=
  let '(_, lines, p) := perf_report p events now in
  let '(process, links, udp, m) := host_sample m (rr_host r) (served p) in
  let sampled := (λ c : Z * string * TrackerQuic * StatsQuic,
                    let '(session, remote, tracker, stats) := c in
                    let '(sample, tracker) := TrackerQuic_sample_at tracker (hr_now (rr_host r)) stats in
                    (quic_lines ("session=" +:+ pretty session +:+ " remote=" +:+ remote) links sample, tracker))
                   <$> rr_connections r in
  (lines ++ rr_inflight r ++ [rr_watches r] ++ fds_line (rr_fds r) ++ (handle_line <$> rr_rows r)
   ++ ["perf handles pool used=" +:+ pretty (rr_pool r).1 +:+ " capacity=" +:+ pretty (rr_pool r).2]
   ++ host_lines process links udp
   ++ match rr_connections r with [] => ["perf quic: no attached sessions"] | _ => mjoin (fst <$> sampled) end,
   p, m, snd <$> sampled).

(** ** The client's report (mount.rs) *)

Record MetersMount := MkMetersMount { mm_host : MetersHost; mm_generation : Z; mm_quic : TrackerQuic }.

(** The connection's window belongs to one generation and starts over on a reconnect. *)
Definition sample_connection (m : MetersMount) (now generation : Z) (stats : StatsQuic) : SampleQuic * MetersMount :=
  let quic := if mm_generation m =? generation then mm_quic m else None in
  let '(sample, quic) := TrackerQuic_sample_at quic now stats in
  (sample, MkMetersMount (mm_host m) generation quic).
(** [connection]: the generation and statistics of the connection there is. *)
Definition mount_report (p : PerfClient) (events : Events) (m : MetersMount) (now : Z) (waiting : option Z) (host : HostRead)
    (connection : option (Z * StatsQuic)) : list string * PerfClient * MetersMount :=
  let '(_, lines, p) := client_report p events now in
  let '(process, links, udp, h) := host_sample (mm_host m) host (client_served p) in
  let m := MkMetersMount h (mm_generation m) (mm_quic m) in
  let '(quic, m) := match connection with
                    | Some (generation, stats) =>
                        let '(sample, m) := sample_connection m (hr_now host) generation stats in
                        (quic_lines ("generation=" +:+ pretty generation) links sample, m)
                    | None => (["perf quic: not connected"], m)
                    end in
  (lines ++ match waiting with Some n => ["perf kernel queue waiting=" +:+ pretty n] | None => [] end
   ++ host_lines process links udp ++ quic, p, m).

(** ** The mount table *)

Definition backslash : byte := Byte.x5c.
Definition octal (b : byte) : bool := (48 <=? byte_z b) && (byte_z b <=? 55).
Definition octal3 (b c d : byte) : byte := z_byte ((((byte_z b - 48) * 8 + (byte_z c - 48)) * 8 + (byte_z d - 48)) mod 256).
Fixpoint unescape_bytes (t : text) : text :=
  match t with
  | [] => []
  | a :: t1 =>
      match t1 with
      | b :: c :: d :: rest =>
          if bool_decide (a = backslash) && octal b && octal c && octal d then octal3 b c d :: unescape_bytes rest
          else a :: unescape_bytes t1
      | _ => a :: unescape_bytes t1
      end
  end.
Definition unescape_mountinfo (field : text) : text := lit (from_utf8_lossy (unescape_bytes field)).

Fixpoint split_from (c : byte) (part : text) (t : text) : list text :=
  match t with
  | [] => [rev part]
  | b :: t => if bool_decide (b = c) then rev part :: split_from c [] t else split_from c (b :: part) t
  end.
Definition split_on (c : byte) (t : text) : list text := split_from c [] t.

(** [Path]'s equality: whether absolute, and the components. *)
Definition slash : byte := Byte.x2f.
Definition components (t : text) : bool * list text :=
  (match t with b :: _ => bool_decide (b = slash) | [] => false end,
   filter (λ c, c ≠ [] ∧ c ≠ lit ".") (split_on slash t)).

Definition minor_of (line target : text) : option Z :=
  let fields := split_on Byte.x20 line in
  dev ← fields !! 2%nat;
  mountpoint ← fields !! 4%nat;
  if bool_decide (components (unescape_mountinfo mountpoint) = components target)
  then '(_, minor) ← split_once Byte.x3a dev; parse_u32 minor
  else None.
Definition mount_minor (table target : text) : option Z :=
  find_map (λ line, minor_of line target) (rev (lines table)).

(** The kernel writes a special byte of a path as a backslash and three octal digits, the
    backslash itself among them. *)
Definition octal_digit (z : Z) : byte := z_byte (48 + z).
Fixpoint mangled (special : byte → bool) (t : text) : text :=
  match t with
  | [] => []
  | b :: t =>
      (if special b
       then [backslash; octal_digit (byte_z b / 64); octal_digit (byte_z b / 8 mod 8); octal_digit (byte_z b mod 8)]
       else [b]) ++ mangled special t
  end.

Lemma octal_digits b :
  octal (octal_digit (byte_z b / 64)) && octal (octal_digit (byte_z b / 8 mod 8)) && octal (octal_digit (byte_z b mod 8)) = true
  ∧ octal3 (octal_digit (byte_z b / 64)) (octal_digit (byte_z b / 8 mod 8)) (octal_digit (byte_z b mod 8)) = b.
Proof. by destruct b. Qed.

(** What the kernel wrote reads back. *)
Lemma unescape_mangled special t : special backslash = true → unescape_bytes (mangled special t) = t.
Proof.
  intros Hb. induction t as [|b t IH]; [done|]. cbn [mangled]. destruct (special b) eqn:E.
  - destruct (octal_digits b) as [Ho H3]. cbn [app]. cbn [unescape_bytes].
    rewrite bool_decide_eq_true_2 by done. cbn [andb]. by rewrite Ho, H3, IH.
  - assert (b ≠ backslash) as Hne by (intros ->; congruence). cbn [app]. cbn [unescape_bytes].
    rewrite bool_decide_eq_false_2 by done. cbn [andb]. rewrite IH. by repeat case_match.
Qed.

Example demo_minor :
  mount_minor (lit "36 35 0:31 / /mnt/a\040b rw - fuse x rw") (lit "/mnt/a b") = Some 31.
Proof. reflexivity. Qed.

(** ** The kernel's limits *)

Definition connection_dir (minor : Z) : string := "/sys/fs/fuse/connections/" +:+ pretty minor.
Definition bdi_dir (minor : Z) : string := "/sys/class/bdi/0:" +:+ pretty minor.
(** [KernelLimits::find]: the two directories, if the mount is in the table and the kernel
    has the first. *)
Definition find_limits (table : option text) (target : text) (is_dir : string → bool) : option (string * string) :=
  table ← table;
  minor ← mount_minor table target;
  if is_dir (connection_dir minor) then Some (connection_dir minor, bdi_dir minor) else None.
Definition read_limit (read : option text) : option Z := t ← read; parse_u64 (trim t).
