(* ===== verification/Ctl.v ===== *)
(** * The control tool ([crates/ctl/src/lib.rs])

    What [jackalopefs-ctl] works out of what the processes tell it: which processes there
    are ([targets]), what its arguments select, rates and quantiles between two readings
    of the counters, the texts it shows, and the file it captures records to.

    A text from a process is cleaned before it is shown ([clean]).  The texts of errors,
    parts of which are the libraries', and the derived forms of messages are parameters. *)

From stdpp Require Import sorting pretty.
From S2P Require Import Prelude Types Msg Perf Float Wire Codec Revision Control Holders Show Meters Text.

Local Open Scope string_scope.
Local Open Scope list_scope.
Local Open Scope Z_scope.

(** ** Processes *)

Record Target := MkTarget { tg_side : text; tg_pid : Z; tg_name : text }.

Definition SO_ACCEPTCON : Z := 0x10000.
Definition slash_byte : byte := Byte.x2f.
Definition dash : byte := Byte.x2d.

Definition target_of (uid : option Z) (line : text) : option Target :=
  let columns := split_whitespace line in
  match columns !! 3%nat, columns !! 7%nat with
  | Some flags, Some path =>
      if match from_str_radix 16 u32_max flags with Some f => Z.land f SO_ACCEPTCON =? 0 | None => false end then None
      else
        match match strip_prefix (lit "@jackalopefs/") path with Some rest => split_once slash_byte rest | None => None end with
        | None => None
        | Some (owner, rest) =>
            if match uid with Some uid => negb (bool_decide (owner = lit (pretty uid))) | None => false end then None
            else match rsplit_once dash rest with
                 | None => None
                 | Some (side, pid) =>
                     match parse_u32 pid with Some pid => Some (MkTarget side pid (tail path)) | None => None end
                 end
        end
  | _, _ => None
  end.

(** By pid; of two with one pid, the later. *)
Definition targets (proc_net_unix : text) (uid : option Z) : list Target :=
  let found := foldl (λ m line, match target_of uid line with Some t => <[tg_pid t := t]> m | None => m end)
                 (∅ : gmap Z Target) (tail (lines proc_net_unix)) in
  sort_by (λ a b, Z.compare (tg_pid a) (tg_pid b)) (snd <$> map_to_list found).

(** ** Texts from elsewhere *)

Definition hex_min (z : Z) : text := if z <? 16 then hex_text 1 z else hex_text 2 z.
(** [escape_default] of a control character. *)
Definition escaped (c : Z) : text :=
  if c =? 9 then lit "\t" else if c =? 13 then lit "\r" else if c =? 10 then lit "\n"
  else lit "\u{" ++ hex_min c ++ lit "}".
(** The control characters are one byte below a space, or [0x7f], and [U+0080] to
    [U+009F], which are two. *)
Definition ctl1 (a : byte) : bool := (byte_z a <? 32) || (byte_z a =? 127).
Definition ctl2 (a b : byte) : bool := (byte_z a =? 0xc2) && (0x80 <=? byte_z b) && (byte_z b <=? 0x9f).
Fixpoint clean_text (t : text) : text :=
  match t with
  | [] => []
  | a :: rest =>
      if ctl1 a then escaped (byte_z a) ++ clean_text rest
      else match rest with
           | b :: rest' => if ctl2 a b then escaped (byte_z b) ++ clean_text rest' else a :: clean_text rest
           | [] => [a]
           end
  end.
Definition clean (s : string) : string := String.string_of_list_byte (clean_text (lit s)).

(** ** Selections *)

Definition add_name (ns : Names) (name : string) : Names :=
  match ns with
  | Names_All => Names_All
  | Names_Some l => Names_Some (l ++ [name])
  | Names_None => Names_Some [name]
  end.
Definition Selection_default : Selection := MkSelection Names_None Names_None false 0 false.
Definition with_names (s : Selection) (events ops : Names) : Selection :=
  MkSelection events ops (sel_frames s) (sel_every s) (sel_payloads s).

Definition select_one (s : Selection) (selector : string) : result string Selection :=
  if String.eqb selector "events" then Ok (with_names s Names_All (sel_ops s))
  else if String.eqb selector "ops" then Ok (with_names s (sel_events s) Names_All)
  else if String.eqb selector "" then Err "an empty selector"
  else match strip_prefix (lit "op:") (lit selector) with
       | Some [] => Err "op: needs an operation name"
       | Some op => Ok (with_names s (sel_events s) (add_name (sel_ops s) (String.string_of_list_byte op)))
       | None => Ok (with_names s (add_name (sel_events s) selector) (sel_ops s))
       end.
Fixpoint select_all (s : Selection) (selectors : list string) : result string Selection :=
  match selectors with
  | [] => Ok s
  | selector :: selectors => s ← select_one s selector; select_all s selectors
  end.
Definition selection (selectors : list string) : result string Selection :=
  s ← select_all Selection_default selectors;
  if Names_is_none (sel_events s) && Names_is_none (sel_ops s)
  then Err "nothing selected: name events, `events`, `ops` or `op:NAME`" else Ok s.
Definition frame_selection (selectors : list string) (every : Z) (payloads : bool) : result string Selection :=
  chosen ← match selectors with [] => Ok Selection_default | _ => selection selectors end;
  Ok (MkSelection (sel_events chosen) (sel_ops chosen) true (Z.max every 1) payloads).

(** ** Rates *)

Record RateEvent := MkRateEvent { re_name : string; re_per_second : f64; re_total : Z }.
Record RateOp := MkRateOp {
  ro_level : string; ro_op : string; ro_per_second : f64; ro_bytes_per_second : f64; ro_mean_ns : option Z;
  ro_p50_ns : option Z; ro_p99_ns : option Z; ro_size_p50 : option Z; ro_errors_per_second : f64; ro_total : Z }.

(** [BTreeMap::from_iter]: the last of a key's values. *)
Definition from_pairs {K V} `{Countable K} (l : list (K * V)) : gmap K V := foldl (λ m kv, <[kv.1 := kv.2]> m) ∅ l.

Definition pair_cmp (a b : Z * Z) : comparison := then_cmp (Z.compare a.1 b.1) (Z.compare a.2 b.2).
(** What was added to each bucket, from the least. *)
Definition added (before now : list Bucket) : list (Z * Z) :=
  let earlier := from_pairs ((λ b, (bk_upper b, bk_count b)) <$> before) in
  sort_by pair_cmp
    (filter (λ un : Z * Z, 0 < un.2)
       ((λ b, (bk_upper b, sat_sub64 (bk_count b) (default 0 (earlier !! bk_upper b)))) <$> now)).
(** The bucket the [rank]th is in. *)
Fixpoint find_rank (seen rank : Z) (l : list (Z * Z)) : option Z :=
  match l with
  | [] => None
  | (upper, n) :: l => if rank <=? seen + n then Some upper else find_rank (seen + n) rank l
  end.
Definition rank_of (q : f64) (total : Z) : Z :=
  Z.min (Z.max (as_u64 (f64_ceil (f64_mul q (f64_of total)))) 1) total.
Definition quantile (before now : list Bucket) (q : f64) : option Z :=
  let added := added before now in
  let total := sum_z snd added in
  if total =? 0 then None else find_rank 0 (rank_of q total) added.

(** [f64::MIN_POSITIVE]. *)
Definition MIN_POSITIVE : f64 := S754_finite false 4503599627370496 (-1074).
Definition busiest_first {A} (per_second : A → f64) (total : A → Z) (a b : A) : comparison :=
  then_cmp (total_cmp (per_second b) (per_second a)) (Z.compare (total b) (total a)).

Definition rate_event (earlier : gmap string Z) (seconds : f64) (event : string * Z) : RateEvent :=
  MkRateEvent event.1 (f64_div (f64_of (sat_sub64 event.2 (default 0 (earlier !! event.1)))) seconds) event.2.
Definition rate_op (earlier : gmap (string * string) TotalOp) (seconds : f64) (t : TotalOp) : RateOp :=
  let was := earlier !! (to_level t, to_op t) in
  let delta (now : Z) (of_was : TotalOp → Z) := sat_sub64 now (from_option of_was 0 was) in
  let buckets (of_was : TotalOp → list Bucket) := from_option of_was [] was in
  let count := delta (to_count t) to_count in
  let total_ns := delta (to_total_ns t) to_total_ns in
  MkRateOp (to_level t) (to_op t) (f64_div (f64_of count) seconds)
    (f64_div (f64_of (delta (to_bytes t) to_bytes)) seconds)
    (if 0 <? count then Some (total_ns / count) else None)
    (quantile (buckets to_latency) (to_latency t) (tenths 5))
    (quantile (buckets to_latency) (to_latency t) (f64_div (f64_of 99) (f64_of 100)))
    (quantile (buckets to_sizes) (to_sizes t) (tenths 5))
    (f64_div (f64_of (delta (to_errors t) to_errors)) seconds) (to_count t).

Definition rates (before now : Counters) (seconds : f64) : list RateEvent * list RateOp :=
  let seconds := f64_max seconds MIN_POSITIVE in
  (sort_by (busiest_first re_per_second re_total)
     (rate_event (from_pairs (cn_events before)) seconds <$> filter (λ e : string * Z, 0 < e.2) (cn_events now)),
   sort_by (busiest_first ro_per_second ro_total)
     (rate_op (from_pairs ((λ t, ((to_level t, to_op t), t)) <$> cn_ops before)) seconds <$> cn_ops now)).

Definition resources_between (before now : Counters) : option RateResources :=
  let level := level_outermost (cn_side now) in
  let '(served_before, moved_before) := totals_at (cn_ops before) level in
  let '(served, moved) := totals_at (cn_ops now) level in
  between (cn_resources before) (cn_resources now)
    (f64_div (f64_of (sat_sub64 (cn_uptime_ns now) (cn_uptime_ns before))) E9)
    (sat_sub64 served served_before) (sat_sub64 moved moved_before).

(** ** Texts *)

Definition fmt_ns (ns : Z) : string :=
  if ns <? 1000 then pretty ns +:+ "ns"
  else if ns <? 1000000 then fmt_fixed 1 (f64_div (f64_of ns) (f64_of 1000)) +:+ "us"
  else if ns <? 1000000000 then fmt_fixed 2 (f64_div (f64_of ns) (f64_of 1000000)) +:+ "ms"
  else fmt_fixed 2 (f64_div (f64_of ns) E9) +:+ "s".

Definition UNITS : list string := ["B"; "KiB"; "MiB"; "GiB"; "TiB"].
Definition fmt_bytes (bytes : f64) : string :=
  let '(value, unit) := scale_units UNITS bytes in
  if String.eqb unit "B" then fmt_fixed 0 value +:+ unit else fmt_fixed 1 value +:+ unit.

Definition fmt_resources (r : RateResources) : string :=
  let per_request := match rr_cpu_ns_per_request r, rr_switches_per_request r with
                     | Some cpu, Some switches =>
                         fmt_ns (as_u64 cpu) +:+ " CPU and " +:+ fmt_fixed 1 switches +:+ " switches per request"
                     | _, _ => "no requests"
                     end in
  let per_mib := match rr_cpu_ns_per_mib r with Some cpu => ", " +:+ fmt_ns (as_u64 cpu) +:+ " CPU per MiB" | None => "" end in
  "CPU " +:+ fmt_fixed 2 (f64_add (rr_user_cores r) (rr_sys_cores r)) +:+ " cores (user " +:+ fmt_fixed 2 (rr_user_cores r)
  +:+ ", sys " +:+ fmt_fixed 2 (rr_sys_cores r) +:+ "), " +:+ fmt_count (rr_switches_per_second r) +:+ " switches/s; "
  +:+ pretty (rr_workers r) +:+ " worker" +:+ (if rr_workers r =? 1 then "" else "s") +:+ " "
  +:+ fmt_fixed 0 (f64_div (f64_mul (f64_of 100) (rr_busy_cores r)) (f64_of (Z.max (rr_workers r) 1)))
  +:+ "% busy, " +:+ fmt_count (rr_parks_per_second r) +:+ " parks/s; " +:+ per_request +:+ per_mib.

Definition nl : string := String.String (Ascii.ascii_of_nat 10) "".
Definition line (key : string) (value : string) : string := key +:+ " " +:+ value +:+ nl.
Definition bucket_lines (key what : string) (l : list Bucket) : string :=
  String.concat "" ((λ b, line (key +:+ "." +:+ what +:+ "." +:+ pretty (bk_upper b)) (pretty (bk_count b))) <$> l).
Definition op_lines (t : TotalOp) : string :=
  let key := "op." +:+ clean (to_level t) +:+ "." +:+ clean (to_op t) in
  line (key +:+ ".count") (pretty (to_count t)) +:+ line (key +:+ ".bytes") (pretty (to_bytes t))
  +:+ line (key +:+ ".items") (pretty (to_items t)) +:+ line (key +:+ ".errors") (pretty (to_errors t))
  +:+ line (key +:+ ".total_ns") (pretty (to_total_ns t))
  +:+ bucket_lines key "latency_ns_le" (to_latency t) +:+ bucket_lines key "bytes_le" (to_sizes t).
Definition counter_lines (c : Counters) : string :=
  let r := cn_resources c in
  line "side" (clean (cn_side c)) +:+ line "pid" (pretty (cn_pid c)) +:+ line "uptime_ns" (pretty (cn_uptime_ns c))
  +:+ line "inflight" (pretty (cn_inflight c)) +:+ line "handles.files" (pretty (htt_files (cn_handles c)))
  +:+ line "handles.dirs" (pretty (htt_dirs (cn_handles c))) +:+ line "resources.user_ns" (pretty (rs_user_ns r))
  +:+ line "resources.sys_ns" (pretty (rs_sys_ns r)) +:+ line "resources.voluntary_switches" (pretty (rs_voluntary r))
  +:+ line "resources.involuntary_switches" (pretty (rs_involuntary r)) +:+ line "resources.workers" (pretty (rs_workers r))
  +:+ line "resources.busy_ns" (pretty (rs_busy_ns r)) +:+ line "resources.parks" (pretty (rs_parks r))
  +:+ String.concat "" ((λ e : string * Z, line ("event." +:+ clean e.1) (pretty e.2)) <$> cn_events c)
  +:+ String.concat "" (op_lines <$> cn_ops c).

(** Padding counts characters, which are the bytes that do not continue one. *)
Definition chars (s : string) : nat := length (filter (λ b, continues b = false) (lit s)).
Fixpoint spaces (n : nat) : string := match n with O => "" | S n => " " +:+ spaces n end.
Definition left_pad (width : nat) (s : string) : string := spaces (width - chars s) +:+ s.
Definition right_pad (width : nat) (s : string) : string := s +:+ spaces (width - chars s).
(** The columns of a row, one space between. *)
Definition row (columns : list string) : string := String.concat " " columns +:+ nl.

Definition or_dash (v : option Z) (f : Z → string) : string := match v with Some v => f v | None => "-" end.

Definition op_row (o : RateOp) : string :=
  row [right_pad 8 (clean (ro_level o)); right_pad 16 (clean (ro_op o)); left_pad 9 (fmt_fixed 1 (ro_per_second o));
       left_pad 11 (fmt_bytes (ro_bytes_per_second o)); left_pad 9 (or_dash (ro_size_p50 o) (λ b, fmt_bytes (f64_of b)));
       left_pad 10 (or_dash (ro_mean_ns o) fmt_ns); left_pad 10 (or_dash (ro_p50_ns o) fmt_ns);
       left_pad 10 (or_dash (ro_p99_ns o) fmt_ns); left_pad 8 (fmt_fixed 1 (ro_errors_per_second o));
       left_pad 10 (pretty (ro_total o))].
Definition event_row (e : RateEvent) : string :=
  row [right_pad 26 (clean (re_name e)); left_pad 9 (fmt_fixed 1 (re_per_second e)); left_pad 10 (pretty (re_total e))].

Definition render_top (now : Counters) (resources : option RateResources) (events : list RateEvent) (ops : list RateOp)
    (seconds : f64) : string :=
  let files := htt_files (cn_handles now) in let dirs := htt_dirs (cn_handles now) in
  clean (cn_side now) +:+ " " +:+ pretty (cn_pid now) +:+ " — " +:+ clean (cn_describe now) +:+ " — up "
  +:+ fmt_ns (cn_uptime_ns now) +:+ ", " +:+ pretty (cn_inflight now) +:+ " in flight, " +:+ pretty (files + dirs)
  +:+ " handles open (" +:+ pretty files +:+ " files, " +:+ pretty dirs +:+ " dirs), every " +:+ fmt_fixed 1 seconds +:+ "s" +:+ nl
  +:+ match resources with Some r => fmt_resources r +:+ nl | None => "" end
  +:+ nl +:+ row [right_pad 8 "level"; right_pad 16 "op"; left_pad 9 "per sec"; left_pad 11 "bytes/s"; left_pad 9 "size p50";
                  left_pad 10 "mean"; left_pad 10 "p50"; left_pad 10 "p99"; left_pad 8 "err/s"; left_pad 10 "total"]
  +:+ String.concat "" (op_row <$> ops)
  +:+ nl +:+ row [right_pad 26 "event"; left_pad 9 "per sec"; left_pad 10 "total"]
  +:+ String.concat "" (event_row <$> events).

(** *** Handles *)

Definition process_row (r : HandlesProcess) : string :=
  let '(pid, name) := if hp_pid r =? 0 then ("?", "(unattributed)") else (pretty (hp_pid r), clean (hp_name r)) in
  row [left_pad 8 pid; right_pad 16 name; left_pad 8 (pretty (hp_files r)); left_pad 8 (pretty (hp_dirs r));
       " " +:+ clean (hp_within r)].
Definition state_name (s : StateSession) : string :=
  match s with SS_Attached => "attached" | SS_Detached => "detached" | SS_Dropped => "dropped" end.
Definition session_row (r : HandlesSession) : string :=
  row [left_pad 8 (pretty (hse_session r)); right_pad 40 (clean (hse_remote r)); right_pad 9 (state_name (hse_state r));
       left_pad 8 (pretty (hse_files r)); left_pad 8 (pretty (hse_dirs r))].
Definition most_first {A} (held : A → Z) (a b : A) : comparison := Z.compare (held b) (held a).

Definition fmt_handles (h : Handles) : string :=
  let '(table, files, dirs) :=
    match h with
    | Handles_Processes rows =>
        let rows := sort_by (most_first (λ r, hp_files r + hp_dirs r)) rows in
        (row [left_pad 8 "pid"; right_pad 16 "process"; left_pad 8 "files"; left_pad 8 "dirs"; " within"]
         +:+ String.concat "" (process_row <$> rows), sum_z hp_files rows, sum_z hp_dirs rows)
    | Handles_Sessions rows =>
        let rows := sort_by (most_first (λ r, hse_files r + hse_dirs r)) rows in
        (row [left_pad 8 "session"; right_pad 40 "client"; right_pad 9 "state"; left_pad 8 "files"; left_pad 8 "dirs"]
         +:+ String.concat "" (session_row <$> rows), sum_z hse_files rows, sum_z hse_dirs rows)
    end in
  table +:+ pretty (files + dirs) +:+ " handles open: " +:+ pretty files +:+ " files, " +:+ pretty dirs +:+ " dirs" +:+ nl.

(** *** Records *)

Definition time_of_day (at_ns : Z) : string :=
  let day_ms := at_ns / 1000000 mod 86400000 in
  padded 2 (day_ms / 3600000) +:+ ":" +:+ padded 2 (day_ms / 60000 mod 60) +:+ ":" +:+ padded 2 (day_ms / 1000 mod 60)
  +:+ "." +:+ padded 3 (day_ms mod 1000).

Definition fields (l : list (string * option Z)) : string :=
  String.concat "" ((λ nv : string * option Z,
    match nv.2 with Some v => " " +:+ nv.1 +:+ "=" +:+ pretty v | None => "" end) <$> l).
Definition fmt_ids (i : Ids) : string :=
  match id_op i with Some op => " op=" +:+ op | None => "" end
  +:+ fields [("session", id_session i); ("conn", id_conn i); ("stream", id_stream i); ("unique", id_unique i)].

Definition fmt_summary (s : Summary) : string :=
  su_level s +:+ " " +:+ default "?" (id_op (su_ids s)) +:+ fmt_ids (su_ids s)
  +:+ fields [("ino", su_ino s); ("fh", su_fh s); ("offset", su_offset s); ("size", su_size s); ("pid", su_pid s)]
  +:+ (if 0 <? su_bytes s then " bytes=" +:+ pretty (su_bytes s) else "")
  +:+ (if 0 <? su_items s then " items=" +:+ pretty (su_items s) else "")
  +:+ (if su_errno s =? 0 then "" else " errno=" +:+ pretty (su_errno s))
  +:+ " total=" +:+ fmt_ns (su_total_ns s)
  +:+ String.concat "" ((λ p : string * Z, " " +:+ p.1 +:+ "=" +:+ fmt_ns p.2) <$> su_phases s).

Definition fmt_response (r : Response) : string :=
  match r with
  | Resp_Err errno => "errno " +:+ pretty errno
  | Resp_Read data => pretty (len_z data) +:+ " bytes"
  | Resp_Written n => pretty n +:+ " written"
  | Resp_Readdir entries end_ => pretty (len_z entries) +:+ " entries" +:+ (if end_ then ", end" else "")
  | other => kind_name other
  end.

Section records.
Context {CE : Type} `{HReq : !Capnp CE (request_R CE), HResp : !Capnp CE (response_R CE), HEv : !Capnp CE (event_R CE)}.
Context (show_error : ErrorCodec CE → string).

Definition fmt_exchange (x : Exchange) : string :=
  let asked := match decode (T:=Request) (xc_request x) with
               | Ok req => op_name req +:+ " " +:+ subject req
               | Err e => "(request undecodable: " +:+ show_error e +:+ ")"
               end in
  xc_side x +:+ " exchange " +:+ asked +:+ fmt_ids (xc_ids x) +:+ " (1 in " +:+ pretty (xc_every x) +:+ ")"
  +:+ (if 0 <? xc_request_elided x then " with " +:+ pretty (xc_request_elided x) +:+ " bytes (cut)" else "")
  +:+ if String.eqb (xc_outcome x) "replied" then
        " -> " +:+ match decode (T:=Response) (xc_reply x) with
                   | Ok (Resp_Read data) => if 0 <? xc_reply_elided x then pretty (xc_reply_elided x) +:+ " bytes (cut)"
                                            else fmt_response (Resp_Read data)
                   | Ok resp => fmt_response resp
                   | Err e => "undecodable (" +:+ show_error e +:+ ")"
                   end +:+ " in " +:+ fmt_ns (xc_elapsed_ns x)
      else " -> no reply: " +:+ xc_outcome x +:+ " after " +:+ fmt_ns (xc_elapsed_ns x).

Definition census_op (o : CensusOp) : string :=
  (if (co_seen o =? 0) && (0 <? co_sampled o) then " " +:+ co_op o +:+ "=" +:+ pretty (co_sampled o) +:+ "/?"
   else " " +:+ co_op o +:+ "=" +:+ pretty (co_sampled o) +:+ "/" +:+ pretty (co_seen o))
  +:+ (if 0 <? co_dropped o then " (" +:+ pretty (co_dropped o) +:+ " dropped)" else "").

Definition hex16 (z : Z) : string := String.string_of_list_byte (hex_text 16 z).
Definition line_of (r : Record_) : string :=
  time_of_day (rc_at_ns r) +:+
  match rc_what r with
  | Hap_Event name ids detail => " " +:+ name +:+ fmt_ids ids +:+ ": " +:+ detail
  | Hap_Request summary => " " +:+ fmt_summary summary
  | Hap_Dropped n => " (" +:+ pretty n +:+ " records dropped: this reader fell behind)"
  | Hap_Exchange x => " " +:+ fmt_exchange x
  | Hap_Undecodable side ids error body =>
      " " +:+ side +:+ " undecodable frame of " +:+ pretty (len_z body) +:+ " bytes" +:+ fmt_ids ids +:+ ": " +:+ error
  | Hap_EventFrame side ids every seq body =>
      " " +:+ side +:+ " " +:+ match decode (T:=Event) body with
                               | Ok event => pretty (len_z (ev_items event)) +:+ " change events"
                               | Err e => "undecodable events (" +:+ show_error e +:+ ")"
                               end +:+ fmt_ids ids +:+ " seq=" +:+ pretty seq +:+ " (1 in " +:+ pretty every +:+ ")"
  | Hap_Header h =>
      " capture of " +:+ hd_side h +:+ " " +:+ pretty (hd_pid h) +:+ " (" +:+ hd_describe h +:+ "), protocol "
      +:+ hex16 (hd_proto_revision h) +:+ ", control " +:+ hex16 (hd_control_revision h)
  | Hap_Census ops dropped =>
      " census:" +:+ String.concat "" (census_op <$> ops)
      +:+ (if 0 <? dropped then ", " +:+ pretty dropped +:+ " records dropped" else "")
  end.
Definition fmt_record (r : Record_) : string := clean (line_of r).

(** The derived forms of whole messages. *)
Context (debug_request : Request → string) (debug_response : Response → string) (debug_event : Event → string).

Definition decoded {T R} `{!Message CE T R, !Capnp CE R} (debug : T → string) (body : text) : string :=
  match decode (T:=T) body with Ok message => debug message | Err e => "(does not decode: " +:+ show_error e +:+ ")" end.
Definition frame_lines (what shown : string) : string :=
  nl +:+ "  " +:+ what +:+ ":"
  +:+ String.concat "" ((λ l, nl +:+ "    " +:+ String.string_of_list_byte l) <$> lines (lit shown)).
Definition clean_keeping_lines (shown : string) : string :=
  String.concat nl ((λ l, clean (String.string_of_list_byte l)) <$> lines (lit shown)).
Definition fmt_record_long (r : Record_) : string :=
  clean_keeping_lines
    (line_of r
     +:+ match rc_what r with
         | Hap_Exchange x =>
             frame_lines "request" (decoded debug_request (xc_request x))
             +:+ match xc_reply x with [] => "" | _ => frame_lines "reply" (decoded debug_response (xc_reply x)) end
         | Hap_EventFrame _ _ _ _ body => frame_lines "events" (decoded debug_event body)
         | _ => ""
         end).
End records.

(** ** Captures *)

Definition CAPTURE_MAGIC : text := [Byte.x6a; Byte.x66; Byte.x73; Byte.x63; Byte.x61; Byte.x70; Byte.x00; Byte.x01].

Section captures.
Context {CE : Type} `{HC : !Capnp CE (control_reply_R CE)}.
Context (show_error : ErrorCodec CE → string) (show_reply : ControlReply → string).

(** The two revisions are hashes of the schemas: the writer's and the reader's. *)
Definition capture_preamble (control proto : Z) : text := CAPTURE_MAGIC ++ le_bytes 8 control ++ le_bytes 8 proto.

Definition check_preamble (our_control our_proto : Z) (preamble : text) : result string (option string) :=
  if negb (bool_decide (take 8 preamble = CAPTURE_MAGIC)) then Err "not a jackalopefs capture"
  else
    let revision (at_ : nat) := of_le_bytes (take 8 (drop at_ preamble)) in
    let control := revision 8%nat in let proto := revision 16%nat in
    if negb (control =? our_control) then
      Err ("written with control revision " +:+ hex16 control +:+ "; this jackalopefs-ctl reads " +:+ hex16 our_control)
    else Ok (if negb (proto =? our_proto) then
               Some ("its frames are of protocol revision " +:+ hex16 proto +:+ ", not this build's " +:+ hex16 our_proto
                     +:+ ", and may decode wrongly; --frames-to keeps their bytes")
             else None).

Definition read_preamble (our_control our_proto : Z) (s : Stream) : result string (option string * Stream) :=
  match read_exact (CE:=CE) 24 s with
  | Err e => Err ("too short for a capture (" +:+ show_error e +:+ ")")
  | Ok (preamble, s) => match check_preamble our_control our_proto preamble with Err e => Err e | Ok w => Ok (w, s) end
  end.

Definition write_record (out : text) (r : Record_) : result (ErrorCodec CE) text := write_frame out (CR_Record r).
Fixpoint write_records (out : text) (rs : list Record_) : result (ErrorCodec CE) text :=
  match rs with [] => Ok out | r :: rs => out ← write_record out r; write_records out rs end.

(** The next record, and the stream after it; [None] of [read_frame] does not happen. *)
Definition read_record (s : Stream) : option (result string (option (Record_ * Stream))) :=
  match read_frame (T:=ControlReply) s with
  | None => None
  | Some (Ok (CR_Record r, s)) => Some (Ok (Some (r, s)))
  | Some (Ok (other, _)) => Some (Err ("not a record: " +:+ show_reply other))
  | Some (Err e) => Some (if is_eof e then Ok None else Err (show_error e))
  end.
End captures.

(** ** A capture reads back *)

Section reading.
Context {CE : Type} `{HC : !Capnp CE (control_reply_R CE)}.
Context `{HCL : !CapnpLaws CE ControlReply (control_reply_R CE)}.
Context (show_error : ErrorCodec CE → string) (show_reply : ControlReply → string).

(** The records of a stream, to its end; [None] is more records than [fuel]. *)
Fixpoint read_records (fuel : nat) (s : Stream) : option (result string (list Record_)) :=
  match fuel with
  | O => None
  | S fuel =>
      match read_record show_error show_reply s with
      | None => None
      | Some (Err e) => Some (Err e)
      | Some (Ok None) => Some (Ok [])
      | Some (Ok (Some (r, s))) =>
          match read_records fuel s with Some (Ok rs) => Some (Ok (r :: rs)) | other => other end
      end
  end.

Definition framed (r : Record_) (frame : text) : Prop := encode (T:=ControlReply) (CR_Record r) = Ok frame.

Lemma write_records_frames rs : ∀ out bytes,
  write_records out rs = Ok bytes → ∃ frames, Forall2 framed rs frames ∧ bytes = out ++ mjoin frames.
Proof.
  induction rs as [|r rs IH]; intros out bytes; cbn [write_records].
  - intros [= ->]. exists []. cbn. by rewrite app_nil_r.
  - unfold write_record, write_frame. destruct (encode (CR_Record r)) as [f|e] eqn:Hf; cbn; [|done].
    intros (frames & Hfs & ->)%IH. exists (f :: frames). split; [by constructor|]. cbn. by rewrite (assoc_L (++)).
Qed.

Lemma frames_write rs frames : Forall2 framed rs frames → ∀ out, write_records out rs = Ok (out ++ mjoin frames).
Proof.
  intros Hf. induction Hf as [|r f rs frames Hr _ IH]; intros out; cbn [write_records].
  - cbn. by rewrite app_nil_r.
  - unfold write_record, write_frame. unfold framed in Hr. rewrite Hr. cbn. rewrite IH. by rewrite <- (assoc_L (++)).
Qed.

(** However much of the frames has been written, the records whose frames are whole read
    back and no other. *)
Lemma read_written rs frames : Forall2 framed rs frames → Forall (λ r, happened_wf (rc_what r)) rs → ∀ m,
  ∃ k, (k <= length rs)%nat
    ∧ read_records (S (length rs)) (MkStream (take m (mjoin frames)) None) = Some (Ok (take k rs))
    ∧ ∀ j, (length (mjoin (take j frames)) <= m)%nat → (j <= length rs)%nat → (j <= k)%nat.
Proof.
  intros Hf Hwf. induction Hf as [|r f rs frames Hr Hf IH]; intros m.
  { exists 0%nat. cbn. rewrite take_nil. split; [done|]. split; [done|]. intros j _ Hj. exact Hj. }
  apply Forall_cons in Hwf as [Hw Hwf]. cbn [mjoin list_join]. destruct (decide (length f <= m)%nat) as [Hm|Hm].
  - destruct (IH Hwf (m - length f)%nat) as (k & Hk & Hread & Hall). exists (S k). cbn [length]. split; [lia|]. split.
    + rewrite take_app_ge by done. revert Hread. generalize (S (length rs)) as fuel. intros fuel Hread.
      cbn [read_records]. unfold read_record.
      rewrite (read_encoded (HL:=ControlReply_laws) (HCL:=HCL) (CR_Record r) f _ None Hw Hr).
      by match type of Hread with ?x = _ => match goal with |- match ?y with _ => _ end = _ => change y with x end end; rewrite Hread.
    + intros [|j] Hj Hlen; [lia|]. cbn [take mjoin list_join] in Hj. rewrite length_app in Hj.
      apply le_n_S, Hall; [|lia]. apply Nat.le_add_le_sub_l. exact Hj.
  - exists 0%nat. cbn [length]. split; [lia|]. split.
    + rewrite take_app_le by lia. cbn [read_records]. unfold read_record.
      destruct (cut_frame_is_eof HCL (CR_Record r) f m Hr ltac:(lia)) as (e & -> & He). by rewrite He.
    + intros [|j] Hj Hlen; [lia|]. cbn [take mjoin list_join] in Hj. rewrite length_app in Hj. lia.
Qed.

Lemma preamble_length control proto : length (capture_preamble control proto) = 24%nat.
Proof. unfold capture_preamble. by rewrite !length_app, !length_le_bytes. Qed.

Lemma check_preamble_spec control proto our_control our_proto :
  is_u64 control → is_u64 proto →
  check_preamble our_control our_proto (capture_preamble control proto)
  = if bool_decide (control = our_control)
    then Ok (if bool_decide (proto = our_proto) then None
             else Some ("its frames are of protocol revision " +:+ hex16 proto +:+ ", not this build's " +:+ hex16 our_proto
                        +:+ ", and may decode wrongly; --frames-to keeps their bytes"))
    else Err ("written with control revision " +:+ hex16 control +:+ "; this jackalopefs-ctl reads " +:+ hex16 our_control).
Proof.
  intros Hc Hp. unfold check_preamble, capture_preamble.
  rewrite take_app_length' by done. rewrite bool_decide_eq_true_2 by done. cbn [negb].
  rewrite (drop_app_length' CAPTURE_MAGIC) by done.
  rewrite (assoc_L (++) CAPTURE_MAGIC), (drop_app_length' (CAPTURE_MAGIC ++ _)) by (rewrite length_app, length_le_bytes; done).
  rewrite take_app_length' by (by rewrite length_le_bytes).
  rewrite take_ge by (rewrite length_le_bytes; done).
  unfold is_u64, u64_max in *. rewrite !of_le_bytes_le by (change (256 ^ Z.of_nat 8) with (2 ^ 64); lia).
  assert (∀ a b : Z, (a =? b) = bool_decide (a = b)) as Hb
    by (intros a b; case_bool_decide; [by apply Z.eqb_eq|by apply Z.eqb_neq]).
  rewrite !Hb. repeat case_bool_decide; done.
Qed.
End reading.

(** ** Texts are inert *)

(** Whether a text has a control character. *)
Fixpoint controls (t : text) : bool :=
  match t with
  | [] => false
  | a :: rest => ctl1 a || match rest with b :: _ => ctl2 a b | [] => false end || controls rest
  end.

(** What stands for a control character is none, and begins with none that could end one
    of two bytes. *)
Lemma escaped_inert c : 0 <= c < 160 → ∀ t, controls (escaped c ++ t) = controls t.
Proof.
  intros Hc t.
  assert (forallb (λ c, negb (controls (escaped c)) && match rev (escaped c) with b :: _ => byte_z b <? 128 | [] => false end
                        && negb (bool_decide (escaped c = []))) (seqZ 0 160) = true) as Hall by (vm_compute; reflexivity).
  rewrite forallb_forall in Hall. specialize (Hall c). rewrite !andb_true_iff, !negb_true_iff in Hall.
  destruct Hall as [[Hn Hl] _]; [apply list_elem_of_In, elem_of_seqZ; lia|]. revert Hn Hl.
  generalize (escaped c) as e. clear. induction e as [|a e IH]; [done|]. intros Hn Hl. cbn [app controls] in *.
  apply orb_false_iff in Hn as [[H1 H2]%orb_false_iff Hn]. rewrite H1. cbn [orb].
  destruct e as [|b e].
  - cbn in Hl. cbn [app]. assert (∀ b, ctl2 a b = false) as H by (intros b; unfold ctl2; lia).
    destruct t as [|b t]; [done|]. by rewrite H.
  - cbn [app]. cbn [app] in IH. rewrite H2. cbn [orb]. apply IH; [done|]. cbn [rev] in Hl |- *.
    destruct (rev e ++ [b]) as [|x l] eqn:E; [by destruct (rev e)|]. done.
Qed.

Lemma clean_text_inert t : controls (clean_text t) = false.
Proof.
  remember (length t) as n eqn:Hn. revert t Hn. induction n as [n IH] using lt_wf_ind. intros t ->.
  destruct t as [|a rest]; [done|]. cbn [clean_text].
  assert (controls (clean_text rest) = false) as Hr by (eapply IH; [|reflexivity]; cbn; lia).
  destruct (ctl1 a) eqn:H1.
  { rewrite escaped_inert; [done|]. pose proof (byte_z_range a). unfold ctl1 in H1. lia. }
  destruct rest as [|b rest']; [cbn; by rewrite H1|]. destruct (ctl2 a b) eqn:H2.
  { rewrite escaped_inert by (pose proof (byte_z_range b); unfold ctl2 in H2; lia).
    eapply IH; [|reflexivity]. cbn. lia. }
  cbn [controls]. rewrite H1, Hr. cbn [orb]. rewrite orb_false_r.
  destruct (clean_text (b :: rest')) as [|x l] eqn:E; [done|]. cbn [clean_text] in E.
  destruct (ctl1 b) eqn:Hb.
  { assert (∃ l', x :: l = Byte.x5c :: l') as [l' [= -> _]].
    { rewrite <- E. unfold escaped. repeat case_match; cbn; eauto. }
    unfold ctl2. cbn. lia. }
  destruct rest' as [|d rest'']; [injection E as <- <-; done|]. destruct (ctl2 b d) eqn:Hd.
  - assert (∃ l', x :: l = Byte.x5c :: l') as [l' [= -> _]].
    { rewrite <- E. unfold escaped. repeat case_match; cbn; eauto. }
    unfold ctl2. cbn. lia.
  - injection E as <- _. done.
Qed.

Lemma clean_text_same t : controls t = false → clean_text t = t.
Proof.
  induction t as [|a rest IH]; [done|]. cbn [controls clean_text].
  intros [[H1 H2]%orb_false_iff Hr]%orb_false_iff. rewrite H1. destruct rest as [|b rest']; [done|].
  rewrite H2. by rewrite IH.
Qed.

(** ** A quantile is a value's bucket *)

Lemma inserted_elsewhere {K V} `{Countable K} (l : list (K * V)) k : ∀ m : gmap K V,
  k ∉ l.*1 → foldl (λ m kv, <[kv.1 := kv.2]> m) m l !! k = m !! k.
Proof.
  induction l as [|[k' v'] l IH]; intros m Hk; [done|]. cbn in *. apply not_elem_of_cons in Hk as [Hne Hk].
  by rewrite IH, lookup_insert_ne by done.
Qed.
Lemma from_pairs_lookup {K V} `{Countable K} (l : list (K * V)) k v :
  NoDup l.*1 → (k, v) ∈ l → from_pairs l !! k = Some v.
Proof.
  unfold from_pairs. generalize (∅ : gmap K V) as m.
  induction l as [|[k' v'] l IH]; intros m Hd Hin; [by apply elem_of_nil in Hin|]. cbn in *.
  apply NoDup_cons in Hd as [Hk Hd]. apply elem_of_cons in Hin as [[= <- <-]|Hin]; [|by apply IH].
  by rewrite inserted_elsewhere, lookup_insert_eq.
Qed.

(** The buckets of a histogram from the [i]th. *)
Fixpoint kept (i : Z) (d : list Z) : list (Z * Z) :=
  match d with [] => [] | c :: d => (if 0 <? c then [(upper i, c)] else []) ++ kept (i + 1) d end.

Lemma Histogram_buckets_kept d : Histogram_buckets d = kept 0 d.
Proof.
  unfold Histogram_buckets.
  assert (∀ n, omap (λ ic : nat * Z, if 0 <? ic.2 then Some (upper (Z.of_nat ic.1), ic.2) else None)
                 (imap (λ j c, ((n + j)%nat, c)) d) = kept (Z.of_nat n) d) as H; [|exact (H 0%nat)].
  induction d as [|c d IH]; intros n; [done|]. cbn [imap kept]. cbn [omap list_omap fst snd].
  rewrite Nat.add_0_r.
  replace (Z.of_nat n + 1) with (Z.of_nat (S n)) by lia. rewrite <- IH.
  rewrite (imap_ext _ (λ j c, ((S n + j)%nat, c))) by (intros; cbn; f_equal; lia). by destruct (0 <? c).
Qed.

Lemma elem_of_kept d : ∀ i u c, (u, c) ∈ kept i d ↔ ∃ j : nat, d !! j = Some c ∧ 0 < c ∧ u = upper (i + Z.of_nat j).
Proof.
  induction d as [|c' d IH]; intros i u c; cbn [kept].
  - split; [by intros ?%elem_of_nil|]. by intros (j & Hj & _).
  - rewrite elem_of_app, IH. split.
    + intros [Hin|(j & Hj & Hc & ->)]; [|exists (S j); split_and!; [done..|f_equal; lia]].
      destruct (Z.ltb_spec 0 c'); [|by apply elem_of_nil in Hin]. apply list_elem_of_singleton in Hin as [= -> ->].
      exists 0%nat. split_and!; [done..|f_equal; lia].
    + intros ([|j] & Hj & Hc & ->); [left|right; exists j; split_and!; [done..|f_equal; lia]].
      injection Hj as ->. replace (0 <? c) with true by lia. apply list_elem_of_singleton. do 2 f_equal. lia.
Qed.

Lemma kept_sorted d : ∀ i, 0 ≤ i → i + len_z d ≤ BUCKETS → StronglySorted (λ a b, a.1 < b.1) (kept i d).
Proof.
  unfold len_z. induction d as [|c d IH]; intros i Hi Hl; cbn [kept length] in *; [constructor|].
  specialize (IH (i + 1) ltac:(lia) ltac:(lia)). destruct (0 <? c); [|done]. constructor; [done|].
  apply Forall_forall. intros [u n] (j & Hj & _ & ->)%elem_of_kept. cbn. apply lookup_lt_Some in Hj.
  apply upper_increasing; lia.
Qed.

Lemma kept_NoDup d i : 0 ≤ i → i + len_z d ≤ BUCKETS → NoDup (kept i d).*1.
Proof.
  intros Hi Hl. pose proof (kept_sorted d i Hi Hl) as Hs. induction Hs as [|a l _ IH Ha]; cbn; [constructor|].
  constructor; [|done]. intros (b & E & Hb)%list_elem_of_fmap. rewrite Forall_forall in Ha. specialize (Ha b Hb). lia.
Qed.

Lemma earlier_lookup d j c : len_z d ≤ BUCKETS → Forall (λ c, 0 ≤ c) d → d !! j = Some c →
  default 0 (from_pairs (kept 0 d) !! upper (Z.of_nat j)) = c.
Proof.
  intros Hl Hd Hj. pose proof (lookup_lt_Some _ _ _ Hj) as Hlt. unfold len_z in Hl.
  assert (0 ≤ c) as Hc by (rewrite Forall_forall in Hd; apply Hd; by eapply list_elem_of_lookup_2).
  destruct (decide (c = 0)) as [->|Hne].
  - unfold from_pairs. rewrite inserted_elsewhere; [done|].
    intros ([u n] & E & (j' & Hj' & Hn & ->)%elem_of_kept)%list_elem_of_fmap. cbn in E.
    pose proof (lookup_lt_Some _ _ _ Hj'). destruct (Nat.lt_trichotomy j j') as [|[->|]].
    + pose proof (upper_increasing (Z.of_nat j) (0 + Z.of_nat j')). lia.
    + rewrite Hj in Hj'. injection Hj'. lia.
    + pose proof (upper_increasing (0 + Z.of_nat j') (Z.of_nat j)). lia.
  - rewrite (from_pairs_lookup _ _ c); [done|apply kept_NoDup; unfold len_z; lia|]. apply elem_of_kept. exists j.
    split_and!; [done|lia|done].
Qed.

Lemma sorted_weaken {A} (R R' : A → A → Prop) l : (∀ a b, R a b → R' a b) → StronglySorted R l → StronglySorted R' l.
Proof. intros HR. induction 1 as [|a l _ IH Ha]; constructor; [done|]. eapply Forall_impl; [exact Ha|]. apply HR. Qed.
Lemma sorted_filter {A} (R : A → A → Prop) (P : A → Prop) `{∀ x, Decision (P x)} l :
  StronglySorted R l → StronglySorted R (filter P l).
Proof.
  induction 1 as [|a l _ IH Ha]; [constructor|]. rewrite filter_cons. case_decide; [|done]. constructor; [done|].
  apply Forall_forall. intros b [_ Hb]%list_elem_of_filter. rewrite Forall_forall in Ha. by apply Ha.
Qed.

(** What was added to a histogram is the histogram of what was added. *)
Lemma added_kept (m : gmap Z Z) h d i : length d = length h → Forall (λ c, 0 ≤ c) h → Forall (λ c, 0 ≤ c) d →
  (∀ j c, h !! j = Some c → default 0 (m !! upper (i + Z.of_nat j)) = c) →
  filter (λ un : Z * Z, 0 < un.2)
    ((λ b, (bk_upper b, sat_sub64 (bk_count b) (default 0 (m !! bk_upper b)))) ∘ bucket_of <$> kept i (zip_with Z.add h d))
  = kept i d.
Proof.
  intros Hlen Hh. revert d i Hlen. induction Hh as [|c h Hc Hh IH]; intros [|a d] i Hlen Hd Hm; [done..|].
  apply Forall_cons in Hd as [Ha Hd]. cbn [zip_with kept]. rewrite fmap_app, filter_app, (IH d (i + 1)).
  - f_equal. pose proof (Hm 0%nat c eq_refl) as H0. rewrite Z.add_0_r in H0.
    destruct (Z.ltb_spec 0 (c + a)) as [Hs|Hs]; [|by replace (0 <? a) with false by lia].
    cbn -[filter]. rewrite H0. unfold sat_sub64. rewrite filter_cons. cbn. destruct (Z.ltb_spec 0 a) as [Hp|Hp].
    + rewrite decide_True by lia. cbn. do 2 f_equal. lia.
    + by rewrite decide_False by lia.
  - by injection Hlen.
  - done.
  - intros j c' Hj. rewrite <- (Hm (S j) c' Hj). do 3 f_equal. lia.
Qed.

Lemma added_between h d : len_z h ≤ BUCKETS → length d = length h → Forall (λ c, 0 ≤ c) h → Forall (λ c, 0 ≤ c) d →
  added (bucket_of <$> Histogram_buckets h) (bucket_of <$> Histogram_buckets (zip_with Z.add h d)) = kept 0 d.
Proof.
  intros Hl Hlen Hh Hd. unfold added. rewrite !Histogram_buckets_kept.
  assert (((λ b, (bk_upper b, bk_count b)) <$> (bucket_of <$> kept 0 h)) = kept 0 h) as ->.
  { rewrite <- list_fmap_compose. etransitivity; [|apply list_fmap_id]. apply list_fmap_ext. by intros i [u n] _. }
  rewrite <- list_fmap_compose, added_kept; [|done..|intros; by apply earlier_lookup].
  apply sort_by_sorted. apply (sorted_weaken (λ a b, a.1 < b.1)); [|apply (kept_sorted d 0); unfold len_z in *; lia].
  intros a b Hb. unfold pair_cmp, then_cmp. assert ((a.1 ?= b.1) = Lt) as -> by (by apply Z.compare_lt_iff). done.
Qed.

Lemma filter_none {A} (P : A → Prop) `{∀ x, Decision (P x)} l : Forall (λ x, ¬ P x) l → filter P l = [].
Proof. induction 1 as [|x l Hx _ IH]; [done|]. by rewrite filter_cons, decide_False. Qed.
Lemma filter_all {A} (P : A → Prop) `{∀ x, Decision (P x)} l : Forall P l → filter P l = l.
Proof. induction 1 as [|x l Hx _ IH]; [done|]. by rewrite filter_cons, decide_True, IH. Qed.

(** Values in the order of their buckets: first those of the least bucket. *)
Lemma counts_parts s : ∀ i, StronglySorted (λ v w, bucket v ≤ bucket w) s → Forall (λ v, i ≤ bucket v) s →
  s = filter (λ v, bucket v = i) s ++ filter (λ v, bucket v ≠ i) s.
Proof.
  intros i Hs Hi. induction Hs as [|v s Hs IH Hv]; [done|]. apply Forall_cons in Hi as [Hvi Hi].
  rewrite !filter_cons. destruct (decide (bucket v = i)) as [E|E].
  - rewrite decide_False by (intros []; done). cbn. by rewrite <- IH.
  - rewrite decide_True by done. assert (Forall (λ w, bucket w ≠ i) s) as Hs'.
    { eapply Forall_impl; [exact Hv|]. cbn. lia. }
    by rewrite filter_none, filter_all.
Qed.

Lemma kept_holds d : ∀ i s, StronglySorted (λ v w, bucket v ≤ bucket w) s →
  Forall (λ v, i ≤ bucket v < i + len_z d) s → (∀ j c, d !! j = Some c → c = counts s (i + Z.of_nat j)) →
  sum_z snd (kept i d) = len_z s
  ∧ ∀ seen rank, seen < rank ≤ seen + len_z s →
    ∃ v, s !! Z.to_nat (rank - seen - 1) = Some v ∧ find_rank seen rank (kept i d) = Some (upper (bucket v)).
Proof.
  induction d as [|c d IH]; intros i s Hs Hi Hd; cbn [kept].
  { destruct s as [|v s]; [|apply Forall_cons in Hi as [Hv _]; unfold len_z in Hv; cbn in Hv; lia].
    split; [done|]. unfold len_z. cbn. lia. }
  pose proof (Hd 0%nat c eq_refl) as Hc. rewrite Z.add_0_r in Hc.
  assert (Forall (λ v, i ≤ bucket v) s) as Hi' by (eapply Forall_impl; [exact Hi|]; cbn; lia).
  pose proof (counts_parts s i Hs Hi') as Hparts.
  change (counts s i) with (len_z (filter (λ v, bucket v = i) s)) in Hc.
  set (first := filter (λ v, bucket v = i) s) in *. set (rest := filter (λ v, bucket v ≠ i) s) in *.
  pose proof (f_equal length Hparts) as Hlen. rewrite length_app in Hlen.
  destruct (IH (i + 1) rest) as [Hsum Hrank].
  - by apply sorted_filter.
  - apply Forall_forall. intros v [Hne Hv]%list_elem_of_filter. rewrite Forall_forall in Hi. specialize (Hi v Hv).
    unfold len_z in *. cbn [length] in Hi. lia.
  - intros j c' Hj. rewrite (Hd (S j) c' Hj). unfold counts, rest. do 2 f_equal.
    replace (i + Z.of_nat (S j)) with (i + 1 + Z.of_nat j) by lia.
    rewrite list_filter_filter_l; [done|]. intros v E. lia.
  - unfold len_z in Hc, Hsum, Hrank |- *. assert (sum_z snd (if 0 <? c then [(upper i, c)] else []) = c) as Hs0.
    { destruct (Z.ltb_spec 0 c); [by rewrite sum_z_one|]. rewrite sum_z_nil. lia. }
    split; [rewrite sum_z_app, Hs0; lia|]. intros seen rank Hr.
    destruct (decide (rank <= seen + c)) as [Hle|Hgt].
    + destruct (lookup_lt_is_Some_2 first (Z.to_nat (rank - seen - 1))) as [v Hv]; [lia|].
      exists v. split; [rewrite Hparts; by apply lookup_app_l_Some|].
      apply list_elem_of_lookup_2, list_elem_of_filter in Hv as [-> _].
      replace (0 <? c) with true by lia. cbn. by replace (rank <=? seen + c) with true by lia.
    + destruct (Hrank (seen + c) rank ltac:(lia)) as (v & Hv & Hf). exists v. split.
      * rewrite Hparts. rewrite lookup_app_r by lia. rewrite <- Hv. f_equal. lia.
      * destruct (Z.ltb_spec 0 c); cbn; [by replace (rank <=? seen + c) with false by lia|].
        rewrite <- Hf. f_equal. lia.
Qed.

Lemma bucket_sorted s : Forall is_u64 s → StronglySorted Z.le s → StronglySorted (λ v w, bucket v ≤ bucket w) s.
Proof.
  intros Hs. induction 1 as [|v s _ IH Hv]; [constructor|]. apply Forall_cons in Hs as [Hu Hs]. constructor; [by apply IH|].
  apply Forall_forall. intros w Hw. rewrite Forall_forall in Hv, Hs. apply bucket_mono; auto.
Qed.

(** ** Properties *)

(** C28: A capture reads back.  However much of a capture file has reached the disk: cut inside its
    preamble it is refused, and so is one of another control revision; of this revision,
    it gives, in order, the records up to some point and then its end, never an
    error, never a record that was not written, and every record whose bytes are
    whole; so a whole file gives all of them.  There is a warning exactly when its
    frames are of another protocol revision. *)
Theorem capture_reads_back {CE} `{HC : !Capnp CE (control_reply_R CE)}
    (HCL : CapnpLaws CE ControlReply (control_reply_R CE)) show_error show_reply
    control proto our_control our_proto rs bytes n :
  is_u64 control → is_u64 proto → Forall (λ r, happened_wf (rc_what r)) rs →
  write_records (capture_preamble control proto) rs = Ok bytes →
  let file := MkStream (take n bytes) None in
  let opened := read_preamble show_error our_control our_proto file in
  ((n < 24)%nat ∨ control ≠ our_control → ∃ why, opened = Err why)
  ∧ ((24 <= n)%nat → control = our_control →
     ∃ warning s k, opened = Ok (warning, s)
       ∧ (warning = None ↔ proto = our_proto)
       ∧ read_records show_error show_reply (S (length rs)) s = Some (Ok (take k rs))
       ∧ (k <= length rs)%nat
       ∧ ∀ j whole, (j <= length rs)%nat →
           write_records (capture_preamble control proto) (take j rs) = Ok whole →
           (length whole <= n)%nat → (j <= k)%nat).
Proof.
  intros Hc Hp Hwf (frames & Hf & ->)%write_records_frames file opened.
  pose proof (preamble_length control proto) as Hl.
  assert ((24 <= n)%nat → read_exact (CE:=CE) 24 file
    = Ok (capture_preamble control proto, MkStream (take (n - 24) (mjoin frames)) None)) as Hread.
  { intros Hn. unfold read_exact, file. cbn [arriving ends]. rewrite take_app_ge by lia. rewrite Hl.
    rewrite len_z_app. unfold len_z at 1. rewrite Hl. pose proof (length_len_z (take (n - 24) (mjoin frames))).
    destruct (Z.leb_spec 24 (Z.of_nat 24 + len_z (take (n - 24) (mjoin frames)))); [|lia].
    change (Z.to_nat 24) with 24%nat. by rewrite take_app_length', drop_app_length' by done. }
  unfold opened, read_preamble. split.
  - intros Hbad. destruct (decide (24 <= n)%nat) as [Hn|Hn].
    + rewrite Hread by done. rewrite check_preamble_spec by done.
      rewrite bool_decide_eq_false_2 by (destruct Hbad; [lia|done]). eauto.
    + unfold read_exact, file. cbn [arriving ends]. unfold len_z. rewrite length_take.
      destruct (Z.leb_spec 24 (Z.of_nat (n `min` length (capture_preamble control proto ++ mjoin frames)))); [lia|]. eauto.
  - intros Hn <-. rewrite Hread by done. rewrite check_preamble_spec by done.
    rewrite bool_decide_eq_true_2 by done.
    destruct (read_written show_error show_reply rs frames Hf Hwf (n - 24)) as (k & Hk & Hrecords & Hall).
    eexists _, _, k. split; [reflexivity|]. split; [by case_bool_decide|]. split; [done|]. split; [done|].
    intros j whole Hj Hw Hlen. apply Hall; [|done].
    pose proof (frames_write _ _ (Forall2_take _ _ _ j Hf) (capture_preamble control proto)) as Hw'.
    assert (whole = capture_preamble control proto ++ mjoin (take j frames)) as -> by congruence.
    rewrite length_app, Hl in Hlen. lia.
Qed.

(** The serialization library on counts of records left out, for the witness: such a
    count is 16 bytes, and nothing else can be written. *)
Module Counts.
Definition segment_of (r : control_reply_R unit) : option (list byte) :=
  match r with
  | Ok (WR_Record (Ok (MkRecord_R t (Ok (WH_Dropped n))))) =>
      if bool_decide (0 <= t < 2 ^ 64 ∧ 0 <= n < 2 ^ 64) then Some (le_bytes 8 t ++ le_bytes 8 n) else None
  | _ => None
  end.
#[export] Instance capnp : Capnp unit (control_reply_R unit) := {|
  Builder := control_reply_R unit;
  builder_new := λ _ r, r;
  get_segments_for_output := λ r, match segment_of r with Some s => [s] | None => [[]; []] end;
  canonicalize := λ r, ok_or (segment_of r) ();
  compute_serialized_size_in_words := λ r, match segment_of r with Some s => 1 + len_z s / 8 | None => 2 end;
  write_message := λ r, match segment_of r with Some s => Ok (flat s) | None => Err () end;
  Reader := list byte;
  read_message_from_flat_slice := Numbered.read_flat;
  get_root := λ s, Ok (Ok (WR_Record (Ok (MkRecord_R (of_le_bytes (take 8 s)) (Ok (WH_Dropped (of_le_bytes (drop 8 s))))))));
  size_in_words := λ s, len_z s / 8 |}.

Lemma segment_spec r s : segment_of r = Some s →
  ∃ t n, 0 <= t < 2 ^ 64 ∧ 0 <= n < 2 ^ 64 ∧ r = Ok (WR_Record (Ok (MkRecord_R t (Ok (WH_Dropped n)))))
    ∧ s = le_bytes 8 t ++ le_bytes 8 n.
Proof. unfold segment_of. intros H. repeat case_match; simplify_eq.
  match goal with E : bool_decide _ = true |- _ => apply bool_decide_eq_true in E as [Ht Hn] end. eauto 10.
Qed.

Lemma written_segment r s : holds r s → segment_of r = Some s.
Proof. intros [hint [H|H]]; cbn -[segment_of] in H; destruct (segment_of r); unfold ok_or in H; simplify_eq; done. Qed.

Lemma laws : CapnpLaws unit ControlReply (control_reply_R unit).
Proof.
  split.
  - intros hint r. cbn -[segment_of]. by destruct (segment_of r).
  - intros r s (t & n & _ & _ & _ & ->)%written_segment%segment_spec. by rewrite len_z_app, !len_z_le.
  - intros hint r s H. cbn -[segment_of] in *. destruct (segment_of r); simplify_eq; done.
  - intros m s rest options limit (t & n & Ht & Hn & Hr & ->)%written_segment%segment_spec Hw _ _ _.
    eexists. split; [apply Numbered.read_flat_flat; [by rewrite len_z_app, !len_z_le|done]|]. split; [|done].
    rewrite Hr. cbn [get_root capnp]. rewrite take_app_length', drop_app_length' by (by rewrite length_le_bytes).
    rewrite !of_le_bytes_le by (change (256 ^ Z.of_nat 8) with (2 ^ 64); lia). done.
  - intros m s _. pose proof (length_len_z s). pose proof (Z.div_pos (len_z s) 8). cbn. lia.
Qed.
End Counts.

Lemma capture_reads_back_witness :
  let rs := [MkRecord 7 (Hap_Dropped 3); MkRecord 9 (Hap_Dropped 1)] in
  ∃ bytes, write_records (HC:=Counts.capnp) (capture_preamble 5 6) rs = Ok bytes
  ∧ let opened := read_preamble (CE:=unit) (λ _, "") 5 8 (MkStream (take 60 bytes) None) in
    ∃ warning s k, opened = Ok (Some warning, s)
      ∧ read_records (HC:=Counts.capnp) (λ _, "") (λ _, "") 3 s = Some (Ok (take k rs)) ∧ (k <= 2)%nat ∧ (1 <= k)%nat.
Proof.
  eexists. split; [vm_compute; reflexivity|].
  match goal with |- context [take 60 ?b] => set (bytes := b) end.
  destruct (capture_reads_back (HC:=Counts.capnp) Counts.laws (λ _, "") (λ _, "") 5 6 5 8
              [MkRecord 7 (Hap_Dropped 3); MkRecord 9 (Hap_Dropped 1)] bytes 60) as [_ H].
  - unfold is_u64. lia.
  - unfold is_u64. lia.
  - by repeat constructor.
  - vm_compute. reflexivity.
  - destruct H as (w & s & k & Ho & Hw & Hr & Hk & Hall); [lia|done|].
    destruct w as [w|]; [|by destruct Hw as [Hw _]; specialize (Hw eq_refl)].
    exists w, s, k. split; [exact Ho|]. split; [exact Hr|]. split; [exact Hk|].
    eapply (Hall 1%nat); [cbn; lia|vm_compute; reflexivity|vm_compute; lia].
Defined.

(** C36: A quantile between two readings of a histogram is a value's bucket.  Whatever was
    recorded before, when [vs] were recorded between the readings, in any order, the
    quantile is [None] exactly when there were none, and otherwise the bound of the
    bucket of the value that has the quantile's rank among them in order: never below
    that value, and at most a quarter above it.  The quantile is any share from zero to
    one, [num / den] exactly, and its rank the least whole number not below that share of
    the count, from one to the count: exactly so where the share is whole, and else up to
    the one part in [2 ^ 53] that the product is rounded by. *)
Theorem quantile_exact earlier vs q num den :
  share q = Some (num, den) → len_z vs < 2 ^ 53 → length earlier = Z.to_nat BUCKETS → Forall (λ c, 0 ≤ c) earlier → Forall is_u64 vs →
  let before := bucket_of <$> Histogram_buckets earlier in
  let now := bucket_of <$> Histogram_buckets (foldl Histogram_record earlier vs) in
  match quantile before now q with
  | None => vs = []
  | Some bound => ∃ r v, ranked num den (len_z vs) r ∧ merge_sort Z.le vs !! Z.to_nat (r - 1) = Some v
                         ∧ bound = upper (bucket v) ∧ v ≤ bound ∧ 4 * bound ≤ 5 * v
  end.
Proof.
  intros Hq Hn Hl Hh Hvs before now.
  set (d := (λ i, counts vs (Z.of_nat i)) <$> seq 0 (length earlier)).
  assert (∀ j c, d !! j = Some c → c = counts vs (0 + Z.of_nat j)) as Hd.
  { intros j c Hj. unfold d in Hj. rewrite list_lookup_fmap in Hj. destruct (seq _ _ !! j) eqn:E; [|done].
    apply lookup_seq in E as [-> _]. injection Hj as <-. done. }
  assert (length d = length earlier) as Hld by (unfold d; by rewrite length_fmap, length_seq).
  assert (foldl Histogram_record earlier vs = zip_with Z.add earlier d) as Hrec.
  { apply list_eq. intros j. rewrite lookup_zip_with. destruct (earlier !! j) as [c|] eqn:Hj; cbn.
    - rewrite (Histogram_record_all vs _ _ c Hvs Hj). unfold d. rewrite list_lookup_fmap, lookup_seq_lt; [done|].
      by eapply lookup_lt_Some.
    - apply lookup_ge_None. rewrite length_Histogram_record_all. by apply lookup_ge_None. }
  assert (added before now = kept 0 d) as Hadded.
  { unfold before, now. rewrite Hrec. apply added_between; [unfold len_z; rewrite Hl; done|done|done|].
    apply Forall_forall. intros c (j & Hj)%list_elem_of_lookup. rewrite (Hd j c Hj). unfold counts, len_z. lia. }
  set (s := merge_sort Z.le vs). assert (s ≡ₚ vs) as Hp by apply merge_sort_Permutation.
  assert (Forall is_u64 s) as Hs64 by (by rewrite Hp).
  destruct (kept_holds d 0 s) as [Hsum Hrank].
  - apply bucket_sorted; [done|]. apply (StronglySorted_merge_sort Z.le).
  - eapply Forall_impl; [exact Hs64|]. intros v Hv. destruct (bucket_upper_sound v Hv) as (B & _).
    unfold len_z. rewrite Hld, Hl. lia.
  - intros j c Hj. rewrite (Hd j c Hj). unfold counts, len_z. f_equal. apply Permutation_length. by rewrite Hp.
  - assert (len_z s = len_z vs) as Hlen by (unfold len_z; f_equal; by apply Permutation_length).
    unfold quantile. rewrite Hadded, Hsum, Hlen. destruct (Z.eqb_spec (len_z vs) 0) as [E|E].
    { destruct vs; [done|]. unfold len_z in E. cbn in E. lia. }
    assert (ranked num den (len_z vs) (rank_of q (len_z vs))) as Hr
      by (apply share_ranked; [done|unfold len_z in *; lia]).
    destruct (Hrank 0 (rank_of q (len_z vs))) as (v & Hv & ->); [destruct Hr; lia|].
    exists (rank_of q (len_z vs)), v. rewrite Z.sub_0_r in Hv. split; [done|]. split; [done|]. split; [done|]. apply upper_within_quarter.
    rewrite Forall_forall in Hs64. apply Hs64. by eapply list_elem_of_lookup_2.
Qed.

Lemma quantile_exact_witness :
  let earlier := Histogram_record Histogram_default 5 in
  let vs := [5000; 3; 100; 7] in
  let before := bucket_of <$> Histogram_buckets earlier in
  let now := bucket_of <$> Histogram_buckets (foldl Histogram_record earlier vs) in
  quantile before now (f64_div (f64_of 1) (f64_of 2)) = Some (upper (bucket 7))
  ∧ quantile before now (f64_div (f64_of 99) (f64_of 100)) = Some (upper (bucket 5000)).
Proof.
  intros earlier vs before now.
  assert (Forall (λ c, 0 ≤ c) earlier) as Hc.
  { apply (Forall_forall (λ c, 0 ≤ c)). intros c Hc. apply Z.leb_le.
    assert (forallb (λ c, 0 <=? c) earlier = true) as H by (vm_compute; reflexivity).
    rewrite forallb_forall in H. by apply H, list_elem_of_In. }
  assert (Forall is_u64 vs) as Hvs by (repeat constructor; unfold is_u64; lia).
  split.
  - assert (share (f64_div (f64_of 1) (f64_of 2)) = Some (2 ^ 52, 2 ^ 53)) as Hq by (vm_compute; reflexivity).
    pose proof (quantile_exact earlier vs _ _ _ Hq eq_refl eq_refl Hc Hvs) as H. cbv zeta in H.
    fold before now in H. destruct (quantile before now _) as [bound|]; [|done].
    destruct H as (r & v & [Hr Hrank] & Hv & -> & _).
    change (len_z vs) with 4 in Hrank. change (Z.eqb _ 0) with true in Hrank. assert (r = 2) as -> by exact Hrank.
    vm_compute in Hv. injection Hv as <-. done.
  - eassert (share (f64_div (f64_of 99) (f64_of 100)) = Some (_, _)) as Hq by (vm_compute; reflexivity).
    pose proof (quantile_exact earlier vs _ _ _ Hq eq_refl eq_refl Hc Hvs) as H. cbv zeta in H.
    fold before now in H. destruct (quantile before now _) as [bound|]; [|done].
    destruct H as (r & v & [Hr Hrank] & Hv & -> & _).
    change (len_z vs) with 4 in *. change (Z.eqb _ 0) with false in Hrank. cbn iota in Hrank. assert (r = 4) as -> by lia.
    vm_compute in Hv. injection Hv as <-. done.
Defined.

(** What is shown of a process acts on no terminal.  A line about a record, and any text
    once cleaned, has no control character in it (so no escape sequence and no new
    line); and a text is shown as it is exactly when it has none. *)
Theorem shown_is_inert {CE} `{HReq : !Capnp CE (request_R CE), HResp : !Capnp CE (response_R CE), HEv : !Capnp CE (event_R CE)}
    (show_error : ErrorCodec CE → string) r s :
  controls (lit (fmt_record show_error r)) = false
  ∧ controls (lit (clean s)) = false
  ∧ (clean s = s ↔ controls (lit s) = false).
Proof.
  assert (∀ s, controls (lit (clean s)) = false) as H.
  { intros t. unfold clean, lit. rewrite String.list_byte_of_string_of_list_byte. apply clean_text_inert. }
  split; [apply H|]. split; [apply H|]. split; [intros <-; apply H|]. intros Hs. unfold clean. rewrite clean_text_same by done.
  unfold lit. apply String.string_of_list_byte_of_string.
Qed.
